(* ===== verification/_CoqProject ===== *)
-Q . S2P
Prelude.v
RustStr.v
Chrono.v
IpAddr.v
Ast.v
Lexer.v
Parser.v
Format.v
LexFacts.v
FormatTokens.v
ItemTokens.v
FormatParse.v
RoundTrip.v
ParserFacts.v
CalendarArgs.v
DaySets.v
Schedule.v
Calendar.v
Trigger.v
TriggerSearch.v
TriggerMachine.v
Durations.v
Execution.v
RunnerTypes.v
Queue.v
Registry.v
RunnerApi.v
Store.v
StoreCalls.v
Sqlite.v
SqliteFacts.v
Lifecycle.v
Server.v
Alerts.v
JobConfig.v
ConfigFacts.v
Restore.v
Quota.v
LoginThrottle.v
LoginFacts.v
Caller.v
CallerFacts.v
RegisterFire.v
Scheduler.v
DemoServer.v
ListApi.v
Requeue.v
Dispatch.v
TriggerApi.v
Compile.v
CompileFacts.v
BlockDirectives.v
Validate.v
ValidateFacts.v
AlertRuleFacts.v
ScheduleInput.v
Loader.v
ImportFacts.v
LoaderFacts.v
StoredJobFacts.v
Convert.v
Forecast.v
Canonical.v
DispatchFacts.v
AlertFacts.v
Completion.v
Reload.v
CompletionFacts.v
ExecutionApi.v
ScheduleApi.v
ScheduleApiFacts.v
TriggerApiFacts.v
Watchdog.v
WatchdogFacts.v
ExecutionApiFacts.v
RequeueFacts.v
WatchdogAlerts.v
ServerFacts.v
SchedulerFacts.v
SchedulerTick.v
