(* ===== verification/Prelude.v ===== *)
(** * Croniq: a verification library

    Croniq is a job scheduler. A server compiles jobs from a configuration,
    decides at every tick which of them are due, writes each fire to a store,
    puts it on an in-memory work queue and hands it to polling runners, whose
    reports end, retry or bury the execution. This library models that path,
    from a schedule to the last row an execution leaves, and proves what makes
    it correct. Paths below are relative to [src/crates/].

    ** How the parts interact

    A [Schedule] (interval, daily, weekday, monthly, once) computes instants in
    a time zone. A [Trigger] combines a schedule with two gates, a [Calendar]
    and a calendar window, and holds the pending fire of one job. The
    [SchedulerLoop] holds the triggers and job definitions: a [tick] evaluates
    every trigger, asks the depth cap of the queue and the rate limit, writes
    the execution row together with the advanced trigger row through the store
    interface, and publishes the due fires as one wave to the [RunnerState].
    [run_on_register] jobs owe one more fire per adopted definition. A runner's
    poll registers it in the [RunnerRegistry], drains its cancels and dequeues
    items from the [WorkQueue] by aged priority, under the concurrency limits of
    the job and its group, and claims their rows in the store. A manual trigger
    creates a run outside the schedule. A completion goes through the retry and
    dead-letter policy, writes the outcome behind a fence on the runner, spawns
    the retry, and raises or ends an alert. The watchdog returns what was lost:
    claims of dead or silent runners, stale claims, rows without a work item.
    A restart rebuilds the triggers from the configuration, restores the stored
    pending fires and applies the catch-up policy to the queued rows; a reload
    rebuilds the triggers of the live loop.

    ** Files

    - [Prelude]: results, machine integers, tactics and hint databases.
    - [RustStr]: the [str] and integer-parsing functions the sources call.
    - [Chrono]: the interface to the date, time and time-zone library: class
      [Chrono] (operations), class [ChronoLaws] (what croniq relies on), and the
      instance [demo_chrono] with [demo_laws], a proleptic Gregorian calendar
      with one fixed-offset zone and one zone with two clock changes, which
      shows the laws hold of something and evaluates the examples.
    - [IpAddr]: the parser of IP addresses of the language's library.
    - [Ast], [CalendarArgs]: [croniq-config/src/ast.rs] and [calendar_args.rs].
    - [Lexer], [Parser], [Format]: the configuration language,
      [croniq-config/src/lexer.rs], [parser.rs], [format.rs] and [plural.rs].
    - [LexFacts], [FormatTokens], [ItemTokens]: what the lexer makes of
      formatted text, from characters to the whole file; [FormatParse],
      [RoundTrip]: what the parser makes of those tokens; [ParserFacts]: every
      parser ends; [ConfigFacts]: the theorems on the language, and the two
      text forms of a compiled schedule ([croniq-config/src/schedule.rs]).
    - [DaySets], [Calendar]: [croniq-scheduler/src/calendar.rs]; the interval
      algebra and the rules, the point-wise test and the search on top of it.
    - [Schedule]: [croniq-scheduler/src/schedule.rs].
    - [Trigger], [TriggerSearch], [TriggerMachine]:
      [croniq-scheduler/src/trigger.rs]; the operations, the theory of the
      gated search, and the theory of runs of the state machine.
    - [Durations], [Execution]: the duration grammar and the timeout in force
      ([croniq-execution/src/retry.rs], [croniq-server/src/duration.rs]);
      retry, timeout, dead-letter and pipeline ([croniq-execution/src/]) and
      their conversion from the configuration ([croniq-bridge/src/policy.rs]).
    - [RunnerTypes], [Queue], [Registry], [RunnerApi]: [croniq-runner/src/],
      one file per source file, [router.rs] with the types.
    - [Store]: the rows of [croniq-store/src/models.rs] and the store traits of
      [traits.rs] as the class [JobStore] with [JobStoreLaws]; the instance
      [mem_store] fails its calls on a script.
    - [StoreCalls]: every store call the server makes, as one type [Call] with
      its postcondition ([post]), the errors it may report ([refusal]) and what
      a failed call may leave behind ([residue]); the classes [StoreOps] and
      [StoreLaws] against which the server is proved.
    - [Sqlite], [SqliteFacts]: [croniq-store/src/sqlite.rs] as statements and
      transactions over the tables, with an engine that refuses statements on a
      script; that it satisfies [StoreLaws].
    - [Lifecycle]: [JobStore] derived from [StoreOps]; the life cycle of an
      execution row.
    - [Server]: the state the handlers and loops share ([World]) and the monad
      of programs over it, with the rules for what a program [keeps].
    - [Alerts], [AlertFacts]: [croniq-server/src/alerts.rs].
    - [DemoServer]: the environment and worlds of the examples.
    - [JobConfig]: the compiled job ([croniq-config/src/compile.rs],
      [schedule.rs]) and [croniq-bridge/src/dispatch.rs].
    - [Compile], [CompileFacts]: the compiler from the syntax tree to the
      runtime configuration ([croniq-config/src/compile.rs]) with the
      placeholders of [placeholders.rs]; what the compiled jobs promise.
    - [BlockDirectives], [Validate], [ValidateFacts], [AlertRuleFacts]: the checks
      of a file ([croniq-config/src/block_directives.rs], [validate.rs],
      [job_bounds.rs], [timezone.rs]) and what a file without errors means once
      it is compiled.
    - [ScheduleInput]: [croniq-scheduler/src/input.rs], the schedule of a stored
      expression and the checks of a row before it is written.
    - [Loader], [LoaderFacts], [ImportFacts], [StoredJobFacts]: the loading half
      of [croniq-server/src/loader.rs] with [croniq-config/src/import.rs] and the
      stored jobs of [main.rs]; the fires of a loaded job, the imports, the rows
      of stored jobs.
    - [Convert]: [croniq-config/src/convert.rs], from crontab lines
      to schedules, and what cron means by them.
    - [Forecast]: [croniq-scheduler/src/forecast.rs] and its
      request in [croniq-server/src/api/dashboard.rs].
    - [Canonical]: [croniq-config/src/fingerprint.rs], the text
      under the fingerprint.
    - [Reload]: [croniq-server/src/reload.rs], and how [main.rs]
      puts the jobs together at boot.
    - [ScheduleApi], [ScheduleApiFacts]: [croniq-server/src/api/schedules.rs] and
      [job_sync.rs] over the trigger table.
    - [Restore]: trigger restore at boot ([croniq-server/src/loader.rs]) and
      the carry-over on a rebuild ([croniq-server/src/scheduler.rs]).
    - [Quota], [RegisterFire]: [croniq-server/src/quota.rs] and
      [register_fire.rs].
    - [Requeue], [RequeueFacts]: rows back into work items
      ([croniq-server/src/loader.rs] and the requeues of [watchdog.rs]).
    - [Dispatch], [DispatchFacts]: the poll, complete and deregister handlers
      of [croniq-server/src/api/mod.rs] with the concurrency guards.
    - [TriggerApi], [TriggerApiFacts], [ListApi]: [handle_trigger] and
      [handle_list_executions] of the same file.
    - [Completion], [CompletionFacts]: [croniq-server/src/completion.rs].
    - [Watchdog], [WatchdogAlerts], [WatchdogFacts]:
      [croniq-server/src/watchdog.rs].
    - [LoginThrottle], [LoginFacts]: [croniq-server/src/api/login_throttle.rs].
    - [Caller], [CallerFacts]: [croniq-auth/src/context.rs], the claims of
      [jwt.rs], and the middleware [croniq-server/src/api/auth_middleware.rs]
      over the class [CredentialStore].
    - [ExecutionApi], [ExecutionApiFacts]: [work.rs], [executions.rs],
      [dead_letters.rs], [runner_identity.rs] and [audit.rs] of
      [croniq-server/src/api/]: renewal, log events, cancel, dead letters and
      their replay, and the binding of a runner id to a credential.
    - [ServerFacts]: all of these operations in any order, on one store, one queue
      and one source of ids.
    - [Scheduler], [SchedulerFacts], [SchedulerTick]: the loop of
      [croniq-server/src/scheduler.rs]; its operations, the facts about one
      trigger and one adoption fire, and the theorems about ticks, commands and
      the states the loop reaches beside the other tasks.

    Methods that take [&mut self] are functions from the state to the new state
    (paired with the result); [Result] is [result], [Option] is [option], a
    [HashMap] is a [gmap], a [Vec] a list. A handler is the sequence of its
    critical sections; in [Server] it is a program of [M], which takes clock
    readings and ids from a stream and reaches the store by [call].

    ** What the theorems show

    - Times: a computed fire is strictly later than the instant asked about in
      every zone whose local date never steps back, and in a zone with a fixed
      offset it is the first one the schedule and both gates allow. Wall clock
      readings that a clock change skips or repeats resolve as documented. The
      per-day interval form of a calendar agrees with its point-wise test, and
      the offline validator accepts exactly the rules that compile.
    - Triggers: the invariant of reachable triggers; no instant fires twice;
      intervals keep their phase; a pending fire is never postponed by a
      restart or a reload; [catch_up all] runs exactly the fires it kept.
    - Scheduler: what a tick reports is in the store and in the queue, whatever
      the store calls return; the invariant of every state the loop reaches; the
      depth cap; maintenance fires nothing and builds no backlog; an adoption fire
      goes out once per definition and is never lost; the rate limit is an exact
      sliding window.
    - Store: SQLite refines the contract of the calls whatever statements the
      engine refuses (its prunes by the rule of [retention_sql.rs]); without
      refusals a call fails only when the rows forbid it. The cursor of the execution list reads a history without gaps or
      repeats, and its [state] parameter never widens a query.
    - Life cycle: in any interleaving of ticks, polls, triggers, completions,
      sweeps, prunes, restores, deregistrations, renewals, log events, cancels
      and replays, and whatever the store answers, every execution row is
      well-formed and moves only along the edges of the life cycle, a runner id
      stays with its credential until it is deregistered, and the in-memory queue
      holds every execution at most once, its counters exact.
    - Requests: another credential gets nothing done under a bound runner id; a
      cancel ends one execution and tells its runner; a replay spends a letter
      for one queued execution or changes nothing; a renewal extends one lease
      that is held; a batch of log lines lands whole, in order.
    - Access: a request is served only for a live credential, with scopes the
      store backs, and for nobody without a signing key; no credential can issue more than it holds. Logins: the
      throttle counts exactly the attempts of its windows, a one-time code works
      once, a guessed second factor spends its token, and forged forwarding
      headers do not move the counted address.
    - Dispatch: a group's budget holds and grouped work is claimed by the runner
      it went to. Completion: the reported outcome is what happened, one retry
      at most, and a stale report changes nothing and alerts nobody. Triggers by
      hand: one execution or none under the cap of the job in force, no way into the reserved
      metadata, one queued run for a burst of signals, exact idempotency keys.
    - Recovery: the reaper never takes a live claim; reconciling queues every
      stranded row of a known job and cancels the others; a restart applies each
      catch-up policy exactly; the item rebuilt from a row under an unchanged job
      is the one that was dispatched.
    - Alerts: globs, the spacing of throttled alerts, the silence of an
      acknowledged job.
    - Queue and runners: dispatch order, bounded overtaking, exact counters;
      polls neither lose nor duplicate work; routing is optimal; duplicate
      instances converge; the flapping signal, cancels and leases are exact.
    - Configuration: what the formatter writes parses as the same file, and
      formatting is idempotent; a schedule stored as text fires as the configured
      one; the rules of a stored calendar cannot leave it; parsing ends on every
      text; the comments reported lost are exactly those lost. Compilation: a
      setting is the one written last in the scope of its job; the limits, the
      group budget, the priority and the fold a file declares are what dispatch
      reads, and no [metadata] block can forge them or the command a runner
      executes. Validation: in a file without errors every guard, timeout and alert rule that is written is in
      force after compilation. Loading: a job fires only inside the calendar, the
      window and the bounds its file declares, and not at all when one of them
      cannot be read; imports end; a job stored as a row fires as the file does.
      Schedules over HTTP: rows stay rows the loader can schedule, and an
      accepted one is the one the scheduler runs. Reload: a plan brings up what a
      restart from the same file and store would, applying it changes exactly what
      its diff names, running jobs keep their pending fire, and the settings
      reported as pending are exactly those that differ. A converted crontab line
      fires when cron would; the forecast counts the fires of each span for armed
      triggers; the
      fingerprint does not depend on the order of maps or on cosmetic fields.
    - Policies: retry counts and delays, the soundness of every converted
      policy, the duration grammar's round trip, timeout precedence, and the
      round trip of a persisted schedule.

    Where the code does something other than it says, the theorem states what
    it does: [exponential_delay_collapses] (the factor is truncated to 32
    bits), [missed_once_fire_is_dropped], [fenced_poll_still_gets_work],
    [unknown_strategy_is_exponential], [roll_back_spec],
    [retry_drops_requested_capabilities], [dotted_key_is_written_bare],
    [range_end_placeholder_is_lost], [earlier_alerts_block_is_lost],
    [unnamed_group_is_dropped], [long_timeout_is_five_minutes],
    [mistyped_calendar_zone_loads_as_utc], [held_fire_goes_out_at_the_bound],
    [once_placeholder_is_faulted], [second_calendar_is_dropped],
    [restart_arms_a_faulted_job], [overlapping_import_loads_nothing],
    [blank_zone_is_accepted_and_paused], [delete_stops_the_other_schedule],
    [unreadable_job_is_added], [shorthand_ignores_the_rest], [two_rows_part],
    [adopted_job_keeps_the_fault], [weekday_fields_that_part],
    [time_out_of_range], [steps_are_intervals], [paused_trigger_counted],
    [dense_schedule_cut_off].

    ** Parameters and hypotheses

    Third-party code is reached through classes: [Chrono] (chrono and
    chrono_tz), [Json] (serde_json values in a work item's metadata),
    [Fingerprint] (the digest of a definition), [Env] (clock, ids, UUID and
    RFC 3339 text, JSON lists of strings; [EnvLaws]). The scheduler is proved
    against [JobStore], the rest of the server against [StoreOps] and
    [StoreLaws], which [SqliteFacts] discharges; where a theorem needs a store
    that answers, it says [faultless]. The middleware reads credentials through
    [CredentialStore]; the hash of a secret, the signature check of a token and
    Unicode lower-casing are parameters. The compiler takes the environment, the
    files it reads and the JSON text of an execution payload; validation the names
    of the time zones and the order in which a hash set is visited; the loader
    the file system, the glob library and the RFC 3339 text of an instant; the
    fingerprint the rendering of [serde_json] and the digest; a reload the hash of
    the alert rules. What a channel does with an alert is the parameter
    [transport]. Clock readings, the jitter draw and the order in
    which a hash map is visited are arguments, so a theorem holds for every
    choice of them. Each class has a concrete instance, and each theorem with
    hypotheses a witness that evaluates on it.

    ** Bounds and fuel

    Recursion that is not structural carries the loop bound of the source, so
    running out of it is the source's own answer: 180 minutes for a skipped
    wall clock reading, 8 days for weekdays, 3 months for monthly days, 1463
    days ([MAX_SCAN_DAYS] and the first day) for calendar openings, 512 rounds
    ([MAX_ROUNDS]) of [next_gate_open], 1500 jumps ([MAX_GATE_JUMPS]) of
    [compute_next_fire], 100000 steps of the missed-fire walk, 501 fires per
    trigger of the forecast.
    The loops of the lexer and the parser take a token or a byte in every round
    and carry their number; running out of it is an answer of its own
    ([LexOutOfSteps], [OutOfSteps]), and [parsing_terminates] shows that it is
    never given.
    [recurring_has_next_fire] shows the schedule bounds are enough in every
    fixed-offset zone; the theorems on openings and gated fires say what an
    empty answer means. Integers are [Z] with the width written
    where the source has it; arithmetic wraps as in the release profile. The
    float of the exponential jitter is the IEEE double of the Standard Library.

    ** Not modelled

    The PostgreSQL backend, which issues the statements of the SQLite one in
    another dialect, and the tables for users, calendars, notes and favorites; the
    administrative HTTP handlers other than those on schedules, executions and
    dead letters; HTTP routing and serialization; logging, metrics and telemetry
    (the [otlp] feature is off); password hashing, minting of tokens and
    encryption, which are third-party cryptography behind thin wrappers; the
    command line, the runner binaries and the dashboard, which are clients of the
    parts above. The statements of one store call are not interleaved with those
    of another ([Sqlite] says where the source would let them). The scheduler takes the fingerprint through the class
    [Fingerprint]. The tree of a configuration carries no source spans, so the position of a parser error or a diagnostic is
    left out. *)

From Stdlib Require Export Ascii.
From stdpp Require Export base decidable list strings gmap sorting.
From Stdlib Require Export ZArith Lia.

#[export] Set Default Goal Selector "!".
Local Open Scope Z_scope.

(** ** Results

    Rust's [Result<T, E>]; the [?] operator is the bind below. *)

Declare Scope result_scope.
Delimit Scope result_scope with result.

Inductive result (A E : Type) : Type :=
| Ok (a : A)
| Err (e : E).
Arguments Ok {A E} a.
Arguments Err {A E} e.

Definition res_bind {A B E} (r : result A E) (k : A -> result B E) : result B E :=
  match r with Ok a => k a | Err e => Err e end.

(** [Result::map_err], [Result::ok]. *)
Definition map_err {A E F} (f : E -> F) (r : result A E) : result A F :=
  match r with Ok a => Ok a | Err e => Err (f e) end.
Definition res_ok {A E} (r : result A E) : option A :=
  match r with Ok a => Some a | Err _ => None end.
Definition is_ok {A E} (r : result A E) : bool :=
  match r with Ok _ => true | Err _ => false end.

(** [Option::ok_or]. *)
Definition ok_or {A E} (o : option A) (e : E) : result A E :=
  match o with Some a => Ok a | None => Err e end.

Notation "x <-? c ; k" := (res_bind c (fun x => k))
  (at level 100, c at next level, right associativity) : result_scope.

(** Collecting a list of results, as [Iterator::collect::<Result<Vec<_>, _>>]:
    the first error wins. *)
Fixpoint res_collect {A B E} (f : A -> result B E) (l : list A) : result (list B) E :=
  match l with
  | [] => Ok []
  | x :: l => res_bind (f x) (fun y => res_bind (res_collect f l) (fun ys => Ok (y :: ys)))
  end.

(** ** Filters that keep everything or nothing *)

Lemma list_filter_all {A} (P : A -> Prop) `{!forall x, Decision (P x)} l : Forall P l -> base.filter P l = l.
Proof. induction 1 as [|x l Hx _ IH]; [done|]. by rewrite filter_cons_True, IH. Qed.
Lemma list_filter_none {A} (P : A -> Prop) `{!forall x, Decision (P x)} l :
  Forall (fun x => ~ P x) l -> base.filter P l = [].
Proof. induction 1 as [|x l Hx _ IH]; [done|]. by rewrite filter_cons_False. Qed.

(** ** Machine integers

    Integers are [Z]; the width is written where the source has it. The
    release profile is the one modelled: unchecked [u32]/[u64] arithmetic and
    [as] casts wrap. *)

Definition U8_MAX : Z := 255.
Definition U32_MAX : Z := 4294967295.
Definition U64_MAX : Z := 18446744073709551615.
Definition I64_MAX : Z := 9223372036854775807.

Definition wrap_u32 (z : Z) : Z := z mod 4294967296.
Definition wrap_u64 (z : Z) : Z := z mod 18446744073709551616.
(** [x as i64] for an unsigned [x]. *)
Definition wrap_i64 (z : Z) : Z :=
  let m := z mod 18446744073709551616 in
  if m <=? I64_MAX then m else m - 18446744073709551616.

Definition saturating (max z : Z) : Z := Z.min max z.
Definition saturating_sub (a b : Z) : Z := Z.max 0 (a - b).

Lemma wrap_u32_id z : 0 <= z <= U32_MAX -> wrap_u32 z = z.
Proof. unfold wrap_u32, U32_MAX. intros. apply Z.mod_small. lia. Qed.

Lemma wrap_u64_id z : 0 <= z <= U64_MAX -> wrap_u64 z = z.
Proof. unfold wrap_u64, U64_MAX. intros. apply Z.mod_small. lia. Qed.

Lemma wrap_i64_id z : 0 <= z <= I64_MAX -> wrap_i64 z = z.
Proof.
  unfold wrap_i64, I64_MAX. intros.
  rewrite Z.mod_small by lia.
  destruct (Z.leb_spec z 9223372036854775807); lia.
Qed.

(** ** Automation *)

(** [machine] removes a wrap-around whose argument fits the width. *)
Create Rewrite HintDb machine.
#[export] Hint Rewrite wrap_u32_id wrap_u64_id wrap_i64_id
  using (unfold U32_MAX, U64_MAX, I64_MAX in *; Z.to_euclidean_division_equations; lia) : machine.
Ltac unwrap := autorewrite with machine.

(** [croniq] holds the facts that a component's operations leave a field or an
    invariant alone; the components add theirs. *)
Create HintDb croniq.

(** Turn boolean comparisons in the context and the goal into propositions. *)
Ltac b2p :=
  repeat match goal with
  | H : (_ && _)%bool = true |- _ => apply andb_true_iff in H; destruct H
  | H : (_ || _)%bool = false |- _ => apply orb_false_iff in H; destruct H
  | H : (_ && _)%bool = false |- _ => apply andb_false_iff in H
  | H : (_ || _)%bool = true |- _ => apply orb_true_iff in H
  | H : negb _ = true |- _ => apply negb_true_iff in H
  | H : negb _ = false |- _ => apply negb_false_iff in H
  | H : (_ <=? _) = true |- _ => apply Z.leb_le in H
  | H : (_ <=? _) = false |- _ => apply Z.leb_gt in H
  | H : (_ <? _) = true |- _ => apply Z.ltb_lt in H
  | H : (_ <? _) = false |- _ => apply Z.ltb_ge in H
  | H : (_ =? _) = true |- _ => apply Z.eqb_eq in H
  | H : (_ =? _) = false |- _ => apply Z.eqb_neq in H
  | |- (_ && _)%bool = true => apply andb_true_iff
  | |- negb _ = true => apply negb_true_iff
  | |- (_ <=? _) = true => apply Z.leb_le
  | |- (_ <=? _) = false => apply Z.leb_gt
  | |- (_ <? _) = true => apply Z.ltb_lt
  | |- (_ <? _) = false => apply Z.ltb_ge
  | |- (_ =? _) = true => apply Z.eqb_eq
  | |- (_ =? _) = false => apply Z.eqb_neq
  end.

(** Case analysis on the first test of an [if] or the scrutinee of a [match]
    in the goal, keeping the equation. *)
Ltac case_if :=
  match goal with
  | |- context [if ?b then _ else _] => destruct b eqn:?
  end.
Ltac case_if_in H :=
  match type of H with
  | context [if ?b then _ else _] => destruct b eqn:?
  end.
