(* ===== verification/RustStr.v ===== *)
(** * The parts of [str] and of integer parsing the sources use

    A Rust [&str] is its UTF-8 byte string, a Rocq [string] (one [ascii] per
    byte). Only what the modelled functions call is defined. *)

From S2P Require Import Prelude.
From stdpp Require Export pretty.

Local Open Scope Z_scope.

Definition byte_of (c : ascii) : Z := Z.of_nat (nat_of_ascii c).
Definition byte_in (c : ascii) (lo hi : Z) : bool :=
  (lo <=? byte_of c) && (byte_of c <=? hi).

(** ** Prefixes, suffixes, searching *)

Fixpoint strip_prefix (p s : string) : option string :=
  match p, s with
  | EmptyString, _ => Some s
  | String a p', String b s' => if Ascii.eqb a b then strip_prefix p' s' else None
  | String _ _, EmptyString => None
  end.

Definition starts_with (p s : string) : bool :=
  match strip_prefix p s with Some _ => true | None => false end.

(** [s.strip_suffix(p)]: peel bytes off the front until exactly [p] is left. *)
Fixpoint strip_suffix (p s : string) : option string :=
  if String.eqb s p then Some EmptyString
  else match s with
       | EmptyString => None
       | String c s' => r ← strip_suffix p s'; Some (String c r)
       end.

(** [s.split_once(sep)]: at the first occurrence of [sep]. *)
Fixpoint split_once (sep s : string) : option (string * string) :=
  match strip_prefix sep s with
  | Some rest => Some (EmptyString, rest)
  | None => match s with
            | EmptyString => None
            | String c s' => '(a, b) ← split_once sep s'; Some (String c a, b)
            end
  end.

(** [s.split(c)] for an ASCII separator: always at least one piece. *)
Fixpoint split_char (sep : ascii) (s : string) : list string :=
  match s with
  | EmptyString => [EmptyString]
  | String c s' =>
      if Ascii.eqb c sep then EmptyString :: split_char sep s'
      else match split_char sep s' with
           | [] => [String c EmptyString]
           | p :: ps => String c p :: ps
           end
  end.

Fixpoint count_char (c : ascii) (s : string) : Z :=
  match s with
  | EmptyString => 0
  | String d s' => (if Ascii.eqb d c then 1 else 0) + count_char c s'
  end.

(** [s.contains(c)]. *)
Definition contains_char (c : ascii) (s : string) : bool := 0 <? count_char c s.

(** [s.len()], in bytes. *)
Definition str_len (s : string) : Z := Z.of_nat (String.length s).

Definition str_is_empty (s : string) : bool :=
  match s with EmptyString => true | _ => false end.

(** [s.to_ascii_lowercase()]. *)
Definition ascii_lower (c : ascii) : ascii :=
  if byte_in c 65 90 then ascii_of_nat (Z.to_nat (byte_of c + 32)) else c.
Fixpoint to_ascii_lowercase (s : string) : string :=
  match s with
  | EmptyString => EmptyString
  | String c s' => String (ascii_lower c) (to_ascii_lowercase s')
  end.

Definition str_join (sep : string) (l : list string) : string := String.concat sep l.

(** ** Unicode white space

    [char::is_whitespace] on the UTF-8 bytes: U+0009..U+000D and U+0020 in one
    byte, U+0085 and U+00A0 in two, U+1680, U+2000..U+200A, U+2028, U+2029,
    U+202F, U+205F and U+3000 in three. *)

Definition ws1 (a : ascii) : bool := byte_in a 9 13 || byte_in a 32 32.
Definition ws2 (a b : ascii) : bool :=
  byte_in a 194 194 && (byte_in b 133 133 || byte_in b 160 160).
Definition ws3 (a b c : ascii) : bool :=
  (byte_in a 225 225 && byte_in b 154 154 && byte_in c 128 128)
  || (byte_in a 226 226 && byte_in b 128 128
      && (byte_in c 128 138 || byte_in c 168 169 || byte_in c 175 175))
  || (byte_in a 226 226 && byte_in b 129 129 && byte_in c 159 159)
  || (byte_in a 227 227 && byte_in b 128 128 && byte_in c 128 128).

Fixpoint trim_start (s : string) : string :=
  match s with
  | EmptyString => s
  | String a r =>
      if ws1 a then trim_start r
      else match r with
           | EmptyString => s
           | String b r' =>
               if ws2 a b then trim_start r'
               else match r' with
                    | EmptyString => s
                    | String c r'' => if ws3 a b c then trim_start r'' else s
                    end
           end
  end.

(** The same on the reversed bytes, where a sequence is met last byte first. *)
Fixpoint trim_start_rev (s : string) : string :=
  match s with
  | EmptyString => s
  | String a r =>
      if ws1 a then trim_start_rev r
      else match r with
           | EmptyString => s
           | String b r' =>
               if ws2 b a then trim_start_rev r'
               else match r' with
                    | EmptyString => s
                    | String c r'' => if ws3 c b a then trim_start_rev r'' else s
                    end
           end
  end.

Definition str_rev (s : string) : string :=
  String.string_of_list_ascii (rev (String.list_ascii_of_string s)).
Definition trim_end (s : string) : string := str_rev (trim_start_rev (str_rev s)).
Definition trim (s : string) : string := trim_end (trim_start s).

(** The first piece of [s.split_whitespace()]. *)
Fixpoint take_to_ws (s : string) : string :=
  match s with
  | EmptyString => EmptyString
  | String a r =>
      if ws1 a then EmptyString
      else match r with
           | EmptyString => String a EmptyString
           | String b r' =>
               if ws2 a b then EmptyString
               else match r' with
                    | EmptyString => String a (take_to_ws r)
                    | String c _ => if ws3 a b c then EmptyString
                                    else String a (take_to_ws r)
                    end
           end
  end.
Definition first_word (s : string) : option string :=
  let t := trim_start s in if str_is_empty t then None else Some (take_to_ws t).

(** ** Unsigned integers *)

Definition digit_val (c : ascii) : option Z :=
  if byte_in c 48 57 then Some (byte_of c - 48) else None.

Fixpoint parse_digits (max acc : Z) (s : string) : option Z :=
  match s with
  | EmptyString => Some acc
  | String c s' =>
      d ← digit_val c;
      let acc' := acc * 10 + d in
      if max <? acc' then None else parse_digits max acc' s'
  end.

(** [s.parse::<uN>().ok()]: an optional [+], then at least one digit, no
    overflow of [max]. *)
Definition parse_uint (max : Z) (s : string) : option Z :=
  match s with
  | EmptyString => None
  | String c s' =>
      if Ascii.eqb c "+"%char
      then if str_is_empty s' then None else parse_digits max 0 s'
      else parse_digits max 0 s
  end.

Definition parse_u8 : string -> option Z := parse_uint U8_MAX.
Definition parse_u32 : string -> option Z := parse_uint U32_MAX.
Definition parse_u64 : string -> option Z := parse_uint U64_MAX.

(** [format!("{}", n)] for a non-negative integer. *)
Definition show_uint (n : Z) : string := pretty (Z.to_N n).
(** [format!("{n:02}")] *)
Definition pad2 (n : Z) : string :=
  if n <? 10 then "0" +:+ show_uint n else show_uint n.

(** ** Lemmas *)

Lemma byte_of_nonneg c : 0 <= byte_of c.
Proof. unfold byte_of. lia. Qed.

Lemma digit_val_range c d : digit_val c = Some d -> 0 <= d <= 9.
Proof.
  unfold digit_val, byte_in. intros H. case_if_in H; [|done].
  b2p. simplify_eq. lia.
Qed.

Lemma parse_digits_range max s acc v :
  0 <= acc <= max -> parse_digits max acc s = Some v -> 0 <= v <= max.
Proof.
  revert acc. induction s as [|c s IH]; intros acc Hacc; simpl.
  - intros. by simplify_eq.
  - destruct (digit_val c) as [d|] eqn:Hd; simpl; [|done].
    pose proof (digit_val_range _ _ Hd).
    case_if; [done|]. b2p. apply IH. lia.
Qed.

Lemma parse_uint_range max s v : 0 <= max -> parse_uint max s = Some v -> 0 <= v <= max.
Proof.
  intros Hmax. unfold parse_uint. destruct s as [|c s]; [done|].
  repeat case_if; try done; apply parse_digits_range; lia.
Qed.

Lemma strip_suffix_app p s r : strip_suffix p s = Some r -> s = (r +:+ p)%string.
Proof.
  revert r. induction s as [|c s IH]; intros r; cbn [strip_suffix].
  - destruct p; simpl; intros [= <-]; done.
  - destruct (String.eqb (String c s) p) eqn:E.
    + apply String.eqb_eq in E. intros [= <-]. done.
    + destruct (strip_suffix p s) as [r'|] eqn:E'; simpl; [|done].
      intros [= <-]. change (String c s = String c (r' +:+ p)). f_equal. by apply IH.
Qed.


(** ** Printing and parsing agree *)

Fixpoint all_chars (P : ascii -> bool) (s : string) : bool :=
  match s with EmptyString => true | String c s' => P c && all_chars P s' end.
Definition is_digit (c : ascii) : bool := byte_in c 48 57.

Lemma digit_val_char (d : N) : (d < 10)%N -> digit_val (pretty_N_char d) = Some (Z.of_N d).
Proof.
  intros Hd. assert (d = 0 \/ d = 1 \/ d = 2 \/ d = 3 \/ d = 4 \/ d = 5 \/ d = 6 \/ d = 7
    \/ d = 8 \/ d = 9)%N as Hc by lia.
  decompose [or] Hc; subst; reflexivity.
Qed.

Lemma is_digit_char (d : N) : (d < 10)%N -> is_digit (pretty_N_char d) = true.
Proof.
  intros Hd. apply digit_val_char in Hd. unfold digit_val in Hd.
  unfold is_digit. by case_if_in Hd.
Qed.

Lemma pretty_go_digits x s : all_chars is_digit s = true -> all_chars is_digit (pretty_N_go x s) = true.
Proof.
  revert s. induction (N.lt_wf_0 x) as [x _ IH]; intros s Hs.
  assert (x = 0 \/ 0 < x)%N as [->|Hx] by lia; [by rewrite pretty_N_go_0|].
  rewrite pretty_N_go_step by done. apply IH; [by apply N.div_lt|].
  cbn [all_chars]. rewrite is_digit_char by (by apply N.mod_lt). done.
Qed.

Lemma parse_digits_show max x s :
  Z.of_N x <= max -> parse_digits max 0 (pretty_N_go x s) = parse_digits max (Z.of_N x) s.
Proof.
  revert s. induction (N.lt_wf_0 x) as [x _ IH]; intros s Hmax.
  assert (x = 0 \/ 0 < x)%N as [->|Hx] by lia; [by rewrite pretty_N_go_0|].
  rewrite pretty_N_go_step by done.
  pose proof (N.div_mod x 10 ltac:(done)) as Hdm. pose proof (N.mod_lt x 10 ltac:(done)).
  assert (x `div` 10 <= x)%N by (apply N.Div0.div_le_upper_bound; lia).
  rewrite IH; [|by apply N.div_lt|lia]. cbn [parse_digits].
  rewrite digit_val_char by done. cbn [mbind option_bind].
  replace (Z.of_N (x `div` 10) * 10 + Z.of_N (x `mod` 10)) with (Z.of_N x) by lia.
  case_if; [b2p; lia|done].
Qed.

Lemma show_uint_digits n : 0 <= n -> all_chars is_digit (show_uint n) = true.
Proof.
  intros Hn. unfold show_uint, pretty, pretty_N. case_decide; [done|]. by apply pretty_go_digits.
Qed.

Lemma pretty_go_nonempty x s : s <> EmptyString -> pretty_N_go x s <> EmptyString.
Proof.
  revert s. induction (N.lt_wf_0 x) as [x _ IH]; intros s Hs.
  assert (x = 0 \/ 0 < x)%N as [->|Hx] by lia; [by rewrite pretty_N_go_0|].
  rewrite pretty_N_go_step by done. apply IH; [by apply N.div_lt|done].
Qed.

Lemma show_uint_nonempty n : show_uint n <> EmptyString.
Proof.
  unfold show_uint, pretty, pretty_N. case_decide as Hz; [done|].
  rewrite pretty_N_go_step by lia. by apply pretty_go_nonempty.
Qed.

Lemma parse_show_uint max n : 0 <= n <= max -> parse_uint max (show_uint n) = Some n.
Proof.
  intros Hn. assert (parse_digits max 0 (show_uint n) = Some n) as Hp.
  { unfold show_uint, pretty, pretty_N. case_decide as Hz.
    - cbn [parse_digits]. change (digit_val "0") with (Some 0). cbn [mbind option_bind].
      case_if; b2p; [lia|]. f_equal. lia.
    - rewrite parse_digits_show by lia. cbn. f_equal. lia. }
  pose proof (show_uint_digits n ltac:(lia)) as Hd. pose proof (show_uint_nonempty n) as He.
  unfold parse_uint. destruct (show_uint n) as [|c s]; [done|].
  case_if; [|done]. apply Ascii.eqb_eq in Heqb. subst c. done.
Qed.

(** ** Trimming leaves plain text alone *)

(** An ASCII byte that is not white space. *)
Definition plain (c : ascii) : bool := byte_in c 33 126.

Lemma plain_not_ws a b c :
  plain a = true -> ws1 a = false /\ ws2 a b = false /\ ws2 b a = false
  /\ ws3 a b c = false /\ ws3 c b a = false.
Proof.
  unfold plain, ws1, ws2, ws3, byte_in. intros H. b2p.
  repeat split; repeat (apply orb_false_iff; split); repeat rewrite andb_false_iff;
    rewrite ?Z.leb_gt; lia.
Qed.

Lemma trim_start_plain c s : plain c = true -> trim_start (String c s) = String c s.
Proof.
  intros Hc. destruct s as [|b [|d s]]; cbn [trim_start];
    destruct (plain_not_ws c c c Hc) as (-> & _); [done|..];
    try destruct (plain_not_ws c b b Hc) as (_ & -> & _); try done.
  by destruct (plain_not_ws c b d Hc) as (_ & _ & _ & -> & _).
Qed.

Lemma trim_start_rev_plain c s : plain c = true -> trim_start_rev (String c s) = String c s.
Proof.
  intros Hc. destruct s as [|b [|d s]]; cbn [trim_start_rev];
    destruct (plain_not_ws c c c Hc) as (-> & _); [done|..];
    try destruct (plain_not_ws c b b Hc) as (_ & _ & -> & _); try done.
  by destruct (plain_not_ws c b d Hc) as (_ & _ & _ & _ & ->).
Qed.

Lemma str_app_cons c s t : String c s +:+ t = String c (s +:+ t).
Proof. reflexivity. Qed.
Lemma str_app_empty t : EmptyString +:+ t = t.
Proof. reflexivity. Qed.
Lemma str_app_nil s : s +:+ EmptyString = s.
Proof. induction s as [|c s IH]; [done|]. exact (f_equal (String c) IH). Qed.

Lemma str_app_assoc a b c : a +:+ (b +:+ c) = (a +:+ b) +:+ c.
Proof. induction a as [|x a IH]; [done|]. exact (f_equal (String x) IH). Qed.

Lemma string_of_list_app l l' :
  String.string_of_list_ascii (l ++ l')
  = String.string_of_list_ascii l +:+ String.string_of_list_ascii l'.
Proof. induction l as [|x l IH]; [done|]. exact (f_equal (String x) IH). Qed.

Lemma list_of_string_app a b :
  String.list_ascii_of_string (a +:+ b)
  = String.list_ascii_of_string a ++ String.list_ascii_of_string b.
Proof. induction a as [|x a IH]; [done|]. exact (f_equal (cons x) IH). Qed.

Lemma str_rev_app a b : str_rev (a +:+ b) = str_rev b +:+ str_rev a.
Proof. unfold str_rev. by rewrite list_of_string_app, rev_app_distr, string_of_list_app. Qed.

Lemma str_rev_involutive s : str_rev (str_rev s) = s.
Proof.
  unfold str_rev. rewrite String.list_ascii_of_string_of_list_ascii, rev_involutive.
  apply String.string_of_list_ascii_of_string.
Qed.

(** A text whose first and last bytes are plain is its own trimming. *)
Lemma trim_plain_ends c s d :
  plain c = true -> plain d = true ->
  trim (String c (s +:+ String d EmptyString)) = String c (s +:+ String d EmptyString).
Proof.
  intros Hc Hd. unfold trim, trim_end. rewrite trim_start_plain by done.
  change (String c (s +:+ String d EmptyString)) with ((String c s) +:+ String d EmptyString).
  rewrite str_rev_app. change (str_rev (String d EmptyString)) with (String d EmptyString).
  change (String d EmptyString +:+ ?x) with (String d x).
  rewrite trim_start_rev_plain by done.
  change (String d ?x) with (String d EmptyString +:+ x).
  rewrite str_rev_app, str_rev_involutive. done.
Qed.

(** ** Trimming twice *)

(** Nothing to trim in front, read forwards and backwards. *)
Definition head_ok (s : string) : bool :=
  match s with
  | String a (String b (String c _)) => negb (ws1 a) && negb (ws2 a b) && negb (ws3 a b c)
  | String a (String b _) => negb (ws1 a) && negb (ws2 a b)
  | String a _ => negb (ws1 a)
  | _ => true
  end.
Definition rev_head_ok (s : string) : bool :=
  match s with
  | String a (String b (String c _)) => negb (ws1 a) && negb (ws2 b a) && negb (ws3 c b a)
  | String a (String b _) => negb (ws1 a) && negb (ws2 b a)
  | String a _ => negb (ws1 a)
  | _ => true
  end.

Lemma head_ok_prefix p q : head_ok (p +:+ q) = true -> head_ok p = true.
Proof.
  destruct p as [|a [|b [|c p]]]; [done| | |done]; destruct q as [|d [|e q]];
    cbv [String.append head_ok]; rewrite ?andb_true_iff; tauto.
Qed.
Lemma head_ok_trim s : head_ok s = true -> trim_start s = s.
Proof.
  destruct s as [|a [|b [|c s]]]; cbn; try destruct (ws1 a); try destruct (ws2 a b);
    try destruct (ws3 a b c); done.
Qed.
Lemma rev_head_ok_trim s : rev_head_ok s = true -> trim_start_rev s = s.
Proof.
  destruct s as [|a [|b [|c s]]]; cbn; try destruct (ws1 a); try destruct (ws2 b a);
    try destruct (ws3 c b a); done.
Qed.

Lemma trim_start_head n : forall s, (String.length s <= n)%nat -> head_ok (trim_start s) = true.
Proof.
  induction n as [|n IH]; intros [|a [|b [|c s]]] Hn; cbn in Hn; try lia; try done; cbn [trim_start].
  - destruct (ws1 a) eqn:Ea; [done|]. cbn. by rewrite Ea.
  - destruct (ws1 a) eqn:Ea; [apply (IH (String b EmptyString)); cbn; lia|].
    destruct (ws2 a b) eqn:Eb; [done|]. cbn. by rewrite Ea, Eb.
  - destruct (ws1 a) eqn:Ea; [apply (IH (String b (String c s))); cbn; lia|].
    destruct (ws2 a b) eqn:Eb; [apply (IH (String c s)); cbn; lia|].
    destruct (ws3 a b c) eqn:Ec; [apply IH; lia|]. cbn. by rewrite Ea, Eb, Ec.
Qed.
Lemma trim_start_rev_split n : forall s, (String.length s <= n)%nat ->
  rev_head_ok (trim_start_rev s) = true /\ exists p, s = p +:+ trim_start_rev s.
Proof.
  assert (forall s p r, s = p +:+ r -> (exists p', r = p' +:+ trim_start_rev r) ->
            exists p', s = p' +:+ trim_start_rev r) as Hcat.
  { intros s p r -> [p' Hp]. exists (p +:+ p'). rewrite <- str_app_assoc. by rewrite <- Hp. }
  induction n as [|n IH]; intros s Hn.
  { destruct s; [|cbn in Hn; lia]. split; [done|by exists EmptyString]. }
  assert (forall p r, s = p +:+ r -> (String.length r <= n)%nat ->
    rev_head_ok (trim_start_rev r) = true /\ exists p, s = p +:+ trim_start_rev r) as Hrec.
  { intros p r Hs Hr. destruct (IH r Hr). eauto. }
  assert (rev_head_ok s = true -> rev_head_ok s = true /\ exists p, s = p +:+ s) as Hstay.
  { intros. split; [done|]. by exists EmptyString. }
  destruct s as [|a [|b [|c s]]]; cbn in Hn; cbn [trim_start_rev]; [by apply Hstay|..].
  - destruct (ws1 a) eqn:Ea; [apply (Hrec (String a EmptyString) EmptyString); [done|cbn; lia]|]. apply Hstay. cbn. by rewrite Ea.
  - destruct (ws1 a) eqn:Ea; [apply (Hrec (String a EmptyString) (String b EmptyString)); [done|cbn; lia]|].
    destruct (ws2 b a) eqn:Eb; [apply (Hrec (String a (String b EmptyString)) EmptyString); [done|cbn; lia]|].
    apply Hstay. cbn. by rewrite Ea, Eb.
  - destruct (ws1 a) eqn:Ea; [apply (Hrec (String a EmptyString) (String b (String c s))); [done|cbn; lia]|].
    destruct (ws2 b a) eqn:Eb; [apply (Hrec (String a (String b EmptyString)) (String c s)); [done|cbn; lia]|].
    destruct (ws3 c b a) eqn:Ec; [apply (Hrec (String a (String b (String c EmptyString))) s); [done|cbn; lia]|].
    apply Hstay. cbn. by rewrite Ea, Eb, Ec.
Qed.

Lemma trim_idempotent s : trim (trim s) = trim s.
Proof.
  unfold trim. set (t := trim_start s).
  destruct (trim_start_rev_split _ (str_rev t) (le_n _)) as (Hok & p & Hp).
  assert (trim_start (trim_end t) = trim_end t) as Hstart.
  { apply head_ok_trim, (head_ok_prefix _ (str_rev p)). unfold trim_end. rewrite <- str_rev_app, <- Hp.
    rewrite str_rev_involutive. by eapply trim_start_head. }
  rewrite Hstart. unfold trim_end. rewrite str_rev_involutive. by rewrite rev_head_ok_trim.
Qed.
