(* ===== verification/Chrono.v ===== *)
(** * Interface to [chrono] and [chrono_tz]

    Both are third-party crates: the civil calendar, the time-zone database
    and the text formats enter the development as the operations of the class
    [Chrono], with what croniq relies on as the laws of [ChronoLaws]. Points
    in time are represented by integers:

    - [DateTime<Utc>]: nanoseconds since the Unix epoch ([instant]);
    - [NaiveDate]: days since 1970-01-01;
    - [NaiveTime]: nanoseconds since midnight, [0 <= t < NS_DAY];
    - [NaiveDateTime]: [date * NS_DAY + time], a wall clock reading;
    - [chrono::Duration]: nanoseconds.

    The representation is unbounded, so the panics of chrono's [+] outside
    its year range (about +-262000) are not modelled; the fallible
    [checked_add_days] is. Leap-second readings ([nanosecond >= 10^9]) do not
    occur in it.

    [Demo] is an instance: the proleptic Gregorian calendar and zones with at
    most one offset change. It shows the laws are satisfiable and evaluates
    the examples and witnesses of the other files. *)

From S2P Require Import Prelude RustStr.

Local Open Scope Z_scope.

Abbreviation instant := Z (only parsing).
Abbreviation NaiveDate := Z (only parsing).
Abbreviation NaiveTime := Z (only parsing).
Abbreviation NaiveDateTime := Z (only parsing).

Definition NS_SEC : Z := 1000000000.
Definition NS_DAY : Z := 86400000000000.
Definition seconds (n : Z) : Z := n * NS_SEC.
Definition minutes (n : Z) : Z := n * (60 * NS_SEC).
Definition days (n : Z) : Z := n * NS_DAY.

(** [NaiveDateTime::date], [NaiveDateTime::time], [NaiveDate::and_time]. *)
Definition date_of (n : NaiveDateTime) : NaiveDate := n / NS_DAY.
Definition time_of (n : NaiveDateTime) : NaiveTime := n mod NS_DAY.
Definition and_time (d : NaiveDate) (t : NaiveTime) : NaiveDateTime := d * NS_DAY + t.

(** [NaiveTime::num_seconds_from_midnight], [NaiveTime::nanosecond],
    [NaiveTime::from_num_seconds_from_midnight_opt(s, 0)],
    [NaiveTime::from_hms_opt(h, m, 0)]. *)
Definition num_seconds_from_midnight (t : NaiveTime) : Z := t / NS_SEC.
Definition nanosecond (t : NaiveTime) : Z := t mod NS_SEC.
Definition from_num_seconds_from_midnight_opt (s : Z) : option NaiveTime :=
  if s <? 86400 then Some (s * NS_SEC) else None.
Definition from_hm_opt (h m : Z) : option NaiveTime :=
  if (h <? 24) && (m <? 60) then Some ((h * 3600 + m * 60) * NS_SEC) else None.

Inductive Weekday := Mon | Tue | Wed | Thu | Fri | Sat | Sun.
#[export] Instance Weekday_eq_dec : EqDecision Weekday.
Proof. solve_decision. Defined.

Definition weekday_of_num (n : Z) : Weekday :=
  if n =? 0 then Mon else if n =? 1 then Tue else if n =? 2 then Wed
  else if n =? 3 then Thu else if n =? 4 then Fri else if n =? 5 then Sat else Sun.

(** [chrono::MappedLocalTime<DateTime<Tz>>]: what a wall clock reading means. *)
Inductive MappedLocalTime :=
| MSingle (u : instant)
| MAmbiguous (earliest latest : instant)
| MNone.

Class Chrono := {
  Tz : Type;
  UTC : Tz;
  (** [name.parse::<Tz>().ok()] *)
  tz_parse : string -> option Tz;
  (** [at.with_timezone(tz).naive_local()] *)
  local_of : Tz -> instant -> NaiveDateTime;
  (** [tz.from_local_datetime(&naive)] *)
  from_local_datetime : Tz -> NaiveDateTime -> MappedLocalTime;
  weekday : NaiveDate -> Weekday;
  year : NaiveDate -> Z;
  month : NaiveDate -> Z;
  day : NaiveDate -> Z;
  from_ymd_opt : Z -> Z -> Z -> option NaiveDate;
  checked_add_days : NaiveDate -> Z -> option NaiveDate;
  (** [DateTime::parse_from_rfc3339], [NaiveDateTime::parse_from_str(_,
      "%Y-%m-%dT%H:%M:%S")], [NaiveDate::parse_from_str(_, "%Y-%m-%d")] *)
  parse_from_rfc3339 : string -> option instant;
  parse_naive_datetime : string -> option NaiveDateTime;
  parse_naive_date : string -> option NaiveDate
}.

(** The days every month [m] has, in leap years and others. *)
Definition month_len (m : Z) : Z :=
  if m =? 2 then 28
  else if (m =? 4) || (m =? 6) || (m =? 9) || (m =? 11) then 30 else 31.

(** The documented behaviour croniq relies on. *)
Class ChronoLaws (C : Chrono) : Prop := {
  local_single : forall tz n u,
    from_local_datetime tz n = MSingle u -> local_of tz u = n;
  local_ambiguous : forall tz n e l,
    from_local_datetime tz n = MAmbiguous e l ->
    local_of tz e = n /\ local_of tz l = n /\ e < l;
  local_complete : forall tz u,
    from_local_datetime tz (local_of tz u) = MSingle u
    \/ exists e l, from_local_datetime tz (local_of tz u) = MAmbiguous e l
                   /\ (u = e \/ u = l);
  offset_seconds : forall tz u, (local_of tz u - u) mod NS_SEC = 0;
  weekday_spec : forall d, weekday d = weekday_of_num ((d + 3) mod 7);
  ymd_sound : forall y m d dt,
    from_ymd_opt y m d = Some dt -> year dt = y /\ month dt = m /\ day dt = d;
  ymd_complete : forall dt, from_ymd_opt (year dt) (month dt) (day dt) = Some dt;
  ymd_exists : forall y m d, -262000 <= y <= 262000 -> 1 <= m <= 12 ->
    1 <= d <= month_len m -> is_Some (from_ymd_opt y m d);
  ymd_linear : forall y m d d' a b,
    from_ymd_opt y m d = Some a -> from_ymd_opt y m d' = Some b -> b - a = d' - d;
  day_pos : forall dt, 1 <= day dt;
  month_range : forall dt, 1 <= month dt <= 12;
  month_index_mono : forall a b, a <= b ->
    year a * 12 + month a <= year b * 12 + month b;
  checked_add_days_sound : forall d n d',
    checked_add_days d n = Some d' -> d' = d + n
}.

(** ** Properties of a zone

    [fixed_offset]: the zone has one offset from UTC for ever.
    [date_monotone]: its local calendar date never steps back - every fall-back
    of the clock stays inside one calendar day. *)

Definition fixed_offset {C : Chrono} (tz : Tz) (off : Z) : Prop :=
  (forall u, local_of tz u = u + off) /\
  (forall n, from_local_datetime tz n = MSingle (n - off)).

Definition date_monotone {C : Chrono} (tz : Tz) : Prop :=
  forall u v, u <= v -> date_of (local_of tz u) <= date_of (local_of tz v).

(** ** Arithmetic of the representation *)

Lemma NS_DAY_pos : 0 < NS_DAY. Proof. done. Qed.
Lemma NS_SEC_pos : 0 < NS_SEC. Proof. done. Qed.

Lemma and_time_date_time n : and_time (date_of n) (time_of n) = n.
Proof.
  unfold and_time, date_of, time_of.
  pose proof (Z.div_mod n NS_DAY). unfold NS_DAY in *. lia.
Qed.

Lemma time_of_range n : 0 <= time_of n < NS_DAY.
Proof. apply Z.mod_pos_bound. done. Qed.

Lemma date_of_and_time d t : 0 <= t < NS_DAY -> date_of (and_time d t) = d.
Proof.
  intros Ht. unfold date_of, and_time.
  rewrite Z.add_comm, Z.div_add by done. rewrite Z.div_small by done. lia.
Qed.

Lemma time_of_and_time d t : 0 <= t < NS_DAY -> time_of (and_time d t) = t.
Proof.
  intros Ht. unfold time_of, and_time.
  rewrite Z.add_comm, Z_mod_plus_full. by apply Z.mod_small.
Qed.

Lemma date_of_mono a b : a <= b -> date_of a <= date_of b.
Proof. intros. by apply Z.div_le_mono. Qed.

Lemma date_of_lt a b : date_of a < date_of b -> a < b.
Proof.
  intros. destruct (Z_lt_le_dec a b) as [|Hle]; [done|].
  pose proof (date_of_mono _ _ Hle). lia.
Qed.

Lemma from_hm_opt_range h m t :
  0 <= h -> 0 <= m -> from_hm_opt h m = Some t -> 0 <= t < NS_DAY /\ nanosecond t = 0.
Proof.
  unfold from_hm_opt, nanosecond, NS_DAY, NS_SEC. intros Hh Hm H.
  case_if_in H; [|done]. b2p. simplify_eq. split; [lia|]. by apply Z_mod_mult.
Qed.

Lemma fixed_offset_seconds `{CL : ChronoLaws} tz off :
  fixed_offset tz off -> off mod NS_SEC = 0.
Proof.
  intros [Hl _]. pose proof (offset_seconds tz 0) as H. rewrite Hl in H.
  by replace (0 + off - 0) with off in H by lia.
Qed.

Lemma fixed_offset_date_monotone `{C : Chrono} tz off :
  fixed_offset tz off -> date_monotone tz.
Proof.
  intros [Hl _] u v Huv. rewrite !Hl. apply date_of_mono. lia.
Qed.

(** ** The demonstration instance *)

Module Demo.

(** A zone: the offset in seconds is [before] until the instant [at] and
    [after] from then on. *)
Record Zone := MkZone { z_before : Z; z_after : Z; z_at : instant }.

Definition zone_local (z : Zone) (u : instant) : NaiveDateTime :=
  if u <? z_at z then u + seconds (z_before z) else u + seconds (z_after z).

Definition zone_from_local (z : Zone) (n : NaiveDateTime) : MappedLocalTime :=
  let u1 := n - seconds (z_before z) in
  let u2 := n - seconds (z_after z) in
  match u1 <? z_at z, z_at z <=? u2 with
  | true, true => MAmbiguous u1 u2
  | true, false => MSingle u1
  | false, true => MSingle u2
  | false, false => MNone
  end.

Definition utc : Zone := MkZone 0 0 0.
Definition fixed (off : Z) : Zone := MkZone off off 0.

(** The first day of a year, in days since 1970-01-01. *)
Definition year_start (y : Z) : Z :=
  365 * (y - 1) + (y - 1) / 4 - (y - 1) / 100 + (y - 1) / 400 - 719162.

Definition is_leap (y : Z) : bool :=
  (y mod 4 =? 0) && (negb (y mod 100 =? 0) || (y mod 400 =? 0)).

Definition year_of (d : Z) : Z :=
  let g := (d + 719162) * 400 / 146097 + 1 in
  if year_start (g + 1) <=? d then g + 1
  else if year_start g <=? d then g else g - 1.

(** Days of the year before month [m] (1-based; 13 is the year's length). *)
Definition month_start (leap : bool) (m : Z) : Z :=
  let l := if leap then 1 else 0 in
  if m =? 1 then 0 else if m =? 2 then 31 else if m =? 3 then 59 + l
  else if m =? 4 then 90 + l else if m =? 5 then 120 + l else if m =? 6 then 151 + l
  else if m =? 7 then 181 + l else if m =? 8 then 212 + l else if m =? 9 then 243 + l
  else if m =? 10 then 273 + l else if m =? 11 then 304 + l else if m =? 12 then 334 + l
  else 365 + l.

Definition month_of_doy (leap : bool) (n : Z) : Z :=
  let f m := month_start leap m <=? n in
  if f 12 then 12 else if f 11 then 11 else if f 10 then 10 else if f 9 then 9
  else if f 8 then 8 else if f 7 then 7 else if f 6 then 6 else if f 5 then 5
  else if f 4 then 4 else if f 3 then 3 else if f 2 then 2 else 1.

Definition month_of (d : Z) : Z :=
  let y := year_of d in month_of_doy (is_leap y) (d - year_start y).

Definition day_of (d : Z) : Z :=
  let y := year_of d in
  d - year_start y - month_start (is_leap y) (month_of d) + 1.

Definition ymd (y m d : Z) : option Z :=
  if (1 <=? m) && (m <=? 12) && (1 <=? d)
     && (d <=? month_start (is_leap y) (m + 1) - month_start (is_leap y) m)
  then Some (year_start y + month_start (is_leap y) m + d - 1) else None.

(** chrono's [NaiveDate::MAX] is in the year 262142. *)
Definition max_date : Z := 95746000.
Definition add_days (d n : Z) : option Z := if d + n <=? max_date then Some (d + n) else None.

#[export] Instance demo_chrono : Chrono := {|
  Tz := Zone;
  UTC := utc;
  tz_parse := fun s => if String.eqb s "UTC" then Some utc
                       else if String.eqb s "Etc/GMT-2" then Some (fixed 7200)
                       else None;
  local_of := zone_local;
  from_local_datetime := zone_from_local;
  weekday := fun d => weekday_of_num ((d + 3) mod 7);
  year := year_of;
  month := month_of;
  day := day_of;
  from_ymd_opt := ymd;
  checked_add_days := add_days;
  parse_from_rfc3339 := fun s =>
    if String.eqb s "1970-01-02T00:00:00Z" then Some NS_DAY else None;
  parse_naive_datetime := fun s =>
    if String.eqb s "1970-01-02T00:00:00" then Some NS_DAY else None;
  parse_naive_date := fun s => if String.eqb s "1970-01-02" then Some 1 else None
|}.

Lemma year_start_succ y : year_start (y + 1) = year_start y + (if is_leap y then 366 else 365).
Proof.
  unfold year_start, is_leap.
  repeat case_if; b2p; Z.div_mod_to_equations; lia.
Qed.

Lemma year_of_spec d : year_start (year_of d) <= d < year_start (year_of d + 1).
Proof.
  unfold year_of. cbv zeta.
  set (g := (d + 719162) * 400 / 146097 + 1).
  assert (year_start (g - 1) <= d < year_start (g + 2)) as Hg.
  { subst g. unfold year_start. Z.div_mod_to_equations. lia. }
  repeat case_if; b2p.
  - replace (g + 1 + 1) with (g + 2) by lia. lia.
  - lia.
  - replace (g - 1 + 1) with g by lia. lia.
Qed.

Lemma year_start_mono a b : a <= b -> year_start a <= year_start b.
Proof. unfold year_start. intros. Z.div_mod_to_equations. lia. Qed.

Lemma year_of_unique d y : year_start y <= d < year_start (y + 1) -> year_of d = y.
Proof.
  intros Hy. pose proof (year_of_spec d) as Hs.
  destruct (Z.lt_trichotomy (year_of d) y) as [Hlt|[?|Hlt]]; [|done|].
  - pose proof (year_start_mono (year_of d + 1) y). lia.
  - pose proof (year_start_mono (y + 1) (year_of d)). lia.
Qed.

Ltac eval_month_start :=
  repeat match goal with
  | H : context [month_start ?b ?k] |- _ =>
      let v := eval vm_compute in (month_start b k) in
      change (month_start b k) with v in *
  | |- context [month_start ?b ?k] =>
      let v := eval vm_compute in (month_start b k) in
      change (month_start b k) with v
  end.

Ltac month_cases :=
  unfold month_of_doy; cbv zeta beta; repeat case_if; b2p; eval_month_start; lia.

Lemma twelve_months m : 1 <= m <= 12 ->
  m = 1 \/ m = 2 \/ m = 3 \/ m = 4 \/ m = 5 \/ m = 6 \/ m = 7 \/ m = 8
  \/ m = 9 \/ m = 10 \/ m = 11 \/ m = 12.
Proof. lia. Qed.

Lemma month_of_doy_spec (leap : bool) (n : Z) :
  0 <= n < (if leap then 366 else 365) ->
  1 <= month_of_doy leap n <= 12 /\
  month_start leap (month_of_doy leap n) <= n < month_start leap (month_of_doy leap n + 1).
Proof. destruct leap; intros Hn; month_cases. Qed.

Lemma month_of_doy_unique (leap : bool) (n m : Z) :
  1 <= m <= 12 -> month_start leap m <= n < month_start leap (m + 1) ->
  month_of_doy leap n = m.
Proof.
  intros Hm Hn.
  pose proof (twelve_months m ltac:(lia)) as Hc.
  destruct leap; decompose [or] Hc; subst; month_cases.
Qed.

Lemma month_start_range (leap : bool) (m : Z) :
  1 <= m <= 12 ->
  0 <= month_start leap m /\ month_start leap (m + 1) <= (if leap then 366 else 365).
Proof.
  intros Hm.
  pose proof (twelve_months m ltac:(lia)) as Hc.
  destruct leap; decompose [or] Hc; subst; vm_compute; split; congruence.
Qed.

Lemma month_len_start (leap : bool) (m : Z) :
  1 <= m <= 12 -> month_len m <= month_start leap (m + 1) - month_start leap m.
Proof.
  intros Hm. pose proof (twelve_months m Hm) as Hc.
  destruct leap; decompose [or] Hc; subst; vm_compute; congruence.
Qed.

Lemma ymd_sound_demo y m d dt :
  ymd y m d = Some dt -> year_of dt = y /\ month_of dt = m /\ day_of dt = d.
Proof.
  unfold ymd. intros H. case_if_in H; [|done]. b2p. injection H as <-.
  pose proof (month_start_range (is_leap y) m ltac:(lia)) as [Hm0 Hm1].
  assert (year_of (year_start y + month_start (is_leap y) m + d - 1) = y) as Hy.
  { apply year_of_unique. rewrite year_start_succ. lia. }
  assert (month_of (year_start y + month_start (is_leap y) m + d - 1) = m) as Hmo.
  { unfold month_of. rewrite Hy. apply month_of_doy_unique; lia. }
  unfold day_of. rewrite Hmo, Hy. split_and!; lia.
Qed.

Lemma ymd_complete_demo dt : ymd (year_of dt) (month_of dt) (day_of dt) = Some dt.
Proof.
  pose proof (year_of_spec dt) as Hy. rewrite year_start_succ in Hy.
  unfold ymd, day_of, month_of.
  pose proof (month_of_doy_spec (is_leap (year_of dt)) (dt - year_start (year_of dt))) as Hm.
  destruct Hm as [Hm1 Hm2]; [destruct (is_leap (year_of dt)); lia|].
  case_if; [f_equal; lia|]. b2p. lia.
Qed.

Lemma day_of_pos dt : 1 <= day_of dt.
Proof.
  pose proof (year_of_spec dt) as Hy. rewrite year_start_succ in Hy.
  unfold day_of, month_of.
  pose proof (month_of_doy_spec (is_leap (year_of dt)) (dt - year_start (year_of dt))) as Hm.
  destruct Hm as [_ Hm]; [destruct (is_leap (year_of dt)); lia|]. lia.
Qed.

Lemma month_of_range dt : 1 <= month_of dt <= 12.
Proof.
  pose proof (year_of_spec dt) as Hy. rewrite year_start_succ in Hy.
  apply month_of_doy_spec. destruct (is_leap (year_of dt)); lia.
Qed.

Lemma month_of_doy_mono (leap : bool) (n m : Z) :
  n <= m -> month_of_doy leap n <= month_of_doy leap m.
Proof.
  intros Hnm. destruct leap; unfold month_of_doy; cbv zeta beta; eval_month_start;
    repeat (case_if; b2p); lia.
Qed.

Lemma month_index_mono_demo a b :
  a <= b -> year_of a * 12 + month_of a <= year_of b * 12 + month_of b.
Proof.
  intros Hab. pose proof (year_of_spec a) as Ha. pose proof (year_of_spec b) as Hb.
  pose proof (month_of_range a). pose proof (month_of_range b).
  destruct (Z.lt_trichotomy (year_of a) (year_of b)) as [?|[He|Hlt]]; [lia| |].
  - unfold month_of. rewrite He. pose proof (month_of_doy_mono (is_leap (year_of b))
      (a - year_start (year_of b)) (b - year_start (year_of b)) ltac:(lia)). lia.
  - pose proof (year_start_mono (year_of b + 1) (year_of a) ltac:(lia)). lia.
Qed.

#[export] Instance demo_laws : ChronoLaws demo_chrono.
Proof.
  split; simpl.
  - intros tz n u. unfold zone_from_local, zone_local.
    repeat case_if; intros [= <-]; b2p; repeat case_if; b2p; lia.
  - intros tz n e l. unfold zone_from_local, zone_local.
    repeat case_if; intros [= <- <-]; b2p; repeat case_if; b2p; lia.
  - intros tz u. unfold zone_from_local, zone_local.
    destruct (Z.ltb_spec u (z_at tz)) as [Hu|Hu]; repeat case_if; b2p; try lia.
    + right. do 2 eexists. split; [done|]. left. lia.
    + left. f_equal. lia.
    + right. do 2 eexists. split; [done|]. right. lia.
    + left. f_equal. lia.
  - intros tz u. unfold zone_local, seconds, NS_SEC.
    case_if; rewrite Z.add_simpl_l; apply Z_mod_mult.
  - done.
  - apply ymd_sound_demo.
  - apply ymd_complete_demo.
  - intros y m d _ Hm Hd. unfold ymd. pose proof (month_len_start (is_leap y) m Hm).
    case_if; [done|]. b2p. lia.
  - intros y m d d' a b. unfold ymd. do 2 (case_if; [|done]). intros [= <-] [= <-]. lia.
  - apply day_of_pos.
  - apply month_of_range.
  - apply month_index_mono_demo.
  - intros d n d'. unfold add_days. case_if; congruence.
Qed.

Lemma fixed_fixed_offset off : fixed_offset (C := demo_chrono) (fixed off) (seconds off).
Proof.
  split; intros; simpl; unfold zone_local, zone_from_local; simpl; repeat case_if; b2p;
    try lia; done.
Qed.

Example ymd_2026 : ymd 2026 3 29 = Some 20541 /\ day_of 20541 = 29 /\ month_of 20541 = 3.
Proof. vm_compute. done. Qed.

End Demo.
