(* ===== verification/IpAddr.v ===== *)
(** * Internet addresses and the text forms [core::net] reads

    [IpAddr] with an address as the number of its bits, and the recursive
    descent parser behind [str::parse::<IpAddr>] and
    [str::parse::<SocketAddr>]: a reader takes the input and answers the value
    with the rest, or nothing, in which case the caller is where it was. *)

From S2P Require Import Prelude RustStr.

Local Open Scope Z_scope.

Inductive IpAddr :=
| V4 (bits : Z)
| V6 (bits : Z).

#[export] Instance IpAddr_eq_dec : EqDecision IpAddr.
Proof. solve_decision. Defined.

#[export] Instance IpAddr_countable : Countable IpAddr.
Proof.
  refine (inj_countable' (fun a => match a with V4 b => inl b | V6 b => inr b end)
            (fun s => match s with inl b => V4 b | inr b => V6 b end) _).
  by intros [].
Defined.

Definition is_ipv4 (a : IpAddr) : bool := match a with V4 _ => true | V6 _ => false end.

(** [to_canonical]: an IPv4-mapped address ([::ffff:a.b.c.d]) is its IPv4
    address. *)
Definition to_canonical (a : IpAddr) : IpAddr :=
  match a with
  | V4 b => V4 b
  | V6 b => if Z.shiftr b 32 =? 65535 then V4 (Z.land b U32_MAX) else V6 b
  end.

(** ** Readers *)

Definition Reader (A : Type) := string -> option (A * string).

Definition read_given_char (c : ascii) : Reader unit := fun s =>
  match s with
  | String a s' => if Ascii.eqb a c then Some (tt, s') else None
  | EmptyString => None
  end.

Definition hex_val (c : ascii) : option Z :=
  match digit_val c with
  | Some d => Some d
  | None => if byte_in c 97 102 then Some (byte_of c - 87)
            else if byte_in c 65 70 then Some (byte_of c - 55) else None
  end.
Definition to_digit (radix : Z) (c : ascii) : option Z :=
  if radix =? 16 then hex_val c else digit_val c.

(** The digit loop of [read_number]: the value so far, the digits so far. *)
Fixpoint read_digits (radix max : Z) (max_digits : option Z) (acc count : Z) (s : string)
  : option (Z * Z * string) :=
  match s with
  | EmptyString => Some (acc, count, s)
  | String c s' =>
      match to_digit radix c with
      | None => Some (acc, count, s)
      | Some d =>
          let acc := acc * radix + d in
          let count := count + 1 in
          if (max <? acc) || match max_digits with Some m => m <? count | None => false end
          then None
          else read_digits radix max max_digits acc count s'
      end
  end.

Definition read_number (radix max : Z) (max_digits : option Z) (allow_zero_prefix : bool)
  : Reader Z := fun s =>
  let has_leading_zero := starts_with "0" s in
  match read_digits radix max max_digits 0 0 s with
  | None => None
  | Some (v, count, rest) =>
      if count =? 0 then None
      else if negb allow_zero_prefix && has_leading_zero && (1 <? count) then None
      else Some (v, rest)
  end.

(** [read_separator]: the separator before every element but the first. *)
Definition read_separator {A} (sep : ascii) (index : nat) (inner : Reader A) : Reader A := fun s =>
  match index with
  | O => inner s
  | S _ => match read_given_char sep s with Some (_, s) => inner s | None => None end
  end.

Fixpoint read_octets (n index : nat) (acc : Z) : Reader Z := fun s =>
  match n with
  | O => Some (acc, s)
  | S n =>
      match read_separator "." index (read_number 10 U8_MAX (Some 3) false) s with
      | Some (o, s) => read_octets n (S index) (acc * 256 + o) s
      | None => None
      end
  end.
Definition read_ipv4_addr : Reader Z := read_octets 4 0 0.

(** [read_groups] on the [limit - i] slots that are left: the groups read, the
    rest of the input, whether they end in an embedded IPv4 address. *)
Fixpoint read_groups (left : nat) (i : nat) (s : string) : list Z * bool * string :=
  match left with
  | O => ([], false, s)
  | S left' =>
      let group :=
        match read_separator ":" i (read_number 16 65535 (Some 4) true) s with
        | None => ([], false, s)
        | Some (g, s) =>
            let '(gs, v4, s) := read_groups left' (S i) s in (g :: gs, v4, s)
        end in
      match left' with
      | O => group
      | S _ =>
          match read_separator ":" i read_ipv4_addr s with
          | Some (a, s) => ([Z.shiftr a 16; Z.land a 65535], true, s)
          | None => group
          end
      end
  end.

Definition of_segments (l : list Z) : Z := foldl (fun acc g => acc * 65536 + g) 0 l.

Definition read_ipv6_addr : Reader Z := fun s =>
  let '(head, head_ipv4, s) := read_groups 8 0 s in
  if Nat.eqb (length head) 8 then Some (of_segments head, s)
  else if head_ipv4 then None
  else
    match read_given_char ":" s with
    | None => None
    | Some (_, s) =>
        match read_given_char ":" s with
        | None => None
        | Some (_, s) =>
            let '(tail, _, s) := read_groups (8 - (length head + 1)) 0 s in
            Some (of_segments (head ++ replicate (8 - length head - length tail) 0 ++ tail), s)
        end
    end.

Definition read_ip_addr : Reader IpAddr := fun s =>
  match read_ipv4_addr s with
  | Some (a, s) => Some (V4 a, s)
  | None => match read_ipv6_addr s with Some (a, s) => Some (V6 a, s) | None => None end
  end.

Definition read_port : Reader Z := fun s =>
  match read_given_char ":" s with
  | Some (_, s) => read_number 10 65535 None true s
  | None => None
  end.

Definition read_scope_id : Reader Z := fun s =>
  match read_given_char "%" s with
  | Some (_, s) => read_number 10 U32_MAX None true s
  | None => None
  end.

(** The address of a [SocketAddrV4], of a [SocketAddrV6]. *)
Definition read_socket_addr_v4 : Reader IpAddr := fun s =>
  match read_ipv4_addr s with
  | Some (a, s) => match read_port s with Some (_, s) => Some (V4 a, s) | None => None end
  | None => None
  end.

Definition read_socket_addr_v6 : Reader IpAddr := fun s =>
  match read_given_char "[" s with
  | None => None
  | Some (_, s) =>
      match read_ipv6_addr s with
      | None => None
      | Some (a, s) =>
          let s := match read_scope_id s with Some (_, s) => s | None => s end in
          match read_given_char "]" s with
          | None => None
          | Some (_, s) => match read_port s with Some (_, s) => Some (V6 a, s) | None => None end
          end
      end
  end.

Definition read_socket_addr : Reader IpAddr := fun s =>
  match read_socket_addr_v4 s with Some r => Some r | None => read_socket_addr_v6 s end.

(** [parse_with]: the whole input, or an error. *)
Definition parse_with {A} (inner : Reader A) (s : string) : option A :=
  match inner s with
  | Some (a, EmptyString) => Some a
  | _ => None
  end.

Definition parse_ip_addr : string -> option IpAddr := parse_with read_ip_addr.
Definition parse_socket_addr_ip : string -> option IpAddr := parse_with read_socket_addr.

Example parse_v4 : parse_ip_addr "203.0.113.9" = Some (V4 3405803785).
Proof. reflexivity. Qed.
Example parse_v4_leading_zero : parse_ip_addr "10.00.0.1" = None.
Proof. reflexivity. Qed.
Example parse_v6 : parse_ip_addr "fd00::1" = Some (V6 336294682933583715844663186250927177729).
Proof. reflexivity. Qed.
Example parse_mapped :
  to_canonical <$> parse_ip_addr "::ffff:10.9.9.9" = Some (V4 168364297).
Proof. reflexivity. Qed.
Example parse_sock6 : parse_socket_addr_ip "[::1%3]:80" = Some (V6 1).
Proof. reflexivity. Qed.
Example parse_sock4 : parse_socket_addr_ip "203.0.113.9:4711" = Some (V4 3405803785).
Proof. reflexivity. Qed.

(** ** Addresses fit their width *)

Definition width (a : IpAddr) : Z := match a with V4 _ => 32 | V6 _ => 128 end.
Definition bits (a : IpAddr) : Z := match a with V4 b | V6 b => b end.
Definition ip_ok (a : IpAddr) : Prop := 0 <= bits a < 2 ^ width a.

Lemma read_digits_range radix max md s acc count v n rest :
  0 < radix -> 0 <= acc <= max ->
  read_digits radix max md acc count s = Some (v, n, rest) -> 0 <= v <= max.
Proof.
  revert acc count. induction s as [|c s IH]; intros acc count Hr Ha; simpl; [naive_solver|].
  destruct (to_digit radix c) as [d|] eqn:Ed; [|naive_solver].
  assert (0 <= d) as Hd.
  { unfold to_digit, hex_val in Ed. destruct (digit_val c) eqn:E1.
    - apply digit_val_range in E1. case_if_in Ed; simplify_eq; lia.
    - case_if_in Ed; [|done]. unfold byte_in in Ed. repeat case_if_in Ed; simplify_eq; b2p; lia. }
  case_if; [done|]. b2p. apply IH; [done|]. nia.
Qed.

Lemma read_number_range radix max md z s v rest :
  0 < radix -> 0 <= max -> read_number radix max md z s = Some (v, rest) -> 0 <= v <= max.
Proof.
  unfold read_number. intros Hr Hm H.
  destruct (read_digits _ _ _ _ _ _) as [[[v' n] r]|] eqn:E; [|done].
  apply read_digits_range in E; [|done|lia]. repeat case_if_in H; naive_solver.
Qed.

Lemma read_separator_inv {A} sep i (inner : Reader A) s r :
  read_separator sep i inner s = Some r -> exists s', inner s' = Some r.
Proof. unfold read_separator. destruct i; [eauto|]. destruct (read_given_char sep s) as [[??]|]; naive_solver. Qed.

Lemma read_octets_range n i acc s v rest :
  0 <= acc -> read_octets n i acc s = Some (v, rest) ->
  0 <= v < (acc + 1) * 256 ^ Z.of_nat n.
Proof.
  revert i acc s. induction n as [|n IH]; intros i acc s Ha; cbn [read_octets].
  { intros [= -> ->]. lia. }
  destruct (read_separator _ _ _ s) as [[o s']|] eqn:E; [|done].
  apply read_separator_inv in E as [s0 E].
  apply read_number_range in E; [|lia|unfold U8_MAX; lia].
  intros H. apply IH in H; [|lia]. unfold U8_MAX in E.
  replace (Z.of_nat (S n)) with (Z.of_nat n + 1) by lia. rewrite Z.pow_add_r by lia.
  assert (0 < 256 ^ Z.of_nat n) by (apply Z.pow_pos_nonneg; lia). nia.
Qed.

Lemma read_ipv4_range s v rest : read_ipv4_addr s = Some (v, rest) -> 0 <= v < 2 ^ 32.
Proof. intros H. apply read_octets_range in H; [|lia]. simpl in H. lia. Qed.

Definition segment (g : Z) : Prop := 0 <= g < 65536.

Lemma read_groups_ok left i s gs b rest :
  read_groups left i s = (gs, b, rest) -> Forall segment gs /\ (length gs <= left)%nat.
Proof.
  revert i s gs b rest. induction left as [|left IH]; intros i s gs b rest; cbn [read_groups].
  { intros [= <- <- <-]. split; [constructor|simpl; lia]. }
  match goal with |- match _ with O => ?g | S _ => _ end = _ -> _ => set (group := g) end.
  assert (group = (gs, b, rest) -> Forall segment gs /\ (length gs <= S left)%nat) as Hg.
  { unfold group. destruct (read_separator _ _ _ s) as [[g s']|] eqn:E.
    - apply read_separator_inv in E as [s0 E]. apply read_number_range in E; [|lia..].
      destruct (read_groups left (S i) s') as [[gs' b'] r'] eqn:Er. intros [= <- <- <-].
      apply IH in Er as [Hf Hl]. split; [|simpl; lia]. constructor; [unfold segment; lia|done].
    - intros [= <- <- <-]. split; [constructor|simpl; lia]. }
  destruct left as [|left']; [done|].
  destruct (read_separator ":" i read_ipv4_addr s) as [[a s']|] eqn:E; [|done].
  intros [= <- <- <-]. apply read_separator_inv in E as [s0 E]. apply read_ipv4_range in E.
  split; [|simpl; lia]. repeat constructor; unfold segment.
  - apply Z.shiftr_nonneg. lia.
  - rewrite Z.shiftr_div_pow2 by lia. apply Z.div_lt_upper_bound; lia.
  - apply Z.land_nonneg. lia.
  - change 65535 with (Z.ones 16). rewrite Z.land_ones by lia. apply Z.mod_pos_bound. lia.
Qed.

Lemma of_segments_range l : Forall segment l -> 0 <= of_segments l < 65536 ^ Z.of_nat (length l).
Proof.
  unfold of_segments. induction l as [|g l IH] using rev_ind; intros H; [simpl; lia|].
  apply Forall_app in H as [Hl Hg]. rewrite Forall_singleton in Hg. specialize (IH Hl).
  rewrite foldl_app, length_app. simpl.
  replace (Z.of_nat (length l + 1)) with (Z.of_nat (length l) + 1) by lia.
  rewrite Z.pow_add_r, Z.pow_1_r by lia. unfold segment in Hg. lia.
Qed.

Lemma read_ipv6_range s v rest : read_ipv6_addr s = Some (v, rest) -> 0 <= v < 2 ^ 128.
Proof.
  unfold read_ipv6_addr. destruct (read_groups 8 0 s) as [[hd v4] s1] eqn:E1.
  apply read_groups_ok in E1 as [Hh Hl]. destruct (Nat.eqb (length hd) 8) eqn:Hc.
  { intros [= <- <-]. apply Nat.eqb_eq in Hc. apply of_segments_range in Hh. by rewrite Hc in Hh. }
  destruct v4; [done|]. destruct (read_given_char ":" s1) as [[? s2]|]; [|done].
  destruct (read_given_char ":" s2) as [[? s3]|]; [|done].
  destruct (read_groups _ 0 s3) as [[tl b] s4] eqn:E2. apply read_groups_ok in E2 as [Ht Hl2].
  intros [= <- <-]. apply Nat.eqb_neq in Hc.
  pose proof (of_segments_range (hd ++ replicate (8 - length hd - length tl) 0 ++ tl)) as H.
  rewrite !length_app, length_replicate in H.
  replace (length hd + (8 - length hd - length tl + length tl))%nat with 8%nat in H by lia.
  apply H. apply Forall_app; split; [done|]. apply Forall_app; split; [|done].
  apply Forall_replicate. unfold segment. lia.
Qed.

(** Every address read from text has the width of its family. *)
Lemma read_ip_addr_ok s a rest : read_ip_addr s = Some (a, rest) -> ip_ok a.
Proof.
  unfold read_ip_addr, ip_ok. destruct (read_ipv4_addr s) as [[v r]|] eqn:E4.
  { intros [= <- <-]. exact (read_ipv4_range _ _ _ E4). }
  destruct (read_ipv6_addr s) as [[v r]|] eqn:E6; [|done].
  intros [= <- <-]. exact (read_ipv6_range _ _ _ E6).
Qed.

Lemma to_canonical_ok a : ip_ok a -> ip_ok (to_canonical a).
Proof.
  unfold ip_ok. destruct a as [b|b]; cbn [to_canonical]; [done|]. intros H.
  destruct (_ =? _); [|done]. cbn [bits width].
  change U32_MAX with (Z.ones 32). rewrite Z.land_ones by lia. apply Z.mod_pos_bound. lia.
Qed.

Lemma to_canonical_idem a : to_canonical (to_canonical a) = to_canonical a.
Proof.
  destruct a as [b|b]; cbn [to_canonical]; [done|].
  destruct (_ =? _) eqn:Hc; cbn [to_canonical]; [done|]. by rewrite Hc.
Qed.
