(* ===== verification/Ast.v ===== *)
(** * Croniqfile AST

    Models [croniq-config/src/ast.rs]. The source span of a node only serves
    diagnostics and is left out; a struct whose other field is one list (the
    [ServerBlock], [SmtpBlock], ... of a top-level item) is that list. *)

From S2P Require Import Prelude RustStr.

Local Open Scope string_scope.
Local Open Scope Z_scope.

Module AstWeekday.

Inductive t := Monday | Tuesday | Wednesday | Thursday | Friday | Saturday | Sunday.

#[export] Instance t_eq_dec : EqDecision t.
Proof. solve_decision. Defined.

(** [Weekday::ALL] *)
Definition ALL : list t := [Monday; Tuesday; Wednesday; Thursday; Friday; Saturday; Sunday].

(** [Weekday::parse] *)
Definition parse (s : string) : option t :=
  let l := to_ascii_lowercase s in
  let is_ x := String.eqb l x in
  if is_ "monday" || is_ "mon" then Some Monday
  else if is_ "tuesday" || is_ "tue" then Some Tuesday
  else if is_ "wednesday" || is_ "wed" then Some Wednesday
  else if is_ "thursday" || is_ "thu" then Some Thursday
  else if is_ "friday" || is_ "fri" then Some Friday
  else if is_ "saturday" || is_ "sat" then Some Saturday
  else if is_ "sunday" || is_ "sun" then Some Sunday
  else None.

(** [Weekday::parse_group]: [ALL[0..5]] and [ALL[5..7]]. *)
Definition parse_group (s : string) : option (list t) :=
  let l := to_ascii_lowercase s in
  if String.eqb l "weekday" then Some (take 5 ALL)
  else if String.eqb l "weekend" then Some (drop 5 ALL)
  else None.

(** The discriminant, [d as usize]. *)
Definition index (d : t) : nat :=
  match d with
  | Monday => 0 | Tuesday => 1 | Wednesday => 2 | Thursday => 3
  | Friday => 4 | Saturday => 5 | Sunday => 6
  end.

(** [Weekday::parse_token]: a group alias first, then a single day as a
    one-element slice of [ALL]. *)
Definition parse_token (s : string) : option (list t) :=
  match parse_group s with
  | Some g => Some g
  | None => d ← parse s; Some (take 1 (drop (index d) ALL))
  end.

(** [Weekday::as_str] *)
Definition as_str (d : t) : string :=
  match d with
  | Monday => "monday" | Tuesday => "tuesday" | Wednesday => "wednesday"
  | Thursday => "thursday" | Friday => "friday" | Saturday => "saturday"
  | Sunday => "sunday"
  end.

Lemma slice_single d : take 1 (drop (index d) ALL) = [d].
Proof. by destruct d. Qed.

Lemma parse_as_str d : parse (as_str d) = Some d.
Proof. by destruct d. Qed.

Lemma parse_token_as_str d : parse_token (as_str d) = Some [d].
Proof. by destruct d. Qed.

End AstWeekday.

Inductive IntervalUnit := Seconds | Minutes | Hours.

#[export] Instance IntervalUnit_eq_dec : EqDecision IntervalUnit.
Proof. solve_decision. Defined.

(** [StringValue]: an unquoted word, a quoted string or a placeholder. *)
Record StringValue := MkValue { sv_value : string; sv_quoted : bool; sv_is_placeholder : bool }.

#[export] Instance StringValue_eq_dec : EqDecision StringValue.
Proof. solve_decision. Defined.

(** [TimeValue]: [hour] and [minute] are [u8], [raw] is the text as written. *)
Record TimeValue := MkTimeValue { tv_hour : Z; tv_minute : Z; tv_raw : string }.

#[export] Instance TimeValue_eq_dec : EqDecision TimeValue.
Proof. solve_decision. Defined.

Inductive MonthOrdinal :=
| OrdDay (d : Z)   (** [Day(u8)] *)
| OrdLast.

#[export] Instance MonthOrdinal_eq_dec : EqDecision MonthOrdinal.
Proof. solve_decision. Defined.

Inductive ScheduleKind :=
| KInterval (count : Z) (unit : IntervalUnit)
| KDaily (time : TimeValue)
| KWeekdays (days : list AstWeekday.t) (time : TimeValue)
| KMonthly (ordinals : list MonthOrdinal) (time : TimeValue)
| KOnce (at_ : StringValue)
| KDisabled.

(** ** Directives and blocks *)

Record Directive := MkDirective { dir_key : StringValue; dir_args : list StringValue }.

#[export] Instance Directive_eq_dec : EqDecision Directive.
Proof. solve_decision. Defined.

(** [DirectiveOrBlock] and [NamedBlock]; a comment is its text. *)
Inductive DirectiveOrBlock :=
| DDirective (d : Directive)
| DBlock (b : NamedBlock)
| DComment (text : string)
with NamedBlock :=
| MkBlock (name : StringValue) (qualifier : option StringValue)
    (directives : list DirectiveOrBlock).

Definition block_name (b : NamedBlock) : StringValue := let '(MkBlock n _ _) := b in n.
Definition block_qualifier (b : NamedBlock) : option StringValue := let '(MkBlock _ q _) := b in q.
Definition block_directives (b : NamedBlock) : list DirectiveOrBlock :=
  let '(MkBlock _ _ ds) := b in ds.

(** Induction over the nesting of blocks. *)
Section NestingInd.
Variable P : DirectiveOrBlock -> Prop.
Hypothesis P_directive : forall d, P (DDirective d).
Hypothesis P_comment : forall t, P (DComment t).
Hypothesis P_block : forall n q ds, Forall P ds -> P (DBlock (MkBlock n q ds)).

Fixpoint nested_ind (x : DirectiveOrBlock) : P x :=
  match x with
  | DDirective d => P_directive d
  | DComment t => P_comment t
  | DBlock (MkBlock n q ds) =>
      P_block n q ds
        ((fix go l : Forall P l :=
            match l with
            | [] => Forall_nil_2 _
            | x :: l => Forall_cons_2 _ _ _ (nested_ind x) (go l)
            end) ds)
  end.
End NestingInd.

(** ** Calendars, jobs, items *)

Inductive CalendarRuleKind := Include | Exclude.

#[export] Instance CalendarRuleKind_eq_dec : EqDecision CalendarRuleKind.
Proof. solve_decision. Defined.

(** [CalendarRule] of the AST *)
Record AstCalendarRule := MkAstRule {
  ar_kind : CalendarRuleKind;
  ar_type : StringValue;
  ar_args : list StringValue
}.

Inductive ScheduleMode := MQueued | MEphemeral.

Record ScheduleNode := MkScheduleNode {
  sched_kind : ScheduleKind;
  sched_mode : option ScheduleMode;
  sched_options : list Directive
}.

Record JobKey := MkJobKey {
  key_raw : string;
  key_namespace : string;
  key_name : string;
  key_variant : option string
}.

#[export] Instance JobKey_eq_dec : EqDecision JobKey.
Proof. solve_decision. Defined.

Record JobBlock := MkJob {
  jb_key : JobKey;
  jb_schedule : option ScheduleNode;
  jb_directives : list DirectiveOrBlock
}.

Inductive Item :=
| IImport (path : StringValue)
| IServer (directives : list Directive)
| ISmtp (directives : list Directive)
| IPullApi (directives : list Directive)
| IObservability (sub_blocks : list NamedBlock)
| IMcp (directives : list Directive)
| IOidc (directives : list Directive)
| IAuth (sub_blocks : list NamedBlock)
| IPolicy (directives : list Directive)
| IAlerts (sub_blocks : list NamedBlock)
| IVars (entries : list Directive)
| IDefaults (directives : list DirectiveOrBlock)
| ICalendar (name : StringValue) (rules : list AstCalendarRule)
| IConcurrencyGroup (name : StringValue) (directives : list Directive)
| IJob (job : JobBlock)
| IComment (text : string).

(** [Croniqfile] *)
Definition Croniqfile : Type := list Item.
