(* ===== verification/Lexer.v ===== *)
(** * The Croniqfile lexer

    Models [croniq-config/src/lexer.rs]. The state of a [Lexer] is the part of
    the source it has not read: [pos] is the size of the source less the size
    of that part. Spans are kept on tokens and errors. *)

From S2P Require Import Prelude RustStr.

Local Open Scope Z_scope.

Definition NL : ascii := "010".
Definition CR : ascii := "013".
Definition TAB : ascii := "009".
Definition DQ : ascii := "034".
Definition BACKSLASH : ascii := "092".

Record Span := MkSpan { offset : Z; len : Z }.

(** [Span::merge] *)
Definition merge (a b : Span) : Span :=
  let start := Z.min (offset a) (offset b) in
  let end_ := Z.max (offset a + len a) (offset b + len b) in
  MkSpan start (end_ - start).

Inductive TokenKind :=
| Ident (s : string)
| QuotedString (s : string)
| Comment (s : string)
| Placeholder (s : string)
| LBrace
| RBrace
| Semicolon
| DotDot
| Newline
| Eof.

#[export] Instance TokenKind_eq_dec : EqDecision TokenKind.
Proof. solve_decision. Defined.

(** [Display for TokenKind] *)
Definition show_kind (k : TokenKind) : string :=
  match k with
  | Ident s => s
  | QuotedString s => String DQ s +:+ String DQ ""
  | Comment s => "# " +:+ s
  | Placeholder s => "{" +:+ s +:+ "}"
  | LBrace => "{"
  | RBrace => "}"
  | Semicolon => ";"
  | DotDot => ".."
  | Newline => "<newline>"
  | Eof => "<eof>"
  end.

Record Token := MkToken { tok_kind : TokenKind; tok_span : Span }.

(** [Token::text], [Token::is_ident] *)
Definition text (k : TokenKind) : string :=
  match k with
  | Ident s | QuotedString s | Placeholder s => s
  | _ => ""
  end.
Definition is_ident (k : TokenKind) (name : string) : bool :=
  match k with Ident s => String.eqb s name | _ => false end.

(** [LexError]; the character of an escape is its byte, an unexpected
    character its UTF-8 bytes. [LexOutOfSteps] is not an error of the code: it
    stands for a loop that does not end ([tokenize_ends]: never returned). *)
Inductive LexError :=
| UnterminatedString (span : Span)
| UnterminatedPlaceholder (span : Span)
| InvalidEscape (ch : ascii) (span : Span)
| UnexpectedChar (ch : string) (span : Span)
| LexOutOfSteps.

(** [Lexer::is_ident_char] *)
Definition is_ident_char (b : ascii) : bool :=
  byte_in b 97 122 || byte_in b 65 90 || byte_in b 48 57
  || Ascii.eqb b ":" || Ascii.eqb b "/" || Ascii.eqb b "*" || Ascii.eqb b "?"
  || Ascii.eqb b "-" || Ascii.eqb b "." || Ascii.eqb b "_"
  || Ascii.eqb b "+" || Ascii.eqb b "@".

Definition is_space (b : ascii) : bool :=
  Ascii.eqb b " " || Ascii.eqb b TAB || Ascii.eqb b CR.

(** [skip_spaces] *)
Fixpoint skip_spaces (s : string) : string :=
  match s with
  | String b s' => if is_space b then skip_spaces s' else s
  | "" => s
  end.

(** The loop after a newline: everything blank up to the next token. *)
Fixpoint skip_blank (s : string) : string :=
  match s with
  | String b s' => if Ascii.eqb b NL || is_space b then skip_blank s' else s
  | "" => s
  end.

(** [is_placeholder_start], on the text after the brace. *)
Definition is_placeholder_start (s : string) : bool :=
  starts_with "$" s || starts_with "env." s || starts_with "file." s || starts_with "vars." s.

(** The text up to the end of the line, and the rest. *)
Fixpoint split_line (s : string) : string * string :=
  match s with
  | "" => ("", "")
  | String b s' =>
      if Ascii.eqb b NL then ("", s)
      else let '(l, r) := split_line s' in (String b l, r)
  end.

(** The loop of [lex_ident]: identifier characters, stopping before [..]. *)
Fixpoint split_ident (s : string) : string * string :=
  match s with
  | "" => ("", "")
  | String b s' =>
      if is_ident_char b && negb (Ascii.eqb b "." && starts_with "." s')
      then let '(l, r) := split_ident s' in (String b l, r)
      else ("", s)
  end.

(** The loop of [lex_placeholder]: the content up to the brace that closes
    depth [depth + 1], and the rest. *)
Fixpoint split_placeholder (depth : nat) (s : string) : option (string * string) :=
  match s with
  | "" => None
  | String b s' =>
      if Ascii.eqb b "{" then
        '(c, r) ← split_placeholder (S depth) s'; Some (String b c, r)
      else if Ascii.eqb b "}" then
        match depth with
        | O => Some ("", s')
        | S depth => '(c, r) ← split_placeholder depth s'; Some (String b c, r)
        end
      else if Ascii.eqb b NL then None
      else '(c, r) ← split_placeholder depth s'; Some (String b c, r)
  end.

(** The byte an escape stands for. *)
Definition unescape (esc : ascii) : option ascii :=
  if Ascii.eqb esc "n" then Some NL
  else if Ascii.eqb esc "t" then Some TAB
  else if Ascii.eqb esc "r" then Some CR
  else if Ascii.eqb esc BACKSLASH then Some BACKSLASH
  else if Ascii.eqb esc DQ then Some DQ
  else None.

(** [char::len_utf8] of the character that starts with this byte. *)
Definition utf8_len (b : ascii) : nat :=
  let n := byte_of b in
  if n <? 128 then 1%nat else if n <? 224 then 2%nat else if n <? 240 then 3%nat else 4%nat.

Fixpoint str_split_at (n : nat) (s : string) : string * string :=
  match n, s with
  | S n, String b s' => let '(l, r) := str_split_at n s' in (String b l, r)
  | _, _ => ("", s)
  end.

Section Lexing.
(** [source.len()] *)
Variable size : Z.

Definition pos (s : string) : Z := size - str_len s.

(** [Token::new(kind, Span::new(start, self.pos - start))] *)
Definition token_to (kind : TokenKind) (start : Z) (rest : string) : Token * string :=
  (MkToken kind (MkSpan start (pos rest - start)), rest).

Definition lex_comment (start : Z) (s : string) : result (Token * string) LexError :=
  let s := match s with String b s' => if Ascii.eqb b " " then s' else s | "" => s end in
  let '(content, rest) := split_line s in
  Ok (token_to (Comment (trim_end content)) start rest).

(** The loop of [lex_string]: the value and the rest. *)
Fixpoint lex_string_body (start : Z) (s : string) : result (string * string) LexError :=
  match s with
  | "" => Err (UnterminatedString (MkSpan start 1))
  | String b s' =>
      if Ascii.eqb b DQ then Ok ("", s')
      else if Ascii.eqb b BACKSLASH then
        match s' with
        | "" => Err (UnterminatedString (MkSpan start 1))
        | String esc s'' =>
            match unescape esc with
            | Some c => res_bind (lex_string_body start s'') (fun '(v, r) => Ok (String c v, r))
            | None => Err (InvalidEscape esc (MkSpan (pos s) 2))
            end
        end
      else if Ascii.eqb b NL then Err (UnterminatedString (MkSpan start 1))
      else res_bind (lex_string_body start s') (fun '(v, r) => Ok (String b v, r))
  end.

Definition lex_string (start : Z) (s : string) : result (Token * string) LexError :=
  res_bind (lex_string_body start s)
    (fun '(value, rest) => Ok (token_to (QuotedString value) start rest)).

Definition lex_placeholder (start : Z) (s : string) : result (Token * string) LexError :=
  match split_placeholder 0 s with
  | Some (content, rest) => Ok (token_to (Placeholder content) start rest)
  | None => Err (UnterminatedPlaceholder (MkSpan start 1))
  end.

Definition lex_ident (start : Z) (s : string) : result (Token * string) LexError :=
  match split_ident s with
  | ("", _) =>
      let ch := match s with String b _ => (str_split_at (utf8_len b) s).1 | "" => "" end in
      Err (UnexpectedChar ch (MkSpan start (str_len ch)))
  | (word, rest) => Ok (token_to (Ident word) start rest)
  end.

(** [next_token] *)
Definition next_token (s : string) : result (Token * string) LexError :=
  let s := skip_spaces s in
  let start := pos s in
  match s with
  | "" => Ok (MkToken Eof (MkSpan start 0), s)
  | String b s' =>
      if Ascii.eqb b NL then Ok (MkToken Newline (MkSpan start 1), skip_blank s')
      else if Ascii.eqb b "#" then lex_comment start s'
      else if Ascii.eqb b DQ then lex_string start s'
      else if Ascii.eqb b "{" then
        if is_placeholder_start s' then lex_placeholder start s'
        else Ok (token_to LBrace start s')
      else if Ascii.eqb b "}" then Ok (token_to RBrace start s')
      else if Ascii.eqb b ";" then Ok (token_to Semicolon start s')
      else if Ascii.eqb b "." && starts_with "." s' then
        Ok (token_to DotDot start (str_split_at 2 s).2)
      else lex_ident start s
  end.

(** The loop of [tokenize]; [None] when the steps run out. *)
Fixpoint tokenize_loop (steps : nat) (s : string) : option (result (list Token) LexError) :=
  match steps with
  | O => None
  | S steps =>
      match next_token s with
      | Err e => Some (Err e)
      | Ok (tok, rest) =>
          if decide (tok_kind tok = Eof) then Some (Ok [tok])
          else r ← tokenize_loop steps rest; Some (res_bind r (fun toks => Ok (tok :: toks)))
      end
  end.
End Lexing.

(** [Lexer::tokenize]: a token takes at least one byte, so one step more than
    there are bytes is enough ([tokenize_total]); a lexer that did not advance
    would answer [LexOutOfSteps]. *)
Definition tokenize (source : string) : result (list Token) LexError :=
  default (Err LexOutOfSteps) (tokenize_loop (str_len source) (S (String.length source)) source).

Example tokenize_window :
  (map tok_kind) <$> res_ok (tokenize "window 02:00..06:00 {env.X} { # c")
  = Some [Ident "window"; Ident "02:00"; DotDot; Ident "06:00"; Placeholder "env.X"; LBrace;
          Comment "c"; Eof].
Proof. vm_compute. reflexivity. Qed.

(** ** Every token takes a byte *)

Local Abbreviation length := String.length.

Lemma skip_spaces_le s : (length (skip_spaces s) <= length s)%nat.
Proof. induction s as [|b s IH]; cbn [skip_spaces]; [done|]. destruct (is_space b); cbn; lia. Qed.

Lemma skip_blank_le s : (length (skip_blank s) <= length s)%nat.
Proof. induction s as [|b s IH]; cbn [skip_blank]; [done|]. destruct (_ || _); cbn; lia. Qed.

Lemma split_line_le s : (length (split_line s).2 <= length s)%nat.
Proof.
  induction s as [|b s IH]; cbn [split_line]; [done|]. destruct (Ascii.eqb b NL); [done|].
  destruct (split_line s). cbn in *. lia.
Qed.

Lemma split_ident_le s : (length (split_ident s).1 + length (split_ident s).2 <= length s)%nat.
Proof.
  induction s as [|b s IH]; cbn [split_ident]; [done|]. destruct (_ && _); [|cbn; lia].
  destruct (split_ident s). cbn in *. lia.
Qed.

Lemma split_placeholder_le s depth c r :
  split_placeholder depth s = Some (c, r) -> (length r < length s)%nat.
Proof.
  revert depth c r. induction s as [|b s IH]; intros depth c r; cbn [split_placeholder]; [done|].
  destruct (Ascii.eqb b "{").
  { destruct (split_placeholder (S depth) s) as [[c' r']|] eqn:E; [|done].
    intros [= <- <-]. apply IH in E. cbn. lia. }
  destruct (Ascii.eqb b "}").
  { destruct depth; [intros [= <- <-]; cbn; lia|].
    destruct (split_placeholder depth s) as [[c' r']|] eqn:E; [|done].
    intros [= <- <-]. apply IH in E. cbn. lia. }
  destruct (Ascii.eqb b NL); [done|].
  destruct (split_placeholder depth s) as [[c' r']|] eqn:E; [|done].
  intros [= <- <-]. apply IH in E. cbn. lia.
Qed.

Lemma lex_string_body_le size start n : forall s, (length s <= n)%nat -> forall v r,
  lex_string_body size start s = Ok (v, r) -> (length r < length s)%nat.
Proof.
  induction n as [|n IH]; intros [|b s] Hn v r; cbn in Hn; try lia; cbn [lex_string_body]; try done.
  destruct (Ascii.eqb b DQ); [intros [= <- <-]; cbn; lia|].
  destruct (Ascii.eqb b BACKSLASH).
  { destruct s as [|esc s]; [done|]. destruct (unescape esc); [|done]. cbn in Hn.
    destruct (lex_string_body size start s) as [[v' r']|] eqn:E; [|done].
    intros [= <- <-]. apply IH in E; cbn; lia. }
  destruct (Ascii.eqb b NL); [done|].
  destruct (lex_string_body size start s) as [[v' r']|] eqn:E; [|done].
  intros [= <- <-]. apply IH in E; cbn; lia.
Qed.

Lemma next_token_progress size s tok rest :
  next_token size s = Ok (tok, rest) -> tok_kind tok <> Eof -> (length rest < length s)%nat.
Proof.
  unfold next_token. pose proof (skip_spaces_le s) as Hs. destruct (skip_spaces s) as [|b s'].
  { intros [= <- <-]. done. }
  cbn in Hs. intros H _. revert H. pose proof (skip_blank_le s') as Hb.
  destruct (Ascii.eqb b NL); [intros [= <- <-]; cbn in *; lia|].
  destruct (Ascii.eqb b "#").
  { unfold lex_comment. set (u := match s' with "" => s' | String _ _ => _ end).
    assert (length u <= length s')%nat as Hu.
    { unfold u. destruct s' as [|a s'']; [done|]. destruct (Ascii.eqb a " "); cbn; lia. }
    pose proof (split_line_le u). destruct (split_line u). intros [= <- <-]. cbn in *. lia. }
  destruct (Ascii.eqb b DQ).
  { unfold lex_string. destruct (lex_string_body _ _ s') as [[v r]|] eqn:E; [|done].
    intros [= <- <-]. apply (lex_string_body_le _ _ (length s')) in E; cbn in *; lia. }
  destruct (Ascii.eqb b "{").
  { case_if; [|intros [= <- <-]; cbn in *; lia]. unfold lex_placeholder.
    destruct (split_placeholder 0 s') as [[c r]|] eqn:E; [|done].
    intros [= <- <-]. apply split_placeholder_le in E. lia. }
  destruct (Ascii.eqb b "}"); [intros [= <- <-]; cbn in *; lia|].
  destruct (Ascii.eqb b ";"); [intros [= <- <-]; cbn in *; lia|].
  case_if.
  { intros [= <- <-]. destruct s'; cbn in *; lia. }
  unfold lex_ident. pose proof (split_ident_le (String b s')) as Hi.
  destruct (split_ident (String b s')) as [[|a w] r]; [done|].
  intros [= <- <-]. cbn in *. lia.
Qed.

Lemma tokenize_loop_total size steps s :
  (length s < steps)%nat -> is_Some (tokenize_loop size steps s).
Proof.
  revert s. induction steps as [|steps IH]; intros s Hs; [lia|]. cbn [tokenize_loop].
  destruct (next_token size s) as [[tok rest]|] eqn:E; [|done].
  case_decide as Hk; [done|]. apply next_token_progress in E; [|done].
  destruct (IH rest) as [r ->]; [lia|]. done.
Qed.

(** The lexer always ends: with the tokens, the last of them [Eof], or with an
    error. *)
Lemma tokenize_total source :
  tokenize_loop (str_len source) (S (length source)) source = Some (tokenize source).
Proof.
  unfold tokenize. destruct (tokenize_loop_total (str_len source) (S (length source)) source) as [r ->];
    [lia|done].
Qed.

Lemma lex_string_body_error size start n : forall s, (length s <= n)%nat ->
  lex_string_body size start s <> Err LexOutOfSteps.
Proof.
  induction n as [|n IH]; intros [|b s] Hn; cbn in Hn; try lia; cbn [lex_string_body]; try done.
  destruct (Ascii.eqb b DQ); [done|]. destruct (Ascii.eqb b BACKSLASH).
  { destruct s as [|esc s]; [done|]. destruct (unescape esc); [|done]. cbn in Hn.
    specialize (IH s ltac:(lia)). destruct (lex_string_body size start s) as [[]|]; [done|by intros [= ->]]. }
  destruct (Ascii.eqb b NL); [done|].
  specialize (IH s ltac:(lia)). destruct (lex_string_body size start s) as [[]|]; [done|by intros [= ->]].
Qed.

Lemma next_token_error size s : next_token size s <> Err LexOutOfSteps.
Proof.
  unfold next_token, lex_comment, lex_string, lex_placeholder, lex_ident.
  destruct (skip_spaces s) as [|b s']; [done|]. destruct (Ascii.eqb b NL); [done|].
  destruct (Ascii.eqb b "#"); [by destruct (split_line _)|].
  destruct (Ascii.eqb b DQ).
  { pose proof (lex_string_body_error size (pos size (String b s')) (length s') s' ltac:(lia)).
    destruct (lex_string_body _ _ s') as [[]|]; [done|by intros [= ->]]. }
  repeat case_match; done.
Qed.

Lemma tokenize_loop_error size steps s : tokenize_loop size steps s <> Some (Err LexOutOfSteps).
Proof.
  revert s. induction steps as [|steps IH]; intros s; [done|]. cbn [tokenize_loop].
  pose proof (next_token_error size s). destruct (next_token size s) as [[tok rest]|]; [|by intros [= ->]].
  case_decide; [done|]. specialize (IH rest).
  destruct (tokenize_loop size steps rest) as [[]|]; [done|by intros [= ->]|done].
Qed.

(** The loop of the lexer reaches the end of the text or an error. *)
Lemma tokenize_ends source : tokenize source <> Err LexOutOfSteps.
Proof.
  intros E. pose proof (tokenize_total source) as H. rewrite E in H. by apply tokenize_loop_error in H.
Qed.

Lemma tokenize_loop_last size steps s toks :
  tokenize_loop size steps s = Some (Ok toks) ->
  exists init e, toks = init ++ [e] /\ tok_kind e = Eof /\ Forall (fun t => tok_kind t <> Eof) init.
Proof.
  revert s toks. induction steps as [|steps IH]; intros s toks; [done|]. cbn [tokenize_loop].
  destruct (next_token size s) as [[tok rest]|]; [|done]. case_decide as Hk.
  { intros [= <-]. exists [], tok. by split_and!. }
  destruct (tokenize_loop size steps rest) as [[l|e]|] eqn:E; [|done..].
  intros [= <-]. destruct (IH _ _ E) as (init & e & -> & He & Hf).
  exists (tok :: init), e. split_and!; [done..|]. by constructor.
Qed.
