(* ===== verification/Parser.v ===== *)
(** * The Croniqfile parser

    Models [croniq-config/src/parser.rs]: recursive descent over the tokens.
    The state of a [Parser] is the tokens from [pos] on, never empty since the
    lexer ends them with [Eof]; [depth] is the argument [room] of the functions
    that read it, the levels still allowed. Spans of nodes and errors are left
    out. A loop takes a token in every round, so the tokens that are left bound
    it; [OutOfSteps] stands for reaching that bound and is shown never to
    occur ([ConfigFacts]). *)

From S2P Require Import Prelude RustStr Ast Lexer.

Local Open Scope Z_scope.

Inductive ParseError :=
| General (message : string)
| Unexpected (expected got : string)
| InvalidJobKey (key : string)
| InvalidTimeText (value : string)
| InvalidOrdinal (value : string)
| Lex (e : LexError)
| OutOfSteps.

(** [From<LexError> for ParseError]; a lexer out of steps is a parser out of
    steps. *)
Definition of_lex_error (e : LexError) : ParseError :=
  match e with LexOutOfSteps => OutOfSteps | _ => Lex e end.

Definition MAX_BLOCK_DEPTH : nat := 64.

(** ** The parser monad *)

Definition P (A : Type) : Type := list TokenKind -> result (A * list TokenKind) ParseError.

Definition p_ret {A} (a : A) : P A := fun ts => Ok (a, ts).
Definition p_fail {A} (e : ParseError) : P A := fun _ => Err e.
Definition p_bind {A B} (m : P A) (k : A -> P B) : P B := fun ts =>
  match m ts with
  | Ok (a, ts) => k a ts
  | Err e => Err e
  end.

Notation "'let!' x ':=' m 'in' k" := (p_bind m (fun x => k))
  (at level 10, x name, m at level 100, k at level 200).
Notation "m '>>>' k" := (p_bind m (fun _ => k)) (at level 199, right associativity).

(** [peek], [advance], [skip_newlines] and the skipping of terminators *)
Definition hd_tok (ts : list TokenKind) : TokenKind := default Eof (head ts).
Definition peek : P TokenKind := fun ts => Ok (hd_tok ts, ts).
Definition advance : P () := fun ts =>
  Ok (tt, match ts with _ :: ((_ :: _) as rest) => rest | _ => ts end).

Fixpoint drop_newlines (ts : list TokenKind) : list TokenKind :=
  match ts with Newline :: ts => drop_newlines ts | _ => ts end.
Fixpoint drop_terminators (ts : list TokenKind) : list TokenKind :=
  match ts with (Newline | Semicolon) :: ts => drop_terminators ts | _ => ts end.
Definition skip_newlines : P () := fun ts => Ok (tt, drop_newlines ts).
Definition skip_terminators : P () := fun ts => Ok (tt, drop_terminators ts).

(** A loop of at most as many rounds as there are tokens. *)
Definition p_loop {A} (f : nat -> P A) : P A := fun ts => f (S (length ts)) ts.

Definition expect_ident (name : string) : P () :=
  let! tok := peek in
  if is_ident tok name then advance
  else p_fail (Unexpected ("'" +:+ name +:+ "'") (show_kind tok)).

Definition expect_lbrace : P () :=
  skip_newlines >>>
  let! tok := peek in
  if decide (tok = LBrace) then advance else p_fail (Unexpected "'{'" (show_kind tok)).

Definition expect_rbrace : P () :=
  skip_newlines >>>
  let! tok := peek in
  if decide (tok = RBrace) then advance else p_fail (Unexpected "'}'" (show_kind tok)).

(** The value a token is read as, if it is one. *)
Definition value_of (tok : TokenKind) : option StringValue :=
  match tok with
  | Ident s => Some (MkValue s false false)
  | QuotedString s => Some (MkValue s true false)
  | Placeholder s => Some (MkValue s false true)
  | _ => None
  end.

Definition read_string_value : P StringValue :=
  let! tok := peek in
  match value_of tok with
  | Some v => advance >>> p_ret v
  | None => p_fail (Unexpected "identifier, string, or placeholder" (show_kind tok))
  end.

Definition is_value (tok : TokenKind) : bool :=
  match value_of tok with Some _ => true | None => false end.

Definition is_comment (tok : TokenKind) : bool :=
  match tok with Comment _ => true | _ => false end.

(** [self.peek().kind == RBrace || self.at_end()] *)
Definition at_close (tok : TokenKind) : bool :=
  match tok with RBrace | Eof => true | _ => false end.

(** The loop of a block body: newlines are skipped, [}] or the end stops it, a
    round adds at most one element. *)
Fixpoint body_loop {A} (one : P (option A)) (steps : nat) : P (list A) :=
  match steps with
  | O => p_fail OutOfSteps
  | S steps =>
      skip_newlines >>>
      let! tok := peek in
      if at_close tok then p_ret []
      else
        let! x := one in
        let! xs := body_loop one steps in
        p_ret (match x with Some a => a :: xs | None => xs end)
  end.

(** ** Generic directives and blocks *)

(** The argument loop of [parse_directive]. *)
Fixpoint directive_args (steps : nat) : P (list StringValue) :=
  match steps with
  | O => p_fail OutOfSteps
  | S steps =>
      let! tok := peek in
      if is_value tok then
        let! arg := read_string_value in
        let! next := peek in
        let! arg :=
          if decide (next = DotDot) then
            advance >>>
            let! after := read_string_value in
            p_ret (MkValue (sv_value arg +:+ ".." +:+ sv_value after)
                     (sv_quoted arg) (sv_is_placeholder arg))
          else p_ret arg in
        let! args := directive_args steps in
        p_ret (arg :: args)
      else p_ret []
  end.

Definition parse_directive : P Directive :=
  let! key := read_string_value in
  let! args := p_loop directive_args in
  skip_terminators >>>
  p_ret (MkDirective key args).

(** A round of [parse_directives_until_rbrace]. *)
Definition directive_round : P (option Directive) :=
  let! tok := peek in
  if is_comment tok || bool_decide (tok = Semicolon) then advance >>> p_ret None
  else let! d := parse_directive in p_ret (Some d).

Definition parse_directives_until_rbrace : P (list Directive) :=
  p_loop (body_loop directive_round).

(** [parse_directive_or_block], with the parser of a nested body. *)
Definition parse_directive_or_block (nested : P (list DirectiveOrBlock)) : P DirectiveOrBlock :=
  skip_terminators >>>
  let! tok := peek in
  match tok with
  | Comment text => advance >>> p_ret (DComment text)
  | _ => fun saved =>
      (let! name := read_string_value in
       let block q :=
         expect_lbrace >>>
         let! directives := nested in
         expect_rbrace >>>
         p_ret (DBlock (MkBlock name q directives)) in
       let directive : P DirectiveOrBlock := fun _ =>
         (let! d := parse_directive in p_ret (DDirective d)) saved in
       let! tok := peek in
       if decide (tok = LBrace) then block None
       else if is_value tok then
         let! maybe_qualifier := read_string_value in
         let! tok := peek in
         if decide (tok = LBrace) then block (Some maybe_qualifier) else directive
       else directive) saved
  end.

(** [parse_directives_or_blocks_until_rbrace]; [room] is [MAX_BLOCK_DEPTH]
    less [depth]. *)
Fixpoint parse_directives_or_blocks (room : nat) : P (list DirectiveOrBlock) :=
  match room with
  | O => p_fail (General ("blocks nest deeper than " +:+ show_uint (Z.of_nat MAX_BLOCK_DEPTH)
                          +:+ " levels"))
  | S room =>
      let one := let! d := parse_directive_or_block (parse_directives_or_blocks room) in
                 p_ret (Some d) in
      p_loop (body_loop one)
  end.

Definition parse_directives_or_blocks_until_rbrace : P (list DirectiveOrBlock) :=
  parse_directives_or_blocks MAX_BLOCK_DEPTH.

Definition parse_named_block : P NamedBlock :=
  let! name := read_string_value in
  expect_lbrace >>>
  let! directives := parse_directives_or_blocks_until_rbrace in
  expect_rbrace >>>
  p_ret (MkBlock name None directives).

(** ** Simple top-level blocks *)

(** [keyword { body }] *)
Definition braced {A} (keyword : string) (body : P A) : P A :=
  expect_ident keyword >>>
  expect_lbrace >>>
  let! x := body in
  expect_rbrace >>>
  p_ret x.

Definition parse_import : P StringValue := expect_ident "import" >>> read_string_value.
Definition parse_server : P (list Directive) := braced "server" parse_directives_until_rbrace.
Definition parse_smtp : P (list Directive) := braced "smtp" parse_directives_until_rbrace.
Definition parse_pull_api : P (list Directive) := braced "pull_api" parse_directives_until_rbrace.
Definition parse_mcp : P (list Directive) := braced "mcp" parse_directives_until_rbrace.
Definition parse_policy : P (list Directive) := braced "policy" parse_directives_until_rbrace.
Definition parse_oidc : P (list Directive) := braced "oidc" parse_directives_until_rbrace.
Definition parse_vars : P (list Directive) := braced "vars" parse_directives_until_rbrace.
Definition parse_defaults : P (list DirectiveOrBlock) :=
  braced "defaults" parse_directives_or_blocks_until_rbrace.

(** A round of the loops of [parse_auth] and [parse_observability]. *)
Definition named_block_round : P (option NamedBlock) :=
  let! tok := peek in
  if is_comment tok then advance >>> p_ret None
  else let! b := parse_named_block in p_ret (Some b).

Definition parse_auth : P (list NamedBlock) := braced "auth" (p_loop (body_loop named_block_round)).
Definition parse_observability : P (list NamedBlock) :=
  braced "observability" (p_loop (body_loop named_block_round)).

(** A round of the loop of [parse_alerts]: a block with its name. *)
Definition alerts_round : P (option NamedBlock) :=
  let! tok := peek in
  if is_comment tok then advance >>> p_ret None
  else
    let! name := read_string_value in
    let! tok := peek in
    if decide (tok = LBrace) then
      p_fail (General ("expected a string identifier after `" +:+ sv_value name +:+ "` (e.g. `"
                       +:+ sv_value name +:+ " " +:+ String DQ ("name" +:+ String DQ " { … }`)")))
    else
      let! qualifier := read_string_value in
      expect_lbrace >>>
      let! directives := parse_directives_or_blocks_until_rbrace in
      expect_rbrace >>>
      p_ret (Some (MkBlock name (Some qualifier) directives)).

Definition parse_alerts : P (list NamedBlock) := braced "alerts" (p_loop (body_loop alerts_round)).

Definition parse_concurrency_group : P (StringValue * list Directive) :=
  expect_ident "concurrency_group" >>>
  let! name := read_string_value in
  expect_lbrace >>>
  let! directives := parse_directives_until_rbrace in
  expect_rbrace >>>
  p_ret (name, directives).

(** ** Calendars *)

(** [weekday_range]: from [start] forward to [end], at most seven days. *)
Fixpoint weekday_walk (room : nat) (i end_ : nat) : list AstWeekday.t :=
  match room with
  | O => []
  | S room =>
      match AstWeekday.ALL !! i with
      | None => []
      | Some d => d :: if Nat.eqb i end_ then [] else weekday_walk room ((i + 1) mod 7) end_
      end
  end.
Definition weekday_range (start end_ : AstWeekday.t) : list AstWeekday.t :=
  weekday_walk 7 (AstWeekday.index start) (AstWeekday.index end_).

Definition plain_value (s : string) : StringValue := MkValue s false false.
Definition day_values (days : list AstWeekday.t) : list StringValue :=
  map (fun d => plain_value (AstWeekday.as_str d)) days.

(** The days of the month [a..=b]. *)
Definition day_numbers (a b : Z) : list StringValue :=
  map (fun i => plain_value (show_uint (a + Z.of_nat i))) (seq 0 (Z.to_nat (b - a + 1))).

(** What [first..second] adds to the arguments of a rule. *)
Definition range_args (rule_type_lower : string) (first second : StringValue) : list StringValue :=
  if String.eqb rule_type_lower "weekly" then
    match AstWeekday.parse (sv_value first), AstWeekday.parse (sv_value second) with
    | Some s, Some e => day_values (weekday_range s e)
    | _, _ => [first; second]
    end
  else if String.eqb rule_type_lower "monthly" then
    match parse_u32 (sv_value first), parse_u32 (sv_value second) with
    | Some a, Some b =>
        if (a <=? 31) && (b <=? 31) && (a <=? b) then day_numbers a b else [first; second]
    | _, _ => [first; second]
    end
  else [first; second].

(** What a single argument adds: the alias of a [weekly] group its days. *)
Definition single_args (rule_type_lower : string) (first : StringValue) : list StringValue :=
  match AstWeekday.parse_group (sv_value first) with
  | Some group =>
      if String.eqb rule_type_lower "weekly" && negb (sv_is_placeholder first)
      then day_values group else [first]
  | None => [first]
  end.

Definition starts_rule (tok : TokenKind) : bool :=
  is_ident tok "include" || is_ident tok "exclude" || is_ident tok "timezone".

Definition is_terminator (tok : TokenKind) : bool :=
  match tok with Semicolon | Newline => true | _ => false end.

Fixpoint calendar_rule_args (rule_type_lower : string) (steps : nat) : P (list StringValue) :=
  match steps with
  | O => p_fail OutOfSteps
  | S steps =>
      let! tok := peek in
      if is_value tok && negb (starts_rule tok) then
        let! first := read_string_value in
        let! next := peek in
        let! added :=
          if decide (next = DotDot) then
            advance >>>
            let! second := read_string_value in
            p_ret (range_args rule_type_lower first second)
          else p_ret (single_args rule_type_lower first) in
        let! tok := peek in
        if is_terminator tok then advance >>> p_ret added
        else let! more := calendar_rule_args rule_type_lower steps in p_ret (added ++ more)
      else p_ret []
  end.

Definition parse_calendar_rule : P AstCalendarRule :=
  let! tok := peek in
  let rule kind :=
    read_string_value >>>
    let! rtype := read_string_value in
    let! args := p_loop (calendar_rule_args (to_ascii_lowercase (sv_value rtype))) in
    p_ret (MkAstRule kind rtype args) in
  if String.eqb (text tok) "include" then rule Include
  else if String.eqb (text tok) "exclude" then rule Exclude
  else if String.eqb (text tok) "timezone" then
    let! key := read_string_value in
    let! tz := read_string_value in
    p_ret (MkAstRule Include key [tz])
  else p_fail (General ("expected 'include', 'exclude', or 'timezone', got '" +:+ text tok +:+ "'")).

(** A round of the loop of [parse_calendar]. *)
Definition calendar_round : P (option AstCalendarRule) :=
  let! tok := peek in
  if is_comment tok || bool_decide (tok = Semicolon) then advance >>> p_ret None
  else let! r := parse_calendar_rule in p_ret (Some r).

Definition parse_calendar : P (StringValue * list AstCalendarRule) :=
  expect_ident "calendar" >>>
  let! name := read_string_value in
  expect_lbrace >>>
  let! rules := p_loop (body_loop calendar_round) in
  expect_rbrace >>>
  p_ret (name, rules).

(** ** Schedules *)

Definition parse_optional_schedule_block : P (list Directive) :=
  let! tok := peek in
  if decide (tok = LBrace) then
    expect_lbrace >>>
    let! options := parse_directives_until_rbrace in
    expect_rbrace >>>
    p_ret options
  else p_ret [].

Definition parse_time : P TimeValue :=
  let! tok := peek in
  let raw := text tok in
  let invalid := InvalidTimeText raw in
  match split_char ":" raw with
  | [h; m] =>
      match parse_u8 h with
      | None => p_fail invalid
      | Some hour =>
          match parse_u8 m with
          | None => p_fail invalid
          | Some minute =>
              if (23 <? hour) || (59 <? minute) then p_fail invalid
              else advance >>> p_ret (MkTimeValue hour minute raw)
          end
      end
  | _ => p_fail invalid
  end.

Definition is_day_name (s : string) : bool :=
  match AstWeekday.parse_token s with Some _ => true | None => false end.

Definition ends_with (p s : string) : bool :=
  match strip_suffix p s with Some _ => true | None => false end.

Definition is_ordinal (s : string) : bool :=
  String.eqb s "last"
  || ends_with "st" s || ends_with "nd" s || ends_with "rd" s || ends_with "th" s.

Definition or_else {A} (o o' : option A) : option A := match o with Some a => Some a | None => o' end.

Definition parse_ordinal : P MonthOrdinal :=
  let! tok := peek in
  let t := text tok in
  if String.eqb t "last" then advance >>> p_ret OrdLast
  else
    match or_else (strip_suffix "st" t) (or_else (strip_suffix "nd" t)
            (or_else (strip_suffix "rd" t) (strip_suffix "th" t))) with
    | None => p_fail (InvalidOrdinal t)
    | Some num_str =>
        match parse_u8 num_str with
        | None => p_fail (InvalidOrdinal t)
        | Some num =>
            if (num =? 0) || (31 <? num) then p_fail (InvalidOrdinal t)
            else advance >>> p_ret (OrdDay num)
        end
    end.

Definition parse_compact_interval (t : string) : option (Z * IntervalUnit) :=
  '(num_part, unit) ←
    match strip_suffix "s" t with
    | Some rest => Some (rest, Seconds)
    | None =>
        match strip_suffix "m" t with
        | Some rest => Some (rest, Minutes)
        | None => rest ← strip_suffix "h" t; Some (rest, Hours)
        end
    end;
  if str_is_empty num_part then None
  else count ← parse_u32 num_part; Some (count, unit).

Definition parse_unit (t : string) : option IntervalUnit :=
  if String.eqb t "seconds" || String.eqb t "second" then Some Seconds
  else if String.eqb t "minutes" || String.eqb t "minute" then Some Minutes
  else if String.eqb t "hours" || String.eqb t "hour" then Some Hours
  else None.

Definition node (kind : ScheduleKind) (options : list Directive) : ScheduleNode :=
  MkScheduleNode kind None options.

Definition parse_schedule_interval : P ScheduleNode :=
  let! count_tok := peek in
  let t := text count_tok in
  let! counted :=
    match parse_compact_interval t with
    | Some cu => advance >>> p_ret cu
    | None =>
        match parse_u32 t with
        | None =>
            p_fail (General ("expected number or compact duration (e.g. '15', '15m', '30s', '2h'), got '"
                             +:+ t +:+ "'"))
        | Some count =>
            advance >>>
            let! unit_tok := peek in
            match parse_unit (text unit_tok) with
            | None => p_fail (General ("expected 'seconds', 'minutes', or 'hours', got '"
                                       +:+ text unit_tok +:+ "'"))
            | Some unit => advance >>> p_ret (count, unit)
            end
        end
    end in
  let! options := parse_optional_schedule_block in
  p_ret (node (KInterval counted.1 counted.2) options).

Definition parse_schedule_daily : P ScheduleNode :=
  expect_ident "day" >>>
  expect_ident "at" >>>
  let! time := parse_time in
  let! options := parse_optional_schedule_block in
  p_ret (node (KDaily time) options).

(** The loop of [parse_schedule_weekdays]. *)
Fixpoint weekday_list (steps : nat) : P (list AstWeekday.t) :=
  match steps with
  | O => p_fail OutOfSteps
  | S steps =>
      let! tok := peek in
      if is_day_name (text tok) then
        let! days :=
          match AstWeekday.parse_group (text tok) with
          | Some group => advance >>> p_ret group
          | None =>
              match AstWeekday.parse (text tok) with
              | None => p_ret [] (* guarded by [is_day_name] *)
              | Some start_day =>
                  advance >>>
                  let! next := peek in
                  if decide (next = DotDot) then
                    advance >>>
                    let! end_tok := peek in
                    match AstWeekday.parse (text end_tok) with
                    | None => p_fail (General ("expected weekday name after '..', got '"
                                               +:+ text end_tok +:+ "'"))
                    | Some end_day => advance >>> p_ret (weekday_range start_day end_day)
                    end
                  else p_ret [start_day]
              end
          end in
        let! more := weekday_list steps in
        p_ret (days ++ more)
      else p_ret []
  end.

Definition parse_schedule_weekdays : P ScheduleNode :=
  let! days := p_loop weekday_list in
  expect_ident "at" >>>
  let! time := parse_time in
  let! options := parse_optional_schedule_block in
  p_ret (node (KWeekdays days time) options).

Fixpoint ordinal_list (steps : nat) : P (list MonthOrdinal) :=
  match steps with
  | O => p_fail OutOfSteps
  | S steps =>
      let! tok := peek in
      if is_ordinal (text tok) then
        let! o := parse_ordinal in
        let! more := ordinal_list steps in
        p_ret (o :: more)
      else p_ret []
  end.

Definition parse_schedule_monthly : P ScheduleNode :=
  let! ordinals := p_loop ordinal_list in
  expect_ident "of" >>>
  expect_ident "month" >>>
  expect_ident "at" >>>
  let! time := parse_time in
  let! options := parse_optional_schedule_block in
  p_ret (node (KMonthly ordinals time) options).

Definition parse_schedule_once : P ScheduleNode :=
  expect_ident "once" >>>
  expect_ident "at" >>>
  let! datetime := read_string_value in
  p_ret (node (KOnce datetime) []).

Definition parse_schedule_every : P ScheduleNode :=
  expect_ident "every" >>>
  let! next := peek in
  if is_day_name (text next) then parse_schedule_weekdays
  else if is_ident next "day" then parse_schedule_daily
  else if is_ordinal (text next) then parse_schedule_monthly
  else parse_schedule_interval.

Definition is_schedule_start (tok : TokenKind) : bool :=
  is_ident tok "every" || is_ident tok "once" || is_ident tok "disabled"
  || is_ident tok "ephemeral" || is_ident tok "queued".

Definition parse_schedule : P ScheduleNode :=
  let! tok := peek in
  let! mode :=
    if String.eqb (text tok) "ephemeral" then advance >>> p_ret (Some MEphemeral)
    else if String.eqb (text tok) "queued" then advance >>> p_ret (Some MQueued)
    else p_ret None in
  let! tok := peek in
  let! n :=
    if String.eqb (text tok) "disabled" then advance >>> p_ret (node KDisabled [])
    else if String.eqb (text tok) "once" then parse_schedule_once
    else if String.eqb (text tok) "every" then parse_schedule_every
    else p_fail (General "expected 'every', 'once', or 'disabled'") in
  p_ret (MkScheduleNode (sched_kind n) mode (sched_options n)).

(** ** Jobs *)

(** [parse_job_key] *)
Definition job_key_of (raw : string) : option JobKey :=
  match split_char ":" raw with
  | [namespace; name] => Some (MkJobKey raw namespace name None)
  | [namespace; name; variant] => Some (MkJobKey raw namespace name (Some variant))
  | _ => None
  end.

Definition parse_job_key : P JobKey :=
  let! tok := peek in
  match tok with
  | Ident raw | QuotedString raw =>
      advance >>>
      match job_key_of raw with
      | Some key => p_ret key
      | None => p_fail (InvalidJobKey raw)
      end
  | _ => p_fail (Unexpected "job key" (show_kind tok))
  end.

(** The loop of [parse_job]: the schedule found so far, the other elements. *)
Fixpoint job_loop (steps : nat) (schedule : option ScheduleNode)
  : P (option ScheduleNode * list DirectiveOrBlock) :=
  match steps with
  | O => p_fail OutOfSteps
  | S steps =>
      skip_newlines >>>
      let! tok := peek in
      if at_close tok then p_ret (schedule, [])
      else
        let add d :=
          let! more := job_loop steps schedule in p_ret (more.1, d :: more.2) in
        match tok with
        | Comment t => advance >>> add (DComment t)
        | Semicolon => advance >>> job_loop steps schedule
        | _ =>
            match schedule with
            | None =>
                if is_schedule_start tok then
                  let! s := parse_schedule in job_loop steps (Some s)
                else
                  let! d := parse_directive_or_block parse_directives_or_blocks_until_rbrace in add d
            | Some _ =>
                let! d := parse_directive_or_block parse_directives_or_blocks_until_rbrace in add d
            end
        end
  end.

Definition parse_job : P JobBlock :=
  expect_ident "job" >>>
  let! key := parse_job_key in
  expect_lbrace >>>
  let! body := p_loop (fun steps => job_loop steps None) in
  expect_rbrace >>>
  p_ret (MkJob key body.1 body.2).

(** ** The file *)

Definition p_map {A B} (f : A -> B) (m : P A) : P B := let! a := m in p_ret (f a).

(** The item a keyword opens. *)
Definition item_parser (keyword : string) : option (P Item) :=
  let is_ k := String.eqb keyword k in
  if is_ "import" then Some (p_map IImport parse_import)
  else if is_ "server" then Some (p_map IServer parse_server)
  else if is_ "smtp" then Some (p_map ISmtp parse_smtp)
  else if is_ "pull_api" then Some (p_map IPullApi parse_pull_api)
  else if is_ "observability" then Some (p_map IObservability parse_observability)
  else if is_ "mcp" then Some (p_map IMcp parse_mcp)
  else if is_ "oidc" then Some (p_map IOidc parse_oidc)
  else if is_ "auth" then Some (p_map IAuth parse_auth)
  else if is_ "policy" then Some (p_map IPolicy parse_policy)
  else if is_ "alerts" then Some (p_map IAlerts parse_alerts)
  else if is_ "vars" then Some (p_map IVars parse_vars)
  else if is_ "defaults" then Some (p_map IDefaults parse_defaults)
  else if is_ "calendar" then Some (p_map (fun '(n, r) => ICalendar n r) parse_calendar)
  else if is_ "concurrency_group" then
    Some (p_map (fun '(n, d) => IConcurrencyGroup n d) parse_concurrency_group)
  else if is_ "job" then Some (p_map IJob parse_job)
  else None.

Definition parse_item : P Item :=
  skip_terminators >>>
  let! tok := peek in
  match tok with
  | Comment t => advance >>> p_ret (IComment t)
  | Ident s =>
      match item_parser s with
      | Some p => p
      | None => p_fail (General ("unknown top-level block: '" +:+ s +:+ "'"))
      end
  | _ =>
      p_fail (Unexpected "import, server, smtp, pull_api, observability, mcp, oidc, auth, policy, alerts, vars, defaults, calendar, concurrency_group, or job"
                (show_kind tok))
  end.

Fixpoint item_loop (steps : nat) : P (list Item) :=
  match steps with
  | O => p_fail OutOfSteps
  | S steps =>
      skip_terminators >>>
      let! tok := peek in
      if decide (tok = Eof) then p_ret []
      else
        let! item := parse_item in
        let! items := item_loop steps in
        p_ret (item :: items)
  end.

Definition parse_croniqfile : P Croniqfile := p_loop item_loop.

Definition run_parser {A} (m : P A) (tokens : list Token) : result A ParseError :=
  match m (map tok_kind tokens) with
  | Ok (a, _) => Ok a
  | Err e => Err e
  end.

(** [Parser::parse] *)
Definition parse (source : string) : result Croniqfile ParseError :=
  res_bind (map_err of_lex_error (tokenize source)) (run_parser parse_croniqfile).

(** The first schedule of the items. *)
Fixpoint find_schedule (items : list Item) : option ScheduleKind :=
  match items with
  | [] => None
  | IJob j :: items =>
      match jb_schedule j with
      | Some s => Some (sched_kind s)
      | None => find_schedule items
      end
  | _ :: items => find_schedule items
  end.

(** [parse_schedule_expr] *)
Definition parse_schedule_expr (expr : string) : result ScheduleKind ParseError :=
  res_bind (parse ("job __sched__:__probe__ {" +:+ String NL (expr +:+ String NL ("}" +:+ String NL ""))))
    (fun ast => ok_or (find_schedule ast) (General "expression did not contain a schedule")).

(** ** Rules of a stored calendar *)

(** The tokens [parse_calendar_rules] refuses. *)
Definition refused_token (tok : TokenKind) : option ParseError :=
  match tok with
  | Placeholder p =>
      Some (General ("placeholder '{" +:+ p
                     +:+ "}' is not allowed in calendar rules stored outside a Croniqfile"))
  | LBrace | RBrace => Some (General "braces are not allowed in calendar rules")
  | _ => None
  end.

Fixpoint first_refused (toks : list TokenKind) : option ParseError :=
  match toks with
  | [] => None
  | t :: toks => or_else (refused_token t) (first_refused toks)
  end.

Fixpoint rule_list (steps : nat) : P (list AstCalendarRule) :=
  match steps with
  | O => p_fail OutOfSteps
  | S steps =>
      skip_newlines >>>
      let! tok := peek in
      if decide (tok = Eof) then p_ret []
      else if is_comment tok || bool_decide (tok = Semicolon) then advance >>> rule_list steps
      else
        let! r := parse_calendar_rule in
        let! rs := rule_list steps in
        p_ret (r :: rs)
  end.

Definition parse_calendar_rules (name rules : string) : result Croniqfile ParseError :=
  res_bind (map_err of_lex_error (tokenize rules)) (fun tokens =>
    match first_refused (map tok_kind tokens) with
    | Some e => Err e
    | None =>
        res_bind (run_parser (p_loop rule_list) tokens)
          (fun parsed => Ok [ICalendar (MkValue name true false) parsed])
    end).
