(* ===== verification/Format.v ===== *)
(** * The Croniqfile formatter

    Models [croniq-config/src/format.rs] and [plural.rs]: each function answers
    the text the source pushes onto [out]. *)

From S2P Require Import Prelude RustStr Ast Lexer Parser.

Local Open Scope Z_scope.

(** The text of one character. *)
Definition chr (c : ascii) : string := String c "".
Definition nl : string := chr NL.

(** [interval_phrase] *)
Definition interval_phrase (count : Z) (singular_unit : string) : string :=
  show_uint count +:+ " " +:+ singular_unit +:+ (if count =? 1 then "" else "s").

Fixpoint write_indent (level : nat) : string :=
  match level with
  | O => ""
  | S level => "  " +:+ write_indent level
  end.

(** [quote_string] *)
Fixpoint escape (s : string) : string :=
  match s with
  | "" => ""
  | String c s =>
      (if Ascii.eqb c BACKSLASH then chr BACKSLASH +:+ chr BACKSLASH
       else if Ascii.eqb c DQ then chr BACKSLASH +:+ chr DQ
       else if Ascii.eqb c NL then chr BACKSLASH +:+ "n"
       else if Ascii.eqb c CR then chr BACKSLASH +:+ "r"
       else if Ascii.eqb c TAB then chr BACKSLASH +:+ "t"
       else chr c) +:+ escape s
  end.
Definition quote_string (value : string) : string := chr DQ +:+ escape value +:+ chr DQ.

Definition format_string_value (val : StringValue) : string :=
  if sv_is_placeholder val then "{" +:+ sv_value val +:+ "}"
  else if sv_quoted val then quote_string (sv_value val)
  else sv_value val.

(** ** Weekdays *)

Definition weekday_short (day : AstWeekday.t) : string :=
  match day with
  | AstWeekday.Monday => "Mon" | AstWeekday.Tuesday => "Tue" | AstWeekday.Wednesday => "Wed"
  | AstWeekday.Thursday => "Thu" | AstWeekday.Friday => "Fri" | AstWeekday.Saturday => "Sat"
  | AstWeekday.Sunday => "Sun"
  end.

(** The positions of the days that occur, in week order. *)
Definition day_indices (days : list AstWeekday.t) : list nat :=
  filter (fun i => Exists (fun d => AstWeekday.index d = i) days) (seq 0 7).

(** The maximal runs of a sorted list of positions, as first and last. *)
Fixpoint runs (run_start run_end : nat) (indices : list nat) : list (nat * nat) :=
  match indices with
  | [] => [(run_start, run_end)]
  | i :: indices =>
      if Nat.eqb i (run_end + 1) then runs run_start i indices
      else (run_start, run_end) :: runs i i indices
  end.

Definition short_at (i : nat) : string := default "" (weekday_short <$> AstWeekday.ALL !! i).

Definition emit_run (start end_ : nat) : string :=
  let len := (end_ - start + 1)%nat in
  if Nat.leb 3 len then short_at start +:+ ".." +:+ short_at end_
  else str_join " " (map short_at (seq start len)).

Definition format_weekday_list (days : list AstWeekday.t) : string :=
  match day_indices days with
  | [] => ""
  | (first :: rest) as indices =>
      if decide (indices = [0; 1; 2; 3; 4]%nat) then "weekday"
      else if decide (indices = [5; 6]%nat) then "weekend"
      else str_join " " (map (fun '(s, e) => emit_run s e) (runs first first rest))
  end.

(** ** Schedules *)

Definition format_ordinal (day : Z) : string :=
  show_uint day +:+
  (if (day =? 1) || (day =? 21) || (day =? 31) then "st"
   else if (day =? 2) || (day =? 22) then "nd"
   else if (day =? 3) || (day =? 23) then "rd"
   else "th").

Definition format_month_ordinal (o : MonthOrdinal) : string :=
  match o with OrdDay d => format_ordinal d | OrdLast => "last" end.

Definition unit_noun (unit : IntervalUnit) : string :=
  match unit with Seconds => "second" | Minutes => "minute" | Hours => "hour" end.

Definition format_schedule_line (kind : ScheduleKind) : string :=
  match kind with
  | KInterval count unit => "every " +:+ interval_phrase count (unit_noun unit)
  | KDaily time => "every day at " +:+ tv_raw time
  | KWeekdays days time => "every " +:+ format_weekday_list days +:+ " at " +:+ tv_raw time
  | KMonthly ordinals time =>
      "every " +:+ str_join " " (map format_month_ordinal ordinals) +:+ " of month at " +:+ tv_raw time
  | KOnce at_ => "once at " +:+ format_string_value at_
  | KDisabled => "disabled"
  end.

(** ** Directives and blocks *)

(** [key arg arg ...], the inside of every directive *)
Definition format_words (d : Directive) : string :=
  format_string_value (dir_key d)
  +:+ String.concat "" (map (fun arg => " " +:+ format_string_value arg) (dir_args d)).

Definition format_directive_line (indent : nat) (d : Directive) : string :=
  write_indent indent +:+ format_words d +:+ nl.

Definition format_directives (directives : list Directive) (indent : nat) : string :=
  String.concat "" (map (format_directive_line indent) directives).

Definition as_directive (x : DirectiveOrBlock) : option Directive :=
  match x with DDirective d => Some d | _ => None end.

(** The block is written on one line: only directives, at most four, at most
    eight words. *)
Definition is_inline (ds : list DirectiveOrBlock) : bool :=
  let words x := match x with DDirective d => 1 + Z.of_nat (length (dir_args d)) | _ => 10 end in
  forallb (fun x => match x with DDirective _ => true | _ => false end) ds
  && (Z.of_nat (length ds) <=? 4) && (foldr (fun x acc => words x + acc) 0 ds <=? 8).

(** [ key val; key val] *)
Fixpoint inline_words (first : bool) (ds : list DirectiveOrBlock) : string :=
  match ds with
  | [] => ""
  | DDirective d :: ds =>
      (if first then "" else ";") +:+ " " +:+ format_words d +:+ inline_words false ds
  | _ :: ds => inline_words false ds
  end.

Definition format_block_head (name : StringValue) (qualifier : option StringValue) : string :=
  format_string_value name
  +:+ match qualifier with Some q => " " +:+ format_string_value q | None => "" end.

Fixpoint format_directive_or_block (item : DirectiveOrBlock) (indent : nat) : string :=
  match item with
  | DDirective d => format_directive_line indent d
  | DComment text => write_indent indent +:+ "# " +:+ text +:+ nl
  | DBlock b => format_named_block b indent
  end
with format_named_block (block : NamedBlock) (indent : nat) : string :=
  match block with
  | MkBlock name qualifier ds =>
      write_indent indent +:+ format_block_head name qualifier +:+
      if is_inline ds then " {" +:+ inline_words true ds +:+ " }" +:+ nl
      else
        " {" +:+ nl
        +:+ (fix go l := match l with
                         | [] => ""
                         | x :: l => format_directive_or_block x (S indent) +:+ go l
                         end) ds
        +:+ write_indent indent +:+ "}" +:+ nl
  end.

Definition format_directives_or_blocks (items : list DirectiveOrBlock) (indent : nat) : string :=
  String.concat "" (map (fun x => format_directive_or_block x indent) items).

Definition mode_prefix (mode : option ScheduleMode) : string :=
  match mode with
  | Some MEphemeral => "ephemeral "
  | Some MQueued => "queued "
  | None => ""
  end.

(** The options of a schedule, or the end of its line. *)
Definition format_options (options : list Directive) (indent : nat) : string :=
  if bool_decide (options = []) then nl
  else " {" +:+ nl +:+ format_directives options (S indent) +:+ write_indent indent +:+ "}" +:+ nl.

Definition format_schedule (sched : ScheduleNode) (indent : nat) : string :=
  write_indent indent +:+ mode_prefix (sched_mode sched) +:+ format_schedule_line (sched_kind sched)
  +:+ format_options (sched_options sched) indent.

(** ** Calendars *)

Definition format_args (args : list StringValue) : string :=
  String.concat "" (map (fun arg => " " +:+ format_string_value arg) args).

(** The days of a [weekly] rule when every argument is one. *)
Definition weekly_days (args : list StringValue) : option (list AstWeekday.t) :=
  days ← mapM (fun a => AstWeekday.parse (sv_value a)) args;
  match days with [] => None | _ => Some days end.

Definition kind_word (k : CalendarRuleKind) : string :=
  match k with Include => "include" | Exclude => "exclude" end.

Definition format_calendar_rule_line (rule : AstCalendarRule) : string :=
  let rule_type_lower := to_ascii_lowercase (sv_value (ar_type rule)) in
  if String.eqb rule_type_lower "timezone" then
    format_string_value (ar_type rule) +:+ format_args (ar_args rule)
  else
    kind_word (ar_kind rule) +:+ " " +:+ format_string_value (ar_type rule) +:+
    match (if String.eqb rule_type_lower "weekly" then weekly_days (ar_args rule) else None) with
    | Some days => " " +:+ format_weekday_list days
    | None =>
        match ar_args rule with
        | [a; b] =>
            if String.eqb rule_type_lower "window"
            then " " +:+ format_string_value a +:+ ".." +:+ format_string_value b
            else format_args [a; b]
        | args => format_args args
        end
    end.

Definition format_calendar_rule (indent : nat) (rule : AstCalendarRule) : string :=
  write_indent indent +:+ format_calendar_rule_line rule +:+ nl.

(** [loose_calendar_rule_line] *)
Definition loose_calendar_rule_line (action rule_type : string) (args : list string) : string :=
  let rule_type_lower := to_ascii_lowercase rule_type in
  if String.eqb rule_type_lower "timezone" then
    match args with
    | tz :: _ => "timezone " +:+ chr DQ +:+ tz +:+ chr DQ
    | [] => "timezone"
    end
  else
    let action := if String.eqb action "exclude" then "exclude" else "include" in
    let body :=
      match args with
      | [] => ""
      | [a; b] =>
          if String.eqb rule_type_lower "window"
          then chr DQ +:+ a +:+ chr DQ +:+ ".." +:+ chr DQ +:+ b +:+ chr DQ
          else str_join " " args
      | _ => str_join " " args
      end in
    if str_is_empty body then action +:+ " " +:+ rule_type
    else action +:+ " " +:+ rule_type +:+ " " +:+ body.

(** The first rule of the first calendar that has one. *)
Fixpoint find_rule (items : list Item) : option AstCalendarRule :=
  match items with
  | [] => None
  | ICalendar _ (r :: _) :: _ => Some r
  | _ :: items => find_rule items
  end.

(** [reparse_calendar_rule_line], [format_calendar_rule_parts] *)
Definition reparse_calendar_rule_line (loose : string) : option string :=
  ast ← res_ok (parse ("calendar preview {" +:+ nl +:+ loose +:+ nl +:+ "}" +:+ nl));
  format_calendar_rule_line <$> find_rule ast.
Definition format_calendar_rule_parts (action rule_type : string) (args : list string) : string :=
  let loose := loose_calendar_rule_line action rule_type args in
  default loose (reparse_calendar_rule_line loose).

(** ** Jobs and items *)

Definition is_description (x : DirectiveOrBlock) : bool :=
  match x with
  | DDirective d => String.eqb (sv_value (dir_key d)) "description"
  | _ => false
  end.

(** The first description, and the elements without it. *)
Fixpoint split_description (ds : list DirectiveOrBlock)
  : option DirectiveOrBlock * list DirectiveOrBlock :=
  match ds with
  | [] => (None, [])
  | d :: ds =>
      if is_description d then (Some d, ds)
      else let '(found, rest) := split_description ds in (found, d :: rest)
  end.

Fixpoint all_bytes (p : ascii -> bool) (s : string) : bool :=
  match s with "" => true | String c s => p c && all_bytes p s end.

Definition format_job_key (raw : string) : string :=
  if all_bytes is_ident_char raw then raw else quote_string raw.

Definition format_job (job : JobBlock) (indent : nat) : string :=
  let '(description, others) := split_description (jb_directives job) in
  "job " +:+ format_job_key (key_raw (jb_key job)) +:+ " {" +:+ nl
  +:+ match description with
      | Some d => format_directive_or_block d (S indent) +:+ nl
      | None => ""
      end
  +:+ match jb_schedule job with Some s => format_schedule s (S indent) | None => "" end
  +:+ format_directives_or_blocks others (S indent)
  +:+ "}" +:+ nl.

Definition format_sub_blocks (blocks : list NamedBlock) (indent : nat) : string :=
  String.concat "" (map (fun b => format_named_block b indent) blocks).

(** [head {] newline, body, [}] newline *)
Definition format_braced (head body : string) : string :=
  head +:+ " {" +:+ nl +:+ body +:+ "}" +:+ nl.

Definition format_item (item : Item) (indent : nat) : string :=
  match item with
  | IComment text => write_indent indent +:+ "# " +:+ text +:+ nl
  | IImport path => "import " +:+ format_string_value path +:+ nl
  | IServer ds => format_braced "server" (format_directives ds (S indent))
  | ISmtp ds => format_braced "smtp" (format_directives ds (S indent))
  | IPullApi ds => format_braced "pull_api" (format_directives ds (S indent))
  | IMcp ds => format_braced "mcp" (format_directives ds (S indent))
  | IOidc ds => format_braced "oidc" (format_directives ds (S indent))
  | IAuth bs => format_braced "auth" (format_sub_blocks bs (S indent))
  | IPolicy ds => format_braced "policy" (format_directives ds (S indent))
  | IAlerts bs => format_braced "alerts" (format_sub_blocks bs (S indent))
  | IObservability bs => format_braced "observability" (format_sub_blocks bs (S indent))
  | IVars ds => format_braced "vars" (format_directives ds (S indent))
  | IDefaults ds => format_braced "defaults" (format_directives_or_blocks ds (S indent))
  | ICalendar name rules =>
      format_braced ("calendar " +:+ format_string_value name)
        (String.concat "" (map (format_calendar_rule (S indent)) rules))
  | IConcurrencyGroup name ds =>
      format_braced ("concurrency_group " +:+ format_string_value name)
        (format_directives ds (S indent))
  | IJob job => format_job job indent
  end.

Definition is_comment_item (item : Item) : bool :=
  match item with IComment _ => true | _ => false end.

Fixpoint format_items (first : bool) (items : list Item) : string :=
  match items with
  | [] => ""
  | item :: items =>
      (if negb first && negb (is_comment_item item) then nl else "")
      +:+ format_item item 0 +:+ format_items false items
  end.

(** [format] *)
Definition format (ast : Croniqfile) : string :=
  let out := format_items true ast in
  if ends_with nl out then out else out +:+ nl.

(** ** Comments the formatter drops *)

Definition comment_text (tok : Token) : option string :=
  match tok_kind tok with Comment t => Some t | _ => None end.
Definition comments (src : string) : list string :=
  match tokenize src with
  | Ok toks => omap comment_text toks
  | Err _ => []
  end.

Fixpoint position_of (x : string) (l : list string) : option nat :=
  match l with
  | [] => None
  | y :: l => if String.eqb y x then Some O else S <$> position_of x l
  end.

(** [Vec::swap_remove]: the last element takes the place of the removed one. *)
Definition swap_remove {A} (i : nat) (l : list A) : list A :=
  match last l with
  | None => []
  | Some x => let init := take (length l - 1) l in <[i := x]> init
  end.

Fixpoint lost_loop (kept source : list string) : list string :=
  match source with
  | [] => []
  | c :: source =>
      match position_of c kept with
      | Some i => lost_loop (swap_remove i kept) source
      | None => c :: lost_loop kept source
      end
  end.

(** [lost_comments] *)
Definition lost_comments (source formatted : string) : list string :=
  lost_loop (comments formatted) (comments source).
