(* ===== verification/LexFacts.v ===== *)
(** * What formatted text lexes to

    [Lexes s ks]: the text [s] lexes to the tokens [ks]. The lemmas take one
    printed word, brace, comment or newline off the front of the text, so that
    the tokens of a formatted file are read off its structure. *)

From S2P Require Import Prelude RustStr Ast Lexer Parser Format.

Local Open Scope Z_scope.

(** ** Strings *)

Lemma chr_app c t : chr c +:+ t = String c t.
Proof. reflexivity. Qed.
Lemma concat_cons x xs : String.concat "" (x :: xs) = x +:+ String.concat "" xs.
Proof. destruct xs; cbn [String.concat]; [by rewrite str_app_nil|done]. Qed.
Lemma concat_nil : String.concat "" [] = "".
Proof. reflexivity. Qed.
Lemma join_cons2 sep x y xs :
  String.concat sep (x :: y :: xs) = x +:+ sep +:+ String.concat sep (y :: xs).
Proof. reflexivity. Qed.

Create Rewrite HintDb strs.
#[export] Hint Rewrite str_app_empty chr_app concat_cons concat_nil str_app_nil : strs.

(** Appends nest to the right. *)
Ltac assoc := rewrite <- ?str_app_assoc.

(** ** Reading one token *)

Definition Next (s : string) (k : TokenKind) (rest : string) : Prop :=
  forall size, exists span, next_token size s = Ok (MkToken k span, rest).

Definition Lexes (s : string) (ks : list TokenKind) : Prop :=
  forall size, exists steps toks,
    tokenize_loop size steps s = Some (Ok toks) /\ map tok_kind toks = ks.

Lemma Lexes_eof : Lexes "" [Eof].
Proof. intros size. by exists 1%nat, [MkToken Eof (MkSpan (pos size "") 0)]. Qed.

Lemma Lexes_step s k rest ks : Next s k rest -> k <> Eof -> Lexes rest ks -> Lexes s (k :: ks).
Proof.
  intros Hn Hk Hl size. destruct (Hn size) as [span E]. destruct (Hl size) as (n & toks & Et & <-).
  exists (S n), (MkToken k span :: toks). cbn [tokenize_loop]. rewrite E. cbn [tok_kind].
  rewrite decide_False by done. by rewrite Et.
Qed.

Lemma tokenize_loop_mono size n m s r :
  (n <= m)%nat -> tokenize_loop size n s = Some r -> tokenize_loop size m s = Some r.
Proof.
  revert m s r. induction n as [|n IH]; intros [|m] s r Hle; [done|done|lia|]. cbn [tokenize_loop].
  destruct (next_token size s) as [[tok rest]|]; [|done]. case_decide; [done|].
  destruct (tokenize_loop size n rest) as [r'|] eqn:E; [|done].
  rewrite (IH m _ _ ltac:(lia) E). done.
Qed.

Lemma Lexes_tokenize s ks : Lexes s ks -> exists toks, tokenize s = Ok toks /\ map tok_kind toks = ks.
Proof.
  intros H. destruct (H (str_len s)) as (n & toks & E & Hk). exists toks. split; [|done].
  pose proof (tokenize_total s) as Et.
  apply (tokenize_loop_mono _ _ (max n (S (String.length s)))) in E; [|lia].
  apply (tokenize_loop_mono _ _ (max n (S (String.length s)))) in Et; [|lia]. congruence.
Qed.

Lemma skip_spaces_space s : skip_spaces (" " +:+ s) = skip_spaces s.
Proof. reflexivity. Qed.

Lemma Lexes_space s ks : Lexes s ks -> Lexes (" " +:+ s) ks.
Proof.
  intros H size. destruct (H size) as ([|n] & toks & E & Hk); [done|].
  exists (S n), toks. split; [|done]. rewrite <- E. cbn [tokenize_loop].
  by replace (next_token size (" " +:+ s)) with (next_token size s)
    by (unfold next_token; by rewrite skip_spaces_space).
Qed.

(** ** Words *)

(** The text after a word: nothing, or a character no word has. *)
Definition stops (s : string) : bool :=
  match s with "" => true | String c _ => negb (is_ident_char c) end.

(** A word the lexer reads as one identifier. *)
Definition bare_word (w : string) : bool :=
  negb (str_is_empty w) && bool_decide (split_ident w = (w, "")).

Definition ends_in_dot (w : string) : bool := ends_with "." w.

Lemma split_ident_app w s :
  split_ident w = (w, "") -> stops s = true -> split_ident (w +:+ s) = (w, s).
Proof.
  intros Hw Hs. induction w as [|c w IH].
  { rewrite str_app_empty. destruct s as [|b s]; [done|]. cbn [split_ident].
    cbn in Hs. apply negb_true_iff in Hs. by rewrite Hs. }
  rewrite str_app_cons. cbn [split_ident] in *.
  destruct (is_ident_char c) eqn:Ec; [|by cbn in Hw]. cbn in *.
  destruct (split_ident w) as [l r] eqn:El.
  assert (Ascii.eqb c "." && starts_with "." (w +:+ s) = false) as ->.
  { destruct (Ascii.eqb c "."); [|done]. cbn in *. destruct w as [|b w].
    - rewrite str_app_empty. destruct s as [|b s]; [done|]. cbn in Hs.
      unfold starts_with. cbn [strip_prefix]. destruct (Ascii.eqb "." b) eqn:Eb; [|done].
      apply Ascii.eqb_eq in Eb as <-. by cbn in Hs.
    - rewrite str_app_cons. destruct (starts_with "." (String b w)) eqn:E; [done|].
      unfold starts_with in *. cbn [strip_prefix] in *. by destruct (Ascii.eqb "." b). }
  assert (Ascii.eqb c "." && starts_with "." w = false) as E0.
  { destruct (Ascii.eqb c "." && starts_with "." w); [by cbn in Hw|done]. }
  rewrite E0 in Hw. cbn in *. injection Hw as -> ->. by rewrite IH.
Qed.

Lemma ends_with_cons p c w : w <> "" -> ends_with p (String c w) = false -> ends_with p w = false.
Proof.
  unfold ends_with. cbn [strip_suffix]. intros _. destruct (String.eqb (String c w) p); [done|].
  by destruct (strip_suffix p w).
Qed.

Lemma split_ident_dots w s :
  split_ident w = (w, "") -> ends_in_dot w = false ->
  split_ident (w +:+ ".." +:+ s) = (w, ".." +:+ s).
Proof.
  intros Hw He. induction w as [|c w IH]; [done|].
  rewrite str_app_cons. cbn [split_ident] in *.
  destruct (is_ident_char c) eqn:Ec; [|by cbn in Hw].
  destruct (split_ident w) as [l r] eqn:El.
  assert (Ascii.eqb c "." && starts_with "." w = false) as E0.
  { destruct (Ascii.eqb c "." && starts_with "." w); [by cbn in Hw|done]. }
  rewrite E0 in Hw. cbn in Hw. injection Hw as -> ->.
  destruct w as [|b w].
  { assert (Ascii.eqb c "." = false) as ->; [|done].
    unfold ends_in_dot, ends_with in He. cbn in He. destruct (Ascii.eqb c "."); [done|done]. }
  assert (starts_with "." (String b w +:+ ".." +:+ s) = starts_with "." (String b w)) as ->.
  { rewrite str_app_cons. unfold starts_with. cbn [strip_prefix]. by destruct (Ascii.eqb "." b). }
  rewrite E0. cbn [negb andb]. rewrite IH; [done|done|].
  unfold ends_in_dot in *. by apply (ends_with_cons _ c).
Qed.

(** The other characters [next_token] looks for are in no word. *)
Lemma ident_char_first b :
  is_ident_char b = true ->
  is_space b = false /\ Ascii.eqb b NL = false /\ Ascii.eqb b "#" = false /\ Ascii.eqb b DQ = false
  /\ Ascii.eqb b "{" = false /\ Ascii.eqb b "}" = false /\ Ascii.eqb b ";" = false.
Proof.
  destruct b as [[] [] [] [] [] [] [] []]; vm_compute;
    solve [intros H; discriminate H | intros _; repeat split].
Qed.

Lemma Next_word w s rest :
  w <> "" -> split_ident (w +:+ s) = (w, rest) -> Next (w +:+ s) (Ident w) rest.
Proof.
  intros Hne Hs size. destruct w as [|b w]; [done|]. rewrite str_app_cons in *.
  assert (is_ident_char b = true /\ Ascii.eqb b "." && starts_with "." (w +:+ s) = false) as [Hb Hd].
  { cbn [split_ident] in Hs. destruct (is_ident_char b); [|done].
    by destruct (Ascii.eqb b "." && starts_with "." (w +:+ s)). }
  destruct (ident_char_first b Hb) as (E1 & E2 & E3 & E4 & E5 & E6 & E7).
  unfold next_token. cbn [skip_spaces]. rewrite E1, E2, E3, E4, E5, E6, E7, Hd.
  unfold lex_ident. rewrite Hs. eexists. reflexivity.
Qed.

Lemma Next_bare w s : bare_word w = true -> stops s = true -> Next (w +:+ s) (Ident w) s.
Proof.
  unfold bare_word. intros Hw Hs. b2p. apply Next_word.
  - by intros ->.
  - apply split_ident_app; [by eapply bool_decide_eq_true_1|done].
Qed.

Lemma Next_before_dots w s :
  bare_word w = true -> ends_in_dot w = false -> Next (w +:+ ".." +:+ s) (Ident w) (".." +:+ s).
Proof.
  unfold bare_word. intros Hw Hs. b2p. apply Next_word.
  - by intros ->.
  - apply split_ident_dots; [by eapply bool_decide_eq_true_1|done].
Qed.

Lemma Next_dots s : Next (".." +:+ s) DotDot s.
Proof. intros size. eexists. reflexivity. Qed.

(** ** Quoted strings and placeholders *)

Lemma lex_escaped size start v s :
  lex_string_body size start (escape v +:+ String DQ s) = Ok (v, s).
Proof.
  induction v as [|c v IH]; [reflexivity|]. cbn [escape].
  destruct (Ascii.eqb c BACKSLASH) eqn:E1.
  { apply Ascii.eqb_eq in E1 as ->. assoc. rewrite !chr_app. cbn. by rewrite IH. }
  destruct (Ascii.eqb c DQ) eqn:E2.
  { apply Ascii.eqb_eq in E2 as ->. assoc. rewrite !chr_app. cbn. by rewrite IH. }
  destruct (Ascii.eqb c NL) eqn:E3.
  { apply Ascii.eqb_eq in E3 as ->. assoc. rewrite chr_app, str_app_cons, str_app_empty. cbn. by rewrite IH. }
  destruct (Ascii.eqb c CR) eqn:E4.
  { apply Ascii.eqb_eq in E4 as ->. assoc. rewrite chr_app, str_app_cons, str_app_empty. cbn. by rewrite IH. }
  destruct (Ascii.eqb c TAB) eqn:E5.
  { apply Ascii.eqb_eq in E5 as ->. assoc. rewrite chr_app, str_app_cons, str_app_empty. cbn. by rewrite IH. }
  rewrite chr_app, str_app_cons. cbn [lex_string_body]. by rewrite E2, E1, E3, IH.
Qed.

Lemma Next_quoted v s : Next (quote_string v +:+ s) (QuotedString v) s.
Proof.
  intros size. unfold quote_string. assoc. rewrite !chr_app. unfold next_token. cbn [skip_spaces].
  change (is_space DQ) with false. cbv iota. change (Ascii.eqb DQ NL) with false.
  change (Ascii.eqb DQ "#") with false. change (Ascii.eqb DQ DQ) with true. cbv iota.
  unfold lex_string. rewrite lex_escaped. eexists. reflexivity.
Qed.

(** A placeholder the lexer reads back: one of the prefixes, balanced braces,
    no newline. *)
Definition placeholder_ok (v : string) : bool :=
  is_placeholder_start v && bool_decide (split_placeholder 0 (v +:+ "}") = Some (v, "")).

Lemma split_placeholder_app depth u c r s :
  split_placeholder depth u = Some (c, r) -> split_placeholder depth (u +:+ s) = Some (c, r +:+ s).
Proof.
  revert depth c r. induction u as [|b u IH]; intros depth c r; [done|].
  rewrite str_app_cons. cbn [split_placeholder].
  destruct (Ascii.eqb b "{").
  { destruct (split_placeholder (S depth) u) as [[c' r']|] eqn:E; [|done].
    intros [= <- <-]. by rewrite (IH _ _ _ E). }
  destruct (Ascii.eqb b "}").
  { destruct depth; [by intros [= <- <-]|].
    destruct (split_placeholder depth u) as [[c' r']|] eqn:E; [|done].
    intros [= <- <-]. by rewrite (IH _ _ _ E). }
  destruct (Ascii.eqb b NL); [done|].
  destruct (split_placeholder depth u) as [[c' r']|] eqn:E; [|done].
  intros [= <- <-]. by rewrite (IH _ _ _ E).
Qed.

Lemma starts_with_app p v s : starts_with p v = true -> starts_with p (v +:+ s) = true.
Proof.
  revert v. induction p as [|a p IH]; intros [|b v]; unfold starts_with in *; cbn [strip_prefix]; try done.
  rewrite str_app_cons. cbn [strip_prefix]. destruct (Ascii.eqb a b); [apply IH|done].
Qed.

Lemma Next_placeholder v s :
  placeholder_ok v = true -> Next ("{" +:+ v +:+ "}" +:+ s) (Placeholder v) s.
Proof.
  unfold placeholder_ok. intros H size. b2p.
  match goal with H : bool_decide _ = true |- _ => apply bool_decide_eq_true_1 in H; rename H into Hp end.
  apply (split_placeholder_app _ _ _ _ s) in Hp. rewrite <- str_app_assoc in Hp.
  assert (is_placeholder_start (v +:+ "}" +:+ s) = true) as Hs.
  { unfold is_placeholder_start in *. rewrite !orb_true_iff in *.
    naive_solver eauto using starts_with_app. }
  change ("{" +:+ v +:+ "}" +:+ s) with (String "{" (v +:+ "}" +:+ s)).
  unfold next_token. cbn [skip_spaces]. change (is_space "{") with false. cbv iota.
  change (Ascii.eqb "{" NL) with false. change (Ascii.eqb "{" "#") with false.
  change (Ascii.eqb "{" DQ) with false. change (Ascii.eqb "{" "{") with true. cbv iota.
  rewrite Hs. unfold lex_placeholder. rewrite Hp. eexists. reflexivity.
Qed.

(** ** Braces, comments, newlines *)

Lemma Next_lbrace s : is_placeholder_start s = false -> Next ("{" +:+ s) LBrace s.
Proof.
  intros Hs size. change ("{" +:+ s) with (String "{" s). unfold next_token. cbn [skip_spaces].
  change (is_space "{") with false. cbv iota.
  change (Ascii.eqb "{" NL) with false. change (Ascii.eqb "{" "#") with false.
  change (Ascii.eqb "{" DQ) with false. change (Ascii.eqb "{" "{") with true. cbv iota.
  rewrite Hs. eexists. reflexivity.
Qed.
Lemma Next_rbrace s : Next ("}" +:+ s) RBrace s.
Proof. intros size. eexists. reflexivity. Qed.
Lemma Next_semicolon s : Next (";" +:+ s) Semicolon s.
Proof. intros size. eexists. reflexivity. Qed.
Lemma Next_newline s : Next (nl +:+ s) Newline (skip_blank s).
Proof. intros size. eexists. reflexivity. Qed.

(** A comment the lexer reads back: one line, no blanks at its end. *)
Definition comment_ok (text : string) : bool :=
  negb (contains_char NL text) && String.eqb (trim_end text) text.

Lemma contains_char_cons a c t :
  contains_char a (String c t) = false -> Ascii.eqb c a = false /\ contains_char a t = false.
Proof.
  unfold contains_char. cbn [count_char]. intros H. apply Z.ltb_ge in H.
  assert (forall s, 0 <= count_char a s) as Hn
    by (intros s; induction s as [|x s IH]; cbn; [lia|case_if; lia]).
  specialize (Hn t). destruct (Ascii.eqb c a); [lia|]. split; [done|]. apply Z.ltb_ge. lia.
Qed.

Lemma split_line_app t s : contains_char NL t = false -> split_line (t +:+ nl +:+ s) = (t, nl +:+ s).
Proof.
  induction t as [|c t IH]; intros H; [reflexivity|].
  apply contains_char_cons in H as [Hc Ht]. rewrite str_app_cons. cbn [split_line].
  by rewrite Hc, IH.
Qed.

Lemma Next_comment t s : comment_ok t = true -> Next ("# " +:+ t +:+ nl +:+ s) (Comment t) (nl +:+ s).
Proof.
  unfold comment_ok. intros H size. b2p.
  match goal with H : String.eqb _ _ = true |- _ => apply String.eqb_eq in H; rename H into Ht end.
  change ("# " +:+ t +:+ nl +:+ s) with (String "#" (String " " (t +:+ nl +:+ s))).
  unfold next_token. cbn [skip_spaces]. change (is_space "#") with false. cbv iota.
  change (Ascii.eqb "#" NL) with false. change (Ascii.eqb "#" "#") with true. cbv iota.
  unfold lex_comment. change (Ascii.eqb " " " ") with true. cbv iota.
  rewrite split_line_app by done. rewrite Ht. eexists. reflexivity.
Qed.
