(* ===== verification/FormatTokens.v ===== *)
(** * The tokens of a formatted file

    For each node, the condition under which its text can be read back
    ([value_ok], [directive_ok], [dob_ok], ...) and the tokens of that text
    ([value_toks], ...), with the lemmas that the lexer yields them. *)

From S2P Require Import Prelude RustStr Ast Lexer Parser Format LexFacts.

Local Open Scope Z_scope.

(** ** Values *)

(** The two ends of an unquoted range. *)
Definition split_range (w : string) : option (string * string) :=
  let '(a, rest) := split_ident w in b ← strip_prefix ".." rest; Some (a, b).

Definition bare_range (w : string) : bool :=
  match split_range w with
  | Some (a, b) => bare_word a && bare_word b && negb (ends_in_dot a)
  | None => false
  end.

(** A value that reads back as one token. *)
Definition value_ok (v : StringValue) : bool :=
  if sv_is_placeholder v then placeholder_ok (sv_value v) && negb (sv_quoted v)
  else sv_quoted v || bare_word (sv_value v).

(** An argument of a directive may also be an unquoted range. *)
Definition arg_ok (v : StringValue) : bool :=
  value_ok v || (negb (sv_is_placeholder v) && negb (sv_quoted v) && bare_range (sv_value v)).

Definition value_toks (v : StringValue) : list TokenKind :=
  if sv_is_placeholder v then [Placeholder (sv_value v)]
  else if sv_quoted v then [QuotedString (sv_value v)]
  else match split_range (sv_value v) with
       | Some (a, b) => [Ident a; DotDot; Ident b]
       | None => [Ident (sv_value v)]
       end.

Lemma strip_prefix_app p s r : strip_prefix p s = Some r -> s = p +:+ r.
Proof.
  revert s. induction p as [|a p IH]; intros [|b s]; cbn [strip_prefix]; try done.
  - by intros [= <-].
  - by intros [= <-].
  - destruct (Ascii.eqb a b) eqn:E; [|done]. apply Ascii.eqb_eq in E as <-. intros H.
    by rewrite str_app_cons, <- (IH _ H).
Qed.

Lemma split_ident_join s : s = (split_ident s).1 +:+ (split_ident s).2.
Proof.
  induction s as [|c s IH]; [done|]. cbn [split_ident]. destruct (_ && _); [|done].
  destruct (split_ident s). cbn in *. by rewrite str_app_cons, <- IH.
Qed.

Lemma split_range_join w a b : split_range w = Some (a, b) -> w = a +:+ ".." +:+ b.
Proof.
  unfold split_range. pose proof (split_ident_join w) as Hw. destruct (split_ident w) as [a' rest].
  cbn in Hw. destruct (strip_prefix ".." rest) as [b'|] eqn:E; [|done]. intros [= <- <-].
  apply strip_prefix_app in E. by rewrite E in Hw.
Qed.

Lemma bare_word_no_range w : bare_word w = true -> split_range w = None.
Proof.
  unfold bare_word, split_range. intros H. b2p.
  match goal with H : bool_decide _ = true |- _ => apply bool_decide_eq_true_1 in H; rewrite H end.
  reflexivity.
Qed.

Lemma value_ok_single v : value_ok v = true -> exists k, value_toks v = [k] /\ value_of k = Some v.
Proof.
  destruct v as [w q p]. unfold value_ok, value_toks. cbn. destruct p; cbn.
  { intros H. b2p. destruct q; [done|]. by eexists. }
  destruct q; cbn; [by eexists|]. intros H. rewrite bare_word_no_range by done. by eexists.
Qed.

Lemma value_ok_arg v : value_ok v = true -> arg_ok v = true.
Proof. unfold arg_ok. by intros ->. Qed.

Lemma Lexes_value v s ks :
  arg_ok v = true -> stops s = true -> Lexes s ks ->
  Lexes (format_string_value v +:+ s) (value_toks v ++ ks).
Proof.
  destruct v as [w q p]. unfold arg_ok, value_ok, value_toks, format_string_value. cbn.
  intros Hv Hs Hl. destruct p; cbn in *.
  { rewrite orb_false_r in Hv. b2p. assoc. apply (Lexes_step _ _ s); [|done|done].
    by apply Next_placeholder. }
  destruct q; cbn in *.
  { apply (Lexes_step _ _ s); [|done|done]. apply Next_quoted. }
  destruct (bare_word w) eqn:Hw; cbn in Hv.
  { rewrite bare_word_no_range by done. apply (Lexes_step _ _ s); [|done|done]. by apply Next_bare. }
  unfold bare_range in Hv. destruct (split_range w) as [[a b]|] eqn:E; [|done].
  apply split_range_join in E as ->. b2p. assoc.
  apply (Lexes_step _ _ (".." +:+ b +:+ s)); [by apply Next_before_dots|done|].
  apply (Lexes_step _ _ (b +:+ s)); [by apply Next_dots|done|].
  apply (Lexes_step _ _ s); [by apply Next_bare|done|done].
Qed.

(** ** Lines *)

(** The tokens of a text that follows a newline. *)
Definition LexLine (s : string) (ks : list TokenKind) : Prop := Lexes (skip_blank s) ks.

(** The text does not begin with a blank. *)
Definition solid (s : string) : bool :=
  match s with "" => true | String c _ => negb (Ascii.eqb c NL || is_space c) end.

Lemma skip_blank_solid s : solid s = true -> skip_blank s = s.
Proof.
  destruct s as [|c s]; [done|]. cbn. intros H. apply negb_true_iff in H. by rewrite H.
Qed.

Lemma LexLine_solid s ks : solid s = true -> Lexes s ks -> LexLine s ks.
Proof. intros Hs. unfold LexLine. by rewrite skip_blank_solid. Qed.
Lemma LexLine_nl s ks : LexLine s ks -> LexLine (nl +:+ s) ks.
Proof. done. Qed.
Lemma LexLine_indent n s ks : LexLine s ks -> LexLine (write_indent n +:+ s) ks.
Proof. intros H. induction n as [|n IH]; [done|]. cbn [write_indent]. assoc. exact IH. Qed.
Lemma LexLine_eof : LexLine "" [Eof].
Proof. exact Lexes_eof. Qed.
Lemma Lexes_nl s ks : LexLine s ks -> Lexes (nl +:+ s) (Newline :: ks).
Proof. intros H. apply (Lexes_step _ _ (skip_blank s)); [apply Next_newline|done|done]. Qed.

Lemma solid_app s t : s <> "" -> solid s = true -> solid (s +:+ t) = true.
Proof. by destruct s. Qed.

Lemma bare_word_solid w : bare_word w = true -> w <> "" /\ solid w = true.
Proof.
  unfold bare_word. intros H. b2p. destruct w as [|b w]; [done|]. split; [done|].
  match goal with H : bool_decide _ = true |- _ => apply bool_decide_eq_true_1 in H; rename H into Hb end.
  cbn [split_ident] in Hb. destruct (is_ident_char b) eqn:E; [|done].
  destruct (ident_char_first b E) as (E1 & E2 & _). cbn. by rewrite E1, E2.
Qed.

Lemma value_solid v s : arg_ok v = true -> solid (format_string_value v +:+ s) = true.
Proof.
  destruct v as [w q p]. unfold arg_ok, value_ok, format_string_value. cbn.
  destruct p; cbn; [done|]. destruct q; cbn; [done|]. intros H. apply orb_true_iff in H as [H|H].
  { apply bare_word_solid in H as [Hne Hs]. by apply solid_app. }
  unfold bare_range in H. destruct (split_range w) as [[a b]|] eqn:E; [|done].
  apply split_range_join in E as ->. b2p. assoc.
  match goal with H : bare_word a = true |- _ => apply bare_word_solid in H as [Hne Hs] end.
  by apply solid_app.
Qed.

Lemma stops_space s : stops (" " +:+ s) = true.
Proof. reflexivity. Qed.
Lemma stops_nl s : stops (nl +:+ s) = true.
Proof. reflexivity. Qed.

(** ** Directives *)

Definition args_toks (args : list StringValue) : list TokenKind := concat (map value_toks args).
Definition directive_toks (d : Directive) : list TokenKind :=
  value_toks (dir_key d) ++ args_toks (dir_args d).
Definition directive_ok (d : Directive) : bool :=
  value_ok (dir_key d) && forallb arg_ok (dir_args d).

Lemma Lexes_args args s ks :
  forallb arg_ok args = true -> stops s = true -> Lexes s ks ->
  Lexes (format_args args +:+ s) (args_toks args ++ ks) /\ stops (format_args args +:+ s) = true.
Proof.
  unfold format_args, args_toks. intros Ha Hs Hl. induction args as [|a args IH]; [done|].
  cbn [forallb] in Ha. b2p. destruct IH as [IHl IHs]; [done|].
  cbn [map concat]. rewrite concat_cons, <- app_assoc. assoc. split; [|done].
  apply Lexes_space, Lexes_value; done.
Qed.

Lemma format_words_eq d : format_words d = format_string_value (dir_key d) +:+ format_args (dir_args d).
Proof. reflexivity. Qed.

Lemma Lexes_words d s ks :
  directive_ok d = true -> stops s = true -> Lexes s ks ->
  Lexes (format_words d +:+ s) (directive_toks d ++ ks).
Proof.
  unfold directive_ok, directive_toks. intros Hd Hs Hl. b2p. rewrite format_words_eq, <- app_assoc. assoc.
  destruct (Lexes_args (dir_args d) s ks) as [Hargs Hstop]; [done..|].
  apply Lexes_value; [by apply value_ok_arg|done|done].
Qed.

Lemma LexLine_directive n d s ks :
  directive_ok d = true -> LexLine s ks ->
  LexLine (format_directive_line n d +:+ s) (directive_toks d ++ Newline :: ks).
Proof.
  intros Hd Hl. unfold format_directive_line. assoc. apply LexLine_indent, LexLine_solid.
  - rewrite format_words_eq. assoc. apply value_solid, value_ok_arg. unfold directive_ok in Hd. by b2p.
  - apply Lexes_words; [done|done|]. by apply Lexes_nl.
Qed.

Definition directives_toks (ds : list Directive) : list TokenKind :=
  concat (map (fun d => directive_toks d ++ [Newline]) ds).

Lemma LexLine_directives n ds s ks :
  forallb directive_ok ds = true -> LexLine s ks ->
  LexLine (format_directives ds n +:+ s) (directives_toks ds ++ ks).
Proof.
  unfold format_directives, directives_toks. intros Hd Hl. induction ds as [|d ds IH]; [done|].
  cbn [forallb] in Hd. b2p. cbn [map concat]. rewrite concat_cons, <- !app_assoc. assoc.
  apply LexLine_directive; [done|]. by apply IH.
Qed.

(** ** Blocks *)

Definition head_toks (name : StringValue) (q : option StringValue) : list TokenKind :=
  value_toks name ++ match q with Some q => value_toks q | None => [] end.
Definition block_head_ok (name : StringValue) (q : option StringValue) : bool :=
  value_ok name && match q with Some q => value_ok q | None => true end.

Fixpoint inline_toks (first : bool) (ds : list DirectiveOrBlock) : list TokenKind :=
  match ds with
  | [] => []
  | DDirective d :: ds =>
      (if first then [] else [Semicolon]) ++ directive_toks d ++ inline_toks false ds
  | _ :: ds => inline_toks false ds
  end.

Fixpoint dob_toks (x : DirectiveOrBlock) : list TokenKind :=
  match x with
  | DDirective d => directive_toks d ++ [Newline]
  | DComment t => [Comment t; Newline]
  | DBlock b => block_toks b
  end
with block_toks (b : NamedBlock) : list TokenKind :=
  match b with
  | MkBlock name q ds =>
      head_toks name q ++ LBrace ::
      (if is_inline ds then inline_toks true ds
       else Newline :: (fix go l := match l with [] => [] | x :: l => dob_toks x ++ go l end) ds)
      ++ [RBrace; Newline]
  end.

Definition dobs_toks (ds : list DirectiveOrBlock) : list TokenKind := concat (map dob_toks ds).

Fixpoint dob_ok (x : DirectiveOrBlock) : bool :=
  match x with
  | DDirective d => directive_ok d
  | DComment t => comment_ok t
  | DBlock b => block_ok b
  end
with block_ok (b : NamedBlock) : bool :=
  match b with
  | MkBlock name q ds =>
      block_head_ok name q && (fix go l := match l with [] => true | x :: l => dob_ok x && go l end) ds
  end.

Lemma block_toks_eq name q ds :
  block_toks (MkBlock name q ds)
  = head_toks name q ++ LBrace ::
    (if is_inline ds then inline_toks true ds else Newline :: dobs_toks ds) ++ [RBrace; Newline].
Proof.
  cbn [block_toks]. do 3 f_equal. destruct (is_inline ds); [done|]. f_equal.
  unfold dobs_toks. induction ds as [|x ds IH]; [done|]. cbn [map concat]. by rewrite <- IH.
Qed.

Lemma block_ok_eq name q ds :
  block_ok (MkBlock name q ds) = block_head_ok name q && forallb dob_ok ds.
Proof. reflexivity. Qed.

Lemma format_block_eq name q ds n :
  format_named_block (MkBlock name q ds) n
  = write_indent n +:+ format_block_head name q +:+
    (if is_inline ds then " {" +:+ inline_words true ds +:+ " }" +:+ nl
     else " {" +:+ nl +:+ format_directives_or_blocks ds (S n) +:+ write_indent n +:+ "}" +:+ nl).
Proof.
  cbn [format_named_block]. do 2 f_equal. destruct (is_inline ds); [done|]. do 3 f_equal.
  unfold format_directives_or_blocks. induction ds as [|x ds IH]; [done|].
  cbn [map]. by rewrite concat_cons, <- IH.
Qed.

Lemma Lexes_head name q s ks :
  block_head_ok name q = true -> stops s = true -> Lexes s ks ->
  Lexes (format_block_head name q +:+ s) (head_toks name q ++ ks).
Proof.
  unfold block_head_ok, head_toks, format_block_head. intros H Hs Hl. b2p. assoc. rewrite <- app_assoc.
  destruct q as [q|]; apply Lexes_value; try apply value_ok_arg; try done.
  apply Lexes_space, Lexes_value; by try apply value_ok_arg.
Qed.

Lemma Lexes_open s ks :
  is_placeholder_start s = false -> Lexes s ks -> Lexes (" {" +:+ s) (LBrace :: ks).
Proof.
  intros Hp Hl. change (" {" +:+ s) with (" " +:+ "{" +:+ s). apply Lexes_space.
  apply (Lexes_step _ _ s); [by apply Next_lbrace|done|done].
Qed.

Lemma Lexes_open_line s ks : LexLine s ks -> Lexes (" {" +:+ nl +:+ s) (LBrace :: Newline :: ks).
Proof. intros Hl. apply Lexes_open; [reflexivity|]. by apply Lexes_nl. Qed.

(** The closing brace of a block, at the start of a line. *)
Lemma LexLine_close n s ks :
  LexLine s ks -> LexLine (write_indent n +:+ "}" +:+ nl +:+ s) (RBrace :: Newline :: ks).
Proof.
  intros Hl. apply LexLine_indent, LexLine_solid; [done|].
  apply (Lexes_step _ _ (nl +:+ s)); [apply Next_rbrace|done|]. by apply Lexes_nl.
Qed.

Lemma Lexes_inline first ds s ks :
  forallb dob_ok ds = true ->
  forallb (fun x => match x with DDirective _ => true | _ => false end) ds = true ->
  stops s = true -> Lexes s ks ->
  Lexes (inline_words first ds +:+ s) (inline_toks first ds ++ ks)
  /\ (ds <> [] \/ stops s = true) /\ stops (inline_words false ds +:+ s) = true.
Proof.
  intros Ho Hd Hs Hl. revert first. induction ds as [|x ds IH]; intros first; [by auto|].
  cbn [forallb] in *. b2p. destruct x as [d|b|t]; [|done..]. cbn [inline_words inline_toks].
  destruct (IH ltac:(done) ltac:(done) false) as (IHl & _ & IHs).
  split_and!; [|by left|done]. assoc. rewrite <- !app_assoc. destruct first.
  - apply Lexes_space, Lexes_words; done.
  - apply (Lexes_step _ _ (" " +:+ format_words d +:+ inline_words false ds +:+ s));
      [apply Next_semicolon|done|]. apply Lexes_space, Lexes_words; done.
Qed.

Lemma head_solid name q s : block_head_ok name q = true -> solid (format_block_head name q +:+ s) = true.
Proof.
  unfold block_head_ok, format_block_head. intros H. b2p. assoc. by apply value_solid, value_ok_arg.
Qed.

Lemma LexLine_comment n t s ks :
  comment_ok t = true -> LexLine s ks ->
  LexLine (write_indent n +:+ "# " +:+ t +:+ nl +:+ s) (Comment t :: Newline :: ks).
Proof.
  intros Ht Hl. apply LexLine_indent, LexLine_solid; [done|].
  apply (Lexes_step _ _ (nl +:+ s)); [by apply Next_comment|done|]. by apply Lexes_nl.
Qed.

Lemma is_inline_directives ds :
  is_inline ds = true ->
  forallb (fun x => match x with DDirective _ => true | _ => false end) ds = true.
Proof. unfold is_inline. intros H. by b2p. Qed.

Lemma LexLine_block name q ds n s ks :
  block_ok (MkBlock name q ds) = true ->
  (forall s ks, LexLine s ks ->
     LexLine (format_directives_or_blocks ds (S n) +:+ s) (dobs_toks ds ++ ks)) ->
  LexLine s ks ->
  LexLine (format_named_block (MkBlock name q ds) n +:+ s) (block_toks (MkBlock name q ds) ++ ks).
Proof.
  rewrite block_ok_eq, format_block_eq, block_toks_eq. intros Ho Hbody Hl. b2p. assoc.
  apply LexLine_indent, LexLine_solid; [by apply head_solid|]. rewrite <- !app_assoc.
  destruct (is_inline ds) eqn:Ei; assoc.
  - apply Lexes_head; [done|done|]. rewrite <- app_comm_cons. apply Lexes_open.
    { by destruct ds as [|[d|b|t] ds]. }
    rewrite <- app_assoc. apply Lexes_inline; [done|by apply is_inline_directives|done|].
    change (" }" +:+ nl +:+ s) with (" " +:+ "}" +:+ nl +:+ s). apply Lexes_space.
    apply (Lexes_step _ _ (nl +:+ s)); [apply Next_rbrace|done|]. by apply Lexes_nl.
  - apply Lexes_head; [done|done|]. rewrite <- !app_comm_cons. apply Lexes_open_line.
    rewrite <- app_assoc. by apply Hbody, LexLine_close.
Qed.

Lemma LexLine_dob x : dob_ok x = true -> forall n s ks,
  LexLine s ks -> LexLine (format_directive_or_block x n +:+ s) (dob_toks x ++ ks).
Proof.
  induction x as [d|t|name q ds IH] using nested_ind; intros Ho n s ks Hl.
  - cbn [format_directive_or_block dob_toks]. rewrite <- app_assoc. by apply LexLine_directive.
  - cbn [format_directive_or_block dob_toks]. assoc. by apply LexLine_comment.
  - cbn [format_directive_or_block dob_toks]. apply LexLine_block; [done| |done].
    clear s ks Hl. intros s ks Hl. change (dob_ok (DBlock (MkBlock name q ds)))
      with (block_ok (MkBlock name q ds)) in Ho. rewrite block_ok_eq in Ho.
    apply andb_true_iff in Ho as [_ Ho]. unfold format_directives_or_blocks, dobs_toks.
    induction IH as [|x ds Hx _ IHds]; [done|]. cbn [forallb] in Ho. b2p. cbn [map concat].
    rewrite concat_cons, <- app_assoc. assoc. apply Hx; [done|]. by apply IHds.
Qed.

Lemma LexLine_dobs ds n s ks :
  forallb dob_ok ds = true -> LexLine s ks ->
  LexLine (format_directives_or_blocks ds n +:+ s) (dobs_toks ds ++ ks).
Proof.
  unfold format_directives_or_blocks, dobs_toks. intros Ho Hl. induction ds as [|x ds IH]; [done|].
  cbn [forallb] in Ho. b2p. cbn [map concat]. rewrite concat_cons, <- app_assoc. assoc.
  apply LexLine_dob; [done|]. by apply IH.
Qed.

Definition sub_blocks_toks (bs : list NamedBlock) : list TokenKind := concat (map block_toks bs).

Lemma LexLine_sub_blocks bs n s ks :
  forallb block_ok bs = true -> LexLine s ks ->
  LexLine (format_sub_blocks bs n +:+ s) (sub_blocks_toks bs ++ ks).
Proof.
  unfold format_sub_blocks, sub_blocks_toks. intros Ho Hl. induction bs as [|b bs IH]; [done|].
  cbn [forallb] in Ho. b2p. cbn [map concat]. rewrite concat_cons, <- app_assoc. assoc.
  apply (LexLine_dob (DBlock b)); [done|]. by apply IH.
Qed.
