(* ===== verification/ItemTokens.v ===== *)
(** * The tokens of formatted schedules, calendars, jobs and items

    Continues [FormatTokens] up to the whole file: [Lexes_format]. *)

From S2P Require Import Prelude RustStr Ast Lexer Parser Format LexFacts FormatTokens.

Local Open Scope Z_scope.

Lemma Lexes_word w s ks :
  bare_word w = true -> stops s = true -> Lexes s ks -> Lexes (w +:+ s) (Ident w :: ks).
Proof. intros Hw Hs Hl. apply (Lexes_step _ _ s); [by apply Next_bare|done|done]. Qed.

(** The same for a word and the space after it. *)
Lemma Lexes_keyword w s ks :
  bare_word w = true -> Lexes s ks -> Lexes (w +:+ " " +:+ s) (Ident w :: ks).
Proof. intros Hw Hl. apply Lexes_word; [done|done|]. by apply Lexes_space. Qed.

(** ** Lists of words *)

Lemma format_plain w : format_string_value (plain_value w) = w.
Proof. reflexivity. Qed.

Lemma join_args words :
  words <> [] -> " " +:+ str_join " " words = format_args (map plain_value words).
Proof.
  unfold str_join, format_args. intros Hne. induction words as [|w words IH]; [done|].
  destruct words as [|w' words].
  { cbn [map String.concat]. by rewrite format_plain. }
  rewrite join_cons2. cbn [map] in *. rewrite concat_cons, format_plain, IH by done. reflexivity.
Qed.

Lemma args_toks_plain words :
  forallb bare_word words = true -> args_toks (map plain_value words) = map Ident words.
Proof.
  unfold args_toks. induction words as [|w words IH]; [done|]. cbn [forallb]. intros H. b2p.
  cbn [map concat]. rewrite IH by done. unfold value_toks. cbn. by rewrite bare_word_no_range.
Qed.

Lemma plain_args_ok words :
  forallb bare_word words = true -> forallb arg_ok (map plain_value words) = true.
Proof.
  induction words as [|w words IH]; [done|]. cbn [forallb map]. intros H. b2p. split; [|by apply IH].
  apply value_ok_arg. done.
Qed.

(** ** Numbers *)

Lemma digit_is_ident c : is_digit c = true -> is_ident_char c = true /\ Ascii.eqb c "." = false.
Proof.
  unfold is_digit, is_ident_char. intros H. split; [by rewrite H, !orb_true_r|].
  destruct (Ascii.eqb c ".") eqn:E; [|done]. by apply Ascii.eqb_eq in E as ->.
Qed.

Lemma digits_bare w : w <> "" -> all_chars is_digit w = true -> bare_word w = true.
Proof.
  intros Hne Hd. unfold bare_word. b2p. split; [by destruct w|]. apply bool_decide_eq_true_2.
  clear Hne. induction w as [|c w IH]; [done|]. cbn [all_chars] in Hd. b2p.
  destruct (digit_is_ident c) as [Hi Hp]; [done|]. cbn [split_ident]. by rewrite Hi, Hp, IH.
Qed.

Lemma show_uint_bare n : 0 <= n -> bare_word (show_uint n) = true.
Proof. intros Hn. apply digits_bare; [apply show_uint_nonempty|by apply show_uint_digits]. Qed.

(** ** Weekday lists *)

(** The words of [emit_run] and of [format_weekday_list]. *)
Definition run_words (run : nat * nat) : list string :=
  let len := (run.2 - run.1 + 1)%nat in
  if Nat.leb 3 len then [short_at run.1 +:+ ".." +:+ short_at run.2]
  else map short_at (seq run.1 len).

Definition weekday_words (indices : list nat) : list string :=
  match indices with
  | [] => []
  | first :: rest =>
      if decide (indices = [0; 1; 2; 3; 4]%nat) then ["weekday"]
      else if decide (indices = [5; 6]%nat) then ["weekend"]
      else concat (map run_words (runs first first rest))
  end.

(** [format_weekday_list] from the positions on. *)
Definition format_indices (indices : list nat) : string :=
  match indices with
  | [] => ""
  | first :: rest =>
      if decide (indices = [0; 1; 2; 3; 4]%nat) then "weekday"
      else if decide (indices = [5; 6]%nat) then "weekend"
      else str_join " " (map (fun '(s, e) => emit_run s e) (runs first first rest))
  end.

Lemma format_weekday_list_indices days :
  format_weekday_list days = format_indices (day_indices days).
Proof. unfold format_weekday_list. by destruct (day_indices days). Qed.

(** There are 128 sets of positions, so what concerns them is computed. *)
Fixpoint sublists {A} (l : list A) : list (list A) :=
  match l with
  | [] => [[]]
  | x :: l => let r := sublists l in r ++ map (cons x) r
  end.

Lemma filter_sublist {A} (Q : A -> Prop) `{!forall x, Decision (Q x)} (l : list A) :
  filter Q l ∈ sublists l.
Proof.
  induction l as [|x l IH]; [by left|]. cbn [sublists]. apply elem_of_app. destruct (decide (Q x)).
  - rewrite filter_cons_True by done. right. apply list_elem_of_fmap. eauto.
  - rewrite filter_cons_False by done. by left.
Qed.

Lemma day_indices_check (check : list nat -> bool) days :
  forallb check (sublists (seq 0 7)) = true -> check (day_indices days) = true.
Proof.
  intros H. rewrite forallb_forall in H. apply H. apply list_elem_of_In, filter_sublist.
Qed.

Lemma day_indices_nonempty days : days <> [] -> day_indices days <> [].
Proof.
  destruct days as [|d days]; [done|]. intros _ H.
  assert (AstWeekday.index d ∈ day_indices (d :: days)) as Hd; [|by rewrite H in Hd; apply not_elem_of_nil in Hd].
  apply list_elem_of_filter. split; [by left|]. by destruct d; apply elem_of_seq; simpl; lia.
Qed.

Definition words_ok (indices : list nat) : bool :=
  bool_decide (format_indices indices = str_join " " (weekday_words indices))
  && forallb arg_ok (map plain_value (weekday_words indices))
  && bool_decide (indices = [] \/ weekday_words indices <> []).

Lemma words_ok_all days : words_ok (day_indices days) = true.
Proof. apply day_indices_check. vm_compute. reflexivity. Qed.

(** The values [format_weekday_list] writes, each after a space. *)
Definition weekday_values (days : list AstWeekday.t) : list StringValue :=
  map plain_value (weekday_words (day_indices days)).

Lemma weekday_list_args days :
  days <> [] -> " " +:+ format_weekday_list days = format_args (weekday_values days)
                /\ forallb arg_ok (weekday_values days) = true.
Proof.
  intros Hne. pose proof (words_ok_all days) as H. apply day_indices_nonempty in Hne.
  unfold words_ok in H. rewrite !andb_true_iff, !bool_decide_eq_true in H.
  destruct H as [[Hf Ha] Hw]. split; [|done]. rewrite format_weekday_list_indices, Hf.
  apply join_args. naive_solver.
Qed.

(** ** Schedules *)

(** The text of a time is one [parse_time] reads as that time. *)
Definition read_time (raw : string) : option TimeValue :=
  match split_char ":" raw with
  | [h; m] =>
      hour ← parse_u8 h; minute ← parse_u8 m;
      if (23 <? hour) || (59 <? minute) then None else Some (MkTimeValue hour minute raw)
  | _ => None
  end.
Definition time_ok (t : TimeValue) : bool :=
  bare_word (tv_raw t) && bool_decide (read_time (tv_raw t) = Some t).

Definition ordinal_ok (o : MonthOrdinal) : bool :=
  match o with OrdDay d => (1 <=? d) && (d <=? 31) | OrdLast => true end.

Definition kind_prints (k : ScheduleKind) : bool :=
  match k with
  | KInterval count _ => (0 <=? count) && (count <=? U32_MAX)
  | KDaily t => time_ok t
  | KWeekdays days t => negb (bool_decide (days = [])) && time_ok t
  | KMonthly ords t => negb (bool_decide (ords = [])) && forallb ordinal_ok ords && time_ok t
  | KOnce v => value_ok v
  | KDisabled => true
  end.

Definition unit_word (count : Z) (unit : IntervalUnit) : string :=
  unit_noun unit +:+ (if count =? 1 then "" else "s").

Definition kind_toks (k : ScheduleKind) : list TokenKind :=
  match k with
  | KInterval count unit => [Ident "every"; Ident (show_uint count); Ident (unit_word count unit)]
  | KDaily t => [Ident "every"; Ident "day"; Ident "at"; Ident (tv_raw t)]
  | KWeekdays days t =>
      Ident "every" :: args_toks (weekday_values days) ++ [Ident "at"; Ident (tv_raw t)]
  | KMonthly ords t =>
      Ident "every" :: map Ident (map format_month_ordinal ords)
      ++ [Ident "of"; Ident "month"; Ident "at"; Ident (tv_raw t)]
  | KOnce v => Ident "once" :: Ident "at" :: value_toks v
  | KDisabled => [Ident "disabled"]
  end.

Lemma time_ok_bare t : time_ok t = true -> bare_word (tv_raw t) = true.
Proof. unfold time_ok. intros H. by b2p. Qed.

Lemma unit_word_bare count unit : bare_word (unit_word count unit) = true.
Proof. unfold unit_word. by destruct unit, (count =? 1). Qed.

Lemma ordinal_bare o : ordinal_ok o = true -> bare_word (format_month_ordinal o) = true.
Proof.
  destruct o as [d|]; [|done]. cbn. intros H. b2p.
  assert (forallb (fun d => bare_word (format_ordinal d)) (map Z.of_nat (seq 0 32)) = true) as Hall
    by (vm_compute; reflexivity).
  rewrite forallb_forall in Hall. apply Hall. apply list_elem_of_In, list_elem_of_fmap.
  exists (Z.to_nat d). split; [lia|]. apply elem_of_seq. lia.
Qed.

Lemma Lexes_kind k s ks :
  kind_prints k = true -> stops s = true -> Lexes s ks ->
  Lexes (format_schedule_line k +:+ s) (kind_toks k ++ ks).
Proof.
  intros Hk Hs Hl. destruct k as [count unit|t|days t|ords t|v|]; cbn [kind_prints] in Hk.
  - cbn [format_schedule_line kind_toks]. unfold interval_phrase. b2p. assoc.
    apply (Lexes_keyword "every"); [done|]. apply Lexes_keyword; [by apply show_uint_bare|].
    rewrite str_app_assoc. apply Lexes_word; [apply unit_word_bare|done|done].
  - cbn [format_schedule_line kind_toks]. assoc.
    apply (Lexes_keyword "every"), (Lexes_keyword "day"), (Lexes_keyword "at"); [done..|].
    by apply Lexes_word; [apply time_ok_bare|..].
  - cbn [format_schedule_line kind_toks]. b2p.
    destruct (weekday_list_args days) as [Ew Ha]; [by eapply bool_decide_eq_false_1|].
    change (Lexes ("every" +:+ " " +:+ (format_weekday_list days +:+ " at " +:+ tv_raw t) +:+ s)
              (Ident "every" :: (args_toks (weekday_values days) ++ [Ident "at"; Ident (tv_raw t)]) ++ ks)).
    assoc. rewrite (str_app_assoc " "), Ew, <- app_assoc.
    assert (Lexes (" at " +:+ tv_raw t +:+ s) (Ident "at" :: Ident (tv_raw t) :: ks)) as Hat.
    { apply (Lexes_space ("at" +:+ " " +:+ tv_raw t +:+ s)). apply Lexes_keyword; [done|].
      by apply Lexes_word; [apply time_ok_bare|..]. }
    destruct (Lexes_args (weekday_values days) (" at " +:+ tv_raw t +:+ s) _ Ha eq_refl Hat)
      as [Hargs Hstop].
    by apply Lexes_word.
  - cbn [format_schedule_line kind_toks]. rewrite !andb_true_iff in Hk. destruct Hk as [[Hne Ho] Ht].
    apply negb_true_iff, bool_decide_eq_false_1 in Hne.
    assert (forallb bare_word (map format_month_ordinal ords) = true) as Hb.
    { clear Hne. induction ords as [|o ords IH]; [done|]. cbn [forallb map] in *. b2p.
      split; [by apply ordinal_bare|by apply IH]. }
    change (Lexes ("every" +:+ " " +:+ (str_join " " (map format_month_ordinal ords)
                     +:+ " of month at " +:+ tv_raw t) +:+ s)
              (Ident "every" :: (map Ident (map format_month_ordinal ords)
                 ++ [Ident "of"; Ident "month"; Ident "at"; Ident (tv_raw t)]) ++ ks)).
    assoc. rewrite (str_app_assoc " "), join_args by (by destruct ords).
    rewrite <- args_toks_plain, <- app_assoc by done.
    assert (Lexes (" of month at " +:+ tv_raw t +:+ s)
              (Ident "of" :: Ident "month" :: Ident "at" :: Ident (tv_raw t) :: ks)) as Hat.
    { apply (Lexes_space ("of" +:+ " " +:+ "month" +:+ " " +:+ "at" +:+ " " +:+ tv_raw t +:+ s)).
      do 3 (apply Lexes_keyword; [done|]). by apply Lexes_word; [apply time_ok_bare|..]. }
    destruct (Lexes_args (map plain_value (map format_month_ordinal ords))
                (" of month at " +:+ tv_raw t +:+ s) _ (plain_args_ok _ Hb) eq_refl Hat)
      as [Hargs Hstop].
    by apply Lexes_word.
  - cbn [format_schedule_line kind_toks]. assoc.
    apply (Lexes_keyword "once"), (Lexes_keyword "at"); [done..|].
    apply Lexes_value; [by apply value_ok_arg|done|done].
  - by apply (Lexes_word "disabled").
Qed.

Definition schedule_ok (n : ScheduleNode) : bool :=
  kind_prints (sched_kind n) && forallb directive_ok (sched_options n)
  && match sched_kind n with
     | KOnce _ | KDisabled => bool_decide (sched_options n = [])
     | _ => true
     end.

Definition mode_toks (m : option ScheduleMode) : list TokenKind :=
  match m with
  | Some MEphemeral => [Ident "ephemeral"]
  | Some MQueued => [Ident "queued"]
  | None => []
  end.

Definition options_toks (options : list Directive) : list TokenKind :=
  match options with
  | [] => []
  | _ => LBrace :: Newline :: directives_toks options ++ [RBrace]
  end.

Definition schedule_toks (n : ScheduleNode) : list TokenKind :=
  mode_toks (sched_mode n) ++ kind_toks (sched_kind n) ++ options_toks (sched_options n) ++ [Newline].

Lemma line_solid k s : solid (format_schedule_line k +:+ s) = true.
Proof. by destruct k. Qed.

Lemma LexLine_schedule n i s ks :
  schedule_ok n = true -> LexLine s ks ->
  LexLine (format_schedule n i +:+ s) (schedule_toks n ++ ks).
Proof.
  destruct n as [k m opts]. unfold schedule_ok, schedule_toks, format_schedule.
  cbn [sched_kind sched_mode sched_options]. rewrite !andb_true_iff. intros [[Hk Ho] _] Hl.
  assoc. rewrite <- !app_assoc. apply LexLine_indent.
  assert (Lexes (format_schedule_line k +:+ format_options opts i +:+ s)
            (kind_toks k ++ options_toks opts ++ [Newline] ++ ks)) as Hline.
  { apply Lexes_kind; [done|by destruct opts|]. destruct opts as [|d opts].
    { by apply Lexes_nl. }
    unfold format_options. rewrite bool_decide_eq_false_2 by done. cbn [options_toks]. rewrite <- !app_comm_cons, <- !app_assoc. assoc.
    apply Lexes_open_line, LexLine_directives; [done|]. by apply LexLine_close. }
  destruct m as [[]|]; cbn [mode_toks mode_prefix].
  - apply LexLine_solid; [done|]. apply (Lexes_keyword "queued"); [done|exact Hline].
  - apply LexLine_solid; [done|]. apply (Lexes_keyword "ephemeral"); [done|exact Hline].
  - apply LexLine_solid; [apply line_solid|]. by rewrite str_app_empty.
Qed.

(** ** Calendar rules *)

Definition tok_of (v : StringValue) : TokenKind := hd_tok (value_toks v).

(** An argument that neither begins the next rule nor, in a [weekly] rule,
    stands for several days. *)
Definition rule_arg_ok (lower : string) (v : StringValue) : bool :=
  value_ok v && negb (starts_rule (tok_of v))
  && (negb (String.eqb lower "weekly") || sv_is_placeholder v
      || bool_decide (AstWeekday.parse_group (sv_value v) = None)).

Definition dots_after_ok (v : StringValue) : bool :=
  sv_is_placeholder v || sv_quoted v || negb (ends_in_dot (sv_value v)).

Definition rule_ok (r : AstCalendarRule) : bool :=
  let lower := to_ascii_lowercase (sv_value (ar_type r)) in
  value_ok (ar_type r) &&
  if String.eqb lower "timezone" then
    String.eqb (sv_value (ar_type r)) "timezone" && bool_decide (ar_kind r = Include)
    && match ar_args r with [tz] => value_ok tz | _ => false end
  else
    forallb (rule_arg_ok lower) (ar_args r)
    && match ar_args r with
       | [a; _] => negb (String.eqb lower "window") || dots_after_ok a
       | _ => true
       end.

(** The arguments as written after the rule type. *)
Definition rule_args_toks (r : AstCalendarRule) : list TokenKind :=
  let lower := to_ascii_lowercase (sv_value (ar_type r)) in
  match (if String.eqb lower "weekly" then weekly_days (ar_args r) else None) with
  | Some days => args_toks (weekday_values days)
  | None =>
      match ar_args r with
      | [a; b] => if String.eqb lower "window" then value_toks a ++ DotDot :: value_toks b
                  else args_toks [a; b]
      | args => args_toks args
      end
  end.

Definition rule_toks (r : AstCalendarRule) : list TokenKind :=
  if String.eqb (to_ascii_lowercase (sv_value (ar_type r))) "timezone" then
    value_toks (ar_type r) ++ args_toks (ar_args r)
  else Ident (kind_word (ar_kind r)) :: value_toks (ar_type r) ++ rule_args_toks r.

Lemma rule_args_values lower args : forallb (rule_arg_ok lower) args = true -> forallb arg_ok args = true.
Proof.
  induction args as [|a args IH]; [done|]. cbn [forallb]. intros H. b2p. split; [|by apply IH].
  apply value_ok_arg. unfold rule_arg_ok in *. by b2p.
Qed.

Lemma Lexes_range a b s ks :
  value_ok a = true -> dots_after_ok a = true -> value_ok b = true -> stops s = true -> Lexes s ks ->
  Lexes (format_string_value a +:+ ".." +:+ format_string_value b +:+ s)
    ((value_toks a ++ DotDot :: value_toks b) ++ ks).
Proof.
  intros Ha Hd Hb Hs Hl. rewrite <- app_assoc, <- app_comm_cons.
  assert (Lexes (".." +:+ format_string_value b +:+ s) (DotDot :: value_toks b ++ ks)) as Hdots.
  { apply (Lexes_step _ _ (format_string_value b +:+ s)); [apply Next_dots|done|].
    apply Lexes_value; [by apply value_ok_arg|done|done]. }
  destruct a as [w q p]. unfold value_ok, dots_after_ok, value_toks, format_string_value in *. cbn in *.
  destruct p; cbn in *.
  { b2p. assoc. eapply Lexes_step; [by apply Next_placeholder|done|done]. }
  destruct q; cbn in *.
  { eapply Lexes_step; [apply Next_quoted|done|done]. }
  rewrite bare_word_no_range by done. apply negb_true_iff in Hd.
  eapply Lexes_step; [by apply Next_before_dots|done|done].
Qed.

Lemma weekly_days_nonempty args days : weekly_days args = Some days -> days <> [].
Proof. unfold weekly_days. destruct (mapM _ args) as [[|d l]|]; [done| |done]. by intros [= <-]. Qed.

Lemma Lexes_rule r s ks :
  rule_ok r = true -> stops s = true -> Lexes s ks ->
  Lexes (format_calendar_rule_line r +:+ s) (rule_toks r ++ ks)
  /\ solid (format_calendar_rule_line r +:+ s) = true.
Proof.
  unfold rule_ok, format_calendar_rule_line, rule_toks, rule_args_toks.
  destruct r as [kind ty args]. cbn [ar_kind ar_type ar_args].
  set (lower := to_ascii_lowercase (sv_value ty)). intros Hr Hs Hl.
  apply andb_true_iff in Hr as [Hty Hr]. destruct (String.eqb lower "timezone").
  { rewrite !andb_true_iff in Hr. destruct Hr as [_ Hargs]. destruct args as [|tz [|]]; [done| |done].
    assoc. split; [|by apply value_solid, value_ok_arg]. rewrite <- app_assoc.
    destruct (Lexes_args [tz] s ks) as [Ha Hst]; [|done..|].
    { cbn [forallb]. by rewrite value_ok_arg. }
    apply Lexes_value; [by apply value_ok_arg|done|done]. }
  apply andb_true_iff in Hr as [Hargs Hwin]. apply rule_args_values in Hargs as Hvals.
  match goal with |- Lexes ((_ +:+ _ +:+ _ +:+ ?t) +:+ _) ((_ :: _ ++ ?ts) ++ _) /\ _ =>
    assert (Lexes (t +:+ s) (ts ++ ks) /\ stops (t +:+ s) = true) as [Htail Hstop] end.
  { destruct (if String.eqb lower "weekly" then weekly_days args else None) as [days|] eqn:Ed.
    { destruct (String.eqb lower "weekly"); [|done].
      destruct (weekday_list_args days) as [Ew Ha]; [by eapply weekly_days_nonempty|].
      rewrite Ew. by apply Lexes_args. }
    destruct args as [|a [|b [|c args]]]; try by apply Lexes_args.
    destruct (String.eqb lower "window"); [|by apply Lexes_args].
    cbn [forallb negb orb] in *. unfold rule_arg_ok in Hargs. rewrite !andb_true_iff in Hargs. assoc.
    split; [|done]. apply Lexes_space, Lexes_range; naive_solver. }
  assoc. split.
  - rewrite <- app_comm_cons, <- app_assoc.
    apply Lexes_keyword; [by destruct kind|]. apply Lexes_value; [by apply value_ok_arg|done|done].
  - by destruct kind.
Qed.

Definition rules_toks (rs : list AstCalendarRule) : list TokenKind :=
  concat (map (fun r => rule_toks r ++ [Newline]) rs).

Lemma LexLine_rules rs i s ks :
  forallb rule_ok rs = true -> LexLine s ks ->
  LexLine (String.concat "" (map (format_calendar_rule i) rs) +:+ s) (rules_toks rs ++ ks).
Proof.
  unfold rules_toks. intros Ho Hl. induction rs as [|r rs IH]; [done|]. cbn [forallb] in Ho. b2p.
  cbn [map concat]. rewrite concat_cons, <- !app_assoc. unfold format_calendar_rule at 1. assoc.
  destruct (Lexes_rule r (nl +:+ String.concat "" (map (format_calendar_rule i) rs) +:+ s)
              (Newline :: rules_toks rs ++ ks)) as [H1 H2]; [done|done| |].
  { apply Lexes_nl. by apply IH. }
  by apply LexLine_indent, LexLine_solid.
Qed.

(** ** Jobs *)

(** How deep the blocks of an element nest. *)
Fixpoint height (x : DirectiveOrBlock) : nat :=
  match x with
  | DBlock b => block_height b
  | _ => O
  end
with block_height (b : NamedBlock) : nat :=
  match b with
  | MkBlock _ _ ds =>
      S ((fix go l := match l with [] => O | x :: l => max (height x) (go l) end) ds)
  end.

Definition first_tok (x : DirectiveOrBlock) : TokenKind := hd_tok (dob_toks x).

Definition key_tok (raw : string) : TokenKind :=
  if all_bytes is_ident_char raw then Ident raw else QuotedString raw.

(** The key is written so that it reads back as one token. *)
Definition key_ok (k : JobKey) : bool :=
  bool_decide (job_key_of (key_raw k) = Some k)
  && (bare_word (key_raw k) || negb (all_bytes is_ident_char (key_raw k))).

Definition job_ok (j : JobBlock) : bool :=
  key_ok (jb_key j)
  && forallb dob_ok (jb_directives j)
  && forallb (fun x => Nat.leb (height x) MAX_BLOCK_DEPTH) (jb_directives j)
  && match jb_schedule j with
     | Some n => schedule_ok n
     | None => forallb (fun x => negb (is_schedule_start (first_tok x))) (jb_directives j)
     end.

Definition job_toks (j : JobBlock) : list TokenKind :=
  let '(description, others) := split_description (jb_directives j) in
  Ident "job" :: key_tok (key_raw (jb_key j)) :: LBrace :: Newline ::
  match description with Some d => dob_toks d | None => [] end
  ++ match jb_schedule j with Some n => schedule_toks n | None => [] end
  ++ dobs_toks others ++ [RBrace; Newline].

Lemma Lexes_key k s ks :
  key_ok k = true -> stops s = true -> Lexes s ks ->
  Lexes (format_job_key (key_raw k) +:+ s) (key_tok (key_raw k) :: ks).
Proof.
  unfold key_ok, format_job_key, key_tok. intros Hk Hs Hl.
  apply andb_true_iff in Hk as [_ Hk]. destruct (all_bytes is_ident_char (key_raw k)).
  - rewrite orb_false_r in Hk. by apply Lexes_word.
  - eapply Lexes_step; [apply Next_quoted|done|done].
Qed.

Lemma split_description_spec ds :
  match split_description ds with
  | (Some d, others) => exists pre post, ds = pre ++ d :: post /\ others = pre ++ post
                        /\ is_description d = true /\ forallb (fun x => negb (is_description x)) pre = true
  | (None, others) => others = ds /\ forallb (fun x => negb (is_description x)) ds = true
  end.
Proof.
  induction ds as [|x ds IH]; cbn [split_description]; [done|].
  destruct (is_description x) eqn:E.
  { by exists [], ds. }
  destruct (split_description ds) as [[d|] others].
  - destruct IH as (pre & post & -> & -> & Hd & Hp). exists (x :: pre), post. cbn. by rewrite E.
  - destruct IH as [-> H]. cbn. by rewrite E.
Qed.

Lemma forallb_split_description Q ds d others :
  forallb Q ds = true -> split_description ds = (d, others) ->
  match d with Some d => Q d = true | None => True end /\ forallb Q others = true.
Proof.
  intros HQ E. pose proof (split_description_spec ds) as H. rewrite E in H. destruct d as [d|].
  - destruct H as (pre & post & -> & -> & _ & _). rewrite forallb_app in *. cbn in HQ.
    rewrite !andb_true_iff in *. naive_solver.
  - by destruct H as [-> _].
Qed.

Lemma LexLine_job j s ks :
  job_ok j = true -> LexLine s ks -> LexLine (format_job j 0 +:+ s) (job_toks j ++ ks).
Proof.
  unfold job_ok, format_job, job_toks. rewrite !andb_true_iff. intros [[[Hk Hd] _] Hsch] Hl.
  destruct (split_description (jb_directives j)) as [d others] eqn:E.
  destruct (forallb_split_description _ _ _ _ Hd E) as [Hdesc Hoth].
  assoc. apply LexLine_solid; [done|]. rewrite <- !app_comm_cons.
  apply (Lexes_keyword "job"); [done|]. apply Lexes_key; [done|done|]. apply Lexes_open_line.
  rewrite <- !app_assoc.
  assert (LexLine (match jb_schedule j with Some n => format_schedule n 1 | None => "" end
                   +:+ format_directives_or_blocks others 1 +:+ "}" +:+ nl +:+ s)
            (match jb_schedule j with Some n => schedule_toks n | None => [] end
             ++ dobs_toks others ++ [RBrace; Newline] ++ ks)) as Hrest.
  { assert (LexLine (format_directives_or_blocks others 1 +:+ "}" +:+ nl +:+ s)
              (dobs_toks others ++ [RBrace; Newline] ++ ks)) as Hbody.
    { apply LexLine_dobs; [done|]. by apply (LexLine_close 0). }
    destruct (jb_schedule j) as [n|]; [|done]. by apply LexLine_schedule. }
  destruct d as [d|]; [|done]. assoc. apply LexLine_dob; [done|]. by apply LexLine_nl.
Qed.

(** ** Items and files *)

Definition item_ok (i : Item) : bool :=
  match i with
  | IComment t => comment_ok t
  | IImport path => value_ok path
  | IServer ds | ISmtp ds | IPullApi ds | IMcp ds | IOidc ds | IPolicy ds | IVars ds =>
      forallb directive_ok ds
  | IAuth bs | IObservability bs =>
      forallb (fun b => block_ok b && bool_decide (block_qualifier b = None)
                        && Nat.leb (block_height b) MAX_BLOCK_DEPTH) bs
  | IAlerts bs =>
      forallb (fun b => block_ok b && bool_decide (block_qualifier b <> None)
                        && Nat.leb (block_height b) MAX_BLOCK_DEPTH) bs
  | IDefaults ds =>
      forallb dob_ok ds && forallb (fun x => Nat.ltb (height x) MAX_BLOCK_DEPTH) ds
  | ICalendar name rules => value_ok name && forallb rule_ok rules
  | IConcurrencyGroup name ds => value_ok name && forallb directive_ok ds
  | IJob j => job_ok j
  end.

(** A file whose formatted text reads back as the same file. *)
Definition printable (ast : Croniqfile) : bool := forallb item_ok ast.

Definition braced_toks (head body : list TokenKind) : list TokenKind :=
  head ++ LBrace :: Newline :: body ++ [RBrace; Newline].

Definition item_toks (i : Item) : list TokenKind :=
  match i with
  | IComment t => [Comment t; Newline]
  | IImport path => Ident "import" :: value_toks path ++ [Newline]
  | IServer ds => braced_toks [Ident "server"] (directives_toks ds)
  | ISmtp ds => braced_toks [Ident "smtp"] (directives_toks ds)
  | IPullApi ds => braced_toks [Ident "pull_api"] (directives_toks ds)
  | IMcp ds => braced_toks [Ident "mcp"] (directives_toks ds)
  | IOidc ds => braced_toks [Ident "oidc"] (directives_toks ds)
  | IPolicy ds => braced_toks [Ident "policy"] (directives_toks ds)
  | IVars ds => braced_toks [Ident "vars"] (directives_toks ds)
  | IAuth bs => braced_toks [Ident "auth"] (sub_blocks_toks bs)
  | IAlerts bs => braced_toks [Ident "alerts"] (sub_blocks_toks bs)
  | IObservability bs => braced_toks [Ident "observability"] (sub_blocks_toks bs)
  | IDefaults ds => braced_toks [Ident "defaults"] (dobs_toks ds)
  | ICalendar name rules => braced_toks (Ident "calendar" :: value_toks name) (rules_toks rules)
  | IConcurrencyGroup name ds =>
      braced_toks (Ident "concurrency_group" :: value_toks name) (directives_toks ds)
  | IJob j => job_toks j
  end.

(** A block whose head is one keyword, or a keyword and a name. *)
Lemma Lexes_braced w body bs s ks :
  bare_word w = true -> LexLine (body +:+ "}" +:+ nl +:+ s) (bs ++ RBrace :: Newline :: ks) ->
  Lexes (format_braced w body +:+ s) (braced_toks [Ident w] bs ++ ks).
Proof.
  intros Hw Hb. unfold format_braced, braced_toks. assoc. cbn [app]. rewrite <- app_assoc. cbn [app].
  apply Lexes_word; [done|done|]. by apply Lexes_open_line.
Qed.

Lemma Lexes_braced_named w v body bs s ks :
  bare_word w = true -> value_ok v = true ->
  LexLine (body +:+ "}" +:+ nl +:+ s) (bs ++ RBrace :: Newline :: ks) ->
  Lexes (format_braced (w +:+ " " +:+ format_string_value v) body +:+ s)
    (braced_toks (Ident w :: value_toks v) bs ++ ks).
Proof.
  intros Hw Hv Hb. unfold format_braced, braced_toks. assoc. cbn [app]. rewrite <- app_assoc. cbn [app].
  rewrite <- app_assoc. cbn [app]. apply Lexes_keyword; [done|].
  apply Lexes_value; [by apply value_ok_arg|done|]. by apply Lexes_open_line.
Qed.

Lemma forallb_and3 {A} (P Q R : A -> bool) l :
  forallb (fun x => P x && Q x && R x) l = true -> forallb P l = true.
Proof.
  induction l as [|x l IH]; [done|]. cbn [forallb]. rewrite !andb_true_iff. naive_solver.
Qed.

Lemma item_solid i s : item_ok i = true -> solid (format_item i 0 +:+ s) = true.
Proof.
  destruct i; try done. cbn [format_item]. unfold format_job.
  by destruct (split_description (jb_directives job)).
Qed.

Lemma LexLine_item i s ks :
  item_ok i = true -> LexLine s ks -> LexLine (format_item i 0 +:+ s) (item_toks i ++ ks).
Proof.
  intros Hi Hl. pose proof (LexLine_close 0 s ks Hl) as Hc.
  destruct i as [path|ds|ds|ds|bs|ds|ds|bs|ds|bs|ds|ds|name rules|name ds|j|t];
    cbn [item_ok] in Hi; cbn [format_item item_toks];
    try (apply LexLine_solid; [done|]; apply Lexes_braced; [done|]);
    try (by apply LexLine_directives);
    try (apply LexLine_sub_blocks; [exact (forallb_and3 _ _ _ _ Hi)|done]).
  - apply LexLine_solid; [done|]. assoc. rewrite <- app_comm_cons, <- app_assoc.
    apply (Lexes_keyword "import"); [done|].
    apply Lexes_value; [by apply value_ok_arg|done|]. by apply Lexes_nl.
  - b2p. by apply LexLine_dobs.
  - b2p. apply LexLine_solid; [done|]. apply (Lexes_braced_named "calendar"); [done..|].
    by apply LexLine_rules.
  - b2p. apply LexLine_solid; [done|]. apply (Lexes_braced_named "concurrency_group"); [done..|].
    by apply LexLine_directives.
  - by apply LexLine_job.
  - assoc. by apply (LexLine_comment 0).
Qed.

Definition file_toks (ast : Croniqfile) : list TokenKind := concat (map item_toks ast).

Lemma LexLine_items ast first s ks :
  printable ast = true -> LexLine s ks ->
  LexLine (format_items first ast +:+ s) (file_toks ast ++ ks).
Proof.
  unfold printable, file_toks. revert first. induction ast as [|i ast IH]; intros first Ho Hl; [done|].
  cbn [forallb] in Ho. b2p. cbn [format_items map concat]. rewrite <- app_assoc. assoc.
  assert (LexLine (format_item i 0 +:+ format_items false ast +:+ s)
            (item_toks i ++ concat (map item_toks ast) ++ ks)).
  { apply LexLine_item; [done|]. by apply IH. }
  destruct (negb first && negb (is_comment_item i)); [by apply LexLine_nl|done].
Qed.

(** The tokens of a formatted file. *)
Lemma Lexes_format ast :
  printable ast = true ->
  Lexes (format ast) (match ast with [] => [Newline] | _ => file_toks ast end ++ [Eof]).
Proof.
  intros Ho. unfold format. destruct ast as [|i ast]; [apply Lexes_nl, LexLine_eof|].
  assert (forall s, LexLine s [Eof] -> Lexes (format_items true (i :: ast) +:+ s)
            (file_toks (i :: ast) ++ [Eof])) as H.
  { intros s Hs. pose proof (LexLine_items (i :: ast) true s [Eof] Ho Hs) as H. unfold LexLine in H.
    rewrite skip_blank_solid in H; [done|]. cbn [format_items negb andb]. rewrite str_app_empty. assoc.
    apply item_solid. unfold printable in Ho. cbn in Ho. by b2p. }
  destruct (ends_with nl (format_items true (i :: ast))).
  - rewrite <- (str_app_nil (format_items true (i :: ast))). apply H, LexLine_eof.
  - apply H. apply (LexLine_nl ""), LexLine_eof.
Qed.
