(* ===== verification/FormatParse.v ===== *)
(** * Parsing the tokens of a formatted file

    For each node, the parser reads its tokens back as its normal form: a list
    of weekdays is sorted, without duplicates, and the description of a job
    comes first; everything else is unchanged. *)

From S2P Require Import Prelude RustStr Ast Lexer Parser Format LexFacts FormatTokens ItemTokens.

Local Open Scope Z_scope.

(** ** Steps of the parser *)

Lemma p_bind_ok {A B} (m : P A) (k : A -> P B) ts a ts' :
  m ts = Ok (a, ts') -> p_bind m k ts = k a ts'.
Proof. unfold p_bind. by intros ->. Qed.

Lemma advance_cons t ts : ts <> [] -> advance (t :: ts) = Ok (tt, ts).
Proof. by destruct ts. Qed.

Lemma hd_cons k ts : hd_tok (k :: ts) = k.
Proof. reflexivity. Qed.

Lemma peek_bind {B} (k : TokenKind -> P B) ts : p_bind peek k ts = k (hd_tok ts) ts.
Proof. reflexivity. Qed.
Lemma skip_newlines_bind {B} (k : () -> P B) ts :
  p_bind skip_newlines k ts = k tt (drop_newlines ts).
Proof. reflexivity. Qed.
Lemma skip_terminators_bind {B} (k : () -> P B) ts :
  p_bind skip_terminators k ts = k tt (drop_terminators ts).
Proof. reflexivity. Qed.
Lemma ret_bind {A B} (a : A) (k : A -> P B) ts : p_bind (p_ret a) k ts = k a ts.
Proof. reflexivity. Qed.
Lemma advance_bind {B} (k : () -> P B) t ts : ts <> [] -> p_bind advance k (t :: ts) = k tt ts.
Proof. intros H. by rewrite (p_bind_ok _ _ _ _ _ (advance_cons t ts H)). Qed.

Lemma app_ne {A} (l l' : list A) : l' <> [] -> l ++ l' <> [].
Proof. by destruct l, l'. Qed.

(** What may follow the words of a directive, and a finished line. *)
Definition ends (ts : list TokenKind) : bool :=
  match hd_tok ts with
  | Newline | Semicolon | RBrace | Eof => true
  | _ => false
  end.
Definition calm (ts : list TokenKind) : bool := negb (is_terminator (hd_tok ts)).

Lemma drop_newlines_calm ts : calm ts = true -> drop_newlines ts = ts.
Proof. by destruct ts as [|[] ts]. Qed.
Lemma drop_terminators_calm ts : calm ts = true -> drop_terminators ts = ts.
Proof. by destruct ts as [|[] ts]. Qed.

Lemma value_not_at_close k v : value_of k = Some v ->
  is_value k = true /\ at_close k = false /\ is_comment k = false /\ is_terminator k = false
  /\ k <> LBrace /\ k <> DotDot /\ k <> Semicolon /\ k <> Newline /\ k <> Eof.
Proof. unfold is_value. intros H. rewrite H. by destruct k. Qed.

Lemma read_value v ts :
  value_ok v = true -> ts <> [] -> read_string_value (value_toks v ++ ts) = Ok (v, ts).
Proof.
  intros Hv Hts. destruct (value_ok_single v Hv) as (k & -> & Hk). unfold read_string_value.
  cbn [app]. rewrite peek_bind. rewrite hd_cons. rewrite Hk, advance_bind by done. done.
Qed.

Lemma read_tok k v ts : value_of k = Some v -> ts <> [] -> read_string_value (k :: ts) = Ok (v, ts).
Proof.
  intros Hk Hts. unfold read_string_value. rewrite peek_bind. rewrite hd_cons.
  by rewrite Hk, advance_bind.
Qed.

(** ** Directives *)

(** The tokens of an argument: one value, or a range. *)
Lemma arg_toks_cases v :
  arg_ok v = true ->
  (exists k, value_toks v = [k] /\ value_of k = Some v)
  \/ (exists a b, value_toks v = [Ident a; DotDot; Ident b] /\ v = plain_value (a +:+ ".." +:+ b)).
Proof.
  unfold arg_ok. intros H. apply orb_true_iff in H as [H|H]; [left; by apply value_ok_single|].
  destruct v as [w q p]. cbn in H. rewrite !andb_true_iff in H. destruct H as [[Hp Hq] Hr].
  destruct p, q; try done. unfold value_toks. cbn. unfold bare_range in Hr.
  destruct (split_range w) as [[a b]|] eqn:E; [|done]. apply split_range_join in E as ->. right.
  by exists a, b.
Qed.

Lemma args_hd args ts :
  forallb arg_ok args = true -> ends ts = true ->
  hd_tok (args_toks args ++ ts) <> DotDot /\ hd_tok (args_toks args ++ ts) <> LBrace.
Proof.
  destruct args as [|a args]; cbn [forallb].
  { intros _ H. unfold args_toks. cbn. by destruct ts as [|[] ts]. }
  intros H Hts. b2p. unfold args_toks. cbn [map concat].
  destruct (arg_toks_cases a) as [(k & -> & Hk)|(x & y & -> & _)]; [done| |done].
  by destruct (value_not_at_close k a Hk) as (_ & _ & _ & _ & ? & ? & _).
Qed.

Lemma args_toks_length args : forallb arg_ok args = true -> (length args <= length (args_toks args))%nat.
Proof.
  unfold args_toks. induction args as [|a args IH]; [done|]. cbn [forallb map concat]. intros H. b2p.
  rewrite length_app. cbn [length].
  destruct (arg_toks_cases a) as [(k & -> & Hk)|(x & y & -> & _)]; [done| |]; cbn [length];
    specialize (IH ltac:(done)); lia.
Qed.

Lemma parse_args args ts steps :
  forallb arg_ok args = true -> ends ts = true -> ts <> [] -> (length args < steps)%nat ->
  directive_args steps (args_toks args ++ ts) = Ok (args, ts).
Proof.
  intros Ha He Hts. revert steps. induction args as [|a args IH]; intros [|steps] Hst; try (cbn in Hst; lia).
  - cbn [directive_args]. unfold args_toks. cbn [map concat app]. rewrite peek_bind.
    by destruct ts as [|[] ts].
  - cbn [forallb] in Ha. b2p. cbn [directive_args]. rewrite peek_bind.
    assert (args_toks (a :: args) ++ ts = value_toks a ++ args_toks args ++ ts) as ->
      by (unfold args_toks; cbn [map concat]; by rewrite app_assoc).
    cbn [length] in Hst. specialize (IH ltac:(done) steps ltac:(lia)).
    destruct (args_hd args ts) as [Hd _]; [done..|].
    assert (args_toks args ++ ts <> []) as Hne by by apply app_ne.
    destruct (arg_toks_cases a) as [(k & -> & Hk)|(x & y & -> & ->)]; [done| |]; cbn [app]; rewrite ?hd_cons.
    + destruct (value_not_at_close k a Hk) as (-> & _).
      rewrite (p_bind_ok _ _ _ _ _ (read_tok k a _ Hk Hne)), peek_bind.
      rewrite decide_False by done. rewrite ret_bind. by rewrite (p_bind_ok _ _ _ _ _ IH).
    + change (is_value (Ident x)) with true. cbv iota.
      rewrite (p_bind_ok _ _ _ _ _ (read_tok (Ident x) (plain_value x) (DotDot :: Ident y :: _) eq_refl ltac:(done))).
      rewrite peek_bind. rewrite hd_cons. rewrite decide_True by done.
      unfold p_bind at 1. rewrite advance_bind by done.
      rewrite (p_bind_ok _ _ _ _ _ (read_tok (Ident y) (plain_value y) _ eq_refl Hne)).
      cbn [p_ret]. by rewrite (p_bind_ok _ _ _ _ _ IH).
Qed.

Lemma parse_directive_toks d ts :
  directive_ok d = true -> ends ts = true -> ts <> [] ->
  parse_directive (directive_toks d ++ ts) = Ok (d, drop_terminators ts).
Proof.
  unfold directive_ok, directive_toks. intros Hd He Hts. b2p. rewrite <- app_assoc.
  unfold parse_directive.
  rewrite (p_bind_ok _ _ _ _ _ (read_value (dir_key d) _ ltac:(done) (app_ne _ _ Hts))).
  assert (p_loop directive_args (args_toks (dir_args d) ++ ts) = Ok (dir_args d, ts)) as E.
  { apply parse_args; [done..|]. rewrite length_app.
    pose proof (args_toks_length (dir_args d) ltac:(done)). lia. }
  rewrite (p_bind_ok _ _ _ _ _ E), skip_terminators_bind. by destruct d.
Qed.

(** ** Bodies *)

(** A token an element of a body begins with. *)
Definition starts (ts : list TokenKind) : bool := is_value (hd_tok ts) || is_comment (hd_tok ts).

Lemma starts_app ts ts' : starts ts = true -> starts (ts ++ ts') = true.
Proof. by destruct ts. Qed.
Lemma starts_calm ts : starts ts = true ->
  calm ts = true /\ at_close (hd_tok ts) = false /\ hd_tok ts <> Semicolon /\ hd_tok ts <> Newline.
Proof. by destruct ts as [|[] ts]. Qed.

Lemma value_toks_starts v ts : arg_ok v = true -> starts (value_toks v ++ ts) = true.
Proof.
  intros H. destruct (arg_toks_cases v H) as [(k & -> & Hk)|(x & y & -> & _)]; [|done].
  cbn. unfold starts. cbn. by destruct (value_not_at_close k v Hk) as (-> & _).
Qed.

Lemma body_loop_skip {A} (one : P (option A)) n ts ts' :
  drop_newlines ts = drop_newlines ts' -> body_loop one (S n) ts = body_loop one (S n) ts'.
Proof. intros H. cbn [body_loop]. rewrite !skip_newlines_bind. by rewrite H. Qed.

Lemma body_loop_close {A} (one : P (option A)) n ts :
  body_loop one (S n) (RBrace :: ts) = Ok ([], RBrace :: ts).
Proof. reflexivity. Qed.

(** A body of elements, each written as [f x] and read as [g x]. *)
Section Bodies.
  Context {A B : Type} (one : P (option B)) (f : A -> list TokenKind) (g : A -> B).
Variable Q : A -> Prop.
Hypothesis f_starts : forall x, Q x -> starts (f x) = true.
Hypothesis one_reads : forall x ts, Q x -> calm ts = true -> ts <> [] ->
  exists rest, one (f x ++ ts) = Ok (Some (g x), rest) /\ drop_newlines rest = ts.

Lemma body_toks_calm xs ts : Forall Q xs -> calm (concat (map f xs) ++ RBrace :: ts) = true.
Proof.
  intros H. destruct H as [|x xs Hx _]; [done|]. cbn [map concat]. rewrite <- app_assoc.
  by apply starts_calm, starts_app, f_starts.
Qed.

Lemma body_loop_reads xs ts steps :
  Forall Q xs -> (length xs < steps)%nat ->
  body_loop one steps (concat (map f xs) ++ RBrace :: ts) = Ok (map g xs, RBrace :: ts).
Proof.
  intros Hxs. revert steps. induction Hxs as [|x xs Hx Hxs IH]; intros [|steps] Hst; try (cbn in Hst; lia).
  { apply body_loop_close. }
  cbn [map concat length] in *. rewrite <- app_assoc. set (tail := concat (map f xs) ++ RBrace :: ts).
  destruct (starts_calm (f x ++ tail)) as (Hc & Hac & _); [by apply starts_app, f_starts|].
  destruct (one_reads x tail Hx (body_toks_calm xs ts Hxs)) as (rest & E & Hrest); [by apply app_ne|].
  cbn [body_loop]. rewrite skip_newlines_bind, drop_newlines_calm by done. rewrite peek_bind, Hac.
  rewrite (p_bind_ok _ _ _ _ _ E). destruct steps as [|steps]; [lia|].
  rewrite (p_bind_ok _ _ _ (map g xs) (RBrace :: ts)); [done|].
  rewrite (body_loop_skip _ _ rest tail); [apply IH; lia|].
  rewrite Hrest, drop_newlines_calm; [done|]. by apply body_toks_calm.
Qed.

Lemma body_toks_length xs : Forall Q xs -> (length xs <= length (concat (map f xs)))%nat.
Proof.
  induction 1 as [|x xs Hx _ IH]; [done|]. cbn [map concat length]. rewrite length_app.
  pose proof (f_starts x Hx) as Hs. destruct (f x); [done|]. cbn [length]. lia.
Qed.

Lemma body_reads xs ts :
  Forall Q xs ->
  p_loop (body_loop one) (concat (map f xs) ++ RBrace :: ts) = Ok (map g xs, RBrace :: ts).
Proof.
  intros H. apply body_loop_reads; [done|]. rewrite length_app.
  pose proof (body_toks_length xs H). lia.
Qed.

(** The same when the body starts on a new line. *)
Lemma body_reads_line xs ts :
  Forall Q xs ->
  p_loop (body_loop one) (Newline :: concat (map f xs) ++ RBrace :: ts) = Ok (map g xs, RBrace :: ts).
Proof.
  intros H. unfold p_loop. rewrite (body_loop_skip _ _ _ (concat (map f xs) ++ RBrace :: ts)) by done.
  apply body_loop_reads; [done|]. cbn [length]. rewrite length_app.
  pose proof (body_toks_length xs H). lia.
Qed.
End Bodies.

Lemma read_newline_tail {A} (r : result (A * list TokenKind) ParseError) a ts :
  calm ts = true -> r = Ok (a, drop_terminators (Newline :: ts)) ->
  exists rest, r = Ok (a, rest) /\ drop_newlines rest = ts.
Proof.
  intros Hc ->. exists ts. cbn [drop_terminators].
  by rewrite drop_terminators_calm, drop_newlines_calm.
Qed.

Lemma directive_starts d ts : directive_ok d = true -> starts (directive_toks d ++ ts) = true.
Proof.
  unfold directive_ok, directive_toks. intros H. b2p. rewrite <- app_assoc.
  by apply value_toks_starts, value_ok_arg.
Qed.

Lemma forallb_Forall {A} (p : A -> bool) l : forallb p l = true <-> Forall (fun x => p x = true) l.
Proof. rewrite forallb_forall, List.Forall_forall. done. Qed.

Lemma directive_round_reads d ts :
  directive_ok d = true -> calm ts = true -> ts <> [] ->
  exists rest, directive_round ((directive_toks d ++ [Newline]) ++ ts) = Ok (Some d, rest)
               /\ drop_newlines rest = ts.
Proof.
  intros Hd Hc Hne. rewrite <- app_assoc. cbn [app]. unfold directive_round. rewrite peek_bind.
  destruct (value_ok_single (dir_key d)) as (k & Ek & Hk); [unfold directive_ok in Hd; by b2p|].
  assert (hd_tok (directive_toks d ++ Newline :: ts) = k) as ->
    by (unfold directive_toks; by rewrite Ek).
  destruct (value_not_at_close k _ Hk) as (_ & _ & -> & _ & _ & _ & Hs & _).
  rewrite bool_decide_eq_false_2 by done. cbn [orb]. apply read_newline_tail; [done|].
  by rewrite (p_bind_ok _ _ _ _ _ (parse_directive_toks d (Newline :: ts) Hd eq_refl ltac:(done))).
Qed.

Lemma parse_directives_toks ds ts :
  forallb directive_ok ds = true ->
  parse_directives_until_rbrace (Newline :: directives_toks ds ++ RBrace :: ts) = Ok (ds, RBrace :: ts).
Proof.
  intros H. apply forallb_Forall in H. rewrite <- (map_id ds) at 2.
  apply (body_reads_line _ _ id (fun d => directive_ok d = true)); [| |done].
  - intros d Hd. by apply directive_starts.
  - intros d ts' Hd Hc Hne. by apply directive_round_reads.
Qed.

Lemma expect_rbrace_cons ts : ts <> [] -> expect_rbrace (RBrace :: ts) = Ok (tt, ts).
Proof.
  intros H. unfold expect_rbrace. rewrite skip_newlines_bind. cbn [drop_newlines].
  rewrite peek_bind. rewrite hd_cons. rewrite decide_True by done. by apply advance_cons.
Qed.
Lemma expect_lbrace_cons ts : ts <> [] -> expect_lbrace (LBrace :: ts) = Ok (tt, ts).
Proof.
  intros H. unfold expect_lbrace. rewrite skip_newlines_bind. cbn [drop_newlines].
  rewrite peek_bind. rewrite hd_cons. rewrite decide_True by done. by apply advance_cons.
Qed.
Lemma expect_ident_cons w ts : ts <> [] -> expect_ident w (Ident w :: ts) = Ok (tt, ts).
Proof.
  intros H. unfold expect_ident. rewrite peek_bind. rewrite hd_cons. cbn [is_ident].
  rewrite String.eqb_refl. by apply advance_cons.
Qed.

(** ** Directives or blocks *)

(** After the key of a directive comes neither [{] nor a value and [{]. *)
Lemma parse_dob_directive nested d ts :
  directive_ok d = true -> ends ts = true -> ts <> [] ->
  parse_directive_or_block nested (directive_toks d ++ ts) = Ok (DDirective d, drop_terminators ts).
Proof.
  intros Hd He Hts. pose proof (parse_directive_toks d ts Hd He Hts) as Epd.
  pose proof (starts_calm _ (directive_starts d ts Hd)) as (Hc & _).
  unfold parse_directive_or_block. rewrite skip_terminators_bind, drop_terminators_calm by done.
  rewrite peek_bind. unfold directive_ok in Hd. apply andb_true_iff in Hd as [Hk Ha].
  destruct (value_ok_single (dir_key d) Hk) as (k & Ek & Hvk).
  assert (directive_toks d ++ ts = k :: args_toks (dir_args d) ++ ts) as Etoks
    by (unfold directive_toks; by rewrite Ek).
  rewrite Etoks, hd_cons in *.
  assert (args_toks (dir_args d) ++ ts <> []) as Hne by by apply app_ne.
  match goal with |- match k with _ => _ end _ = ?r =>
    assert (forall F, F (k :: args_toks (dir_args d) ++ ts) = r ->
      (match k with Comment text => advance >>> p_ret (DComment text) | _ => F end)
        (k :: args_toks (dir_args d) ++ ts) = r) as Hmatch by (intros F HF; by destruct k) end.
  apply Hmatch. clear Hmatch. cbv beta.
  rewrite (p_bind_ok _ _ _ _ _ (read_tok k _ _ Hvk Hne)).
  assert (p_bind parse_directive (fun d => p_ret (DDirective d)) (k :: args_toks (dir_args d) ++ ts)
          = Ok (DDirective d, drop_terminators ts)) as Edir by by rewrite (p_bind_ok _ _ _ _ _ Epd).
  rewrite peek_bind. destruct (args_hd (dir_args d) ts Ha He) as [_ Hb].
  rewrite decide_False by done.
  destruct (dir_args d) as [|a args]; cbn [forallb] in Ha.
  { unfold args_toks in *. cbn [map concat app] in *.
    replace (is_value (hd_tok ts)) with false by (by destruct ts as [|[] ts]). exact Edir. }
  apply andb_true_iff in Ha as [Ha1 Ha2].
  change (args_toks (a :: args)) with (value_toks a ++ args_toks args) in *. rewrite <- app_assoc in *.
  destruct (args_hd args ts Ha2 He) as [_ Hb2].
  assert (args_toks args ++ ts <> []) as Hne2 by by apply app_ne.
  destruct (arg_toks_cases a Ha1) as [(k' & Ev & Hk')|(x & y & Ev & _)];
    rewrite Ev in *; cbn [app] in *; rewrite ?hd_cons in *.
  - destruct (value_not_at_close k' _ Hk') as (-> & _).
    rewrite (p_bind_ok _ _ _ _ _ (read_tok k' _ _ Hk' Hne2)), peek_bind.
    rewrite decide_False by done. exact Edir.
  - change (is_value (Ident x)) with true. cbv iota.
    rewrite (p_bind_ok _ _ _ _ _ (read_tok (Ident x) (plain_value x) (DotDot :: _) eq_refl ltac:(done))).
    rewrite peek_bind, hd_cons, decide_False by done. exact Edir.
Qed.

Lemma parse_dob_comment nested t ts :
  ts <> [] -> parse_directive_or_block nested (Comment t :: ts) = Ok (DComment t, ts).
Proof.
  intros H. unfold parse_directive_or_block. rewrite skip_terminators_bind. cbn [drop_terminators].
  rewrite peek_bind, hd_cons. by rewrite advance_bind.
Qed.

Lemma head_starts name q ts : block_head_ok name q = true -> starts (head_toks name q ++ ts) = true.
Proof.
  unfold block_head_ok, head_toks. intros H. b2p. rewrite <- app_assoc.
  by apply value_toks_starts, value_ok_arg.
Qed.

(** A block, given that its body is read back. *)
Lemma parse_dob_block nested name q body ds ts :
  block_head_ok name q = true -> ts <> [] ->
  nested (body ++ RBrace :: ts) = Ok (ds, RBrace :: ts) ->
  parse_directive_or_block nested (head_toks name q ++ LBrace :: body ++ RBrace :: ts)
  = Ok (DBlock (MkBlock name q ds), ts).
Proof.
  intros Hh Hts En. pose proof (starts_calm _ (head_starts name q (LBrace :: body ++ RBrace :: ts) Hh)) as (Hc & _).
  unfold parse_directive_or_block. rewrite skip_terminators_bind, drop_terminators_calm by done.
  rewrite peek_bind. unfold block_head_ok, head_toks in *. apply andb_true_iff in Hh as [Hn Hq].
  destruct (value_ok_single name Hn) as (k & -> & Hk). cbn [app]. rewrite hd_cons.
  match goal with |- match k with _ => _ end ?l = ?r =>
    assert (forall F, F l = r ->
      (match k with Comment text => advance >>> p_ret (DComment text) | _ => F end) l = r) as Hmatch
      by (intros F HF; by destruct k) end.
  apply Hmatch. clear Hmatch. cbv beta.
  assert (forall q', (expect_lbrace >>> let! directives := nested in expect_rbrace >>>
            p_ret (DBlock (MkBlock name q' directives))) (LBrace :: body ++ RBrace :: ts)
          = Ok (DBlock (MkBlock name q' ds), ts)) as Hblock.
  { intros q'. rewrite (p_bind_ok _ _ _ _ _ (expect_lbrace_cons (body ++ RBrace :: ts) ltac:(by apply app_ne))).
    rewrite (p_bind_ok _ _ _ _ _ En).
    by rewrite (p_bind_ok _ _ _ _ _ (expect_rbrace_cons ts Hts)). }
  destruct q as [q|].
  - destruct (value_ok_single q Hq) as (k' & -> & Hk'). cbn [app].
    rewrite (p_bind_ok _ _ _ _ _ (read_tok k name (k' :: LBrace :: _) Hk ltac:(done))), peek_bind, hd_cons.
    destruct (value_not_at_close k' _ Hk') as (Hv & _ & _ & _ & Hb & _).
    rewrite decide_False, Hv by done.
    rewrite (p_bind_ok _ _ _ _ _ (read_tok k' q (LBrace :: _) Hk' ltac:(done))), peek_bind, hd_cons.
    rewrite decide_True by done. apply Hblock.
  - cbn [app].
    rewrite (p_bind_ok _ _ _ _ _ (read_tok k name (LBrace :: _) Hk ltac:(done))), peek_bind, hd_cons.
    rewrite decide_True by done. apply Hblock.
Qed.

(** The round of [parse_directives_or_blocks]. *)
Definition dob_round (nested : P (list DirectiveOrBlock)) : P (option DirectiveOrBlock) :=
  let! d := parse_directive_or_block nested in p_ret (Some d).

Lemma dob_starts x ts : dob_ok x = true -> starts (dob_toks x ++ ts) = true.
Proof.
  destruct x as [d|[name q ds]|t]; intros H; [| |done].
  - cbn [dob_toks]. rewrite <- app_assoc. by apply directive_starts.
  - cbn [dob_toks]. change (dob_ok (DBlock (MkBlock name q ds))) with (block_ok (MkBlock name q ds)) in H.
    rewrite block_ok_eq in H. b2p. rewrite block_toks_eq, <- app_assoc. by apply head_starts.
Qed.

(** An inline body: the semicolons end its directives. *)
Lemma drop_inline ds ts :
  forallb dob_ok ds = true ->
  forallb (fun x => match x with DDirective _ => true | _ => false end) ds = true ->
  drop_terminators (inline_toks false ds ++ RBrace :: ts) = inline_toks true ds ++ RBrace :: ts.
Proof.
  destruct ds as [|x ds]; [done|]. cbn [forallb]. intros Ho Hd. b2p. destruct x as [d|b|t]; [|done..].
  cbn [inline_toks app drop_terminators]. rewrite <- app_assoc.
  by apply drop_terminators_calm, starts_calm, directive_starts.
Qed.

Lemma inline_ends ds ts : ends (inline_toks false ds ++ RBrace :: ts) = true \/
  forallb (fun x => match x with DDirective _ => true | _ => false end) ds = false.
Proof. destruct ds as [|[d|b|t] ds]; [by left|by left|by right|by right]. Qed.

Lemma inline_body_reads nested ds ts steps :
  forallb dob_ok ds = true ->
  forallb (fun x => match x with DDirective _ => true | _ => false end) ds = true ->
  (length ds < steps)%nat ->
  body_loop (dob_round nested) steps (inline_toks true ds ++ RBrace :: ts) = Ok (ds, RBrace :: ts).
Proof.
  revert steps. induction ds as [|x ds IH]; intros [|steps] Ho Hd Hst; try (cbn in Hst; lia); [done|].
  cbn [forallb length] in *. b2p. destruct x as [d|b|t]; [|done..]. cbn [inline_toks app].
  rewrite <- app_assoc. set (tail := inline_toks false ds ++ RBrace :: ts).
  destruct (starts_calm (directive_toks d ++ tail)) as (Hc & Hac & _); [by apply directive_starts|].
  cbn [body_loop]. rewrite skip_newlines_bind, drop_newlines_calm by done. rewrite peek_bind, Hac.
  destruct (inline_ends ds ts) as [He|He]; [|congruence].
  assert (dob_round nested (directive_toks d ++ tail)
          = Ok (Some (DDirective d), inline_toks true ds ++ RBrace :: ts)) as E.
  { unfold dob_round. rewrite (p_bind_ok _ _ _ _ _ (parse_dob_directive nested d tail ltac:(done) He ltac:(by apply app_ne))).
    by rewrite <- (drop_inline ds ts). }
  rewrite (p_bind_ok _ _ _ _ _ E). rewrite (p_bind_ok _ _ _ ds (RBrace :: ts)); [done|].
  apply IH; [done..|lia].
Qed.

Lemma inline_toks_length first ds :
  forallb dob_ok ds = true ->
  forallb (fun x => match x with DDirective _ => true | _ => false end) ds = true ->
  (length ds <= length (inline_toks first ds))%nat.
Proof.
  revert first. induction ds as [|x ds IH]; intros first Ho Hd; [done|]. cbn [forallb] in *. b2p.
  destruct x as [d|b|t]; [|done..]. cbn [inline_toks length]. rewrite !length_app.
  specialize (IH false ltac:(done) ltac:(done)).
  pose proof (directive_starts d [] ltac:(done)) as Hs. rewrite app_nil_r in Hs.
  destruct (directive_toks d); [done|]. cbn [length]. lia.
Qed.

Lemma block_height_eq name q ds :
  block_height (MkBlock name q ds) = S (foldr max O (map height ds)).
Proof. cbn [block_height]. f_equal. induction ds as [|x ds IH]; [done|]. cbn. by rewrite <- IH. Qed.

Lemma heights_le ds n : (foldr max O (map height ds) <= n)%nat -> Forall (fun x => (height x <= n)%nat) ds.
Proof. induction ds as [|x ds IH]; cbn; constructor; [lia|apply IH; lia]. Qed.

(** What a body of directives and blocks needs to be read with [room] levels. *)
Definition reads_dob (room : nat) (x : DirectiveOrBlock) : Prop :=
  forall ts, calm ts = true -> ts <> [] ->
    exists rest, parse_directive_or_block (parse_directives_or_blocks room) (dob_toks x ++ ts) = Ok (x, rest)
                 /\ drop_newlines rest = ts.

Lemma dobs_body_reads room ds ts steps :
  forallb dob_ok ds = true -> Forall (reads_dob room) ds -> (length ds < steps)%nat ->
  body_loop (dob_round (parse_directives_or_blocks room)) steps (dobs_toks ds ++ RBrace :: ts)
  = Ok (ds, RBrace :: ts).
Proof.
  intros Ho Hr Hst. apply forallb_Forall in Ho. rewrite <- (map_id ds) at 2.
  apply (body_loop_reads _ dob_toks id (fun x => dob_ok x = true /\ reads_dob room x)); [| | |done].
  - intros x [Hx _]. rewrite <- (app_nil_r (dob_toks x)). by apply dob_starts.
  - intros x ts' [_ Hx] Hc Hne. destruct (Hx ts' Hc Hne) as (rest & E & Hrest). exists rest.
    split; [|done]. unfold dob_round. by rewrite (p_bind_ok _ _ _ _ _ E).
  - apply Forall_and. by split.
Qed.

Lemma dobs_toks_length ds : forallb dob_ok ds = true -> (length ds <= length (dobs_toks ds))%nat.
Proof.
  intros Ho. apply forallb_Forall in Ho.
  apply (body_toks_length dob_toks (fun x => dob_ok x = true)); [|done].
  intros x Hx. rewrite <- (app_nil_r (dob_toks x)). by apply dob_starts.
Qed.

Lemma drop_newlines_nl ts : calm ts = true -> drop_newlines (Newline :: ts) = ts.
Proof. intros H. cbn [drop_newlines]. by apply drop_newlines_calm. Qed.

(** The body of a block, inline or on lines of its own. *)
Lemma parse_block_body room ds ts :
  forallb dob_ok ds = true -> Forall (reads_dob room) ds -> ts <> [] ->
  parse_directives_or_blocks (S room)
    ((if is_inline ds then inline_toks true ds else Newline :: dobs_toks ds) ++ RBrace :: ts)
  = Ok (ds, RBrace :: ts).
Proof.
  intros Ho Hr Hts. destruct (is_inline ds) eqn:Ei.
  - apply is_inline_directives in Ei. cbn [parse_directives_or_blocks].
    apply inline_body_reads; [done|done|]. rewrite length_app.
    pose proof (inline_toks_length true ds Ho Ei). lia.
  - cbn [parse_directives_or_blocks]. unfold p_loop. cbn [app].
    transitivity (body_loop (dob_round (parse_directives_or_blocks room))
                    (S (length (Newline :: dobs_toks ds ++ RBrace :: ts))) (dobs_toks ds ++ RBrace :: ts)).
    { by apply body_loop_skip. }
    apply dobs_body_reads; [done..|]. cbn [length]. rewrite length_app.
    pose proof (dobs_toks_length ds Ho). lia.
Qed.

Lemma parse_dob_reads x : dob_ok x = true -> forall room, (height x <= room)%nat -> reads_dob room x.
Proof.
  induction x as [d|t|name q ds IH] using nested_ind; intros Ho room Hh ts Hc Hts.
  - cbn [dob_toks]. rewrite <- app_assoc. cbn [app]. apply read_newline_tail; [done|].
    by apply parse_dob_directive.
  - exists (Newline :: ts). split; [|by apply drop_newlines_nl]. by apply parse_dob_comment.
  - exists (Newline :: ts). split; [|by apply drop_newlines_nl].
    change (dob_ok (DBlock (MkBlock name q ds))) with (block_ok (MkBlock name q ds)) in Ho.
    rewrite block_ok_eq in Ho. apply andb_true_iff in Ho as [Hhead Ho].
    change (height (DBlock (MkBlock name q ds))) with (block_height (MkBlock name q ds)) in Hh.
    rewrite block_height_eq in Hh. destruct room as [|room]; [lia|].
    cbn [dob_toks]. rewrite block_toks_eq, <- app_assoc, <- app_comm_cons, <- app_assoc. cbn [app].
    apply parse_dob_block; [done|done|]. apply parse_block_body; [done| |done].
    apply le_S_n, heights_le in Hh. apply forallb_Forall in Ho. rewrite Forall_forall in *.
    intros x Hx. by apply IH; [|apply Ho|apply Hh].
Qed.

(** The body of [defaults]. *)
Lemma parse_block_line room ds ts :
  forallb dob_ok ds = true -> Forall (fun x => (height x <= room)%nat) ds ->
  parse_directives_or_blocks (S room) (Newline :: dobs_toks ds ++ RBrace :: ts) = Ok (ds, RBrace :: ts).
Proof.
  intros Ho Hh. cbn [parse_directives_or_blocks]. unfold p_loop.
  transitivity (body_loop (dob_round (parse_directives_or_blocks room))
                  (S (length (Newline :: dobs_toks ds ++ RBrace :: ts))) (dobs_toks ds ++ RBrace :: ts)).
  { by apply body_loop_skip. }
  apply dobs_body_reads; [done| |].
  - apply forallb_Forall in Ho. rewrite Forall_forall in *.
    intros x Hx. by apply parse_dob_reads; [apply Ho|apply Hh].
  - cbn [length]. rewrite length_app. pose proof (dobs_toks_length ds Ho). lia.
Qed.

(** The body of a named block of [auth], [observability] or [alerts]. *)
Lemma parse_sub_body name q ds ts :
  block_ok (MkBlock name q ds) = true -> (block_height (MkBlock name q ds) <= MAX_BLOCK_DEPTH)%nat ->
  ts <> [] ->
  parse_directives_or_blocks_until_rbrace
    ((if is_inline ds then inline_toks true ds else Newline :: dobs_toks ds) ++ RBrace :: ts)
  = Ok (ds, RBrace :: ts).
Proof.
  rewrite block_ok_eq, block_height_eq. intros Ho Hh Hts. apply andb_true_iff in Ho as [_ Ho].
  apply parse_block_body; [done| |done]. apply le_S_n, heights_le in Hh.
  apply forallb_Forall in Ho. rewrite Forall_forall in *.
  intros x Hx. by apply parse_dob_reads; [apply Ho|apply Hh].
Qed.
