(* ===== verification/RoundTrip.v ===== *)
(** * Formatting and parsing are inverse

    The parser reads the text of a formatted file back as the normal form of
    the file, and formatting the normal form gives the same text. *)

From S2P Require Import Prelude RustStr Ast Lexer Parser Format LexFacts FormatTokens ItemTokens FormatParse.

Local Open Scope Z_scope.

(** ** Normal forms *)

(** The days of a schedule: each once, in week order. *)
Definition norm_days (days : list AstWeekday.t) : list AstWeekday.t :=
  omap (fun i => AstWeekday.ALL !! i) (day_indices days).

Definition norm_kind (k : ScheduleKind) : ScheduleKind :=
  match k with
  | KWeekdays days t => KWeekdays (norm_days days) t
  | k => k
  end.

Definition norm_schedule (n : ScheduleNode) : ScheduleNode :=
  MkScheduleNode (norm_kind (sched_kind n)) (sched_mode n) (sched_options n).

(** What the parser makes of one written argument of a rule. *)
Definition arg_result (lower : string) (v : StringValue) : list StringValue :=
  match (if sv_quoted v || sv_is_placeholder v then None else split_range (sv_value v)) with
  | Some (a, b) => range_args lower (plain_value a) (plain_value b)
  | None => single_args lower v
  end.

(** The days of a [weekly] rule as written: short names, full names for a run. *)
Definition norm_weekly (days : list AstWeekday.t) : list StringValue :=
  concat (map (arg_result "weekly") (weekday_values days)).

Definition norm_rule (r : AstCalendarRule) : AstCalendarRule :=
  let lower := to_ascii_lowercase (sv_value (ar_type r)) in
  match (if String.eqb lower "weekly" then weekly_days (ar_args r) else None) with
  | Some days => MkAstRule (ar_kind r) (ar_type r) (norm_weekly days)
  | None => r
  end.

Definition norm_job (j : JobBlock) : JobBlock :=
  let '(description, others) := split_description (jb_directives j) in
  MkJob (jb_key j) (norm_schedule <$> jb_schedule j)
    (match description with Some d => d :: others | None => others end).

Definition norm_item (i : Item) : Item :=
  match i with
  | ICalendar name rules => ICalendar name (map norm_rule rules)
  | IJob j => IJob (norm_job j)
  | i => i
  end.

Definition normalize (ast : Croniqfile) : Croniqfile := map norm_item ast.

(** ** Schedules *)

Lemma parse_time_tok t ts :
  time_ok t = true -> ts <> [] -> parse_time (Ident (tv_raw t) :: ts) = Ok (t, ts).
Proof.
  unfold time_ok. intros Ht Hts. b2p.
  match goal with H : bool_decide _ = true |- _ => apply bool_decide_eq_true_1 in H; rename H into E end.
  unfold parse_time. rewrite peek_bind, hd_cons. cbn [text]. unfold read_time in E.
  destruct (split_char ":" (tv_raw t)) as [|h [|m [|]]]; [done|done| |done].
  destruct (parse_u8 h) as [hour|]; [|done]. destruct (parse_u8 m) as [minute|]; [|done].
  cbn in E. destruct (_ || _); [done|]. injection E as E. rewrite advance_bind by done. cbn. by rewrite E.
Qed.

Lemma parse_options opts ts :
  forallb directive_ok opts = true -> ts <> [] ->
  parse_optional_schedule_block (options_toks opts ++ Newline :: ts) = Ok (opts, Newline :: ts).
Proof.
  intros Ho Hts. unfold parse_optional_schedule_block. rewrite peek_bind.
  destruct opts as [|d opts]; [done|]. cbn [options_toks app]. rewrite hd_cons, decide_True by done.
  rewrite <- app_assoc. cbn [app].
  rewrite (p_bind_ok _ _ _ _ _ (expect_lbrace_cons (Newline :: _) ltac:(done))).
  rewrite (p_bind_ok _ _ _ _ _ (parse_directives_toks (d :: opts) _ Ho)).
  by rewrite (p_bind_ok _ _ _ _ _ (expect_rbrace_cons (Newline :: ts) ltac:(done))).
Qed.

(** *** Intervals *)

Lemma all_chars_app Q a b : all_chars Q (a +:+ b) = all_chars Q a && all_chars Q b.
Proof.
  induction a as [|c a IH]; [done|]. rewrite str_app_cons. cbn [all_chars]. by rewrite IH, andb_assoc.
Qed.

Lemma digits_no_suffix p w :
  all_chars is_digit p = false -> all_chars is_digit w = true -> strip_suffix p w = None.
Proof.
  intros Hp Hw. destruct (strip_suffix p w) as [r|] eqn:E; [|done].
  apply strip_suffix_app in E as ->. rewrite all_chars_app, Hp, andb_false_r in Hw. done.
Qed.

Lemma digit_first_no_day c w :
  is_digit c = true -> is_day_name (String c w) = false /\ String.eqb (String c w) "last" = false
                       /\ String.eqb (String c w) "day" = false.
Proof. destruct c as [[] [] [] [] [] [] [] []]; try discriminate; intros _; repeat split. Qed.

Lemma digits_no_word w :
  w <> "" -> all_chars is_digit w = true ->
  is_day_name w = false /\ is_ordinal w = false /\ String.eqb w "day" = false
  /\ parse_compact_interval w = None.
Proof.
  intros Hne Hw. destruct w as [|c w]; [done|]. pose proof Hw as Hc. cbn [all_chars] in Hc. b2p.
  destruct (digit_first_no_day c w) as (Hd & Hl & Hday); [done|].
  split_and!; [done| |done|].
  - unfold is_ordinal, ends_with. rewrite Hl. by rewrite !digits_no_suffix.
  - unfold parse_compact_interval. by rewrite !digits_no_suffix.
Qed.

Lemma parse_unit_word count unit : parse_unit (unit_word count unit) = Some unit.
Proof. unfold unit_word. by destruct unit, (count =? 1). Qed.

(** *** Weekdays *)

Definition word_days (w : string) : list AstWeekday.t :=
  match split_range w with
  | Some (a, b) =>
      match AstWeekday.parse a, AstWeekday.parse b with
      | Some s, Some e => weekday_range s e
      | _, _ => []
      end
  | None => default [] (AstWeekday.parse_token w)
  end.

(** A word [weekday_list] reads: a group, a day, or a range of days. *)
Definition day_word (w : string) : bool :=
  arg_ok (plain_value w) &&
  match split_range w with
  | Some (a, b) =>
      bool_decide (AstWeekday.parse_group a = None)
      && is_day_name a && bool_decide (AstWeekday.parse a <> None)
      && bool_decide (AstWeekday.parse b <> None)
  | None => is_day_name w
  end.

#[local] Existing Instance AstWeekday.t_eq_dec.

Definition week_check (indices : list nat) : bool :=
  forallb day_word (weekday_words indices)
  && bool_decide (concat (map word_days (weekday_words indices))
                  = omap (fun i => AstWeekday.ALL !! i) indices).

Lemma week_check_all days : week_check (day_indices days) = true.
Proof. apply day_indices_check. vm_compute. reflexivity. Qed.

(** The tokens of one word and what the loop makes of them. *)
Lemma weekday_list_word w ts n :
  day_word w = true -> hd_tok ts <> DotDot -> ts <> [] ->
  weekday_list (S n) (value_toks (plain_value w) ++ ts)
  = (let! more := weekday_list n in p_ret (word_days w ++ more)) ts.
Proof.
  unfold day_word, word_days. intros Hw Hd Hts. apply andb_true_iff in Hw as [Hok Hw].
  unfold value_toks. cbn [plain_value sv_is_placeholder sv_quoted sv_value].
  destruct (split_range w) as [[a b]|] eqn:E; cbn [weekday_list app]; rewrite peek_bind, hd_cons; cbn [text].
  - rewrite !andb_true_iff, !bool_decide_eq_true in Hw. destruct Hw as [[[Hg Hn] Ha] Hb]. rewrite Hn, Hg.
    destruct (AstWeekday.parse a) as [s|]; [|done]. destruct (AstWeekday.parse b) as [e|] eqn:Eb; [|done].
    unfold p_bind at 1. rewrite advance_bind by done. rewrite peek_bind, hd_cons, decide_True by done.
    rewrite advance_bind by done. rewrite peek_bind, hd_cons. cbn [text]. rewrite Eb.
    rewrite advance_bind by done. reflexivity.
  - rewrite Hw. unfold is_day_name in Hw. destruct (AstWeekday.parse_token w) as [g|] eqn:Et; [|done].
    unfold AstWeekday.parse_token in Et. destruct (AstWeekday.parse_group w) as [g'|] eqn:Eg.
    { injection Et as ->. unfold p_bind at 1. by rewrite advance_bind. }
    destruct (AstWeekday.parse w) as [d|]; [|done]. cbn in Et. injection Et as <-.
    rewrite AstWeekday.slice_single. unfold p_bind at 1. rewrite advance_bind by done.
    rewrite peek_bind, decide_False by done. reflexivity.
Qed.

Lemma weekday_list_reads ws ts steps :
  forallb day_word ws = true -> hd_tok ts <> DotDot -> is_day_name (text (hd_tok ts)) = false ->
  ts <> [] -> (length ws < steps)%nat ->
  weekday_list steps (args_toks (map plain_value ws) ++ ts) = Ok (concat (map word_days ws), ts).
Proof.
  intros Hw Hd Hn Hts. revert steps.
  induction ws as [|w ws IH]; intros [|steps] Hst; try (cbn in Hst; lia).
  { cbn [weekday_list]. unfold args_toks. cbn [map concat app]. rewrite peek_bind. by rewrite Hn. }
  cbn [forallb] in Hw. apply andb_true_iff in Hw as [Hw1 Hw2].
  assert (args_toks (map plain_value (w :: ws)) ++ ts
          = value_toks (plain_value w) ++ args_toks (map plain_value ws) ++ ts) as ->
    by (unfold args_toks; cbn [map concat]; by rewrite app_assoc).
  rewrite weekday_list_word; [|done| |by apply app_ne].
  - rewrite (p_bind_ok _ _ _ (concat (map word_days ws)) ts); [done|]. apply IH; [done|].
    cbn [length] in Hst. lia.
  - destruct ws as [|w' ws]; [done|]. cbn [forallb] in Hw2. apply andb_true_iff in Hw2 as [Hw2 _].
    unfold day_word in Hw2. apply andb_true_iff in Hw2 as [Hok _]. unfold args_toks. cbn [map concat].
    destruct (arg_toks_cases _ Hok) as [(k & -> & Hk)|(x & y & -> & _)]; [|done].
    by destruct (value_not_at_close k _ Hk) as (_ & _ & _ & _ & _ & ? & _).
Qed.

(** The first word of the list is a day name. *)
Lemma weekday_first days ts :
  days <> [] -> is_day_name (text (hd_tok (args_toks (weekday_values days) ++ ts))) = true.
Proof.
  intros Hne. apply day_indices_nonempty in Hne. pose proof (week_check_all days) as H.
  pose proof (words_ok_all days) as Hk. unfold words_ok in Hk.
  rewrite !andb_true_iff, !bool_decide_eq_true in Hk. destruct Hk as [_ [Hk|Hk]]; [done|].
  unfold week_check in H. apply andb_true_iff in H as [H _]. unfold weekday_values.
  destruct (weekday_words (day_indices days)) as [|w ws]; [done|]. cbn [forallb] in H.
  apply andb_true_iff in H as [H _]. unfold day_word in H. apply andb_true_iff in H as [_ H].
  unfold args_toks. cbn [map concat]. rewrite <- app_assoc.
  unfold value_toks. cbn [plain_value sv_is_placeholder sv_quoted sv_value].
  destruct (split_range w) as [[a b]|]; [|done]. rewrite !andb_true_iff in H. naive_solver.
Qed.

(** *** Ordinals *)

Lemma ordinal_cases (Q : MonthOrdinal -> Prop) o :
  ordinal_ok o = true -> Q OrdLast -> Forall (fun n => Q (OrdDay (Z.of_nat n))) (seq 1 31) -> Q o.
Proof.
  intros Ho Hl Hd. destruct o as [d|]; [|done]. cbn in Ho. b2p. rewrite Forall_forall in Hd.
  replace d with (Z.of_nat (Z.to_nat d)) by lia. apply Hd, elem_of_seq. lia.
Qed.

Lemma parse_ordinal_tok o ts :
  ordinal_ok o = true -> ts <> [] ->
  parse_ordinal (Ident (format_month_ordinal o) :: ts) = Ok (o, ts).
Proof.
  intros Ho Hts.
  transitivity (p_bind advance (fun _ => p_ret o) (Ident (format_month_ordinal o) :: ts));
    [|by rewrite advance_bind].
  pattern o. apply ordinal_cases; [done|reflexivity|]. repeat constructor.
Qed.

Lemma ordinal_first o :
  ordinal_ok o = true -> let w := format_month_ordinal o in
  is_day_name w = false /\ String.eqb w "day" = false /\ is_ordinal w = true.
Proof.
  intros Ho. pattern o. apply ordinal_cases; [done|by repeat split|]. repeat constructor.
Qed.

Lemma ordinal_list_reads ords ts steps :
  forallb ordinal_ok ords = true -> is_ordinal (text (hd_tok ts)) = false -> ts <> [] ->
  (length ords < steps)%nat ->
  ordinal_list steps (map Ident (map format_month_ordinal ords) ++ ts) = Ok (ords, ts).
Proof.
  intros Ho Hn Hts. revert steps.
  induction ords as [|o ords IH]; intros [|steps] Hst; try (cbn in Hst; lia).
  { cbn [ordinal_list map app]. rewrite peek_bind. by rewrite Hn. }
  cbn [forallb length] in *. b2p. cbn [ordinal_list map app]. rewrite peek_bind, hd_cons. cbn [text].
  destruct (ordinal_first o) as (_ & _ & ->); [done|].
  rewrite (p_bind_ok _ _ _ _ _ (parse_ordinal_tok o _ ltac:(done) (app_ne _ _ Hts))).
  rewrite (p_bind_ok _ _ _ ords ts); [done|]. apply IH; [done|lia].
Qed.

(** *** Schedule lines *)

Ltac take_ident :=
  rewrite (p_bind_ok _ _ _ _ _ (expect_ident_cons _ (_ :: _) ltac:(done))).

(** A time, then the options or the end of the line. *)
Lemma parse_time_options {A} (t : TimeValue) opts ts (k : TimeValue -> list Directive -> A) :
  time_ok t = true -> forallb directive_ok opts = true -> ts <> [] ->
  (let! time := parse_time in let! options := parse_optional_schedule_block in p_ret (k time options))
    (Ident (tv_raw t) :: options_toks opts ++ Newline :: ts)
  = Ok (k t opts, Newline :: ts).
Proof.
  intros Ht Ho Hts.
  rewrite (p_bind_ok _ _ _ _ _ (parse_time_tok t (options_toks opts ++ Newline :: ts) Ht ltac:(by apply app_ne))).
  by rewrite (p_bind_ok _ _ _ _ _ (parse_options opts ts Ho Hts)).
Qed.

Lemma parse_every_reads k opts ts rest :
  kind_prints k = true -> forallb directive_ok opts = true -> ts <> [] ->
  kind_toks k = Ident "every" :: rest ->
  parse_schedule_every (kind_toks k ++ options_toks opts ++ Newline :: ts)
  = Ok (node (norm_kind k) opts, Newline :: ts).
Proof.
  intros Hk Ho Hts Erest. assert (options_toks opts ++ Newline :: ts <> []) as Hne by by apply app_ne.
  unfold parse_schedule_every. rewrite Erest. cbn [app].
  rewrite (p_bind_ok _ _ _ _ _ (expect_ident_cons "every" (rest ++ options_toks opts ++ Newline :: ts)
                                  (app_ne _ _ Hne))). rewrite peek_bind.
  destruct k as [count unit|t|days t|ords t|v|]; cbn [kind_toks kind_prints] in *; try discriminate Erest;
    injection Erest as <-; cbn [app].
  - b2p. rewrite hd_cons. cbn [text is_ident].
    destruct (digits_no_word (show_uint count)) as (-> & -> & -> & Ec);
      [apply show_uint_nonempty|by apply show_uint_digits|].
    unfold parse_schedule_interval. rewrite peek_bind, hd_cons. cbn [text]. rewrite Ec.
    unfold parse_u32. rewrite parse_show_uint by lia.
    unfold p_bind at 1. rewrite advance_bind by done. rewrite peek_bind, hd_cons. cbn [text].
    rewrite parse_unit_word, advance_bind by done. cbn [p_ret].
    by rewrite (p_bind_ok _ _ _ _ _ (parse_options opts ts Ho Hts)).
  - rewrite hd_cons. cbn [text is_ident]. change (is_day_name "day") with false. cbv iota.
    change (String.eqb "day" "day") with true. cbv iota. unfold parse_schedule_daily. do 2 take_ident.
    by apply (parse_time_options t opts ts (fun time options => node (KDaily time) options)).
  - b2p. rewrite <- app_assoc. rewrite weekday_first by (by eapply bool_decide_eq_false_1).
    unfold parse_schedule_weekdays.
    pose proof (week_check_all days) as Hw. unfold week_check in Hw. apply andb_true_iff in Hw as [Hw Hd].
    apply bool_decide_eq_true_1 in Hd.
    assert (p_loop weekday_list (args_toks (weekday_values days) ++ Ident "at" :: Ident (tv_raw t) ::
              options_toks opts ++ Newline :: ts)
            = Ok (norm_days days, Ident "at" :: Ident (tv_raw t) :: options_toks opts ++ Newline :: ts)) as E.
    { unfold p_loop, norm_days. rewrite <- Hd. apply weekday_list_reads; [done..|].
      rewrite length_app. unfold weekday_values.
      pose proof (args_toks_length (weekday_values days)) as Hlen. unfold weekday_values in Hlen.
      rewrite length_map in Hlen. specialize (Hlen ltac:(by apply weekday_list_args; eapply bool_decide_eq_false_1)).
      lia. }
    cbn [app]. rewrite (p_bind_ok _ _ _ _ _ E). take_ident.
    by apply (parse_time_options t opts ts (fun time options => node (KWeekdays (norm_days days) time) options)).
  - rewrite !andb_true_iff in Hk. destruct Hk as [[Hn Hords] Ht]. rewrite <- app_assoc.
    destruct ords as [|o ords]; [done|].
    assert (hd_tok (map Ident (map format_month_ordinal (o :: ords)) ++
              [Ident "of"; Ident "month"; Ident "at"; Ident (tv_raw t)] ++ options_toks opts ++ Newline :: ts)
            = Ident (format_month_ordinal o)) as -> by done.
    cbn [text is_ident]. pose proof Hords as Ho1. cbn [forallb] in Ho1. apply andb_true_iff in Ho1 as [Ho1 _].
    destruct (ordinal_first o Ho1) as (-> & -> & ->). unfold parse_schedule_monthly. cbn [app].
    assert (p_loop ordinal_list (map Ident (map format_month_ordinal (o :: ords)) ++
              Ident "of" :: Ident "month" :: Ident "at" :: Ident (tv_raw t) :: options_toks opts ++ Newline :: ts)
            = Ok (o :: ords, Ident "of" :: Ident "month" :: Ident "at" :: Ident (tv_raw t) ::
                               options_toks opts ++ Newline :: ts)) as E.
    { apply ordinal_list_reads; [done..|]. rewrite length_app, !length_map. lia. }
    rewrite (p_bind_ok _ _ _ _ _ E). do 3 take_ident.
    by apply (parse_time_options t opts ts (fun time options => node (KMonthly (o :: ords) time) options)).
Qed.

Lemma parse_line_reads k opts ts :
  schedule_ok (MkScheduleNode k None opts) = true -> ts <> [] ->
  let toks := kind_toks k ++ options_toks opts ++ Newline :: ts in
  (let! tok := peek in
   if String.eqb (text tok) "disabled" then advance >>> p_ret (node KDisabled [])
   else if String.eqb (text tok) "once" then parse_schedule_once
   else if String.eqb (text tok) "every" then parse_schedule_every
   else p_fail (General "expected 'every', 'once', or 'disabled'")) toks
  = Ok (node (norm_kind k) opts, Newline :: ts)
  /\ is_schedule_start (hd_tok toks) = true /\ (exists w, hd_tok toks = Ident w)
  /\ String.eqb (text (hd_tok toks)) "ephemeral" = false /\ String.eqb (text (hd_tok toks)) "queued" = false.
Proof.
  unfold schedule_ok. cbn [sched_kind sched_options]. rewrite !andb_true_iff. intros [[Hk Ho] Hopt] Hts.
  cbv zeta. split; [|destruct k; by split_and!; try by eexists].
  rewrite peek_bind.
  assert (forall rest, kind_toks k = Ident "every" :: rest ->
    (if String.eqb (text (hd_tok (kind_toks k ++ options_toks opts ++ Newline :: ts))) "disabled"
     then advance >>> p_ret (node KDisabled [])
     else if String.eqb (text (hd_tok (kind_toks k ++ options_toks opts ++ Newline :: ts))) "once"
     then parse_schedule_once
     else if String.eqb (text (hd_tok (kind_toks k ++ options_toks opts ++ Newline :: ts))) "every"
     then parse_schedule_every
     else p_fail (General "expected 'every', 'once', or 'disabled'"))
      (kind_toks k ++ options_toks opts ++ Newline :: ts)
    = Ok (node (norm_kind k) opts, Newline :: ts)) as Hevery.
  { intros rest E. rewrite <- (parse_every_reads k opts ts rest Hk Ho Hts E), E. reflexivity. }
  destruct k as [count unit|t|days t|ords t|v|]; try by eapply Hevery.
  - apply bool_decide_eq_true_1 in Hopt as ->. cbn [kind_toks app options_toks]. rewrite hd_cons. cbn [text].
    change (String.eqb "once" "disabled") with false. change (String.eqb "once" "once") with true. cbv iota.
    unfold parse_schedule_once. rewrite (p_bind_ok _ _ _ _ _ (expect_ident_cons "once" (_ :: _) ltac:(done))).
    rewrite (p_bind_ok _ _ _ _ _ (expect_ident_cons "at" (value_toks v ++ Newline :: ts) ltac:(by apply app_ne))).
    by rewrite (p_bind_ok _ _ _ _ _ (read_value v (Newline :: ts) Hk ltac:(done))).
  - apply bool_decide_eq_true_1 in Hopt as ->. cbn [kind_toks app options_toks]. rewrite hd_cons. cbn [text].
    change (String.eqb "disabled" "disabled") with true. cbv iota. by rewrite advance_bind.
Qed.

(** A schedule is read back in normal form. *)
Lemma parse_schedule_reads n ts :
  schedule_ok n = true -> ts <> [] ->
  parse_schedule (schedule_toks n ++ ts) = Ok (norm_schedule n, Newline :: ts)
  /\ is_schedule_start (hd_tok (schedule_toks n ++ ts)) = true
  /\ exists w, hd_tok (schedule_toks n ++ ts) = Ident w.
Proof.
  destruct n as [k m opts]. intros Hn Hts.
  destruct (parse_line_reads k opts ts Hn Hts) as (E & Hst & (w & Hw) & He & Hq).
  unfold schedule_toks, norm_schedule. cbn [sched_kind sched_mode sched_options].
  rewrite <- !app_assoc. cbn [app]. set (toks := kind_toks k ++ options_toks opts ++ Newline :: ts) in *.
  unfold parse_schedule.
  assert (toks <> []) as Hne by by apply app_ne, app_ne.
  destruct m as [[]|]; cbn [mode_toks app].
  - split_and!; [|done|by eexists]. rewrite peek_bind, hd_cons. cbn [text].
    change (String.eqb "queued" "ephemeral") with false. change (String.eqb "queued" "queued") with true.
    cbv iota. unfold p_bind at 1. rewrite advance_bind by done. cbn [p_ret].
    rewrite peek_bind in *. by rewrite (p_bind_ok _ _ _ _ _ E).
  - split_and!; [|done|by eexists]. rewrite peek_bind, hd_cons. cbn [text].
    change (String.eqb "ephemeral" "ephemeral") with true.
    cbv iota. unfold p_bind at 1. rewrite advance_bind by done. cbn [p_ret].
    rewrite peek_bind in *. by rewrite (p_bind_ok _ _ _ _ _ E).
  - split_and!; [|done|by eexists]. rewrite peek_bind, He, Hq. rewrite ret_bind.
    rewrite peek_bind in *. by rewrite (p_bind_ok _ _ _ _ _ E).
Qed.

(** ** Calendar rules *)

(** The argument is read without ending the list, and gives its result. *)
Lemma rule_arg_step lower v ts n :
  arg_ok v = true -> starts_rule (hd_tok (value_toks v)) = false ->
  hd_tok ts <> DotDot -> ts <> [] ->
  calendar_rule_args lower (S n) (value_toks v ++ ts)
  = (if is_terminator (hd_tok ts) then advance >>> p_ret (arg_result lower v)
     else let! more := calendar_rule_args lower n in p_ret (arg_result lower v ++ more)) ts.
Proof.
  intros Hok Hsr Hd Hts. cbn [calendar_rule_args]. rewrite peek_bind. unfold arg_result.
  destruct v as [w q p]. unfold arg_ok, value_ok, value_toks in *. cbn [sv_value sv_quoted sv_is_placeholder] in *.
  destruct (orb_true_elim _ _ Hok) as [Hv|Hr].
  - destruct (value_ok_single (MkValue w q p)) as (k & Ek & Hk); [done|].
    unfold value_toks in Ek. cbn [sv_value sv_quoted sv_is_placeholder] in Ek. rewrite Ek in *. cbn [app].
    rewrite hd_cons in *. destruct (value_not_at_close k _ Hk) as (-> & _). rewrite Hsr. cbn [andb negb].
    rewrite (p_bind_ok _ _ _ _ _ (read_tok k _ _ Hk Hts)), peek_bind.
    rewrite decide_False by done. rewrite ret_bind.
    assert ((if q || p then None else split_range w) = None) as ->.
    { destruct p, q; try done. cbn in Ek. by destruct (split_range w) as [[]|]. }
    by rewrite peek_bind.
  - destruct p, q; try done. cbn in Hr. unfold bare_range in Hr. cbn [orb].
    destruct (split_range w) as [[a b]|]; [|done]. cbn [app]. rewrite hd_cons in *. rewrite Hsr.
    change (is_value (Ident a)) with true. cbn [andb negb].
    rewrite (p_bind_ok _ _ _ _ _ (read_tok (Ident a) (plain_value a) (DotDot :: Ident b :: ts) eq_refl ltac:(done))).
    rewrite peek_bind, hd_cons, decide_True by done. unfold p_bind at 1. rewrite advance_bind by done.
    rewrite (p_bind_ok _ _ _ _ _ (read_tok (Ident b) (plain_value b) ts eq_refl Hts)).
    cbn [p_ret]. by rewrite peek_bind.
Qed.

(** A list of arguments up to the end of its line. *)
Lemma rule_args_reads lower vs ts steps :
  forallb arg_ok vs = true -> forallb (fun v => negb (starts_rule (hd_tok (value_toks v)))) vs = true ->
  vs <> [] -> ts <> [] -> (length vs <= steps)%nat ->
  calendar_rule_args lower steps (args_toks vs ++ Newline :: ts)
  = Ok (concat (map (arg_result lower) vs), ts).
Proof.
  intros Hok Hsr Hne Hts. revert steps.
  induction vs as [|v vs IH]; intros [|steps] Hst; [done|done|cbn in Hst; lia|].
  cbn [forallb length] in *. apply andb_true_iff in Hok as [Hok1 Hok2].
  apply andb_true_iff in Hsr as [Hsr1 Hsr2]. apply negb_true_iff in Hsr1.
  assert (args_toks (v :: vs) ++ Newline :: ts = value_toks v ++ args_toks vs ++ Newline :: ts) as ->
    by (unfold args_toks; cbn [map concat]; by rewrite app_assoc).
  destruct (args_hd vs (Newline :: ts) Hok2 eq_refl) as [Hd _].
  rewrite rule_arg_step; [|done..|by apply app_ne].
  destruct vs as [|v' vs].
  { cbn. rewrite app_nil_r. by destruct ts. }
  assert (is_terminator (hd_tok (args_toks (v' :: vs) ++ Newline :: ts)) = false) as ->.
  { cbn [forallb] in Hok2. apply andb_true_iff in Hok2 as [Hok2 _].
    unfold args_toks. cbn [map concat]. rewrite <- app_assoc.
    destruct (arg_toks_cases v' Hok2) as [(k & -> & Hk)|(x & y & -> & _)]; [|done].
    by destruct (value_not_at_close k _ Hk) as (_ & _ & _ & ? & _). }
  rewrite (p_bind_ok _ _ _ (concat (map (arg_result lower) (v' :: vs))) ts); [done|].
  apply IH; [done..|cbn [length] in *; lia].
Qed.

Definition weekly_words_check (indices : list nat) : bool :=
  forallb (fun v => negb (starts_rule (hd_tok (value_toks v)))) (map plain_value (weekday_words indices)).

Lemma weekly_words_check_all days : weekly_words_check (day_indices days) = true.
Proof. apply day_indices_check. vm_compute. reflexivity. Qed.

Lemma rule_arg_result lower v : rule_arg_ok lower v = true -> arg_result lower v = [v].
Proof.
  unfold rule_arg_ok, arg_result. rewrite !andb_true_iff. intros [[Hv _] Hg].
  assert ((if sv_quoted v || sv_is_placeholder v then None else split_range (sv_value v)) = None) as ->.
  { unfold value_ok in Hv. destruct (sv_is_placeholder v); [by rewrite orb_true_r|].
    destruct (sv_quoted v); [done|]. by apply bare_word_no_range. }
  unfold single_args. destruct (AstWeekday.parse_group (sv_value v)); [|done].
  destruct (String.eqb lower "weekly"); [|done]. by destruct (sv_is_placeholder v).
Qed.

Lemma rule_arg_tok lower v : rule_arg_ok lower v = true ->
  arg_ok v = true /\ starts_rule (hd_tok (value_toks v)) = false.
Proof.
  unfold rule_arg_ok, tok_of. rewrite !andb_true_iff, negb_true_iff. intros [[Hv Hs] _].
  split; [by apply value_ok_arg|done].
Qed.

Lemma plain_args_result lower vs :
  forallb (rule_arg_ok lower) vs = true ->
  concat (map (arg_result lower) vs) = vs /\ forallb arg_ok vs = true
  /\ forallb (fun v => negb (starts_rule (hd_tok (value_toks v)))) vs = true.
Proof.
  induction vs as [|v vs IH]; [done|]. cbn [forallb map concat]. intros H. b2p.
  destruct IH as (E & Ha & Hs); [done|]. destruct (rule_arg_tok lower v) as [Ha' Hs']; [done|].
  rewrite rule_arg_result, E, Ha, Ha', Hs, Hs' by done. done.
Qed.

(** The arguments of a rule, read back. *)
Definition norm_args (r : AstCalendarRule) : list StringValue := ar_args (norm_rule r).

Lemma window_args_reads a b ts n :
  value_ok a = true -> starts_rule (hd_tok (value_toks a)) = false -> value_ok b = true -> ts <> [] ->
  calendar_rule_args "window" (S n) ((value_toks a ++ DotDot :: value_toks b) ++ Newline :: ts)
  = Ok ([a; b], ts).
Proof.
  intros Ha Hs Hb Hts. destruct (value_ok_single a Ha) as (k & Ek & Hk). rewrite Ek in *.
  cbn [app]. rewrite hd_cons in Hs. cbn [calendar_rule_args]. rewrite peek_bind, hd_cons.
  destruct (value_not_at_close k _ Hk) as (-> & _). rewrite Hs. cbn [andb negb].
  rewrite (p_bind_ok _ _ _ _ _ (read_tok k a (DotDot :: _) Hk ltac:(done))).
  rewrite peek_bind, hd_cons, decide_True by done. unfold p_bind at 1.
  rewrite advance_bind by (by apply app_ne).
  rewrite (p_bind_ok _ _ _ _ _ (read_value b (Newline :: ts) Hb ltac:(done))). cbn [p_ret].
  rewrite peek_bind, hd_cons. cbn [is_terminator]. by rewrite advance_bind.
Qed.

(** What is left after the arguments: nothing of the line, or its newline. *)
Lemma rule_args_toks_reads r ts :
  rule_ok r = true -> to_ascii_lowercase (sv_value (ar_type r)) <> "timezone" -> ts <> [] ->
  calm ts = true ->
  exists rest, p_loop (calendar_rule_args (to_ascii_lowercase (sv_value (ar_type r))))
                 (rule_args_toks r ++ Newline :: ts) = Ok (norm_args r, rest) /\ drop_newlines rest = ts.
Proof.
  unfold rule_ok, rule_args_toks, norm_args, norm_rule. destruct r as [kind ty args].
  cbn [ar_kind ar_type ar_args]. set (lower := to_ascii_lowercase (sv_value ty)). intros Hr Hntz Hts Hc.
  apply andb_true_iff in Hr as [_ Hr].
  rewrite (proj2 (String.eqb_neq lower "timezone")) in Hr by done. apply andb_true_iff in Hr as [Ha Hwin].
  assert (forall vs, forallb arg_ok vs = true ->
    forallb (fun v => negb (starts_rule (hd_tok (value_toks v)))) vs = true ->
    exists rest, p_loop (calendar_rule_args lower) (args_toks vs ++ Newline :: ts)
                 = Ok (concat (map (arg_result lower) vs), rest) /\ drop_newlines rest = ts) as Hlist.
  { intros vs Hok Hsr. destruct vs as [|v vs].
    { exists (Newline :: ts). split; [done|]. by apply drop_newlines_nl. }
    exists ts. split; [|by apply drop_newlines_calm]. apply rule_args_reads; [done..|].
    rewrite length_app. pose proof (args_toks_length (v :: vs) Hok). lia. }
  assert (forall vs, forallb (rule_arg_ok lower) vs = true ->
    exists rest, p_loop (calendar_rule_args lower) (args_toks vs ++ Newline :: ts) = Ok (vs, rest)
                 /\ drop_newlines rest = ts) as Hplain.
  { intros vs Hvs. destruct (plain_args_result lower vs Hvs) as (E & Hok & Hs).
    destruct (Hlist vs Hok Hs) as (rest & H & Hrest). exists rest. by rewrite E in H. }
  destruct (if String.eqb lower "weekly" then weekly_days args else None) as [days|] eqn:Ed; cbn [ar_args].
  { destruct (String.eqb lower "weekly") eqn:Ew; [|done]. apply String.eqb_eq in Ew. unfold norm_weekly.
    rewrite <- Ew. apply Hlist; [|apply weekly_words_check_all].
    by eapply weekday_list_args, weekly_days_nonempty. }
  destruct args as [|a [|b [|c args]]]; try by apply Hplain.
  destruct (String.eqb lower "window") eqn:Ew; [|by apply Hplain]. apply String.eqb_eq in Ew.
  cbn [forallb] in Ha. apply andb_true_iff in Ha as [Ha Hb]. apply andb_true_iff in Hb as [Hb _].
  destruct (rule_arg_tok lower a Ha) as [_ Hsa]. exists ts. split; [|by apply drop_newlines_calm].
  rewrite Ew. unfold rule_arg_ok in Ha, Hb. rewrite !andb_true_iff in Ha, Hb.
  by apply window_args_reads; [apply Ha| |apply Hb|].
Qed.

Lemma norm_rule_eq r : MkAstRule (ar_kind r) (ar_type r) (norm_args r) = norm_rule r.
Proof.
  destruct r as [k t a]. unfold norm_args, norm_rule. cbn [ar_kind ar_type ar_args].
  by destruct (if String.eqb (to_ascii_lowercase (sv_value t)) "weekly" then weekly_days a else None).
Qed.

Lemma parse_rule_reads r ts :
  rule_ok r = true -> calm ts = true -> ts <> [] ->
  exists rest, parse_calendar_rule (rule_toks r ++ Newline :: ts) = Ok (norm_rule r, rest)
               /\ drop_newlines rest = ts.
Proof.
  intros Hr Hc Hts. unfold parse_calendar_rule, rule_toks. rewrite peek_bind.
  pose proof Hr as Hr'. unfold rule_ok in Hr'. apply andb_true_iff in Hr' as [Hty Hr'].
  destruct (String.eqb (to_ascii_lowercase (sv_value (ar_type r))) "timezone") eqn:Etz.
  - rewrite !andb_true_iff in Hr'. destruct Hr' as [[Etype Ekind] Hargs].
    apply String.eqb_eq in Etype. apply bool_decide_eq_true_1 in Ekind.
    destruct r as [kind ty args]. cbn [ar_kind ar_type ar_args] in *. subst kind.
    destruct args as [|tz [|]]; [done| |done].
    assert (norm_rule (MkAstRule Include ty [tz]) = MkAstRule Include ty [tz]) as ->.
    { unfold norm_rule. cbn [ar_kind ar_type ar_args]. apply String.eqb_eq in Etz. rewrite Etz. done. }
    unfold args_toks. cbn [map concat]. rewrite app_nil_r, <- app_assoc.
    assert (text (hd_tok (value_toks ty ++ value_toks tz ++ Newline :: ts)) = "timezone") as ->.
    { destruct (value_ok_single ty Hty) as (k & -> & Hk). cbn [app]. rewrite hd_cons, <- Etype.
      by destruct k; try done; injection Hk as <-. }
    change (String.eqb "timezone" "include") with false. change (String.eqb "timezone" "exclude") with false.
    change (String.eqb "timezone" "timezone") with true. cbv iota.
    rewrite (p_bind_ok _ _ _ _ _ (read_value ty (value_toks tz ++ Newline :: ts) Hty ltac:(by apply app_ne))).
    rewrite (p_bind_ok _ _ _ _ _ (read_value tz (Newline :: ts) Hargs ltac:(done))).
    exists (Newline :: ts). split; [done|by apply drop_newlines_nl].
  - apply String.eqb_neq in Etz. destruct (rule_args_toks_reads r ts Hr Etz Hts Hc) as (rest & E & Hrest).
    exists rest. split; [|done]. rewrite <- app_comm_cons, hd_cons. cbn [text].
    assert (read_string_value (Ident (kind_word (ar_kind r)) ::
              (value_toks (ar_type r) ++ rule_args_toks r) ++ Newline :: ts)
            = Ok (plain_value (kind_word (ar_kind r)),
                  value_toks (ar_type r) ++ rule_args_toks r ++ Newline :: ts)) as E1.
    { rewrite <- app_assoc. apply read_tok; [done|]. by apply app_ne, app_ne. }
    pose proof (read_value (ar_type r) (rule_args_toks r ++ Newline :: ts) Hty ltac:(by apply app_ne)) as E2.
    rewrite <- norm_rule_eq. destruct (ar_kind r) eqn:Ek; cbn [kind_word] in *.
    + change (String.eqb "include" "include") with true. cbv iota.
      by rewrite (p_bind_ok _ _ _ _ _ E1), (p_bind_ok _ _ _ _ _ E2), (p_bind_ok _ _ _ _ _ E).
    + change (String.eqb "exclude" "include") with false. change (String.eqb "exclude" "exclude") with true.
      cbv iota. by rewrite (p_bind_ok _ _ _ _ _ E1), (p_bind_ok _ _ _ _ _ E2), (p_bind_ok _ _ _ _ _ E).
Qed.

Lemma rule_starts r ts : rule_ok r = true -> starts (rule_toks r ++ ts) = true.
Proof.
  unfold rule_toks. intros Hr. destruct (String.eqb _ _); [|done]. rewrite <- app_assoc.
  apply value_toks_starts, value_ok_arg. unfold rule_ok in Hr. by b2p.
Qed.

(** The first token of a rule is a value. *)
Lemma rule_first r ts : rule_ok r = true ->
  is_comment (hd_tok (rule_toks r ++ ts)) = false /\ hd_tok (rule_toks r ++ ts) <> Semicolon.
Proof.
  unfold rule_toks. intros Hr. destruct (String.eqb _ _); [|done]. unfold rule_ok in Hr.
  apply andb_true_iff in Hr as [Hty _]. destruct (value_ok_single _ Hty) as (k & -> & Hk).
  cbn [app]. rewrite hd_cons. by destruct (value_not_at_close k _ Hk) as (_ & _ & ? & _ & _ & _ & ? & _).
Qed.

Lemma parse_rules_toks rs ts :
  forallb rule_ok rs = true ->
  p_loop (body_loop calendar_round) (Newline :: rules_toks rs ++ RBrace :: ts)
  = Ok (map norm_rule rs, RBrace :: ts).
Proof.
  intros H. apply forallb_Forall in H.
  apply (body_reads_line _ (fun r => rule_toks r ++ [Newline]) norm_rule (fun r => rule_ok r = true));
    [| |done].
  - intros r Hr. by apply rule_starts.
  - intros r ts' Hr Hc Hne. rewrite <- app_assoc. cbn [app].
    destruct (parse_rule_reads r ts' Hr Hc Hne) as (rest & E & Hrest). exists rest. split; [|done].
    unfold calendar_round. rewrite peek_bind. destruct (rule_first r (Newline :: ts') Hr) as [-> Hs].
    rewrite bool_decide_eq_false_2 by done. cbn [orb]. by rewrite (p_bind_ok _ _ _ _ _ E).
Qed.

(** ** Jobs *)

Lemma job_loop_skip n s ts ts' :
  drop_newlines ts = drop_newlines ts' -> job_loop (S n) s ts = job_loop (S n) s ts'.
Proof. intros H. cbn [job_loop]. rewrite !skip_newlines_bind. by rewrite H. Qed.

(** The first token of a directive or block is a value. *)
Lemma dob_first x ts :
  dob_ok x = true ->
  hd_tok (dob_toks x ++ ts) = first_tok x
  /\ match x with DComment t => first_tok x = Comment t | _ => is_value (first_tok x) = true end.
Proof.
  destruct x as [d|[name q ds]|t]; intros Ho; unfold first_tok; [| |done].
  - cbn [dob_toks dob_ok] in *. unfold directive_toks, directive_ok in *. apply andb_true_iff in Ho as [Ho _].
    destruct (value_ok_single _ Ho) as (k & -> & Hk). split; [done|].
    by destruct (value_not_at_close k _ Hk).
  - change (dob_ok (DBlock (MkBlock name q ds))) with (block_ok (MkBlock name q ds)) in Ho.
    rewrite block_ok_eq in Ho. unfold block_head_ok in Ho. rewrite !andb_true_iff in Ho.
    destruct Ho as [[Ho _] _]. cbn [dob_toks]. rewrite block_toks_eq. unfold head_toks.
    destruct (value_ok_single _ Ho) as (k & -> & Hk). split; [done|].
    by destruct (value_not_at_close k _ Hk).
Qed.

(** One element of a job that is not its schedule. *)
Lemma job_loop_dob n s x ts :
  dob_ok x = true -> (height x <= MAX_BLOCK_DEPTH)%nat ->
  (s = None -> is_schedule_start (first_tok x) = false) -> calm ts = true -> ts <> [] ->
  job_loop (S (S n)) s (dob_toks x ++ ts)
  = (let! more := job_loop (S n) s in p_ret (more.1, x :: more.2)) ts.
Proof.
  intros Ho Hh Hns Hc Hts. destruct (starts_calm _ (dob_starts x ts Ho)) as (Hcx & Hac & _).
  destruct (parse_dob_reads x Ho MAX_BLOCK_DEPTH Hh ts Hc Hts) as (rest & E & Hrest).
  destruct (dob_first x ts Ho) as [Ek Hk].
  assert (forall r (k : option ScheduleNode * list DirectiveOrBlock -> P (option ScheduleNode * list DirectiveOrBlock)),
    drop_newlines r = ts -> p_bind (job_loop (S n) s) k r = p_bind (job_loop (S n) s) k ts) as Hskip.
  { intros r k Hr. unfold p_bind. rewrite (job_loop_skip n s r ts); [done|].
    by rewrite Hr, drop_newlines_calm. }
  remember (S n) as m. cbn [job_loop]. rewrite skip_newlines_bind, drop_newlines_calm by done.
  rewrite peek_bind, Hac, Ek. rewrite <- (Hskip rest) by done.
  assert ((exists t, x = DComment t) \/ is_value (first_tok x) = true) as [[t ->]|Hv]
    by (destruct x; eauto).
  { rewrite Hk. cbn [dob_toks app]. rewrite advance_bind by done.
    rewrite (Hskip (Newline :: ts)) by (by apply drop_newlines_nl). by rewrite (Hskip rest). }
  assert (s <> None \/ is_schedule_start (first_tok x) = false) as Hs
    by (destruct s; [by left|right; by apply Hns]).
  destruct (first_tok x); try done;
    (destruct s as [s|]; [by rewrite (p_bind_ok _ _ _ _ _ E)|];
     destruct Hs as [?| ->]; [done|]; by rewrite (p_bind_ok _ _ _ _ _ E)).
Qed.

Definition not_schedule (s : option ScheduleNode) (x : DirectiveOrBlock) : Prop :=
  dob_ok x = true /\ (height x <= MAX_BLOCK_DEPTH)%nat
  /\ (s = None -> is_schedule_start (first_tok x) = false).

Lemma dobs_calm ds ts : forallb dob_ok ds = true -> calm (dobs_toks ds ++ RBrace :: ts) = true.
Proof.
  destruct ds as [|x ds]; [done|]. cbn [forallb]. intros H. b2p. unfold dobs_toks. cbn [map concat].
  rewrite <- app_assoc. by apply starts_calm, dob_starts.
Qed.

Lemma job_loop_dobs s ds ts steps :
  Forall (not_schedule s) ds -> (length ds < steps)%nat ->
  job_loop steps s (dobs_toks ds ++ RBrace :: ts) = Ok ((s, ds), RBrace :: ts).
Proof.
  intros Hds. revert steps. induction Hds as [|x ds Hx Hds IH]; intros [|steps] Hst; try (cbn in Hst; lia); [done|].
  cbn [length] in Hst. destruct steps as [|steps]; [lia|]. destruct Hx as (Ho & Hh & Hns).
  change (dobs_toks (x :: ds)) with (dob_toks x ++ dobs_toks ds). rewrite <- app_assoc.
  rewrite job_loop_dob; [|done..|apply dobs_calm|by apply app_ne].
  - by rewrite (p_bind_ok _ _ _ _ _ (IH (S steps) ltac:(lia))).
  - apply forallb_Forall. by eapply Forall_impl; [exact Hds|]; intros ? [? _].
Qed.

(** The schedule, then the other elements. *)
Lemma job_loop_schedule n ds ts steps :
  schedule_ok n = true -> Forall (not_schedule (Some (norm_schedule n))) ds -> (S (length ds) < steps)%nat ->
  job_loop steps None (schedule_toks n ++ dobs_toks ds ++ RBrace :: ts)
  = Ok ((Some (norm_schedule n), ds), RBrace :: ts).
Proof.
  intros Hn Hds Hst. destruct steps as [|[|steps]]; [lia..|].
  assert (forallb dob_ok ds = true) as Hok
    by (apply forallb_Forall; by eapply Forall_impl; [exact Hds|]; intros ? [? _]).
  set (tail := dobs_toks ds ++ RBrace :: ts).
  destruct (parse_schedule_reads n tail Hn ltac:(by apply app_ne)) as (E & Hs & w & Hw).
  remember (S steps) as m. cbn [job_loop].
  rewrite skip_newlines_bind, drop_newlines_calm by (unfold calm; by rewrite Hw).
  rewrite peek_bind, Hw in *. cbn [at_close]. rewrite Hs.
  rewrite (p_bind_ok _ _ _ _ _ E). subst m. rewrite (job_loop_skip steps _ (Newline :: tail) tail).
  - apply job_loop_dobs; [done|lia].
  - rewrite drop_newlines_nl, drop_newlines_calm; [done|by apply dobs_calm|by apply dobs_calm].
Qed.

Lemma description_not_schedule x : is_description x = true -> dob_ok x = true -> is_schedule_start (first_tok x) = false.
Proof.
  destruct x as [d|b|t]; [|done..]. cbn [is_description]. intros E Ho. apply String.eqb_eq in E.
  unfold first_tok. cbn [dob_toks dob_ok] in *. unfold directive_toks, directive_ok in *.
  apply andb_true_iff in Ho as [Ho _]. destruct (value_ok_single _ Ho) as (k & -> & Hk).
  cbn [app]. rewrite hd_cons. destruct k; try done. injection Hk as Hk. rewrite <- Hk in E.
  cbn in E. by subst s.
Qed.

Lemma job_key_reads k ts : key_ok k = true -> ts <> [] -> parse_job_key (key_tok (key_raw k) :: ts) = Ok (k, ts).
Proof.
  unfold key_ok, key_tok. intros Hk Hts. apply andb_true_iff in Hk as [Hk _].
  apply bool_decide_eq_true_1 in Hk. unfold parse_job_key. rewrite peek_bind, hd_cons.
  destruct (all_bytes is_ident_char (key_raw k)); rewrite advance_bind by done; by rewrite Hk.
Qed.

Lemma dob_toks_nonempty x : dob_ok x = true -> (1 <= length (dob_toks x))%nat.
Proof.
  intros H. pose proof (dob_starts x [] H) as Hs. rewrite app_nil_r in Hs. destruct (dob_toks x); [done|cbn; lia].
Qed.

(** The body of a job: its description, its schedule, the rest. *)
Lemma parse_job_body j ts :
  job_ok j = true ->
  let '(description, others) := split_description (jb_directives j) in
  p_loop (fun steps => job_loop steps None)
    (Newline :: match description with Some d => dob_toks d | None => [] end
     ++ match jb_schedule j with Some n => schedule_toks n | None => [] end
     ++ dobs_toks others ++ RBrace :: ts)
  = Ok ((jb_schedule (norm_job j), jb_directives (norm_job j)), RBrace :: ts).
Proof.
  unfold job_ok, norm_job. rewrite !andb_true_iff. intros [[[_ Hd] Hh] Hsch].
  pose proof (split_description_spec (jb_directives j)) as Hspec.
  destruct (split_description (jb_directives j)) as [d others] eqn:Es. cbn [jb_schedule jb_directives].
  destruct (forallb_split_description _ _ _ _ Hd Es) as [Hd1 Hd2].
  destruct (forallb_split_description _ _ _ _ Hh Es) as [Hh1 Hh2].
  assert (Forall (not_schedule (norm_schedule <$> jb_schedule j)) others) as Hothers.
  { apply forallb_Forall in Hd2, Hh2. rewrite Forall_forall in *. intros x Hx. split_and!.
    - by apply Hd2.
    - by apply Nat.leb_le, Hh2.
    - destruct (jb_schedule j) as [n|]; [done|]. intros _.
      destruct (forallb_split_description _ _ _ _ Hsch Es) as [_ Hs2]. apply forallb_Forall in Hs2.
      rewrite Forall_forall in Hs2. by apply negb_true_iff, Hs2. }
  set (tail := match jb_schedule j with Some n => schedule_toks n | None => [] end
               ++ dobs_toks others ++ RBrace :: ts).
  assert (forall steps, (S (length others) < steps)%nat ->
    job_loop steps None tail = Ok ((norm_schedule <$> jb_schedule j, others), RBrace :: ts)) as Htail.
  { intros steps Hst. unfold tail. destruct (jb_schedule j) as [n|].
    - by apply job_loop_schedule.
    - apply job_loop_dobs; [done|lia]. }
  assert (calm tail = true) as Hcalm.
  { unfold tail. destruct (jb_schedule j) as [n|]; [|by apply dobs_calm].
    destruct (parse_schedule_reads n (dobs_toks others ++ RBrace :: ts) Hsch ltac:(by apply app_ne))
      as (_ & _ & w & Hw). unfold calm. by rewrite Hw. }
  assert (length others < length tail)%nat as Hlen.
  { unfold tail. rewrite !length_app. cbn [length]. pose proof (dobs_toks_length others Hd2). lia. }
  unfold p_loop. destruct d as [d|].
  - destruct Hspec as (pre & post & _ & _ & Hdesc & _).
    rewrite (job_loop_skip _ _ _ (dob_toks d ++ tail)) by done. cbn [length].
    rewrite length_app. pose proof (dob_toks_nonempty d Hd1).
    replace (S (S (length (dob_toks d) + length tail)))
      with (S (S (S (length (dob_toks d) - 1 + length tail)))) by lia.
    rewrite job_loop_dob; [|done|by apply Nat.leb_le| |done|by unfold tail; apply app_ne, app_ne].
    + rewrite (p_bind_ok _ _ _ (norm_schedule <$> jb_schedule j, others) (RBrace :: ts)); [done|].
      apply Htail. lia.
    + intros _. by apply description_not_schedule.
  - cbn [app]. rewrite (job_loop_skip _ _ _ tail) by done. apply Htail. cbn [length]. lia.
Qed.

Lemma parse_job_reads j ts :
  job_ok j = true -> ts <> [] -> parse_job (job_toks j ++ ts) = Ok (norm_job j, Newline :: ts).
Proof.
  intros Hj Hts. pose proof (parse_job_body j (Newline :: ts) Hj) as E.
  assert (key_ok (jb_key j) = true) as Hk by (unfold job_ok in Hj; rewrite !andb_true_iff in Hj; naive_solver).
  unfold job_toks, parse_job. destruct (split_description (jb_directives j)) as [d others] eqn:Es.
  cbn [app]. rewrite (p_bind_ok _ _ _ _ _ (expect_ident_cons "job" (_ :: _) ltac:(done))).
  rewrite (p_bind_ok _ _ _ _ _ (job_key_reads (jb_key j) (_ :: _) Hk ltac:(done))).
  rewrite (p_bind_ok _ _ _ _ _ (expect_lbrace_cons (_ :: _) ltac:(done))).
  rewrite <- !app_assoc. cbn [app]. rewrite (p_bind_ok _ _ _ _ _ E).
  rewrite (p_bind_ok _ _ _ _ _ (expect_rbrace_cons (Newline :: ts) ltac:(done))). cbn [fst snd].
  unfold norm_job. by rewrite Es.
Qed.

(** ** Items *)

Ltac take_lbrace :=
  match goal with |- p_bind expect_lbrace _ (LBrace :: ?l) = _ =>
    rewrite (p_bind_ok _ _ _ _ _ (expect_lbrace_cons l ltac:(first [done|by apply app_ne]))) end.

Lemma braced_reads {A} kw (body : P A) toks a ts :
  body (Newline :: toks ++ RBrace :: Newline :: ts) = Ok (a, RBrace :: Newline :: ts) ->
  braced kw body (braced_toks [Ident kw] toks ++ ts) = Ok (a, Newline :: ts).
Proof.
  intros E. unfold braced, braced_toks. cbn [app]. rewrite <- app_assoc. cbn [app].
  rewrite (p_bind_ok _ _ _ _ _ (expect_ident_cons kw (_ :: _) ltac:(done))).
  rewrite (p_bind_ok _ _ _ _ _ (expect_lbrace_cons (_ :: _) ltac:(done))).
  rewrite (p_bind_ok _ _ _ _ _ E).
  by rewrite (p_bind_ok _ _ _ _ _ (expect_rbrace_cons (Newline :: ts) ltac:(done))).
Qed.

(** A block with a name before its body. *)
Lemma named_reads {A B} kw name (body : P A) (k : StringValue -> A -> B) toks a ts :
  value_ok name = true ->
  body (Newline :: toks ++ RBrace :: Newline :: ts) = Ok (a, RBrace :: Newline :: ts) ->
  (expect_ident kw >>> let! n := read_string_value in expect_lbrace >>>
   let! x := body in expect_rbrace >>> p_ret (k n x))
    (braced_toks (Ident kw :: value_toks name) toks ++ ts) = Ok (k name a, Newline :: ts).
Proof.
  intros Hn E.
  assert (braced_toks (Ident kw :: value_toks name) toks ++ ts
          = Ident kw :: value_toks name ++ LBrace :: Newline :: toks ++ RBrace :: Newline :: ts) as ->.
  { unfold braced_toks. cbn [app]. rewrite <- app_assoc. cbn [app]. by rewrite <- app_assoc. }
  rewrite (p_bind_ok _ _ _ _ _ (expect_ident_cons kw (value_toks name ++ _) (app_ne _ (_ :: _) ltac:(done)))).
  rewrite (p_bind_ok _ _ _ _ _ (read_value name (_ :: _) Hn ltac:(done))).
  rewrite (p_bind_ok _ _ _ _ _ (expect_lbrace_cons (_ :: _) ltac:(done))).
  cbn [app]. rewrite (p_bind_ok _ _ _ _ _ E).
  by rewrite (p_bind_ok _ _ _ _ _ (expect_rbrace_cons (Newline :: ts) ltac:(done))).
Qed.

Definition sub_ok (qualified : bool) (b : NamedBlock) : Prop :=
  block_ok b = true /\ (block_height b <= MAX_BLOCK_DEPTH)%nat
  /\ if qualified then block_qualifier b <> None else block_qualifier b = None.

Lemma block_starts b ts : block_ok b = true -> starts (block_toks b ++ ts) = true.
Proof. apply (dob_starts (DBlock b)). Qed.

(** A sub-block without a qualifier, and one with it. *)
Lemma named_block_reads b ts :
  sub_ok false b -> ts <> [] -> parse_named_block (block_toks b ++ ts) = Ok (b, Newline :: ts).
Proof.
  destruct b as [name q ds]. intros (Ho & Hh & Hq) Hts. cbn in Hq. subst q.
  assert (value_ok name = true) as Hn
    by (rewrite block_ok_eq in Ho; unfold block_head_ok in Ho; rewrite !andb_true_iff in Ho; naive_solver).
  rewrite block_toks_eq. unfold head_toks, parse_named_block. rewrite app_nil_r, <- app_assoc. cbn [app].
  rewrite (p_bind_ok _ _ _ _ _ (read_value name (_ :: _) Hn ltac:(done))). rewrite <- app_assoc. cbn [app].
  take_lbrace.
  rewrite (p_bind_ok _ _ _ _ _ (parse_sub_body name None ds (Newline :: ts) Ho Hh ltac:(done))).
  by rewrite (p_bind_ok _ _ _ _ _ (expect_rbrace_cons (Newline :: ts) ltac:(done))).
Qed.

Lemma block_first b ts : block_ok b = true -> is_comment (hd_tok (block_toks b ++ ts)) = false.
Proof.
  intros H. destruct (dob_first (DBlock b) ts H) as [E Hv]. cbn [dob_toks] in E. rewrite E.
  by destruct (first_tok (DBlock b)).
Qed.

Lemma named_round_reads b ts :
  sub_ok false b -> calm ts = true -> ts <> [] ->
  exists rest, named_block_round (block_toks b ++ ts) = Ok (Some b, rest) /\ drop_newlines rest = ts.
Proof.
  intros Hb Hc Hts. exists (Newline :: ts). split; [|by apply drop_newlines_nl].
  unfold named_block_round. rewrite peek_bind, block_first by apply Hb.
  by rewrite (p_bind_ok _ _ _ _ _ (named_block_reads b ts Hb Hts)).
Qed.

Lemma alerts_round_reads b ts :
  sub_ok true b -> calm ts = true -> ts <> [] ->
  exists rest, alerts_round (block_toks b ++ ts) = Ok (Some b, rest) /\ drop_newlines rest = ts.
Proof.
  intros Hb Hc Hts. exists (Newline :: ts). split; [|by apply drop_newlines_nl].
  unfold alerts_round. rewrite peek_bind, block_first by apply Hb.
  destruct b as [name [q|] ds], Hb as (Ho & Hh & Hq); [|done].
  assert (value_ok name = true /\ value_ok q = true) as [Hn Hvq]
    by (rewrite block_ok_eq in Ho; unfold block_head_ok in Ho; rewrite !andb_true_iff in Ho; naive_solver).
  rewrite block_toks_eq. unfold head_toks. rewrite <- !app_assoc. cbn [app].
  rewrite (p_bind_ok _ _ _ _ _ (read_value name (value_toks q ++ _) Hn (app_ne _ (_ :: _) ltac:(done)))), peek_bind.
  assert (forall r, hd_tok (value_toks q ++ r) <> LBrace) as Hnb.
  { intros r. destruct (value_ok_single q Hvq) as (k & -> & Hk).
    by destruct (value_not_at_close k _ Hk) as (_ & _ & _ & _ & ? & _). }
  rewrite decide_False by apply Hnb. cbn [app].
  rewrite (p_bind_ok _ _ _ _ _ (read_value q (_ :: _) Hvq ltac:(done))). rewrite <- app_assoc. cbn [app].
  take_lbrace.
  rewrite (p_bind_ok _ _ _ _ _ (parse_sub_body name (Some q) ds (Newline :: ts) Ho Hh ltac:(done))).
  by rewrite (p_bind_ok _ _ _ _ _ (expect_rbrace_cons (Newline :: ts) ltac:(done))).
Qed.

Lemma sub_blocks_read one qualified bs ts :
  (forall b ts, sub_ok qualified b -> calm ts = true -> ts <> [] ->
     exists rest, one (block_toks b ++ ts) = Ok (Some b, rest) /\ drop_newlines rest = ts) ->
  Forall (sub_ok qualified) bs ->
  p_loop (body_loop one) (Newline :: sub_blocks_toks bs ++ RBrace :: ts) = Ok (bs, RBrace :: ts).
Proof.
  intros Hone Hbs. rewrite <- (map_id bs) at 2.
  apply (body_reads_line one block_toks id (sub_ok qualified)); [|done|done].
  intros b [Hb _]. rewrite <- (app_nil_r (block_toks b)). by apply block_starts.
Qed.

Lemma parse_item_keyword w p toks r :
  item_parser w = Some p -> p (Ident w :: toks) = r -> parse_item (Ident w :: toks) = r.
Proof.
  intros Hp <-. unfold parse_item. rewrite skip_terminators_bind. cbn [drop_terminators].
  rewrite peek_bind, hd_cons. by rewrite Hp.
Qed.

Lemma p_map_ok {A B} (f : A -> B) (m : P A) ts a ts' :
  m ts = Ok (a, ts') -> p_map f m ts = Ok (f a, ts').
Proof. intros E. unfold p_map. by rewrite (p_bind_ok _ _ _ _ _ E). Qed.

(** The keyword decides the parser of an item. *)
Lemma item_keyword {A} w (f : A -> Item) (m : P A) toks a ts :
  item_parser w = Some (p_map f m) -> m (Ident w :: toks) = Ok (a, ts) ->
  parse_item (Ident w :: toks) = Ok (f a, ts).
Proof. intros Hp E. eapply parse_item_keyword; [done|]. by apply p_map_ok. Qed.

Lemma sub_ok_of (qualified : bool) bs :
  forallb (fun b => block_ok b && (if qualified then bool_decide (block_qualifier b <> None)
                                   else bool_decide (block_qualifier b = None))
                    && Nat.leb (block_height b) MAX_BLOCK_DEPTH) bs = true ->
  Forall (sub_ok qualified) bs.
Proof.
  intros H. apply forallb_Forall in H. eapply Forall_impl; [exact H|]. intros b Hb.
  rewrite !andb_true_iff, Nat.leb_le in Hb. destruct Hb as [[Ho Hq] Hh]. split_and!; [done|done|].
  by destruct qualified; apply bool_decide_eq_true_1 in Hq.
Qed.

Lemma parse_item_reads i ts :
  item_ok i = true -> ts <> [] -> parse_item (item_toks i ++ ts) = Ok (norm_item i, Newline :: ts).
Proof.
  intros Hi Hts.
  destruct i as [path|ds|ds|ds|bs|ds|ds|bs|ds|bs|ds|ds|name rules|name ds|j|t];
    cbn [item_ok] in Hi; cbn [item_toks norm_item];
    try (eapply item_keyword; [reflexivity|]; apply braced_reads);
    try (by apply parse_directives_toks);
    try (by apply (sub_blocks_read _ false), sub_ok_of; [apply named_round_reads|]).
  - cbn [app]. eapply item_keyword; [reflexivity|]. unfold parse_import. rewrite <- app_assoc. cbn [app].
    rewrite (p_bind_ok _ _ _ _ _ (expect_ident_cons "import" (value_toks path ++ _) (app_ne _ (_ :: _) ltac:(done)))).
    by apply read_value.
  - by apply (sub_blocks_read _ true), sub_ok_of; [apply alerts_round_reads|].
  - apply andb_true_iff in Hi as [Ho Hh]. unfold parse_directives_or_blocks_until_rbrace.
    apply (parse_block_line 63); [done|]. apply forallb_Forall in Hh.
    eapply Forall_impl; [exact Hh|]. intros x Hx. apply Nat.ltb_lt in Hx. unfold MAX_BLOCK_DEPTH in Hx. lia.
  - apply andb_true_iff in Hi as [Hn Hr]. eapply (item_keyword _ (fun '(n, r) => ICalendar n r)
      _ _ (name, map norm_rule rules)); [reflexivity|].
    apply (named_reads "calendar" name _ pair); [done|]. by apply parse_rules_toks.
  - apply andb_true_iff in Hi as [Hn Hd]. eapply (item_keyword _ (fun '(n, d) => IConcurrencyGroup n d)
      _ _ (name, ds)); [reflexivity|].
    apply (named_reads "concurrency_group" name _ pair); [done|]. by apply parse_directives_toks.
  - unfold job_toks. pose proof (parse_job_reads j ts Hi Hts) as E. unfold job_toks in E.
    destruct (split_description (jb_directives j)) as [d others]. cbn [app] in *.
    by eapply item_keyword.
  - cbn [app]. unfold parse_item. rewrite skip_terminators_bind. cbn [drop_terminators].
    rewrite peek_bind, hd_cons. by rewrite advance_bind.
Qed.

(** ** The file *)

Lemma item_calm i ts : item_ok i = true ->
  calm (item_toks i ++ ts) = true /\ hd_tok (item_toks i ++ ts) <> Eof.
Proof.
  destruct i; try done. intros _. cbn [item_toks]. unfold job_toks.
  by destruct (split_description (jb_directives job)).
Qed.

Lemma item_loop_skip n ts ts' :
  drop_terminators ts = drop_terminators ts' -> item_loop (S n) ts = item_loop (S n) ts'.
Proof. intros H. cbn [item_loop]. rewrite !skip_terminators_bind. by rewrite H. Qed.

Lemma item_loop_reads ast steps :
  printable ast = true -> (length ast < steps)%nat ->
  item_loop steps (file_toks ast ++ [Eof]) = Ok (normalize ast, [Eof]).
Proof.
  unfold printable, file_toks, normalize. revert steps.
  induction ast as [|i ast IH]; intros [|steps] Ho Hst; try (cbn in Hst; lia); [done|].
  cbn [forallb map concat length] in *. apply andb_true_iff in Ho as [Hi Ho]. rewrite <- app_assoc.
  set (tail := concat (map item_toks ast) ++ [Eof]).
  assert (tail <> []) as Hne by by apply app_ne.
  assert (calm tail = true) as Hct.
  { unfold tail. destruct ast as [|i' ast]; [done|]. cbn [forallb map concat] in *.
    apply andb_true_iff in Ho as [Hi' _]. rewrite <- app_assoc. by apply item_calm. }
  destruct (item_calm i tail Hi) as [Hc He]. destruct steps as [|steps]; [lia|].
  remember (S steps) as m. cbn [item_loop]. rewrite skip_terminators_bind, drop_terminators_calm by done.
  rewrite peek_bind, decide_False by done.
  rewrite (p_bind_ok _ _ _ _ _ (parse_item_reads i tail Hi Hne)).
  rewrite (p_bind_ok _ _ _ (map norm_item ast) [Eof]); [done|]. subst m.
  rewrite (item_loop_skip steps (Newline :: tail) tail); [apply IH; [done|lia]|].
  done.
Qed.

Lemma file_toks_length ast : printable ast = true -> (length ast <= length (file_toks ast))%nat.
Proof.
  unfold printable, file_toks. induction ast as [|i ast IH]; [done|]. cbn [forallb map concat length].
  intros H. apply andb_true_iff in H as [Hi H]. rewrite length_app. specialize (IH H).
  assert (item_toks i <> []); [|destruct (item_toks i); [done|cbn; lia]].
  intros E. destruct (item_calm i [] Hi) as [_ Hn]. by rewrite E in Hn.
Qed.

(** The tokens of a printable file parse as its normal form. *)
Lemma parse_file_toks ast source :
  printable ast = true ->
  Lexes source (match ast with [] => [Newline] | _ => file_toks ast end ++ [Eof]) ->
  parse source = Ok (normalize ast).
Proof.
  intros Ho Hl. destruct (Lexes_tokenize _ _ Hl) as (toks & Et & Hk).
  unfold parse. rewrite Et. cbn [map_err res_bind]. unfold run_parser. rewrite Hk.
  destruct ast as [|i ast]; [done|]. unfold parse_croniqfile, p_loop.
  rewrite item_loop_reads; [done|done|]. pose proof (file_toks_length (i :: ast) Ho).
  rewrite length_app. lia.
Qed.

(** ** The text of the normal form *)

Definition norm_check (indices : list nat) : bool :=
  bool_decide (day_indices (omap (fun i => AstWeekday.ALL !! i) indices) = indices)
  && match indices with
     | [] => true
     | _ => match weekly_days (concat (map (arg_result "weekly") (map plain_value (weekday_words indices)))) with
            | Some days => bool_decide (day_indices days = indices)
            | None => false
            end
     end.

Lemma norm_check_all days : norm_check (day_indices days) = true.
Proof. apply day_indices_check. vm_compute. reflexivity. Qed.

Lemma format_norm_days days : format_weekday_list (norm_days days) = format_weekday_list days.
Proof.
  rewrite !format_weekday_list_indices. pose proof (norm_check_all days) as H. unfold norm_check in H.
  apply andb_true_iff in H as [H _]. apply bool_decide_eq_true_1 in H. unfold norm_days. by rewrite H.
Qed.

Lemma format_norm_schedule n i : format_schedule (norm_schedule n) i = format_schedule n i.
Proof.
  destruct n as [k m o]. unfold format_schedule, norm_schedule. cbn [sched_kind sched_mode sched_options].
  destruct k; try done. cbn [norm_kind format_schedule_line]. by rewrite format_norm_days.
Qed.

Lemma format_norm_rule r : format_calendar_rule_line (norm_rule r) = format_calendar_rule_line r.
Proof.
  destruct r as [k t a]. unfold norm_rule. cbn [ar_kind ar_type ar_args].
  destruct (String.eqb (to_ascii_lowercase (sv_value t)) "weekly") eqn:Ew; [|done].
  destruct (weekly_days a) as [days|] eqn:Ed; [|done]. unfold format_calendar_rule_line.
  cbn [ar_kind ar_type ar_args]. rewrite Ew, Ed. apply String.eqb_eq in Ew. rewrite Ew.
  change (String.eqb "weekly" "timezone") with false. cbv iota.
  apply weekly_days_nonempty, day_indices_nonempty in Ed. pose proof (norm_check_all days) as H.
  unfold norm_check in H. apply andb_true_iff in H as [_ H].
  unfold norm_weekly, weekday_values. destruct (day_indices days) as [|i0 idx] eqn:Ei; [done|].
  destruct (weekly_days _) as [days'|]; [|done]. apply bool_decide_eq_true_1 in H.
  by rewrite !format_weekday_list_indices, H, Ei.
Qed.

Lemma split_description_cons d ds :
  is_description d = true -> split_description (d :: ds) = (Some d, ds).
Proof. cbn. by intros ->. Qed.

Lemma split_description_none ds :
  forallb (fun x => negb (is_description x)) ds = true -> split_description ds = (None, ds).
Proof.
  induction ds as [|x ds IH]; [done|]. cbn. intros H. b2p.
  match goal with H : is_description x = false |- _ => rewrite H end. by rewrite IH.
Qed.

Lemma split_norm_job j : split_description (jb_directives (norm_job j)) = split_description (jb_directives j).
Proof.
  unfold norm_job. pose proof (split_description_spec (jb_directives j)) as H.
  destruct (split_description (jb_directives j)) as [[d|] others]; cbn [jb_directives].
  - destruct H as (pre & post & _ & -> & Hd & _). by apply split_description_cons.
  - destruct H as [-> H]. by apply split_description_none.
Qed.

Lemma format_norm_job j i : format_job (norm_job j) i = format_job j i.
Proof.
  unfold format_job. rewrite split_norm_job. unfold norm_job.
  destruct (split_description (jb_directives j)) as [d others]. cbn [jb_key jb_schedule].
  destruct (jb_schedule j) as [n|]; [|done]. cbn. by rewrite format_norm_schedule.
Qed.

Lemma format_norm_item i n : format_item (norm_item i) n = format_item i n.
Proof.
  destruct i; try done; cbn [norm_item format_item].
  - unfold format_calendar_rule. rewrite map_map. do 2 f_equal. apply map_ext. intros r.
    by rewrite format_norm_rule.
  - apply format_norm_job.
Qed.

Lemma format_normalize ast : format (normalize ast) = format ast.
Proof.
  assert (forall b, format_items b (normalize ast) = format_items b ast) as E.
  { unfold normalize. induction ast as [|i ast IH]; intros b; [done|]. cbn [map format_items].
    rewrite format_norm_item, IH. by destruct i. }
  unfold format. by rewrite E.
Qed.
