(* ===== verification/ParserFacts.v ===== *)
(** * The parser always ends

    Every loop of the parser takes a token in each round and blocks nest at
    most [MAX_BLOCK_DEPTH] deep, so parsing ends with a file or an error. *)

From S2P Require Import Prelude RustStr Ast Lexer Parser Format LexFacts FormatTokens ItemTokens FormatParse.

Local Open Scope Z_scope.

(** The tokens end with the only [Eof], as [tokenize] leaves them. *)
Definition closed (ts : list TokenKind) : Prop :=
  exists init, ts = init ++ [Eof] /\ Eof ∉ init.

(** From [ts], under [C], the parser ends, with [n] tokens less at least when
    it succeeds. *)
Definition eats (n : nat) (C : list TokenKind -> Prop) {A} (m : P A) : Prop :=
  forall ts, closed ts -> C ts ->
    match m ts with
    | Ok (_, ts') => closed ts' /\ (length ts' + n <= length ts)%nat
    | Err e => e <> OutOfSteps
    end.

Definition always (ts : list TokenKind) : Prop := True.
Abbreviation tame := (eats 0 always).
Abbreviation hungry := (eats 1 always).

(** The first token is [tok]. *)
Definition at_tok (tok : TokenKind) (ts : list TokenKind) : Prop := hd_tok ts = tok.

Lemma closed_advance ts : closed ts -> hd_tok ts <> Eof ->
  exists t ts', ts = t :: ts' /\ closed ts' /\ advance ts = Ok (tt, ts').
Proof.
  intros (init & -> & Hn) Hh. destruct init as [|t init]; [done|]. exists t, (init ++ [Eof]).
  split_and!; [done| |].
  - exists init. split; [done|]. set_solver.
  - by destruct init.
Qed.

Lemma eats_weaken {A} n C m' (m : P A) (C' : _ -> Prop) :
  eats n C m -> (m' <= n)%nat -> (forall ts, C' ts -> C ts) -> eats m' C' m.
Proof.
  intros H Hn HC ts Hc HC'. specialize (H ts Hc (HC _ HC')). destruct (m ts) as [[a ts']|e]; [|done].
  destruct H. split; [done|lia].
Qed.

Lemma eats_ret {A} (a : A) C : eats 0 C (p_ret a).
Proof. intros ts Hc _. split; [done|lia]. Qed.

Lemma eats_fail {A} n C e : e <> OutOfSteps -> eats n C (@p_fail A e).
Proof. by intros He ts Hc _. Qed.

Lemma eats_bind {A B} n k C (m : P A) (f : A -> P B) :
  eats n C m -> (forall a, eats k always (f a)) -> eats (n + k) C (p_bind m f).
Proof.
  intros Hm Hf ts Hc HC. specialize (Hm ts Hc HC). unfold p_bind. destruct (m ts) as [[a ts']|e]; [|done].
  destruct Hm as [Hc' Hle]. specialize (Hf a ts' Hc' I). destruct (f a ts') as [[b ts'']|e]; [|done].
  destruct Hf. split; [done|lia].
Qed.

Lemma eats_peek {B} n C (f : TokenKind -> P B) :
  (forall tok, eats n (fun ts => C ts /\ at_tok tok ts) (f tok)) -> eats n C (p_bind peek f).
Proof. intros Hf ts Hc HC. rewrite peek_bind. by apply (Hf (hd_tok ts) ts). Qed.

Lemma eats_advance (C : list TokenKind -> Prop) tok :
  (forall ts, C ts -> at_tok tok ts) -> tok <> Eof -> eats 1 C advance.
Proof.
  intros HC Ht ts Hc H. destruct (closed_advance ts Hc) as (t & ts' & -> & Hc' & ->).
  { by rewrite (HC _ H). }
  split; [done|]. cbn. lia.
Qed.

Lemma drop_newlines_closed ts : closed ts -> closed (drop_newlines ts) /\ (length (drop_newlines ts) <= length ts)%nat.
Proof.
  intros (init & -> & Hn). induction init as [|t init IH]; [split; [by exists []|cbn; lia]|].
  destruct (decide (t = Newline)) as [->|Ht].
  - cbn [app drop_newlines length]. destruct IH; [set_solver|]. split; [done|lia].
  - assert (drop_newlines ((t :: init) ++ [Eof]) = (t :: init) ++ [Eof]) as -> by by destruct t.
    split; [by exists (t :: init)|done].
Qed.

Lemma drop_terminators_closed ts : closed ts -> closed (drop_terminators ts) /\ (length (drop_terminators ts) <= length ts)%nat.
Proof.
  intros (init & -> & Hn). induction init as [|t init IH]; [split; [by exists []|cbn; lia]|].
  destruct (is_terminator t) eqn:Ht.
  - assert (drop_terminators ((t :: init) ++ [Eof]) = drop_terminators (init ++ [Eof])) as -> by by destruct t.
    cbn [app length]. destruct IH; [set_solver|]. split; [done|lia].
  - assert (drop_terminators ((t :: init) ++ [Eof]) = (t :: init) ++ [Eof]) as -> by by destruct t.
    split; [by exists (t :: init)|done].
Qed.

Lemma eats_skip_newlines C : eats 0 C skip_newlines.
Proof. intros ts Hc _. destruct (drop_newlines_closed ts Hc). split; [done|lia]. Qed.
Lemma eats_skip_terminators C : eats 0 C skip_terminators.
Proof. intros ts Hc _. destruct (drop_terminators_closed ts Hc). split; [done|lia]. Qed.

(** Few enough tokens for [steps] rounds. *)
Definition bounded (steps : nat) (ts : list TokenKind) : Prop := (length ts < steps)%nat.

(** A loop with one step more than there are tokens. *)
Lemma eats_loop {A} n C (f : nat -> P A) :
  (forall steps, eats n (bounded steps) (f steps)) -> eats n C (p_loop f).
Proof. intros Hf ts Hc _. apply (Hf (S (length ts)) ts Hc). unfold bounded. lia. Qed.

(** A round that eats leaves enough steps for the next. *)
Lemma eats_round {A B} steps C (m : P A) (f : A -> P B) :
  (forall ts, C ts -> bounded (S steps) ts) -> eats 1 C m ->
  (forall a, eats 0 (bounded steps) (f a)) -> eats 1 C (p_bind m f).
Proof.
  intros HC Hm Hf ts Hc H. specialize (Hm ts Hc H). apply HC in H. unfold p_bind.
  destruct (m ts) as [[a ts']|e]; [|done]. unfold bounded in *.
  destruct Hm as [Hc' Hle]. assert (length ts' < steps)%nat as Hlt by lia.
  specialize (Hf a ts' Hc' Hlt). destruct (f a ts') as [[b ts'']|e]; [|done].
  destruct Hf. split; [done|lia].
Qed.

(** The rest of a round keeps the bound. *)
Lemma eats_keep {A B} n steps C (m : P A) (f : A -> P B) :
  (forall ts, C ts -> bounded steps ts) -> eats 0 C m ->
  (forall a, eats n (bounded steps) (f a)) -> eats n C (p_bind m f).
Proof.
  intros HC Hm Hf ts Hc H. specialize (Hm ts Hc H). apply HC in H. unfold p_bind.
  destruct (m ts) as [[a ts']|e]; [|done]. unfold bounded in *.
  destruct Hm as [Hc' Hle]. assert (length ts' < steps)%nat as Hlt by lia.
  specialize (Hf a ts' Hc' Hlt). destruct (f a ts') as [[b ts'']|e]; [|done].
  destruct Hf. split; [done|lia].
Qed.

(** ** Values, keywords, braces *)

Lemma eats_if {A} n C (b : bool) (m m' : P A) :
  (b = true -> eats n C m) -> (b = false -> eats n C m') -> eats n C (if b then m else m').
Proof. destruct b; auto. Qed.

Lemma eats_decide {A} n C (Q : Prop) `{Decision Q} (m m' : P A) :
  (Q -> eats n C m) -> (~ Q -> eats n C m') -> eats n C (if decide Q then m else m').
Proof. destruct (decide Q); auto. Qed.

Lemma value_not_eof tok : is_value tok = true -> tok <> Eof.
Proof. by destruct tok. Qed.

Lemma eats_read C : eats 1 C read_string_value.
Proof.
  apply eats_peek. intros tok. destruct (value_of tok) as [v|] eqn:E; [|by apply eats_fail].
  apply (eats_bind 1 0); [|intros; apply eats_ret]. apply (eats_advance _ tok); [by intros ? []|].
  apply value_not_eof. unfold is_value. by rewrite E.
Qed.

Lemma eats_expect_ident C w : eats 1 C (expect_ident w).
Proof.
  apply eats_peek. intros tok. apply eats_if; intros E; [|by apply eats_fail].
  apply (eats_advance _ tok); [by intros ? []|]. by destruct tok.
Qed.
Lemma eats_expect_lbrace C : eats 1 C expect_lbrace.
Proof.
  apply (eats_bind 0 1); [apply eats_skip_newlines|]. intros _. apply eats_peek. intros tok.
  apply eats_decide; [intros ->|by intros _; apply eats_fail]. by apply (eats_advance _ LBrace); [intros ? []|].
Qed.
Lemma eats_expect_rbrace C : eats 1 C expect_rbrace.
Proof.
  apply (eats_bind 0 1); [apply eats_skip_newlines|]. intros _. apply eats_peek. intros tok.
  apply eats_decide; [intros ->|by intros _; apply eats_fail]. by apply (eats_advance _ RBrace); [intros ? []|].
Qed.

Create HintDb eats.
#[export] Hint Resolve eats_ret eats_skip_newlines eats_skip_terminators eats_read eats_expect_ident
  eats_expect_lbrace eats_expect_rbrace : eats.

(** [m], which eats one, then the rest. *)
Lemma eats_then {A B} C (m : P A) (f : A -> P B) :
  eats 1 C m -> (forall a, eats 0 always (f a)) -> eats 1 C (p_bind m f).
Proof. intros Hm Hf. by apply (eats_bind 1 0). Qed.
(** [m], which eats nothing for sure, then something that does. *)
Lemma eats_after {A B} n C (m : P A) (f : A -> P B) :
  eats 0 C m -> (forall a, eats n always (f a)) -> eats n C (p_bind m f).
Proof. intros Hm Hf. by apply (eats_bind 0 n). Qed.
Lemma hungry_tame {A} C (m : P A) : eats 1 C m -> eats 0 C m.
Proof. intros H. eapply eats_weaken; [exact H|lia|done]. Qed.
Lemma eats_any {A} n C (m : P A) : eats n always m -> eats n C m.
Proof. intros H. eapply eats_weaken; [exact H|lia|done]. Qed.

(** One step of a proof that a parser eats. *)
Ltac eat1 :=
  lazymatch goal with
  | |- eats 0 _ (p_ret _) => apply eats_ret
  | |- eats _ _ (p_fail _) => apply eats_fail; discriminate
  | |- eats _ _ (p_bind peek _) => apply eats_peek; intros ?
  | |- eats 0 _ (p_bind _ _) => apply eats_after; [|intros ?]
  | |- eats 1 _ (p_bind skip_newlines _) => apply eats_after; [apply eats_skip_newlines|intros ?]
  | |- eats 1 _ (p_bind skip_terminators _) => apply eats_after; [apply eats_skip_terminators|intros ?]
  | |- eats 1 _ (p_bind _ _) => apply eats_then; [|intros ?]
  | |- eats _ _ (if decide _ then _ else _) => apply eats_decide; intros ?
  | |- eats _ _ (if _ then _ else _) => apply eats_if; intros ?
  end.
Ltac eat := repeat eat1; eauto using hungry_tame with eats.

(** ** Bodies, directives and blocks *)

Lemma eats_body_loop {A} (one : P (option A)) steps :
  eats 1 (fun ts => at_close (hd_tok ts) = false) one -> eats 0 (bounded steps) (body_loop one steps).
Proof.
  intros Hone. induction steps as [|steps IH]; intros ts Hc Hb; unfold bounded in *; [lia|].
  cbn [body_loop]. rewrite skip_newlines_bind, peek_bind.
  destruct (drop_newlines_closed ts Hc) as [Hc1 Hl1]. set (ts1 := drop_newlines ts) in *.
  destruct (at_close (hd_tok ts1)) eqn:E; [split; [done|cbn; lia]|].
  specialize (Hone ts1 Hc1 E). unfold p_bind. destruct (one ts1) as [[x ts2]|e]; [|done].
  destruct Hone as [Hc2 Hl2]. assert (bounded steps ts2) as Hb2 by (unfold bounded; lia). specialize (IH ts2 Hc2 Hb2).
  destruct (body_loop one steps ts2) as [[xs ts3]|e]; [|done]. destruct IH. split; [done|cbn; lia].
Qed.

Lemma eats_directive_args steps : eats 0 (bounded steps) (directive_args steps).
Proof.
  induction steps as [|steps IH]; [by intros ts _ Hb; unfold bounded in Hb; lia|].
  cbn [directive_args]. apply eats_peek. intros tok. apply eats_if; intros Hv; [|apply eats_ret].
  apply hungry_tame. eapply eats_round; [by intros ts []|apply eats_read|]. intros arg.
  apply eats_peek. intros next. apply (eats_keep _ steps); [by intros ts []| |].
  - apply eats_decide; intros Hd; [|apply eats_ret]. subst next.
    apply hungry_tame, eats_then; [by apply (eats_advance _ DotDot); [intros ts []|]|]. intros _. eat.
  - intros a. apply (eats_keep _ steps); [done|done|]. intros. apply eats_ret.
Qed.

Lemma eats_directive C : eats 1 C parse_directive.
Proof. unfold parse_directive. eat. apply eats_loop, eats_directive_args. Qed.
#[export] Hint Resolve eats_directive : eats.

(** Taking the token just looked at. *)
Lemma eats_take (C : list TokenKind -> Prop) tok : tok <> Eof -> eats 1 (fun ts => C ts /\ at_tok tok ts) advance.
Proof. intros H. apply (eats_advance _ tok); [by intros ts []|done]. Qed.
Lemma eats_take_then {A} C tok (m : () -> P A) :
  tok <> Eof -> (forall u, tame (m u)) -> eats 1 (fun ts => C ts /\ at_tok tok ts) (p_bind advance m).
Proof. intros H Hm. apply eats_then; [by apply eats_take|done]. Qed.

Lemma eats_directives C : eats 0 C parse_directives_until_rbrace.
Proof.
  apply eats_loop. intros steps. apply eats_body_loop. apply eats_peek. intros tok.
  apply eats_if; intros H.
  - apply eats_take_then; [|intros; apply eats_ret]. intros ->. by apply orb_true_iff in H as [H|H].
  - eat.
Qed.
#[export] Hint Resolve eats_directives : eats.

Lemma eats_dob nested C :
  tame nested -> eats 1 C (parse_directive_or_block nested).
Proof.
  intros Hn. unfold parse_directive_or_block. apply eats_after; [apply eats_skip_terminators|]. intros _.
  apply eats_peek. intros tok.
  assert (forall C, eats 1 C (let! d := parse_directive in p_ret (DDirective d))) as Hd by (intros; eat).
  (* the part after the look-ahead ends in the block or rewinds to [saved] *)
  assert (forall name q, tame (expect_lbrace >>> let! directives := nested in expect_rbrace >>>
            p_ret (DBlock (MkBlock name q directives)))) as Hb by (intros; eat).
  enough (forall saved, closed saved -> match
    (let! name := read_string_value in
     let block q := expect_lbrace >>> let! directives := nested in expect_rbrace >>>
                    p_ret (DBlock (MkBlock name q directives)) in
     let directive : P DirectiveOrBlock := fun _ =>
       (let! d := parse_directive in p_ret (DDirective d)) saved in
     let! tok := peek in
     if decide (tok = LBrace) then block None
     else if is_value tok then
       let! maybe_qualifier := read_string_value in
       let! tok := peek in
       if decide (tok = LBrace) then block (Some maybe_qualifier) else directive
     else directive) saved with
    | Ok (_, ts') => closed ts' /\ (length ts' + 1 <= length saved)%nat
    | Err e => e <> OutOfSteps end) as Hmain.
  { destruct tok; try (intros ts Hc _; by apply Hmain). apply eats_take_then; [done|]. intros; apply eats_ret. }
  intros saved Hc. specialize (Hd always saved Hc I).
  pose proof (eats_read always saved Hc I) as Hr. unfold p_bind at 1.
  destruct (read_string_value saved) as [[name ts1]|e]; [|done]. destruct Hr as [Hc1 Hl1].
  rewrite peek_bind. destruct (decide (hd_tok ts1 = LBrace)) as [Hl|Hl].
  { specialize (Hb name None ts1 Hc1 I). destruct (p_bind expect_lbrace _ ts1) as [[b ts2]|e]; [|done].
    destruct Hb. split; [done|lia]. }
  destruct (is_value (hd_tok ts1)); [|exact Hd].
  pose proof (eats_read always ts1 Hc1 I) as Hr2. unfold p_bind at 1.
  destruct (read_string_value ts1) as [[q ts2]|e]; [|done]. destruct Hr2 as [Hc2 Hl2].
  rewrite peek_bind. destruct (decide (hd_tok ts2 = LBrace)) as [Hlb|Hlb]; [|exact Hd].
  specialize (Hb name (Some q) ts2 Hc2 I). destruct (p_bind expect_lbrace _ ts2) as [[b ts3]|e]; [|done].
  destruct Hb. split; [done|lia].
Qed.

Lemma eats_dobs room C : eats 0 C (parse_directives_or_blocks room).
Proof.
  revert C. induction room as [|room IH]; intros C; cbn [parse_directives_or_blocks]; [by apply eats_fail|].
  apply eats_loop. intros steps. apply eats_body_loop. apply eats_then; [by apply eats_dob|].
  intros; apply eats_ret.
Qed.
Lemma eats_dobs_body C : eats 0 C parse_directives_or_blocks_until_rbrace.
Proof. apply eats_dobs. Qed.
#[export] Hint Resolve eats_dob eats_dobs eats_dobs_body : eats.

Lemma eats_named_block C : eats 1 C parse_named_block.
Proof. unfold parse_named_block. eat. Qed.
#[export] Hint Resolve eats_named_block : eats.

Lemma eats_braced {A} C kw (body : P A) : tame body -> eats 1 C (braced kw body).
Proof. intros H. unfold braced. eat. Qed.

Lemma comment_not_eof tok : is_comment tok = true -> tok <> Eof.
Proof. by destruct tok. Qed.
Lemma comment_or_semicolon_not_eof tok :
  is_comment tok || bool_decide (tok = Semicolon) = true -> tok <> Eof.
Proof. by destruct tok. Qed.

Lemma eats_sub_blocks one C :
  (forall C, eats 1 C one) -> eats 0 C (p_loop (body_loop (A := NamedBlock) one)).
Proof. intros H. apply eats_loop. intros steps. by apply eats_body_loop. Qed.

Lemma eats_named_round C : eats 1 C named_block_round.
Proof.
  unfold named_block_round. apply eats_peek. intros tok. apply eats_if; intros H; [|eat].
  apply eats_take_then; [by apply comment_not_eof|intros; apply eats_ret].
Qed.
Lemma eats_alerts_round C : eats 1 C alerts_round.
Proof.
  unfold alerts_round. apply eats_peek. intros tok. apply eats_if; intros H; [|eat].
  apply eats_take_then; [by apply comment_not_eof|intros; apply eats_ret].
Qed.

(** ** Calendars *)

Lemma eats_rule_args lower steps : eats 0 (bounded steps) (calendar_rule_args lower steps).
Proof.
  induction steps as [|steps IH]; [by intros ts _ Hb; unfold bounded in Hb; lia|].
  cbn [calendar_rule_args]. apply eats_peek. intros tok. apply eats_if; intros Hv; [|apply eats_ret].
  apply hungry_tame. eapply eats_round; [by intros ts []|apply eats_read|]. intros first.
  apply eats_peek. intros next. apply (eats_keep _ steps); [by intros ts []| |].
  - apply eats_decide; intros Hd; [|apply eats_ret]. subst next. apply hungry_tame.
    apply eats_take_then; [done|]. intros _. eat.
  - intros added. apply eats_peek. intros tok'. apply eats_if; intros Ht.
    + apply hungry_tame, eats_take_then; [by destruct tok'|intros; apply eats_ret].
    + apply (eats_keep _ steps); [by intros ts []| |intros; apply eats_ret].
      eapply eats_weaken; [exact IH|lia|by intros ts []].
Qed.

Lemma eats_rule C : eats 1 C parse_calendar_rule.
Proof.
  unfold parse_calendar_rule. apply eats_peek. intros tok.
  assert (forall kind C, eats 1 C (read_string_value >>> let! rtype := read_string_value in
    let! args := p_loop (calendar_rule_args (to_ascii_lowercase (sv_value rtype))) in
    p_ret (MkAstRule kind rtype args))) as Hrule.
  { intros kind C'. eat. apply eats_loop, eats_rule_args. }
  repeat (apply eats_if; intros ?); try apply Hrule; eat.
Qed.
#[export] Hint Resolve eats_rule : eats.

Lemma eats_calendar C : eats 1 C parse_calendar.
Proof.
  unfold parse_calendar. eat. apply eats_loop. intros steps. apply eats_body_loop.
  unfold calendar_round. apply eats_peek. intros tok. apply eats_if; intros H; [|eat].
  apply eats_take_then; [by apply comment_or_semicolon_not_eof|intros; apply eats_ret].
Qed.

(** ** Schedules *)

Lemma eats_options C : eats 0 C parse_optional_schedule_block.
Proof. unfold parse_optional_schedule_block. eat. Qed.

Lemma text_not_eof tok : text tok <> "" -> tok <> Eof.
Proof. by destruct tok. Qed.

Lemma eats_time C : eats 1 C parse_time.
Proof.
  unfold parse_time. apply eats_peek. intros tok.
  destruct (split_char ":" (text tok)) as [|h [|m [|]]] eqn:E; try (by apply eats_fail).
  destruct (parse_u8 h); [|by apply eats_fail]. destruct (parse_u8 m); [|by apply eats_fail].
  apply eats_if; intros _; [by apply eats_fail|]. apply eats_take_then; [|intros; apply eats_ret].
  intros ->. by cbn in E.
Qed.
#[export] Hint Resolve eats_options eats_time : eats.

Lemma day_name_not_eof tok : is_day_name (text tok) = true -> tok <> Eof.
Proof. by intros H ->. Qed.

Lemma eats_weekday_list steps : eats 0 (bounded steps) (weekday_list steps).
Proof.
  induction steps as [|steps IH]; [by intros ts _ Hb; unfold bounded in Hb; lia|].
  cbn [weekday_list]. apply eats_peek. intros tok. apply eats_if; intros Hd; [|apply eats_ret].
  apply hungry_tame. eapply eats_round; [by intros ts []| |].
  - pose proof (day_name_not_eof tok Hd) as Hne. unfold is_day_name, AstWeekday.parse_token in Hd.
    destruct (AstWeekday.parse_group (text tok)); [apply eats_take_then; [done|intros; apply eats_ret]|].
    destruct (AstWeekday.parse (text tok)); [|done]. apply eats_take_then; [done|]. intros _.
    apply eats_peek. intros next. apply eats_decide; intros H; [|apply eats_ret]. subst next.
    apply hungry_tame, eats_take_then; [done|]. intros _. apply eats_peek. intros end_tok.
    destruct (AstWeekday.parse (text end_tok)) eqn:E; [|by apply eats_fail].
    apply hungry_tame, eats_take_then; [by intros ->|intros; apply eats_ret].
  - intros days. apply (eats_keep _ steps); [done|done|]. intros; apply eats_ret.
Qed.

Lemma eats_ordinal tok C : is_ordinal (text tok) = true ->
  eats 1 (fun ts => C ts /\ at_tok tok ts) parse_ordinal.
Proof.
  intros H. assert (tok <> Eof) as Hne by by intros ->.
  unfold parse_ordinal. apply eats_peek. intros tok'.
  apply eats_if; intros Hl.
  { apply eats_take_then; [by destruct tok'|intros; apply eats_ret]. }
  destruct (or_else _ _) as [num|] eqn:E; [|by apply eats_fail].
  destruct (parse_u8 num) as [n|]; [|by apply eats_fail]. apply eats_if; intros _; [by apply eats_fail|].
  apply eats_take_then; [by intros ->|intros; apply eats_ret].
Qed.

Lemma eats_ordinal_list steps : eats 0 (bounded steps) (ordinal_list steps).
Proof.
  induction steps as [|steps IH]; [by intros ts _ Hb; unfold bounded in Hb; lia|].
  cbn [ordinal_list]. apply eats_peek. intros tok. apply eats_if; intros Hd; [|apply eats_ret].
  apply hungry_tame. eapply eats_round; [by intros ts []|by apply eats_ordinal|].
  intros o. apply (eats_keep _ steps); [done|done|]. intros; apply eats_ret.
Qed.

Lemma eats_interval C : eats 0 C parse_schedule_interval.
Proof.
  unfold parse_schedule_interval. apply eats_peek. intros tok. apply eats_after; [|intros; eat].
  destruct (parse_compact_interval (text tok)) eqn:Ec.
  { apply hungry_tame, eats_take_then; [by intros ->|intros; apply eats_ret]. }
  destruct (parse_u32 (text tok)) eqn:E; [|by apply eats_fail].
  apply hungry_tame, eats_take_then; [by intros ->|]. intros _. apply eats_peek. intros unit_tok.
  destruct (parse_unit (text unit_tok)) eqn:Eu; [|by apply eats_fail].
  apply hungry_tame, eats_take_then; [by intros ->|intros; apply eats_ret].
Qed.

Lemma eats_every C : eats 1 C parse_schedule_every.
Proof.
  unfold parse_schedule_every. apply eats_then; [apply eats_expect_ident|]. intros _. apply eats_peek.
  intros next. repeat (apply eats_if; intros ?).
  - unfold parse_schedule_weekdays. eat. apply eats_loop, eats_weekday_list.
  - unfold parse_schedule_daily. eat.
  - unfold parse_schedule_monthly. eat. apply eats_loop, eats_ordinal_list.
  - apply eats_interval.
Qed.

Lemma eats_schedule C : eats 1 C parse_schedule.
Proof.
  unfold parse_schedule. apply eats_peek. intros tok. apply eats_after.
  { repeat (apply eats_if; intros ?); [| |apply eats_ret];
      (apply hungry_tame, eats_take_then; [by destruct tok|intros; apply eats_ret]). }
  intros mode. apply eats_peek. intros tok'. apply eats_then; [|intros; apply eats_ret].
  repeat (apply eats_if; intros ?).
  - apply eats_take_then; [by destruct tok'|intros; apply eats_ret].
  - unfold parse_schedule_once. eat.
  - apply eats_every.
  - by apply eats_fail.
Qed.

(** ** Jobs and items *)

Lemma eats_job_loop steps s : eats 0 (bounded steps) (job_loop steps s).
Proof.
  revert s. induction steps as [|steps IH]; intros s; [by intros ts _ Hb; unfold bounded in Hb; lia|].
  cbn [job_loop]. apply (eats_keep _ (S steps)); [done|apply eats_skip_newlines|]. intros _.
  apply eats_peek. intros tok. apply eats_if; intros Hc; [apply eats_ret|].
  assert (forall d C, (forall ts, C ts -> bounded steps ts) ->
    eats 0 C (let! more := job_loop steps s in p_ret (more.1, d :: more.2))) as Hadd.
  { intros d C HC. eapply eats_weaken; [|done|exact HC]. apply (eats_keep _ steps); [done|done|].
    intros; apply eats_ret. }
  assert (eats 0 (fun ts => bounded (S steps) ts /\ at_tok tok ts)
    (let! d := parse_directive_or_block parse_directives_or_blocks_until_rbrace in
     let! more := job_loop steps s in p_ret (more.1, d :: more.2))) as Hdob.
  { apply hungry_tame. eapply eats_round; [by intros ts []|apply eats_dob, eats_dobs_body|].
    intros d. by apply Hadd. }
  assert (eats 0 (fun ts => bounded (S steps) ts /\ at_tok tok ts)
    match s with
    | None => if is_schedule_start tok then let! s := parse_schedule in job_loop steps (Some s)
              else let! d := parse_directive_or_block parse_directives_or_blocks_until_rbrace in
                   let! more := job_loop steps s in p_ret (more.1, d :: more.2)
    | Some _ => let! d := parse_directive_or_block parse_directives_or_blocks_until_rbrace in
                let! more := job_loop steps s in p_ret (more.1, d :: more.2)
    end) as Hother.
  { destruct s as [s|]; [done|]. apply eats_if; intros _; [|done].
    apply hungry_tame. eapply eats_round; [by intros ts []|apply eats_schedule|]. intros n. apply IH. }
  destruct tok; try exact Hother.
  - apply hungry_tame. eapply eats_round; [by intros ts []|by apply eats_take|]. intros _. by apply Hadd.
  - apply hungry_tame. eapply eats_round; [by intros ts []|by apply eats_take|]. intros _. apply IH.
Qed.

Lemma eats_job_key C : eats 1 C parse_job_key.
Proof.
  unfold parse_job_key. apply eats_peek. intros tok.
  assert (forall raw C', eats 0 C' (match job_key_of raw with
            | Some key => p_ret key | None => p_fail (InvalidJobKey raw) end)) as Hk
    by (intros raw C'; destruct (job_key_of raw); [apply eats_ret|by apply eats_fail]).
  destruct tok; try (by apply eats_fail); (apply eats_take_then; [done|]; intros _; apply Hk).
Qed.

Lemma eats_job C : eats 1 C parse_job.
Proof.
  unfold parse_job. eat; [apply hungry_tame, eats_job_key|]. apply eats_loop. intros steps. apply eats_job_loop.
Qed.

Lemma eats_map {A B} n C (f : A -> B) (m : P A) : eats n C m -> eats n C (p_map f m).
Proof.
  intros H ts Hc HC. specialize (H ts Hc HC). unfold p_map, p_bind. by destruct (m ts) as [[a ts']|e].
Qed.

Lemma eats_item_parser w p C : item_parser w = Some p -> eats 1 C p.
Proof.
  unfold item_parser.
  repeat match goal with |- (if ?b then _ else _) = _ -> _ => destruct b end; intros [= <-]; apply eats_map;
    try (apply eats_braced; first [apply eats_directives | apply eats_dobs_body
                                  | apply eats_sub_blocks; intros; first [apply eats_named_round | apply eats_alerts_round]]).
  - unfold parse_import. eat.
  - apply eats_calendar.
  - unfold parse_concurrency_group. eat.
  - apply eats_job.
Qed.

Lemma eats_item C : eats 1 C parse_item.
Proof.
  unfold parse_item. apply eats_after; [apply eats_skip_terminators|]. intros _. apply eats_peek. intros tok.
  destruct tok; try (by apply eats_fail).
  - destruct (item_parser s) as [p|] eqn:E; [|by apply eats_fail]. by eapply eats_item_parser.
  - apply eats_take_then; [done|intros; apply eats_ret].
Qed.

Lemma eats_item_loop steps : eats 0 (bounded steps) (item_loop steps).
Proof.
  induction steps as [|steps IH]; [by intros ts _ Hb; unfold bounded in Hb; lia|].
  cbn [item_loop]. apply (eats_keep _ (S steps)); [done|apply eats_skip_terminators|]. intros _.
  apply eats_peek. intros tok. apply eats_decide; intros _; [apply eats_ret|].
  apply hungry_tame. eapply eats_round; [by intros ts []|apply eats_item|].
  intros i. apply (eats_keep _ steps); [done|done|]. intros; apply eats_ret.
Qed.

Lemma eats_rule_list steps : eats 0 (bounded steps) (rule_list steps).
Proof.
  induction steps as [|steps IH]; [by intros ts _ Hb; unfold bounded in Hb; lia|].
  cbn [rule_list]. apply (eats_keep _ (S steps)); [done|apply eats_skip_newlines|]. intros _.
  apply eats_peek. intros tok. apply eats_decide; intros _; [apply eats_ret|].
  apply eats_if; intros H.
  - apply hungry_tame. eapply eats_round; [by intros ts []| |by intros _].
    apply eats_take. by apply comment_or_semicolon_not_eof.
  - apply hungry_tame. eapply eats_round; [by intros ts []|apply eats_rule|].
    intros r. apply (eats_keep _ steps); [done|done|]. intros; apply eats_ret.
Qed.

(** ** The whole *)

Lemma tokenize_closed source toks : tokenize source = Ok toks -> closed (map tok_kind toks).
Proof.
  intros E. pose proof (tokenize_total source) as H. rewrite E in H.
  destruct (tokenize_loop_last _ _ _ _ H) as (init & e & -> & He & Hf).
  exists (map tok_kind init). rewrite map_app. cbn. rewrite He. split; [done|].
  intros Hin. apply list_elem_of_fmap in Hin as (t & Ht & Hin). rewrite Forall_forall in Hf.
  by apply (Hf t Hin).
Qed.

Lemma tokenize_refusal source e : tokenize source = Err e -> of_lex_error e <> OutOfSteps.
Proof. intros E. pose proof (tokenize_ends source). by destruct e. Qed.

Lemma run_parser_ends {A} (m : P A) source toks :
  tame m -> tokenize source = Ok toks -> run_parser m toks <> Err OutOfSteps.
Proof.
  intros Hm Et. apply tokenize_closed in Et. specialize (Hm _ Et I). unfold run_parser.
  destruct (m (map tok_kind toks)) as [[a ts]|e]; [done|]. congruence.
Qed.
