(* ===== verification/CalendarArgs.v ===== *)
(** * Calendar rule arguments

    Models [croniq-config/src/calendar_args.rs], the parsers shared by the
    offline validator and the scheduler's calendar compiler. Error texts are
    the source's. *)

From S2P Require Import Prelude RustStr Chrono Ast.

Local Open Scope string_scope.
Local Open Scope Z_scope.

(** [parse_weekly_arg] *)
Definition parse_weekly_arg (s : string) : result (list AstWeekday.t) string :=
  ok_or (AstWeekday.parse_token s) ("unknown weekday: " +:+ s).

(** [parse_time] *)
Definition parse_time (s : string) : result NaiveTime string :=
  let err := "invalid time: " +:+ s in
  match split_char ":" s with
  | [h; m] =>
      res_bind (ok_or (parse_u32 h) err) (fun hour =>
      res_bind (ok_or (parse_u32 m) err) (fun minute =>
      ok_or (from_hm_opt hour minute) err))
  | _ => Err err
  end.

(** [parse_window_args] *)
Definition parse_window_args (args : list string) : result (NaiveTime * NaiveTime) string :=
  match args with
  | [] => Err "window requires start..end times"
  | _ =>
      res_bind
        match args with
        | [a] => ok_or (split_once ".." a) ("invalid window: " +:+ a)
        | [a; b] => Ok (a, b)
        | _ => Err "window expects start..end or start end"
        end
        (fun '(start_str, end_str) =>
           res_bind (parse_time start_str) (fun st =>
           res_bind (parse_time end_str) (fun en => Ok (st, en))))
  end.

(** [parse_monthly_arg] *)
Definition parse_monthly_arg (s : string) : result Z string :=
  ok_or (parse_u32 s) ("invalid day: " +:+ s).

Inductive AnnualArg :=
| AMonthDay (month day : Z)
| ADate (d : NaiveDate)
| AIgnored.

(** [parse_annual_arg] *)
Definition parse_annual_arg `{C : Chrono} (s : string) : result AnnualArg string :=
  let err := "invalid date: " +:+ s in
  if (str_len s =? 5) && contains_char "-" s then
    match split_char "-" s with
    | [m; d] =>
        res_bind (ok_or (parse_u32 m) err) (fun month =>
        res_bind (ok_or (parse_u32 d) err) (fun day =>
        Ok (AMonthDay month day)))
    | _ => Ok AIgnored
    end
  else if (str_len s =? 10) && (count_char "-" s =? 2) then
    match parse_naive_date s with
    | Some d => Ok (ADate d)
    | None => Err err
    end
  else Err ("invalid annual date format: " +:+ s +:+ " (expected MM-DD or YYYY-MM-DD)").

(** [rule_args_valid] *)
Definition rule_args_valid `{C : Chrono} (rule_type : string) (args : list string) : bool :=
  if String.eqb rule_type "weekly" then forallb (fun a => is_ok (parse_weekly_arg a)) args
  else if String.eqb rule_type "window" then is_ok (parse_window_args args)
  else if String.eqb rule_type "monthly" then forallb (fun a => is_ok (parse_monthly_arg a)) args
  else if String.eqb rule_type "annual" || String.eqb rule_type "yearly"
  then forallb (fun a => is_ok (parse_annual_arg a)) args
  else true.

(** A time of day the parsers produce: on a whole second, inside the day. *)
Definition hm_time (t : NaiveTime) : Prop := 0 <= t < NS_DAY /\ nanosecond t = 0.

Lemma parse_time_hm s t : parse_time s = Ok t -> hm_time t.
Proof.
  unfold parse_time. destruct (split_char ":" s) as [|h [|m [|]]]; try done.
  destruct (parse_u32 h) as [hv|] eqn:Hh; simpl; [|done].
  destruct (parse_u32 m) as [mv|] eqn:Hm; simpl; [|done].
  apply parse_uint_range in Hh; [|done]. apply parse_uint_range in Hm; [|done].
  destruct (from_hm_opt hv mv) eqn:E; simpl; [|done].
  intros [= <-]. apply from_hm_opt_range in E; [done|lia|lia].
Qed.

Lemma parse_window_args_hm args s e : parse_window_args args = Ok (s, e) -> hm_time s /\ hm_time e.
Proof.
  unfold parse_window_args. destruct args as [|a args]; [done|].
  destruct (match args with [] => _ | _ => _ end) as [[x y]|]; simpl; [|done].
  destruct (parse_time x) eqn:Hx; simpl; [|done].
  destruct (parse_time y) eqn:Hy; simpl; [|done].
  intros [= <- <-]. split; by eapply parse_time_hm.
Qed.

Example window_forms_agree :
  parse_window_args ["08:00..18:00"] = parse_window_args ["08:00"; "18:00"].
Proof. vm_compute. done. Qed.
