(* ===== verification/DaySets.v ===== *)
(** * Second-of-day interval sets

    The interval algebra of [croniq-scheduler/src/calendar.rs]:
    [window_intervals], [intersect_intervals], [subtract_intervals] and the
    day-jumping search [next_instant_in]. A [DaySet] denotes the seconds of a
    day it covers ([covers]); [day_ok] is its representation invariant
    (sorted, disjoint, non-empty half-open intervals inside the day). *)

From S2P Require Import Prelude RustStr Chrono CalendarArgs.

Local Open Scope Z_scope.

Abbreviation DaySet := (list (Z * Z)).

Definition DAY_SECS : Z := 86400.
Definition MAX_SCAN_DAYS : Z := 4 * 365 + 2.

(** [window_intervals] *)
Definition window_intervals (start end_ : NaiveTime) : DaySet :=
  let s := num_seconds_from_midnight start in
  let e := num_seconds_from_midnight end_ in
  match s ?= e with
  | Lt => [(s, e)]
  | Eq => []
  | Gt => (if 0 <? e then [(0, e)] else []) ++ [(s, DAY_SECS)]
  end.

(** [intersect_intervals]: the two cursors of the source are the two suffixes
    still to be merged. *)
Fixpoint intersect_intervals (a : DaySet) : DaySet -> DaySet :=
  match a with
  | [] => fun _ => []
  | (s1, e1) :: a' =>
      fix go (b : DaySet) : DaySet :=
        match b with
        | [] => []
        | (s2, e2) :: b' =>
            let lo := Z.max s1 s2 in
            let hi := Z.min e1 e2 in
            let rest := if e1 <=? e2 then intersect_intervals a' ((s2, e2) :: b')
                        else go b' in
            if lo <? hi then (lo, hi) :: rest else rest
        end
  end.

(** The complement loop of [subtract_intervals]. *)
Fixpoint complement_from (cursor : Z) (b : DaySet) : DaySet :=
  match b with
  | [] => if cursor <? DAY_SECS then [(cursor, DAY_SECS)] else []
  | (s, e) :: b' =>
      (if cursor <? s then [(cursor, s)] else []) ++ complement_from (Z.max cursor e) b'
  end.

(** [subtract_intervals] *)
Definition subtract_intervals (a b : DaySet) : DaySet :=
  intersect_intervals a (complement_from 0 b).

(** The inner loop of [next_instant_in]: the first interval of the day that
    still has room at or after the lower bound. *)
Fixpoint scan_set (first_day : bool) (from_secs : Z) (set : DaySet) : option Z :=
  match set with
  | [] => None
  | (s, e) :: set' =>
      let lower := if first_day then Z.max from_secs s else s in
      if lower <? e then Some lower else scan_set first_day from_secs set'
  end.

Section NextInstant.
  Context `{C : Chrono}.

(** The outer loop: [fuel] days left, starting [offset] days after [from]. *)
Fixpoint scan_days (intervals_on : NaiveDate -> DaySet) (from : NaiveDateTime)
    (from_secs : Z) (fuel : nat) (offset : Z) : option NaiveDateTime :=
  match fuel with
  | O => None
  | S fuel' =>
      date ← checked_add_days (date_of from) offset;
      match scan_set (offset =? 0) from_secs (intervals_on date) with
      | Some lower =>
          t ← from_num_seconds_from_midnight_opt lower; Some (and_time date t)
      | None => scan_days intervals_on from from_secs fuel' (offset + 1)
      end
  end.

(** [next_instant_in] *)
Definition next_instant_in (from : NaiveDateTime) (intervals_on : NaiveDate -> DaySet)
    : option NaiveDateTime :=
  let from_secs := num_seconds_from_midnight (time_of from) in
  let from_secs := if 0 <? nanosecond (time_of from) then from_secs + 1 else from_secs in
  scan_days intervals_on from from_secs (Z.to_nat (MAX_SCAN_DAYS + 1)) 0.
End NextInstant.
#[global] Arguments next_instant_in : simpl never.

(** ** Denotation and invariant *)

Definition covers (set : DaySet) (x : Z) : Prop :=
  Exists (fun i => i.1 <= x < i.2) set.

Fixpoint day_ok (lo : Z) (set : DaySet) : Prop :=
  match set with
  | [] => True
  | (s, e) :: set' => lo <= s /\ s < e /\ e <= DAY_SECS /\ day_ok e set'
  end.

Lemma covers_nil x : covers [] x <-> False.
Proof. unfold covers. by rewrite Exists_nil. Qed.

Lemma covers_cons s e set x : covers ((s, e) :: set) x <-> s <= x < e \/ covers set x.
Proof. unfold covers. by rewrite Exists_cons. Qed.

Lemma covers_app a b x : covers (a ++ b) x <-> covers a x \/ covers b x.
Proof. unfold covers. by rewrite Exists_app. Qed.

Create Rewrite HintDb dayset.
#[export] Hint Rewrite covers_nil covers_cons covers_app : dayset.

Lemma day_ok_weaken lo lo' set : lo' <= lo -> day_ok lo set -> day_ok lo' set.
Proof. destruct set as [|[s e] set]; simpl; intros; [done|lia || intuition lia]. Qed.

Lemma day_ok_covers_ge lo set x : day_ok lo set -> covers set x -> lo <= x < DAY_SECS.
Proof.
  revert lo. induction set as [|[s e] set IH]; intros lo; autorewrite with dayset; [done|].
  simpl. intros (?&?&?&Hok) [Hx|Hx]; [lia|]. specialize (IH _ Hok Hx). lia.
Qed.

Lemma intersect_nil_r a : intersect_intervals a [] = [].
Proof. by destruct a as [|[]]. Qed.

Lemma intersect_cons s1 e1 a s2 e2 b :
  intersect_intervals ((s1, e1) :: a) ((s2, e2) :: b) =
  (if Z.max s1 s2 <? Z.min e1 e2 then [(Z.max s1 s2, Z.min e1 e2)] else []) ++
  (if e1 <=? e2 then intersect_intervals a ((s2, e2) :: b)
   else intersect_intervals ((s1, e1) :: a) b).
Proof. simpl. by destruct (Z.max s1 s2 <? Z.min e1 e2). Qed.

(** Induction that follows the merge: drop the head that ends first. *)
Lemma merge_ind (P : DaySet -> DaySet -> Prop) :
  (forall b, P [] b) -> (forall a, P a []) ->
  (forall s1 e1 a s2 e2 b,
     (e1 <= e2 -> P a ((s2, e2) :: b)) -> (e2 < e1 -> P ((s1, e1) :: a) b) ->
     P ((s1, e1) :: a) ((s2, e2) :: b)) ->
  forall a b, P a b.
Proof.
  intros Hl Hr Hs a. induction a as [|[s1 e1] a IHa]; [done|].
  intros b. induction b as [|[s2 e2] b IHb]; [done|]. auto.
Qed.

Lemma intersect_covers a b x :
  forall la lb, day_ok la a -> day_ok lb b ->
  covers (intersect_intervals a b) x <-> covers a x /\ covers b x.
Proof.
  pattern a, b. apply merge_ind; clear a b;
    [intros b la lb Ha Hb|intros a la lb Ha Hb|intros s1 e1 a s2 e2 b IH1 IH2 la lb Ha Hb].
  - simpl. autorewrite with dayset. tauto.
  - rewrite intersect_nil_r. autorewrite with dayset. tauto.
  - rewrite intersect_cons, covers_app. simpl in Ha, Hb.
    destruct Ha as (?&?&?&Ha), Hb as (?&?&?&Hb).
    assert (covers (if Z.max s1 s2 <? Z.min e1 e2 then [(Z.max s1 s2, Z.min e1 e2)] else []) x
            <-> s1 <= x < e1 /\ s2 <= x < e2) as ->.
    { case_if; b2p; autorewrite with dayset; lia. }
    destruct (Z.leb_spec e1 e2).
    + rewrite (IH1 ltac:(lia) e1 s2) by (simpl; auto with lia).
      autorewrite with dayset.
      assert (covers a x -> e1 <= x < DAY_SECS) by eauto using day_ok_covers_ge.
      assert (covers b x -> e2 <= x < DAY_SECS) by eauto using day_ok_covers_ge.
      split; [tauto|]. intros [[?|?] [?|?]]; try tauto; exfalso; intuition lia.
    + rewrite (IH2 ltac:(lia) s1 e2) by (simpl; auto with lia).
      autorewrite with dayset.
      assert (covers a x -> e1 <= x < DAY_SECS) by eauto using day_ok_covers_ge.
      assert (covers b x -> e2 <= x < DAY_SECS) by eauto using day_ok_covers_ge.
      split; [tauto|]. intros [[?|?] [?|?]]; try tauto; exfalso; intuition lia.
Qed.

Lemma intersect_ok a b :
  forall la lb, day_ok la a -> day_ok lb b -> day_ok (Z.max la lb) (intersect_intervals a b).
Proof.
  pattern a, b. apply merge_ind; clear a b;
    [intros b la lb Ha Hb|intros a la lb Ha Hb|intros s1 e1 a s2 e2 b IH1 IH2 la lb Ha Hb].
  - done.
  - by rewrite intersect_nil_r.
  - rewrite intersect_cons. simpl in Ha, Hb.
    destruct Ha as (?&?&?&Ha), Hb as (?&?&?&Hb).
    assert (day_ok (Z.min e1 e2)
              (if e1 <=? e2 then intersect_intervals a ((s2, e2) :: b)
               else intersect_intervals ((s1, e1) :: a) b)) as Hrest.
    { destruct (Z.leb_spec e1 e2).
      - eapply day_ok_weaken, (IH1 ltac:(lia) e1 s2); simpl; auto with lia.
      - eapply day_ok_weaken, (IH2 ltac:(lia) s1 e2); simpl; auto with lia. }
    destruct (Z.ltb_spec (Z.max s1 s2) (Z.min e1 e2)); simpl.
    + auto with lia.
    + destruct (Z.leb_spec e1 e2).
      * eapply day_ok_weaken, (IH1 ltac:(lia) e1 s2); simpl; auto with lia.
      * eapply day_ok_weaken, (IH2 ltac:(lia) s1 e2); simpl; auto with lia.
Qed.

Lemma complement_from_ok c b :
  0 <= c -> day_ok c b -> day_ok c (complement_from c b).
Proof.
  revert c. induction b as [|[s e] b IH]; intros c Hc; simpl.
  - intros _. destruct (Z.ltb_spec c DAY_SECS); simpl; auto with lia.
  - intros (?&?&?&Hb). rewrite Z.max_r by lia.
    assert (day_ok s (complement_from e b)) by (eapply day_ok_weaken, IH; [lia|lia|done]).
    destruct (Z.ltb_spec c s); simpl; [auto with lia|].
    by eapply day_ok_weaken; [|apply IH]; auto with lia.
Qed.

Lemma complement_from_covers c b x :
  day_ok c b -> covers (complement_from c b) x <-> c <= x < DAY_SECS /\ ~ covers b x.
Proof.
  revert c. induction b as [|[s e] b IH]; intros c; simpl.
  - intros _. destruct (Z.ltb_spec c DAY_SECS); autorewrite with dayset; lia.
  - intros (?&?&?&Hb). rewrite Z.max_r by lia.
    rewrite covers_app, (IH _ Hb), covers_cons.
    assert (covers b x -> e <= x < DAY_SECS) by eauto using day_ok_covers_ge.
    assert (x < s \/ s <= x < e \/ e <= x) by lia.
    destruct (Z.ltb_spec c s); autorewrite with dayset; intuition (try lia).
Qed.

Lemma subtract_covers a b x :
  day_ok 0 a -> day_ok 0 b ->
  covers (subtract_intervals a b) x <-> covers a x /\ ~ covers b x.
Proof.
  intros Ha Hb. unfold subtract_intervals.
  rewrite (intersect_covers a _ x 0 0) by (auto using complement_from_ok with lia).
  rewrite complement_from_covers by done.
  assert (covers a x -> 0 <= x < DAY_SECS) by eauto using day_ok_covers_ge. tauto.
Qed.

Lemma subtract_ok a b : day_ok 0 a -> day_ok 0 b -> day_ok 0 (subtract_intervals a b).
Proof.
  intros Ha Hb. apply (intersect_ok a _ 0 0); [done|]. apply complement_from_ok; [lia|done].
Qed.

(** A daily window [start..end] as the sources test it: half open, wrapping at
    midnight when [start > end]. Shared by [CalendarRule::Window] and
    [TimeWindow::contains]. *)
Definition window_test (start end_ time : NaiveTime) : bool :=
  if start <=? end_ then (start <=? time) && (time <? end_)
  else (start <=? time) || (time <? end_).

Lemma hm_time_secs t : hm_time t -> t = num_seconds_from_midnight t * NS_SEC
  /\ 0 <= num_seconds_from_midnight t < DAY_SECS.
Proof.
  unfold hm_time, nanosecond, num_seconds_from_midnight, NS_DAY, DAY_SECS, NS_SEC.
  intros [? ?]. Z.div_mod_to_equations. lia.
Qed.

Lemma secs_le_iff s t : s = num_seconds_from_midnight s * NS_SEC ->
  s <= t <-> num_seconds_from_midnight s <= num_seconds_from_midnight t.
Proof. unfold num_seconds_from_midnight, NS_SEC. intros. Z.div_mod_to_equations. lia. Qed.

Lemma window_intervals_covers start end_ t :
  hm_time start -> hm_time end_ -> 0 <= t < NS_DAY ->
  covers (window_intervals start end_) (num_seconds_from_midnight t)
  <-> window_test start end_ t = true.
Proof.
  intros Hs He Ht. unfold window_intervals, window_test.
  apply hm_time_secs in Hs as [Hs Hs'], He as [He He'].
  pose proof (secs_le_iff start t Hs) as Hst. pose proof (secs_le_iff end_ t He) as Het.
  assert (0 <= num_seconds_from_midnight t < DAY_SECS) as Hx.
  { unfold num_seconds_from_midnight, NS_DAY, DAY_SECS, NS_SEC in *.
    Z.div_mod_to_equations. lia. }
  pose proof (secs_le_iff start end_ Hs) as Hse.
  cbv zeta. destruct (Z.compare_spec (num_seconds_from_midnight start)
                        (num_seconds_from_midnight end_));
    repeat case_if; b2p; autorewrite with dayset;
    rewrite ?andb_true_iff, ?orb_true_iff, ?Z.leb_le, ?Z.ltb_lt; lia.
Qed.

Lemma window_intervals_ok start end_ :
  hm_time start -> hm_time end_ -> day_ok 0 (window_intervals start end_).
Proof.
  intros Hs He. apply hm_time_secs in Hs as [_ Hs], He as [_ He].
  unfold window_intervals. cbv zeta.
  destruct (Z.compare_spec (num_seconds_from_midnight start)
              (num_seconds_from_midnight end_)); repeat case_if; b2p; simpl;
    unfold DAY_SECS in *; lia.
Qed.

(** ** The day-jumping search *)

(** A wall clock reading on a whole second, its second of the day, and whether
    a family of day sets is open at it. *)
Definition whole_second (n : NaiveDateTime) : Prop := n mod NS_SEC = 0.
Definition second_of_day (n : NaiveDateTime) : Z := num_seconds_from_midnight (time_of n).
Definition open_at (intervals_on : NaiveDate -> DaySet) (n : NaiveDateTime) : Prop :=
  covers (intervals_on (date_of n)) (second_of_day n).

Lemma second_of_day_range n : 0 <= second_of_day n < DAY_SECS.
Proof.
  unfold second_of_day, num_seconds_from_midnight, time_of, NS_DAY, NS_SEC, DAY_SECS.
  Z.div_mod_to_equations. lia.
Qed.

(** A whole-second reading is its date and second of the day. *)
Lemma whole_second_split n :
  whole_second n -> n = and_time (date_of n) (second_of_day n * NS_SEC).
Proof.
  unfold whole_second, and_time, date_of, second_of_day, num_seconds_from_midnight, time_of,
    NS_DAY, NS_SEC. intros. Z.div_mod_to_equations. lia.
Qed.

Lemma second_of_day_and_time d x :
  0 <= x < DAY_SECS ->
  date_of (and_time d (x * NS_SEC)) = d /\ second_of_day (and_time d (x * NS_SEC)) = x
  /\ whole_second (and_time d (x * NS_SEC)).
Proof.
  unfold whole_second, and_time, date_of, second_of_day, num_seconds_from_midnight, time_of,
    NS_DAY, NS_SEC, DAY_SECS. intros. Z.div_mod_to_equations. lia.
Qed.

Lemma scan_set_some fd fs set lo x :
  day_ok lo set -> scan_set fd fs set = Some x ->
  covers set x /\ (fd = true -> fs <= x) /\
  (forall y, covers set y -> (fd = true -> fs <= y) -> x <= y).
Proof.
  revert lo. induction set as [|[s e] set IH]; intros lo; simpl; [done|].
  intros (?&?&?&Hok). case_if; b2p.
  - intros [= <-]. rewrite covers_cons. split_and!.
    + left. destruct fd; lia.
    + intros ->. lia.
    + intros y Hy Hfs. rewrite covers_cons in Hy.
      assert (covers set y -> e <= y < DAY_SECS) by eauto using day_ok_covers_ge.
      destruct fd; [specialize (Hfs eq_refl)|]; destruct Hy; intuition lia.
  - intros Hx. destruct (IH _ Hok Hx) as (?&?&Hmin). rewrite covers_cons. split_and!; [auto|done|].
    intros y [?|?]%covers_cons Hfs; [|by apply Hmin].
    destruct fd; [specialize (Hfs eq_refl)|]; lia.
Qed.

Lemma scan_set_none fd fs set lo :
  day_ok lo set -> scan_set fd fs set = None ->
  forall y, covers set y -> fd = true /\ y < fs.
Proof.
  revert lo. induction set as [|[s e] set IH]; intros lo; simpl.
  - intros _ _ y. by rewrite covers_nil.
  - intros (?&?&?&Hok). case_if; [done|]. b2p. intros Hn y [?|?]%covers_cons; [|by eapply IH].
    destruct fd; lia || (split; [done|lia]).
Qed.

Section Search.
  Context `{CL : ChronoLaws}.
  Context (I : NaiveDate -> DaySet) (I_ok : forall d, day_ok 0 (I d)).

Lemma scan_days_some from fs fuel k n :
  0 <= k -> scan_days I from fs fuel k = Some n ->
  exists j x, k <= j < k + Z.of_nat fuel
    /\ n = and_time (date_of from + j) (x * NS_SEC)
    /\ covers (I (date_of from + j)) x /\ (j = 0 -> fs <= x)
    /\ (forall i y, k <= i -> i < j \/ (i = j /\ y < x) ->
          covers (I (date_of from + i)) y -> i = 0 /\ y < fs).
Proof.
  revert k. induction fuel as [|fuel IH]; intros k Hk; simpl; [done|].
  destruct (checked_add_days (date_of from) k) as [d|] eqn:Hd; simpl; [|done].
  apply checked_add_days_sound in Hd as ->.
  destruct (scan_set (k =? 0) fs (I (date_of from + k))) as [x|] eqn:Hs.
  - destruct (scan_set_some _ _ _ _ _ (I_ok _) Hs) as (Hc & Hfs & Hmin).
    unfold from_num_seconds_from_midnight_opt. case_if; simpl; [|done].
    intros [= <-]. exists k, x. split_and!; [lia|lia|done|done|by rewrite <- Z.eqb_eq|].
    + intros i y Hi [Hij|[-> Hy]] Hcov; [lia|].
      destruct (Z.eqb_spec k 0) as [->|Hne].
      * split; [done|]. destruct (Z_lt_le_dec y fs); [done|].
        pose proof (Hmin y Hcov ltac:(done)). lia.
      * pose proof (Hmin y Hcov ltac:(done)). lia.
  - intros Hr. destruct (IH (k + 1) ltac:(lia) Hr) as (j & x & Hj & -> & Hc & Hfs & Hmin).
    exists j, x. split_and!; try done; try lia.
    intros i y Hi Hlt Hcov. destruct (decide (i = k)) as [->|].
    + destruct (scan_set_none _ _ _ _ (I_ok _) Hs _ Hcov). b2p. done.
    + apply Hmin; [lia|done|done].
Qed.

Lemma scan_days_none from fs fuel k :
  0 <= k -> (forall i, k <= i < k + Z.of_nat fuel -> is_Some (checked_add_days (date_of from) i)) ->
  scan_days I from fs fuel k = None ->
  forall i y, k <= i < k + Z.of_nat fuel -> covers (I (date_of from + i)) y -> i = 0 /\ y < fs.
Proof.
  revert k. induction fuel as [|fuel IH]; intros k Hk Hadd; [simpl; lia|]. cbn [scan_days].
  destruct (Hadd k ltac:(lia)) as [d Hd]. rewrite Hd. simpl.
  apply checked_add_days_sound in Hd as ->.
  destruct (scan_set (k =? 0) fs (I (date_of from + k))) as [x|] eqn:Hs.
  - destruct (scan_set_some _ _ _ _ _ (I_ok _) Hs) as (Hc & _).
    apply (day_ok_covers_ge _ _ _ (I_ok _)) in Hc. unfold DAY_SECS in Hc.
    unfold from_num_seconds_from_midnight_opt. case_if; simpl; [done|]. b2p. lia.
  - intros Hr i y Hi Hcov. destruct (decide (i = k)) as [->|].
    + destruct (scan_set_none _ _ _ _ (I_ok _) Hs _ Hcov). b2p. done.
    + eapply (IH (k + 1)); try done; try lia. intros. apply Hadd. lia.
Qed.

(** The lower bound the search starts from, and what it excludes. *)
Lemma ceil_second_le from m :
  let fs := num_seconds_from_midnight (time_of from) in
  let fs := if 0 <? nanosecond (time_of from) then fs + 1 else fs in
  whole_second m -> date_of m = date_of from -> from <= m <-> fs <= second_of_day m.
Proof.
  intros fs0 fs Hm Hd. subst fs fs0.
  rewrite (whole_second_split m Hm), Hd. rewrite <- (and_time_date_time from) at 1.
  pose proof (time_of_range from). pose proof (second_of_day_range m).
  destruct (second_of_day_and_time (date_of from) (second_of_day m)) as (_&->&_); [done|].
  unfold and_time, nanosecond, num_seconds_from_midnight, NS_SEC, DAY_SECS in *.
  case_if; b2p; Z.div_mod_to_equations; lia.
Qed.

Lemma next_instant_in_some from n :
  next_instant_in from I = Some n ->
  from <= n /\ whole_second n /\ open_at I n /\
  (forall m, whole_second m -> from <= m < n -> ~ open_at I m).
Proof.
  unfold next_instant_in. cbv zeta. intros H.
  pose proof (ceil_second_le from) as Hceil. cbv zeta in Hceil.
  set (fs := if 0 <? _ then _ else _) in *.
  apply scan_days_some in H as (j & x & Hj & -> & Hcov & Hfs & Hmin); [|lia].
  pose proof (day_ok_covers_ge _ _ _ (I_ok _) Hcov) as Hx.
  destruct (second_of_day_and_time (date_of from + j) x Hx) as (Hd & Hsd & Hw).
  split_and!; [| done | unfold open_at; by rewrite Hd, Hsd |].
  - destruct (decide (j = 0)) as [->|].
    + apply Hceil; [done|rewrite Hd; lia|]. rewrite Hsd. by apply Hfs.
    + apply Z.lt_le_incl, date_of_lt. rewrite Hd. lia.
  - intros m Hm [Hm1 Hm2] Ho. unfold open_at in Ho.
    pose proof (date_of_mono _ _ Hm1). pose proof (date_of_mono m _ ltac:(by apply Z.lt_le_incl)) as Hm3.
    rewrite Hd in Hm3.
    destruct (Hmin (date_of m - date_of from) (second_of_day m)) as [Hz Hlt]; [lia| | |].
    + destruct (decide (date_of m = date_of from + j)) as [Heq|]; [right|left; lia].
      split; [lia|]. rewrite (whole_second_split m Hm), Heq in Hm2.
      unfold and_time, NS_SEC in Hm2. lia.
    + by replace (date_of from + (date_of m - date_of from)) with (date_of m) by lia.
    + pose proof (proj1 (Hceil m Hm ltac:(lia)) Hm1). lia.
Qed.

Lemma next_instant_in_none from :
  (forall i, 0 <= i <= MAX_SCAN_DAYS -> is_Some (checked_add_days (date_of from) i)) ->
  next_instant_in from I = None ->
  forall m, whole_second m -> from <= m -> date_of m <= date_of from + MAX_SCAN_DAYS ->
  ~ open_at I m.
Proof.
  unfold next_instant_in. cbv zeta. intros Hadd H m Hm Hle Hmax Ho.
  pose proof (ceil_second_le from m) as Hceil. cbv zeta in Hceil.
  set (fs := if 0 <? _ then _ else _) in *. unfold MAX_SCAN_DAYS in *.
  pose proof (date_of_mono _ _ Hle).
  destruct (scan_days_none from fs (Z.to_nat (4 * 365 + 2 + 1)) 0 ltac:(lia)
              ltac:(intros; apply Hadd; lia) H
              (date_of m - date_of from) (second_of_day m)) as [Hz Hlt]; [lia| |].
  - by replace (date_of from + (date_of m - date_of from)) with (date_of m) by lia.
  - pose proof (proj1 (Hceil Hm ltac:(lia)) Hle). lia.
Qed.
End Search.
