(* ===== verification/Schedule.v ===== *)
(** * Schedules

    Models [croniq-scheduler/src/schedule.rs]: compiling a schedule from the
    AST, resolving wall clock times across DST transitions, and computing the
    next fire time. *)

From S2P Require Import Prelude RustStr Chrono Ast CalendarArgs.

Local Open Scope string_scope.
Local Open Scope Z_scope.

Inductive MonthDay :=
| MDay (d : Z)
| MLast.

Inductive Schedule :=
| Interval (seconds : Z)
| Daily (time : NaiveTime)
| Weekdays (days : list Weekday) (time : NaiveTime)
| Monthly (ordinals : list MonthDay) (time : NaiveTime)
| Once (at_ : instant)
| Disabled.

Inductive ScheduleError :=
| InvalidInterval (msg : string)
| InvalidTime (msg : string)
| InvalidDatetime (msg : string).

(** [ast_weekday_to_chrono] *)
Definition ast_weekday_to_chrono (d : AstWeekday.t) : Weekday :=
  match d with
  | AstWeekday.Monday => Mon | AstWeekday.Tuesday => Tue | AstWeekday.Wednesday => Wed
  | AstWeekday.Thursday => Thu | AstWeekday.Friday => Fri | AstWeekday.Saturday => Sat
  | AstWeekday.Sunday => Sun
  end.

(** [add_months]: [month] is 1-based, the arithmetic is on [u32]. *)
Definition add_months (y m offset : Z) : Z * Z :=
  let total := (m - 1) + offset in
  (y + total / 12, total mod 12 + 1).

(** [Iterator::min] *)
Fixpoint list_min (l : list Z) : option Z :=
  match l with
  | [] => None
  | x :: l => match list_min l with Some y => Some (Z.min x y) | None => Some x end
  end.

Section Schedules.
  Context `{C : Chrono}.

(** [parse_datetime] *)
Definition parse_datetime (s : string) : result instant ScheduleError :=
  match parse_from_rfc3339 s with
  | Some dt => Ok dt
  | None => match parse_naive_datetime s with
            | Some dt => Ok dt   (** [Utc.from_utc_datetime] *)
            | None => Err (InvalidDatetime s)
            end
  end.

(** The [NaiveTime::from_hms_opt(..).ok_or_else(..)] of [Schedule::from_ast]. *)
Definition time_from_ast (t : TimeValue) : result NaiveTime ScheduleError :=
  ok_or (from_hm_opt (tv_hour t) (tv_minute t))
        (InvalidTime (show_uint (tv_hour t) +:+ ":" +:+ show_uint (tv_minute t))).

(** [Schedule::from_ast] *)
Definition from_ast (kind : ScheduleKind) : result Schedule ScheduleError :=
  match kind with
  | KInterval count unit =>
      let secs := match unit with
                  | Seconds => count
                  | Minutes => count * 60
                  | Hours => count * 3600
                  end in
      if secs =? 0 then Err (InvalidInterval "interval must be > 0")
      else Ok (Interval secs)
  | KDaily time => res_bind (time_from_ast time) (fun t => Ok (Daily t))
  | KWeekdays ds time =>
      res_bind (time_from_ast time) (fun t => Ok (Weekdays (map ast_weekday_to_chrono ds) t))
  | KMonthly ords time =>
      let month_days := map (fun o => match o with
                                      | OrdDay d => MDay d
                                      | OrdLast => MLast
                                      end) ords in
      res_bind (time_from_ast time) (fun t => Ok (Monthly month_days t))
  | KOnce at_ => res_bind (parse_datetime (sv_value at_)) (fun dt => Ok (Once dt))
  | KDisabled => Ok Disabled
  end.

(** The forward search of [resolve_local] through a spring-forward gap:
    minutes [add_min], [add_min + 1], ... until [fuel] runs out. *)
Fixpoint resolve_gap (tz : Tz) (naive : NaiveDateTime) (fuel : nat) (add_min : Z)
    : option instant :=
  match fuel with
  | O => None
  | S fuel' =>
      match from_local_datetime tz (naive + minutes add_min) with
      | MSingle u | MAmbiguous u _ => Some u
      | MNone => resolve_gap tz naive fuel' (add_min + 1)
      end
  end.

(** [resolve_local] *)
Definition resolve_local (tz : Tz) (naive : NaiveDateTime) : option instant :=
  match from_local_datetime tz naive with
  | MSingle u => Some u
  | MAmbiguous earliest _ => Some earliest
  | MNone => resolve_gap tz naive 180 1
  end.

(** [resolve_local_at_or_after] *)
Definition resolve_local_at_or_after (tz : Tz) (naive : NaiveDateTime) (floor : instant)
    : option instant :=
  match from_local_datetime tz naive with
  | MAmbiguous earliest latest => Some (if floor <=? earliest then earliest else latest)
  | _ => resolve_local tz naive
  end.

(** [last_day_of_month]. The two [unwrap]s cannot fail for a month of chrono's
    range ([last_day_of_month_spec]); outside it the model answers 0. *)
Definition last_day_of_month (y m : Z) : Z :=
  let '(ny, nm) := if m =? 12 then (y + 1, 1) else (y, m + 1) in
  match from_ymd_opt ny nm 1 with
  | Some first => day (first - 1)
  | None => 0
  end.

(** The loop of the [Weekdays] arm: days [offset], [offset + 1], ... of the
    eight searched. *)
Fixpoint weekdays_scan (tz : Tz) (ds : list Weekday) (time : NaiveTime) (today : NaiveDate)
    (after : instant) (fuel : nat) (offset : Z) : option instant :=
  match fuel with
  | O => None
  | S fuel' =>
      let date := today + offset in
      let next := weekdays_scan tz ds time today after fuel' (offset + 1) in
      if bool_decide (weekday date ∈ ds)
      then match resolve_local tz (and_time date time) with
           | Some candidate => if after <? candidate then Some candidate else next
           | None => next
           end
      else next
  end.

(** One ordinal of the [Monthly] arm in a given month. *)
Definition monthly_candidate (tz : Tz) (time : NaiveTime) (y m : Z) (o : MonthDay)
    : option instant :=
  let d := match o with MDay d => d | MLast => last_day_of_month y m end in
  date ← from_ymd_opt y m d;
  resolve_local tz (and_time date time).

(** The candidates of one month that lie after [after], in declaration order. *)
Definition monthly_candidates (tz : Tz) (ords : list MonthDay) (time : NaiveTime)
    (y m : Z) (after : instant) : list instant :=
  filter (fun c => after < c) (omap (monthly_candidate tz time y m) ords).

(** The loop of the [Monthly] arm over [month_offset]. *)
Fixpoint monthly_scan (tz : Tz) (ords : list MonthDay) (time : NaiveTime) (today : NaiveDate)
    (after : instant) (fuel : nat) (offset : Z) : option instant :=
  match fuel with
  | O => None
  | S fuel' =>
      let '(y, m) := add_months (year today) (month today) offset in
      match list_min (monthly_candidates tz ords time y m after) with
      | Some earliest => Some earliest
      | None => monthly_scan tz ords time today after fuel' (offset + 1)
      end
  end.

(** [Schedule::next_fire_after] *)
Definition next_fire_after (s : Schedule) (after : instant) (tz : Tz) : option instant :=
  match s with
  | Disabled => None
  | Interval secs => Some (after + seconds (wrap_i64 secs))
  | Daily time =>
      let today := date_of (local_of tz after) in
      let tomorrow := resolve_local tz (and_time (today + 1) time) in
      match resolve_local tz (and_time today time) with
      | Some candidate => if after <? candidate then Some candidate else tomorrow
      | None => tomorrow
      end
  | Weekdays ds time =>
      weekdays_scan tz ds time (date_of (local_of tz after)) after 8 0
  | Monthly ords time =>
      monthly_scan tz ords time (date_of (local_of tz after)) after 3 0
  | Once at_ => if after <? at_ then Some at_ else None
  end.

(** [Schedule::next_n_fires] *)
Fixpoint next_n_fires (s : Schedule) (after : instant) (tz : Tz) (n : nat) : list instant :=
  match n with
  | O => []
  | S n' => match next_fire_after s after tz with
            | Some next => next :: next_n_fires s next tz n'
            | None => []
            end
  end.
End Schedules.

(** ** Well-formed schedules

    What [from_ast] guarantees: a positive interval that fits an [i64], and
    times of day on whole seconds. *)

Definition sched_ok (s : Schedule) : Prop :=
  match s with
  | Interval secs => 0 < secs <= I64_MAX
  | Daily t | Weekdays _ t | Monthly _ t => hm_time t
  | Once _ | Disabled => True
  end.

(** The widths of the AST's fields. *)
Definition kind_ok (k : ScheduleKind) : Prop :=
  let time_ok t := 0 <= tv_hour t <= U8_MAX /\ 0 <= tv_minute t <= U8_MAX in
  match k with
  | KInterval count _ => 0 <= count <= U32_MAX
  | KDaily t | KWeekdays _ t | KMonthly _ t => time_ok t
  | KOnce _ | KDisabled => True
  end.

Lemma list_min_spec l :
  match list_min l with
  | Some m => m ∈ l /\ Forall (fun x => m <= x) l
  | None => l = []
  end.
Proof.
  induction l as [|x l IH]; simpl; [done|].
  destruct (list_min l) as [y|] eqn:E.
  - destruct IH as [Hin Hle]. split.
    + destruct (Z.min_spec x y) as [[_ ->]|[_ ->]]; set_solver.
    + constructor; [lia|]. eapply Forall_impl; [done|]. simpl. lia.
  - subst. split; [set_solver|]. by repeat constructor.
Qed.

Section Facts.
  Context `{CL : ChronoLaws}.

Lemma time_from_ast_ok t v :
  0 <= tv_hour t -> 0 <= tv_minute t -> time_from_ast t = Ok v -> hm_time v.
Proof.
  unfold time_from_ast. destruct (from_hm_opt _ _) eqn:E; simpl; [|done].
  intros ?? [= <-]. by apply from_hm_opt_range in E.
Qed.

Lemma from_ast_ok k s : kind_ok k -> from_ast k = Ok s -> sched_ok s.
Proof.
  destruct k as [count unit|t|ds t|os t|at_|]; simpl; intros Hk.
  - unfold U32_MAX in Hk. destruct unit; case_if; try done; intros [= <-]; b2p; simpl;
      unfold I64_MAX; lia.
  - destruct (time_from_ast t) eqn:E; simpl; [|done]. intros [= <-]. simpl.
    eapply time_from_ast_ok; [..|done]; lia.
  - destruct (time_from_ast t) eqn:E; simpl; [|done]. intros [= <-]. simpl.
    eapply time_from_ast_ok; [..|done]; lia.
  - destruct (time_from_ast t) eqn:E; simpl; [|done]. intros [= <-]. simpl.
    eapply time_from_ast_ok; [..|done]; lia.
  - destruct (parse_datetime (sv_value at_)) eqn:E; simpl; [|done]. by intros [= <-].
  - by intros [= <-].
Qed.

(** The reading a local time resolves to: the first existing one among [n],
    [n + 1 minute], ..., [n + 180 minutes], taken at its earliest instant. *)
Lemma resolve_gap_local tz n fuel k u :
  resolve_gap tz n fuel k = Some u ->
  exists j, k <= j < k + Z.of_nat fuel /\ local_of tz u = n + minutes j.
Proof.
  revert k. induction fuel as [|fuel IH]; intros k; cbn [resolve_gap]; [done|].
  destruct (from_local_datetime tz (n + minutes k)) as [v|v w|] eqn:E.
  - intros [= <-]. exists k. split; [lia|]. by apply local_single.
  - intros [= <-]. exists k. split; [lia|]. by apply local_ambiguous in E as [? _].
  - intros H. destruct (IH _ H) as (j & ? & ?). exists j. split; [lia|done].
Qed.

Lemma resolve_local_local tz n u :
  resolve_local tz n = Some u ->
  exists j, 0 <= j <= 180 /\ local_of tz u = n + minutes j.
Proof.
  unfold resolve_local. destruct (from_local_datetime tz n) as [v|v w|] eqn:E.
  - intros [= <-]. exists 0. split; [lia|]. rewrite (local_single _ _ _ E).
    unfold minutes. lia.
  - intros [= <-]. exists 0. split; [lia|]. apply local_ambiguous in E as [-> _].
    unfold minutes. lia.
  - intros H. apply resolve_gap_local in H as (j & Hj & ->). exists j. split; [lia|done].
Qed.

(** A later calendar date resolves to a later instant. *)
Lemma resolve_local_later tz n u after :
  date_monotone tz -> date_of (local_of tz after) < date_of n ->
  resolve_local tz n = Some u -> after < u.
Proof.
  intros Hmono Hlt Hr. apply resolve_local_local in Hr as (j & Hj & Hl).
  destruct (Z_lt_le_dec after u) as [|Hle]; [done|].
  pose proof (Hmono _ _ Hle) as Hd. rewrite Hl in Hd.
  pose proof (date_of_mono n (n + minutes j)) as Hn. unfold minutes, NS_SEC in *. lia.
Qed.

Lemma weekdays_scan_after tz ds t today after fuel k u :
  weekdays_scan tz ds t today after fuel k = Some u -> after < u.
Proof.
  revert k. induction fuel as [|fuel IH]; intros k; simpl; [done|].
  case_bool_decide; [|apply IH].
  destruct (resolve_local _ _); [|apply IH]. case_if; [|apply IH]. b2p. congruence.
Qed.

Lemma monthly_scan_after tz os t today after fuel k u :
  monthly_scan tz os t today after fuel k = Some u -> after < u.
Proof.
  revert k. induction fuel as [|fuel IH]; intros k; cbn [monthly_scan]; [done|].
  destruct (add_months (year today) (month today) k) as [y m].
  pose proof (list_min_spec (monthly_candidates tz os t y m after)) as Hm.
  destruct (list_min _) as [e|]; [|apply IH].
  intros [= <-]. destruct Hm as [Hin _].
  unfold monthly_candidates in Hin. by apply list_elem_of_filter in Hin as [? _].
Qed.

Lemma next_fire_after_later s after tz u :
  sched_ok s -> date_monotone tz -> next_fire_after s after tz = Some u -> after < u.
Proof.
  intros Hok Hmono. destruct s as [secs|t|ds t|os t|at_|]; cbn [next_fire_after].
  - intros [= <-]. simpl in Hok. unwrap.
    unfold seconds, NS_SEC. lia.
  - assert (forall v, resolve_local tz (and_time (date_of (local_of tz after) + 1) t) = Some v ->
                      after < v) as Htom.
    { intros v Hv. eapply resolve_local_later; [done| |done].
      rewrite date_of_and_time by apply Hok. lia. }
    destruct (resolve_local tz (and_time (date_of (local_of tz after)) t)); [|apply Htom].
    case_if; [|apply Htom]. b2p. congruence.
  - apply weekdays_scan_after.
  - apply monthly_scan_after.
  - case_if; [|done]. b2p. congruence.
  - done.
Qed.

(** Wall clock schedules fire on whole seconds. *)
Definition wall_clock (s : Schedule) : Prop :=
  match s with Daily _ | Weekdays _ _ | Monthly _ _ => True | _ => False end.

Lemma resolve_local_second tz d t u :
  hm_time t -> resolve_local tz (and_time d t) = Some u -> u mod NS_SEC = 0.
Proof.
  intros [_ Ht] (j & _ & Hl)%resolve_local_local. pose proof (offset_seconds tz u) as Ho.
  rewrite Hl in Ho. unfold nanosecond, and_time, minutes, NS_DAY, NS_SEC in *.
  Z.div_mod_to_equations. lia.
Qed.

Lemma weekdays_scan_second tz ds t today after fuel k u :
  hm_time t -> weekdays_scan tz ds t today after fuel k = Some u -> u mod NS_SEC = 0.
Proof.
  intros Ht. revert k. induction fuel as [|fuel IH]; intros k; simpl; [done|].
  case_bool_decide; [|apply IH].
  destruct (resolve_local _ _) eqn:E; [|apply IH].
  case_if; [|apply IH]. intros [= <-]. by eapply resolve_local_second.
Qed.

Lemma monthly_scan_second tz os t today after fuel k u :
  hm_time t -> monthly_scan tz os t today after fuel k = Some u -> u mod NS_SEC = 0.
Proof.
  intros Ht. revert k. induction fuel as [|fuel IH]; intros k; cbn [monthly_scan]; [done|].
  destruct (add_months (year today) (month today) k) as [y m].
  pose proof (list_min_spec (monthly_candidates tz os t y m after)) as Hm.
  destruct (list_min _) as [e|]; [|apply IH].
  intros [= <-]. destruct Hm as [Hin _].
  apply list_elem_of_filter in Hin as [_ (o & _ & Hc)%list_elem_of_omap].
  unfold monthly_candidate in Hc. destruct (from_ymd_opt _ _ _); simpl in Hc; [|done].
  by eapply resolve_local_second.
Qed.

Lemma next_fire_second s after tz u :
  sched_ok s -> wall_clock s -> next_fire_after s after tz = Some u -> u mod NS_SEC = 0.
Proof.
  destruct s as [secs|t|ds t|os t|at_|]; cbn [next_fire_after wall_clock sched_ok];
    intros Ht Hw; try done.
  - pose proof (fun d => resolve_local_second tz d t u Ht) as Hs.
    destruct (resolve_local tz (and_time (date_of (local_of tz after)) t)) eqn:E; [|apply Hs].
    case_if; [|apply Hs]. intros [= ->]. by apply (Hs _ E).
  - by apply weekdays_scan_second.
  - by apply monthly_scan_second.
Qed.
End Facts.

(** ** The earliest tick

    In a zone with one offset from UTC, the instants a wall clock schedule
    means are given by the local reading alone, and [next_fire_after] is the
    least of them after [after]. *)

Section Earliest.
  Context `{CL : ChronoLaws}.

Definition month_day_matches (o : MonthDay) (date : NaiveDate) : Prop :=
  match o with
  | MDay d => day date = d
  | MLast => day date = last_day_of_month (year date) (month date)
  end.

Definition wall_tick (s : Schedule) (off : Z) (u : instant) : Prop :=
  let n := u + off in
  match s with
  | Daily t => time_of n = t
  | Weekdays ds t => time_of n = t /\ weekday (date_of n) ∈ ds
  | Monthly os t => time_of n = t /\ Exists (fun o => month_day_matches o (date_of n)) os
  | Once a => u = a
  | Interval _ | Disabled => False
  end.

  Context (tz : Tz) (off : Z) (Hfix : fixed_offset tz off).

Lemma resolve_fixed n : resolve_local tz n = Some (n - off).
Proof. unfold resolve_local. by rewrite (proj2 Hfix). Qed.

Lemma tick_at_time (u : instant) t :
  time_of (u + off) = t -> u = and_time (date_of (u + off)) t - off.
Proof. intros <-. rewrite and_time_date_time. lia. Qed.

Lemma local_fixed u : local_of tz u = u + off.
Proof. apply (proj1 Hfix). Qed.

Lemma weekdays_scan_fixed ds t today after fuel k :
  match weekdays_scan tz ds t today after fuel k with
  | Some u => exists j, k <= j < k + Z.of_nat fuel /\ weekday (today + j) ∈ ds
      /\ u = and_time (today + j) t - off
      /\ (forall i, k <= i < j -> weekday (today + i) ∈ ds ->
                    and_time (today + i) t - off <= after)
  | None => forall i, k <= i < k + Z.of_nat fuel -> weekday (today + i) ∈ ds ->
                      and_time (today + i) t - off <= after
  end.
Proof.
  revert k. induction fuel as [|fuel IH]; intros k; cbn [weekdays_scan]; [lia|].
  assert ((weekday (today + k) ∈ ds -> and_time (today + k) t - off <= after) ->
    match weekdays_scan tz ds t today after fuel (k + 1) with
    | Some u => exists j, k <= j < k + Z.of_nat (S fuel) /\ weekday (today + j) ∈ ds
        /\ u = and_time (today + j) t - off
        /\ (forall i, k <= i < j -> weekday (today + i) ∈ ds ->
                      and_time (today + i) t - off <= after)
    | None => forall i, k <= i < k + Z.of_nat (S fuel) -> weekday (today + i) ∈ ds ->
                        and_time (today + i) t - off <= after
    end) as Hskip.
  { intros Hk. specialize (IH (k + 1)). destruct (weekdays_scan _ _ _ _ _ _ _).
    - destruct IH as (j & ? & ? & ? & Hmin). exists j. split_and!; try done; try lia.
      intros i Hi. destruct (decide (i = k)) as [->|]; [done|]. apply Hmin. lia.
    - intros i Hi. destruct (decide (i = k)) as [->|]; [done|]. apply IH. lia. }
  rewrite resolve_fixed. case_bool_decide; [|by apply Hskip].
  case_if; b2p; [|by apply Hskip]. exists k. split_and!; try done; lia.
Qed.

Lemma add_months_index y m k : 1 <= m <= 12 -> 0 <= k ->
  let '(y', m') := add_months y m k in
  y' * 12 + m' = y * 12 + m + k /\ 1 <= m' <= 12.
Proof. unfold add_months. intros. Z.div_mod_to_equations. lia. Qed.

(** The month [k] months after [today]'s, and the ticks found in it. *)
Lemma monthly_candidates_fixed os t y m after u :
  0 <= t < NS_DAY -> 1 <= m <= 12 ->
  u ∈ monthly_candidates tz os t y m after <->
  after < u /\ wall_tick (Monthly os t) off u
  /\ year (date_of (u + off)) = y /\ month (date_of (u + off)) = m.
Proof.
  intros Ht Hm. unfold monthly_candidates. rewrite list_elem_of_filter, list_elem_of_omap.
  split.
  - intros (Hlt & o & Ho & Hc). split; [done|]. unfold monthly_candidate in Hc.
    destruct (from_ymd_opt y m _) as [date|] eqn:Hy; simpl in Hc; [|done].
    rewrite resolve_fixed in Hc. injection Hc as <-.
    simpl. replace (and_time date t - off + off) with (and_time date t) by lia.
    rewrite date_of_and_time, time_of_and_time by done.
    apply ymd_sound in Hy as (<- & <- & Hd). split_and!; try done.
    apply Exists_exists. exists o. split; [done|]. by destruct o.
  - intros (Hlt & [Htm Hex] & Hy & Hmo). split; [done|].
    apply Exists_exists in Hex as (o & Ho & Hmt). exists o. split; [done|].
    unfold monthly_candidate.
    replace (match o with MDay d => d | MLast => last_day_of_month y m end)
      with (day (date_of (u + off))) by (destruct o; simpl in Hmt; congruence).
    rewrite <- Hy, <- Hmo, ymd_complete. simpl. rewrite resolve_fixed.
    f_equal. symmetry. by apply tick_at_time.
Qed.

Lemma monthly_scan_fixed os t today after fuel k u :
  0 <= k -> monthly_scan tz os t today after fuel k = Some u ->
  exists j, k <= j
    /\ (let '(y, m) := add_months (year today) (month today) j in
        list_min (monthly_candidates tz os t y m after) = Some u)
    /\ (forall i, k <= i < j ->
        let '(y, m) := add_months (year today) (month today) i in
        monthly_candidates tz os t y m after = []).
Proof.
  revert k. induction fuel as [|fuel IH]; intros k Hk; cbn [monthly_scan]; [done|].
  destruct (add_months (year today) (month today) k) as [y m] eqn:E.
  pose proof (list_min_spec (monthly_candidates tz os t y m after)) as Hl.
  destruct (list_min _) as [e|] eqn:Em.
  - intros [= <-]. exists k. rewrite E. split_and!; [lia|done|lia].
  - intros Hr. destruct (IH (k + 1) ltac:(lia) Hr) as (j & ? & Hj & Hmin).
    exists j. split_and!; [lia|done|]. intros i Hi.
    destruct (decide (i = k)) as [->|]; [by rewrite E|]. apply Hmin. lia.
Qed.

Lemma monthly_earliest os t after u :
  hm_time t -> next_fire_after (Monthly os t) after tz = Some u ->
  wall_tick (Monthly os t) off u /\
  (forall v, wall_tick (Monthly os t) off v -> after < v -> u <= v).
Proof.
  intros [Ht _]. cbn [next_fire_after]. rewrite local_fixed. intros Hs.
  apply monthly_scan_fixed in Hs as (j & Hj & Hmin & Hlt); [|lia].
  set (today := date_of (after + off)) in *.
  pose proof (add_months_index (year today) (month today) j (month_range today) Hj) as Hidx.
  destruct (add_months (year today) (month today) j) as [y m]. destruct Hidx as [Hidx Hm].
  pose proof (list_min_spec (monthly_candidates tz os t y m after)) as Hl.
  rewrite Hmin in Hl. destruct Hl as [Hin Hall].
  apply monthly_candidates_fixed in Hin as (Hau & Hu & Hyu & Hmu); [|done..].
  split; [done|]. intros v Hv Hav.
  pose proof (month_index_mono today (date_of (v + off))) as Hge.
  specialize (Hge ltac:(subst today; apply date_of_mono; lia)).
  set (i := year (date_of (v + off)) * 12 + month (date_of (v + off))
            - (year today * 12 + month today)) in *.
  pose proof (month_range (date_of (v + off))).
  pose proof (add_months_index (year today) (month today) i (month_range today) ltac:(lia)) as Hi.
  destruct (Z.lt_trichotomy i j) as [Hij|[Hij|Hij]].
  - specialize (Hlt i ltac:(lia)).
    destruct (add_months (year today) (month today) i) as [y' m'].
    exfalso. apply (not_elem_of_nil v). rewrite <- Hlt.
    apply monthly_candidates_fixed; [done|lia|]. split_and!; [done|done|lia|lia].
  - rewrite Forall_forall in Hall. apply Hall.
    apply monthly_candidates_fixed; [done|lia|]. split_and!; [done|done|lia|lia].
  - destruct (Z_lt_le_dec v u) as [Hvu|]; [|done].
    pose proof (month_index_mono (date_of (v + off)) (date_of (u + off))
                  ltac:(apply date_of_mono; lia)). lia.
Qed.

Lemma weekdays_earliest ds t after u :
  hm_time t -> next_fire_after (Weekdays ds t) after tz = Some u ->
  wall_tick (Weekdays ds t) off u /\
  (forall v, wall_tick (Weekdays ds t) off v -> after < v -> u <= v).
Proof.
  intros [Ht _]. cbn [next_fire_after]. rewrite local_fixed. intros Hs.
  pose proof (weekdays_scan_fixed ds t (date_of (after + off)) after 8 0) as H.
  rewrite Hs in H. destruct H as (j & Hj & Hw & -> & Hmin). split.
  - simpl. replace (and_time (date_of (after + off) + j) t - off + off)
      with (and_time (date_of (after + off) + j) t) by lia.
    by rewrite date_of_and_time, time_of_and_time by done.
  - intros v [Hvt Hvw] Hav. pose proof (date_of_mono (after + off) (v + off) ltac:(lia)).
    rewrite (tick_at_time v t Hvt) in Hav |- *.
    destruct (Z_lt_le_dec (date_of (v + off) - date_of (after + off)) j) as [Hlt|Hge].
    + exfalso. specialize (Hmin (date_of (v + off) - date_of (after + off))).
      replace (date_of (after + off) + (date_of (v + off) - date_of (after + off)))
        with (date_of (v + off)) in Hmin by lia.
      specialize (Hmin ltac:(lia) Hvw). lia.
    + unfold and_time, NS_DAY in *. lia.
Qed.

Lemma daily_earliest t after :
  hm_time t -> exists u, next_fire_after (Daily t) after tz = Some u /\
  wall_tick (Daily t) off u /\
  (forall v, wall_tick (Daily t) off v -> after < v -> u <= v).
Proof.
  intros [Ht _]. cbn [next_fire_after]. rewrite !resolve_fixed, local_fixed.
  assert (forall d, wall_tick (Daily t) off (and_time d t - off)) as Htick.
  { intros d. simpl. replace (and_time d t - off + off) with (and_time d t) by lia.
    by apply time_of_and_time. }
  case_if; b2p; eexists; (split; [done|]); (split; [apply Htick|]); intros v Hv Hav;
    pose proof (date_of_mono (after + off) (v + off) ltac:(lia));
    rewrite (tick_at_time v t Hv) in Hav |- *; unfold and_time, NS_DAY in *; lia.
Qed.

Lemma weekday_found w d : exists i, 1 <= i <= 7 /\ weekday (d + i) = w.
Proof.
  setoid_rewrite weekday_spec.
  assert (exists n, 0 <= n <= 6 /\ weekday_of_num n = w) as (n & Hn & <-)
    by (destruct w; [exists 0|exists 1|exists 2|exists 3|exists 4|exists 5|exists 6]; done).
  exists ((n - (d + 3) - 1) mod 7 + 1). split.
  - Z.div_mod_to_equations; lia.
  - f_equal. Z.div_mod_to_equations; lia.
Qed.

(** A weekday schedule with at least one day always has a next fire. *)
Lemma weekdays_total ds t after :
  ds <> [] -> hm_time t -> is_Some (next_fire_after (Weekdays ds t) after tz).
Proof.
  intros Hds [Ht _]. cbn [next_fire_after]. rewrite local_fixed.
  pose proof (weekdays_scan_fixed ds t (date_of (after + off)) after 8 0) as H.
  destruct (weekdays_scan _ _ _ _ _ _ _); [done|].
  destruct ds as [|w ds]; [done|].
  destruct (weekday_found w (date_of (after + off))) as (i & Hi & Hw).
  specialize (H i ltac:(lia)). rewrite Hw in H. specialize (H (list_elem_of_here _ _)).
  assert (after + off < and_time (date_of (after + off) + i) t); [|lia].
  apply date_of_lt. rewrite date_of_and_time by done. lia.
Qed.

(** The last day of a month, and that the months around it exist. *)
Lemma last_day_of_month_spec y m :
  -261999 <= y <= 261999 -> 1 <= m <= 12 ->
  is_Some (from_ymd_opt y m (last_day_of_month y m)) /\
  (forall d, last_day_of_month y m < d -> from_ymd_opt y m d = None).
Proof.
  intros Hy Hm. unfold last_day_of_month.
  destruct (if m =? 12 then (y + 1, 1) else (y, m + 1)) as [ny nm] eqn:E.
  assert (ny * 12 + nm = y * 12 + m + 1 /\ 1 <= nm <= 12 /\ -262000 <= ny <= 262000)
    as (Hidx & Hnm & Hny).
  { destruct (Z.eqb_spec m 12); injection E as <- <-; lia. }
  assert (forall k, 1 <= k <= 12 -> 1 <= 1 <= month_len k) as Hlen.
  { intros k _. unfold month_len. repeat case_if; lia. }
  destruct (ymd_exists ny nm 1 Hny Hnm (Hlen _ Hnm)) as [f Hf].
  destruct (ymd_exists y m 1 ltac:(lia) Hm (Hlen _ Hm)) as [g Hg]. rewrite Hf.
  pose proof (ymd_sound _ _ _ _ Hf) as (Hfy & Hfm & Hfd).
  pose proof (ymd_sound _ _ _ _ Hg) as (Hgy & Hgm & Hgd).
  assert (g <= f - 1) as Hgf.
  { destruct (Z_lt_le_dec (f - 1) g) as [Hlt|]; [|done].
    pose proof (month_index_mono f g ltac:(lia)). lia. }
  pose proof (month_index_mono (f - 1) f ltac:(lia)) as H1.
  pose proof (month_index_mono _ _ Hgf) as H2.
  pose proof (month_range (f - 1)). pose proof (day_pos (f - 1)).
  assert (year (f - 1) * 12 + month (f - 1) <> ny * 12 + nm) as Hne.
  { intros Heq. pose proof (ymd_complete (f - 1)) as Hc.
    replace (year (f - 1)) with ny in Hc by lia. replace (month (f - 1)) with nm in Hc by lia.
    pose proof (ymd_linear _ _ _ _ _ _ Hf Hc). lia. }
  pose proof (ymd_complete (f - 1)) as Hc.
  replace (year (f - 1)) with y in Hc by lia. replace (month (f - 1)) with m in Hc by lia.
  split; [by eexists|]. intros d Hd.
  destruct (from_ymd_opt y m d) as [x|] eqn:Hx; [exfalso|done].
  pose proof (ymd_linear _ _ _ _ _ _ Hc Hx).
  pose proof (month_index_mono f x ltac:(lia)).
  pose proof (ymd_sound _ _ _ _ Hx) as (? & ? & _). lia.
Qed.

Definition ordinal_ok (o : MonthDay) : Prop :=
  match o with MDay d => 1 <= d <= 31 | MLast => True end.

(** Of two consecutive months one has 31 days, so every ordinal occurs in one
    of them. *)
Lemma ordinal_occurs o y m :
  ordinal_ok o -> -261998 <= y <= 261998 -> 1 <= m <= 12 ->
  exists k, 1 <= k <= 2 /\
    (let '(y', m') := add_months y m k in
     is_Some (from_ymd_opt y' m' (match o with MDay d => d | MLast => last_day_of_month y' m' end))).
Proof.
  intros Ho Hy Hm.
  assert (exists k, 1 <= k <= 2 /\ month_len ((m - 1 + k) mod 12 + 1) = 31) as (k & Hk & Hlen).
  { assert (m = 1 \/ m = 2 \/ m = 3 \/ m = 4 \/ m = 5 \/ m = 6 \/ m = 7 \/ m = 8 \/ m = 9
            \/ m = 10 \/ m = 11 \/ m = 12) as Hc by lia.
    destruct (decide (month_len ((m - 1 + 1) mod 12 + 1) = 31)) as [|Hn]; [by exists 1|].
    exists 2. split; [lia|]. decompose [or] Hc; subst; vm_compute in Hn |- *; done. }
  exists k. split; [done|]. unfold add_months.
  pose proof (Z.mod_pos_bound (m - 1 + k) 12).
  assert (0 <= (m - 1 + k) / 12 <= 1) by (Z.div_mod_to_equations; lia).
  destruct o as [d|].
  - apply ymd_exists; [lia|lia|]. rewrite Hlen. done.
  - apply last_day_of_month_spec; lia.
Qed.

Lemma monthly_scan_reaches os t today after fuel k j :
  k <= j < k + Z.of_nat fuel ->
  (let '(y, m) := add_months (year today) (month today) j in
   monthly_candidates tz os t y m after <> []) ->
  is_Some (monthly_scan tz os t today after fuel k).
Proof.
  revert k. induction fuel as [|fuel IH]; intros k Hj Hne; [lia|]. cbn [monthly_scan].
  destruct (add_months (year today) (month today) k) as [y m] eqn:E.
  pose proof (list_min_spec (monthly_candidates tz os t y m after)) as Hl.
  destruct (list_min _); [done|]. destruct (decide (k = j)) as [<-|].
  - by rewrite E in Hne.
  - apply IH; [lia|done].
Qed.

(** A monthly schedule with a day 1..31 or the last day always has a next
    fire: the three months searched are enough. *)
Lemma monthly_total os t after :
  Exists ordinal_ok os -> hm_time t -> -261998 <= year (date_of (after + off)) <= 261998 ->
  is_Some (next_fire_after (Monthly os t) after tz).
Proof.
  intros Hos [Ht _] Hy. cbn [next_fire_after]. rewrite local_fixed.
  set (today := date_of (after + off)) in *.
  apply Exists_exists in Hos as (o & Hin & Ho).
  destruct (ordinal_occurs o (year today) (month today) Ho Hy (month_range today)) as (k & Hk & Hocc).
  pose proof (add_months_index (year today) (month today) k (month_range today) ltac:(lia)) as Hidx.
  apply (monthly_scan_reaches _ _ _ _ _ _ k); [lia|].
  destruct (add_months (year today) (month today) k) as [y m].
  destruct Hocc as [d Hd], Hidx as [Hidx Hm].
  assert (and_time d t - off ∈ monthly_candidates tz os t y m after) as He.
  { apply list_elem_of_filter. split.
    - assert (after + off < and_time d t); [|lia].
      apply date_of_lt. rewrite date_of_and_time by done.
      destruct (Z_lt_le_dec (date_of (after + off)) d) as [|Hle]; [done|].
      pose proof (month_index_mono d today Hle). apply ymd_sound in Hd as (? & ? & _). lia.
    - apply list_elem_of_omap. exists o. split; [done|]. unfold monthly_candidate.
      rewrite Hd. simpl. apply resolve_fixed. }
  intros Hn. rewrite Hn in He. by apply elem_of_nil in He.
Qed.

End Earliest.

(** ** Daylight-saving transitions *)

Section Dst.
  Context `{CL : ChronoLaws}.

Lemma no_instant_of_none tz n v : from_local_datetime tz n = MNone -> local_of tz v <> n.
Proof.
  intros Hn <-. destruct (local_complete tz v) as [E|(e & l & E & _)]; congruence.
Qed.

Lemma earliest_of_mapped tz n u v :
  (from_local_datetime tz n = MSingle u \/ exists l, from_local_datetime tz n = MAmbiguous u l) ->
  local_of tz v = n -> u <= v.
Proof.
  intros Hu <-. destruct (local_complete tz v) as [E|(e & l & E & Hv)]; rewrite E in Hu.
  - destruct Hu as [[= <-]|(l & ?)]; [lia|done].
  - apply local_ambiguous in E as (_ & _ & ?).
    destruct Hu as [?|(l' & [= <- _])]; [done|]. destruct Hv; subst; lia.
Qed.

Lemma resolve_gap_first tz n fuel k u :
  resolve_gap tz n fuel k = Some u ->
  exists j, k <= j < k + Z.of_nat fuel
    /\ (from_local_datetime tz (n + minutes j) = MSingle u
        \/ exists l, from_local_datetime tz (n + minutes j) = MAmbiguous u l)
    /\ (forall i, k <= i < j -> from_local_datetime tz (n + minutes i) = MNone).
Proof.
  revert k. induction fuel as [|fuel IH]; intros k; cbn [resolve_gap]; [done|].
  destruct (from_local_datetime tz (n + minutes k)) as [v|v w|] eqn:E.
  - intros [= <-]. exists k. rewrite E. split_and!; [lia|lia|by left|lia].
  - intros [= <-]. exists k. rewrite E. split_and!; [lia|lia|right; by eexists|lia].
  - intros H. destruct (IH _ H) as (j & Hj & Hm & Hlt). exists j. split_and!; [lia|lia|done|].
    intros i Hi. destruct (decide (i = k)) as [->|]; [done|]. apply Hlt. lia.
Qed.

(** Resolving a wall clock reading in any zone: the answer is an instant
    whose local reading is the requested one, or, when the clock skips it, the
    first of the next 180 whole-minute steps that exists; every reading
    before that one is skipped by the zone, and of the instants that show the
    chosen reading the earliest is taken (a fall-back repeats it). *)
Theorem resolve_local_spec tz n u :
  resolve_local tz n = Some u ->
  exists j, 0 <= j <= 180 /\ local_of tz u = n + minutes j
    /\ (forall i v, 0 <= i < j -> local_of tz v <> n + minutes i)
    /\ (forall v, local_of tz v = n + minutes j -> u <= v).
Proof.
  intros H. assert (exists j, 0 <= j <= 180
    /\ (from_local_datetime tz (n + minutes j) = MSingle u
        \/ exists l, from_local_datetime tz (n + minutes j) = MAmbiguous u l)
    /\ (forall i, 0 <= i < j -> from_local_datetime tz (n + minutes i) = MNone))
    as (j & Hj & Hm & Hlt).
  { unfold resolve_local in H. replace n with (n + minutes 0) in H |- * by (unfold minutes; lia).
    destruct (from_local_datetime tz (n + minutes 0)) as [v|v w|] eqn:E.
    - injection H as ->. exists 0. rewrite Z.add_0_r in E. rewrite !Z.add_0_r, E.
      split_and!; [lia|lia|by left|lia].
    - injection H as ->. exists 0. rewrite Z.add_0_r in E. rewrite !Z.add_0_r, E.
      split_and!; [lia|lia|right; by eexists|lia].
    - rewrite Z.add_0_r in H, E |- *. apply resolve_gap_first in H as (j & ? & ? & Hlt).
      exists j. split_and!; [lia|lia|done|]. intros i Hi. destruct (decide (i = 0)) as [->|].
      + by rewrite Z.add_0_r.
      + apply Hlt. lia. }
  exists j. split_and!; [lia|lia| | |].
  - destruct Hm as [Hm|[l Hm]]; [by apply local_single|by apply local_ambiguous in Hm as [? _]].
  - intros i v Hi. apply no_instant_of_none, Hlt. done.
  - intros v. by apply earliest_of_mapped.
Qed.
End Dst.

(** ** The schedule properties *)

Section Properties.
  Context `{CL : ChronoLaws}.

Lemma schedule_earliest s tz off after u :
  sched_ok s -> fixed_offset tz off -> next_fire_after s after tz = Some u ->
  match s with
  | Interval secs => u = after + seconds secs
  | _ => wall_tick s off u /\ (forall v, wall_tick s off v -> after < v -> u <= v)
  end.
Proof.
  intros Hok Hfix. destruct s as [secs|t|ds t|os t|at_|]; cbn [sched_ok] in Hok.
  - cbn [next_fire_after]. unwrap. congruence.
  - intros Hu. destruct (daily_earliest tz off Hfix t after Hok) as (u' & Hu' & H).
    rewrite Hu in Hu'. injection Hu' as <-. exact H.
  - by apply weekdays_earliest.
  - by apply monthly_earliest.
  - cbn [next_fire_after]. case_if; [|done]. intros [= <-]. split; [done|].
    intros v -> _. lia.
  - done.
Qed.

(** C9. For a schedule compiled from the configuration, in a zone with a fixed
    offset, the next fire after an instant is strictly later; an interval
    fires exactly its period later, and every other schedule fires at the
    earliest instant after it whose local reading the schedule names (its time
    of day on any day, on the listed weekdays, on the listed days of the
    month, or the one instant of a [once] schedule). *)
Theorem next_fire_is_earliest k s tz off after u :
  kind_ok k -> from_ast k = Ok s -> fixed_offset tz off ->
  next_fire_after s after tz = Some u ->
  after < u /\
  match s with
  | Interval secs => u = after + seconds secs
  | _ => wall_tick s off u /\ (forall v, wall_tick s off v -> after < v -> u <= v)
  end.
Proof.
  intros Hk Hs Hfix Hu. pose proof (from_ast_ok _ _ Hk Hs) as Hok. split.
  - eapply next_fire_after_later; [done| |done]. by eapply fixed_offset_date_monotone.
  - by eapply schedule_earliest.
Qed.

(** A schedule that means at least one fire in every year. *)
Definition recurring (s : Schedule) : Prop :=
  match s with
  | Interval _ | Daily _ => True
  | Weekdays ds _ => ds <> []
  | Monthly os _ => Exists ordinal_ok os
  | Once _ | Disabled => False
  end.

(** A recurring schedule never runs dry: an interval, a daily time, a
    non-empty weekday set and a monthly schedule with at least one ordinal in
    1..31 or [last] all have a next fire after every instant, so the eight
    days and three months the search covers are enough. *)
Theorem recurring_has_next_fire s tz off after :
  sched_ok s -> recurring s -> fixed_offset tz off ->
  -261998 <= year (date_of (after + off)) <= 261998 ->
  is_Some (next_fire_after s after tz).
Proof.
  intros Hok Hr Hfix Hy. destruct s as [secs|t|ds t|os t|at_|]; cbn in Hok, Hr; try done.
  - destruct (daily_earliest tz off Hfix t after Hok) as (u & Hu & _). by exists u.
  - by eapply weekdays_total.
  - by eapply monthly_total.
Qed.

Lemma next_n_fires_sorted s tz n after :
  sched_ok s -> date_monotone tz ->
  StronglySorted Z.lt (after :: next_n_fires s after tz n).
Proof.
  intros Hok Hm. revert after. induction n as [|n IH]; intros after; cbn [next_n_fires].
  { repeat constructor. }
  destruct (next_fire_after s after tz) as [u|] eqn:E; [|repeat constructor].
  pose proof (next_fire_after_later _ _ _ _ Hok Hm E) as Hlt.
  specialize (IH u). constructor; [done|]. inversion_clear IH as [|? ? Hs Hall].
  constructor; [done|]. eapply Forall_impl; [done|]. simpl. lia.
Qed.
End Properties.

Import Demo.

(** The last day of each month at 09:00, two hours east of UTC. *)
Definition demo_kind : ScheduleKind := KMonthly [OrdLast] {| tv_hour := 9; tv_minute := 0; tv_raw := "09:00" |}.
Definition demo_schedule : Schedule := Monthly [MLast] (seconds 32400).

Lemma next_fire_is_earliest_witness :
  next_fire_after (C := demo_chrono) demo_schedule 0 (fixed 7200)
    = Some (seconds (30 * 86400 + 25200)) /\
  (forall v, wall_tick (C := demo_chrono) demo_schedule (seconds 7200) v -> 0 < v ->
     seconds (30 * 86400 + 25200) <= v).
Proof.
  assert (next_fire_after (C := demo_chrono) demo_schedule 0 (fixed 7200)
    = Some (seconds (30 * 86400 + 25200))) as E by (vm_compute; reflexivity).
  split; [exact E|].
  refine (proj2 (proj2 (next_fire_is_earliest (CL := demo_laws) demo_kind demo_schedule
    (fixed 7200) (seconds 7200) 0 _ _ _ (fixed_fixed_offset 7200) E))).
  - vm_compute. intuition congruence.
  - reflexivity.
Defined.

Lemma recurring_has_next_fire_witness :
  is_Some (next_fire_after (C := demo_chrono) demo_schedule 0 (fixed 7200)).
Proof.
  apply (recurring_has_next_fire (CL := demo_laws) demo_schedule (fixed 7200) (seconds 7200) 0).
  - vm_compute. intuition congruence.
  - left. exact I.
  - exact (fixed_fixed_offset 7200).
  - vm_compute. intuition congruence.
Defined.

(** A spring-forward of one hour at [NS_DAY]: 00:30 of that day is skipped and
    resolves to 01:00. *)
Lemma resolve_local_spec_witness :
  let tz : @Tz demo_chrono := MkZone 0 3600 NS_DAY in
  resolve_local tz (NS_DAY + minutes 30) = Some NS_DAY /\
  exists j, 0 <= j <= 180 /\ local_of tz NS_DAY = NS_DAY + minutes 30 + minutes j
    /\ (forall i v, 0 <= i < j -> local_of tz v <> NS_DAY + minutes 30 + minutes i)
    /\ (forall v, local_of tz v = NS_DAY + minutes 30 + minutes j -> NS_DAY <= v).
Proof.
  assert (resolve_local (C := demo_chrono) (MkZone 0 3600 NS_DAY) (NS_DAY + minutes 30)
          = Some NS_DAY) as E by (vm_compute; reflexivity).
  split; [exact E|]. exact (resolve_local_spec (CL := demo_laws) _ _ _ E).
Defined.

#[global] Arguments resolve_local : simpl never.
#[global] Arguments next_fire_after : simpl never.
