(* ===== verification/Calendar.v ===== *)
(** * Calendars

    Models [croniq-scheduler/src/calendar.rs]: the rules, the compilation of a
    calendar from its configuration, the point-wise test [is_allowed] and the
    per-day interval form [allowed_intervals_on] the search for the next
    opening runs on. *)

From S2P Require Import Prelude RustStr Chrono Ast CalendarArgs DaySets Schedule.

Local Open Scope string_scope.
Local Open Scope Z_scope.
Local Open Scope result_scope.

Inductive CalendarRule :=
| RWeekly (days : list Weekday)
| RWindow (start end_ : NaiveTime)
| RMonthly (days : list Z)
| RAnnual (dates : list (Z * Z))
| RDates (dates : list NaiveDate).

Inductive CalendarError :=
| UnknownRuleKind (s : string)
| UnknownRuleType (s : string)
| InvalidRule (s : string).

(** [CalendarRuleConfig], [CalendarConfig] of croniq-config's [compile.rs]. *)
Record CalendarRuleConfig := {
  rc_kind : string;
  rc_rule_type : string;
  rc_args : list string
}.
Record CalendarConfig := {
  cc_name : string;
  cc_timezone : option string;
  cc_rules : list CalendarRuleConfig
}.

Section Calendars.
  Context `{C : Chrono}.

Record Calendar := {
  cal_name : string;
  cal_tz : Tz;
  includes : list CalendarRule;
  excludes : list CalendarRule
}.

(** [CalendarRule::matches] *)
Definition matches (r : CalendarRule) (date : NaiveDate) (time : NaiveTime) : bool :=
  match r with
  | RWeekly ds => bool_decide (weekday date ∈ ds)
  | RWindow start end_ => window_test start end_ time
  | RMonthly ds => bool_decide (day date ∈ ds)
  | RAnnual dates => existsb (fun '(m, d) => (month date =? m) && (day date =? d)) dates
  | RDates dates => bool_decide (date ∈ dates)
  end.

(** [Calendar::is_allowed] *)
Definition is_allowed (c : Calendar) (date : NaiveDate) (time : NaiveTime) : bool :=
  let includes_pass :=
    match includes c with
    | [] => true
    | rs => forallb (fun r => matches r date time) rs
    end in
  let excludes_match := existsb (fun r => matches r date time) (excludes c) in
  includes_pass && negb excludes_match.

(** The two loops of [allowed_intervals_on]; [None] is the early
    [return Vec::new()]. *)
Fixpoint include_loop (rules : list CalendarRule) (date : NaiveDate) (set : DaySet)
    : option DaySet :=
  match rules with
  | [] => Some set
  | RWindow s e :: rules' =>
      include_loop rules' date (intersect_intervals set (window_intervals s e))
  | date_rule :: rules' =>
      if negb (matches date_rule date 0) then None else include_loop rules' date set
  end.

Fixpoint exclude_loop (rules : list CalendarRule) (date : NaiveDate) (set : DaySet)
    : option DaySet :=
  match rules with
  | [] => Some set
  | RWindow s e :: rules' =>
      exclude_loop rules' date (subtract_intervals set (window_intervals s e))
  | date_rule :: rules' =>
      if matches date_rule date 0 then None else exclude_loop rules' date set
  end.

(** [Calendar::allowed_intervals_on] *)
Definition allowed_intervals_on (c : Calendar) (date : NaiveDate) : DaySet :=
  match include_loop (includes c) date [(0, DAY_SECS)] with
  | None => []
  | Some set => match exclude_loop (excludes c) date set with
                | None => []
                | Some set => set
                end
  end.

(** [Calendar::next_allowed_after] *)
Definition next_allowed_after (c : Calendar) (from : NaiveDateTime) : option NaiveDateTime :=
  next_instant_in from (allowed_intervals_on c).

(** [Calendar::is_allowed_at] *)
Definition is_allowed_at (c : Calendar) (at_ : instant) : bool :=
  let local := local_of (cal_tz c) at_ in
  is_allowed c (date_of local) (time_of local).

(** [Calendar::next_open_at_or_after] *)
Definition next_open_at_or_after (c : Calendar) (from : instant) : option instant :=
  let local := local_of (cal_tz c) from in
  open_local ← next_instant_in local (allowed_intervals_on c);
  resolve_local_at_or_after (cal_tz c) open_local from.

(** The argument loop of the [annual] arm of [compile_rule]. *)
Fixpoint annual_args (args : list string) (annual : list (Z * Z)) (specific : list NaiveDate)
    : result (list (Z * Z) * list NaiveDate) string :=
  match args with
  | [] => Ok (annual, specific)
  | arg :: args' =>
      a <-? parse_annual_arg arg;
      match a with
      | AMonthDay m d => annual_args args' (annual ++ [(m, d)]) specific
      | ADate date => annual_args args' annual (specific ++ [date])
      | AIgnored => annual_args args' annual specific
      end
  end.

(** [compile_rule] *)
Definition compile_rule (rule_type : string) (args : list string)
    : result CalendarRule CalendarError :=
  if String.eqb rule_type "weekly" then
    days <-? map_err InvalidRule (res_collect parse_weekly_arg args);
    Ok (RWeekly (map ast_weekday_to_chrono (concat days)))
  else if String.eqb rule_type "window" then
    w <-? map_err InvalidRule (parse_window_args args);
    let '(start, end_) := w in Ok (RWindow start end_)
  else if String.eqb rule_type "monthly" then
    days <-? map_err InvalidRule (res_collect parse_monthly_arg args);
    Ok (RMonthly days)
  else if String.eqb rule_type "annual" || String.eqb rule_type "yearly" then
    ds <-? map_err InvalidRule (annual_args args [] []);
    let '(annual_dates, specific_dates) := ds in
    match specific_dates, annual_dates with
    | [], _ => Ok (RAnnual annual_dates)
    | _, [] => Ok (RDates specific_dates)
    | _, _ => Ok (RAnnual (annual_dates ++ map (fun d => (month d, day d)) specific_dates))
    end
  else Err (UnknownRuleType rule_type).

(** The rule loop of [Calendar::from_config]. *)
Fixpoint compile_rules (rules : list CalendarRuleConfig) (inc exc : list CalendarRule)
    : result (list CalendarRule * list CalendarRule) CalendarError :=
  match rules with
  | [] => Ok (inc, exc)
  | rule :: rules' =>
      compiled <-? compile_rule (rc_rule_type rule) (rc_args rule);
      if String.eqb (rc_kind rule) "include" then compile_rules rules' (inc ++ [compiled]) exc
      else if String.eqb (rc_kind rule) "exclude"
      then compile_rules rules' inc (exc ++ [compiled])
      else Err (UnknownRuleKind (rc_kind rule))
  end.

(** [Calendar::from_config] *)
Definition from_config (cfg : CalendarConfig) : result Calendar CalendarError :=
  rs <-? compile_rules (cc_rules cfg) [] [];
  let '(inc, exc) := rs in
  let tz := match cc_timezone cfg with
            | Some t => if str_is_empty t then UTC else default UTC (tz_parse t)
            | None => UTC
            end in
  Ok {| cal_name := cc_name cfg; cal_tz := tz; includes := inc; excludes := exc |}.

(** Windows on whole seconds, as [compile_rule] makes them. *)
Definition rule_ok (r : CalendarRule) : Prop :=
  match r with RWindow s e => hm_time s /\ hm_time e | _ => True end.
Definition calendar_ok (c : Calendar) : Prop :=
  Forall rule_ok (includes c) /\ Forall rule_ok (excludes c).

Lemma include_loop_spec rules date t set :
  Forall rule_ok rules -> 0 <= t < NS_DAY -> day_ok 0 set ->
  match include_loop rules date set with
  | Some s => day_ok 0 s /\
      (covers s (num_seconds_from_midnight t) <->
       covers set (num_seconds_from_midnight t)
       /\ forallb (fun r => matches r date t) rules = true)
  | None => forallb (fun r => matches r date t) rules = false
  end.
Proof.
  intros Hr Ht. revert set. induction Hr as [|r rules Hok _ IH]; intros set Hset.
  { simpl. tauto. }
  cbn [include_loop forallb].
  destruct r as [ds|s e|ds|ds|ds]; cbn [matches] in *;
    try (destruct (negb _) eqn:E; b2p; rewrite E; [done|]; by apply IH).
  destruct Hok as [Hs He].
  specialize (IH (intersect_intervals set (window_intervals s e))).
  specialize (IH ltac:(apply (intersect_ok _ _ 0 0); auto using window_intervals_ok)).
  destruct (include_loop _ _ _) as [out|]; [|by rewrite IH, andb_false_r].
  destruct IH as [Hout IH]. split; [done|]. rewrite IH, andb_true_iff.
  rewrite (intersect_covers _ _ _ 0 0) by auto using window_intervals_ok.
  rewrite window_intervals_covers by done. tauto.
Qed.

Lemma exclude_loop_spec rules date t set :
  Forall rule_ok rules -> 0 <= t < NS_DAY -> day_ok 0 set ->
  match exclude_loop rules date set with
  | Some s => day_ok 0 s /\
      (covers s (num_seconds_from_midnight t) <->
       covers set (num_seconds_from_midnight t)
       /\ existsb (fun r => matches r date t) rules = false)
  | None => existsb (fun r => matches r date t) rules = true
  end.
Proof.
  intros Hr Ht. revert set. induction Hr as [|r rules Hok _ IH]; intros set Hset.
  { simpl. tauto. }
  cbn [exclude_loop existsb].
  destruct r as [ds|s e|ds|ds|ds]; cbn [matches] in *;
    try (match goal with |- context [if ?b then _ else _] => destruct b eqn:E end;
         simpl; [done|]; by apply IH).
  destruct Hok as [Hs He].
  specialize (IH (subtract_intervals set (window_intervals s e))).
  specialize (IH ltac:(apply subtract_ok; auto using window_intervals_ok)).
  destruct (exclude_loop _ _ _) as [out|]; [|by rewrite IH, orb_true_r].
  destruct IH as [Hout IH]. split; [done|]. rewrite IH, orb_false_iff.
  rewrite subtract_covers by auto using window_intervals_ok.
  rewrite window_intervals_covers by done. rewrite not_true_iff_false. tauto.
Qed.

Lemma time_covered t : 0 <= t < NS_DAY ->
  covers [(0, DAY_SECS)] (num_seconds_from_midnight t).
Proof.
  intros Ht. apply covers_cons. left.
  unfold num_seconds_from_midnight, NS_DAY, NS_SEC, DAY_SECS in *. Z.div_mod_to_equations. lia.
Qed.

Lemma intervals_factor c date t :
  calendar_ok c -> 0 <= t < NS_DAY ->
  day_ok 0 (allowed_intervals_on c date) /\
  (covers (allowed_intervals_on c date) (num_seconds_from_midnight t)
   <-> is_allowed c date t = true).
Proof.
  intros [Hi He] Ht. unfold allowed_intervals_on, is_allowed. cbv zeta.
  assert (match includes c with [] => true
          | rs => forallb (fun r => matches r date t) rs end
          = forallb (fun r => matches r date t) (includes c)) as ->
    by (by destruct (includes c)).
  assert (day_ok 0 [(0, DAY_SECS)]) as Hd by (simpl; unfold DAY_SECS; lia).
  pose proof (include_loop_spec _ date t _ Hi Ht Hd) as Hinc.
  destruct (include_loop _ _ _) as [set|].
  - destruct Hinc as [Hset Hinc].
    pose proof (exclude_loop_spec _ date t _ He Ht Hset) as Hexc.
    destruct (exclude_loop _ _ _) as [out|].
    + destruct Hexc as [Hout Hexc]. split; [done|]. rewrite Hexc, Hinc.
      rewrite andb_true_iff, negb_true_iff. pose proof (time_covered t Ht). tauto.
    + split; [done|]. rewrite Hexc, andb_false_r, covers_nil. done.
  - split; [done|]. rewrite Hinc, covers_nil. done.
Qed.

Lemma allowed_intervals_ok c date : calendar_ok c -> day_ok 0 (allowed_intervals_on c date).
Proof. intros Hc. by apply (intervals_factor c date 0). Qed.

(** Whether the calendar is open at a wall clock reading, both ways. *)
Lemma open_at_allowed c n :
  calendar_ok c -> open_at (allowed_intervals_on c) n
  <-> is_allowed c (date_of n) (time_of n) = true.
Proof. intros Hc. apply intervals_factor; [done|]. apply time_of_range. Qed.

Lemma compile_rule_ok ty args r : compile_rule ty args = Ok r -> rule_ok r.
Proof.
  unfold compile_rule, res_bind. repeat case_if; simpl.
  - destruct (map_err _ _); [|done]. by intros [= <-].
  - destruct (parse_window_args args) as [[s e]|] eqn:E; simpl; [|done].
    intros [= <-]. by eapply parse_window_args_hm.
  - destruct (map_err _ _); [|done]. by intros [= <-].
  - destruct (map_err _ _) as [[a [|]]|]; [| |done]; [by intros [= <-]|].
    destruct a; by intros [= <-].
  - done.
Qed.

Lemma compile_rules_ok rules inc exc inc' exc' :
  Forall rule_ok inc -> Forall rule_ok exc ->
  compile_rules rules inc exc = Ok (inc', exc') ->
  Forall rule_ok inc' /\ Forall rule_ok exc'.
Proof.
  revert inc exc. induction rules as [|r rules IH]; intros inc exc Hi He; cbn [compile_rules].
  { by intros [= <- <-]. }
  destruct (compile_rule _ _) as [c|] eqn:E; simpl; [|done].
  apply compile_rule_ok in E. repeat case_if; [apply IH..|done]; try done;
    apply Forall_app; split; try done; by constructor.
Qed.

Lemma from_config_ok cfg c : from_config cfg = Ok c -> calendar_ok c.
Proof.
  unfold from_config. destruct (compile_rules _ _ _) as [[i e]|] eqn:E; simpl; [|done].
  intros [= <-]. apply compile_rules_ok in E; done.
Qed.
End Calendars.

(** ** Validation agrees with compilation *)

Section Validation.
  Context `{C : Chrono}.

Lemma res_collect_is_ok {A B E} (f : A -> result B E) l :
  is_ok (res_collect f l) = forallb (fun a => is_ok (f a)) l.
Proof.
  induction l as [|a l IH]; simpl; [done|]. rewrite <- IH.
  destruct (f a); simpl; [|done]. by destruct (res_collect f l).
Qed.

Lemma annual_args_is_ok args a s :
  is_ok (annual_args args a s) = forallb (fun x => is_ok (parse_annual_arg x)) args.
Proof.
  revert a s. induction args as [|x args IH]; intros a s; cbn [annual_args forallb]; [done|].
  destruct (parse_annual_arg x) as [[]|]; simpl; auto.
Qed.

(** The offline check of a calendar rule's arguments ([rule_args_valid],
    used by [croniq validate]) accepts exactly the argument lists the
    scheduler's [compile_rule] compiles, for every rule type the scheduler
    knows: validation and runtime cannot diverge. *)
Theorem rule_args_valid_iff_compiles rule_type args :
  rule_type ∈ ["weekly"; "window"; "monthly"; "annual"; "yearly"] ->
  rule_args_valid rule_type args = is_ok (compile_rule rule_type args).
Proof.
  intros Hty. repeat (apply elem_of_cons in Hty as [->|Hty]); [..|by apply elem_of_nil in Hty];
    unfold rule_args_valid, compile_rule; cbn [String.eqb Ascii.eqb Bool.eqb orb].
  - rewrite <- res_collect_is_ok. by destruct (res_collect _ _).
  - by destruct (parse_window_args args) as [[]|].
  - rewrite <- res_collect_is_ok. by destruct (res_collect _ _).
  - rewrite <- (annual_args_is_ok args [] []).
    by destruct (annual_args _ _ _) as [[[] []]|].
  - rewrite <- (annual_args_is_ok args [] []).
    by destruct (annual_args _ _ _) as [[[] []]|].
Qed.
End Validation.

Lemma rule_args_valid_iff_compiles_witness :
  rule_args_valid (C := Demo.demo_chrono) "annual" ["12-25"; "2026-1"]
  = is_ok (compile_rule (C := Demo.demo_chrono) "annual" ["12-25"; "2026-1"]).
Proof. apply rule_args_valid_iff_compiles. set_solver. Defined.

(** ** The interval form and the search *)

Section Openings.
  Context `{CL : ChronoLaws}.

(** C40. For a calendar compiled from a configuration, the second-of-day
    intervals of a date cover a time of day exactly when [is_allowed] accepts
    that date and time: every include rule matches and no exclude rule does. *)
Theorem allowed_intervals_factor_is_allowed cfg c date t :
  from_config cfg = Ok c -> 0 <= t < NS_DAY ->
  covers (allowed_intervals_on c date) (num_seconds_from_midnight t)
  <-> is_allowed c date t = true.
Proof. intros Hc Ht. apply intervals_factor; [by eapply from_config_ok|done]. Qed.

Lemma whole_second_shift u off :
  off mod NS_SEC = 0 -> whole_second (u + off) <-> whole_second u.
Proof.
  unfold whole_second, NS_SEC. intros. Z.div_mod_to_equations. lia.
Qed.

(** A resolved reading reads back as itself unless it falls in a gap. *)
Lemma resolve_at_or_after_local tz n floor u :
  from_local_datetime tz n <> MNone ->
  resolve_local_at_or_after tz n floor = Some u -> local_of tz u = n.
Proof.
  unfold resolve_local_at_or_after, resolve_local. intros Hn.
  destruct (from_local_datetime tz n) as [v|e l|] eqn:E; [| |done].
  - intros [= <-]. by apply local_single.
  - apply local_ambiguous in E as (He & Hl & _). intros [= <-]. by case_if.
Qed.

Lemma calendar_open_sound c from u n :
  calendar_ok c ->
  next_instant_in (local_of (cal_tz c) from) (allowed_intervals_on c) = Some n ->
  from_local_datetime (cal_tz c) n <> MNone ->
  next_open_at_or_after c from = Some u -> is_allowed_at c u = true.
Proof.
  intros Hc Hn Hg. unfold next_open_at_or_after. cbv zeta. rewrite Hn. simpl. intros Hu.
  unfold is_allowed_at. rewrite (resolve_at_or_after_local _ _ _ _ Hg Hu).
  apply open_at_allowed; [done|]. eapply next_instant_in_some; [|done].
  intros. by apply allowed_intervals_ok.
Qed.

Lemma calendar_open_fixed c off from :
  calendar_ok c -> fixed_offset (cal_tz c) off ->
  match next_open_at_or_after c from with
  | Some u => from <= u /\ whole_second u /\ is_allowed_at c u = true /\
      (forall v, whole_second v -> from <= v < u -> is_allowed_at c v = false)
  | None =>
      (forall i, 0 <= i <= MAX_SCAN_DAYS ->
         is_Some (checked_add_days (date_of (from + off)) i)) ->
      forall v, whole_second v -> from <= v ->
        date_of (v + off) <= date_of (from + off) + MAX_SCAN_DAYS ->
        is_allowed_at c v = false
  end.
Proof.
  intros Hc Hfix. pose proof (fixed_offset_seconds _ _ Hfix) as Hoff. destruct Hfix as [Hl Hf].
  unfold next_open_at_or_after, is_allowed_at. cbv zeta. rewrite Hl.
  assert (forall d, day_ok 0 (allowed_intervals_on c d)) as Hok
    by (intros; by apply allowed_intervals_ok).
  assert (forall v, ~ open_at (allowed_intervals_on c) (v + off) ->
            is_allowed c (date_of (local_of (cal_tz c) v))
              (time_of (local_of (cal_tz c) v)) = false) as Hclosed.
  { intros v Hv. rewrite Hl. rewrite <- not_true_iff_false. by rewrite <- open_at_allowed. }
  destruct (next_instant_in _ _) as [n|] eqn:E; simpl.
  - destruct (next_instant_in_some _ Hok _ _ E) as (Hle & Hw & Ho & Hmin).
    unfold resolve_local_at_or_after, resolve_local. rewrite Hf.
    rewrite open_at_allowed in Ho by done.
    split_and!; [lia| |by rewrite Hl, Z.sub_add|].
    + apply (whole_second_shift _ off Hoff). by rewrite Z.sub_add.
    + intros v Hv Hlt. apply Hclosed, Hmin; [by apply whole_second_shift|lia].
  - intros Hadd v Hv Hle Hmax. apply Hclosed.
    by apply (next_instant_in_none _ Hok _ Hadd E); [apply whole_second_shift|lia|].
Qed.

(** In a zone with a fixed offset, [next_open_at_or_after]
    returns a second at which the calendar is open, no earlier than the
    instant asked about, and no second before it is open; when it returns
    nothing, the calendar is closed at every second of the scan horizon (given
    the horizon lies inside the date type's range). *)
Theorem next_open_is_earliest cfg c off from :
  from_config cfg = Ok c -> fixed_offset (cal_tz c) off ->
  match next_open_at_or_after c from with
  | Some u => from <= u /\ whole_second u /\ is_allowed_at c u = true /\
      (forall v, whole_second v -> from <= v < u -> is_allowed_at c v = false)
  | None =>
      (forall i, 0 <= i <= MAX_SCAN_DAYS ->
         is_Some (checked_add_days (date_of (from + off)) i)) ->
      forall v, whole_second v -> from <= v ->
        date_of (v + off) <= date_of (from + off) + MAX_SCAN_DAYS ->
        is_allowed_at c v = false
  end.
Proof. intros Hc. apply calendar_open_fixed. by eapply from_config_ok. Qed.
End Openings.

(** A working-hours calendar of the demonstration instance. *)
Definition demo_config : CalendarConfig := {|
  cc_name := "business";
  cc_timezone := Some "Etc/GMT-2";
  cc_rules := [ {| rc_kind := "include"; rc_rule_type := "weekly"; rc_args := ["weekday"] |};
                {| rc_kind := "include"; rc_rule_type := "window"; rc_args := ["08:00..18:00"] |};
                {| rc_kind := "exclude"; rc_rule_type := "window"; rc_args := ["12:00"; "13:00"] |};
                {| rc_kind := "exclude"; rc_rule_type := "annual"; rc_args := ["01-01"] |} ]
|}.
Definition demo_calendar : Calendar (C := Demo.demo_chrono) := {|
  cal_name := "business";
  cal_tz := Demo.fixed 7200 : @Tz Demo.demo_chrono;
  includes := [ RWeekly [Mon; Tue; Wed; Thu; Fri];
                RWindow (seconds 28800) (seconds 64800) ];
  excludes := [ RWindow (seconds 43200) (seconds 46800); RAnnual [(1, 1)] ]
|}.

Lemma demo_calendar_compiles : from_config (C := Demo.demo_chrono) demo_config = Ok demo_calendar.
Proof. reflexivity. Qed.

Lemma allowed_intervals_factor_is_allowed_witness :
  covers (allowed_intervals_on demo_calendar 20541) (num_seconds_from_midnight 0)
  <-> is_allowed demo_calendar 20541 0 = true.
Proof.
  apply (allowed_intervals_factor_is_allowed demo_config);
    [apply demo_calendar_compiles|vm_compute; split; congruence].
Defined.

(** Thursday 1970-01-01 is a holiday: the calendar opens on Friday at 08:00
    local time, 06:00 UTC. *)
Lemma next_open_is_earliest_witness :
  next_open_at_or_after demo_calendar 0 = Some (seconds (86400 + 21600)) /\
  forall v, whole_second v -> 0 <= v < seconds (86400 + 21600) ->
    is_allowed_at demo_calendar v = false.
Proof.
  pose proof (next_open_is_earliest (CL := Demo.demo_laws) demo_config demo_calendar (seconds 7200) 0
    demo_calendar_compiles (Demo.fixed_fixed_offset _)) as H.
  assert (next_open_at_or_after demo_calendar 0 = Some (seconds (86400 + 21600))) as E
    by (vm_compute; reflexivity).
  rewrite E in H. split; [exact E|]. apply H.
Defined.
