(* ===== verification/Trigger.v ===== *)
(** * The trigger state machine

    Models [croniq-scheduler/src/trigger.rs]: a job's schedule at run time.
    The methods that take [&mut self] are functions from a trigger to a
    trigger; those that also return a value return the pair. *)

From S2P Require Import Prelude RustStr Chrono Ast CalendarArgs DaySets Schedule Calendar.

Local Open Scope string_scope.
Local Open Scope Z_scope.

Inductive TriggerState := Armed | Fired | Completed | Paused | Exhausted.
#[export] Instance TriggerState_eq_dec : EqDecision TriggerState.
Proof. solve_decision. Defined.

Inductive MissedFires :=
| CatchOnce
| CatchAll (max : Z)
| CatchSkip.

(** [MISSED_FIRE_WALK_LIMIT] *)
Definition MISSED_FIRE_WALK_LIMIT : Z := 100000.

Inductive MissedPlan :=
| NoneMissed
| PlanOnce
| Replay (count dropped : Z)
| Skipped
| TooManyToReplay.

Inductive PendingFire :=
| Adopted
| HealedGateClosed
| HealedOutlivedSchedule
| DroppedDisabled.

Record TimeWindow := { w_start : NaiveTime; w_end : NaiveTime }.

(** [parse_time] of trigger.rs *)
Definition parse_time_opt (s : string) : option NaiveTime :=
  match split_char ":" s with
  | [hs; ms] => h ← parse_u32 hs; m ← parse_u32 ms; from_hm_opt h m
  | _ => None
  end.

(** [TimeWindow::parse] *)
Definition window_parse (s : string) : option TimeWindow :=
  '(start_str, end_str) ← split_once ".." s;
  start ← parse_time_opt start_str;
  end_ ← parse_time_opt end_str;
  Some {| w_start := start; w_end := end_ |}.

(** [TimeWindow::contains] *)
Definition contains (w : TimeWindow) (time : NaiveTime) : bool :=
  window_test (w_start w) (w_end w) time.

(** [time.format("%H:%M")] *)
Definition two_digits (n : Z) : string :=
  if n <? 10 then "0" +:+ show_uint n else show_uint n.
Definition format_hm (t : NaiveTime) : string :=
  let secs := num_seconds_from_midnight t in
  two_digits (secs / 3600) +:+ ":" +:+ two_digits (secs / 60 mod 60).

Section Triggers.
  Context `{C : Chrono}.

Record Trigger := MkTrigger {
  job_key : string;
  schedule : Schedule;
  timezone : Tz;
  calendar : option Calendar;
  window : option TimeWindow;
  not_before : option instant;
  not_after : option instant;
  state : TriggerState;
  next_fire_at : option instant;
  last_fired_at : option instant;
  last_completed_at : option instant;
  fire_count : Z;
  missed_fires : MissedFires;
  replay_until : option instant
}.

Definition set_state (s : TriggerState) (t : Trigger) : Trigger :=
  MkTrigger (job_key t) (schedule t) (timezone t) (calendar t) (window t) (not_before t)
    (not_after t) s (next_fire_at t) (last_fired_at t) (last_completed_at t)
    (fire_count t) (missed_fires t) (replay_until t).
Definition set_next (n : option instant) (t : Trigger) : Trigger :=
  MkTrigger (job_key t) (schedule t) (timezone t) (calendar t) (window t) (not_before t)
    (not_after t) (state t) n (last_fired_at t) (last_completed_at t)
    (fire_count t) (missed_fires t) (replay_until t).
Definition set_fired (l : option instant) (n : Z) (t : Trigger) : Trigger :=
  MkTrigger (job_key t) (schedule t) (timezone t) (calendar t) (window t) (not_before t)
    (not_after t) (state t) (next_fire_at t) l (last_completed_at t)
    n (missed_fires t) (replay_until t).
Definition set_last_completed (l : option instant) (t : Trigger) : Trigger :=
  MkTrigger (job_key t) (schedule t) (timezone t) (calendar t) (window t) (not_before t)
    (not_after t) (state t) (next_fire_at t) (last_fired_at t) l
    (fire_count t) (missed_fires t) (replay_until t).
Definition set_replay_until (r : option instant) (t : Trigger) : Trigger :=
  MkTrigger (job_key t) (schedule t) (timezone t) (calendar t) (window t) (not_before t)
    (not_after t) (state t) (next_fire_at t) (last_fired_at t) (last_completed_at t)
    (fire_count t) (missed_fires t) r.

(** [next_window_open_at_or_after] *)
Definition next_window_open_at_or_after (tz : Tz) (w : TimeWindow) (from : instant)
    : option instant :=
  let local := local_of tz from in
  open_local ← next_instant_in local (fun _ => window_intervals (w_start w) (w_end w));
  resolve_local_at_or_after tz open_local from.

(** [Trigger::gate_allows] *)
Definition gate_allows (t : Trigger) (at_ : instant) : bool :=
  let calendar_ok :=
    match calendar t with Some c => is_allowed_at c at_ | None => true end in
  let window_ok :=
    match window t with
    | Some w => contains w (time_of (local_of (timezone t) at_))
    | None => true
    end in
  calendar_ok && window_ok.

(** [Trigger::gate_closed_reason] *)
Definition gate_closed_reason (t : Trigger) (at_ : instant) : option string :=
  let time := time_of (local_of (timezone t) at_) in
  let reasons : list string :=
    (match calendar t with
    | Some c => if negb (is_allowed_at c at_) then ["calendar '" +:+ cal_name c +:+ "'"]%list else []
    | None => []
    end ++
    match window t with
    | Some w => if negb (contains w time)
                then ["window " +:+ format_hm (w_start w) +:+ ".." +:+ format_hm (w_end w)]
                else []
    | None => []
    end)%list in
  match reasons with [] => None | _ => Some (str_join " and " reasons) end.

(** The loop of [Trigger::next_gate_open]: [fuel] rounds left. *)
Fixpoint gate_rounds (tr : Trigger) (horizon : instant) (fuel : nat) (t : instant)
    : option instant :=
  match fuel with
  | O => None
  | S fuel' =>
      if horizon <? t then None
      else
        cal_open ← match calendar tr with
                   | Some c => next_open_at_or_after c t
                   | None => Some t
                   end;
        window_open ← match window tr with
                      | Some w => next_window_open_at_or_after (timezone tr) w t
                      | None => Some t
                      end;
        let next := Z.max cal_open window_open in
        if next <=? t then Some t else gate_rounds tr horizon fuel' next
  end.

(** [Trigger::next_gate_open]; [MAX_ROUNDS] is 512. *)
Definition next_gate_open (tr : Trigger) (from : instant) : option instant :=
  gate_rounds tr (from + days MAX_SCAN_DAYS) 512 from.

(** [Trigger::advance_anchor] *)
Definition advance_anchor (t : Trigger) (fire_at now : instant) : instant :=
  match schedule t with
  | Interval secs =>
      if (fire_at <=? now) && (now - fire_at <? seconds (wrap_i64 secs)) then fire_at else now
  | _ => now
  end.

(** The loop of [Trigger::compute_next_fire]: [fuel] gate jumps left. *)
Fixpoint gate_jumps (t : Trigger) (fuel : nat) (candidate : instant) : option instant :=
  match fuel with
  | O => None
  | S fuel' =>
      if gate_allows t candidate then Some candidate
      else
        open_utc ← next_gate_open t candidate;
        candidate' ← match schedule t with
                     | Interval _ => Some open_utc
                     | s => next_fire_after s (open_utc - seconds 1) (timezone t)
                     end;
        gate_jumps t fuel' candidate'
  end.

(** [Trigger::compute_next_fire]; [MAX_GATE_JUMPS] is 1500. *)
Definition compute_next_fire (t : Trigger) (after : instant) : option instant :=
  candidate ← next_fire_after (schedule t) after (timezone t);
  gate_jumps t 1500 candidate.

Definition is_disabled (s : Schedule) : bool :=
  match s with Disabled => true | _ => false end.

(** [Trigger::with_bounds] *)
Definition with_bounds (job_key : string) (schedule : Schedule) (timezone : Tz)
    (calendar : option Calendar) (window : option TimeWindow)
    (not_before not_after : option instant) (now : instant) : Trigger :=
  let trigger :=
    MkTrigger job_key schedule timezone calendar window not_before not_after
      Armed None None None 0 CatchOnce None in
  if is_disabled schedule then set_state Paused trigger
  else
    let trigger := set_next (compute_next_fire trigger now) trigger in
    match next_fire_at trigger with
    | None => set_state Exhausted trigger
    | Some _ => trigger
    end.

(** [Trigger::new] *)
Definition new (job_key : string) (schedule : Schedule) (timezone : Tz)
    (calendar : option Calendar) (window : option TimeWindow) (now : instant) : Trigger :=
  with_bounds job_key schedule timezone calendar window None None now.

(** [Trigger::evaluate] *)
Definition evaluate (t : Trigger) (now : instant) : option instant :=
  if negb (bool_decide (state t = Armed)) then None
  else if match not_before t with Some nb => now <? nb | None => false end then None
  else if match not_after t with Some na => na <? now | None => false end then None
  else
    fire_at ← next_fire_at t;
    if fire_at <=? now then Some fire_at else None.

(** [opt.filter(|x| *x <= bound)] *)
Definition filter_le (bound : instant) (o : option instant) : option instant :=
  match o with Some x => if x <=? bound then Some x else None | None => None end.

(** [Trigger::mark_fired] *)
Definition mark_fired (t : Trigger) (fire_at now : instant) : Trigger :=
  let t := set_fired (Some fire_at) (wrap_u64 (fire_count t + 1)) t in
  let replay_next :=
    until ← replay_until t; filter_le until (compute_next_fire t fire_at) in
  let from := match replay_until t with
              | Some _ => now
              | None => advance_anchor t fire_at now
              end in
  let t := match replay_next with
           | Some next => set_next (Some next) t
           | None => let t := set_replay_until None t in
                     set_next (compute_next_fire t from) t
           end in
  match next_fire_at t, not_after t with
  | None, _ => set_state Exhausted t
  | Some next, Some na =>
      if na <? next then set_state Exhausted (set_next None t) else set_state Armed t
  | Some _, None => set_state Armed t
  end.

(** The state [mark_completed], [mark_failed] and [resume] settle on. *)
Definition rearm (t : Trigger) : Trigger :=
  match next_fire_at t with Some _ => set_state Armed t | None => set_state Exhausted t end.

(** [Trigger::mark_completed] *)
Definition mark_completed (t : Trigger) (now : instant) : Trigger :=
  rearm (set_last_completed (Some now) t).

(** [Trigger::mark_failed] *)
Definition mark_failed (t : Trigger) (_now : instant) : Trigger := rearm t.

(** [Trigger::pause] *)
Definition pause (t : Trigger) : Trigger := set_state Paused t.

(** [Trigger::resume] *)
Definition resume (t : Trigger) (now : instant) : Trigger :=
  rearm (set_next (compute_next_fire t now) t).

(** [Trigger::carry_over_pending_fire] *)
Definition carry_over_pending_fire (t : Trigger) (stored now : instant) : Trigger * PendingFire :=
  if is_disabled (schedule t) then (set_state Paused (set_next None t), DroppedDisabled)
  else if negb (gate_allows t stored) then (resume t now, HealedGateClosed)
  else
    match compute_next_fire t now with
    | Some fresh =>
        if fresh <? stored then (set_next (Some fresh) t, HealedOutlivedSchedule)
        else (set_next (Some stored) t, Adopted)
    | None => (set_next (Some stored) t, Adopted)
    end.

(** The [while let] of [plan_missed_fires]. [budget] is
    [MISSED_FIRE_WALK_LIMIT - total], so the limit test is [budget = 0]; the
    result is [kept] and how far [total] rose, or [None] for the early
    [TooManyToReplay]. *)
Fixpoint missed_walk (t : Trigger) (now : instant) (max : nat) (budget : nat)
    (kept : list instant) (total : Z) (at_ : instant) : option (list instant * Z) :=
  match filter_le now (compute_next_fire t at_) with
  | None => Some (kept, total)
  | Some next =>
      match budget with
      | O => None
      | S budget' =>
          let kept := if decide (length kept = max) then tail kept else kept in
          missed_walk t now max budget' (kept ++ [next])%list (total + 1) next
      end
  end.

(** [Trigger::plan_missed_fires] *)
Definition plan_missed_fires (t : Trigger) (now : instant) : Trigger * MissedPlan :=
  match next_fire_at t with
  | None => (t, NoneMissed)
  | Some first =>
      if negb (first <? now) then (t, NoneMissed)
      else if negb (bool_decide (state t = Armed)) then (t, NoneMissed)
      else match missed_fires t with
           | CatchOnce => (t, PlanOnce)
           | CatchSkip => (resume t now, Skipped)
           | CatchAll max =>
               let max := Z.to_nat (Z.max max 1) in
               match missed_walk t now max (Z.to_nat (MISSED_FIRE_WALK_LIMIT - 1))
                       [first] 1 first with
               | None => (t, TooManyToReplay)
               | Some (kept, total) =>
                   (set_replay_until (last kept) (set_next (head kept) t),
                    Replay (Z.of_nat (length kept)) (total - Z.of_nat (length kept)))
               end
           end
  end.
End Triggers.
#[global] Arguments next_gate_open : simpl never.
#[global] Arguments compute_next_fire : simpl never.
