(* ===== verification/TriggerSearch.v ===== *)
(** * The gated search for the next fire

    What [next_gate_open] and [compute_next_fire] of [Trigger] answer: the
    result is later than the instant asked about, passes the calendar and
    window gates and, where every zone involved has a fixed offset, is the
    first eligible instant that does. *)

From S2P Require Import Prelude RustStr Chrono Ast CalendarArgs DaySets Schedule Calendar.
From S2P Require Import Trigger.

Local Open Scope string_scope.
Local Open Scope Z_scope.

Section Search.
  Context `{CL : ChronoLaws}.

(** What the loaders build: a compiled schedule, calendar and window. *)
Definition window_ok (w : TimeWindow) : Prop := hm_time (w_start w) /\ hm_time (w_end w).
Definition trigger_ok (t : Trigger) : Prop :=
  sched_ok (schedule t)
  /\ (forall c, calendar t = Some c -> calendar_ok c)
  /\ (forall w, window t = Some w -> window_ok w).

(** Every zone the trigger consults has a fixed offset. *)
Definition zones_fixed (t : Trigger) (off : Z) : Prop :=
  fixed_offset (timezone t) off
  /\ (forall c, calendar t = Some c -> exists o, fixed_offset (cal_tz c) o).

Lemma gate_rounds_ge tr h fuel t u : gate_rounds tr h fuel t = Some u -> t <= u.
Proof.
  revert t. induction fuel as [|fuel IH]; intros t; cbn [gate_rounds]; [done|].
  case_if; [done|].
  destruct (match calendar tr with Some _ => _ | None => _ end) as [c|]; simpl; [|done].
  destruct (match window tr with Some _ => _ | None => _ end) as [w|]; simpl; [|done].
  case_if; [intros [= <-]; lia|]. b2p. intros H%IH. lia.
Qed.

Lemma next_gate_open_ge tr from u : next_gate_open tr from = Some u -> from <= u.
Proof. apply gate_rounds_ge. Qed.

Lemma gate_jumps_allowed t fuel c u : gate_jumps t fuel c = Some u -> gate_allows t u = true.
Proof.
  revert c. induction fuel as [|fuel IH]; intros c; cbn [gate_jumps]; [done|].
  destruct (gate_allows t c) eqn:E; [intros [= <-]; done|].
  destruct (next_gate_open t c) as [o|]; simpl; [|done].
  destruct (match schedule t with Interval _ => _ | _ => _ end); simpl; [apply IH|done].
Qed.

Lemma compute_inv t after u :
  compute_next_fire t after = Some u ->
  exists c, next_fire_after (schedule t) after (timezone t) = Some c
            /\ gate_jumps t 1500 c = Some u.
Proof. apply bind_Some. Qed.

Lemma compute_allowed t after u : compute_next_fire t after = Some u -> gate_allows t u = true.
Proof.
  intros (c & _ & H)%compute_inv. by eapply gate_jumps_allowed.
Qed.

(** ** Strictness, in any zone whose date never steps back *)

(** The loop invariant: a candidate is after [after], on a whole second for a
    wall clock schedule and the instant itself for a [once] schedule. *)
Definition candidate_ok (t : Trigger) (after c : instant) : Prop :=
  after < c /\ (wall_clock (schedule t) -> c mod NS_SEC = 0)
  /\ (forall a, schedule t = Once a -> c = a).

Lemma next_candidate_ok t after c o c' :
  trigger_ok t -> date_monotone (timezone t) -> candidate_ok t after c -> c <= o ->
  match schedule t with
  | Interval _ => Some o
  | s => next_fire_after s (o - seconds 1) (timezone t)
  end = Some c' -> candidate_ok t after c'.
Proof.
  intros [Hs _] Hm (Hlt & Hsec & Honce) Hco Hn.
  assert (match schedule t with Interval _ => True | _ => False end \/
          next_fire_after (schedule t) (o - seconds 1) (timezone t) = Some c') as [Hi|Hf]
    by (destruct (schedule t); auto).
  - unfold candidate_ok. destruct (schedule t); try done. injection Hn as <-.
    split_and!; [lia|done|done].
  - pose proof (next_fire_after_later _ _ _ _ Hs Hm Hf) as Hl.
    unfold candidate_ok. split_and!.
    + destruct (schedule t) as [secs| | | |a|] eqn:E; try done;
        [simplify_eq; lia|..|rewrite (Honce a eq_refl) in *; unfold next_fire_after in Hf;
          case_if_in Hf; simplify_eq; done].
      all: specialize (Hsec I); eapply next_fire_second in Hf; [|done|done].
      all: unfold seconds, NS_SEC in *; Z.div_mod_to_equations; lia.
    + intros Hw. by eapply next_fire_second.
    + intros a Ha. rewrite Ha in Hf. unfold next_fire_after in Hf. case_if_in Hf; congruence.
Qed.

Lemma gate_jumps_after t after fuel c u :
  trigger_ok t -> date_monotone (timezone t) -> candidate_ok t after c ->
  gate_jumps t fuel c = Some u -> after < u.
Proof.
  intros Hok Hm. revert c. induction fuel as [|fuel IH]; intros c Hc; cbn [gate_jumps]; [done|].
  case_if; [intros [= <-]; apply Hc|].
  destruct (next_gate_open t c) as [o|] eqn:Ho; simpl; [|done].
  apply next_gate_open_ge in Ho.
  destruct (match schedule t with Interval _ => _ | _ => _ end) as [c'|] eqn:Hn; simpl; [|done].
  apply IH. by eapply next_candidate_ok.
Qed.

Lemma compute_after t after u :
  trigger_ok t -> date_monotone (timezone t) ->
  compute_next_fire t after = Some u -> after < u.
Proof.
  intros Hok Hm (c & E & Hj)%compute_inv. revert Hj.
  apply gate_jumps_after; [done|done|]. destruct Hok as [Hs _]. split_and!.
  - by eapply next_fire_after_later.
  - intros Hw. by eapply next_fire_second.
  - intros a Ha. rewrite Ha in E. unfold next_fire_after in E. case_if_in E; congruence.
Qed.

(** ** Gates look at whole seconds only *)

Definition floor_second (u : instant) : instant := u / NS_SEC * NS_SEC.

Lemma floor_second_spec u :
  whole_second (floor_second u) /\ floor_second u <= u < floor_second u + NS_SEC.
Proof.
  unfold whole_second, floor_second, NS_SEC. split; Z.div_mod_to_equations; lia.
Qed.

Lemma reading_floor u off :
  off mod NS_SEC = 0 ->
  date_of (floor_second u + off) = date_of (u + off)
  /\ second_of_day (floor_second u + off) = second_of_day (u + off).
Proof.
  unfold floor_second, date_of, second_of_day, num_seconds_from_midnight, time_of, NS_DAY, NS_SEC.
  intros. Z.div_mod_to_equations. lia.
Qed.

Lemma calendar_floor c off u :
  calendar_ok c -> fixed_offset (cal_tz c) off ->
  is_allowed_at c (floor_second u) = is_allowed_at c u.
Proof.
  intros Hc Hf. pose proof (reading_floor u off (fixed_offset_seconds _ _ Hf)) as [Hd Hs].
  destruct Hf as [Hl _]. unfold is_allowed_at. cbv zeta. rewrite !Hl.
  apply eq_bool_prop_intro. rewrite !Is_true_true, <- !open_at_allowed by done.
  unfold open_at. by rewrite Hd, Hs.
Qed.

Lemma window_open_at w n :
  window_ok w -> open_at (fun _ => window_intervals (w_start w) (w_end w)) n
  <-> contains w (time_of n) = true.
Proof.
  intros [Hs He]. unfold open_at, contains, second_of_day.
  apply window_intervals_covers; [done|done|apply time_of_range].
Qed.

Lemma window_floor w tz off u :
  window_ok w -> fixed_offset tz off ->
  contains w (time_of (local_of tz (floor_second u))) = contains w (time_of (local_of tz u)).
Proof.
  intros Hw Hf. pose proof (reading_floor u off (fixed_offset_seconds _ _ Hf)) as [Hd Hs].
  destruct Hf as [Hl _]. rewrite !Hl.
  apply eq_bool_prop_intro. rewrite !Is_true_true, <- !window_open_at by done.
  unfold open_at. by rewrite Hs.
Qed.

Lemma gate_floor t off u :
  trigger_ok t -> zones_fixed t off -> gate_allows t (floor_second u) = gate_allows t u.
Proof.
  intros (_ & Hc & Hw) [Hz Hcz]. unfold gate_allows. cbv zeta. f_equal.
  - destruct (calendar t) as [c|] eqn:E; [|done].
    destruct (Hcz c eq_refl) as [o Ho]. by eapply calendar_floor; [apply Hc|].
  - destruct (window t) as [w|] eqn:E; [|done]. by eapply window_floor; [apply Hw|].
Qed.

(** ** Rounds skip only closed seconds *)

Lemma window_open_fixed tz off w from u :
  window_ok w -> fixed_offset tz off -> next_window_open_at_or_after tz w from = Some u ->
  forall v, whole_second v -> from <= v < u -> contains w (time_of (local_of tz v)) = false.
Proof.
  intros Hw Hf. pose proof (fixed_offset_seconds _ _ Hf) as Hoff. destruct Hf as [Hl Hf].
  unfold next_window_open_at_or_after. cbv zeta. rewrite Hl.
  intros (n & Hn & Hu)%bind_Some v Hv Hlt.
  apply next_instant_in_some in Hn as (_ & _ & _ & Hmin);
    [|intros; by apply window_intervals_ok; apply Hw].
  unfold resolve_local_at_or_after, resolve_local in Hu. rewrite Hf in Hu. injection Hu as <-.
  rewrite Hl, <- not_true_iff_false, <- window_open_at by done.
  apply Hmin; [by apply whole_second_shift|lia].
Qed.

Lemma gate_rounds_closed tr off h fuel t u :
  trigger_ok tr -> zones_fixed tr off -> gate_rounds tr h fuel t = Some u ->
  forall v, whole_second v -> t <= v < u -> gate_allows tr v = false.
Proof.
  intros (_ & Hc & Hw) [Hz Hcz]. revert t.
  induction fuel as [|fuel IH]; intros t; cbn [gate_rounds]; [done|].
  case_if; [done|]. intros (c & Hcal & (w & Hwin & Hr)%bind_Some)%bind_Some. cbv zeta in Hr.
  case_if_in Hr; b2p; [injection Hr as <-; lia|]. intros v Hv Hlt.
  destruct (Z_lt_le_dec v (Z.max c w)) as [Hb|Hge]; [|apply (IH _ Hr); [done|lia]].
  unfold gate_allows. cbv zeta. apply andb_false_iff.
  destruct (Z_lt_le_dec v c) as [Hvc|Hvc]; [left|right].
  - destruct (calendar tr) as [cal|]; [|simplify_eq; lia].
    destruct (Hcz cal eq_refl) as [o Ho].
    pose proof (calendar_open_fixed cal o t (Hc _ eq_refl) Ho) as Hopen.
    rewrite Hcal in Hopen. destruct Hopen as (_ & _ & _ & Hmin). apply Hmin; [done|lia].
  - destruct (window tr) as [win|]; [|simplify_eq; lia].
    eapply window_open_fixed; [by apply Hw|done..|lia].
Qed.

(** From a closed instant, every instant before the opening found is closed. *)
Lemma next_gate_open_closed tr off from u :
  trigger_ok tr -> zones_fixed tr off -> gate_allows tr from = false ->
  next_gate_open tr from = Some u -> forall v, from <= v < u -> gate_allows tr v = false.
Proof.
  intros Hok Hz Hfrom Hu v Hv. rewrite <- (gate_floor tr off v Hok Hz).
  destruct (floor_second_spec v) as [Hs Hle].
  destruct (Z_lt_le_dec (floor_second v) from) as [Hlt|Hge].
  - rewrite <- Hfrom, <- (gate_floor tr off from Hok Hz). f_equal.
    destruct (floor_second_spec from) as [Hs' Hle'].
    unfold whole_second, NS_SEC in *. Z.div_mod_to_equations. lia.
  - eapply gate_rounds_closed; [done|done|exact Hu|done|lia].
Qed.

(** ** The first eligible instant *)

(** The instants the schedule itself would fire at after [after]: for an
    interval any instant a full period later (a closed gate moves the fire to
    the opening), otherwise the wall clock ticks. *)
Definition eligible (s : Schedule) (off : Z) (after v : instant) : Prop :=
  match s with
  | Interval secs => after + seconds secs <= v
  | _ => wall_tick s off v /\ after < v
  end.

Lemma eligible_weaken s off a b v : a <= b -> eligible s off b v -> eligible s off a v.
Proof. destruct s; simpl; intros; intuition lia. Qed.

(** Two ticks less than a second apart are in order. *)
Lemma wall_tick_apart s off u v :
  off mod NS_SEC = 0 -> sched_ok s ->
  wall_tick s off u -> wall_tick s off v -> u - seconds 1 < v -> u <= v.
Proof.
  intros Hoff Hs Hu Hv Hlt.
  destruct s as [secs|t|ds t|os t|a|]; cbn in Hs, Hu, Hv; try done; [..|lia].
  all: destruct Hs as [_ Hns]; repeat match goal with H : _ /\ _ |- _ => destruct H end.
  all: unfold nanosecond, time_of, seconds, NS_DAY, NS_SEC in *; Z.div_mod_to_equations; lia.
Qed.

Definition first_so_far (t : Trigger) (off : Z) (after c : instant) : Prop :=
  eligible (schedule t) off after c /\
  (forall v, eligible (schedule t) off after v -> v < c -> gate_allows t v = false).

Lemma next_candidate_first t off after c o c' :
  trigger_ok t -> zones_fixed t off -> first_so_far t off after c ->
  gate_allows t c = false -> next_gate_open t c = Some o ->
  match schedule t with
  | Interval _ => Some o
  | s => next_fire_after s (o - seconds 1) (timezone t)
  end = Some c' -> first_so_far t off after c'.
Proof.
  intros Hok Hz [Hel Hmin] Hclosed Ho Hn.
  pose proof (next_gate_open_ge _ _ _ Ho) as Hge.
  pose proof (next_gate_open_closed _ _ _ _ Hok Hz Hclosed Ho) as Hgap.
  destruct Hok as [Hs _], Hz as [Hz _].
  assert (schedule_step : match schedule t with
          | Interval _ => c' = o
          | s => wall_tick s off c' /\ o - seconds 1 < c'
                 /\ (forall v, wall_tick s off v -> o - seconds 1 < v -> c' <= v)
          end).
  { pose proof (fun s (H : sched_ok s) Hf => conj
      (schedule_earliest s (timezone t) off (o - seconds 1) c' H Hz Hf)
      (next_fire_after_later s _ _ _ H (fixed_offset_date_monotone _ _ Hz) Hf)) as He.
    destruct (schedule t) as [secs| | | | |] eqn:E; [congruence|..];
      destruct (He _ Hs Hn) as [[? ?] ?]; done. }
  pose proof (fixed_offset_seconds _ _ Hz) as Hoff.
  unfold first_so_far in *. destruct (schedule t) as [secs| | | | |] eqn:E.
  1: { subst c'. cbn [eligible] in *. split; [lia|]. intros v Hv Hlt.
       destruct (Z_lt_le_dec v c); [by apply Hmin|apply Hgap; lia]. }
  all: destruct schedule_step as (Htick & Hlo & Hfirst), Hel as [Hct Hca].
  all: assert (c <= c') by (eapply wall_tick_apart; [done..|lia]).
  all: split; [split; [done|lia]|intros v [Hvt Hva] Hlt].
  all: destruct (Z_lt_le_dec v c); [by apply Hmin|].
  all: destruct (Z_lt_le_dec v o); [apply Hgap; lia|].
  all: specialize (Hfirst v Hvt); unfold seconds, NS_SEC in *; lia.
Qed.

Lemma gate_jumps_first t off after fuel c u :
  trigger_ok t -> zones_fixed t off -> first_so_far t off after c ->
  gate_jumps t fuel c = Some u -> first_so_far t off after u.
Proof.
  intros Hok Hz. revert c. induction fuel as [|fuel IH]; intros c Hc; cbn [gate_jumps]; [done|].
  case_if; [by intros [= <-]|].
  intros (o & Ho & (c' & Hn & Hj)%bind_Some)%bind_Some.
  apply (IH c'); [|done]. by eapply next_candidate_first.
Qed.

Lemma compute_first t off after u :
  trigger_ok t -> zones_fixed t off -> compute_next_fire t after = Some u ->
  first_so_far t off after u.
Proof.
  intros Hok Hz (c & Hc & Hj)%compute_inv. eapply gate_jumps_first; [done..| |exact Hj].
  destruct Hok as [Hs _], Hz as [Hz _].
  pose proof (schedule_earliest _ _ _ _ _ Hs Hz Hc) as He.
  pose proof (next_fire_after_later _ _ _ _ Hs (fixed_offset_date_monotone _ _ Hz) Hc).
  unfold first_so_far, eligible. destruct (schedule t); [split; intros; lia|..];
    destruct He as [Ht Hmin]; (split; [done|]); intros v [Hv Hav] Hlt;
    specialize (Hmin v Hv Hav); lia.
Qed.

Lemma compute_mono t off a b u v :
  trigger_ok t -> zones_fixed t off -> a <= b ->
  compute_next_fire t a = Some u -> compute_next_fire t b = Some v -> u <= v.
Proof.
  intros Hok Hz Hab Hu Hv.
  destruct (compute_first _ _ _ _ Hok Hz Hu) as [_ Hmin].
  destruct (compute_first _ _ _ _ Hok Hz Hv) as [Hel _].
  destruct (Z_lt_le_dec v u) as [Hlt|]; [|done].
  pose proof (Hmin v (eligible_weaken _ _ _ _ _ Hab Hel) Hlt) as Hc.
  rewrite (compute_allowed _ _ _ Hv) in Hc. done.
Qed.
(** C8. Where the trigger's zone and its calendar's zone have fixed offsets,
    [compute_next_fire] returns the first instant its schedule allows after
    [after] at which both gates are open: the result is eligible and allowed,
    and every earlier eligible instant is blocked by the calendar or the
    window. *)
Theorem compute_next_fire_first t off after u :
  trigger_ok t -> zones_fixed t off -> compute_next_fire t after = Some u ->
  eligible (schedule t) off after u /\ gate_allows t u = true /\
  (forall v, eligible (schedule t) off after v -> v < u -> gate_allows t v = false).
Proof.
  intros Hok Hz Hu. destruct (compute_first _ _ _ _ Hok Hz Hu) as [? ?].
  split_and!; [done| |done]. by eapply compute_allowed.
Qed.

(** In every zone whose local date never steps back (any daylight-saving
    rule that stays inside a day), whatever zone the calendar uses, a computed
    fire time is strictly later than the instant it was computed from and
    passes the gates. *)
Theorem compute_next_fire_strict t after u :
  trigger_ok t -> date_monotone (timezone t) -> compute_next_fire t after = Some u ->
  after < u /\ gate_allows t u = true.
Proof. intros. split; [by eapply compute_after|by eapply compute_allowed]. Qed.
End Search.


Import Demo.

(** Every 30 minutes under the working-hours calendar, in UTC. *)
Definition demo_trigger : Trigger (C := demo_chrono) :=
  MkTrigger "billing:sync" (Interval 1800) (utc : @Tz demo_chrono) (Some demo_calendar) None
    None None Armed (Some (seconds 108000)) None None 0 (CatchAll 3) None.

Lemma demo_trigger_ok : trigger_ok demo_trigger.
Proof.
  split_and!.
  - simpl. unfold I64_MAX. lia.
  - intros c [= <-]. eapply from_config_ok, demo_calendar_compiles.
  - intros w [=].
Qed.

Lemma utc_fixed : fixed_offset (C := demo_chrono) (utc : @Tz demo_chrono) 0.
Proof. exact (fixed_fixed_offset 0). Qed.

Lemma demo_zones_fixed : zones_fixed demo_trigger 0.
Proof.
  split; [exact utc_fixed|]. intros c [= <-].
  exists (seconds 7200). apply fixed_fixed_offset.
Qed.

(** Thursday 1970-01-01 is excluded: the first fire is the opening on Friday
    at 08:00 local time. *)
Lemma demo_compute : compute_next_fire demo_trigger 0 = Some (seconds 108000).
Proof. vm_compute. reflexivity. Qed.

Lemma compute_next_fire_first_witness :
  gate_allows demo_trigger (seconds 108000) = true /\
  (forall v, seconds 1800 <= v -> v < seconds 108000 -> gate_allows demo_trigger v = false).
Proof.
  destruct (compute_next_fire_first (CL := demo_laws) demo_trigger 0 0 (seconds 108000)
    demo_trigger_ok demo_zones_fixed demo_compute) as (_ & Ha & Hmin).
  split; [exact Ha|]. intros v Hv. apply Hmin. exact Hv.
Defined.

Lemma compute_next_fire_strict_witness :
  0 < seconds 108000 /\ gate_allows demo_trigger (seconds 108000) = true.
Proof.
  apply (compute_next_fire_strict (CL := demo_laws) demo_trigger 0 (seconds 108000)).
  - exact demo_trigger_ok.
  - exact (fixed_offset_date_monotone _ _ utc_fixed).
  - exact demo_compute.
Defined.
