(* ===== verification/TriggerMachine.v ===== *)
(** * The trigger over time

    Runs of the trigger state machine: which states are reachable, what a run
    of scheduler ticks fires, how an interval keeps its phase, how a pending
    fire survives a reload, and how missed fires are replayed after a
    restart. *)

From S2P Require Import Prelude RustStr Chrono Ast CalendarArgs DaySets Schedule Calendar.
From S2P Require Import Trigger TriggerSearch.

Local Open Scope Z_scope.

(** ** The search depends on the configuration only *)

Section Config.
  Context `{C : Chrono}.

Definition same_config (t t' : Trigger) : Prop :=
  schedule t = schedule t' /\ timezone t = timezone t'
  /\ calendar t = calendar t' /\ window t = window t'.

Lemma gate_allows_config t t' at_ : same_config t t' -> gate_allows t at_ = gate_allows t' at_.
Proof. intros (_ & Hz & Hc & Hw). unfold gate_allows. by rewrite Hz, Hc, Hw. Qed.

Lemma gate_rounds_config t t' h fuel from :
  same_config t t' -> gate_rounds t h fuel from = gate_rounds t' h fuel from.
Proof.
  intros (_ & Hz & Hc & Hw). revert from.
  induction fuel as [|fuel IH]; intros from; cbn [gate_rounds]; [done|].
  rewrite Hz, Hc, Hw. case_if; [done|].
  apply option_bind_ext_fun; intros c. apply option_bind_ext_fun; intros w.
  cbv zeta. case_if; [done|apply IH].
Qed.

Lemma gate_jumps_config t t' fuel c :
  same_config t t' -> gate_jumps t fuel c = gate_jumps t' fuel c.
Proof.
  intros Hcfg. revert c. induction fuel as [|fuel IH]; intros c; cbn [gate_jumps]; [done|].
  rewrite (gate_allows_config _ _ _ Hcfg). unfold next_gate_open.
  rewrite (gate_rounds_config _ _ _ _ _ Hcfg).
  destruct Hcfg as (Hs & Hz & _). rewrite Hs, Hz. case_if; [done|].
  apply option_bind_ext_fun; intros o. apply option_bind_ext_fun; intros c'. apply IH.
Qed.

Lemma compute_config t t' after :
  same_config t t' -> compute_next_fire t after = compute_next_fire t' after.
Proof.
  intros Hcfg. unfold compute_next_fire. pose proof Hcfg as (Hs & Hz & _). rewrite Hs, Hz.
  apply option_bind_ext_fun; intros c. by apply gate_jumps_config.
Qed.

#[global] Instance same_config_equiv : Equivalence same_config.
Proof.
  split.
  - by intros t.
  - intros t t' (?&?&?&?). by split_and!.
  - intros t1 t2 t3 (?&?&?&?) (?&?&?&?). split_and!; congruence.
Qed.

#[global] Instance compute_proper :
  Proper (same_config ==> eq ==> eq) compute_next_fire.
Proof. intros t t' Ht a ? <-. by apply compute_config. Qed.

#[global] Instance gate_allows_proper : Proper (same_config ==> eq ==> eq) gate_allows.
Proof. intros t t' Ht a ? <-. by apply gate_allows_config. Qed.

#[global] Instance trigger_ok_proper : Proper (same_config ==> iff) trigger_ok.
Proof. intros t t' (Hs & Hz & Hc & Hw). unfold trigger_ok. by rewrite Hs, Hc, Hw. Qed.

(** No operation touches the configuration. *)
Lemma set_next_config n t : same_config (set_next n t) t. Proof. done. Qed.
Lemma set_state_config s t : same_config (set_state s t) t. Proof. done. Qed.
Lemma set_fired_config l n t : same_config (set_fired l n t) t. Proof. done. Qed.
Lemma set_replay_config r t : same_config (set_replay_until r t) t. Proof. done. Qed.

Lemma mark_fired_config t fa now : same_config (mark_fired t fa now) t.
Proof.
  unfold mark_fired. cbv zeta.
  destruct (replay_until _ ≫= _) as [x|]; cbn [next_fire_at set_next not_after];
    repeat (case_match; simpl); done.
Qed.

Lemma mark_fired_bounds t fa now :
  not_after (mark_fired t fa now) = not_after t /\ not_before (mark_fired t fa now) = not_before t.
Proof.
  unfold mark_fired. cbv zeta.
  destruct (replay_until _ ≫= _) as [x|]; cbn [next_fire_at set_next not_after];
    repeat (case_match; simpl); done.
Qed.

Lemma resume_config t now : same_config (resume t now) t.
Proof. unfold resume, rearm. by destruct (next_fire_at _). Qed.
End Config.

(** ** Reachable triggers *)

Section Machine.
  Context `{C : Chrono}.

(** What the loaders set on a freshly built trigger. *)
Definition set_missed_fires (m : MissedFires) (t : Trigger) : Trigger :=
  MkTrigger (job_key t) (schedule t) (timezone t) (calendar t) (window t) (not_before t)
    (not_after t) (state t) (next_fire_at t) (last_fired_at t) (last_completed_at t)
    (fire_count t) m (replay_until t).

(** One operation of the scheduler on a trigger. *)
Inductive trigger_step : Trigger -> Trigger -> Prop :=
| step_fire t now fa : evaluate t now = Some fa -> trigger_step t (mark_fired t fa now)
| step_completed t now : trigger_step t (mark_completed t now)
| step_failed t now : trigger_step t (mark_failed t now)
| step_pause t : trigger_step t (pause t)
| step_resume t now : trigger_step t (resume t now)
| step_carry t stored now : trigger_step t (carry_over_pending_fire t stored now).1
| step_plan t now : trigger_step t (plan_missed_fires t now).1.

Inductive reachable : Trigger -> Prop :=
| reach_init key s tz c w nb na m now :
    reachable (set_missed_fires m (with_bounds key s tz c w nb na now))
| reach_step t t' : reachable t -> trigger_step t t' -> reachable t'.

(** The type invariant. [Fired] and [Completed] are declared states the
    operations never enter. *)
Definition trigger_inv (t : Trigger) : Prop :=
  (state t = Armed /\ is_Some (next_fire_at t) \/ state t = Paused \/ state t = Exhausted)
  /\ (schedule t = Disabled -> next_fire_at t = None)
  /\ (forall n, next_fire_at t = Some n -> gate_allows t n = true)
  /\ 0 <= fire_count t <= U64_MAX.

Lemma advance_anchor_cases t fa now :
  advance_anchor t fa now = fa /\ fa <= now \/ advance_anchor t fa now = now.
Proof. unfold advance_anchor. destruct (schedule t); auto. case_if; b2p; auto. Qed.

Lemma mark_fired_cases t fa now :
  (state (mark_fired t fa now) = Armed /\
   exists n, next_fire_at (mark_fired t fa now) = Some n /\
     (compute_next_fire t fa = Some n \/ compute_next_fire t now = Some n))
  \/ (state (mark_fired t fa now) = Exhausted /\ next_fire_at (mark_fired t fa now) = None).
Proof.
  unfold mark_fired. cbv zeta.
  rewrite (compute_config (set_replay_until _ _) t), (compute_config (set_fired _ _ _) t) by done.
  set (from := match replay_until _ with Some _ => now | None => _ end).
  assert (from = fa \/ from = now) as Hfrom.
  { subst from. destruct (replay_until _); [by right|].
    destruct (advance_anchor_cases (set_fired (Some fa) (wrap_u64 (fire_count t + 1)) t) fa now)
      as [[-> _]| ->]; auto. }
  clearbody from.
  destruct (replay_until _ ≫= _) as [n|] eqn:E; cbn [next_fire_at set_next not_after].
  - apply bind_Some in E as (until & _ & Hn). unfold filter_le in Hn.
    destruct (compute_next_fire t fa) as [x|]; [|done]. case_if_in Hn; [|done].
    injection Hn as ->. repeat case_match; simpl; try (by right); left; eauto.
  - destruct (compute_next_fire t from) as [n|] eqn:Hn; [|by right].
    repeat case_match; simpl; try (by right); left; split; try done; exists n;
      split; try done; destruct Hfrom as [<-|<-]; auto.
Qed.

Lemma compute_disabled t after : schedule t = Disabled -> compute_next_fire t after = None.
Proof. intros Hs. unfold compute_next_fire. by rewrite Hs. Qed.

(** The part of the invariant that does not mention the state. *)
Definition pending_inv (t : Trigger) : Prop :=
  (schedule t = Disabled -> next_fire_at t = None)
  /\ (forall n, next_fire_at t = Some n -> gate_allows t n = true)
  /\ 0 <= fire_count t <= U64_MAX.

Lemma rearm_inv t : pending_inv t -> trigger_inv (rearm t).
Proof.
  intros (Hd & Hg & Hf). unfold rearm. destruct (next_fire_at t) as [n|] eqn:E.
  - split; [left; simpl; by rewrite E|]. split; simpl; [by rewrite E|]. split; [|done].
    rewrite E. exact Hg.
  - split; [by right; right|]. split_and!; simpl; try done; try apply Hf. by rewrite E.
Qed.

(** Replacing the pending fire by a computed one. *)
Lemma computed_pending_inv t t' after :
  same_config t t' -> 0 <= fire_count t <= U64_MAX ->
  pending_inv (set_next (compute_next_fire t' after) t).
Proof.
  intros Hcfg Hf. split_and!; simpl; try apply Hf.
  - intros Hd. apply compute_disabled. by rewrite <- (proj1 Hcfg).
  - intros n Hn. rewrite (gate_allows_config _ t') by done. by eapply compute_allowed.
Qed.

(** ** The missed fires *)

(** [missed_seq t now a l]: [l] is [a] and the fires that follow it one by one
    up to [now]. *)
Inductive missed_seq (t : Trigger) (now : instant) : instant -> list instant -> Prop :=
| missed_last a : filter_le now (compute_next_fire t a) = None -> missed_seq t now a [a]
| missed_next a b l :
    filter_le now (compute_next_fire t a) = Some b ->
    missed_seq t now b l -> missed_seq t now a (a :: l).

Lemma filter_le_Some bound o x : filter_le bound o = Some x <-> o = Some x /\ x <= bound.
Proof.
  unfold filter_le. destruct o as [y|]; [|by split; [|intros [? _]]].
  destruct (Z.leb_spec y bound); split; [intros [= <-]|intros [[= <-] ?]|..]; try done.
  intros [[= <-] ?]. lia.
Qed.

(** The last [max] elements. *)
Definition lastn {A} (max : nat) (l : list A) : list A := drop (length l - max) l.

Lemma lastn_snoc {A} max (l : list A) x :
  (1 <= max)%nat ->
  (if decide (length (lastn max l) = max) then tail (lastn max l) else lastn max l) ++ [x]
  = lastn max (l ++ [x]).
Proof.
  intros Hmax. unfold lastn. rewrite length_drop, length_app. simpl.
  case_decide as Hc.
  - rewrite drop_app_le by lia. f_equal.
    replace (length l + 1 - max)%nat with (length l - max + 1)%nat by lia.
    rewrite <- drop_drop. by destruct (drop (length l - max) l).
  - replace (length l - max)%nat with 0%nat by lia.
    by replace (length l + 1 - max)%nat with 0%nat by lia.
Qed.

Lemma missed_walk_spec t now max budget p a kept total :
  (1 <= max)%nat ->
  missed_walk t now max budget (lastn max (p ++ [a])) (Z.of_nat (length (p ++ [a]))) a
    = Some (kept, total) ->
  exists l, missed_seq t now a l /\ kept = lastn max (p ++ l)
    /\ total = Z.of_nat (length (p ++ l)).
Proof.
  intros Hmax. revert p a. induction budget as [|b IH]; intros p a; cbn [missed_walk];
    destruct (filter_le now (compute_next_fire t a)) as [n|] eqn:E; try done.
  1, 3: intros [= <- <-]; exists [a]; split_and!; [by constructor|done..].
  cbv zeta. rewrite lastn_snoc by done.
  replace (Z.of_nat (length (p ++ [a])) + 1) with (Z.of_nat (length ((p ++ [a]) ++ [n])))
    by (rewrite !length_app; simpl; lia).
  intros Hw. apply IH in Hw as (l & Hl & -> & ->). exists (a :: l).
  rewrite <- !app_assoc. split_and!; [by econstructor|done..].
Qed.

Lemma missed_seq_cons t now a l : missed_seq t now a l -> exists l', l = a :: l'.
Proof. destruct 1; eauto. Qed.

(** A suffix of the missed fires is the missed fires from its first one. *)
Lemma missed_seq_suffix t now a l k b l' :
  missed_seq t now a l -> drop k l = b :: l' -> missed_seq t now b (b :: l').
Proof.
  intros Hm. revert k. induction Hm as [a H|a c l H Hm IH]; intros k.
  - destruct k as [|k]; simpl; [|by rewrite drop_nil]. intros [= <- <-]. by constructor.
  - destruct k as [|k]; simpl; [|apply IH]. intros [= <- <-]. by econstructor.
Qed.

Lemma missed_seq_allowed t now a l :
  gate_allows t a = true -> missed_seq t now a l -> Forall (fun n => gate_allows t n = true) l.
Proof.
  intros Ha Hm. induction Hm as [|a b l [Hc _]%filter_le_Some Hm IH]; repeat constructor; try done.
  apply IH. by eapply compute_allowed.
Qed.

Lemma lastn_nonempty {A} max (l : list A) : (1 <= max)%nat -> l <> [] -> lastn max l <> [].
Proof.
  intros Hmax Hl Hn. apply (f_equal length) in Hn. unfold lastn in Hn.
  rewrite length_drop in Hn. destruct l; simpl in *; [done|lia].
Qed.

(** What a replay plan sets up. *)
Lemma plan_replay_spec t now t' count dropped :
  plan_missed_fires t now = (t', Replay count dropped) ->
  exists first max l k kept, next_fire_at t = Some first /\ first < now /\ state t = Armed
    /\ missed_fires t = CatchAll max /\ missed_seq t now first l
    /\ k :: kept = drop (Z.to_nat dropped) l
    /\ count = Z.min (Z.max 1 max) (Z.of_nat (length l))
    /\ Z.of_nat (length l) = count + dropped /\ 0 <= dropped
    /\ t' = set_replay_until (last (k :: kept)) (set_next (Some k) t).
Proof.
  unfold plan_missed_fires. destruct (next_fire_at t) as [first|] eqn:En; [|done].
  destruct (Z.ltb_spec first now); [|done]. cbn [negb].
  case_bool_decide as Ha; cbn [negb]; [|done].
  destruct (missed_fires t) as [|max|] eqn:Em; [done| |done].
  set (m := Z.to_nat (Z.max max 1)). assert (1 <= m)%nat as Hm by lia.
  destruct (missed_walk _ _ _ _ _ _ _) as [[kept total]|] eqn:Ew; [|done].
  assert (lastn m ([] ++ [first]) = [first]) as Hone
    by (unfold lastn; simpl; by replace (1 - m)%nat with 0%nat by lia).
  rewrite <- Hone in Ew. apply (missed_walk_spec _ _ _ _ []) in Ew as (l & Hl & Hk & ->); [|done].
  simpl in Hk. intros [= <- <- <-]. pose proof (missed_seq_cons _ _ _ _ Hl) as [l' Hl'].
  destruct kept as [|k kept'].
  { symmetry in Hk. by apply lastn_nonempty in Hk; [|lia|subst l]. }
  assert (length (k :: kept') = min m (length l)) as Hlen.
  { rewrite Hk. unfold lastn. rewrite length_drop. lia. }
  exists first, max, l, k, kept'. split_and!; try done; try lia.
  rewrite Hlen, Hk. unfold lastn. f_equal. simpl. lia.
Qed.

Lemma resume_inv t now : 0 <= fire_count t <= U64_MAX -> trigger_inv (resume t now).
Proof. intros Hf. by apply rearm_inv, computed_pending_inv. Qed.

Lemma mark_fired_inv t fa now : 0 <= fire_count t <= U64_MAX -> trigger_inv (mark_fired t fa now).
Proof.
  intros Hf.
  assert (fire_count (mark_fired t fa now) = wrap_u64 (fire_count t + 1)) as Hfc.
  { unfold mark_fired. cbv zeta. repeat (case_match; simpl); done. }
  pose proof (Z.mod_pos_bound (fire_count t + 1) 18446744073709551616 ltac:(lia)).
  pose proof (mark_fired_config t fa now) as Hcfg.
  destruct (mark_fired_cases t fa now) as [(Ha & n & Hn & Hc)|[Ha Hn]].
  - assert (gate_allows t n = true /\ schedule t <> Disabled) as [Hg Hd].
    { split; [destruct Hc; by eapply compute_allowed|].
      intros Hd. rewrite !compute_disabled in Hc by done. by destruct Hc. }
    split; [left; by rewrite Hn|]. split_and!.
    + by rewrite (proj1 Hcfg).
    + intros m. rewrite Hn. intros [= <-]. by rewrite (gate_allows_config _ t).
    + rewrite Hfc. unfold wrap_u64. lia.
    + rewrite Hfc. unfold wrap_u64, U64_MAX. lia.
  - split; [by right; right|]. rewrite Hn, Hfc. unfold wrap_u64, U64_MAX. split_and!; done || lia.
Qed.

Lemma carry_over_inv t stored now :
  trigger_inv t -> trigger_inv (carry_over_pending_fire t stored now).1.
Proof.
  intros (Hst & Hd & Hg & Hf). unfold carry_over_pending_fire.
  destruct (is_disabled (schedule t)) eqn:Ed; simpl.
  { split; [by right; left|]. by split_and!; try apply Hf. }
  assert (schedule t <> Disabled) as Hne by (by intros E; rewrite E in Ed).
  destruct (gate_allows t stored) eqn:Es; simpl; [|by apply resume_inv].
  assert (forall n, gate_allows t n = true -> trigger_inv (set_next (Some n) t)) as Hset.
  { intros n Hn. split; [destruct Hst as [[]|[]]; simpl; eauto|].
    split_and!; simpl; try apply Hf; [done|]. intros m [= <-]. done. }
  destruct (compute_next_fire t now) as [fr|] eqn:Ec; [case_if|]; apply Hset; try done.
  by eapply compute_allowed.
Qed.

Lemma plan_missed_inv t now : trigger_inv t -> trigger_inv (plan_missed_fires t now).1.
Proof.
  intros Ht. pose proof Ht as (Hst & Hd & Hg & Hf).
  destruct (plan_missed_fires t now) as [t' p] eqn:E. destruct p as [| |count dropped| |].
  3: { apply plan_replay_spec in E
         as (first & max & l & k & kept & Hn & _ & Ha & _ & Hl & Hk & _ & _ & _ & ->).
       apply (missed_seq_allowed _ _ _ _ (Hg _ Hn)) in Hl.
       apply (Forall_drop _ (Z.to_nat dropped)) in Hl. rewrite <- Hk in Hl.
       split; [left; simpl; eauto|]. split_and!; simpl; try apply Hf.
       - intros Hdis. rewrite (Hd Hdis) in Hn. done.
       - intros n [= <-]. by inversion Hl. }
  all: unfold plan_missed_fires in E; repeat case_match; simplify_eq; try done.
  by apply resume_inv.
Qed.

#[local] Hint Resolve rearm_inv resume_inv mark_fired_inv carry_over_inv plan_missed_inv : croniq.

Lemma trigger_step_inv t t' : trigger_inv t -> trigger_step t t' -> trigger_inv t'.
Proof.
  intros Ht Hstep. pose proof Ht as [Hst Hp]. pose proof Hp as (Hd & Hg & Hf).
  destruct Hstep; eauto with croniq. split; [by right; left|done].
Qed.

Lemma with_bounds_inv key s tz c w nb na m now :
  trigger_inv (set_missed_fires m (with_bounds key s tz c w nb na now)).
Proof.
  unfold with_bounds. cbv zeta.
  set (t0 := MkTrigger key s tz c w nb na Armed None None None 0 CatchOnce None).
  destruct (is_disabled s) eqn:Ed.
  { split; [by right; left|]. by split_and!. }
  cbn [next_fire_at set_next].
  assert (pending_inv (set_next (compute_next_fire t0 now) t0)) as (Hd & Hg & Hf)
    by (by apply computed_pending_inv).
  destruct (compute_next_fire t0 now) as [n|] eqn:E.
  - split; [left; by split|]. split_and!; try apply Hf; [exact Hd|exact Hg].
  - split; [by right; right|]. by split_and!.
Qed.

Lemma reachable_inv t : reachable t -> trigger_inv t.
Proof. induction 1; [apply with_bounds_inv|by eapply trigger_step_inv]. Qed.

(** Every trigger reachable from construction by fires, completions,
    failures, pauses, resumes, carried-over pending fires and missed-fire
    plans is armed with a pending fire, paused or exhausted; a pending fire
    always passes the calendar and window gates; and a disabled schedule has
    no pending fire. *)
Theorem reachable_trigger_inv t :
  reachable t ->
  (state t = Armed /\ is_Some (next_fire_at t) \/ state t = Paused \/ state t = Exhausted)
  /\ (schedule t = Disabled -> next_fire_at t = None)
  /\ (forall n, next_fire_at t = Some n -> gate_allows t n = true)
  /\ 0 <= fire_count t <= U64_MAX.
Proof. apply reachable_inv. Qed.
End Machine.

#[export] Hint Resolve rearm_inv resume_inv mark_fired_inv carry_over_inv plan_missed_inv : croniq.

(** ** Runs of scheduler ticks *)

Section Runs.
  Context `{CL : ChronoLaws}.

(** What the scheduler does with one trigger at a tick: evaluate, and advance
    past the fire if there is one. *)
Definition tick_trigger (t : Trigger) (now : instant) : Trigger * option instant :=
  match evaluate t now with
  | Some fa => (mark_fired t fa now, Some fa)
  | None => (t, None)
  end.

(** The fires of a sequence of ticks. *)
Fixpoint run_ticks (t : Trigger) (nows : list instant) : list instant :=
  match nows with
  | [] => []
  | now :: nows =>
      let '(t', f) := tick_trigger t now in
      match f with Some fa => fa :: run_ticks t' nows | None => run_ticks t' nows end
  end.

Lemma evaluate_Some t now fa :
  evaluate t now = Some fa <->
  state t = Armed /\ next_fire_at t = Some fa /\ fa <= now
  /\ (forall nb, not_before t = Some nb -> nb <= now)
  /\ (forall na, not_after t = Some na -> now <= na).
Proof.
  unfold evaluate. case_bool_decide as Ha; cbn [negb]; [|naive_solver].
  destruct (not_before t) as [nb|], (not_after t) as [na|];
    repeat case_if; b2p; try (split; [done|]; intros (_ & _ & _ & Hb & Hn); exfalso;
      first [specialize (Hb _ eq_refl); lia|specialize (Hn _ eq_refl); lia]).
  all: destruct (next_fire_at t) as [x|]; simpl; [|naive_solver].
  all: destruct (Z.leb_spec x now); split.
  all: try (intros [= <-]; split_and!; try done; intros ? [= <-]; lia).
  all: try (intros (_ & [= <-] & ? & _); done || lia).
  all: done.
Qed.

Lemma mark_fired_later t fa now n :
  trigger_ok t -> date_monotone (timezone t) -> fa <= now ->
  next_fire_at (mark_fired t fa now) = Some n -> fa < n.
Proof.
  intros Hok Hm Hle Hn.
  destruct (mark_fired_cases t fa now) as [(_ & m & Hm' & Hc)|[_ ?]]; [|congruence].
  rewrite Hm' in Hn. injection Hn as ->.
  destruct Hc as [Hc|Hc]; apply compute_after in Hc; try done; lia.
Qed.

Lemma run_ticks_after t nows :
  trigger_ok t -> date_monotone (timezone t) ->
  StronglySorted Z.lt (run_ticks t nows) /\
  (forall n, next_fire_at t = Some n -> Forall (fun f => n <= f) (run_ticks t nows)) /\
  (state t <> Armed \/ next_fire_at t = None -> run_ticks t nows = []).
Proof.
  revert t. induction nows as [|now nows IH]; intros t Hok Hm; cbn [run_ticks].
  { split_and!; [constructor|by constructor|done]. }
  unfold tick_trigger. destruct (evaluate t now) as [fa|] eqn:E; [|by apply IH].
  pose proof (proj1 (evaluate_Some _ _ _) E) as (Ha & Hn & Hle & _).
  pose proof (mark_fired_config t fa now) as Hcfg.
  destruct (IH (mark_fired t fa now)) as (Hs & Hge & Hnone).
  { by rewrite Hcfg. } { by rewrite (proj1 (proj2 Hcfg)). }
  assert (Forall (fun f => fa < f) (run_ticks (mark_fired t fa now) nows)) as Hall.
  { destruct (next_fire_at (mark_fired t fa now)) as [n|] eqn:En.
    - pose proof (mark_fired_later _ _ _ _ Hok Hm Hle En).
      eapply Forall_impl; [by apply Hge|]. simpl. lia.
    - rewrite Hnone by auto. constructor. }
  split_and!.
  - by constructor.
  - intros n. rewrite Hn. intros [= <-]. constructor; [lia|].
    eapply Forall_impl; [done|]. simpl. lia.
  - intros [|]; congruence.
Qed.

(** C22. However the ticks fall (late, repeated or out of order), the instants
    one trigger fires at are strictly increasing: no instant is fired twice.
    This holds in every zone whose local date never steps back. *)
Theorem fires_strictly_increase t nows :
  trigger_ok t -> date_monotone (timezone t) -> StronglySorted Z.lt (run_ticks t nows).
Proof. intros. by apply run_ticks_after. Qed.

(** ** Intervals keep their phase *)

Lemma compute_ungated t after :
  calendar t = None -> window t = None ->
  compute_next_fire t after = next_fire_after (schedule t) after (timezone t).
Proof.
  intros Hc Hw. unfold compute_next_fire.
  destruct (next_fire_after _ _ _) as [c|]; [|done]. cbn [mbind option_bind gate_jumps].
  unfold gate_allows. by rewrite Hc, Hw.
Qed.

Fixpoint phase (first period : Z) (n : nat) : list instant :=
  match n with O => [] | S n => first :: phase (first + period) period n end.

Lemma mark_fired_phase t secs fa now :
  schedule t = Interval secs -> 0 < secs <= I64_MAX -> calendar t = None -> window t = None ->
  replay_until t = None -> not_after t = None ->
  fa <= now < fa + seconds secs ->
  let t' := mark_fired t fa now in
  state t' = Armed /\ next_fire_at t' = Some (fa + seconds secs) /\ replay_until t' = None.
Proof.
  intros Hs Hsec Hc Hw Hr Hna Hnow. unfold mark_fired. cbv zeta.
  cbn [replay_until set_fired]. rewrite Hr. cbn [mbind option_bind].
  rewrite compute_ungated by done.
  assert (advance_anchor (set_fired (Some fa) (wrap_u64 (fire_count t + 1)) t) fa now = fa) as ->.
  { unfold advance_anchor. cbn [schedule set_fired]. rewrite Hs. unwrap.
    by case_if; b2p; lia. }
  cbn [schedule timezone set_fired set_replay_until]. rewrite Hs. unfold next_fire_after.
  unwrap. cbn [next_fire_at set_next not_after set_replay_until set_fired].
  by rewrite Hna.
Qed.

(** An ungated interval trigger ticked once per period, each tick less
    than one period late, fires at its first instant plus exact multiples of
    the period: tick latency never accumulates into drift. *)
Theorem interval_keeps_phase t secs first lates :
  schedule t = Interval secs -> 0 < secs <= I64_MAX -> calendar t = None -> window t = None ->
  replay_until t = None -> not_before t = None -> not_after t = None ->
  state t = Armed -> next_fire_at t = Some first ->
  Forall (fun l => 0 <= l < seconds secs) lates ->
  run_ticks t (zip_with Z.add (phase first (seconds secs) (length lates)) lates)
  = phase first (seconds secs) (length lates).
Proof.
  intros Hs Hsec Hc Hw Hr Hnb Hna Ha Hn Hl. revert t first Hs Hc Hw Hr Hnb Hna Ha Hn.
  induction Hl as [|late lates Hlate _ IH]; intros t first Hs Hc Hw Hr Hnb Hna Ha Hn; [done|].
  cbn [length phase zip_with run_ticks]. unfold tick_trigger.
  rewrite (proj2 (evaluate_Some t (first + late) first)) by
    (split_and!; [done|done|lia|rewrite Hnb; done|rewrite Hna; done]).
  destruct (mark_fired_phase t secs first (first + late) Hs Hsec Hc Hw Hr Hna) as (Ha' & Hn' & Hr');
    [lia|].
  pose proof (mark_fired_config t first (first + late)) as (Hs' & _ & Hc' & Hw').
  pose proof (mark_fired_bounds t first (first + late)) as (Hna' & Hnb').
  rewrite IH; [done|congruence..].
Qed.

(** ** Carrying a pending fire over *)

Lemma own_pending_adopted t off earlier now stored :
  trigger_ok t -> zones_fixed t off -> earlier <= now ->
  compute_next_fire t earlier = Some stored ->
  carry_over_pending_fire t stored now = (set_next (Some stored) t, Adopted).
Proof.
  intros Hok Hz Hle Hs. unfold carry_over_pending_fire.
  destruct (is_disabled (schedule t)) eqn:Ed.
  { destruct (schedule t) eqn:E; try done. rewrite compute_disabled in Hs; done. }
  rewrite (compute_allowed _ _ _ Hs). cbn [negb].
  destruct (compute_next_fire t now) as [fresh|] eqn:Ef; [|done].
  pose proof (compute_mono _ _ _ _ _ _ Hok Hz Hle Hs Ef). case_if; [|done]. b2p. lia.
Qed.

(** Carrying a pending fire over never postpones it: unless the schedule
    is disabled or the gates reject the instant, the pending fire afterwards is
    no later than the stored one, and it is what this trigger's gates allow. *)
Theorem carry_over_never_later t stored now :
  schedule t <> Disabled -> gate_allows t stored = true ->
  exists n, next_fire_at (carry_over_pending_fire t stored now).1 = Some n
    /\ n <= stored /\ gate_allows t n = true
    /\ ((carry_over_pending_fire t stored now).2 = HealedOutlivedSchedule ->
        compute_next_fire t now = Some n /\ n < stored).
Proof.
  intros Hd Hg. unfold carry_over_pending_fire.
  destruct (is_disabled (schedule t)) eqn:Ed; [by destruct (schedule t)|].
  rewrite Hg. cbn [negb]. destruct (compute_next_fire t now) as [f|] eqn:E; [case_if|]; b2p.
  - exists f. cbn. split_and!; try done; [lia|by eapply compute_allowed].
  - exists stored. cbn. split_and!; done || lia.
  - exists stored. cbn. split_and!; done || lia.
Qed.
End Runs.

(** ** Replaying missed fires *)

Section ReplayRun.
  Context `{CL : ChronoLaws}.

Lemma missed_seq_config t t' now a l :
  same_config t t' -> missed_seq t now a l -> missed_seq t' now a l.
Proof.
  intros Hcfg Hm. induction Hm as [a H|a b l H Hm IH].
  - apply missed_last. rewrite <- (compute_config t t' a Hcfg). exact H.
  - eapply missed_next; [|exact IH]. rewrite <- (compute_config t t' a Hcfg). exact H.
Qed.

Lemma missed_seq_bounded t now a l : a <= now -> missed_seq t now a l -> Forall (fun f => f <= now) l.
Proof.
  intros Ha Hm. induction Hm as [|a b l [_ Hb]%filter_le_Some _ IH]; repeat constructor; auto.
Qed.

Lemma missed_seq_sorted t now a l :
  trigger_ok t -> date_monotone (timezone t) -> missed_seq t now a l -> StronglySorted Z.lt l.
Proof.
  intros Hok Hm Hl. induction Hl as [|a b l [Hc _]%filter_le_Some Hl IH]; [repeat constructor|].
  apply (compute_after _ _ _ Hok Hm) in Hc. constructor; [done|].
  destruct (missed_seq_cons _ _ _ _ Hl) as [l' ->].
  inversion_clear IH as [|? ? _ Hall]. constructor; [done|].
  eapply Forall_impl; [done|]. simpl. lia.
Qed.

Lemma sorted_head_last b l until :
  StronglySorted Z.lt (b :: l) -> last (b :: l) = Some until -> b <= until.
Proof.
  intros Hs Hlast. inversion_clear Hs as [|? ? _ Hall].
  apply last_Some_elem_of, elem_of_cons in Hlast as [->|Hin]; [lia|].
  rewrite Forall_forall in Hall. specialize (Hall _ Hin). lia.
Qed.

(** One step of a replay: the fire just made is followed by the next missed
    one while there is one. *)
Lemma mark_fired_replay_next t now a b until :
  replay_until t = Some until -> compute_next_fire t a = Some b -> b <= until ->
  (forall na, not_after t = Some na -> b <= na) ->
  let t' := mark_fired t a now in
  state t' = Armed /\ next_fire_at t' = Some b /\ replay_until t' = Some until.
Proof.
  intros Hr Hc Hb Hna. unfold mark_fired. cbv zeta. cbn [replay_until set_fired]. rewrite Hr.
  cbn [mbind option_bind]. rewrite (compute_config _ t) by done. rewrite Hc.
  rewrite (proj2 (filter_le_Some until (Some b) b)) by done.
  cbn [next_fire_at set_next not_after set_fired].
  destruct (not_after t) as [na|]; [|done]. specialize (Hna na eq_refl). case_if; [|done]. b2p. lia.
Qed.

(** After the last one the trigger waits for its next fire after [now]. *)
Lemma mark_fired_replay_last t now until :
  trigger_ok t -> date_monotone (timezone t) -> replay_until t = Some until ->
  evaluate (mark_fired t until now) now = None.
Proof.
  intros Hok Hm Hr. destruct (evaluate _ now) as [fa|] eqn:E; [exfalso|done].
  apply evaluate_Some in E as (_ & Hn & Hle & _).
  enough (compute_next_fire t now = Some fa) as Hc by (apply compute_after in Hc; done || lia).
  revert Hn. unfold mark_fired. cbv zeta. cbn [replay_until set_fired]. rewrite Hr.
  cbn [mbind option_bind]. rewrite !(compute_config (set_fired _ _ _) t) by done.
  destruct (filter_le until (compute_next_fire t until)) as [x|] eqn:Ef.
  { apply filter_le_Some in Ef as [Hx Hu]. apply compute_after in Hx; done || lia. }
  rewrite (compute_config (set_replay_until _ _) t) by done.
  cbn [next_fire_at set_next not_after set_fired set_replay_until].
  destruct (compute_next_fire t now) as [n|]; [|done].
  destruct (not_after t) as [na|]; [case_if|]; simpl; congruence.
Qed.

Lemma replay_run t now a l until n :
  trigger_ok t -> date_monotone (timezone t) -> a <= now -> missed_seq t now a l ->
  last l = Some until -> replay_until t = Some until -> state t = Armed ->
  next_fire_at t = Some a ->
  (forall nb, not_before t = Some nb -> nb <= now) ->
  (forall na, not_after t = Some na -> now <= na) ->
  run_ticks t (replicate (length l + n) now) = l.
Proof.
  intros Hok Hm Ha Hl. revert t Hok Hm Hl.
  enough (forall t0, trigger_ok t0 -> date_monotone (timezone t0) -> missed_seq t0 now a l ->
    a <= now -> forall t, same_config t t0 -> last l = Some until -> replay_until t = Some until ->
    state t = Armed -> next_fire_at t = Some a ->
    (forall nb, not_before t = Some nb -> nb <= now) ->
    (forall na, not_after t = Some na -> now <= na) ->
    run_ticks t (replicate (length l + n) now) = l) as H by (intros t Hok Hm Hl; by apply (H t)).
  clear Ha. intros t0 Hok Hm Hl. induction Hl as [a Hnone|a b l Hb Hl IH];
    intros Ha t Hcfg Hlast Hr Hst Hn Hnb Hna; cbn [length Nat.add replicate run_ticks];
    unfold tick_trigger; rewrite (proj2 (evaluate_Some t now a)) by done;
    pose proof (mark_fired_config t a now) as Hcfg';
    pose proof (mark_fired_bounds t a now) as (Hna' & Hnb').
  - injection Hlast as ->. f_equal.
    pose proof (mark_fired_replay_last t now until) as He.
    specialize (He ltac:(by rewrite Hcfg) ltac:(by rewrite (proj1 (proj2 Hcfg))) Hr).
    clear -He. induction n as [|n IHn]; [done|]. cbn [replicate run_ticks].
    unfold tick_trigger. by rewrite He.
  - apply filter_le_Some in Hb as [Hc Hbn].
    destruct (missed_seq_cons _ _ _ _ Hl) as [l' ->].
    assert (b <= until) as Hbu.
    { eapply sorted_head_last; [by eapply missed_seq_sorted|done]. }
    rewrite <- (compute_config t t0) in Hc by done.
    destruct (mark_fired_replay_next t now a b until Hr Hc Hbu) as (Ha' & Hn' & Hr').
    { intros na Hx. specialize (Hna na Hx). lia. }
    rewrite IH; try done; try congruence.
    + by etransitivity.
    + by rewrite Hnb'.
    + by rewrite Hna'.
Qed.

(** A restart under [catch_up all] that plans a replay runs exactly the
    missed fires it kept: the missed fires are the pending one and every later
    fire up to now; the plan keeps the most recent [max] (at least one) and
    reports the older rest as dropped; and the ticks that follow at [now] fire
    the kept ones in order, each once, and nothing more. *)
Theorem replay_runs_missed_fires t now t' count dropped n :
  trigger_ok t -> date_monotone (timezone t) ->
  (forall nb, not_before t = Some nb -> nb <= now) ->
  (forall na, not_after t = Some na -> now <= na) ->
  plan_missed_fires t now = (t', Replay count dropped) ->
  exists first max missed,
    next_fire_at t = Some first /\ missed_fires t = CatchAll max
    /\ missed_seq t now first missed
    /\ count = Z.min (Z.max 1 max) (Z.of_nat (length missed))
    /\ Z.of_nat (length missed) = count + dropped
    /\ run_ticks t' (replicate (Z.to_nat count + n) now) = drop (Z.to_nat dropped) missed.
Proof.
  intros Hok Hm Hnb Hna Hp. apply plan_replay_spec in Hp
    as (first & max & l & k & kept & Hn & Hlt & Ha & Hmf & Hl & Hk & Hcount & Hlen & Hd & ->).
  exists first, max, l. split_and!; try done. rewrite <- Hk.
  assert (missed_seq t now k (k :: kept)) as Hs.
  { eapply missed_seq_suffix; [exact Hl|]. by rewrite <- Hk. }
  assert (Z.to_nat count = length (k :: kept)) as ->.
  { rewrite Hk, length_drop. lia. }
  destruct (last (k :: kept)) as [until|] eqn:Eu; [|by apply last_None in Eu].
  assert (Forall (fun f => f <= now) l) as Hb by (eapply missed_seq_bounded; [|exact Hl]; lia).
  apply (Forall_drop _ (Z.to_nat dropped)) in Hb. rewrite <- Hk in Hb.
  assert (k <= now) as Hkn by (by inversion Hb).
  clear Hk.
  apply (replay_run _ now k _ until n); try done.
  by eapply missed_seq_config; [|exact Hs].
Qed.
End ReplayRun.

Import Demo.

(** Every hour, ungated, at most three missed fires replayed. *)
Definition demo_hourly : Trigger (C := demo_chrono) :=
  MkTrigger "ops:hourly" (Interval 3600) (utc : @Tz demo_chrono) None None None None
    Armed (Some (seconds 3600)) None None 0 (CatchAll 3) None.

Lemma demo_hourly_ok : trigger_ok demo_hourly.
Proof. split_and!; [simpl; unfold I64_MAX; lia|intros c [=]|intros w [=]]. Qed.

Lemma demo_hourly_monotone : date_monotone (timezone demo_hourly).
Proof. exact (fixed_offset_date_monotone _ _ utc_fixed). Qed.

Lemma reachable_trigger_inv_witness :
  is_Some (next_fire_at (with_bounds (C := demo_chrono) "ops:hourly" (Interval 3600)
             (utc : @Tz demo_chrono) None None None None 0))
  /\ forall n, next_fire_at (set_missed_fires CatchOnce (with_bounds (C := demo_chrono) "ops:hourly"
             (Interval 3600) (utc : @Tz demo_chrono) None None None None 0)) = Some n ->
       gate_allows (set_missed_fires CatchOnce (with_bounds (C := demo_chrono) "ops:hourly"
             (Interval 3600) (utc : @Tz demo_chrono) None None None None 0)) n = true.
Proof.
  split; [exists (seconds 3600); vm_compute; reflexivity|].
  apply (reachable_trigger_inv (C := demo_chrono)), reach_init.
Defined.

Lemma fires_strictly_increase_witness :
  run_ticks demo_hourly [seconds 4000; seconds 3000; seconds 7300; seconds 7300; seconds 10800]
    = [seconds 3600; seconds 7200; seconds 10800]
  /\ StronglySorted Z.lt (run_ticks demo_hourly
       [seconds 4000; seconds 3000; seconds 7300; seconds 7300; seconds 10800]).
Proof.
  split; [vm_compute; reflexivity|].
  exact (fires_strictly_increase (CL := demo_laws) demo_hourly _ demo_hourly_ok
    demo_hourly_monotone).
Defined.

Lemma interval_keeps_phase_witness :
  run_ticks demo_hourly [seconds 3601; seconds 7299; seconds 10800]
  = [seconds 3600; seconds 7200; seconds 10800].
Proof.
  pose proof (interval_keeps_phase (C := demo_chrono) demo_hourly 3600 (seconds 3600)
    [seconds 1; seconds 99; 0] eq_refl) as H.
  specialize (H ltac:(unfold I64_MAX; lia) eq_refl eq_refl eq_refl eq_refl eq_refl eq_refl eq_refl).
  specialize (H ltac:(repeat constructor; vm_compute; intuition congruence)).
  exact H.
Defined.

(** A stored fire a day away under an hourly schedule is pulled in. *)
Lemma carry_over_never_later_witness :
  (carry_over_pending_fire demo_hourly (seconds 86400) (seconds 100)).2 = HealedOutlivedSchedule
  /\ exists n, next_fire_at (carry_over_pending_fire demo_hourly (seconds 86400) (seconds 100)).1
       = Some n /\ n <= seconds 86400.
Proof.
  split; [vm_compute; reflexivity|].
  destruct (carry_over_never_later (C := demo_chrono) demo_hourly (seconds 86400) (seconds 100))
    as (n & Hn & Hle & _); [discriminate|reflexivity|].
  exists n. split; [exact Hn|exact Hle].
Defined.

(** Five fires missed by 05:00: the two oldest are dropped, three run. *)
Lemma replay_runs_missed_fires_witness :
  (plan_missed_fires demo_hourly (seconds 18000)).2 = Replay 3 2 /\
  exists first max missed,
    next_fire_at demo_hourly = Some first /\ missed_fires demo_hourly = CatchAll max
    /\ missed_seq demo_hourly (seconds 18000) first missed
    /\ 3 = Z.min (Z.max 1 max) (Z.of_nat (length missed))
    /\ Z.of_nat (length missed) = 3 + 2
    /\ run_ticks (plan_missed_fires demo_hourly (seconds 18000)).1
         (replicate (3 + 4) (seconds 18000)) = drop 2 missed.
Proof.
  assert ((plan_missed_fires demo_hourly (seconds 18000)).2 = Replay 3 2) as E
    by (vm_compute; reflexivity).
  split; [exact E|].
  apply (replay_runs_missed_fires (CL := demo_laws) demo_hourly (seconds 18000)
    (plan_missed_fires demo_hourly (seconds 18000)).1 3 2 4 demo_hourly_ok demo_hourly_monotone).
  - intros nb. discriminate.
  - intros na. discriminate.
  - rewrite <- E. apply surjective_pairing.
Defined.
