(* ===== verification/Durations.v ===== *)
(** * Duration strings

    Models the duration grammar of [croniq-execution/src/retry.rs]
    ([parse_duration_checked], [parse_duration], [validate_optional_duration])
    and its whole-second form in [croniq-server/src/duration.rs]. A
    [std::time::Duration] is its number of nanoseconds. The error texts embed
    the input in Rust's debug quoting; here an error is a constructor with the
    same arguments. *)

From S2P Require Import Prelude RustStr Chrono.

Local Open Scope string_scope.
Local Open Scope Z_scope.
Local Open Scope result_scope.

Abbreviation Duration := Z (only parsing).

Definition NS_MS : Z := 1000000.
(** [Duration::MAX] *)
Definition DURATION_MAX : Duration := U64_MAX * NS_SEC + 999999999.

Inductive DurationError :=
| DurMalformed (s : string)
| DurBadNumber (s unit : string)
| DurOverflow (s : string)
| DurNotWhole (s : string).

(** The suffix table of [parse_duration_checked]: digits, unit, and
    milliseconds per unit. *)
Definition split_unit (trimmed : string) : string * string * Z :=
  match strip_suffix "ms" trimmed with
  | Some v => (v, "ms", 1)
  | None =>
  match strip_suffix "s" trimmed with
  | Some v => (v, "s", 1000)
  | None =>
  match strip_suffix "m" trimmed with
  | Some v => (v, "m", 60 * 1000)
  | None =>
  match strip_suffix "h" trimmed with
  | Some v => (v, "h", 3600 * 1000)
  | None =>
  match strip_suffix "d" trimmed with
  | Some v => (v, "d", 86400 * 1000)
  | None => (trimmed, "", 1000)
  end end end end end.

(** [parse_duration_checked] *)
Definition parse_duration_checked (s : string) : result Duration DurationError :=
  let trimmed := trim s in
  let '(digits, unit, millis_per_unit) := split_unit trimmed in
  if str_is_empty digits then Err (DurMalformed s)
  else
    value <-? ok_or (parse_u64 digits)
                (if str_is_empty unit then DurMalformed s else DurBadNumber s unit);
    let product := value * millis_per_unit in
    if product <=? U64_MAX then Ok (product * NS_MS) else Err (DurOverflow s).

(** [parse_duration] *)
Definition parse_duration (s : string) : option Duration := res_ok (parse_duration_checked s).

(** [validate_optional_duration] *)
Definition validate_optional_duration (value : option string)
    : result (option string) DurationError :=
  match value with
  | None => Ok None
  | Some v =>
      let trimmed := trim v in
      if str_is_empty trimmed then Ok None
      else _d <-? parse_duration_checked trimmed; Ok (Some trimmed)
  end.

(** [parse_duration_secs] *)
Definition parse_duration_secs (s : string) : result Z DurationError :=
  parsed <-? parse_duration_checked s;
  if negb (parsed mod NS_SEC =? 0) then Err (DurNotWhole s) else Ok (parsed / NS_SEC).

Definition DEFAULT_EXECUTION_TIMEOUT : string := "5m".
(** [croniq_config::compile::TIMEOUT_METADATA_KEY] *)
Definition TIMEOUT_METADATA_KEY : string := "__timeout".

(** [effective_timeout] *)
Definition effective_timeout (metadata : gmap string string) (job_timeout : option string)
    : string :=
  let sources :=
    (option_list (metadata !! TIMEOUT_METADATA_KEY) ++ option_list job_timeout)%list in
  match find (fun t => match parse_duration t with Some _ => true | None => false end)
          (map trim sources) with
  | Some t => t
  | None => DEFAULT_EXECUTION_TIMEOUT
  end.

(** [effective_timeout_secs] *)
Definition effective_timeout_secs (metadata : gmap string string) (job_timeout : option string)
    : Z :=
  match parse_duration (effective_timeout metadata job_timeout) with
  | Some d => d / NS_SEC
  | None => 300
  end.

(** ** Parsing what is printed *)

Inductive TimeUnit := UMs | US | UM | UH | UD | UBare.
Definition unit_suffix (u : TimeUnit) : string :=
  match u with UMs => "ms" | US => "s" | UM => "m" | UH => "h" | UD => "d" | UBare => "" end.
Definition unit_millis (u : TimeUnit) : Z :=
  match u with
  | UMs => 1 | US => 1000 | UM => 60000 | UH => 3600000 | UD => 86400000 | UBare => 1000
  end.

Lemma strip_suffix_app_iff p a : strip_suffix p (a +:+ p) = Some a.
Proof.
  induction a as [|c a IH].
  - change (EmptyString +:+ p) with p. destruct p as [|x p]; [done|]. cbn [strip_suffix].
    by rewrite String.eqb_refl.
  - change (String c a +:+ p) with (String c (a +:+ p)). cbn [strip_suffix].
    destruct (String.eqb (String c (a +:+ p)) p) eqn:E.
    + apply String.eqb_eq in E. apply (f_equal String.length) in E. simpl in E.
      assert (forall x, String.length (x +:+ p) = String.length x + String.length p)%nat as Hl.
      { induction x as [|y x IHx]; [done|]. exact (f_equal S IHx). }
      rewrite Hl in E. lia.
    + by rewrite IH.
Qed.

(** The last byte decides a suffix test. *)
Lemma strip_suffix_last p x s d :
  x <> d -> strip_suffix (p +:+ String x EmptyString) (s +:+ String d EmptyString) = None.
Proof.
  intros Hx. destruct (strip_suffix _ _) as [r|] eqn:E; [exfalso|done].
  apply strip_suffix_app in E. apply (f_equal str_rev) in E.
  rewrite str_app_assoc, !str_rev_app in E.
  change (str_rev (String ?a EmptyString)) with (String a EmptyString) in E.
  change (String ?a EmptyString +:+ ?y) with (String a y) in E. congruence.
Qed.

(** Digits and a last digit. *)
Lemma digits_snoc s :
  all_chars is_digit s = true -> s <> EmptyString ->
  exists s' d, s = s' +:+ String d EmptyString /\ is_digit d = true
               /\ all_chars is_digit s' = true.
Proof.
  induction s as [|c s IH]; [done|]. cbn [all_chars]. intros H _. b2p.
  destruct s as [|c' s]; [exists EmptyString, c; done|].
  destruct IH as (s' & d & -> & Hd & Hs'); [done..|].
  exists (String c s'), d. cbn [all_chars]. split_and!; [done..|]. b2p. done.
Qed.

Lemma digit_neq c x : is_digit c = true -> is_digit x = false -> x <> c.
Proof. intros H1 H2 ->. congruence. Qed.

Lemma digit_plain c : is_digit c = true -> plain c = true.
Proof. unfold is_digit, plain, byte_in. intros. b2p. split; b2p; lia. Qed.

(** A number as [u64::from_str] accepts it: plain at its start, a digit at its
    end. *)
Definition numeral (s : string) : Prop :=
  (exists c t, s = String c t /\ plain c = true) /\
  (exists t d, s = t +:+ String d EmptyString /\ is_digit d = true).

Lemma numeral_digits s : all_chars is_digit s = true -> s <> EmptyString -> numeral s.
Proof.
  intros Hs Hne. split.
  - destruct s as [|c s]; [done|]. cbn [all_chars] in Hs. b2p. exists c, s. auto using digit_plain.
  - destruct (digits_snoc s Hs Hne) as (t & d & ? & ? & _). eauto.
Qed.

Lemma parse_digits_all max acc s v : parse_digits max acc s = Some v -> all_chars is_digit s = true.
Proof.
  revert acc. induction s as [|c s IH]; intros acc; [done|]. cbn [parse_digits all_chars].
  destruct (digit_val c) as [d|] eqn:E; [|done]. cbn [mbind option_bind]. case_if; [done|].
  intros H. apply IH in H. rewrite H, andb_true_r. unfold digit_val in E. unfold is_digit. by case_if_in E.
Qed.

Lemma numeral_parses s n : parse_u64 s = Some n -> numeral s.
Proof.
  unfold parse_u64, parse_uint. destruct s as [|c s]; [done|].
  destruct (Ascii.eqb c "+") eqn:E.
  - destruct s as [|c' s]; [done|]. cbn [str_is_empty]. intros H. apply parse_digits_all in H.
    apply Ascii.eqb_eq in E as ->. split; [by eexists _, _|].
    destruct (digits_snoc (String c' s)) as (t & d & Ht & Hd & _); [done..|].
    exists (String "+" t), d. rewrite Ht. done.
  - intros H. apply parse_digits_all in H. by apply numeral_digits.
Qed.

Lemma trim_numeral_suffix s suf :
  numeral s -> suf ∈ ["ms"; "s"; "m"; "h"; "d"; ""] -> trim (s +:+ suf) = s +:+ suf.
Proof.
  intros [(c & t & Hc & Hp) (t' & d & Ht & Hd)] Hsuf.
  assert (forall mid d, plain d = true ->
    trim (s +:+ mid +:+ String d EmptyString) = s +:+ mid +:+ String d EmptyString) as Hends.
  { intros mid x Hx. rewrite Hc. change (String c t +:+ ?x) with (String c (t +:+ x)).
    rewrite str_app_assoc. by apply trim_plain_ends. }
  repeat (apply elem_of_cons in Hsuf as [->|Hsuf]); [..|by apply elem_of_nil in Hsuf].
  - by apply (Hends "m" "s"%char).
  - by apply (Hends "" "s"%char).
  - by apply (Hends "" "m"%char).
  - by apply (Hends "" "h"%char).
  - by apply (Hends "" "d"%char).
  - rewrite str_app_nil, Ht. destruct t' as [|c' t'].
    + change (EmptyString +:+ ?x) with x. unfold trim.
      rewrite trim_start_plain by auto using digit_plain. unfold trim_end.
      change (str_rev (String d EmptyString)) with (String d EmptyString).
      by rewrite trim_start_rev_plain by auto using digit_plain.
    + rewrite Ht in Hc. injection Hc as -> _. apply trim_plain_ends; [done|by apply digit_plain].
Qed.

Lemma trim_digits_suffix s suf :
  all_chars is_digit s = true -> s <> EmptyString -> suf ∈ ["ms"; "s"; "m"; "h"; "d"; ""] ->
  trim (s +:+ suf) = s +:+ suf.
Proof. intros Hs Hne. apply trim_numeral_suffix. by apply numeral_digits. Qed.

Lemma split_unit_numeral s u :
  numeral s -> split_unit (s +:+ unit_suffix u) = (s, unit_suffix u, unit_millis u).
Proof.
  intros [_ (s' & d & Hd & Hdig)].
  assert (forall x, is_digit x = false -> strip_suffix (String x EmptyString) s = None) as Hn1.
  { intros x Hx. rewrite Hd. apply (strip_suffix_last ""). by apply digit_neq. }
  assert (strip_suffix "ms" s = None) as Hn2.
  { rewrite Hd. apply (strip_suffix_last "m" "s"%char). by apply digit_neq. }
  assert (forall x y, x <> y ->
    strip_suffix (String x EmptyString) (s +:+ String y EmptyString) = None) as H1.
  { intros x y Hxy. by apply (strip_suffix_last ""). }
  assert (forall y, "s"%char <> y -> strip_suffix "ms" (s +:+ String y EmptyString) = None) as H2.
  { intros y Hy. by apply (strip_suffix_last "m" "s"%char). }
  assert (strip_suffix "ms" (s +:+ "s") = None) as Hms.
  { destruct (strip_suffix "ms" (s +:+ "s")) as [r|] eqn:E; [exfalso|done].
    apply strip_suffix_app in E. apply (f_equal str_rev) in E.
    rewrite Hd, !str_rev_app in E.
    change (str_rev (String d EmptyString)) with (String d EmptyString) in E.
    cbn in E. injection E as E _. subst d. done. }
  unfold split_unit. destruct u; cbn [unit_suffix unit_millis].
  - by rewrite strip_suffix_app_iff.
  - by rewrite Hms, strip_suffix_app_iff.
  - by rewrite H2, (H1 "s"%char), strip_suffix_app_iff.
  - by rewrite H2, (H1 "s"%char), (H1 "m"%char), strip_suffix_app_iff.
  - by rewrite H2, (H1 "s"%char), (H1 "m"%char), (H1 "h"%char), strip_suffix_app_iff.
  - rewrite str_app_nil. by rewrite Hn2, !Hn1.
Qed.

Lemma split_unit_print s u :
  all_chars is_digit s = true -> s <> EmptyString ->
  split_unit (s +:+ unit_suffix u) = (s, unit_suffix u, unit_millis u).
Proof. intros Hs Hne. by apply split_unit_numeral, numeral_digits. Qed.

(** A number and a unit, as the grammar reads them. *)
Lemma parse_duration_numeral s n u :
  parse_u64 s = Some n ->
  parse_duration_checked (s +:+ unit_suffix u)
  = if n * unit_millis u <=? U64_MAX then Ok (n * unit_millis u * NS_MS)
    else Err (DurOverflow (s +:+ unit_suffix u)).
Proof.
  intros Hn. pose proof (numeral_parses s n Hn) as Hs. unfold parse_duration_checked. cbv zeta.
  rewrite trim_numeral_suffix; [|done|destruct u; cbn; repeat constructor].
  rewrite split_unit_numeral by done. destruct Hs as [(c & t & -> & _) _].
  cbn [str_is_empty]. by rewrite Hn.
Qed.

(** The duration grammar reads back what it prints: a decimal number and
    a unit suffix (or none, meaning seconds) parse to exactly that many units
    when the milliseconds fit a [u64], and are rejected as an overflow when
    they do not - never wrapped. *)
Theorem parse_duration_print n u :
  0 <= n <= U64_MAX ->
  parse_duration_checked (show_uint n +:+ unit_suffix u)
  = if n * unit_millis u <=? U64_MAX then Ok (n * unit_millis u * NS_MS)
    else Err (DurOverflow (show_uint n +:+ unit_suffix u)).
Proof.
  intros Hn. apply parse_duration_numeral. unfold parse_u64. by rewrite parse_show_uint.
Qed.

Lemma parse_duration_print_witness :
  parse_duration_checked "15m" = Ok (900 * NS_SEC).
Proof. exact (parse_duration_print 15 UM ltac:(vm_compute; split; congruence)). Defined.

(** The timeout in force for an execution always parses, and is the
    stamp on the row if that parses, else the job's timeout if that does, else
    five minutes: a blank or malformed value is passed over, never honoured. *)
Theorem effective_timeout_precedence metadata job_timeout :
  let ok o := match o with Some t => is_Some (parse_duration (trim t)) | None => False end in
  is_Some (parse_duration (effective_timeout metadata job_timeout)) /\
  (forall t, metadata !! TIMEOUT_METADATA_KEY = Some t -> ok (Some t) ->
     effective_timeout metadata job_timeout = trim t) /\
  (forall t, ~ ok (metadata !! TIMEOUT_METADATA_KEY) -> job_timeout = Some t -> ok (Some t) ->
     effective_timeout metadata job_timeout = trim t) /\
  (~ ok (metadata !! TIMEOUT_METADATA_KEY) -> ~ ok job_timeout ->
     effective_timeout metadata job_timeout = DEFAULT_EXECUTION_TIMEOUT).
Proof.
  cbv zeta.
  assert (is_Some (parse_duration DEFAULT_EXECUTION_TIMEOUT)) as Hdef by (by eexists).
  set (f := fun t => match parse_duration t with Some _ => true | None => false end).
  assert (forall t, f (trim t) = true <-> is_Some (parse_duration (trim t))) as Hf.
  { intros t. subst f. cbv beta. destruct (parse_duration (trim t)); split; done. }
  unfold effective_timeout. cbv zeta. fold f.
  assert (forall a b, find f (map trim (option_list a ++ option_list b)%list)
    = match a with
      | Some m => if f (trim m) then Some (trim m)
                  else match b with Some j => if f (trim j) then Some (trim j) else None
                       | None => None end
      | None => match b with Some j => if f (trim j) then Some (trim j) else None
                | None => None end
      end) as Hfind by (by intros [m|] [j|]).
  rewrite Hfind. clear Hfind. clearbody f.
  destruct (metadata !! TIMEOUT_METADATA_KEY) as [m|], job_timeout as [j|];
    [pose proof (Hf m); pose proof (Hf j)|pose proof (Hf m)|pose proof (Hf j)|];
    repeat case_if; split_and!; try done; naive_solver.
Qed.
