(* ===== verification/Execution.v ===== *)
(** * Retry, timeout and dead-letter policies

    Models [croniq-execution/src/retry.rs], [timeout.rs], [dead_letter.rs] and
    [pipeline.rs], and the conversion from the configuration in
    [croniq-bridge/src/policy.rs]. A [std::time::Duration] is a number of
    nanoseconds in [0, DURATION_MAX]; an [f64] is a [spec_float] of binary64;
    [rand::random()] is an argument. *)

From S2P Require Import Prelude RustStr Chrono Durations.
From Stdlib Require Import SpecFloat.

Local Open Scope string_scope.
Local Open Scope Z_scope.

(** ** [f64] *)

Abbreviation f64 := spec_float.
Definition f64_add : f64 -> f64 -> f64 := SFadd 53 1024.
Definition f64_sub : f64 -> f64 -> f64 := SFsub 53 1024.
Definition f64_mul : f64 -> f64 -> f64 := SFmul 53 1024.
(** [n as f64] for an unsigned integer: round to nearest, ties to even. *)
Definition f64_of_uint (n : Z) : f64 := binary_normalize 53 1024 n 0 false.
Definition f64_zero : f64 := f64_of_uint 0.
Definition f64_one : f64 := f64_of_uint 1.
(** [x.clamp(0.0, 1.0)]: NaN stays NaN. *)
Definition f64_clamp01 (x : f64) : f64 :=
  if SFltb x f64_zero then f64_zero else if SFltb f64_one x then f64_one else x.
(** [x.max(0.0)]: NaN gives [0.0]. *)
Definition f64_max0 (x : f64) : f64 := if SFltb f64_zero x then x else f64_zero.
(** [x as u64]: truncates, saturates, NaN gives 0. *)
Definition f64_as_u64 (x : f64) : Z :=
  match x with
  | S754_zero _ | S754_nan => 0
  | S754_infinity s => if s then 0 else U64_MAX
  | S754_finite s m e =>
      if s then 0 else Z.min U64_MAX (Z.shiftl (Z.pos m) e)
  end.

(** ** [Duration] arithmetic *)

Definition dur_saturating_mul (d : Duration) (n : Z) : Duration := Z.min DURATION_MAX (d * n).
Definition dur_saturating_add (a b : Duration) : Duration := Z.min DURATION_MAX (a + b).
Definition dur_secs (n : Z) : Duration := n * NS_SEC.

(** ** [retry.rs] *)

Inductive RetryStrategy :=
| Exponential (base cap : Duration)
| FixedDelay (delay : Duration)
| Linear (base step cap : Duration).

Record RetryPolicy := {
  strategy : RetryStrategy;
  max_attempts : Z;
  jitter : f64
}.

Inductive RetryDecision :=
| RetryAfter (d : Duration)
| RetryExhausted.

(** [2u64.saturating_pow(n)] *)
Definition saturating_pow2 (n : Z) : Z := if n <? 64 then 2 ^ n else U64_MAX.

(** [RetryPolicy::compute_delay]; [retry_num - 1] is [u32] arithmetic. *)
Definition compute_delay (p : RetryPolicy) (attempt : Z) : Duration :=
  let retry_num := attempt in
  match strategy p with
  | Exponential base cap =>
      let multiplier := saturating_pow2 (wrap_u32 (retry_num - 1)) in
      let delay := dur_saturating_mul base (wrap_u32 multiplier) in
      Z.min delay cap
  | FixedDelay delay => delay
  | Linear base step cap =>
      let additional := dur_saturating_mul step (wrap_u32 (retry_num - 1)) in
      let delay := dur_saturating_add base additional in
      Z.min delay cap
  end.

(** [apply_jitter], with the value of [rand::random()] as [random]. *)
Definition apply_jitter (random : f64) (duration : Duration) (jitter : f64) : Duration :=
  if SFleb jitter f64_zero || (duration =? 0) then duration
  else
    let jitter := f64_clamp01 jitter in
    let millis := f64_of_uint (duration / NS_MS) in
    let variance := f64_mul millis jitter in
    let offset := f64_mul variance (f64_sub (f64_mul (f64_of_uint 2) random) f64_one) in
    let jittered := f64_max0 (f64_add millis offset) in
    f64_as_u64 jittered * NS_MS.

(** [RetryPolicy::evaluate] *)
Definition retry_evaluate (random : f64) (p : RetryPolicy) (attempt : Z) : RetryDecision :=
  if max_attempts p <=? attempt then RetryExhausted
  else
    let base_delay := compute_delay p attempt in
    RetryAfter (apply_jitter random base_delay (jitter p)).

(** [RetryPolicy::default], [::exponential], [::fixed], [::linear], [::none];
    0.25 is 2^-2. *)
Definition retry_default : RetryPolicy := {|
  strategy := Exponential (dur_secs 2) (dur_secs 30);
  max_attempts := 3;
  jitter := binary_normalize 53 1024 1 (-2) false |}.
Definition retry_exponential (m : Z) (base cap : Duration) (j : f64) : RetryPolicy :=
  {| strategy := Exponential base cap; max_attempts := m; jitter := j |}.
Definition retry_fixed (m : Z) (delay : Duration) : RetryPolicy :=
  {| strategy := FixedDelay delay; max_attempts := m; jitter := f64_zero |}.
Definition retry_linear (m : Z) (base step cap : Duration) : RetryPolicy :=
  {| strategy := Linear base step cap; max_attempts := m; jitter := f64_zero |}.
Definition retry_none : RetryPolicy :=
  {| strategy := FixedDelay 0; max_attempts := 1; jitter := f64_zero |}.

(** ** [timeout.rs] *)

Record TimeoutPolicy := { tp_duration : Duration }.
Definition timeout_default : TimeoutPolicy := {| tp_duration := dur_secs 300 |}.
Definition timeout_parse (s : string) : option TimeoutPolicy :=
  d ← parse_duration s; Some {| tp_duration := d |}.
Definition is_expired (p : TimeoutPolicy) (elapsed : Duration) : bool :=
  tp_duration p <=? elapsed.
Definition remaining (p : TimeoutPolicy) (elapsed : Duration) : Duration :=
  saturating_sub (tp_duration p) elapsed.

(** ** [dead_letter.rs] *)

Record DeadLetterPolicy := {
  dl_enabled : bool;
  dl_retention : Duration;
  dl_operator_hint : option string;
  dl_replay_max_age : option Duration
}.
Definition dead_letter_default : DeadLetterPolicy := {|
  dl_enabled := true; dl_retention := dur_secs (30 * 86400);
  dl_operator_hint := None; dl_replay_max_age := None |}.
Definition dead_letter_disabled : DeadLetterPolicy := {|
  dl_enabled := false; dl_retention := 0;
  dl_operator_hint := None; dl_replay_max_age := None |}.
Definition with_retention (p : DeadLetterPolicy) (retention : string) : DeadLetterPolicy :=
  match parse_duration retention with
  | Some d => {| dl_enabled := dl_enabled p; dl_retention := d;
                 dl_operator_hint := dl_operator_hint p;
                 dl_replay_max_age := dl_replay_max_age p |}
  | None => p
  end.
Definition with_hint (p : DeadLetterPolicy) (hint : string) : DeadLetterPolicy :=
  {| dl_enabled := dl_enabled p; dl_retention := dl_retention p;
     dl_operator_hint := Some hint; dl_replay_max_age := dl_replay_max_age p |}.
Definition with_replay_max_age (p : DeadLetterPolicy) (max_age : string) : DeadLetterPolicy :=
  {| dl_enabled := dl_enabled p; dl_retention := dl_retention p;
     dl_operator_hint := dl_operator_hint p; dl_replay_max_age := parse_duration max_age |}.
(** [DeadLetterPolicy::expires_at] *)
Definition expires_at (p : DeadLetterPolicy) (now : instant) : option instant :=
  if negb (dl_enabled p) || (dl_retention p =? 0) then None else Some (now + dl_retention p).

(** ** [pipeline.rs] *)

Record ExecutionPolicy := {
  ep_retry : RetryPolicy;
  ep_timeout : TimeoutPolicy;
  ep_dead_letter : DeadLetterPolicy
}.

Inductive ExecutionOutcome :=
| OSuccess
| ORetry (next_attempt : Z) (delay : Duration)
| ODeadLetter (reason : string) (operator_hint : option string) (expires_after : option Duration)
| ODropped (reason : string)
| OCancelled.

Record ExecutionResult := {
  er_success : bool;
  er_error : option string;
  er_duration : Duration;
  er_attempt : Z
}.

(** [ExecutionPolicy::evaluate] *)
Definition evaluate_outcome (random : f64) (p : ExecutionPolicy) (result : ExecutionResult)
    : ExecutionOutcome :=
  if er_success result then OSuccess
  else
    let timed_out := is_expired (ep_timeout p) (er_duration result) in
    let error := if timed_out then default "execution timed out" (er_error result)
                 else default "unknown error" (er_error result) in
    match retry_evaluate random (ep_retry p) (er_attempt result) with
    | RetryAfter delay => ORetry (wrap_u32 (er_attempt result + 1)) delay
    | RetryExhausted =>
        let reason := "exhausted after " +:+ show_uint (er_attempt result)
                      +:+ " attempts: " +:+ error in
        if dl_enabled (ep_dead_letter p) then
          ODeadLetter reason (dl_operator_hint (ep_dead_letter p))
            (if negb (dl_retention (ep_dead_letter p) =? 0)
             then Some (dl_retention (ep_dead_letter p)) else None)
        else ODropped reason
    end.

(** [ExecutionPolicy::check_timeout] *)
Definition check_timeout (p : ExecutionPolicy) (elapsed : Duration) : bool :=
  is_expired (ep_timeout p) elapsed.

(** ** [croniq-bridge/src/policy.rs] *)

(** The fields of croniq-config's [RetryConfig] and [DeadLetterConfig]. *)
Record RetryConfig := {
  rcf_strategy : string;
  rcf_max_attempts : Z;
  rcf_base : option string;
  rcf_cap : option string;
  rcf_delay : option string;
  rcf_step : option string;
  rcf_jitter : option f64
}.
Record DeadLetterConfig := {
  dlc_enabled : bool;
  dlc_retention : option string;
  dlc_operator_hint : option string;
  dlc_replay_max_age : option string
}.

Definition duration_or (o : option string) (d : Duration) : Duration :=
  default d (s ← o; parse_duration s).

(** [retry_config_to_policy] *)
Definition retry_config_to_policy (cfg : RetryConfig) : RetryPolicy :=
  let with_strategy s :=
    {| strategy := s; max_attempts := rcf_max_attempts cfg;
       jitter := f64_clamp01 (default f64_zero (rcf_jitter cfg)) |} in
  if String.eqb (rcf_strategy cfg) "exponential" then
    with_strategy (Exponential (duration_or (rcf_base cfg) (dur_secs 2))
                               (duration_or (rcf_cap cfg) (dur_secs 30)))
  else if String.eqb (rcf_strategy cfg) "linear" then
    with_strategy (Linear (duration_or (rcf_base cfg) (dur_secs 2))
                          (duration_or (rcf_step cfg) (dur_secs 5))
                          (duration_or (rcf_cap cfg) (dur_secs (24 * 3600))))
  else if String.eqb (rcf_strategy cfg) "fixed" then
    with_strategy (FixedDelay (duration_or (rcf_delay cfg) (dur_secs 5)))
  else if String.eqb (rcf_strategy cfg) "none" then retry_none
  else with_strategy (Exponential (dur_secs 2) (dur_secs 30)).

(** [timeout_to_policy] *)
Definition timeout_to_policy (timeout_str : option string) : TimeoutPolicy :=
  default timeout_default (s ← timeout_str; timeout_parse s).

(** [dead_letter_to_policy] *)
Definition dead_letter_to_policy (cfg : DeadLetterConfig) : DeadLetterPolicy :=
  if negb (dlc_enabled cfg) then dead_letter_disabled
  else
    let policy := dead_letter_default in
    let policy := match dlc_retention cfg with
                  | Some r => with_retention policy r | None => policy end in
    let policy := match dlc_operator_hint cfg with
                  | Some h => with_hint policy h | None => policy end in
    match dlc_replay_max_age cfg with
    | Some a => with_replay_max_age policy a
    | None => policy
    end.

(** ** Delays *)

Lemma pow2_u32 n : 0 <= n <= 31 -> 1 <= 2 ^ n <= U32_MAX.
Proof.
  intros Hn. split; [apply (Z.pow_le_mono_r 2 0 n); lia|].
  pose proof (Z.pow_le_mono_r 2 n 31 ltac:(lia) ltac:(lia)). unfold U32_MAX.
  change (2 ^ 31) with 2147483648 in *. lia.
Qed.

(** Without jitter, the delay before retry [attempt] is the documented
    formula, capped: [base * 2^(attempt-1)] for exponential backoff as long as
    the factor fits 32 bits (attempts 1 to 32), [base + step * (attempt-1)]
    for linear backoff at every attempt, and the constant for fixed delays;
    saturation never shows because the cap is a duration. *)
Theorem retry_delay_formula p attempt :
  1 <= attempt <= U32_MAX ->
  match strategy p with
  | Exponential base cap =>
      0 <= base -> cap <= DURATION_MAX -> attempt <= 32 ->
      compute_delay p attempt = Z.min (base * 2 ^ (attempt - 1)) cap
  | Linear base step cap =>
      0 <= base -> 0 <= step -> cap <= DURATION_MAX ->
      compute_delay p attempt = Z.min (base + step * (attempt - 1)) cap
  | FixedDelay delay => compute_delay p attempt = delay
  end.
Proof.
  intros Ha. unfold compute_delay. cbv zeta.
  assert (wrap_u32 (attempt - 1) = attempt - 1) as Hw by (apply wrap_u32_id; lia).
  destruct (strategy p) as [base cap|d|base step cap]; rewrite ?Hw; [|done|].
  - intros Hb Hc H32. unfold saturating_pow2.
    pose proof (pow2_u32 (attempt - 1) ltac:(lia)). case_if; b2p; [|lia].
    unwrap. unfold dur_saturating_mul. lia.
  - intros Hb Hs Hc. unfold dur_saturating_add, dur_saturating_mul. lia.
Qed.

Lemma retry_delay_formula_witness :
  compute_delay retry_default 4 = Z.min (dur_secs 2 * 2 ^ 3) (dur_secs 30).
Proof.
  exact (retry_delay_formula retry_default 4 ltac:(vm_compute; split; congruence)
    ltac:(vm_compute; congruence) ltac:(vm_compute; congruence) ltac:(vm_compute; congruence)).
Defined.

(** The exponential factor is cast to 32 bits, so for attempts 33 to 64 it
    is truncated to zero and the retry comes with no delay at all, whatever
    the base and the cap. *)
Theorem exponential_delay_collapses base cap m j attempt :
  0 <= cap -> 33 <= attempt <= 64 ->
  compute_delay (retry_exponential m base cap j) attempt = 0.
Proof.
  intros Hc Ha. unfold compute_delay, retry_exponential, saturating_pow2. cbv zeta. cbn [strategy].
  rewrite (wrap_u32_id (attempt - 1)) by (unfold U32_MAX; lia).
  case_if; b2p; [|lia].
  assert (wrap_u32 (2 ^ (attempt - 1)) = 0) as ->.
  { unfold wrap_u32. replace (attempt - 1) with ((attempt - 33) + 32) by lia.
    rewrite Z.pow_add_r by lia. change (2 ^ 32) with 4294967296. apply Z_mod_mult. }
  unfold dur_saturating_mul, DURATION_MAX, U64_MAX, NS_SEC. lia.
Qed.

Lemma exponential_delay_collapses_witness :
  compute_delay (retry_exponential 100 (dur_secs 2) (dur_secs 30) f64_zero) 32 = dur_secs 30
  /\ compute_delay (retry_exponential 100 (dur_secs 2) (dur_secs 30) f64_zero) 33 = 0.
Proof.
  split; [vm_compute; reflexivity|].
  apply exponential_delay_collapses; vm_compute; intuition congruence.
Defined.

(** ** A job that keeps failing *)

Section Failing.
  Context (random : f64) (p : ExecutionPolicy) (error : option string) (duration : Duration).

Definition failed (attempt : Z) : ExecutionResult :=
  {| er_success := false; er_error := error; er_duration := duration; er_attempt := attempt |}.

(** Follow the retries of a job that fails every time: the attempt that ended
    it and its outcome. *)
Fixpoint keep_failing (fuel : nat) (attempt : Z) : option (Z * ExecutionOutcome) :=
  match fuel with
  | O => None
  | S fuel' =>
      match evaluate_outcome random p (failed attempt) with
      | ORetry next _ => keep_failing fuel' next
      | o => Some (attempt, o)
      end
  end.

Definition final_reason (attempt : Z) : string :=
  "exhausted after " +:+ show_uint attempt +:+ " attempts: " +:+
  default (if is_expired (ep_timeout p) duration then "execution timed out" else "unknown error")
    error.

Definition final_outcome (attempt : Z) : ExecutionOutcome :=
  if dl_enabled (ep_dead_letter p) then
    ODeadLetter (final_reason attempt) (dl_operator_hint (ep_dead_letter p))
      (if negb (dl_retention (ep_dead_letter p) =? 0)
       then Some (dl_retention (ep_dead_letter p)) else None)
  else ODropped (final_reason attempt).

Lemma evaluate_failed attempt :
  evaluate_outcome random p (failed attempt)
  = if max_attempts (ep_retry p) <=? attempt then final_outcome attempt
    else ORetry (wrap_u32 (attempt + 1))
           (apply_jitter random (compute_delay (ep_retry p) attempt) (jitter (ep_retry p))).
Proof.
  unfold evaluate_outcome, retry_evaluate, final_outcome, final_reason. cbn [er_success failed
    er_duration er_error er_attempt]. cbv zeta.
  case_if; [|done]. by destruct (is_expired (ep_timeout p) duration).
Qed.

Lemma keep_failing_from attempt :
  1 <= attempt <= Z.max 1 (max_attempts (ep_retry p)) ->
  max_attempts (ep_retry p) <= U32_MAX ->
  forall fuel, Z.max 1 (max_attempts (ep_retry p)) - attempt < Z.of_nat fuel ->
  keep_failing fuel attempt
  = Some (Z.max 1 (max_attempts (ep_retry p)),
          final_outcome (Z.max 1 (max_attempts (ep_retry p)))).
Proof.
  intros Ha Hm fuel. revert attempt Ha.
  induction fuel as [|fuel IH]; intros attempt Ha Hf; [lia|].
  cbn [keep_failing]. rewrite evaluate_failed. case_if; b2p.
  - replace attempt with (Z.max 1 (max_attempts (ep_retry p))) by lia.
    unfold final_outcome. by case_if.
  - unwrap. apply IH; lia.
Qed.

(** A job that fails every attempt is run exactly
    [max(1, max_attempts)] times and then ends: as a dead letter carrying the
    last error and the configured hint and retention when dead letters are
    enabled, dropped otherwise. Retrying always terminates. *)
Theorem failing_job_ends_after_max_attempts :
  0 <= max_attempts (ep_retry p) <= U32_MAX ->
  keep_failing (Z.to_nat (Z.max 1 (max_attempts (ep_retry p)))) 1
  = Some (Z.max 1 (max_attempts (ep_retry p)),
          final_outcome (Z.max 1 (max_attempts (ep_retry p)))).
Proof. intros Hm. apply keep_failing_from; lia. Qed.
End Failing.

Lemma failing_job_ends_after_max_attempts_witness :
  keep_failing f64_zero
    {| ep_retry := retry_default; ep_timeout := timeout_default;
       ep_dead_letter := dead_letter_default |} (Some "boom") 0 3 1
  = Some (3, ODeadLetter "exhausted after 3 attempts: boom" None (Some (dur_secs 2592000))).
Proof.
  apply (failing_job_ends_after_max_attempts f64_zero
    {| ep_retry := retry_default; ep_timeout := timeout_default;
       ep_dead_letter := dead_letter_default |} (Some "boom") 0).
  vm_compute. intuition congruence.
Defined.

(** An unknown strategy name falls back to the default exponential backoff. *)
Lemma unknown_strategy_is_exponential :
  strategy (retry_config_to_policy
    {| rcf_strategy := "quadratic"; rcf_max_attempts := 5; rcf_base := None; rcf_cap := None;
       rcf_delay := None; rcf_step := None; rcf_jitter := None |})
  = Exponential (dur_secs 2) (dur_secs 30).
Proof. reflexivity. Qed.

Definition strategy_ok (s : RetryStrategy) : Prop :=
  let ok d := 0 <= d <= DURATION_MAX in
  match s with
  | Exponential b c => ok b /\ ok c
  | FixedDelay d => ok d
  | Linear b s c => ok b /\ ok s /\ ok c
  end.

Lemma split_unit_millis t d u m : split_unit t = (d, u, m) -> 0 <= m.
Proof. unfold split_unit. repeat case_match; intros [= <- <- <-]; lia. Qed.

Lemma parse_duration_range s d : parse_duration s = Some d -> 0 <= d <= DURATION_MAX.
Proof.
  unfold parse_duration, parse_duration_checked. cbv zeta.
  destruct (split_unit (trim s)) as [[digits u] m] eqn:Eu.
  apply split_unit_millis in Eu. case_if; [done|]. unfold parse_u64.
  destruct (parse_uint U64_MAX digits) as [v|] eqn:Ev; simpl; [|done].
  apply parse_uint_range in Ev; [|done]. case_if; simpl; [|done]. intros [= <-]. b2p.
  unfold DURATION_MAX, U64_MAX, NS_MS, NS_SEC in *. nia.
Qed.

Lemma duration_or_range o d : 0 <= d <= DURATION_MAX -> 0 <= duration_or o d <= DURATION_MAX.
Proof.
  intros Hd. unfold duration_or. destruct o as [s|]; simpl; [|done].
  destruct (parse_duration s) as [v|] eqn:E; simpl; [|done]. by eapply parse_duration_range.
Qed.

Lemma clamp_nonneg x : SFltb (f64_clamp01 x) f64_zero = false.
Proof. unfold f64_clamp01. repeat case_if; done. Qed.

(** Whatever the configuration says, the converted policy is one the retry
    engine is sound for: its durations are in range, so the formulas above
    apply, its jitter is not negative, and the attempts are the configured
    number (one for the strategy [none]). *)
Theorem converted_policy_sound cfg :
  strategy_ok (strategy (retry_config_to_policy cfg))
  /\ SFltb (jitter (retry_config_to_policy cfg)) f64_zero = false
  /\ max_attempts (retry_config_to_policy cfg)
     = (if String.eqb (rcf_strategy cfg) "none" then 1 else rcf_max_attempts cfg).
Proof.
  assert (forall n, 0 <= n <= 100000 -> 0 <= dur_secs n <= DURATION_MAX) as Hd.
  { intros n Hn. unfold dur_secs, DURATION_MAX, U64_MAX, NS_SEC. lia. }
  unfold retry_config_to_policy. cbv zeta.
  destruct (String.eqb (rcf_strategy cfg) "exponential") eqn:E1;
  [|destruct (String.eqb (rcf_strategy cfg) "linear") eqn:E2;
  [|destruct (String.eqb (rcf_strategy cfg) "fixed") eqn:E3;
  [|destruct (String.eqb (rcf_strategy cfg) "none") eqn:E4]]];
    cbn [strategy jitter max_attempts strategy_ok retry_none]; (split_and!;
      [..|]); try (apply duration_or_range, Hd; lia); try apply clamp_nonneg; try done;
    try (apply Hd; lia).
  all: try (apply String.eqb_eq in E1; rewrite E1; done).
  all: try (apply String.eqb_eq in E2; rewrite E2; done).
  all: apply String.eqb_eq in E3; rewrite E3; done.
Qed.
