(* ===== verification/RunnerTypes.v ===== *)
(** * Runner protocol types

    Models [croniq-runner/src/types.rs] (the runner, its liveness and
    capacity, work items and assignments) and the capability matcher of
    [croniq-runner/src/router.rs]. *)

From S2P Require Import Prelude RustStr Chrono.

Local Open Scope string_scope.
Local Open Scope Z_scope.

(** [serde_json::Value], as far as work items use it: [get_str v k] is
    [v.get(k).and_then(|x| x.as_str())], [has_key v k] is
    [v.get(k).is_some()], and [of_map] builds an object with string members. *)
Class Json := {
  Value : Type;
  get_str : Value -> string -> option string;
  has_key : Value -> string -> bool;
  of_map : gmap string string -> Value
}.
Class JsonLaws `{J : Json} := {
  get_str_of_map m k : get_str (of_map m) k = m !! k;
  has_key_of_map m k : has_key (of_map m) k = bool_decide (is_Some (m !! k))
}.

(** An instance: metadata as a string map. *)
#[global] Instance string_map_json : Json | 100 :=
  {| Value := gmap string string; get_str := fun m k => m !! k;
     has_key := fun m k => bool_decide (is_Some (m !! k)); of_map := fun m => m |}.
#[global] Instance string_map_json_laws : JsonLaws (J := string_map_json).
Proof. by split. Qed.

(** [Duration::num_seconds], which truncates towards zero. *)
Definition num_seconds (d : Z) : Z := Z.quot d NS_SEC.

Record Runner := {
  runner_id : string;
  capabilities : list string;
  max_inflight : Z;
  last_poll_at : instant;
  inflight : list string;
  instance_id : option string;
  deposed_instance_id : option string;
  tags : list string
}.

Inductive RunnerStatus := Online | Stale | Dead.
#[export] Instance RunnerStatus_eq_dec : EqDecision RunnerStatus.
Proof. solve_decision. Defined.

(** [Runner::new], at the clock reading [now]. *)
Definition runner_new (id : string) (caps : list string) (max : Z) (now : instant) : Runner := {|
  runner_id := id; capabilities := caps; max_inflight := max; last_poll_at := now;
  inflight := []; instance_id := None; deposed_instance_id := None; tags := [] |}.

(** [Runner::status_at_with_ttl] *)
Definition status_at_with_ttl (r : Runner) (now : instant) (dead_threshold_secs : Z)
    : RunnerStatus :=
  let age := Z.max 0 (num_seconds (now - last_poll_at r)) in
  let stale_threshold := dead_threshold_secs / 2 in
  if age <? stale_threshold then Online
  else if age <? dead_threshold_secs then Stale
  else Dead.

(** [Runner::has_capacity] *)
Definition has_capacity (r : Runner) : bool :=
  wrap_u32 (Z.of_nat (length (inflight r))) <? max_inflight r.

Section Work.
  Context `{J : Json}.

Record WorkItem := {
  execution_id : string;
  wi_job_key : string;
  fire_at : instant;
  scheduled_for : instant;
  attempt : Z;
  require : list string;
  prefer : list string;
  metadata : Value;
  timeout : string;
  is_ephemeral : bool
}.

Record WorkAssignment := {
  wa_execution_id : string;
  wa_job_key : string;
  wa_fire_at : instant;
  wa_scheduled_for : option instant;
  wa_attempt : Z;
  wa_metadata : Value;
  wa_timeout : string
}.

(** [impl From<WorkItem> for WorkAssignment] *)
Definition assignment_of (w : WorkItem) : WorkAssignment := {|
  wa_execution_id := execution_id w; wa_job_key := wi_job_key w; wa_fire_at := fire_at w;
  wa_scheduled_for := Some (scheduled_for w); wa_attempt := attempt w;
  wa_metadata := metadata w; wa_timeout := timeout w |}.

(** [CapabilityRouter::can_handle]; the queue's scan makes the same test. *)
Definition has_all (caps required : list string) : bool :=
  forallb (fun req => bool_decide (req ∈ caps)) required.
Definition can_handle (r : Runner) (w : WorkItem) : bool := has_all (capabilities r) (require w).

(** [CapabilityRouter::score] *)
Definition score (r : Runner) (w : WorkItem) : Z :=
  let preferred_matches :=
    wrap_u32 (Z.of_nat (length (List.filter (fun p => bool_decide (p ∈ capabilities r)) (prefer w)))) in
  let capacity_bonus := if has_capacity r then 1 else 0 in
  preferred_matches + capacity_bonus.

(** [Iterator::max_by_key]: the last of the greatest. *)
Fixpoint max_by_key {A} (key : A -> Z) (l : list A) (best : option A) : option A :=
  match l with
  | [] => best
  | x :: l =>
      match best with
      | None => max_by_key key l (Some x)
      | Some b => max_by_key key l (Some (if key b <=? key x then x else b))
      end
  end.

(** [CapabilityRouter::best] *)
Definition best (runners : list Runner) (w : WorkItem) : option Runner :=
  max_by_key (fun r => score r w)
    (List.filter (fun r => has_capacity r && can_handle r w) runners) None.

(** ** The matcher *)

Lemma has_all_spec caps req : has_all caps req = true <-> (forall c, c ∈ req -> c ∈ caps).
Proof.
  unfold has_all. rewrite forallb_forall. split; intros H c.
  - intros Hc%list_elem_of_In. specialize (H c Hc). by apply bool_decide_eq_true in H.
  - intros Hc%list_elem_of_In. apply bool_decide_eq_true. by apply H.
Qed.

Lemma max_by_key_spec {A} (key : A -> Z) l best :
  match max_by_key key l best with
  | Some m => (best = Some m \/ m ∈ l)
      /\ (forall x, x ∈ l -> key x <= key m) /\ (forall b, best = Some b -> key b <= key m)
  | None => best = None /\ l = []
  end.
Proof.
  revert best. induction l as [|x l IH]; intros best; cbn [max_by_key].
  - destruct best as [b|]; [|done]. split_and!; [by left|by intros x ?%elem_of_nil|].
    intros c [= <-]. lia.
  - destruct best as [b|].
    + specialize (IH (Some (if key b <=? key x then x else b))).
      destruct (max_by_key _ _ _) as [m|]; [|by destruct IH].
      destruct IH as (Hin & Hl & Hb). specialize (Hb _ eq_refl).
      destruct (Z.leb_spec (key b) (key x)); split_and!;
        try (intros y [->|Hy]%elem_of_cons; [lia|by apply Hl]); try (intros c [= <-]; lia).
      * destruct Hin as [[= <-]|?]; right; [by left|by right].
      * destruct Hin as [[= <-]|?]; [by left|right; by right].
    + specialize (IH (Some x)). destruct (max_by_key _ _ _) as [m|]; [|by destruct IH].
      destruct IH as (Hin & Hl & Hb). specialize (Hb _ eq_refl). split_and!; [|..|done].
      * right. destruct Hin as [[= <-]|?]; [by left|by right].
      * intros y [->|Hy]%elem_of_cons; [lia|by apply Hl].
Qed.

(** The router's choice is sound and optimal: the chosen runner is a
    candidate with spare capacity and every required capability, no other such
    candidate scores higher, and no runner is chosen only when no candidate
    qualifies. *)
Theorem router_best_is_best runners w :
  match best runners w with
  | Some r => r ∈ runners /\ has_capacity r = true
      /\ (forall c, c ∈ require w -> c ∈ capabilities r)
      /\ (forall r', r' ∈ runners -> has_capacity r' = true ->
            (forall c, c ∈ require w -> c ∈ capabilities r') -> score r' w <= score r w)
  | None => forall r, r ∈ runners -> has_capacity r = true ->
            ~ (forall c, c ∈ require w -> c ∈ capabilities r)
  end.
Proof.
  unfold best. pose proof (max_by_key_spec (fun r => score r w)
    (List.filter (fun r => has_capacity r && can_handle r w) runners) None) as H.
  assert (forall r, r ∈ List.filter (fun r => has_capacity r && can_handle r w) runners <->
    r ∈ runners /\ has_capacity r = true /\ (forall c, c ∈ require w -> c ∈ capabilities r)) as Hf.
  { intros r. rewrite list_elem_of_In, filter_In, andb_true_iff, <- list_elem_of_In.
    unfold can_handle. rewrite has_all_spec. tauto. }
  destruct (max_by_key _ _ _) as [m|].
  - destruct H as ([?|Hin] & Hl & _); [done|]. apply Hf in Hin as (? & ? & ?).
    split_and!; try done. intros r' Hr Hcap Hreq. by apply Hl, Hf.
  - destruct H as [_ Hn]. intros r Hr Hcap Hreq.
    assert (r ∈ List.filter (fun r => has_capacity r && can_handle r w) runners) as Hin
      by (by apply Hf).
    rewrite Hn in Hin. by apply elem_of_nil in Hin.
Qed.
End Work.
