(* ===== verification/Queue.v ===== *)
(** * The work queue

    Models [croniq-runner/src/queue.rs]: pending work items dispatched by
    effective priority and then queue order, with a per-job counter kept in
    lockstep. The eligibility predicate a poll passes is a function of the
    item (the server's reads in-flight counts memoised for the poll). *)

From S2P Require Import Prelude RustStr Chrono RunnerTypes.

Local Open Scope string_scope.
Local Open Scope Z_scope.

Definition PRIORITY_METADATA_KEY : string := "__priority".
Definition PRIORITY_AGING_STEP_SECS : Z := 5 * 60.
Definition MAX_PRIORITY_AGING_STEPS : Z := 288.
Definition CEILING : Z := 2 + MAX_PRIORITY_AGING_STEPS.

Section Queues.
  Context `{J : Json}.

(** [base_priority] *)
Definition base_priority (item : WorkItem) : Z :=
  match get_str (metadata item) PRIORITY_METADATA_KEY with
  | Some p => if String.eqb p "low" then 0 else if String.eqb p "high" then 2 else 1
  | None => 1
  end.

(** [effective_priority] *)
Definition effective_priority (item : WorkItem) (now : instant) : Z :=
  let waited := Z.max 0 (num_seconds (now - fire_at item)) in
  let steps := Z.min (waited / PRIORITY_AGING_STEP_SECS) MAX_PRIORITY_AGING_STEPS in
  base_priority item + steps.

Record WorkQueue := MkQueue {
  items : list WorkItem;
  per_job_count : gmap string nat
}.

(** [WorkQueue::new] *)
Definition queue_new : WorkQueue := MkQueue [] ∅.

(** [WorkQueue::enqueue] *)
Definition enqueue (q : WorkQueue) (item : WorkItem) : WorkQueue * bool :=
  if existsb (fun i => String.eqb (execution_id i) (execution_id item)) (items q) then (q, false)
  else
    let n := default 0%nat (per_job_count q !! wi_job_key item) in
    (MkQueue (items q ++ [item])%list (<[wi_job_key item := S n]> (per_job_count q)), true).

(** [WorkQueue::dec_count] *)
Definition dec_count (counts : gmap string nat) (job_key : string) : gmap string nat :=
  match counts !! job_key with
  | Some count =>
      let count := (count - 1)%nat in
      if (count =? 0)%nat then delete job_key counts else <[job_key := count]> counts
  | None => counts
  end.

(** The scan of [dequeue_for_where_at] from index [i] on. *)
Fixpoint scan_best (now : instant) (caps : list string) (eligible : WorkItem -> bool)
    (l : list WorkItem) (i : nat) (best : option (Z * nat)) : option (Z * nat) :=
  match l with
  | [] => best
  | item :: l' =>
      if negb (has_all caps (require item)) then scan_best now caps eligible l' (S i) best
      else
        let rank := effective_priority item now in
        if match best with Some (best_rank, _) => rank <=? best_rank | None => false end
        then scan_best now caps eligible l' (S i) best
        else if eligible item
             then if rank =? CEILING then Some (rank, i)
                  else scan_best now caps eligible l' (S i) (Some (rank, i))
             else scan_best now caps eligible l' (S i) best
  end.

(** [WorkQueue::dequeue_for_where_at] *)
Definition dequeue_for_where_at (q : WorkQueue) (now : instant) (caps : list string)
    (eligible : WorkItem -> bool) : WorkQueue * option WorkItem :=
  match scan_best now caps eligible (items q) 0 None with
  | Some (_, i) =>
      match items q !! i with
      | Some item =>
          (MkQueue (delete i (items q)) (dec_count (per_job_count q) (wi_job_key item)), Some item)
      | None => (q, None)   (** the source's [expect]; the index was just found *)
      end
  | None => (q, None)
  end.

(** [WorkQueue::dequeue_for], at the clock reading [now]. *)
Definition dequeue_for (q : WorkQueue) (now : instant) (caps : list string)
    : WorkQueue * option WorkItem :=
  dequeue_for_where_at q now caps (fun _ => true).

(** [WorkQueue::dequeue_many_for] *)
Fixpoint dequeue_many_for (q : WorkQueue) (now : instant) (caps : list string) (limit : nat)
    : WorkQueue * list WorkItem :=
  match limit with
  | O => (q, [])
  | S limit' =>
      match dequeue_for_where_at q now caps (fun _ => true) with
      | (q', Some item) =>
          let '(q'', l) := dequeue_many_for q' now caps limit' in (q'', item :: l)
      | (q', None) => (q', [])
      end
  end.

(** [WorkQueue::peek], [peek_n], [len], [is_empty] *)
Definition peek (q : WorkQueue) : option WorkItem := head (items q).
Definition peek_n (q : WorkQueue) (n : nat) : list WorkItem := take n (items q).
Definition len (q : WorkQueue) : nat := length (items q).
Definition is_empty (q : WorkQueue) : bool := match items q with [] => true | _ => false end.

(** [WorkQueue::count_for_job] *)
Definition count_for_job (q : WorkQueue) (job_key : string) : nat :=
  default 0%nat (per_job_count q !! job_key).

(** [WorkQueue::find_for_job] *)
Definition find_for_job (q : WorkQueue) (job_key : string) (pred : WorkItem -> bool)
    : option WorkItem :=
  find (fun item => String.eqb (wi_job_key item) job_key && pred item) (items q).

(** [Iterator::position] of an execution id. *)
Fixpoint position (id : string) (l : list WorkItem) : option nat :=
  match l with
  | [] => None
  | i :: l' => if String.eqb (execution_id i) id then Some 0%nat
               else k ← position id l'; Some (S k)
  end.

(** [WorkQueue::remove] *)
Definition remove (q : WorkQueue) (id : string) : WorkQueue * bool :=
  match position id (items q) with
  | Some idx =>
      match items q !! idx with
      | Some removed =>
          (MkQueue (delete idx (items q)) (dec_count (per_job_count q) (wi_job_key removed)), true)
      | None => (q, false)
      end
  | None => (q, false)
  end.

(** The loop of [remove_job]: the ids removed and the items kept. *)
Fixpoint split_job (job_key : string) (l : list WorkItem) : list string * list WorkItem :=
  match l with
  | [] => ([], [])
  | i :: l' =>
      let '(removed, kept) := split_job job_key l' in
      if String.eqb (wi_job_key i) job_key then (execution_id i :: removed, kept)
      else (removed, i :: kept)
  end.

(** [WorkQueue::remove_job] *)
Definition remove_job (q : WorkQueue) (job_key : string) : WorkQueue * list string :=
  let '(removed, kept) := split_job job_key (items q) in
  (MkQueue kept (match removed with [] => per_job_count q
                 | _ => delete job_key (per_job_count q) end), removed).

(** [WorkQueue::drain] *)
Definition drain (q : WorkQueue) : WorkQueue * list WorkItem := (MkQueue [] ∅, items q).

(** ** The representation invariant

    The queue means the sequence [items]. No execution is queued twice, and the
    counter of a job is the number of its items, absent when there are none. *)

Definition job_count (job_key : string) (l : list WorkItem) : nat :=
  length (filter (fun i => wi_job_key i = job_key) l).

Definition queue_inv (q : WorkQueue) : Prop :=
  NoDup (map execution_id (items q)) /\
  (forall k, per_job_count q !! k
     = match job_count k (items q) with O => None | n => Some n end).

Lemma job_count_app k l l' : job_count k (l ++ l')%list = (job_count k l + job_count k l')%nat.
Proof. unfold job_count. by rewrite filter_app, length_app. Qed.

Lemma job_count_cons k i l :
  job_count k (i :: l) = ((if decide (wi_job_key i = k) then 1 else 0) + job_count k l)%nat.
Proof. unfold job_count. rewrite filter_cons. by case_decide. Qed.

(** Splitting the queue at an index. *)
Lemma delete_split (l : list WorkItem) i x :
  l !! i = Some x -> exists l1 l2, l = (l1 ++ x :: l2)%list /\ delete i l = (l1 ++ l2)%list
                                  /\ length l1 = i.
Proof.
  intros Hi. exists (take i l), (drop (S i) l).
  pose proof (lookup_lt_Some _ _ _ Hi). split_and!.
  - by rewrite take_drop_middle.
  - by rewrite delete_take_drop.
  - rewrite length_take. lia.
Qed.

(** Removing one item and decrementing its job's counter keeps the invariant. *)
Lemma delete_inv q i x :
  queue_inv q -> items q !! i = Some x ->
  queue_inv (MkQueue (delete i (items q)) (dec_count (per_job_count q) (wi_job_key x))).
Proof.
  intros [Hnd Hc] Hi. destruct (delete_split _ _ _ Hi) as (l1 & l2 & Hl & Hd & _).
  unfold queue_inv. cbn [items per_job_count]. rewrite Hd. rewrite Hl in Hnd, Hc. split.
  - rewrite map_app in Hnd |- *. cbn [map] in Hnd.
    rewrite <- Permutation_middle in Hnd. by apply NoDup_cons in Hnd as [_ ?].
  - intros k. unfold dec_count. rewrite (Hc (wi_job_key x)).
    rewrite job_count_app, job_count_cons, decide_True by done.
    specialize (Hc k). rewrite job_count_app, job_count_cons in Hc. rewrite job_count_app.
    replace (job_count (wi_job_key x) l1 + (1 + job_count (wi_job_key x) l2))%nat
      with (S (job_count (wi_job_key x) l1 + job_count (wi_job_key x) l2)) by lia.
    cbv beta iota zeta. rewrite Nat.sub_succ, Nat.sub_0_r. case_decide as Hk.
    + subst k. destruct (Nat.eqb_spec (job_count (wi_job_key x) l1 + job_count (wi_job_key x) l2) 0)
        as [Hz|Hz].
      * by rewrite lookup_delete_eq, Hz.
      * rewrite lookup_insert_eq.
        by destruct (job_count (wi_job_key x) l1 + job_count (wi_job_key x) l2)%nat.
    + case_if; rewrite ?lookup_delete_ne, ?lookup_insert_ne by done; exact Hc.
Qed.

Lemma enqueue_inv q item : queue_inv q -> queue_inv (enqueue q item).1.
Proof.
  intros [Hnd Hc]. unfold enqueue. destruct (existsb _ _) eqn:E; [done|]. cbn [fst].
  assert (execution_id item ∉ map execution_id (items q)) as Hni.
  { intros Hin. apply list_elem_of_In, in_map_iff in Hin as (x & Hx & Hin).
    assert (existsb (fun i => String.eqb (execution_id i) (execution_id item)) (items q) = true)
      as Ht by (apply existsb_exists; exists x; split; [done|by apply String.eqb_eq]).
    congruence. }
  split; cbn [items per_job_count].
  - rewrite map_app. apply NoDup_app. split_and!; [done| |apply NoDup_singleton].
    intros x Hx ->%list_elem_of_singleton. done.
  - intros k. rewrite job_count_app, job_count_cons.
    change (job_count k []) with 0%nat. rewrite Nat.add_0_r. specialize (Hc k).
    case_decide as Hk.
    + subst k. rewrite lookup_insert_eq, Hc.
      destruct (job_count _ _) as [|n]; cbn [default]; [done|].
      replace (S n + 1)%nat with (S (S n)) by lia. done.
    + rewrite lookup_insert_ne by done. by rewrite Nat.add_0_r.
Qed.

(** ** Dispatch order *)

Definition dispatchable (caps : list string) (eligible : WorkItem -> bool) (x : WorkItem) : Prop :=
  has_all caps (require x) = true /\ eligible x = true.

Lemma base_priority_range x : 0 <= base_priority x <= 2.
Proof. unfold base_priority. repeat case_match; lia. Qed.

Lemma effective_priority_range x now : base_priority x <= effective_priority x now <= CEILING.
Proof.
  unfold effective_priority, CEILING, MAX_PRIORITY_AGING_STEPS, PRIORITY_AGING_STEP_SECS.
  pose proof (base_priority_range x). cbv zeta.
  pose proof (Z.div_pos (Z.max 0 (num_seconds (now - fire_at x))) (5 * 60)). lia.
Qed.

(** What the scan of a suffix adds to the best candidate found before it. *)
Definition scan_result (now : instant) (caps : list string) (eligible : WorkItem -> bool)
    (l : list WorkItem) (i : nat) (best res : option (Z * nat)) : Prop :=
  match res with
  | None => best = None /\ forall x, x ∈ l -> ~ dispatchable caps eligible x
  | Some (r, k) =>
      (best = Some (r, k) /\
         forall x, x ∈ l -> dispatchable caps eligible x -> effective_priority x now <= r)
      \/ exists l1 x l2, l = (l1 ++ x :: l2)%list /\ k = (i + length l1)%nat
           /\ dispatchable caps eligible x /\ effective_priority x now = r
           /\ (forall rb b, best = Some (rb, b) -> rb < r)
           /\ (forall y, y ∈ l1 -> dispatchable caps eligible y -> effective_priority y now < r)
           /\ (forall y, y ∈ l2 -> dispatchable caps eligible y -> effective_priority y now <= r)
  end.

Lemma scan_skip now caps eligible x l i best res :
  scan_result now caps eligible l (S i) best res ->
  (dispatchable caps eligible x -> exists rb b, best = Some (rb, b) /\ effective_priority x now <= rb) ->
  scan_result now caps eligible (x :: l) i best res.
Proof.
  unfold scan_result. intros Hres Hx. destruct res as [[r k]|].
  - destruct Hres as [[-> Hl]|(l1 & y & l2 & -> & -> & Hd & Hr & Hb & H1 & H2)].
    + left. split; [done|]. intros y [->|Hy]%elem_of_cons Hd; [|by apply Hl].
      destruct (Hx Hd) as (rb & b & [= <- <-] & ?). done.
    + right. exists (x :: l1), y, l2. cbn [length app]. split_and!; try done; [lia|].
      intros z [->|Hz]%elem_of_cons Hdz; [|by apply H1].
      destruct (Hx Hdz) as (rb & b & Hbest & ?). specialize (Hb _ _ Hbest). lia.
  - destruct Hres as [-> Hl]. split; [done|]. intros y [->|Hy]%elem_of_cons Hd; [|by apply (Hl y)].
    by destruct (Hx Hd) as (? & ? & ? & _).
Qed.

Lemma scan_best_spec now caps eligible l i best :
  scan_result now caps eligible l i best (scan_best now caps eligible l i best).
Proof.
  revert i best. induction l as [|x l IH]; intros i best; cbn [scan_best].
  { destruct best as [[r k]|]; [left|]; split; try done; by intros ? ?%elem_of_nil. }
  destruct (has_all caps (require x)) eqn:Ec; cbn [negb].
  2: { apply scan_skip; [apply IH|]. intros [? _]. congruence. }
  cbv zeta. destruct (match best with Some _ => _ | None => _ end) eqn:Eb.
  { destruct best as [[rb b]|]; [|done]. b2p. apply scan_skip; [apply IH|]. eauto. }
  destruct (eligible x) eqn:Ee.
  2: { apply scan_skip; [apply IH|]. intros [_ ?]. congruence. }
  assert (forall rb b, best = Some (rb, b) -> rb < effective_priority x now) as Hlt.
  { intros rb b ->. by b2p. }
  assert (forall l2, scan_result now caps eligible (x :: l2) i best (Some (effective_priority x now, i))
    <-> forall y, y ∈ l2 -> dispatchable caps eligible y ->
          effective_priority y now <= effective_priority x now) as Hhere.
  { intros l2. split.
    - intros [[Hb _]|(l1 & y & l2' & Hl & Hk & Hd & Hr & _ & H1 & H2)] z Hz Hdz.
      + specialize (Hlt _ _ Hb). lia.
      + destruct l1 as [|w l1]; [|cbn in Hk; lia]. cbn in Hl. injection Hl as <- <-. by apply H2.
    - intros H2. right. exists [], x, l2. split_and!; try done; try (cbn; lia).
      all: by intros ? ?%elem_of_nil. }
  case_if; b2p.
  { apply Hhere. intros y _ _. pose proof (effective_priority_range y now). lia. }
  specialize (IH (S i) (Some (effective_priority x now, i))).
  destruct (scan_best _ _ _ _ _ _) as [[r k]|]; [|by destruct IH].
  destruct IH as [[[= <- <-] Hl]|(l1 & y & l2 & -> & -> & Hd & Hr & Hb & H1 & H2)].
  - by apply Hhere.
  - specialize (Hb _ _ eq_refl). right. exists (x :: l1), y, l2. cbn [length app].
    split_and!; try done; [lia| |].
    + intros rb b Hbest. specialize (Hlt _ _ Hbest). lia.
    + intros z [->|Hz]%elem_of_cons Hdz; [lia|by apply H1].
Qed.

Lemma dequeue_spec q now caps eligible :
  match dequeue_for_where_at q now caps eligible with
  | (q', Some x) => exists l1 l2, items q = (l1 ++ x :: l2)%list /\ items q' = (l1 ++ l2)%list
      /\ per_job_count q' = dec_count (per_job_count q) (wi_job_key x)
      /\ items q !! length l1 = Some x /\ items q' = delete (length l1) (items q)
      /\ dispatchable caps eligible x
      /\ (forall y, y ∈ l1 -> dispatchable caps eligible y ->
            effective_priority y now < effective_priority x now)
      /\ (forall y, y ∈ l2 -> dispatchable caps eligible y ->
            effective_priority y now <= effective_priority x now)
  | (q', None) => q' = q /\ forall y, y ∈ items q -> ~ dispatchable caps eligible y
  end.
Proof.
  unfold dequeue_for_where_at.
  pose proof (scan_best_spec now caps eligible (items q) 0 None) as H.
  destruct (scan_best _ _ _ _ _ _) as [[r k]|].
  - destruct H as [[? _]|(l1 & x & l2 & Hl & -> & Hd & <- & _ & H1 & H2)]; [done|].
    assert (items q !! length l1 = Some x) as Hlk by (rewrite Hl; by apply list_lookup_middle).
    cbn [Nat.add]. rewrite Hlk. exists l1, l2. split_and!; try done. cbn [items].
    by rewrite Hl, delete_middle.
  - destruct H as [_ Hn]. done.
Qed.

(** C35. A dequeue removes exactly the item the documentation promises: among
    the queued items the runner has the capabilities for and the predicate
    accepts, one with the highest effective priority, and the earliest-queued
    of those; every other item keeps its place; nothing is removed only when
    nothing qualifies. *)
Theorem dequeue_is_priority_then_fifo q now caps eligible :
  match dequeue_for_where_at q now caps eligible with
  | (q', Some x) => exists l1 l2, items q = (l1 ++ x :: l2)%list /\ items q' = (l1 ++ l2)%list
      /\ dispatchable caps eligible x
      /\ (forall y, y ∈ l1 -> dispatchable caps eligible y ->
            effective_priority y now < effective_priority x now)
      /\ (forall y, y ∈ l2 -> dispatchable caps eligible y ->
            effective_priority y now <= effective_priority x now)
  | (q', None) => q' = q /\ forall y, y ∈ items q -> ~ dispatchable caps eligible y
  end.
Proof.
  pose proof (dequeue_spec q now caps eligible) as H.
  destruct (dequeue_for_where_at _ _ _ _) as [q' [x|]]; [|done]. naive_solver.
Qed.

(** ** Aging bounds starvation *)

Lemma aging_overtakes x y now :
  fire_at x + seconds (2 * PRIORITY_AGING_STEP_SECS) <= fire_at y ->
  now <= fire_at x + seconds (PRIORITY_AGING_STEP_SECS * MAX_PRIORITY_AGING_STEPS) ->
  fire_at y <= now ->
  effective_priority y now <= effective_priority x now.
Proof.
  unfold effective_priority, num_seconds, seconds, PRIORITY_AGING_STEP_SECS,
    MAX_PRIORITY_AGING_STEPS, NS_SEC. cbv zeta. intros Hxy Hday Hy.
  pose proof (base_priority_range x). pose proof (base_priority_range y).
  rewrite !Z.quot_div_nonneg by lia. Z.div_mod_to_equations. lia.
Qed.

(** C36. Aging bounds starvation: while an eligible item waits in the queue (up
    to the day that aging covers), a dequeue can pass it over for a later-queued
    one only if that one became due less than ten minutes after it, whatever
    the priorities. *)
Theorem overtaking_is_bounded q now caps eligible x y l1 l2 l3 q' :
  items q = (l1 ++ x :: l2 ++ y :: l3)%list ->
  dispatchable caps eligible x ->
  now <= fire_at x + seconds (PRIORITY_AGING_STEP_SECS * MAX_PRIORITY_AGING_STEPS) ->
  dequeue_for_where_at q now caps eligible = (q', Some y) ->
  NoDup (items q) -> fire_at y <= now ->
  fire_at y < fire_at x + seconds (2 * PRIORITY_AGING_STEP_SECS).
Proof.
  intros Hl Hx Hday Hdq Hnd Hy. pose proof (dequeue_spec q now caps eligible) as H.
  rewrite Hdq in H. destruct H as (m1 & m2 & Hm & _ & _ & _ & _ & _ & H1 & _).
  destruct (Z_lt_le_dec (fire_at y) (fire_at x + seconds (2 * PRIORITY_AGING_STEP_SECS)))
    as [|Hge]; [done|exfalso].
  pose proof (aging_overtakes x y now Hge Hday Hy) as Ho.
  assert (m1 = (l1 ++ x :: l2)%list) as ->.
  { rewrite Hl in Hm, Hnd. rewrite app_comm_cons, app_assoc in Hm, Hnd.
    assert ((y ∉ (l1 ++ x :: l2)%list) /\ (y ∉ m1)) as [Hn1 Hn2].
    { split; [|rewrite Hm in Hnd]; apply NoDup_app in Hnd as (_ & Hd & _); intros Hin;
        apply (Hd _ Hin); by left. }
    clear -Hm Hn1 Hn2. revert m1 Hm Hn2 Hn1. generalize (l1 ++ x :: l2)%list as a.
    intros a m1 Hm Hn2 Ha. revert m1 Hm Hn2. induction a as [|c a IH]; intros [|d m] Hm Hn; cbn in Hm; simplify_eq; try done.
    - exfalso. apply Hn. by left.
    - exfalso. apply Ha. by left.
    - f_equal. apply IH; [set_solver|done|set_solver]. }
  specialize (H1 x ltac:(set_solver) Hx). lia.
Qed.

(** ** The counters *)

Lemma split_job_spec k l :
  split_job k l = (map execution_id (filter (fun i => wi_job_key i = k) l),
                   filter (fun i => wi_job_key i <> k) l).
Proof.
  induction l as [|i l IH]; [done|]. cbn [split_job]. rewrite IH, !filter_cons.
  destruct (String.eqb_spec (wi_job_key i) k); repeat case_decide; done.
Qed.

Lemma filter_ids_NoDup k l :
  NoDup (map execution_id l) -> NoDup (map execution_id (filter (fun i => wi_job_key i <> k) l)).
Proof.
  induction l as [|i l IH]; [done|]. cbn [map]. intros [Hni Hnd]%NoDup_cons. rewrite filter_cons.
  case_decide; [|by apply IH]. cbn [map]. apply NoDup_cons. split; [|by apply IH].
  intros Hin. apply Hni. apply list_elem_of_In, in_map_iff in Hin as (x & <- & Hx).
  apply list_elem_of_In, list_elem_of_filter in Hx as [_ Hx].
  apply list_elem_of_In, in_map_iff. exists x. split; [done|by apply list_elem_of_In].
Qed.

Lemma job_count_filter k k' l :
  job_count k' (filter (fun i => wi_job_key i <> k) l)
  = (if decide (k' = k) then 0%nat else job_count k' l).
Proof.
  induction l as [|i l IH]; [by case_decide|]. rewrite filter_cons, (job_count_cons k' i l).
  destruct (decide (wi_job_key i <> k)) as [Hi|Hi]; rewrite ?job_count_cons, IH;
    repeat case_decide; subst; try done; lia.
Qed.

Lemma remove_job_inv q k : queue_inv q -> queue_inv (remove_job q k).1.
Proof.
  intros [Hnd Hc]. unfold remove_job. rewrite split_job_spec. cbn [fst].
  split; cbn [items per_job_count]; [by apply filter_ids_NoDup|].
  intros k'. rewrite job_count_filter. specialize (Hc k').
  destruct (filter (fun i => wi_job_key i = k) (items q)) as [|e es] eqn:E; cbn [map].
  - rewrite Hc. case_decide as Hk; [|done]. subst. unfold job_count. by rewrite E.
  - case_decide as Hk; [subst; by rewrite lookup_delete_eq|by rewrite lookup_delete_ne].
Qed.

Lemma position_lookup id l k : position id l = Some k -> exists x, l !! k = Some x.
Proof.
  revert k. induction l as [|i l IH]; intros k; cbn [position]; [done|].
  case_if; [intros [= <-]; by exists i|].
  destruct (position id l) as [j|]; cbn; [|done]. intros [= <-]. by apply IH.
Qed.

Lemma dequeue_where_inv q now caps e : queue_inv q -> queue_inv (dequeue_for_where_at q now caps e).1.
Proof.
  intros Hq. pose proof (dequeue_spec q now caps e) as H.
  destruct (dequeue_for_where_at q now caps e) as [q' [x|]]; cbn [fst]; [|by destruct H as [-> _]].
  destruct H as (l1 & l2 & _ & _ & Hc & Hi & Hd & _). destruct q' as [its cnt]. cbn in *. subst.
  by apply delete_inv.
Qed.

#[local] Hint Resolve enqueue_inv dequeue_where_inv remove_job_inv : croniq.

(** One call of a mutating method. *)
Inductive queue_step : WorkQueue -> WorkQueue -> Prop :=
| qstep_enqueue q item : queue_step q (enqueue q item).1
| qstep_dequeue q now caps e : queue_step q (dequeue_for_where_at q now caps e).1
| qstep_many q now caps limit : queue_step q (dequeue_many_for q now caps limit).1
| qstep_remove q id : queue_step q (remove q id).1
| qstep_remove_job q k : queue_step q (remove_job q k).1
| qstep_drain q : queue_step q (drain q).1.

Lemma queue_step_inv q q' : queue_inv q -> queue_step q q' -> queue_inv q'.
Proof.
  intros Hq Hs. destruct Hs as [q item|q now caps e|q now caps limit|q id|q k|q].
  - auto with croniq.
  - auto with croniq.
  - revert q Hq. induction limit as [|n IH]; intros q Hq; cbn [dequeue_many_for]; [done|].
    pose proof (dequeue_where_inv q now caps (fun _ => true) Hq) as H1.
    destruct (dequeue_for_where_at q now caps (fun _ => true)) as [q' [x|]]; [|done].
    specialize (IH q' H1). by destruct (dequeue_many_for q' now caps n).
  - unfold remove. destruct (position id (items q)) as [k|] eqn:E; [|done].
    destruct (position_lookup _ _ _ E) as [x Hx]. rewrite Hx. by apply delete_inv.
  - auto with croniq.
  - split; [constructor|]. intros k. exact (lookup_empty k).
Qed.

Lemma count_for_job_exact q k : queue_inv q -> count_for_job q k = job_count k (items q).
Proof.
  intros [_ Hc]. unfold count_for_job. rewrite Hc. by destruct (job_count k (items q)).
Qed.

Lemma enqueue_fresh q item :
  execution_id item ∉ map execution_id (items q) ->
  items (enqueue q item).1 = (items q ++ [item])%list.
Proof.
  intros Hni. unfold enqueue. destruct (existsb _ _) eqn:E; [|done].
  apply existsb_exists in E as (x & Hx & Heq%String.eqb_eq). destruct Hni.
  rewrite <- Heq. by apply list_elem_of_In, in_map.
Qed.

Lemma remove_job_items q k :
  items (remove_job q k).1 = filter (fun i => wi_job_key i <> k) (items q).
Proof. unfold remove_job. by rewrite split_job_spec. Qed.

(** After any sequence of queue operations no execution is queued twice,
    and the constant-time counter the scheduler reads for a job is the number
    of that job's queued items. *)
Theorem queue_counts_are_exact q :
  rtc queue_step queue_new q ->
  NoDup (map execution_id (items q)) /\
  (forall k, count_for_job q k = length (filter (fun i => wi_job_key i = k) (items q))).
Proof.
  intros Hr. assert (queue_inv q) as [Hnd Hc].
  { assert (queue_inv queue_new) as H0.
    { split; [constructor|]. intros k. exact (lookup_empty k). }
    revert H0. induction Hr as [|? ? ? Hs _ IH]; [done|]. intros H0. apply IH.
    by eapply queue_step_inv. }
  split; [done|]. intros k. by apply count_for_job_exact.
Qed.
End Queues.

#[export] Hint Resolve enqueue_inv dequeue_where_inv remove_job_inv : croniq.

Definition demo_item (id job : string) (fire : instant) (prio : string) : WorkItem := {|
  execution_id := id; wi_job_key := job; fire_at := fire; scheduled_for := fire; attempt := 1;
  require := ["gpu"]; prefer := []; metadata := ({["__priority" := prio]} : gmap string string);
  timeout := "5m"; is_ephemeral := false
|}.
Definition demo_low : WorkItem := demo_item "e1" "etl:nightly" 0 "low".
Definition demo_high : WorkItem := demo_item "e2" "web:hook" (seconds 60) "high".
Definition demo_queue : WorkQueue := (enqueue (enqueue queue_new demo_low).1 demo_high).1.

Lemma demo_queue_items : items demo_queue = [demo_low; demo_high].
Proof. reflexivity. Qed.

(** A minute apart the high-priority item goes first. *)
Lemma overtaking_is_bounded_witness :
  fire_at demo_high < fire_at demo_low + seconds (2 * PRIORITY_AGING_STEP_SECS).
Proof.
  apply (overtaking_is_bounded demo_queue (seconds 90) ["gpu"] (fun _ => true)
    demo_low demo_high [] [] [] (dequeue_for_where_at demo_queue (seconds 90) ["gpu"] (fun _ => true)).1).
  - reflexivity.
  - split; reflexivity.
  - vm_compute. congruence.
  - reflexivity.
  - rewrite demo_queue_items. apply NoDup_cons. split; [|apply NoDup_singleton].
    intros H%list_elem_of_singleton. discriminate H.
  - vm_compute. congruence.
Defined.

Lemma queue_counts_are_exact_witness :
  count_for_job demo_queue "web:hook" = 1%nat /\
  NoDup (map execution_id (items demo_queue)).
Proof.
  split; [reflexivity|].
  apply (queue_counts_are_exact demo_queue).
  eapply rtc_l; [apply (qstep_enqueue queue_new demo_low)|].
  eapply rtc_l; [apply (qstep_enqueue _ demo_high)|]. apply rtc_refl.
Defined.
