(* ===== verification/Registry.v ===== *)
(** * The runner registry

    Models [croniq-runner/src/registry.rs]: registration and heartbeats, the
    instance guard with its fence against the deposed instance, the flapping
    signal, and in-flight bookkeeping. The clock readings [Utc::now()] are
    arguments; maps are [gmap]s, whose iteration order the source does not
    fix either. *)

From S2P Require Import Prelude RustStr Chrono RunnerTypes.

Local Open Scope Z_scope.

Definition DEFAULT_DEAD_THRESHOLD_SECS : Z := 120.
Definition FLAP_WINDOW_SECS : Z := 600.
Definition FLAP_THRESHOLD : nat := 3.

Inductive RegisterOutcome :=
| RegNew
| RegUpdated
| RegTookOver (previous_instance_id : string).
#[export] Instance RegisterOutcome_eq_dec : EqDecision RegisterOutcome.
Proof. solve_decision. Defined.

Record RunnerRegistry := MkRegistry {
  runners : gmap string Runner;
  takeover_history : gmap string (list instant);
  last_flap_signal : gmap string instant
}.

Definition registry_new : RunnerRegistry := MkRegistry ∅ ∅ ∅.
Definition set_runners (r : gmap string Runner) (reg : RunnerRegistry) : RunnerRegistry :=
  MkRegistry r (takeover_history reg) (last_flap_signal reg).

(** The instance guard at the head of [register_or_update]: no conflict, a
    takeover from the named instance, or the fence. *)
Inductive Guard := GuardPass | GuardTakeOver (old : string) | GuardFenced (holder : string).

Definition instance_guard (existing : option Runner) (new_instance : option string) : Guard :=
  match new_instance, existing with
  | Some new_iid, Some r =>
      match instance_id r with
      | Some old_iid =>
          if String.eqb old_iid new_iid then GuardPass
          else if bool_decide (deposed_instance_id r = Some new_iid) then GuardFenced old_iid
          else GuardTakeOver old_iid
      | None => GuardPass
      end
  | _, _ => GuardPass
  end.

(** [RunnerRegistry::register_or_update] *)
Definition register_or_update (reg : RunnerRegistry) (now : instant) (id : string)
    (caps : list string) (max : Z) (infl : list string) (iid : option string)
    (tgs : list string) : RunnerRegistry * result RegisterOutcome string :=
  let existing := runners reg !! id in
  match instance_guard existing iid with
  | GuardFenced old => (reg, Err old)
  | guard =>
      let took_over := match guard with GuardTakeOver old => Some old | _ => None end in
      (** [self.runners.remove(&id)] on a takeover *)
      let existing := match took_over with Some _ => None | None => existing end in
      let outcome := match took_over, existing with
                     | Some prev, _ => RegTookOver prev
                     | None, Some _ => RegUpdated
                     | None, None => RegNew
                     end in
      let entry := match existing with
                   | Some r => r
                   | None => {| runner_id := id; capabilities := caps; max_inflight := max;
                                last_poll_at := now; inflight := infl; instance_id := iid;
                                deposed_instance_id := None; tags := tgs |}
                   end in
      let runner := {|
        runner_id := runner_id entry; capabilities := caps; max_inflight := max;
        last_poll_at := now; inflight := infl;
        instance_id := match iid with Some _ => iid | None => instance_id entry end;
        deposed_instance_id := match took_over with
                               | Some _ => took_over | None => deposed_instance_id entry end;
        tags := tgs |} in
      (set_runners (<[id := runner]> (runners reg)) reg, Ok outcome)
  end.

(** [while history.front() < window_start { pop_front }] *)
Fixpoint prune (window_start : instant) (history : list instant) : list instant :=
  match history with
  | t :: rest => if t <? window_start then prune window_start rest else history
  | [] => []
  end.

(** [RunnerRegistry::record_takeover] *)
Definition record_takeover (reg : RunnerRegistry) (id : string) (now : instant)
    : RunnerRegistry * bool :=
  let window_start := now - seconds FLAP_WINDOW_SECS in
  let history := prune window_start (default [] (takeover_history reg !! id) ++ [now]) in
  let reg := MkRegistry (runners reg) (<[id := history]> (takeover_history reg))
                        (last_flap_signal reg) in
  if (length history <? FLAP_THRESHOLD)%nat then (reg, false)
  else
    let throttled := match last_flap_signal reg !! id with
                     | Some last => window_start <=? last
                     | None => false
                     end in
    if throttled then (reg, false)
    else (MkRegistry (runners reg) (takeover_history reg)
                     (<[id := now]> (last_flap_signal reg)), true).

(** [remove], [get] *)
Definition registry_remove (reg : RunnerRegistry) (id : string) : RunnerRegistry * option Runner :=
  (set_runners (delete id (runners reg)) reg, runners reg !! id).
Definition registry_get (reg : RunnerRegistry) (id : string) : option Runner := runners reg !! id.

Definition all_runners (reg : RunnerRegistry) : list Runner := (map_to_list (runners reg)).*2.

(** [total_inflight] *)
Definition total_inflight (reg : RunnerRegistry) : nat :=
  sum_list_with (fun r => length (inflight r)) (all_runners reg).

(** [by_status_with_ttl] *)
Definition by_status_with_ttl (reg : RunnerRegistry) (status : RunnerStatus) (now : instant)
    (ttl : Z) : list Runner :=
  filter (fun r => status_at_with_ttl r now ttl = status) (all_runners reg).

Definition set_inflight (l : list string) (r : Runner) : Runner := {|
  runner_id := runner_id r; capabilities := capabilities r; max_inflight := max_inflight r;
  last_poll_at := last_poll_at r; inflight := l; instance_id := instance_id r;
  deposed_instance_id := deposed_instance_id r; tags := tags r |}.

(** [RunnerRegistry::claim] *)
Definition claim (reg : RunnerRegistry) (id exec : string) : RunnerRegistry * bool :=
  match runners reg !! id with
  | Some r => (set_runners (<[id := set_inflight (inflight r ++ [exec]) r]> (runners reg)) reg, true)
  | None => (reg, false)
  end.

(** [RunnerRegistry::release] *)
Definition release (reg : RunnerRegistry) (id exec : string) : RunnerRegistry * bool :=
  match runners reg !! id with
  | Some r =>
      let l := List.filter (fun x => negb (String.eqb x exec)) (inflight r) in
      (set_runners (<[id := set_inflight l r]> (runners reg)) reg,
       (length l <? length (inflight r))%nat)
  | None => (reg, false)
  end.

(** ** Two processes under one runner id *)

(** A poll as the registry sees it. *)
Record Poll := {
  p_now : instant; p_caps : list string; p_max : Z; p_inflight : list string;
  p_instance : string; p_tags : list string
}.
Definition register_poll (reg : RunnerRegistry) (id : string) (p : Poll)
    : RunnerRegistry * result RegisterOutcome string :=
  register_or_update reg (p_now p) id (p_caps p) (p_max p) (p_inflight p)
    (Some (p_instance p)) (p_tags p).

(** The outcomes of a sequence of polls. *)
Fixpoint run_polls (reg : RunnerRegistry) (id : string) (ps : list Poll)
    : list (string * result RegisterOutcome string) :=
  match ps with
  | [] => []
  | p :: ps =>
      let '(reg', o) := register_poll reg id p in
      (p_instance p, o) :: run_polls reg' id ps
  end.

(** After a poll of instance [i] the id is held by [i] and fences [f]. *)
Definition held_by (reg : RunnerRegistry) (id i : string) (f : option string) : Prop :=
  exists r, runners reg !! id = Some r /\ instance_id r = Some i /\ deposed_instance_id r = f.

Lemma register_poll_held reg id p i f :
  held_by reg id i f ->
  (p_instance p = i ->
     (register_poll reg id p).2 = Ok RegUpdated /\ held_by (register_poll reg id p).1 id i f)
  /\ (p_instance p <> i -> f = Some (p_instance p) ->
     register_poll reg id p = (reg, Err i))
  /\ (p_instance p <> i -> f <> Some (p_instance p) ->
     (register_poll reg id p).2 = Ok (RegTookOver i)
     /\ held_by (register_poll reg id p).1 id (p_instance p) (Some i)).
Proof.
  intros (r & Hr & Hi & Hf). unfold register_poll, register_or_update, instance_guard.
  rewrite Hr, Hi, Hf. cbv zeta. split_and!.
  - intros ->. rewrite String.eqb_refl. split; [done|]. eexists. cbn [set_runners runners fst].
    rewrite lookup_insert_eq. by split_and!.
  - intros Hne ->. destruct (String.eqb_spec i (p_instance p)); [congruence|].
    by rewrite bool_decide_true.
  - intros Hne Hnf. destruct (String.eqb_spec i (p_instance p)); [congruence|].
    rewrite bool_decide_false by done. split; [done|]. eexists.
    cbn [set_runners runners fst]. rewrite lookup_insert_eq. by split_and!.
Qed.

Lemma converged_polls reg id a b ps :
  a <> b -> held_by reg id b (Some a) -> Forall (fun p => p_instance p = a \/ p_instance p = b) ps ->
  run_polls reg id ps
  = map (fun p => (p_instance p, if String.eqb (p_instance p) b then Ok RegUpdated else Err b)) ps.
Proof.
  intros Hab Hh Hps. revert reg Hh. induction Hps as [|p ps Hp _ IH]; intros reg Hh; [done|].
  cbn [run_polls map]. destruct (register_poll_held reg id p b (Some a) Hh) as (H1 & H2 & _).
  destruct (String.eqb_spec (p_instance p) b) as [Eb|Eb].
  - destruct (H1 Eb) as [Ho Hh']. destruct (register_poll reg id p) as [reg' o]. cbn in *. subst o.
    f_equal. by apply IH.
  - assert (p_instance p = a) as Ea by (by destruct Hp).
    rewrite (H2 Eb) by (by rewrite Ea). f_equal. by apply IH.
Qed.

(** Two live processes sharing one runner id converge to one winner: once
    the second has taken the id over from the first, every further poll of the
    first, in any interleaving, is refused with a conflict naming the second,
    every poll of the second is a plain update, and the id never changes hands
    again. *)
Theorem duplicate_instances_converge reg id a b p0 p1 ps :
  a <> b -> runners reg !! id = None -> p_instance p0 = a -> p_instance p1 = b ->
  Forall (fun p => p_instance p = a \/ p_instance p = b) ps ->
  run_polls reg id (p0 :: p1 :: ps)
  = (a, Ok RegNew) :: (b, Ok (RegTookOver a)) ::
    map (fun p => (p_instance p, if String.eqb (p_instance p) b then Ok RegUpdated else Err b)) ps.
Proof.
  intros Hab Hnone H0 H1 Hps. cbn [run_polls].
  assert ((register_poll reg id p0).2 = Ok RegNew /\ held_by (register_poll reg id p0).1 id a None)
    as [Ho Hh].
  { unfold register_poll, register_or_update, instance_guard. rewrite Hnone, H0. cbv zeta.
    split; [done|]. eexists. cbn [set_runners runners fst]. rewrite lookup_insert_eq. by split_and!. }
  destruct (register_poll reg id p0) as [reg1 o0]. cbn in Ho, Hh. subst o0.
  destruct (register_poll_held reg1 id p1 a None Hh) as (_ & _ & H3).
  destruct (H3 ltac:(congruence) ltac:(done)) as [Ho1 Hh1].
  destruct (register_poll reg1 id p1) as [reg2 o1]. cbn in Ho1, Hh1. subst o1.
  rewrite H0, H1 in *. by rewrite (converged_polls reg2 id a b).
Qed.

(** ** The flapping signal *)

(** The takeovers of one id, in time order, with the signal each returned. *)
Definition takeover_step (id : string) (acc : RunnerRegistry * list (instant * bool))
    (now : instant) : RunnerRegistry * list (instant * bool) :=
  let '(reg', s) := record_takeover acc.1 id now in (reg', acc.2 ++ [(now, s)]).
Definition run_takeovers (reg : RunnerRegistry) (id : string) (nows : list instant)
    : RunnerRegistry * list (instant * bool) :=
  fold_left (takeover_step id) nows (reg, []).

Definition in_window (now t : instant) : Prop := now - seconds FLAP_WINDOW_SECS <= t.

Lemma filter_all {A} (P : A -> Prop) `{forall x, Decision (P x)} l : Forall P l -> filter P l = l.
Proof. induction 1; [done|]. rewrite filter_cons_True by done. by f_equal. Qed.

Lemma prune_filter start l :
  StronglySorted Z.le l -> prune start l = filter (fun t => start <= t) l.
Proof.
  induction l as [|t l IH]; intros Hs; [done|]. cbn [prune].
  inversion_clear Hs as [|? ? Hs' Hall]. case_if; b2p.
  - rewrite filter_cons_False by lia. by apply IH.
  - rewrite filter_all; [done|]. constructor; [done|].
    eapply Forall_impl; [exact Hall|]. simpl. lia.
Qed.

Lemma sorted_filter (P : Z -> Prop) `{forall x, Decision (P x)} l :
  StronglySorted Z.le l -> StronglySorted Z.le (filter P l).
Proof.
  induction 1 as [|t l Hs IH Hall]; [constructor|]. rewrite filter_cons. case_decide; [|done].
  constructor; [done|]. apply Forall_forall. intros x [_ Hx]%list_elem_of_filter.
  rewrite Forall_forall in Hall. by apply Hall.
Qed.

Lemma sorted_snoc l x :
  StronglySorted Z.le l -> Forall (fun t => t <= x) l -> StronglySorted Z.le (l ++ [x]).
Proof.
  induction 1 as [|t l Hs IH Hall]; intros Hx; [repeat constructor|]. cbn.
  inversion_clear Hx. constructor; [by apply IH|]. apply Forall_app. split; [done|]. by constructor.
Qed.

(** Narrowing a window. *)
Lemma filter_window a b (l : list Z) : a <= b ->
  filter (fun t => b <= t) (filter (fun t => a <= t) l) = filter (fun t : Z => b <= t) l.
Proof.
  intros Hab. rewrite list_filter_filter. apply list_filter_iff. intros x. split; [tauto|lia].
Qed.

(** After the takeovers [nows]: the kept history is what was inside the window
    of the last one, and the stored signal is the latest one given. *)
Definition flap_state (id : string) (nows : list instant)
    (acc : RunnerRegistry * list (instant * bool)) : Prop :=
  (nows = [] /\ default [] (takeover_history acc.1 !! id) = []
   \/ exists m, m ∈ nows /\ default [] (takeover_history acc.1 !! id)
                            = filter (fun t => m - seconds FLAP_WINDOW_SECS <= t) nows)
  /\ map fst acc.2 = nows
  /\ match last_flap_signal acc.1 !! id with
     | Some l => (l, true) ∈ acc.2 /\ forall s, (s, true) ∈ acc.2 -> s <= l
     | None => forall s, (s, true) ∉ acc.2
     end.

(** Whether a takeover at [now] following [nows] must be signalled. *)
Definition must_signal (nows : list instant) (out : list (instant * bool)) (now : instant) : Prop :=
  (FLAP_THRESHOLD <= length (filter (fun t => now - seconds FLAP_WINDOW_SECS <= t)%Z
                        (nows ++ [now])))%nat
  /\ forall s, (s, true) ∈ out -> s < now - seconds FLAP_WINDOW_SECS.

(** The kept history after a takeover at [now]. *)
Lemma prune_window (h nows : list instant) now :
  (nows = [] /\ h = [] \/
   exists m, m ∈ nows /\ h = filter (fun t => m - seconds FLAP_WINDOW_SECS <= t) nows) ->
  StronglySorted Z.le nows -> Forall (fun t => t <= now) nows ->
  prune (now - seconds FLAP_WINDOW_SECS) (h ++ [now])
  = filter (fun t => now - seconds FLAP_WINDOW_SECS <= t) (nows ++ [now]).
Proof.
  intros Hh Hsort Hle. rewrite Forall_forall in Hle. rewrite prune_filter.
  - rewrite !filter_app. f_equal. destruct Hh as [[-> ->]|(m & Hm & ->)]; [done|].
    apply filter_window. specialize (Hle m Hm). lia.
  - apply sorted_snoc; destruct Hh as [[-> ->]|(m & Hm & ->)]; try (by constructor).
    + by apply sorted_filter.
    + apply Forall_forall. intros x [_ Hx]%list_elem_of_filter. by apply Hle.
Qed.

(** The latest-signal part of the state. *)
Definition latest_signal (last : option instant) (out : list (instant * bool)) : Prop :=
  match last with
  | Some l => (l, true) ∈ out /\ forall s, (s, true) ∈ out -> s <= l
  | None => forall s, (s, true) ∉ out
  end.

Lemma latest_signal_quiet last out now :
  latest_signal last out -> latest_signal last (out ++ [(now, false)]).
Proof.
  intros Hsig. assert (forall s, (s, true) ∈ out ++ [(now, false)] -> (s, true) ∈ out) as Hs.
  { intros s [?|Hin]%elem_of_app; [done|]. apply list_elem_of_singleton in Hin. congruence. }
  destruct last as [l|]; cbn in *.
  - destruct Hsig as [Hl Hmax]. split; [set_solver|]. intros s Hin. by apply Hmax, Hs.
  - intros s Hin. by apply (Hsig s), Hs.
Qed.

Lemma latest_signal_fresh last (out : list (instant * bool)) now :
  Forall (fun t => t <= now) (map fst out) -> latest_signal last out ->
  latest_signal (Some now) (out ++ [(now, true)]).
Proof.
  intros Hle _. rewrite Forall_forall in Hle. split; [set_solver|].
  intros s [Hin|Hin]%elem_of_app.
  - apply Hle. apply list_elem_of_In, in_map_iff. exists (s, true).
    split; [done|by apply list_elem_of_In].
  - apply list_elem_of_singleton in Hin. injection Hin as ->. lia.
Qed.

Lemma takeover_step_spec id nows acc now :
  flap_state id nows acc -> StronglySorted Z.le nows -> Forall (fun t => t <= now) nows ->
  flap_state id (nows ++ [now]) (takeover_step id acc now)
  /\ exists b, (takeover_step id acc now).2 = acc.2 ++ [(now, b)]
              /\ (b = true <-> must_signal nows acc.2 now).
Proof.
  intros (Hh & Hout & Hsig) Hsort Hle. destruct acc as [reg out]. cbn [fst snd] in *.
  unfold takeover_step, record_takeover, must_signal, flap_state. cbv zeta. cbn [fst snd].
  rewrite (prune_window _ _ _ Hh Hsort Hle). cbn [last_flap_signal takeover_history].
  set (hist := filter _ (nows ++ [now])).
  assert (exists m, m ∈ nows ++ [now] /\ default [] (Some hist)
    = filter (fun t => m - seconds FLAP_WINDOW_SECS <= t) (nows ++ [now])) as Hhist.
  { exists now. split; [set_solver|done]. }
  destruct (Nat.ltb_spec (length hist) FLAP_THRESHOLD) as [Hlt|Hge]; cbn [fst snd
    last_flap_signal takeover_history]; [|destruct (match last_flap_signal reg !! id with Some l => _
      | None => _ end) eqn:Et; cbn [fst snd last_flap_signal takeover_history]];
    rewrite ?lookup_insert_eq, map_app, Hout; (split;
      [split; [by right|split; [done|]]|eexists; split; [done|split; try done]]).
  - by apply latest_signal_quiet.
  - intros [? _]. lia.
  - by apply latest_signal_quiet.
  - destruct (last_flap_signal reg !! id) as [l|]; [|done]. b2p. intros [_ Hs].
    destruct Hsig as [Hl _]. specialize (Hs l Hl). lia.
  - eapply latest_signal_fresh; [by rewrite Hout|done].
  - intros _. split; [done|]. intros s Hs. destruct (last_flap_signal reg !! id) as [l|].
    + b2p. destruct Hsig as [_ Hmax]. specialize (Hmax s Hs). lia.
    + by destruct (Hsig s).
Qed.

Lemma run_takeovers_state reg id nows :
  takeover_history reg !! id = None -> last_flap_signal reg !! id = None ->
  StronglySorted Z.le nows -> flap_state id nows (run_takeovers reg id nows).
Proof.
  intros Hh Hl. induction nows as [|now nows IH] using rev_ind; intros Hs.
  - unfold run_takeovers, flap_state. cbn [fold_left fst snd]. rewrite Hh, Hl.
    split_and!; [by left|done|]. by intros s ?%elem_of_nil.
  - unfold run_takeovers. rewrite fold_left_app. cbn [fold_left].
    apply StronglySorted_app in Hs as (Hle & Hs & _).
    apply takeover_step_spec; [by apply IH|done|].
    apply Forall_forall. intros t Ht. apply Hle; [done|]. by left.
Qed.

(** The flapping signal is exact: among takeovers of one runner id in time
    order, one is signalled exactly when it is at least the third within the
    last ten minutes and no signal was given in those ten minutes. *)
Theorem flapping_signal_exact reg id nows now :
  takeover_history reg !! id = None -> last_flap_signal reg !! id = None ->
  StronglySorted Z.le (nows ++ [now]) ->
  exists b, (run_takeovers reg id (nows ++ [now])).2
            = (run_takeovers reg id nows).2 ++ [(now, b)]
    /\ (b = true <-> must_signal nows (run_takeovers reg id nows).2 now).
Proof.
  intros Hh Hl Hs. unfold run_takeovers at 1. rewrite fold_left_app. cbn [fold_left].
  apply StronglySorted_app in Hs as (Hle & Hs & _).
  apply takeover_step_spec; [by apply run_takeovers_state|done|].
  apply Forall_forall. intros t Ht. apply Hle; [done|]. by left.
Qed.

Definition demo_poll (i : string) : Poll :=
  {| p_now := 0; p_caps := []; p_max := 1; p_inflight := []; p_instance := i; p_tags := [] |}.

Lemma duplicate_instances_converge_witness :
  run_polls registry_new "r1" [demo_poll "A"; demo_poll "B"; demo_poll "A"; demo_poll "B"; demo_poll "A"]
  = [("A", Ok RegNew); ("B", Ok (RegTookOver "A")); ("A", Err "B"); ("B", Ok RegUpdated);
     ("A", Err "B")]%string.
Proof.
  apply (duplicate_instances_converge registry_new "r1" "A" "B" (demo_poll "A") (demo_poll "B")
    [demo_poll "A"; demo_poll "B"; demo_poll "A"]).
  - discriminate.
  - reflexivity.
  - reflexivity.
  - reflexivity.
  - repeat apply Forall_cons_2; [left|right|left|constructor]; reflexivity.
Defined.

(** The fence remembers one instance only: three processes keep taking the id
    over from each other. *)
Lemma three_instances_keep_flapping :
  run_polls registry_new "r1"
    [demo_poll "A"; demo_poll "B"; demo_poll "C"; demo_poll "A"; demo_poll "B"; demo_poll "C"]
  = [("A", Ok RegNew); ("B", Ok (RegTookOver "A")); ("C", Ok (RegTookOver "B"));
     ("A", Ok (RegTookOver "C")); ("B", Ok (RegTookOver "A")); ("C", Ok (RegTookOver "B"))]%string.
Proof. reflexivity. Qed.

Lemma flapping_signal_exact_witness :
  (run_takeovers registry_new "r1" [0; seconds 10; seconds 20; seconds 30]).2
    = [(0, false); (seconds 10, false); (seconds 20, true); (seconds 30, false)]
  /\ exists b, (run_takeovers registry_new "r1" ([0; seconds 10] ++ [seconds 20])).2
       = (run_takeovers registry_new "r1" [0; seconds 10]).2 ++ [(seconds 20, b)]
     /\ (b = true <-> must_signal [0; seconds 10]
           (run_takeovers registry_new "r1" [0; seconds 10]).2 (seconds 20)).
Proof.
  split; [vm_compute; reflexivity|].
  apply (flapping_signal_exact registry_new "r1" [0; seconds 10] (seconds 20));
    [reflexivity|reflexivity|].
  repeat constructor; vm_compute; congruence.
Defined.
