(* ===== verification/RunnerApi.v ===== *)
(** * The shared runner state and the pull API

    Models [croniq-runner/src/api.rs]: the state shared by the handlers, the
    cancel queues, the tracking of non-persisted executions, the per-execution
    leases, and the handlers [handle_poll], [handle_complete] and
    [handle_health]. Each method runs under the locks it takes; a handler is
    the sequence of its critical sections, with the clock reading and the
    request as arguments. *)

From S2P Require Import Prelude RustStr Chrono RunnerTypes Queue Registry.

Local Open Scope Z_scope.

Record LeaseRenewal := { lr_runner_id : string; renewed_at : instant }.

Record EphemeralTally := { et_fired : Z; et_dispatched : Z; et_dropped : Z; et_superseded : Z }.
Definition tally_zero : EphemeralTally :=
  {| et_fired := 0; et_dispatched := 0; et_dropped := 0; et_superseded := 0 |}.

Inductive TallyField := TFired | TDispatched | TDropped | TSuperseded.

Definition tally_add (f : TallyField) (n : Z) (t : EphemeralTally) : EphemeralTally :=
  match f with
  | TFired => {| et_fired := wrap_u64 (et_fired t + n); et_dispatched := et_dispatched t;
                 et_dropped := et_dropped t; et_superseded := et_superseded t |}
  | TDispatched => {| et_fired := et_fired t; et_dispatched := wrap_u64 (et_dispatched t + n);
                      et_dropped := et_dropped t; et_superseded := et_superseded t |}
  | TDropped => {| et_fired := et_fired t; et_dispatched := et_dispatched t;
                   et_dropped := wrap_u64 (et_dropped t + n); et_superseded := et_superseded t |}
  | TSuperseded => {| et_fired := et_fired t; et_dispatched := et_dispatched t;
                      et_dropped := et_dropped t; et_superseded := wrap_u64 (et_superseded t + n) |}
  end.

Section Api.
  Context `{J : Json}.

Record AppState := MkApp {
  registry : RunnerRegistry;
  queue : WorkQueue;
  lease_ttl_secs : Z;
  cancel_queues : gmap string (list string);
  ephemeral_inflight : gmap string instant;
  lease_renewals : gmap string LeaseRenewal;
  ephemeral_stats : gmap string EphemeralTally;
  started_at : instant;
  restart_reconciled : gset string
}.

(** [AppState::with_lease_ttl], [AppState::new]. *)
Definition with_lease_ttl (now : instant) (ttl : Z) : AppState :=
  MkApp registry_new queue_new ttl ∅ ∅ ∅ ∅ now ∅.
Definition app_new (now : instant) : AppState := with_lease_ttl now 120.

Definition set_registry (r : RunnerRegistry) (s : AppState) : AppState :=
  MkApp r (queue s) (lease_ttl_secs s) (cancel_queues s)
    (ephemeral_inflight s) (lease_renewals s) (ephemeral_stats s) (started_at s) (restart_reconciled s).
Definition set_queue (q : WorkQueue) (s : AppState) : AppState :=
  MkApp (registry s) q (lease_ttl_secs s) (cancel_queues s)
    (ephemeral_inflight s) (lease_renewals s) (ephemeral_stats s) (started_at s) (restart_reconciled s).
Definition set_cancels (c : gmap string (list string)) (s : AppState) : AppState :=
  MkApp (registry s) (queue s) (lease_ttl_secs s) c
    (ephemeral_inflight s) (lease_renewals s) (ephemeral_stats s) (started_at s) (restart_reconciled s).
Definition set_ephemeral (e : gmap string instant) (s : AppState) : AppState :=
  MkApp (registry s) (queue s) (lease_ttl_secs s) (cancel_queues s)
    e (lease_renewals s) (ephemeral_stats s) (started_at s) (restart_reconciled s).
Definition set_leases (l : gmap string LeaseRenewal) (s : AppState) : AppState :=
  MkApp (registry s) (queue s) (lease_ttl_secs s) (cancel_queues s)
    (ephemeral_inflight s) l (ephemeral_stats s) (started_at s) (restart_reconciled s).
Definition set_stats (t : gmap string EphemeralTally) (s : AppState) : AppState :=
  MkApp (registry s) (queue s) (lease_ttl_secs s) (cancel_queues s)
    (ephemeral_inflight s) (lease_renewals s) t (started_at s) (restart_reconciled s).
Definition set_reconciled (c : gset string) (s : AppState) : AppState :=
  MkApp (registry s) (queue s) (lease_ttl_secs s) (cancel_queues s)
    (ephemeral_inflight s) (lease_renewals s) (ephemeral_stats s) (started_at s) c.

(** [push_cancel] *)
Definition push_cancel (s : AppState) (rid eid : string) : AppState :=
  let entry := default [] (cancel_queues s !! rid) in
  let entry := if existsb (fun id => String.eqb id eid) entry then entry else entry ++ [eid] in
  set_cancels (<[rid := entry]> (cancel_queues s)) s.

(** [drain_cancels] *)
Definition drain_cancels (s : AppState) (rid : string) : AppState * list string :=
  (set_cancels (delete rid (cancel_queues s)) s, default [] (cancel_queues s !! rid)).

(** [record_ephemeral] *)
Definition record_ephemeral (s : AppState) (eid : string) (now max_age : Z) : AppState :=
  let m := filter (fun kv => now - kv.2 < max_age) (ephemeral_inflight s) in
  set_ephemeral (<[eid := now]> m) s.

(** [take_ephemeral] *)
Definition take_ephemeral (s : AppState) (eid : string) : AppState * bool :=
  (set_ephemeral (delete eid (ephemeral_inflight s)) s,
   bool_decide (is_Some (ephemeral_inflight s !! eid))).

(** [forget_ephemeral] *)
Definition forget_ephemeral (s : AppState) (ids : list string) : AppState :=
  match ids with
  | [] => s
  | _ => set_ephemeral (fold_left (fun m id => delete id m) ids (ephemeral_inflight s)) s
  end.

(** [bump_ephemeral]; [record_ephemeral_fired], [_dispatched], [_dropped] and
    [_superseded] are its four fields. *)
Definition bump_ephemeral (s : AppState) (job_key : string) (count : Z) (f : TallyField) : AppState :=
  if count =? 0 then s
  else set_stats (<[job_key := tally_add f count (default tally_zero (ephemeral_stats s !! job_key))]>
                    (ephemeral_stats s)) s.

(** [take_ephemeral_stats] *)
Definition take_ephemeral_stats (s : AppState) : AppState * gmap string EphemeralTally :=
  (set_stats ∅ s, ephemeral_stats s).

(** [lease_grace_secs]: [u64] arithmetic. *)
Definition lease_grace_secs (s : AppState) : Z := Z.max (wrap_u64 (2 * lease_ttl_secs s)) 120.

(** [touch_leases] *)
Definition touch_leases (s : AppState) (rid : string) (ids : list string) (now : instant)
    : AppState :=
  match ids with
  | [] => s
  | _ =>
      let grace := seconds (wrap_i64 (lease_grace_secs s)) in
      let leases := filter (fun kv => now - renewed_at kv.2 < grace) (lease_renewals s) in
      set_leases (fold_left (fun m id => <[id := {| lr_runner_id := rid; renewed_at := now |}]> m)
                    ids leases) s
  end.

(** [clear_lease] *)
Definition clear_lease (s : AppState) (rid eid : string) : AppState :=
  match lease_renewals s !! eid with
  | Some lease => if String.eqb (lr_runner_id lease) rid
                  then set_leases (delete eid (lease_renewals s)) s else s
  | None => s
  end.

Record PollRequest := {
  pr_runner_id : string;
  pr_capabilities : list string;
  pr_max_inflight : Z;
  pr_inflight : list string;
  pr_instance_id : option string;
  pr_tags : list string
}.

(** The claims of the dequeued items: [filter(|item| reg.claim(..))]. *)
Fixpoint claim_items (reg : RunnerRegistry) (rid : string) (l : list WorkItem)
    : RunnerRegistry * list WorkAssignment :=
  match l with
  | [] => (reg, [])
  | item :: l =>
      let '(reg, ok) := claim reg rid (execution_id item) in
      let '(reg, out) := claim_items reg rid l in
      (reg, if ok then assignment_of item :: out else out)
  end.

(** [handle_poll]: the new state, and the work and cancels of the response. *)
Definition handle_poll (s : AppState) (req : PollRequest) (now : instant)
    : AppState * (list WorkAssignment * list string) :=
  let '(reg, _) := register_or_update (registry s) now (pr_runner_id req) (pr_capabilities req)
                     (pr_max_inflight req) (pr_inflight req) (pr_instance_id req) (pr_tags req) in
  let s := set_registry reg s in
  let capacity := saturating_sub (pr_max_inflight req) (Z.of_nat (length (pr_inflight req))) in
  let '(s, work) :=
    if 0 <? capacity then
      let '(q, its) := dequeue_many_for (queue s) now (pr_capabilities req) (Z.to_nat capacity) in
      let '(reg, work) := claim_items (registry s) (pr_runner_id req) its in
      (set_registry reg (set_queue q s), work)
    else (s, []) in
  let '(s, cancel) := drain_cancels s (pr_runner_id req) in
  (s, (work, cancel)).

(** [handle_complete] *)
Definition handle_complete (s : AppState) (rid eid : string) : AppState :=
  set_registry (release (registry s) rid eid).1 s.

Record HealthMaintenance := { hm_active : bool; hm_since : option instant }.
Record HealthResponse := {
  hr_status : string;
  runners_online : nat; runners_stale : nat; runners_dead : nat;
  queued : nat; running : nat;
  hr_maintenance : HealthMaintenance
}.

(** [handle_health] *)
Definition handle_health (s : AppState) (now : instant) : HealthResponse := {|
  hr_status := "ok";
  runners_online := length (by_status_with_ttl (registry s) Online now (lease_ttl_secs s));
  runners_stale := length (by_status_with_ttl (registry s) Stale now (lease_ttl_secs s));
  runners_dead := length (by_status_with_ttl (registry s) Dead now (lease_ttl_secs s));
  queued := len (queue s);
  running := total_inflight (registry s);
  hr_maintenance := {| hm_active := false; hm_since := None |} |}.

(** ** Polls conserve work *)

Lemma dequeue_many_spec q now caps limit :
  queue_inv q ->
  let '(q', l) := dequeue_many_for q now caps limit in
  items q ≡ₚ l ++ items q' /\ (length l <= limit)%nat
  /\ Forall (fun w => has_all caps (require w) = true) l.
Proof.
  revert q. induction limit as [|n IH]; intros q Hq; cbn [dequeue_many_for]; [done|].
  pose proof (dequeue_spec q now caps (fun _ => true)) as Hd.
  pose proof (dequeue_where_inv q now caps (fun _ => true) Hq) as Hi.
  destruct (dequeue_for_where_at q now caps (fun _ => true)) as [q1 [x|]].
  - destruct Hd as (l1 & l2 & Hl & Hl' & _ & _ & _ & [Hc _] & _).
    specialize (IH q1 Hi). destruct (dequeue_many_for q1 now caps n) as [q2 l].
    destruct IH as (Hp & Hlen & Hall). split_and!; [|cbn; lia|by constructor].
    rewrite Hl, <- Permutation_middle. cbn. apply perm_skip. by rewrite <- Hl'.
  - destruct Hd as [-> _]. split_and!; [done|cbn; lia|constructor].
Qed.

Lemma claim_items_known reg rid r l :
  runners reg !! rid = Some r ->
  (claim_items reg rid l).2 = map assignment_of l
  /\ (runners (claim_items reg rid l).1 !! rid
      = Some (set_inflight (inflight r ++ map execution_id l) r)).
Proof.
  revert reg r. induction l as [|x l IH]; intros reg r Hr; cbn [claim_items map fst snd].
  - split; [done|]. rewrite Hr, app_nil_r. by destruct r.
  - unfold claim. rewrite Hr.
    specialize (IH (set_runners (<[rid:=set_inflight (inflight r ++ [execution_id x]) r]> (runners reg)) reg)
      (set_inflight (inflight r ++ [execution_id x]) r)).
    cbn [set_runners runners] in IH. rewrite lookup_insert_eq in IH.
    specialize (IH eq_refl) as [IH1 IH2]. cbn [fst snd].
    destruct (claim_items _ rid l) as [reg' out]. cbn [fst snd] in *. rewrite IH1, IH2.
    split; [done|]. cbn [set_inflight inflight]. by rewrite <- app_assoc.
Qed.

(** After a poll has registered, the runner id is known either way: refreshed,
    or held by the instance that fences it. *)
Lemma registered_known reg now id caps max infl iid tgs :
  exists r, runners (register_or_update reg now id caps max infl iid tgs).1 !! id = Some r
    /\ (is_ok (register_or_update reg now id caps max infl iid tgs).2 = true -> inflight r = infl).
Proof.
  unfold register_or_update. cbv zeta. destruct (instance_guard _ _) as [|old|old] eqn:E.
  - eexists. cbn [fst snd set_runners runners]. by rewrite lookup_insert_eq.
  - eexists. cbn [fst snd set_runners runners]. by rewrite lookup_insert_eq.
  - unfold instance_guard in E. destruct iid; [|done].
    destruct (runners reg !! id) as [r|] eqn:Er; [|done]. exists r. by cbn.
Qed.

(** A poll neither loses nor duplicates work: the executions it hands out
    and those left in the queue are together exactly the ones that were
    queued; it hands out at most the capacity the runner reported free; and
    the registry records exactly the reported executions plus the new ones as
    in flight. *)
Theorem poll_conserves_work s req now :
  queue_inv (queue s) ->
  let '(s', (work, _)) := handle_poll s req now in
  map execution_id (items (queue s))
    ≡ₚ map wa_execution_id work ++ map execution_id (items (queue s'))
  /\ Z.of_nat (length work)
     <= Z.max 0 (pr_max_inflight req - Z.of_nat (length (pr_inflight req)))
  /\ (is_ok (register_or_update (registry s) now (pr_runner_id req) (pr_capabilities req)
         (pr_max_inflight req) (pr_inflight req) (pr_instance_id req) (pr_tags req)).2 = true ->
      exists r, runners (registry s') !! pr_runner_id req = Some r
        /\ inflight r = pr_inflight req ++ map wa_execution_id work).
Proof.
  intros Hq. unfold handle_poll.
  pose proof (registered_known (registry s) now (pr_runner_id req) (pr_capabilities req)
    (pr_max_inflight req) (pr_inflight req) (pr_instance_id req) (pr_tags req)) as (r & Hr & Hinf).
  destruct (register_or_update _ _ _ _ _ _ _ _) as [reg o]. cbn [fst snd] in *. cbv zeta.
  unfold saturating_sub. cbn [registry queue set_registry drain_cancels set_cancels].
  destruct (Z.ltb_spec 0 (Z.max 0 (pr_max_inflight req - Z.of_nat (length (pr_inflight req)))))
    as [Hcap|Hcap].
  - pose proof (dequeue_many_spec (queue s) now (pr_capabilities req)
      (Z.to_nat (Z.max 0 (pr_max_inflight req - Z.of_nat (length (pr_inflight req))))) Hq) as Hd.
    destruct (dequeue_many_for _ _ _ _) as [q' l]. destruct Hd as (Hp & Hlen & _).
    destruct (claim_items_known reg (pr_runner_id req) r l Hr) as [Hw Hr'].
    destruct (claim_items reg (pr_runner_id req) l) as [reg' work]. cbn [fst snd] in *. subst work.
    assert (map wa_execution_id (map assignment_of l) = map execution_id l) as Hids
      by (rewrite map_map; by apply map_ext).
    cbn [queue registry set_registry set_queue set_cancels]. rewrite Hids. split_and!.
    + rewrite Hp, map_app. done.
    + rewrite length_map. lia.
    + intros Ho. eexists. split; [exact Hr'|]. cbn [set_inflight inflight]. by rewrite (Hinf Ho).
  - cbn. split_and!; [done|lia|]. intros Ho. exists r. split; [done|].
    by rewrite app_nil_r, (Hinf Ho).
Qed.

(** ** Cancels *)

(** A cancel reaches its runner exactly once: pushed any number of times,
    it is in the next drain of that runner once, and the drain after that is
    empty; other runners' queues are untouched. *)
Theorem cancel_delivered_once s rid eid n :
  let s1 := Nat.iter (S n) (fun s => push_cancel s rid eid) s in
  let '(s2, cancels) := drain_cancels s1 rid in
  (NoDup (default [] (cancel_queues s !! rid)) -> eid ∈ cancels /\ NoDup cancels)
  /\ (drain_cancels s2 rid).2 = []
  /\ (forall rid', rid' <> rid -> cancel_queues s2 !! rid' = cancel_queues s !! rid').
Proof.
  cbv zeta. unfold drain_cancels.
  assert (forall s, (forall rid', rid' <> rid ->
      cancel_queues (push_cancel s rid eid) !! rid' = cancel_queues s !! rid')
    /\ (NoDup (default [] (cancel_queues s !! rid)) ->
        NoDup (default [] (cancel_queues (push_cancel s rid eid) !! rid)))
    /\ eid ∈ default [] (cancel_queues (push_cancel s rid eid) !! rid)) as Hpush.
  { clear. intros s. unfold push_cancel. cbv zeta. cbn [cancel_queues set_cancels].
    rewrite lookup_insert_eq. cbn [default]. split_and!.
    - intros rid' Hne. by rewrite lookup_insert_ne.
    - intros Hnd. case_if; [done|]. apply NoDup_app. split_and!; [done| |apply NoDup_singleton].
      intros x Hx ->%list_elem_of_singleton.
      assert (existsb (fun id => String.eqb id eid) (default [] (cancel_queues s !! rid)) = true)
        as Ht by (apply existsb_exists; exists eid; split;
                  [by apply list_elem_of_In|by apply String.eqb_eq]). congruence.
    - case_if; [|set_solver]. apply existsb_exists in Heqb as (x & Hx & ->%String.eqb_eq).
      by apply list_elem_of_In. }
  cbn [cancel_queues set_cancels snd]. split_and!.
  - intros Hnd. induction n as [|n IH]; cbn [Nat.iter nat_rect] in *.
    + split; [apply Hpush|by apply Hpush].
    + split; [apply Hpush|apply Hpush, IH].
  - by rewrite lookup_delete_eq.
  - intros rid' Hne. rewrite lookup_delete_ne by done. induction n as [|n IH]; cbn [Nat.iter nat_rect] in *.
    + by apply Hpush.
    + rewrite (proj1 (Hpush _)) by done. exact IH.
Qed.

(** ** Leases *)

Lemma insert_leases_lookup (ids : list string) l (m : gmap string LeaseRenewal) id :
  fold_left (fun m id => <[id := l]> m) ids m !! id = if bool_decide (id ∈ ids) then Some l else m !! id.
Proof.
  revert m. induction ids as [|i ids IH]; intros m; cbn [fold_left].
  - by rewrite bool_decide_false by apply not_elem_of_nil.
  - rewrite IH. destruct (decide (id ∈ ids)) as [Hin|Hni].
    + by rewrite !bool_decide_true by set_solver.
    + rewrite (bool_decide_false (id ∈ ids)) by done. destruct (decide (id = i)) as [->|Hne].
      * by rewrite lookup_insert_eq, bool_decide_true by set_solver.
      * rewrite lookup_insert_ne by done. by rewrite bool_decide_false by set_solver.
Qed.

(** A lease is refreshed by naming its execution and by nothing else:
    touching leases gives every named execution a lease of that runner at that
    instant, keeps the others exactly while they are inside the grace window,
    and clearing a lease removes it only for the runner that holds it. *)
Theorem leases_are_per_execution s rid ids now id :
  ids <> [] ->
  lease_renewals (touch_leases s rid ids now) !! id
  = (if bool_decide (id ∈ ids) then Some {| lr_runner_id := rid; renewed_at := now |}
     else match lease_renewals s !! id with
          | Some l => if now - renewed_at l <? seconds (wrap_i64 (lease_grace_secs s))
                      then Some l else None
          | None => None
          end)
  /\ (forall rid', lease_renewals (clear_lease s rid' id) !! id
      = match lease_renewals s !! id with
        | Some l => if String.eqb (lr_runner_id l) rid' then None else Some l
        | None => None
        end).
Proof.
  intros Hids. split.
  - unfold touch_leases. destruct ids as [|i ids]; [done|]. cbv zeta. cbn [lease_renewals set_leases].
    rewrite insert_leases_lookup. case_bool_decide; [done|].
    destruct (lease_renewals s !! id) as [l|] eqn:E.
    + destruct (Z.ltb_spec (now - renewed_at l) (seconds (wrap_i64 (lease_grace_secs s)))).
      * by apply map_lookup_filter_Some.
      * apply map_lookup_filter_None. right. intros x Hx. rewrite E in Hx. injection Hx as <-. cbn. lia.
    + apply map_lookup_filter_None. by left.
  - intros rid'. unfold clear_lease. destruct (lease_renewals s !! id) as [l|] eqn:E; [|done].
    case_if; [|done]. cbn. by rewrite lookup_delete_eq.
Qed.

(** ** Health *)

Lemma status_partition (l : list Runner) now ttl :
  (length (filter (fun r => status_at_with_ttl r now ttl = Online) l)
   + length (filter (fun r => status_at_with_ttl r now ttl = Stale) l)
   + length (filter (fun r => status_at_with_ttl r now ttl = Dead) l) = length l)%nat.
Proof.
  induction l as [|r l IH]; [done|]. rewrite !filter_cons.
  destruct (status_at_with_ttl r now ttl); repeat case_decide; try done; cbn; lia.
Qed.

(** The health endpoint's runner counts partition the registry: every
    registered runner is online, stale or dead, exactly one of them. *)
Lemma health_counts_partition s now :
  let h := handle_health s now in
  (runners_online h + runners_stale h + runners_dead h = size (runners (registry s)))%nat.
Proof.
  cbv zeta. cbn [runners_online runners_stale runners_dead handle_health]. unfold by_status_with_ttl.
  rewrite status_partition. unfold all_runners. by rewrite length_fmap, length_map_to_list.
Qed.
End Api.

(** A runner with two free slots takes both queued items. *)
Definition demo_request (iid : string) : PollRequest := {|
  pr_runner_id := "r1"; pr_capabilities := ["gpu"%string]; pr_max_inflight := 3;
  pr_inflight := ["e0"%string]; pr_instance_id := Some iid; pr_tags := [] |}.
Definition demo_state : AppState := set_queue demo_queue (app_new 0).

Lemma poll_conserves_work_witness :
  let '(s', (work, _)) := handle_poll demo_state (demo_request "A") (seconds 90) in
  map wa_execution_id work = ["e2"; "e1"]%string /\
  map execution_id (items (queue demo_state))
    ≡ₚ map wa_execution_id work ++ map execution_id (items (queue s')).
Proof.
  pose proof (poll_conserves_work demo_state (demo_request "A") (seconds 90)) as H.
  split; [reflexivity|]. apply H. apply enqueue_inv, enqueue_inv.
  split; [constructor|]. intros k. exact (lookup_empty k).
Defined.

Lemma leases_are_per_execution_witness :
  lease_renewals (touch_leases demo_state "r1" ["e1"%string] 5) !! "e1"
  = Some {| lr_runner_id := "r1"; renewed_at := 5 |}.
Proof. apply (leases_are_per_execution demo_state "r1" ["e1"%string] 5 "e1"). discriminate. Defined.

(** The standalone [handle_poll] drops the registry's refusal: a fenced
    instance is still handed work, recorded under the winner's entry. *)
Lemma fenced_poll_still_gets_work :
  let s1 := (handle_poll (app_new 0) (demo_request "A") 0).1 in
  let s2 := (handle_poll s1 (demo_request "B") 0).1 in
  let s3 := set_queue demo_queue s2 in
  (register_or_update (registry s3) 0 "r1" ["gpu"] 3 ["e0"] (Some "A") []).2 = Err "B"
  /\ map wa_execution_id (handle_poll s3 (demo_request "A") (seconds 90)).2.1 = ["e2"; "e1"].
Proof. vm_compute. split; reflexivity. Qed.
