(* ===== verification/Store.v ===== *)
(** * The store interface

    Models the part of [croniq-store] the scheduler talks to: the persisted
    rows of [models.rs] ([JobState], [JobRegisterFire], [Execution]), the
    maintenance switch, and the traits [JobStore] and [ExecutionStore] of
    [traits.rs] as a class whose laws are what the trait documentation
    promises: a call either succeeds and changes exactly the row it names, or
    reports an error and changes nothing, and the combined write of an
    execution and its job state is atomic. The SQL backends implement the
    traits; [mem_store] is an in-memory instance whose calls fail on a script,
    in the manner of the fault-injecting store of the server's tests. *)

From S2P Require Import Prelude Chrono.

Local Open Scope Z_scope.

Inductive JobStatus := JActive | JPaused | JDisabled | JExhausted.
#[export] Instance JobStatus_eq_dec : EqDecision JobStatus.
Proof. solve_decision. Defined.

Record JobState := {
  js_job_key : string;
  js_next_fire_at : option instant;
  js_last_fired_at : option instant;
  js_fire_count : Z;
  js_status : JobStatus;
  js_updated_at : instant
}.

Record JobRegisterFire := {
  rf_job_key : string;
  rf_config_hash : string;
  rf_fired_at : instant
}.

Inductive ExecutionState := EQueued | EClaimed | ECompleted | EFailed | EDead | ECancelled.
#[export] Instance ExecutionState_eq_dec : EqDecision ExecutionState.
Proof. solve_decision. Defined.

Record Execution := {
  ex_id : string;
  ex_job_key : string;
  ex_fire_at : instant;
  ex_scheduled_for : instant;
  ex_attempt : Z;
  ex_state : ExecutionState;
  ex_runner_id : option string;
  ex_claimed_at : option instant;
  ex_started_at : option instant;
  ex_completed_at : option instant;
  ex_duration_ms : option Z;
  ex_error : option string;
  ex_dead_reason : option string;
  ex_idempotency_key : option string;
  ex_metadata : gmap string string;
  ex_created_at : instant
}.

Inductive StoreError :=
| NotFound (what : string)
| Conflict (what : string)
| Database (what : string).

(** ** The traits *)

Class JobStore (St : Type) := {
  (** what the tables hold *)
  job_states : St -> gmap string JobState;
  executions : St -> gmap string Execution;
  register_fires : St -> gmap string JobRegisterFire;
  (** the calls *)
  list_register_fires : St -> St * result (list JobRegisterFire) StoreError;
  upsert_job_state : St -> JobState -> St * result unit StoreError;
  upsert_register_fire : St -> JobRegisterFire -> St * result unit StoreError;
  delete_register_fire : St -> string -> St * result unit StoreError;
  create_execution : St -> Execution -> St * result unit StoreError;
  create_execution_and_advance_job_state : St -> Execution -> JobState -> St * result unit StoreError
}.

(** Two stores with the same tables. *)
Definition same_tables `{JobStore St} (s s' : St) : Prop :=
  job_states s' = job_states s /\ executions s' = executions s
  /\ register_fires s' = register_fires s.

Class JobStoreLaws (St : Type) `{JS : JobStore St} := {
  list_register_fires_spec s s' r :
    list_register_fires s = (s', r) ->
    same_tables s s' /\
    match r with
    | Ok rows => rows ≡ₚ (map_to_list (register_fires s)).*2
    | Err _ => True
    end;
  upsert_job_state_spec s s' r row :
    upsert_job_state s row = (s', r) ->
    match r with
    | Ok _ => job_states s' = <[js_job_key row := row]> (job_states s)
              /\ executions s' = executions s /\ register_fires s' = register_fires s
    | Err _ => same_tables s s'
    end;
  upsert_register_fire_spec s s' r row :
    upsert_register_fire s row = (s', r) ->
    match r with
    | Ok _ => job_states s' = job_states s /\ executions s' = executions s
              /\ register_fires s' = <[rf_job_key row := row]> (register_fires s)
    | Err _ => same_tables s s'
    end;
  delete_register_fire_spec s s' r key :
    delete_register_fire s key = (s', r) ->
    match r with
    | Ok _ => job_states s' = job_states s /\ executions s' = executions s
              /\ register_fires s' = delete key (register_fires s)
    | Err _ => same_tables s s'
    end;
  create_execution_spec s s' r ex :
    create_execution s ex = (s', r) ->
    match r with
    | Ok _ => job_states s' = job_states s /\ executions s' = <[ex_id ex := ex]> (executions s)
              /\ register_fires s' = register_fires s
    | Err _ => same_tables s s'
    end;
  create_and_advance_spec s s' r ex row :
    create_execution_and_advance_job_state s ex row = (s', r) ->
    match r with
    | Ok _ => job_states s' = <[js_job_key row := row]> (job_states s)
              /\ executions s' = <[ex_id ex := ex]> (executions s)
              /\ register_fires s' = register_fires s
    | Err _ => same_tables s s'
    end
}.

(** ** An instance

    Tables in memory; the [n]th call fails when the [n]th entry of the script
    says so, and every call after the script succeeds. *)

Record MemStore := MkMem {
  mem_states : gmap string JobState;
  mem_execs : gmap string Execution;
  mem_fires : gmap string JobRegisterFire;
  mem_faults : list bool
}.

Definition mem_call {A} (s : MemStore) (ok : MemStore -> MemStore * A)
    : MemStore * result A StoreError :=
  let s' := MkMem (mem_states s) (mem_execs s) (mem_fires s) (tail (mem_faults s)) in
  match mem_faults s with
  | true :: _ => (s', Err (Database "injected"))
  | _ => let '(s'', a) := ok s' in (s'', Ok a)
  end.

#[global] Instance mem_store : JobStore MemStore := {|
  job_states := mem_states;
  executions := mem_execs;
  register_fires := mem_fires;
  list_register_fires s := mem_call s (fun s => (s, (map_to_list (mem_fires s)).*2));
  upsert_job_state s row := mem_call s (fun s =>
    (MkMem (<[js_job_key row := row]> (mem_states s)) (mem_execs s) (mem_fires s) (mem_faults s), tt));
  upsert_register_fire s row := mem_call s (fun s =>
    (MkMem (mem_states s) (mem_execs s) (<[rf_job_key row := row]> (mem_fires s)) (mem_faults s), tt));
  delete_register_fire s key := mem_call s (fun s =>
    (MkMem (mem_states s) (mem_execs s) (delete key (mem_fires s)) (mem_faults s), tt));
  create_execution s ex := mem_call s (fun s =>
    (MkMem (mem_states s) (<[ex_id ex := ex]> (mem_execs s)) (mem_fires s) (mem_faults s), tt));
  create_execution_and_advance_job_state s ex row := mem_call s (fun s =>
    (MkMem (<[js_job_key row := row]> (mem_states s)) (<[ex_id ex := ex]> (mem_execs s))
       (mem_fires s) (mem_faults s), tt))
|}.

#[global] Instance mem_store_laws : JobStoreLaws MemStore.
Proof.
  split; unfold same_tables; cbn; unfold mem_call;
    intros [st ex fi fa]; intros; cbn in *; destruct fa as [|[] fa]; by simplify_eq.
Qed.

(** ** The maintenance switch *)

Record MaintenanceState := {
  manual_active : bool;
  window_start : option instant;
  window_end : option instant;
  ms_note : option string;
  ms_updated_by : option string;
  ms_updated_at : option instant;
  ms_active_since : option instant
}.
Definition maintenance_off : MaintenanceState :=
  {| manual_active := false; window_start := None; window_end := None; ms_note := None;
     ms_updated_by := None; ms_updated_at := None; ms_active_since := None |}.

(** [MaintenanceState::has_window], [window_active], [is_active] *)
Definition has_window (m : MaintenanceState) : bool :=
  bool_decide (is_Some (window_start m)) || bool_decide (is_Some (window_end m)).
Definition window_active (m : MaintenanceState) (now : instant) : bool :=
  has_window m
  && match window_start m with Some s => s <=? now | None => true end
  && match window_end m with Some e => now <? e | None => true end.
Definition is_active (m : MaintenanceState) (now : instant) : bool :=
  manual_active m || window_active m now.
