(* ===== verification/StoreCalls.v ===== *)
(** * Store calls

    The store as the server uses it: the tables of [croniq-store], the calls
    of the traits in [croniq-store/src/traits.rs] as an inductive family
    indexed by the type of their answer, and the contract of each call. A call
    that succeeds has exactly the effect of its [post]; a call that reports an
    error has changed nothing, apart from the few that write before they read
    the row back ([residue]). Components run calls through the class [Store];
    the SQLite backend implements it. *)

From S2P Require Import Prelude RustStr Chrono Store.

Local Open Scope string_scope.
Local Open Scope Z_scope.

(** ** Rows ([models.rs]) *)

Record DeadLetter := {
  dl_id : string;
  dl_execution_id : string;
  dl_job_key : string;
  dl_fire_at : instant;
  dl_scheduled_for : instant;
  dl_attempt : Z;
  dl_error : string;
  dl_dead_reason : string;
  dl_metadata : gmap string string;
  dl_created_at : instant;
  dl_expires_at : option instant
}.

Record JobDefinition := {
  jd_job_key : string;
  jd_description : option string;
  jd_assigned_runner_id : option string;
  jd_is_active : bool;
  jd_metadata : gmap string string;
  jd_created_at : instant;
  jd_updated_at : instant;
  jd_timeout : option string;
  jd_max_retries : option Z;
  jd_dead_letter_enabled : option bool;
  jd_dead_letter_retention : option string;
  jd_dead_letter_operator_hint : option string;
  jd_dead_letter_replay_max_age : option string;
  jd_tags : list string
}.

Record ExecutionLogEntry := {
  le_id : string;
  le_execution_id : string;
  le_timestamp : instant;
  le_level : string;
  le_message : string;
  le_fields : gmap string string;
  le_seq : Z
}.

Record AuditEvent := {
  ae_event_id : string;
  ae_actor_type : string;
  ae_actor_id : option string;
  ae_action : string;
  ae_target_type : string;
  ae_target_id : option string;
  ae_diff_json : option string;
  ae_ip_address : option string;
  ae_user_agent : option string;
  ae_created_at : instant
}.

Inductive AlertDeliveryState := DDelivered | DFailed | DThrottled | DAcknowledged.
#[export] Instance AlertDeliveryState_eq_dec : EqDecision AlertDeliveryState.
Proof. solve_decision. Defined.
Inductive AlertDeliveryKind := KAlert | KRecovery.
#[export] Instance AlertDeliveryKind_eq_dec : EqDecision AlertDeliveryKind.
Proof. solve_decision. Defined.

Record AlertDelivery := {
  ad_delivery_id : string;
  ad_rule_name : string;
  ad_channel_name : string;
  ad_job_key : string;
  ad_execution_id : option string;
  ad_state : AlertDeliveryState;
  ad_error : option string;
  ad_fired_at : instant;
  ad_delivered_at : option instant;
  ad_kind : AlertDeliveryKind
}.

Record AlertRuleOverride := {
  ov_rule_name : string;
  ov_enabled : option bool;
  ov_snooze_until : option instant;
  ov_throttle_secs : option Z;
  ov_note : string;
  ov_set_by_user_id : string;
  ov_set_at : instant;
  ov_expires_at : option instant
}.

Record JobAlertAck := {
  ak_job_key : string;
  ak_note : string;
  ak_acked_by : string;
  ak_acked_by_name : string;
  ak_acked_at : instant;
  ak_expires_at : instant;
  ak_suppressed_count : Z;
  ak_last_execution_id : option string;
  ak_last_error : option string;
  ak_last_suppressed_at : option instant
}.

Record JobFailureStreak := {
  fs_job_key : string;
  fs_consecutive : Z;
  fs_since : instant;
  fs_last_execution_id : string;
  fs_last_error : string;
  fs_last_failed_at : instant
}.

(** [ExecutionState::as_str] and [parse] *)
Definition state_str (s : ExecutionState) : string :=
  match s with
  | EQueued => "queued" | EClaimed => "claimed" | ECompleted => "completed"
  | EFailed => "failed" | EDead => "dead" | ECancelled => "cancelled"
  end.

(** [concurrency_group_of] *)
Definition CONCURRENCY_GROUP_METADATA_KEY : string := "__concurrency_group".
Definition concurrency_group_of (e : Execution) : option string :=
  match ex_metadata e !! CONCURRENCY_GROUP_METADATA_KEY with
  | Some g => if String.eqb g "" then None else Some g
  | None => None
  end.

Record ExecutionFilter := {
  ef_job_key : option string;
  ef_job_key_contains : option string;
  ef_job_keys : option (list string);
  ef_states : list ExecutionState;
  ef_runner_id : option string;
  ef_since : option instant;
  ef_until : option instant;
  ef_until_id : option string;
  ef_limit : option Z
}.
Definition MAX_EXECUTIONS_LIMIT : Z := 100000.

Record DeadLetterFilter := { df_job_key : option string; df_limit : option Z }.
Definition MAX_PAGE_LIMIT : Z := 1000.

(** A row of [runner_identities]. *)
Record RunnerIdentity := { ri_owner_id : string; ri_bound_at : instant }.

(** ** Tables *)

Record Tables := MkTables {
  tb_states : gmap string JobState;
  tb_execs : gmap string Execution;
  tb_fires : gmap string JobRegisterFire;
  tb_dead : gmap string DeadLetter;
  tb_logs : list ExecutionLogEntry;
  tb_defs : gmap string JobDefinition;
  tb_audit : list AuditEvent;
  tb_streaks : gmap string JobFailureStreak;
  tb_acks : gmap string JobAlertAck;
  tb_overrides : gmap string AlertRuleOverride;
  tb_deliveries : gmap string AlertDelivery;
  tb_identities : gmap string RunnerIdentity
}.

Definition set_states (x : gmap string JobState) (t : Tables) : Tables :=
  MkTables x (tb_execs t) (tb_fires t) (tb_dead t) (tb_logs t) (tb_defs t)
    (tb_audit t) (tb_streaks t) (tb_acks t) (tb_overrides t) (tb_deliveries t) (tb_identities t).
Definition set_execs (x : gmap string Execution) (t : Tables) : Tables :=
  MkTables (tb_states t) x (tb_fires t) (tb_dead t) (tb_logs t) (tb_defs t)
    (tb_audit t) (tb_streaks t) (tb_acks t) (tb_overrides t) (tb_deliveries t) (tb_identities t).
Definition set_fires (x : gmap string JobRegisterFire) (t : Tables) : Tables :=
  MkTables (tb_states t) (tb_execs t) x (tb_dead t) (tb_logs t) (tb_defs t)
    (tb_audit t) (tb_streaks t) (tb_acks t) (tb_overrides t) (tb_deliveries t) (tb_identities t).
Definition set_dead (x : gmap string DeadLetter) (t : Tables) : Tables :=
  MkTables (tb_states t) (tb_execs t) (tb_fires t) x (tb_logs t) (tb_defs t)
    (tb_audit t) (tb_streaks t) (tb_acks t) (tb_overrides t) (tb_deliveries t) (tb_identities t).
Definition set_logs (x : list ExecutionLogEntry) (t : Tables) : Tables :=
  MkTables (tb_states t) (tb_execs t) (tb_fires t) (tb_dead t) x (tb_defs t)
    (tb_audit t) (tb_streaks t) (tb_acks t) (tb_overrides t) (tb_deliveries t) (tb_identities t).
Definition set_defs (x : gmap string JobDefinition) (t : Tables) : Tables :=
  MkTables (tb_states t) (tb_execs t) (tb_fires t) (tb_dead t) (tb_logs t) x
    (tb_audit t) (tb_streaks t) (tb_acks t) (tb_overrides t) (tb_deliveries t) (tb_identities t).
Definition set_audit (x : list AuditEvent) (t : Tables) : Tables :=
  MkTables (tb_states t) (tb_execs t) (tb_fires t) (tb_dead t) (tb_logs t) (tb_defs t)
    x (tb_streaks t) (tb_acks t) (tb_overrides t) (tb_deliveries t) (tb_identities t).
Definition set_streaks (x : gmap string JobFailureStreak) (t : Tables) : Tables :=
  MkTables (tb_states t) (tb_execs t) (tb_fires t) (tb_dead t) (tb_logs t) (tb_defs t)
    (tb_audit t) x (tb_acks t) (tb_overrides t) (tb_deliveries t) (tb_identities t).
Definition set_acks (x : gmap string JobAlertAck) (t : Tables) : Tables :=
  MkTables (tb_states t) (tb_execs t) (tb_fires t) (tb_dead t) (tb_logs t) (tb_defs t)
    (tb_audit t) (tb_streaks t) x (tb_overrides t) (tb_deliveries t) (tb_identities t).
Definition set_overrides (x : gmap string AlertRuleOverride) (t : Tables) : Tables :=
  MkTables (tb_states t) (tb_execs t) (tb_fires t) (tb_dead t) (tb_logs t) (tb_defs t)
    (tb_audit t) (tb_streaks t) (tb_acks t) x (tb_deliveries t) (tb_identities t).
Definition set_deliveries (x : gmap string AlertDelivery) (t : Tables) : Tables :=
  MkTables (tb_states t) (tb_execs t) (tb_fires t) (tb_dead t) (tb_logs t) (tb_defs t)
    (tb_audit t) (tb_streaks t) (tb_acks t) (tb_overrides t) x (tb_identities t).
Definition set_identities (x : gmap string RunnerIdentity) (t : Tables) : Tables :=
  MkTables (tb_states t) (tb_execs t) (tb_fires t) (tb_dead t) (tb_logs t) (tb_defs t)
    (tb_audit t) (tb_streaks t) (tb_acks t) (tb_overrides t) (tb_deliveries t) x.

(** ** What the statements do to a row *)

Section Rows.
  Implicit Types e : Execution.

Definition set_claim (rid : option string) (claimed started : option instant) (st : ExecutionState)
    e : Execution := {|
  ex_id := ex_id e; ex_job_key := ex_job_key e; ex_fire_at := ex_fire_at e;
  ex_scheduled_for := ex_scheduled_for e; ex_attempt := ex_attempt e; ex_state := st;
  ex_runner_id := rid; ex_claimed_at := claimed; ex_started_at := started;
  ex_completed_at := ex_completed_at e; ex_duration_ms := ex_duration_ms e; ex_error := ex_error e;
  ex_dead_reason := ex_dead_reason e; ex_idempotency_key := ex_idempotency_key e;
  ex_metadata := ex_metadata e; ex_created_at := ex_created_at e |}.

(** [claim_execution]'s row *)
Definition claimed_row (rid : string) (now : instant) e : Execution :=
  set_claim (Some rid) (Some now) (Some now) EClaimed e.
(** the row of both requeues *)
Definition requeued_row e : Execution := set_claim None None None EQueued e.

Definition set_outcome (st : ExecutionState) (completed : instant) (duration : option Z)
    (error dead_reason : option string) e : Execution := {|
  ex_id := ex_id e; ex_job_key := ex_job_key e; ex_fire_at := ex_fire_at e;
  ex_scheduled_for := ex_scheduled_for e; ex_attempt := ex_attempt e; ex_state := st;
  ex_runner_id := ex_runner_id e; ex_claimed_at := ex_claimed_at e;
  ex_started_at := ex_started_at e; ex_completed_at := Some completed; ex_duration_ms := duration;
  ex_error := error; ex_dead_reason := dead_reason; ex_idempotency_key := ex_idempotency_key e;
  ex_metadata := ex_metadata e; ex_created_at := ex_created_at e |}.
(** [cancel_execution]'s row *)
Definition cancelled_row (now : instant) e : Execution :=
  set_outcome ECancelled now (ex_duration_ms e) (ex_error e) (ex_dead_reason e) e.

(** The fence of a completion: [runner_id IS NULL OR runner_id = ?]. *)
Definition fence_ok (fence : option string) e : bool :=
  match fence with
  | None => true
  | Some r => bool_decide (ex_runner_id e = Some r)
  end.
Definition has_state (s : ExecutionState) e : bool := bool_decide (ex_state e = s).
Definition in_states (l : list ExecutionState) e : bool := existsb (fun s => has_state s e) l.
Definition in_flight e : bool := in_states [EQueued; EClaimed] e.
Definition claimed_by (rid : string) e : bool :=
  has_state EClaimed e && bool_decide (ex_runner_id e = Some rid).
Definition in_group (g : string) e : bool := bool_decide (concurrency_group_of e = Some g).
Definition for_job (key : string) e : bool := String.eqb (ex_job_key e) key.
End Rows.

(** [DELETABLE_EXECUTION]: a dead row only once no dead letter refers to it. *)
Definition letter_for (dead : gmap string DeadLetter) (id : string) : bool :=
  existsb (fun dl => String.eqb (dl_execution_id dl) id) (map_to_list dead).*2.
Definition deletable (dead : gmap string DeadLetter) (e : Execution) : bool :=
  negb (has_state EDead e) || negb (letter_for dead (ex_id e)).

(** [ORDER BY .. LIMIT .. OFFSET ..]: a slice of some sorted arrangement of the
    selected rows; ties may come in any order. *)
Definition rows {A} `{Countable K} (m : gmap K A) : list A := (map_to_list m).*2.
Definition slice {A} (R : A -> A -> Prop) (offset limit : Z) (all out : list A) : Prop :=
  exists sorted, sorted ≡ₚ all /\ StronglySorted R sorted
    /\ out = take (Z.to_nat limit) (drop (Z.to_nat offset) sorted).

Definition by_fire (a b : Execution) : Prop := ex_fire_at a <= ex_fire_at b.
(** NULL sorts first. *)
Definition opt_le (a b : option instant) : Prop :=
  match a, b with
  | None, _ => True
  | Some _, None => False
  | Some x, Some y => x <= y
  end.
#[export] Instance opt_le_dec a b : Decision (opt_le a b).
Proof. destruct a, b; cbn; apply _. Defined.
Definition opt_lt (a b : option instant) : Prop :=
  match a, b with
  | None, Some _ => True
  | Some x, Some y => x < y
  | _, None => False
  end.
Definition by_claim (a b : Execution) : Prop := opt_le (ex_claimed_at a) (ex_claimed_at b).
(** [completed_at, id] *)
Definition by_completed (a b : Execution) : Prop :=
  opt_lt (ex_completed_at a) (ex_completed_at b)
  \/ ex_completed_at a = ex_completed_at b /\ String.le (ex_id a) (ex_id b).
(** [created_at DESC, id DESC] *)
Definition newest_first (a b : Execution) : Prop :=
  ex_created_at b < ex_created_at a
  \/ ex_created_at a = ex_created_at b /\ String.le (ex_id b) (ex_id a).

(** [dead_letters ORDER BY created_at DESC] *)
Definition newest_letter (a b : DeadLetter) : Prop := dl_created_at b <= dl_created_at a.
(** [job_key = ?], where one is asked for *)
Definition letter_of (key : option string) (dl : DeadLetter) : bool :=
  match key with Some k => String.eqb (dl_job_key dl) k | None => true end.

(** [LIKE '%needle%'] with the wildcards of the needle escaped
    ([like_contains]): containment, ASCII case ignored. *)
Fixpoint contains_sub (needle s : string) : bool :=
  starts_with needle s || match s with EmptyString => false | String _ s => contains_sub needle s end.
Definition contains_nocase (needle s : string) : bool :=
  contains_sub (to_ascii_lowercase needle) (to_ascii_lowercase s).

(** The WHERE clause of [list_executions]. *)
Definition filter_ok (f : ExecutionFilter) (e : Execution) : bool :=
  match ef_job_key f with Some k => for_job k e | None => true end
  && match ef_job_key_contains f with
     | Some n => contains_nocase n (ex_job_key e)
     | None => true
     end
  && match ef_job_keys f with Some ks => existsb (fun k => for_job k e) ks | None => true end
  && match ef_states f with [] => true | l => in_states l e end
  && match ef_runner_id f with Some r => bool_decide (ex_runner_id e = Some r) | None => true end
  && match ef_since f with Some s => s <=? ex_created_at e | None => true end
  && match ef_until f, ef_until_id f with
     | None, _ => true
     | Some u, None => ex_created_at e <=? u
     | Some u, Some id =>
         (ex_created_at e <? u)
         || (ex_created_at e =? u) && String.ltb (ex_id e) id
     end.

(** The row a failure leaves in [job_failure_streaks]. *)
Definition streak_after (old : option JobFailureStreak) (key eid error : string) (at_ : instant)
    : JobFailureStreak :=
  match old with
  | None => {| fs_job_key := key; fs_consecutive := 1; fs_since := at_;
               fs_last_execution_id := eid; fs_last_error := error; fs_last_failed_at := at_ |}
  | Some s => {| fs_job_key := fs_job_key s; fs_consecutive := fs_consecutive s + 1;
                 fs_since := fs_since s; fs_last_execution_id := eid; fs_last_error := error;
                 fs_last_failed_at := at_ |}
  end.

(** The row a held-back alert leaves in [job_alert_acks]. *)
Definition ack_after (a : JobAlertAck) (eid error : string) (at_ : instant) : JobAlertAck := {|
  ak_job_key := ak_job_key a; ak_note := ak_note a; ak_acked_by := ak_acked_by a;
  ak_acked_by_name := ak_acked_by_name a; ak_acked_at := ak_acked_at a;
  ak_expires_at := ak_expires_at a;
  ak_suppressed_count :=
    ak_suppressed_count a + (if bool_decide (ak_last_execution_id a = Some eid) then 0 else 1);
  ak_last_execution_id := Some eid; ak_last_error := Some error;
  ak_last_suppressed_at := Some at_ |}.

(** The binding in force once [owner] asked for a runner's id: the first one. *)
Definition bound_row (owner : string) (now : instant) (old : option RunnerIdentity) : RunnerIdentity :=
  default {| ri_owner_id := owner; ri_bound_at := now |} old.
Definition bound (rid owner : string) (now : instant) (t : Tables) : Tables :=
  set_identities (<[rid := bound_row owner now (tb_identities t !! rid)]> (tb_identities t)) t.

(** [next_seq_for_execution], and the entries a batch appends. *)
Definition next_seq (logs : list ExecutionLogEntry) (eid : string) : Z :=
  fold_left (fun m le => if String.eqb (le_execution_id le) eid then Z.max m (le_seq le + 1) else m)
    logs 0.
Definition with_seq (n : Z) (le : ExecutionLogEntry) : ExecutionLogEntry := {|
  le_id := le_id le; le_execution_id := le_execution_id le; le_timestamp := le_timestamp le;
  le_level := le_level le; le_message := le_message le; le_fields := le_fields le; le_seq := n |}.
Definition append_entry (logs : list ExecutionLogEntry) (le : ExecutionLogEntry)
    : list ExecutionLogEntry :=
  logs ++ [with_seq (next_seq logs (le_execution_id le)) le].

(** ** Calls *)

Inductive Call : Type -> Type :=
(** [JobStore] *)
| ListJobStates : Call (list JobState)
| UpsertJobState (row : JobState) : Call unit
| ListRegisterFires : Call (list JobRegisterFire)
| UpsertRegisterFire (row : JobRegisterFire) : Call unit
| DeleteRegisterFire (key : string) : Call unit
(** [ExecutionStore] *)
| CreateExecution (ex : Execution) : Call unit
| CreateAndAdvance (ex : Execution) (row : JobState) : Call unit
| GetExecution (id : string) : Call (option Execution)
| ClaimExecution (id runner : string) (now : instant) : Call Execution
| CompleteExecution (id : string) (fence : option string) (st : ExecutionState)
    (duration : option Z) (error dead_reason : option string) (now : instant) : Call bool
| FindQueued (limit : Z) : Call (list Execution)
| ListExecutions (f : ExecutionFilter) : Call (list Execution)
| ListClaimedOlderThan (cutoff : instant) (limit : Z) : Call (list Execution)
| FindByIdempotencyKey (key idem : string) (window_start : instant) : Call (option Execution)
| RequeueAbandoned (runner : string) (now : instant) : Call (list string)
| RequeueIfClaimed (id : string) (now : instant) : Call bool
| CancelExecution (id : string) (now : instant) : Call unit
| CountInStates (key : string) (states : list ExecutionState) : Call Z
| CountInGroup (group : string) (states : list ExecutionState) : Call Z
| PruneOlderThan (cutoff : instant) (limit : Z) : Call Z
| PruneKeepLast (key : string) (keep limit : Z) : Call Z
(** [RunnerStore] *)
| BindRunner (rid owner : string) (now : instant) : Call string
| ReleaseRunner (rid : string) : Call unit
(** [DeadLetterStore] *)
| AddDeadLetter (dl : DeadLetter) : Call unit
| CompleteAsDead (id : string) (fence : option string) (duration : option Z)
    (error : option string) (dl : DeadLetter) (now : instant) : Call bool
| ReplayDeadLetter (id : string) (ex : Execution) : Call unit
| GetDeadLetter (id : string) : Call (option DeadLetter)
| RemoveDeadLetter (id : string) : Call unit
| ListDeadLetters (f : DeadLetterFilter) : Call (list DeadLetter)
| CountDeadLetters (key : option string) : Call Z
| RemoveDeadLetters (ids : list string) : Call Z
| ClearDeadLetters (key : option string) : Call Z
| PurgeExpired (now : instant) : Call Z
(** [JobDefinitionStore], [ExecutionLogStore], the audit log *)
| GetJobDefinition (key : string) : Call (option JobDefinition)
| AppendLogs (entries : list ExecutionLogEntry) : Call unit
| AuditLog (ev : AuditEvent) : Call unit
(** [AlertStore] *)
| RecordAlertDelivery (d : AlertDelivery) : Call unit
| GetRuleOverride (rule : string) : Call (option AlertRuleOverride)
| DeleteExpiredOverrides (now : instant) : Call (list string)
| GetAck (key : string) : Call (option JobAlertAck)
| TakeAck (key : string) : Call (option JobAlertAck)
| RecordAckSuppression (key eid error : string) (at_ : instant) : Call unit
| TakeExpiredAcks (now : instant) : Call (list JobAlertAck)
| RecordJobFailure (key eid error : string) (at_ : instant) : Call JobFailureStreak
| TakeStreak (key : string) : Call (option JobFailureStreak).

(** ** The contract *)

(** [INSERT] under a primary key that is free. *)
Definition inserted {A} (m : gmap string A) (k : string) (x : A) (m' : gmap string A) : Prop :=
  m !! k = None /\ m' = <[k := x]> m.

(** A compare-and-swap on one execution row. *)
Definition swapped (ok : Execution -> bool) (f : Execution -> Execution) (id : string)
    (m m' : gmap string Execution) (hit : bool) : Prop :=
  match m !! id with
  | Some e => hit = ok e /\ m' = (if ok e then <[id := f e]> m else m)
  | None => hit = false /\ m' = m
  end.

Definition not_in (ids : list string) (id : string) : bool :=
  negb (existsb (String.eqb id) ids).
(** [DELETE .. WHERE id IN (..)] of executions and their log lines. *)
Definition drop_executions (ids : list string) (t : Tables) : Tables :=
  set_logs (base.filter (fun le => not_in ids (le_execution_id le) = true) (tb_logs t))
    (set_execs (base.filter (fun kv => not_in ids kv.1 = true) (tb_execs t)) t).

Definition drop_acks (l : list JobAlertAck) (m : gmap string JobAlertAck) : gmap string JobAlertAck :=
  fold_left (fun m a => delete (ak_job_key a) m) l m.

Definition override_expired (now : instant) (o : AlertRuleOverride) : bool :=
  match ov_expires_at o with Some x => x <=? now | None => false end.

Definition post {A} (c : Call A) (t t' : Tables) : A -> Prop :=
  match c in Call A return A -> Prop with
  | ListJobStates => fun r => t' = t /\ r ≡ₚ rows (tb_states t)
  | UpsertJobState row => fun _ => t' = set_states (<[js_job_key row := row]> (tb_states t)) t
  | ListRegisterFires => fun r => t' = t /\ r ≡ₚ rows (tb_fires t)
  | UpsertRegisterFire row => fun _ => t' = set_fires (<[rf_job_key row := row]> (tb_fires t)) t
  | DeleteRegisterFire key => fun _ => t' = set_fires (delete key (tb_fires t)) t
  | CreateExecution ex => fun _ =>
      exists m, inserted (tb_execs t) (ex_id ex) ex m /\ t' = set_execs m t
  | CreateAndAdvance ex row => fun _ =>
      exists m, inserted (tb_execs t) (ex_id ex) ex m
        /\ t' = set_states (<[js_job_key row := row]> (tb_states t)) (set_execs m t)
  | GetExecution id => fun r => t' = t /\ r = tb_execs t !! id
  | ClaimExecution id runner now => fun r =>
      exists m, swapped (has_state EQueued) (claimed_row runner now) id (tb_execs t) m true
        /\ t' = set_execs m t /\ m !! id = Some r
  | CompleteExecution id fence st duration error reason now => fun r =>
      exists m, swapped (fun e => has_state EClaimed e && fence_ok fence e)
                  (set_outcome st now duration error reason) id (tb_execs t) m r
        /\ t' = set_execs m t
  | FindQueued limit => fun r =>
      t' = t /\ slice by_fire 0 limit (base.filter (fun e => has_state EQueued e = true)
                                         (rows (tb_execs t))) r
  | ListExecutions f => fun r =>
      t' = t /\ slice newest_first 0 (Z.min (default 100 (ef_limit f)) MAX_EXECUTIONS_LIMIT)
                  (base.filter (fun e => filter_ok f e = true) (rows (tb_execs t))) r
  | ListClaimedOlderThan cutoff limit => fun r =>
      t' = t /\ slice by_claim 0 limit
                  (base.filter (fun e => has_state EClaimed e = true
                                         /\ opt_le (ex_claimed_at e) (Some cutoff))
                     (rows (tb_execs t))) r
  | FindByIdempotencyKey key idem start => fun r =>
      let hit e := for_job key e = true /\ ex_idempotency_key e = Some idem
                   /\ (in_flight e = true \/ start <= ex_created_at e) in
      t' = t /\ match r with
                | Some e => (exists id, tb_execs t !! id = Some e) /\ hit e
                            /\ forall id e', tb_execs t !! id = Some e' -> hit e' ->
                                 ex_created_at e' <= ex_created_at e
                | None => forall id e', tb_execs t !! id = Some e' -> ~ hit e'
                end
  | RequeueAbandoned runner now => fun r =>
      r ≡ₚ (map_to_list (base.filter (fun kv => claimed_by runner kv.2 = true) (tb_execs t))).*1
      /\ t' = set_execs ((fun e => if claimed_by runner e then requeued_row e else e)
                           <$> tb_execs t) t
  | RequeueIfClaimed id now => fun r =>
      exists m, swapped (has_state EClaimed) requeued_row id (tb_execs t) m r
        /\ t' = set_execs m t
  | CancelExecution id now => fun _ =>
      exists m hit, swapped in_flight (cancelled_row now) id (tb_execs t) m hit
        /\ t' = set_execs m t
  | CountInStates key states => fun n =>
      t' = t /\ n = Z.of_nat (length (base.filter (fun e => for_job key e = true
                                 /\ in_states states e = true) (rows (tb_execs t))))
  | CountInGroup group states => fun n =>
      t' = t /\ n = Z.of_nat (length (base.filter (fun e => in_group group e = true
                                 /\ in_states states e = true) (rows (tb_execs t))))
  | PruneOlderThan cutoff limit => fun n =>
      exists gone, slice by_completed 0 limit
          (base.filter (fun e => (is_Some (ex_completed_at e)
                                  /\ opt_le (ex_completed_at e) (Some cutoff))
                                 /\ deletable (tb_dead t) e = true) (rows (tb_execs t))) gone
        /\ t' = drop_executions (map ex_id gone) t /\ n = Z.of_nat (length gone)
  | PruneKeepLast key keep limit => fun n =>
      exists gone, slice (flip by_completed) keep limit
          (base.filter (fun e => (for_job key e = true /\ is_Some (ex_completed_at e))
                                 /\ deletable (tb_dead t) e = true) (rows (tb_execs t))) gone
        /\ t' = drop_executions (map ex_id gone) t /\ n = Z.of_nat (length gone)
  | BindRunner rid owner now => fun r =>
      r = ri_owner_id (bound_row owner now (tb_identities t !! rid))
      /\ t' = bound rid owner now t
  | ReleaseRunner rid => fun _ => t' = set_identities (delete rid (tb_identities t)) t
  | AddDeadLetter dl => fun _ => exists m, inserted (tb_dead t) (dl_id dl) dl m /\ t' = set_dead m t
  | CompleteAsDead id fence duration error dl now => fun r =>
      exists m, swapped (fun e => in_states [EClaimed; EFailed] e && fence_ok fence e)
                  (set_outcome EDead now duration error (Some (dl_dead_reason dl))) id
                  (tb_execs t) m r
        /\ if r then exists d, inserted (tb_dead t) (dl_id dl) dl d
                               /\ t' = set_dead d (set_execs m t)
           else t' = t
  | ReplayDeadLetter id ex => fun _ =>
      is_Some (tb_dead t !! id) /\
      exists m, inserted (tb_execs t) (ex_id ex) ex m
        /\ t' = set_execs m (set_dead (delete id (tb_dead t)) t)
  | GetDeadLetter id => fun r => t' = t /\ r = tb_dead t !! id
  | RemoveDeadLetter id => fun _ => t' = set_dead (delete id (tb_dead t)) t
  | ListDeadLetters f => fun r =>
      t' = t /\ slice newest_letter 0 (Z.min (default 100 (df_limit f)) MAX_PAGE_LIMIT)
                  (base.filter (fun dl => letter_of (df_job_key f) dl = true) (rows (tb_dead t))) r
  | CountDeadLetters key => fun n =>
      t' = t /\ n = Z.of_nat (size (base.filter (fun kv => letter_of key kv.2 = true) (tb_dead t)))
  | RemoveDeadLetters ids => fun n =>
      t' = set_dead (base.filter (fun kv => not_in ids kv.1 = true) (tb_dead t)) t
      /\ n = Z.of_nat (size (base.filter (fun kv => not_in ids kv.1 = false) (tb_dead t)))
  | ClearDeadLetters key => fun n =>
      t' = set_dead (base.filter (fun kv => letter_of key kv.2 = false) (tb_dead t)) t
      /\ n = Z.of_nat (size (base.filter (fun kv => letter_of key kv.2 = true) (tb_dead t)))
  | PurgeExpired now => fun n =>
      let keep (dl : DeadLetter) := match dl_expires_at dl with Some x => negb (x <=? now)
                                                            | None => true end in
      t' = set_dead (base.filter (fun kv => keep kv.2 = true) (tb_dead t)) t
      /\ n = Z.of_nat (size (base.filter (fun kv => keep kv.2 = false) (tb_dead t)))
  | GetJobDefinition key => fun r => t' = t /\ r = tb_defs t !! key
  | AppendLogs entries => fun _ => t' = set_logs (fold_left append_entry entries (tb_logs t)) t
  | AuditLog ev => fun _ => t' = set_audit (tb_audit t ++ [ev]) t
  | RecordAlertDelivery d => fun _ =>
      t' = set_deliveries (if bool_decide (is_Some (tb_deliveries t !! ad_delivery_id d))
                           then tb_deliveries t
                           else <[ad_delivery_id d := d]> (tb_deliveries t)) t
  | GetRuleOverride rule => fun r => t' = t /\ r = tb_overrides t !! rule
  | DeleteExpiredOverrides now => fun r =>
      r ≡ₚ (map_to_list (base.filter (fun kv => override_expired now kv.2 = true)
                           (tb_overrides t))).*1
      /\ t' = set_overrides (base.filter (fun kv => override_expired now kv.2 = false)
                               (tb_overrides t)) t
  | GetAck key => fun r => t' = t /\ r = tb_acks t !! key
  | TakeAck key => fun r => r = tb_acks t !! key /\ t' = set_acks (delete key (tb_acks t)) t
  | RecordAckSuppression key eid error at_ => fun _ =>
      t' = set_acks (alter (fun a => ack_after a eid error at_) key (tb_acks t)) t
  | TakeExpiredAcks now => fun r =>
      r ≡ₚ rows (base.filter (fun kv => (ak_expires_at kv.2 <=? now) = true) (tb_acks t))
      /\ t' = set_acks (drop_acks r (tb_acks t)) t
  | RecordJobFailure key eid error at_ => fun r =>
      r = streak_after (tb_streaks t !! key) key eid error at_
      /\ t' = set_streaks (<[key := r]> (tb_streaks t)) t
  | TakeStreak key => fun r =>
      r = tb_streaks t !! key /\ t' = set_streaks (delete key (tb_streaks t)) t
  end.

(** Errors that report the state of a row, rather than a failed database. *)
Definition refusal {A} (c : Call A) (t : Tables) (e : StoreError) : Prop :=
  match c with
  | ClaimExecution id _ _ =>
      (exists w, e = Conflict w)
      /\ forall ex, tb_execs t !! id = Some ex -> has_state EQueued ex = false
  | ReplayDeadLetter id _ => (exists w, e = NotFound w) /\ tb_dead t !! id = None
  | _ => False
  end.

(** What a call that reports a failed database may have left behind. *)
Definition residue {A} (c : Call A) (t t' : Tables) : Prop :=
  t' = t \/
  match c in Call A with
  | ClaimExecution id runner now =>
      exists m, swapped (has_state EQueued) (claimed_row runner now) id (tb_execs t) m true
        /\ t' = set_execs m t
  | TakeExpiredAcks now =>
      exists l, t' = set_acks (drop_acks l (tb_acks t)) t
        /\ l ⊆ rows (base.filter (fun kv => (ak_expires_at kv.2 <=? now) = true) (tb_acks t))
  | BindRunner rid owner now => t' = bound rid owner now t
  | RecordJobFailure key eid error at_ =>
      t' = set_streaks (<[key := streak_after (tb_streaks t !! key) key eid error at_]>
                          (tb_streaks t)) t
  | _ => False
  end.

Definition honours {A} (c : Call A) (t t' : Tables) (r : result A StoreError) : Prop :=
  match r with
  | Ok a => post c t t' a
  | Err (Database _) => residue c t t'
  | Err e => t' = t /\ refusal c t e
  end.

Class StoreOps (St : Type) := {
  tables : St -> Tables;
  run : forall {A}, St -> Call A -> St * result A StoreError
}.

Class StoreLaws (St : Type) `{SO : StoreOps St} := {
  run_honours {A} (c : Call A) (s s' : St) (r : result A StoreError) :
    run s c = (s', r) -> honours c (tables s) (tables s') r
}.
