(* ===== verification/Sqlite.v ===== *)
(** * The SQLite store

    Models the job, execution, dead-letter, log, audit and alert calls of
    [croniq-store/src/sqlite.rs]: each SQL statement as the change it makes to
    the tables, the methods composed of statements and transactions as the
    source composes them. The engine may refuse any statement, [BEGIN] and
    [COMMIT] included: the store carries a script of refusals, one entry per
    statement. A refused transaction is rolled back.

    RFC 3339 text in UTC compares in chronological order, so timestamps are
    compared as instants; a row is read back as it was written. Rows selected
    with [ORDER BY] come in one of the orders the clause allows. The foreign key of
    [execution_logs] is checked where a statement could break it: on the insert of
    a log line and on the delete of executions.

    The statements of one call run without those of another in between: every
    method but one keeps the connection's mutex to its end. [claim_execution]
    releases it between its update and the read of the row, so that a call of
    another thread could come there and the caller be handed the row as that call
    left it; this, and a second process on the same database file, is not
    modelled. *)

From S2P Require Import Prelude RustStr Chrono Store StoreCalls.

Local Open Scope string_scope.
Local Open Scope Z_scope.

Record SqliteStore := MkSqlite { sq_tables : Tables; sq_faults : list bool }.

(** ** Statements and transactions *)

Definition Sql (A : Type) : Type := SqliteStore -> SqliteStore * result A StoreError.

Definition sql_ret {A} (a : A) : Sql A := fun s => (s, Ok a).
Definition sql_bind {A B} (m : Sql A) (k : A -> Sql B) : Sql B := fun s =>
  match m s with
  | (s, Ok a) => k a s
  | (s, Err e) => (s, Err e)
  end.

Declare Scope sql_scope.
Delimit Scope sql_scope with sql.
Notation "x <-- m ; k" := (sql_bind m (fun x => k))
  (at level 100, m at next level, right associativity) : sql_scope.
Local Open Scope sql_scope.

Definition sql_error {A} (what : string) : result A StoreError := Err (Database what).

(** One statement; the engine refuses it when the script says so. *)
Definition statement {A} (f : Tables -> result (Tables * A) StoreError) : Sql A := fun s =>
  match sq_faults s with
  | true :: fs => (MkSqlite (sq_tables s) fs, sql_error "refused")
  | fs => match f (sq_tables s) with
          | Ok (t, a) => (MkSqlite t (tail fs), Ok a)
          | Err e => (MkSqlite (sq_tables s) (tail fs), Err e)
          end
  end.
Definition query {A} (f : Tables -> A) : Sql A := statement (fun t => Ok (t, f t)).
Definition execute {A} (f : Tables -> Tables * A) : Sql A := statement (fun t => Ok (f t)).

(** [conn.transaction()] .. [tx.commit()]; a body that answers without
    committing leaves the tables as they were. *)
Definition transaction {A} (m : Sql (A * bool)) : Sql A := fun s =>
  let start := sq_tables s in
  let roll_back s := MkSqlite start (sq_faults s) in
  match query (fun _ => tt) s with
  | (s, Err e) => (roll_back s, Err e)
  | (s, Ok _) =>
      match m s with
      | (s, Err e) => (roll_back s, Err e)
      | (s, Ok (a, false)) => (roll_back s, Ok a)
      | (s, Ok (a, true)) =>
          match query (fun _ => tt) s with
          | (s, Ok _) => (s, Ok a)
          | (s, Err e) => (roll_back s, Err e)
          end
      end
  end.

(** ** Orders of the selections *)

#[export] Instance by_fire_dec : RelDecision by_fire.
Proof. unfold by_fire. intros a b. apply _. Defined.
#[export] Instance newest_letter_dec : RelDecision newest_letter.
Proof. unfold RelDecision, newest_letter. apply _. Defined.
#[export] Instance by_claim_dec : RelDecision by_claim.
Proof. unfold by_claim. intros a b. apply _. Defined.
#[export] Instance opt_lt_dec a b : Decision (opt_lt a b).
Proof. destruct a, b; cbn; apply _. Defined.
#[export] Instance by_completed_dec : RelDecision by_completed.
Proof. unfold by_completed. intros a b. apply _. Defined.
#[export] Instance newest_first_dec : RelDecision newest_first.
Proof. unfold newest_first. intros a b. apply _. Defined.
#[export] Instance flip_by_completed_dec : RelDecision (flip by_completed).
Proof. unfold flip. intros a b. apply _. Defined.

Module Db.

(** [UPDATE executions SET .. WHERE id = ? AND ..]: whether a row matched. *)
Definition update_execution (id : string) (ok : Execution -> bool) (f : Execution -> Execution)
    : Sql bool :=
  execute (fun t =>
    match tb_execs t !! id with
    | Some e => if ok e then (set_execs (<[id := f e]> (tb_execs t)) t, true) else (t, false)
    | None => (t, false)
    end).

(** [insert_execution_with] *)
Definition insert_execution_with (ex : Execution) : Sql unit :=
  statement (fun t =>
    match tb_execs t !! ex_id ex with
    | Some _ => sql_error "UNIQUE constraint failed: executions.id"
    | None => Ok (set_execs (<[ex_id ex := ex]> (tb_execs t)) t, tt)
    end).

(** [insert_dead_letter_with] *)
Definition insert_dead_letter_with (dl : DeadLetter) : Sql unit :=
  statement (fun t =>
    match tb_dead t !! dl_id dl with
    | Some _ => sql_error "UNIQUE constraint failed: dead_letters.id"
    | None => Ok (set_dead (<[dl_id dl := dl]> (tb_dead t)) t, tt)
    end).

(** [upsert_job_state_with] *)
Definition upsert_job_state_with (row : JobState) : Sql unit :=
  execute (fun t => (set_states (<[js_job_key row := row]> (tb_states t)) t, tt)).

(** [update_to_dead_with] *)
Definition update_to_dead_with (id : string) (fence : option string) (duration : option Z)
    (error dead_reason : option string) (now : instant) : Sql bool :=
  update_execution id (fun e => in_states [EClaimed; EFailed] e && fence_ok fence e)
    (set_outcome EDead now duration error dead_reason).

(** ** [JobStore] *)

Definition list_job_states : Sql (list JobState) := query (fun t => rows (tb_states t)).
Definition upsert_job_state (row : JobState) : Sql unit := upsert_job_state_with row.
Definition list_register_fires : Sql (list JobRegisterFire) := query (fun t => rows (tb_fires t)).
Definition upsert_register_fire (row : JobRegisterFire) : Sql unit :=
  execute (fun t => (set_fires (<[rf_job_key row := row]> (tb_fires t)) t, tt)).
Definition delete_register_fire (key : string) : Sql unit :=
  execute (fun t => (set_fires (delete key (tb_fires t)) t, tt)).

(** ** [ExecutionStore] *)

Definition create_execution (ex : Execution) : Sql unit := insert_execution_with ex.

Definition create_execution_and_advance_job_state (ex : Execution) (row : JobState) : Sql unit :=
  transaction
    (_ <-- insert_execution_with ex;
     _ <-- upsert_job_state_with row;
     sql_ret (tt, true)).

Definition get_execution (id : string) : Sql (option Execution) := query (fun t => tb_execs t !! id).

Definition claim_execution (id runner : string) (now : instant) : Sql Execution :=
  affected <-- update_execution id (has_state EQueued) (claimed_row runner now);
  if affected then
    row <-- get_execution id;
    fun s => (s, ok_or row (NotFound ("execution " ++ id)))
  else fun s => (s, Err (Conflict ("execution " ++ id ++ " is not in queued state"))).

Definition complete_execution (id : string) (fence : option string) (st : ExecutionState)
    (duration : option Z) (error dead_reason : option string) (now : instant) : Sql bool :=
  update_execution id (fun e => has_state EClaimed e && fence_ok fence e)
    (set_outcome st now duration error dead_reason).

(** [SELECT .. WHERE .. ORDER BY .. LIMIT .. OFFSET ..] over executions *)
Definition select_executions (P : Execution -> bool) (R : relation Execution)
    `{!RelDecision R} (offset limit : Z) (t : Tables) : list Execution :=
  take (Z.to_nat limit) (drop (Z.to_nat offset)
    (merge_sort R (base.filter (fun e => P e = true) (rows (tb_execs t))))).

Definition find_queued_executions (limit : Z) : Sql (list Execution) :=
  query (select_executions (has_state EQueued) by_fire 0 limit).

Definition list_executions (f : ExecutionFilter) : Sql (list Execution) :=
  query (select_executions (filter_ok f) newest_first 0
           (Z.min (default 100 (ef_limit f)) MAX_EXECUTIONS_LIMIT)).

Definition list_claimed_older_than (cutoff : instant) (limit : Z) : Sql (list Execution) :=
  query (select_executions
           (fun e => has_state EClaimed e
                     && (bool_decide (ex_claimed_at e = None)
                         || match ex_claimed_at e with Some x => x <=? cutoff | None => false end))
           by_claim 0 limit).

Definition find_execution_by_idempotency_key (key idem : string) (start : instant)
    : Sql (option Execution) :=
  query (fun t => head (select_executions
    (fun e => for_job key e && bool_decide (ex_idempotency_key e = Some idem)
              && (in_states [EQueued; EClaimed] e || (start <=? ex_created_at e)))
    newest_first 0 1 t)).

Definition requeue_abandoned (runner : string) (_now : instant) : Sql (list string) :=
  ids <-- query (fun t => (map_to_list (base.filter (fun kv => claimed_by runner kv.2 = true)
                                          (tb_execs t))).*1);
  match ids with
  | [] => sql_ret []
  | _ =>
      _ <-- execute (fun t => (set_execs ((fun e => if claimed_by runner e then requeued_row e else e)
                                            <$> tb_execs t) t, tt));
      sql_ret ids
  end.

Definition requeue_if_claimed (id : string) (_now : instant) : Sql bool :=
  update_execution id (has_state EClaimed) requeued_row.

Definition cancel_execution (id : string) (now : instant) : Sql unit :=
  _ <-- update_execution id (in_states [EQueued; EClaimed]) (cancelled_row now);
  sql_ret tt.

(** The states a partial index covers are repeated as a literal term. *)
Definition inflight_index_term (states : list ExecutionState) (e : Execution) : bool :=
  if forallb (fun s => bool_decide (s = EQueued) || bool_decide (s = EClaimed)) states
  then in_states [EQueued; EClaimed] e else true.

Definition count_rows (P : Execution -> bool) (t : Tables) : Z :=
  Z.of_nat (length (base.filter (fun e => P e = true) (rows (tb_execs t)))).

Definition count_executions_in_states (key : string) (states : list ExecutionState) : Sql Z :=
  match states with
  | [] => sql_ret 0
  | _ => query (count_rows (fun e => for_job key e && in_states states e
                                     && inflight_index_term states e))
  end.

Definition count_executions_in_group_in_states (group : string) (states : list ExecutionState)
    : Sql Z :=
  match states with
  | [] => sql_ret 0
  | _ => query (count_rows (fun e => in_group group e && in_states states e))
  end.

(** [DELETE FROM executions]: no log line may refer to a deleted row (foreign
    key). *)
Definition delete_executions (select : Tables -> list Execution) : Sql Z :=
  statement (fun t =>
    let ids := map ex_id (select t) in
    if forallb (fun le => not_in ids (le_execution_id le)) (tb_logs t)
    then Ok (set_execs (base.filter (fun kv => not_in ids kv.1 = true) (tb_execs t)) t,
             Z.of_nat (length (select t)))
    else sql_error "FOREIGN KEY constraint failed").

(** The two deletes of a prune, by one selection: the logs first. *)
Definition prune_selection (select : Tables -> list Execution) : Sql Z :=
  transaction
    (_ <-- execute (fun t => (set_logs (base.filter (fun le =>
              not_in (map ex_id (select t)) (le_execution_id le) = true) (tb_logs t)) t, tt));
     n <-- delete_executions select;
     sql_ret (n, true)).

Definition prune_executions_older_than (cutoff : instant) (limit : Z) : Sql Z :=
  prune_selection (fun t => select_executions
    (fun e => match ex_completed_at e with Some x => x <=? cutoff | None => false end
              && deletable (tb_dead t) e) by_completed 0 limit t).

Definition prune_executions_keep_last (key : string) (keep limit : Z) : Sql Z :=
  prune_selection (fun t => select_executions
    (fun e => for_job key e && bool_decide (is_Some (ex_completed_at e))
              && deletable (tb_dead t) e) (flip by_completed) keep limit t).

(** ** [DeadLetterStore] *)

Definition add_dead_letter (dl : DeadLetter) : Sql unit := insert_dead_letter_with dl.

Definition complete_as_dead (id : string) (fence : option string) (duration : option Z)
    (error : option string) (dl : DeadLetter) (now : instant) : Sql bool :=
  transaction
    (updated <-- update_to_dead_with id fence duration error (Some (dl_dead_reason dl)) now;
     if negb updated then sql_ret (false, false)
     else _ <-- insert_dead_letter_with dl; sql_ret (true, true)).

Definition replay_dead_letter (id : string) (ex : Execution) : Sql unit :=
  transaction
    (affected <-- execute (fun t => (set_dead (delete id (tb_dead t)) t,
                                     bool_decide (is_Some (tb_dead t !! id))));
     if negb affected then fun s => (s, Err (NotFound ("dead letter " ++ id)))
     else _ <-- insert_execution_with ex; sql_ret (tt, true)).

Definition get_dead_letter (id : string) : Sql (option DeadLetter) := query (fun t => tb_dead t !! id).
Definition remove_dead_letter (id : string) : Sql unit :=
  execute (fun t => (set_dead (delete id (tb_dead t)) t, tt)).
Definition list_dead_letters (f : DeadLetterFilter) : Sql (list DeadLetter) :=
  query (fun t => take (Z.to_nat (Z.min (default 100 (df_limit f)) MAX_PAGE_LIMIT))
    (merge_sort newest_letter
       (base.filter (fun dl => letter_of (df_job_key f) dl = true) (rows (tb_dead t))))).
Definition count_dead_letters (key : option string) : Sql Z :=
  query (fun t => Z.max 0 (Z.of_nat (length
    (base.filter (fun dl => letter_of key dl = true) (rows (tb_dead t)))))).
Definition remove_dead_letters (ids : list string) : Sql Z :=
  match ids with
  | [] => sql_ret 0
  | _ => execute (fun t =>
      (set_dead (base.filter (fun kv => not_in ids kv.1 = true) (tb_dead t)) t,
       Z.of_nat (size (base.filter (fun kv => not_in ids kv.1 = false) (tb_dead t)))))
  end.
Definition clear_dead_letters (key : option string) : Sql Z :=
  execute (fun t =>
    (set_dead (base.filter (fun kv => letter_of key kv.2 = false) (tb_dead t)) t,
     Z.of_nat (size (base.filter (fun kv => letter_of key kv.2 = true) (tb_dead t))))).
Definition purge_expired (now : instant) : Sql Z :=
  execute (fun t =>
    let gone (dl : DeadLetter) := match dl_expires_at dl with Some x => x <=? now | None => false end in
    (set_dead (base.filter (fun kv => gone kv.2 = false) (tb_dead t)) t,
     Z.of_nat (size (base.filter (fun kv => gone kv.2 = true) (tb_dead t))))).

(** ** Runner identities *)

(** [INSERT .. ON CONFLICT(runner_id) DO NOTHING], then the row is read back. *)
Definition runner_identity_bind (rid owner : string) (now : instant) : Sql string :=
  _ <-- execute (fun t =>
    match tb_identities t !! rid with
    | Some _ => (t, tt)
    | None => (set_identities (<[rid := {| ri_owner_id := owner; ri_bound_at := now |}]>
                                 (tb_identities t)) t, tt)
    end);
  row <-- query (fun t => ri_owner_id <$> tb_identities t !! rid);
  fun s => (s, ok_or row (Database "query returned no rows")).
Definition runner_identity_release (rid : string) : Sql unit :=
  execute (fun t => (set_identities (delete rid (tb_identities t)) t, tt)).

(** ** Definitions, logs and the audit trail *)

Definition get_job_definition (key : string) : Sql (option JobDefinition) :=
  query (fun t => tb_defs t !! key).

(** [insert_log_with]: the execution must exist (foreign key). *)
Definition insert_log_with (le : ExecutionLogEntry) (seq : Z) : Sql unit :=
  statement (fun t =>
    match tb_execs t !! le_execution_id le with
    | None => sql_error "FOREIGN KEY constraint failed"
    | Some _ =>
        if existsb (fun old => String.eqb (le_id old) (le_id le)) (tb_logs t)
        then sql_error "UNIQUE constraint failed: execution_logs.id"
        else Ok (set_logs (tb_logs t ++ [with_seq seq le]) t, tt)
    end).

(** [append_logs_batch]: [cache] is [next_seq_by_exec]. *)
Fixpoint append_entries (cache : gmap string Z) (entries : list ExecutionLogEntry) : Sql unit :=
  match entries with
  | [] => sql_ret tt
  | le :: entries =>
      next <-- match cache !! le_execution_id le with
               | Some n => sql_ret n
               | None => query (fun t => next_seq (tb_logs t) (le_execution_id le))
               end;
      _ <-- insert_log_with le next;
      append_entries (<[le_execution_id le := next + 1]> cache) entries
  end.
Definition append_logs_batch (entries : list ExecutionLogEntry) : Sql unit :=
  match entries with
  | [] => sql_ret tt
  | _ => transaction (_ <-- append_entries ∅ entries; sql_ret (tt, true))
  end.

Definition audit_log (ev : AuditEvent) : Sql unit :=
  statement (fun t =>
    if existsb (fun old => String.eqb (ae_event_id old) (ae_event_id ev)) (tb_audit t)
    then sql_error "UNIQUE constraint failed: audit_log.event_id"
    else Ok (set_audit (tb_audit t ++ [ev]) t, tt)).

(** ** [AlertStore] *)

Definition record_alert_delivery (d : AlertDelivery) : Sql unit :=
  execute (fun t =>
    match tb_deliveries t !! ad_delivery_id d with
    | Some _ => (t, tt)
    | None => (set_deliveries (<[ad_delivery_id d := d]> (tb_deliveries t)) t, tt)
    end).

Definition get_alert_rule_override (rule : string) : Sql (option AlertRuleOverride) :=
  query (fun t => tb_overrides t !! rule).

Definition delete_expired_alert_rule_overrides (now : instant) : Sql (list string) :=
  cleared <-- query (fun t => (map_to_list (base.filter
                (fun kv => override_expired now kv.2 = true) (tb_overrides t))).*1);
  match cleared with
  | [] => sql_ret []
  | _ =>
      _ <-- execute (fun t => (set_overrides (base.filter
              (fun kv => override_expired now kv.2 = false) (tb_overrides t)) t, tt));
      sql_ret cleared
  end.

Definition get_job_alert_ack (key : string) : Sql (option JobAlertAck) := query (fun t => tb_acks t !! key).

Definition take_job_alert_ack (key : string) : Sql (option JobAlertAck) :=
  ack <-- get_job_alert_ack key;
  match ack with
  | Some _ => _ <-- execute (fun t => (set_acks (delete key (tb_acks t)) t, tt)); sql_ret ack
  | None => sql_ret None
  end.

Definition record_job_alert_ack_suppression (key eid error : string) (at_ : instant) : Sql unit :=
  execute (fun t => (set_acks (alter (fun a => ack_after a eid error at_) key (tb_acks t)) t, tt)).

Fixpoint delete_acks (acks : list JobAlertAck) : Sql unit :=
  match acks with
  | [] => sql_ret tt
  | a :: acks =>
      _ <-- execute (fun t => (set_acks (delete (ak_job_key a) (tb_acks t)) t, tt));
      delete_acks acks
  end.
Definition take_expired_job_alert_acks (now : instant) : Sql (list JobAlertAck) :=
  expired <-- query (fun t => rows (base.filter (fun kv => (ak_expires_at kv.2 <=? now) = true)
                                      (tb_acks t)));
  _ <-- delete_acks expired;
  sql_ret expired.

Definition record_job_failure (key eid error : string) (at_ : instant) : Sql JobFailureStreak :=
  _ <-- execute (fun t => (set_streaks (<[key := streak_after (tb_streaks t !! key) key eid error at_]>
                                          (tb_streaks t)) t, tt));
  row <-- query (fun t => tb_streaks t !! key);
  fun s => (s, ok_or row (Database "query returned no rows")).

Definition take_job_failure_streak (key : string) : Sql (option JobFailureStreak) :=
  streak <-- query (fun t => tb_streaks t !! key);
  match streak with
  | Some _ => _ <-- execute (fun t => (set_streaks (delete key (tb_streaks t)) t, tt)); sql_ret streak
  | None => sql_ret None
  end.

(** ** The store *)

Definition sqlite_call {A} (c : Call A) : Sql A :=
  match c in Call A return Sql A with
  | ListJobStates => list_job_states
  | UpsertJobState row => upsert_job_state row
  | ListRegisterFires => list_register_fires
  | UpsertRegisterFire row => upsert_register_fire row
  | DeleteRegisterFire key => delete_register_fire key
  | CreateExecution ex => create_execution ex
  | CreateAndAdvance ex row => create_execution_and_advance_job_state ex row
  | GetExecution id => get_execution id
  | ClaimExecution id runner now => claim_execution id runner now
  | CompleteExecution id fence st duration error reason now =>
      complete_execution id fence st duration error reason now
  | FindQueued limit => find_queued_executions limit
  | ListExecutions f => list_executions f
  | ListClaimedOlderThan cutoff limit => list_claimed_older_than cutoff limit
  | FindByIdempotencyKey key idem start => find_execution_by_idempotency_key key idem start
  | RequeueAbandoned runner now => requeue_abandoned runner now
  | RequeueIfClaimed id now => requeue_if_claimed id now
  | CancelExecution id now => cancel_execution id now
  | CountInStates key states => count_executions_in_states key states
  | CountInGroup group states => count_executions_in_group_in_states group states
  | PruneOlderThan cutoff limit => prune_executions_older_than cutoff limit
  | PruneKeepLast key keep limit => prune_executions_keep_last key keep limit
  | BindRunner rid owner now => runner_identity_bind rid owner now
  | ReleaseRunner rid => runner_identity_release rid
  | AddDeadLetter dl => add_dead_letter dl
  | CompleteAsDead id fence duration error dl now => complete_as_dead id fence duration error dl now
  | ReplayDeadLetter id ex => replay_dead_letter id ex
  | GetDeadLetter id => get_dead_letter id
  | RemoveDeadLetter id => remove_dead_letter id
  | ListDeadLetters f => list_dead_letters f
  | CountDeadLetters key => count_dead_letters key
  | RemoveDeadLetters ids => remove_dead_letters ids
  | ClearDeadLetters key => clear_dead_letters key
  | PurgeExpired now => purge_expired now
  | GetJobDefinition key => get_job_definition key
  | AppendLogs entries => append_logs_batch entries
  | AuditLog ev => audit_log ev
  | RecordAlertDelivery d => record_alert_delivery d
  | GetRuleOverride rule => get_alert_rule_override rule
  | DeleteExpiredOverrides now => delete_expired_alert_rule_overrides now
  | GetAck key => get_job_alert_ack key
  | TakeAck key => take_job_alert_ack key
  | RecordAckSuppression key eid error at_ => record_job_alert_ack_suppression key eid error at_
  | TakeExpiredAcks now => take_expired_job_alert_acks now
  | RecordJobFailure key eid error at_ => record_job_failure key eid error at_
  | TakeStreak key => take_job_failure_streak key
  end.

End Db.

#[export] Instance sqlite_ops : StoreOps SqliteStore := {|
  tables := sq_tables;
  run := fun A s c => Db.sqlite_call c s
|}.
