(* ===== verification/SqliteFacts.v ===== *)
(** * The SQLite store honours the contract of the store calls

    Each call of [Sqlite.Db], run statement by statement with any script of
    refusals, has the effect [StoreCalls.honours] promises: the laws the
    components of the server are proved against. *)

From S2P Require Import Prelude RustStr Chrono Store StoreCalls Sqlite.

Local Open Scope string_scope.
Local Open Scope Z_scope.

(** ** Statements honour the contract *)

Lemma statement_inv {A} (f : Tables -> result (Tables * A) StoreError) s s' r :
  statement f s = (s', r) ->
  (r = Err (Database "refused") /\ sq_tables s' = sq_tables s)
  \/ match f (sq_tables s) with
     | Ok (t, a) => sq_tables s' = t /\ r = Ok a
     | Err e => sq_tables s' = sq_tables s /\ r = Err e
     end.
Proof.
  unfold statement. destruct (sq_faults s) as [|[] fs]; [right|by left; simplify_eq|right];
    by destruct (f (sq_tables s)) as [[t a]|e]; simplify_eq.
Qed.

Lemma query_inv {A} (f : Tables -> A) s s' r :
  query f s = (s', r) ->
  sq_tables s' = sq_tables s /\ (r = Err (Database "refused") \/ r = Ok (f (sq_tables s))).
Proof. intros [[-> ->]|[-> ->]]%statement_inv; auto. Qed.

Lemma transaction_inv {A} (m : Sql (A * bool)) s s' r :
  transaction m s = (s', r) ->
  (r = Err (Database "refused") /\ sq_tables s' = sq_tables s)
  \/ exists s1 s2 x, sq_tables s1 = sq_tables s /\ m s1 = (s2, x) /\
     match x with
     | Ok (a, true) => r = Ok a /\ sq_tables s' = sq_tables s2
     | Ok (a, false) => r = Ok a /\ sq_tables s' = sq_tables s
     | Err e => r = Err e /\ sq_tables s' = sq_tables s
     end.
Proof.
  unfold transaction. destruct (query _ s) as [s1 r1] eqn:E1.
  apply query_inv in E1 as [Et1 [->| ->]]; [left; by simplify_eq|].
  destruct (m s1) as [s2 [[a []]|e]] eqn:E2; [|right; exists s1, s2; eexists; by simplify_eq..].
  destruct (query _ s2) as [s3 r3] eqn:E3. apply query_inv in E3 as [Et3 [->| ->]].
  - left. by simplify_eq.
  - right. exists s1, s2. eexists. by simplify_eq.
Qed.

Lemma sql_bind_inv {A B} (m : Sql A) (k : A -> Sql B) s s' r :
  sql_bind m k s = (s', r) ->
  exists s1 x, m s = (s1, x) /\
    match x with Ok a => k a s1 = (s', r) | Err e => s' = s1 /\ r = Err e end.
Proof. unfold sql_bind. destruct (m s) as [s1 [a|e]]; intros ?; eexists _, _; by simplify_eq. Qed.

Lemma set_execs_id t : set_execs (tb_execs t) t = t.
Proof. by destruct t. Qed.
Lemma set_acks_id t : set_acks (tb_acks t) t = t.
Proof. by destruct t. Qed.
Lemma set_streaks_id t : set_streaks (tb_streaks t) t = t.
Proof. by destruct t. Qed.
Lemma set_overrides_id t : set_overrides (tb_overrides t) t = t.
Proof. by destruct t. Qed.
Lemma set_deliveries_id t : set_deliveries (tb_deliveries t) t = t.
Proof. by destruct t. Qed.

Lemma update_inv id ok f s s' r :
  Db.update_execution id ok f s = (s', r) ->
  (r = Err (Database "refused") /\ sq_tables s' = sq_tables s)
  \/ exists hit m, r = Ok hit /\ swapped ok f id (tb_execs (sq_tables s)) m hit
       /\ sq_tables s' = set_execs m (sq_tables s).
Proof.
  intros [H|H]%statement_inv; [by left|]. right. unfold swapped.
  destruct (tb_execs (sq_tables s) !! id) as [e|]; [destruct (ok e)|]; destruct H as [-> ->];
    eexists _, _; (split_and!; [done..|]); by rewrite ?set_execs_id.
Qed.

Lemma insert_execution_inv ex s s' r :
  Db.insert_execution_with ex s = (s', r) ->
  (exists w, r = Err (Database w) /\ sq_tables s' = sq_tables s)
  \/ r = Ok tt /\ exists m, inserted (tb_execs (sq_tables s)) (ex_id ex) ex m
       /\ sq_tables s' = set_execs m (sq_tables s).
Proof.
  intros [[-> H]|H]%statement_inv; [left; eauto|].
  destruct (tb_execs (sq_tables s) !! ex_id ex) eqn:E; destruct H as [-> ->]; [left; eauto|].
  right. split; [done|]. eexists. by split.
Qed.

Lemma insert_dead_letter_inv dl s s' r :
  Db.insert_dead_letter_with dl s = (s', r) ->
  (exists w, r = Err (Database w) /\ sq_tables s' = sq_tables s)
  \/ r = Ok tt /\ exists m, inserted (tb_dead (sq_tables s)) (dl_id dl) dl m
       /\ sq_tables s' = set_dead m (sq_tables s).
Proof.
  intros [[-> H]|H]%statement_inv; [left; eauto|].
  destruct (tb_dead (sq_tables s) !! dl_id dl) eqn:E; destruct H as [-> ->]; [left; eauto|].
  right. split; [done|]. eexists. by split.
Qed.

(** A call that is one query honours a contract that changes nothing. *)
Lemma query_honours {A} (c : Call A) (f : Tables -> A) s s' r :
  query f s = (s', r) -> post c (sq_tables s) (sq_tables s) (f (sq_tables s)) ->
  honours c (sq_tables s) (sq_tables s') r.
Proof. intros [-> [->| ->]]%query_inv Hp; [by left|done]. Qed.

(** ... and one that is one unconditional write, the effect of its post. *)
Lemma execute_honours {A} (c : Call A) (f : Tables -> Tables * A) s s' r :
  execute f s = (s', r) -> post c (sq_tables s) (f (sq_tables s)).1 (f (sq_tables s)).2 ->
  honours c (sq_tables s) (sq_tables s') r.
Proof.
  intros [[-> ->]|H]%statement_inv Hp; [by left|].
  destruct (f (sq_tables s)) as [t a]. by destruct H as [-> ->].
Qed.

(** ** Selections *)

Lemma select_slice P R `{!RelDecision R} (Q : Execution -> Prop) `{!forall e, Decision (Q e)}
    offset limit t :
  Transitive R -> Total R -> (forall e, P e = true <-> Q e) ->
  slice R offset limit (base.filter Q (rows (tb_execs t)))
    (Db.select_executions P R offset limit t).
Proof.
  intros HT Htot HP. unfold Db.select_executions.
  eexists. split_and!; [| |done].
  - rewrite merge_sort_Permutation. by rewrite (list_filter_iff _ Q) by done.
  - by apply StronglySorted_merge_sort.
Qed.

#[export] Instance by_fire_trans : Transitive by_fire.
Proof. unfold by_fire. intros a b c. lia. Qed.
#[export] Instance by_fire_total : Total by_fire.
Proof. unfold by_fire. intros a b. lia. Qed.
#[export] Instance by_claim_trans : Transitive by_claim.
Proof. unfold by_claim, opt_le. intros a b c. repeat case_match; try done; lia. Qed.
#[export] Instance by_claim_total : Total by_claim.
Proof. unfold by_claim, opt_le. intros a b. repeat case_match; auto; lia. Qed.

Lemma opt_lt_trans a b c : opt_lt a b -> opt_lt b c -> opt_lt a c.
Proof. unfold opt_lt. repeat case_match; try done; lia. Qed.
Lemma opt_lt_total a b : opt_lt a b \/ a = b \/ opt_lt b a.
Proof.
  destruct a as [x|], b as [y|]; cbn; auto.
  destruct (Z.lt_trichotomy x y) as [|[->|]]; auto.
Qed.
#[export] Instance by_completed_trans : Transitive by_completed.
Proof.
  unfold by_completed. intros a b c [H1|[E1 L1]] [H2|[E2 L2]].
  - left. by eapply opt_lt_trans.
  - left. by rewrite <- E2.
  - left. by rewrite E1.
  - right. split; [congruence|]. by etrans.
Qed.
#[export] Instance by_completed_total : Total by_completed.
Proof.
  unfold by_completed. intros a b.
  destruct (opt_lt_total (ex_completed_at a) (ex_completed_at b)) as [|[E|]]; auto.
  destruct (total String.le (ex_id a) (ex_id b)); auto.
Qed.
#[export] Instance flip_by_completed_trans : Transitive (flip by_completed).
Proof. intros a b c H1 H2. red in H1, H2 |- *. by etrans. Qed.
#[export] Instance flip_by_completed_total : Total (flip by_completed).
Proof. intros a b. unfold flip. destruct (total by_completed a b); auto. Qed.
#[export] Instance newest_first_trans : Transitive newest_first.
Proof.
  unfold newest_first. intros a b c [H1|[E1 L1]] [H2|[E2 L2]]; [left; lia..|].
  right. split; [lia|]. by etrans.
Qed.
#[export] Instance newest_first_total : Total newest_first.
Proof.
  unfold newest_first. intros a b.
  destruct (Z.lt_trichotomy (ex_created_at a) (ex_created_at b)) as [|[E|]]; auto.
  destruct (total String.le (ex_id a) (ex_id b)); auto.
Qed.

(** ** Composed calls *)

Lemma create_and_advance_honours ex row s s' r :
  Db.create_execution_and_advance_job_state ex row s = (s', r) ->
  honours (CreateAndAdvance ex row) (sq_tables s) (sq_tables s') r.
Proof.
  intros [[-> ->]|(s1 & s2 & x & E1 & E & Hx)]%transaction_inv; [by left|].
  unfold sql_bind in E. destruct (Db.insert_execution_with ex s1) as [s3 r3] eqn:Ei.
  apply insert_execution_inv in Ei as [(w & -> & Et)|(-> & m & Hm & Et)].
  { simplify_eq. destruct Hx as [-> ->]. by left. }
  destruct (Db.upsert_job_state_with row s3) as [s4 r4] eqn:Eu.
  apply statement_inv in Eu as [[-> Et4]|[Et4 ->]]; unfold sql_ret in E; simplify_eq;
    destruct Hx as [-> ->]; [by left|]. exists m. rewrite <- E1. split; [done|].
  by rewrite Et4, Et.
Qed.

Lemma claim_honours id runner now s s' r :
  Db.claim_execution id runner now s = (s', r) ->
  honours (ClaimExecution id runner now) (sq_tables s) (sq_tables s') r.
Proof.
  unfold Db.claim_execution, sql_bind. destruct (Db.update_execution _ _ _ s) as [s1 r1] eqn:Eu.
  apply update_inv in Eu as [[-> Et]|(hit & m & -> & Hs & Et)]; [intros ?; simplify_eq; by left|].
  destruct hit.
  - destruct (Db.get_execution id s1) as [s2 r2] eqn:Eg.
    apply query_inv in Eg as [Et2 [->| ->]]; intros ?; simplify_eq.
    { right. exists m. by rewrite Et2. }
    unfold swapped in Hs. rewrite Et. cbn.
    destruct (tb_execs (sq_tables s) !! id) as [e|] eqn:Ee; [|by destruct Hs].
    destruct Hs as [Hok ->]. rewrite <- Hok in Et |- *. cbn. rewrite lookup_insert_eq. cbn.
    eexists. split_and!; [|by rewrite Et2, Et|by rewrite lookup_insert_eq].
    unfold swapped. by rewrite Ee, <- Hok.
  - intros ?; simplify_eq. unfold swapped in Hs. rewrite Et.
    destruct (tb_execs (sq_tables s) !! id) as [e|] eqn:Ee; cycle 1.
    { destruct Hs as [_ ->]. rewrite set_execs_id. split; [done|]. split; [eauto|].
      by rewrite Ee. }
    destruct Hs as [Hok ->]. rewrite <- Hok, set_execs_id. split; [done|]. split; [eauto|].
    intros e' He. congruence.
Qed.

Lemma cancel_honours id now s s' r :
  Db.cancel_execution id now s = (s', r) ->
  honours (CancelExecution id now) (sq_tables s) (sq_tables s') r.
Proof.
  unfold Db.cancel_execution, sql_bind. destruct (Db.update_execution _ _ _ s) as [s1 r1] eqn:Eu.
  apply update_inv in Eu as [[-> Et]|(hit & m & -> & Hs & Et)]; intros ?; unfold sql_ret in *;
    simplify_eq; [by left|]. exists m, hit. by split.
Qed.

Lemma idempotency_honours key idem start s s' r :
  Db.find_execution_by_idempotency_key key idem start s = (s', r) ->
  honours (FindByIdempotencyKey key idem start) (sq_tables s) (sq_tables s') r.
Proof.
  intros H. eapply query_honours; [exact H|]. cbv beta.
  set (P := fun e => _ && _ && _) in *. set (t := sq_tables s) in *.
  assert (forall e, P e = true <-> for_job key e = true /\ ex_idempotency_key e = Some idem
            /\ (in_flight e = true \/ start <= ex_created_at e)) as HP.
  { intros e. unfold P. rewrite !andb_true_iff, orb_true_iff, bool_decide_eq_true, Z.leb_le.
    unfold in_flight. tauto. }
  split; [done|].
  destruct (select_slice P newest_first (fun e => P e = true) 0 1 t) as (sorted & Hperm & Hss & ->);
    [apply _..|done|]. change (take (Z.to_nat 1) (drop (Z.to_nat 0) sorted)) with (take 1 sorted).
  assert (forall id e, tb_execs t !! id = Some e -> P e = true -> e ∈ sorted) as Hin.
  { intros id e He Hp. rewrite Hperm. apply list_elem_of_filter. split; [done|].
    apply list_elem_of_fmap. exists (id, e). split; [done|]. by apply elem_of_map_to_list. }
  destruct sorted as [|e sorted]; cbn.
  { intros id e' He Hhit%HP. specialize (Hin _ _ He Hhit). by apply not_elem_of_nil in Hin. }
  assert (e ∈ base.filter (fun e => P e = true) (rows (tb_execs t))) as He
    by (rewrite <- Hperm; left).
  apply list_elem_of_filter in He as [Hp He]. apply list_elem_of_fmap in He as ((id & e0) & -> & He).
  apply elem_of_map_to_list in He. split; [by exists id|]. split; [by apply HP|].
  intros id' e' He' Hhit%HP. specialize (Hin _ _ He' Hhit). cbn in *.
  apply elem_of_cons in Hin as [->|Hin]; [done|].
  apply StronglySorted_inv in Hss as [_ Hall]. rewrite Forall_forall in Hall.
  destruct (Hall _ Hin) as [|[? _]]; lia.
Qed.

Lemma requeue_abandoned_honours runner now s s' r :
  Db.requeue_abandoned runner now s = (s', r) ->
  honours (RequeueAbandoned runner now) (sq_tables s) (sq_tables s') r.
Proof.
  unfold Db.requeue_abandoned, sql_bind. destruct (query _ s) as [s1 r1] eqn:Eq.
  apply query_inv in Eq as [Et [->| ->]]; [intros ?; simplify_eq; by left|]. cbv beta.
  set (t := sq_tables s) in *. clearbody t.
  set (hit := base.filter (fun kv => claimed_by runner kv.2 = true) (tb_execs t)).
  destruct ((map_to_list hit).*1) as [|i ids] eqn:El.
  - unfold sql_ret. intros [= <- <-]. cbn. fold hit. rewrite El. split; [done|].
    rewrite Et. clear Et. destruct t as [st ex fi de lo df au sk ak ov dv]. cbn in *. unfold set_execs. cbn.
    f_equal. apply map_eq. intros k. rewrite lookup_fmap.
    destruct (ex !! k) as [e|] eqn:He; [|done]. cbn.
    destruct (claimed_by runner e) eqn:Ec; [|done]. exfalso.
    assert (hit !! k = Some e) as Hh by (by apply map_lookup_filter_Some).
    apply elem_of_map_to_list, (list_elem_of_fmap_2 fst) in Hh. rewrite El in Hh.
    by apply not_elem_of_nil in Hh.
  - destruct (execute _ s1) as [s2 r2] eqn:Ee.
    apply statement_inv in Ee as [[-> Et2]|[Et2 ->]]; unfold sql_ret; intros [= <- <-];
      [left; by rewrite Et2|]. cbn. fold hit. rewrite El. split; [done|]. by rewrite Et2, Et.
Qed.

Lemma count_honours_job key states s s' r :
  Db.count_executions_in_states key states s = (s', r) ->
  honours (CountInStates key states) (sq_tables s) (sq_tables s') r.
Proof.
  unfold Db.count_executions_in_states. destruct states as [|st states].
  { intros [= <- <-]. cbn. split; [done|]. rewrite list_filter_none; [done|]. apply Forall_forall. intros e _ [_ ?]. done. }
  intros H. eapply query_honours; [exact H|]. cbn [post]. split; [done|]. unfold Db.count_rows.
  do 2 f_equal. apply list_filter_iff. intros e. rewrite !andb_true_iff. split; [tauto|].
  intros [H1 H2]. split_and!; [done..|]. unfold Db.inflight_index_term.
  destruct (forallb _ _) eqn:Ef; [|done]. unfold in_states in H2 |- *. apply existsb_exists in H2
    as (x & Hx & Hs). rewrite forallb_forall in Ef. specialize (Ef x Hx).
  apply existsb_exists. exists x. split; [|done]. apply orb_true_iff in Ef.
  rewrite !bool_decide_eq_true in Ef. destruct Ef as [->| ->]; cbn; auto.
Qed.

Lemma count_honours_group group states s s' r :
  Db.count_executions_in_group_in_states group states s = (s', r) ->
  honours (CountInGroup group states) (sq_tables s) (sq_tables s') r.
Proof.
  unfold Db.count_executions_in_group_in_states. destruct states as [|st states].
  { intros [= <- <-]. cbn. split; [done|]. rewrite list_filter_none; [done|]. apply Forall_forall. intros e _ [_ ?]. done. }
  intros H. eapply query_honours; [exact H|]. cbn [post]. split; [done|]. unfold Db.count_rows.
  do 2 f_equal. apply list_filter_iff. intros e. by rewrite andb_true_iff.
Qed.

(** The delete of the log lines does not change what the delete of the
    executions selects. *)
(** Once the logs of the selected rows are gone, none refers to them. *)
Lemma logs_dropped ids l :
  forallb (fun le => not_in ids (le_execution_id le))
    (base.filter (fun le => not_in ids (le_execution_id le) = true) l) = true.
Proof. apply forallb_forall. intros le Hin%list_elem_of_In. by apply list_elem_of_filter in Hin as [? _]. Qed.

Lemma prune_inv select s s' r :
  (forall l t, select (set_logs l t) = select t) ->
  Db.prune_selection select s = (s', r) ->
  (r = Err (Database "refused") /\ sq_tables s' = sq_tables s)
  \/ (r = Ok (Z.of_nat (length (select (sq_tables s))))
      /\ sq_tables s' = drop_executions (map ex_id (select (sq_tables s))) (sq_tables s)).
Proof.
  intros Hsel [H|(s1 & s2 & x & E1 & E & Hx)]%transaction_inv; [by left|].
  apply sql_bind_inv in E as (s3 & y & Ey%statement_inv & E).
  destruct Ey as [[-> Et]|[Et ->]]; [destruct E as [-> ->]; left; by destruct Hx as [-> ->]|].
  apply sql_bind_inv in E as (s4 & z & Ez%statement_inv & E).
  destruct Ez as [[-> Et4]|Ez]; [destruct E as [-> ->]; left; by destruct Hx as [-> ->]|].
  rewrite Et, Hsel in Ez. cbn [tb_logs set_logs] in Ez. rewrite logs_dropped in Ez. destruct Ez as [Et4 ->].
  injection E as <- <-. destruct Hx as [-> ->]. right. rewrite Et4, E1. done.
Qed.

Lemma prune_older_honours cutoff limit s s' r :
  Db.prune_executions_older_than cutoff limit s = (s', r) ->
  honours (PruneOlderThan cutoff limit) (sq_tables s) (sq_tables s') r.
Proof.
  intros [[-> ->]|[-> ->]]%prune_inv; [by left| |done]. eexists. split; [|by split].
  apply select_slice; [apply _..|]. intros e. rewrite andb_true_iff. apply and_iff_compat_r.
  destruct (ex_completed_at e) as [x|]; cbn; [rewrite Z.leb_le|];
    split; [eauto|by intros [_ ?]|done|by intros [[? [=]] _]].
Qed.

Lemma prune_keep_honours key keep limit s s' r :
  Db.prune_executions_keep_last key keep limit s = (s', r) ->
  honours (PruneKeepLast key keep limit) (sq_tables s) (sq_tables s') r.
Proof.
  intros [[-> ->]|[-> ->]]%prune_inv; [by left| |done]. eexists. split; [|by split].
  apply select_slice; [apply _..|]. intros e. by rewrite !andb_true_iff, bool_decide_eq_true.
Qed.

Lemma complete_as_dead_honours id fence duration error dl now s s' r :
  Db.complete_as_dead id fence duration error dl now s = (s', r) ->
  honours (CompleteAsDead id fence duration error dl now) (sq_tables s) (sq_tables s') r.
Proof.
  intros [[-> ->]|(s1 & s2 & x & E1 & E & Hx)]%transaction_inv; [by left|].
  apply sql_bind_inv in E as (s3 & y & Ey%update_inv & E).
  destruct Ey as [[-> Et]|(hit & m & -> & Hs & Et)];
    [destruct E as [-> ->]; destruct Hx as [-> ->]; by left|]. rewrite E1 in Hs, Et.
  destruct hit; cbn in E.
  - apply sql_bind_inv in E as (s4 & z & Ez%insert_dead_letter_inv & E).
    destruct Ez as [(w & -> & Et4)|(-> & d & Hd & Et4)];
      [destruct E as [-> ->]; destruct Hx as [-> ->]; by left|].
    injection E as <- <-. destruct Hx as [-> ->]. rewrite Et in Hd.
    exists m. split; [done|]. exists d. split; [done|]. by rewrite Et4, Et.
  - injection E as <- <-. destruct Hx as [-> ->]. by exists m.
Qed.

Lemma replay_honours id ex s s' r :
  Db.replay_dead_letter id ex s = (s', r) ->
  honours (ReplayDeadLetter id ex) (sq_tables s) (sq_tables s') r.
Proof.
  intros [[-> ->]|(s1 & s2 & x & E1 & E & Hx)]%transaction_inv; [by left|].
  apply sql_bind_inv in E as (s3 & y & Ey%statement_inv & E).
  destruct Ey as [[-> Et]|[Et ->]]; [destruct E as [-> ->]; destruct Hx as [-> ->]; by left|].
  rewrite E1 in *. case_bool_decide as Hd; cbn in E.
  - apply sql_bind_inv in E as (s4 & z & Ez%insert_execution_inv & E).
    destruct Ez as [(w & -> & Et4)|(-> & d & Hi & Et4)];
      [destruct E as [-> ->]; destruct Hx as [-> ->]; by left|].
    injection E as <- <-. destruct Hx as [-> ->]. rewrite Et in Hi.
    split; [done|]. exists d. split; [done|]. by rewrite Et4, Et.
  - injection E as <- <-. destruct Hx as [-> ->]. split; [done|]. split; [eauto|].
    by apply eq_None_not_Some.
Qed.

(** ** Log batches: the cached sequence numbers are the recomputed ones *)

Lemma next_seq_snoc logs le eid :
  next_seq (logs ++ [le]) eid
  = if String.eqb (le_execution_id le) eid then Z.max (next_seq logs eid) (le_seq le + 1)
    else next_seq logs eid.
Proof. unfold next_seq. by rewrite fold_left_app. Qed.

Lemma next_seq_append logs le eid :
  next_seq (append_entry logs le) eid
  = if String.eqb (le_execution_id le) eid then next_seq logs eid + 1 else next_seq logs eid.
Proof.
  unfold append_entry. rewrite next_seq_snoc. cbn. destruct (String.eqb_spec (le_execution_id le) eid) as [->|];
    [lia|done].
Qed.

Lemma append_entries_inv entries cache s s' r :
  (forall k n, cache !! k = Some n -> n = next_seq (tb_logs (sq_tables s)) k) ->
  Db.append_entries cache entries s = (s', r) ->
  (exists w, r = Err (Database w))
  \/ r = Ok tt /\ sq_tables s' = set_logs (fold_left append_entry entries (tb_logs (sq_tables s)))
                                        (sq_tables s).
Proof.
  revert cache s. induction entries as [|le entries IH]; intros cache s Hc E.
  { injection E as <- <-. right. split; [done|]. cbn. by destruct (sq_tables s). }
  cbn in E. apply sql_bind_inv in E as (s1 & y & Ey & E).
  assert (y = Ok (next_seq (tb_logs (sq_tables s)) (le_execution_id le))
          /\ sq_tables s1 = sq_tables s \/ y = Err (Database "refused")) as [[-> Et]| ->].
  { destruct (cache !! le_execution_id le) as [n|] eqn:Ec.
    - left. injection Ey as <- <-. by rewrite (Hc _ _ Ec).
    - apply query_inv in Ey as [Et [->| ->]]; auto. }
  2: { destruct E as [-> ->]. left. eauto. }
  apply sql_bind_inv in E as (s2 & z & Ez%statement_inv & E). rewrite Et in Ez.
  destruct Ez as [[-> _]|Ez]; [destruct E as [-> ->]; eauto|].
  destruct (tb_execs _ !! _) as [e|]; [|destruct Ez as [_ ->]; destruct E as [-> ->]; unfold sql_error; eauto].
  destruct (existsb _ _); [destruct Ez as [_ ->]; destruct E as [-> ->]; unfold sql_error; eauto|].
  destruct Ez as [Et2 ->]. fold (append_entry (tb_logs (sq_tables s)) le) in Et2.
  apply IH in E as [?|[-> Et']]; [by left|right; split; [done|by rewrite Et', Et2]|].
  intros k n. rewrite Et2, lookup_insert. cbn [tb_logs set_logs]. rewrite next_seq_append.
  destruct (String.eqb_spec (le_execution_id le) k) as [->|Hne]; case_decide; try done; [by intros [= ->]|].
  apply Hc.
Qed.

Lemma append_logs_honours entries s s' r :
  Db.append_logs_batch entries s = (s', r) ->
  honours (AppendLogs entries) (sq_tables s) (sq_tables s') r.
Proof.
  unfold Db.append_logs_batch. destruct entries as [|le entries].
  { intros [= <- <-]. cbn. by destruct (sq_tables s). }
  intros [[-> ->]|(s1 & s2 & x & E1 & E & Hx)]%transaction_inv; [by left|].
  apply sql_bind_inv in E as (s3 & y & Ey%append_entries_inv & E); [|by intros k n ?].
  destruct Ey as [(w & ->)|(-> & Et)];
    [destruct E as [-> ->]; destruct Hx as [-> ->]; by left|].
  injection E as <- <-. destruct Hx as [-> ->]. by rewrite Et, E1.
Qed.

(** ** Alert rows *)

Lemma filter_keys_nil {A} (P : A -> bool) (m : gmap string A) :
  (map_to_list (base.filter (fun kv => P kv.2 = true) m)).*1 = [] ->
  base.filter (fun kv => P kv.2 = false) m = m.
Proof.
  intros H%fmap_nil_inv. apply map_to_list_empty_iff in H. apply map_filter_id. intros k x Hx.
  destruct (P x) eqn:Ep; [|done].
  by apply (map_filter_empty_not_lookup _ _ _ _ H) in Hx.
Qed.

Lemma delete_overrides_honours now s s' r :
  Db.delete_expired_alert_rule_overrides now s = (s', r) ->
  honours (DeleteExpiredOverrides now) (sq_tables s) (sq_tables s') r.
Proof.
  intros (s1 & y & [Et [->| ->]]%query_inv & E)%sql_bind_inv; [destruct E as [-> ->]; by left|].
  destruct ((map_to_list _).*1) as [|i ids] eqn:El.
  - injection E as <- <-. cbn. rewrite El, (filter_keys_nil (override_expired now)) by done.
    by rewrite set_overrides_id.
  - apply sql_bind_inv in E as (s2 & z & Ez%statement_inv & E).
    destruct Ez as [[-> Et2]|[Et2 ->]]; [destruct E as [-> ->]; left; by rewrite Et2|].
    injection E as <- <-. cbn. rewrite El, Et2, Et. done.
Qed.

Lemma take_ack_honours key s s' r :
  Db.take_job_alert_ack key s = (s', r) ->
  honours (TakeAck key) (sq_tables s) (sq_tables s') r.
Proof.
  intros (s1 & y & [Et [->| ->]]%query_inv & E)%sql_bind_inv; [destruct E as [-> ->]; by left|].
  destruct (tb_acks (sq_tables s) !! key) as [a|] eqn:Ea.
  - apply sql_bind_inv in E as (s2 & z & Ez%statement_inv & E).
    destruct Ez as [[-> Et2]|[Et2 ->]]; [destruct E as [-> ->]; left; by rewrite Et2|].
    injection E as <- <-. cbn. by rewrite Ea, Et2, Et.
  - injection E as <- <-. cbn. by rewrite Ea, delete_id, set_acks_id.
Qed.

Lemma take_streak_honours key s s' r :
  Db.take_job_failure_streak key s = (s', r) ->
  honours (TakeStreak key) (sq_tables s) (sq_tables s') r.
Proof.
  intros (s1 & y & [Et [->| ->]]%query_inv & E)%sql_bind_inv; [destruct E as [-> ->]; by left|].
  destruct (tb_streaks (sq_tables s) !! key) as [a|] eqn:Ea.
  - apply sql_bind_inv in E as (s2 & z & Ez%statement_inv & E).
    destruct Ez as [[-> Et2]|[Et2 ->]]; [destruct E as [-> ->]; left; by rewrite Et2|].
    injection E as <- <-. cbn. by rewrite Ea, Et2, Et.
  - injection E as <- <-. cbn. by rewrite Ea, delete_id, set_streaks_id.
Qed.

Lemma record_failure_honours key eid error at_ s s' r :
  Db.record_job_failure key eid error at_ s = (s', r) ->
  honours (RecordJobFailure key eid error at_) (sq_tables s) (sq_tables s') r.
Proof.
  intros (s1 & y & Ey%statement_inv & E)%sql_bind_inv.
  destruct Ey as [[-> Et]|[Et ->]]; [destruct E as [-> ->]; left; by rewrite Et|].
  apply sql_bind_inv in E as (s2 & z & [Et2 [->| ->]]%query_inv & E).
  { destruct E as [-> ->]. right. by rewrite Et2, Et. }
  rewrite Et in E. cbn in E. rewrite lookup_insert_eq in E. injection E as <- <-.
  cbn. by rewrite Et2, Et.
Qed.

(** A refused delete leaves the rows before it deleted. *)
Lemma delete_acks_inv acks s s' r :
  Db.delete_acks acks s = (s', r) ->
  exists l, l ⊆ acks /\ sq_tables s' = set_acks (drop_acks l (tb_acks (sq_tables s))) (sq_tables s)
    /\ (r = Ok tt /\ l = acks \/ r = Err (Database "refused")).
Proof.
  revert s. induction acks as [|a acks IH]; intros s E.
  { injection E as <- <-. exists []. cbn. rewrite set_acks_id. auto. }
  apply sql_bind_inv in E as (s1 & y & Ey%statement_inv & E).
  destruct Ey as [[-> Et]|[Et ->]].
  { destruct E as [-> ->]. exists []. cbn. rewrite Et, set_acks_id. split_and!; [set_solver|done|auto]. }
  apply IH in E as (l & Hl & Et' & Hr). exists (a :: l). split; [set_solver|].
  split; [by rewrite Et', Et|]. destruct Hr as [[-> ->]| ->]; auto.
Qed.

Lemma take_expired_honours now s s' r :
  Db.take_expired_job_alert_acks now s = (s', r) ->
  honours (TakeExpiredAcks now) (sq_tables s) (sq_tables s') r.
Proof.
  intros (s1 & y & [Et [->| ->]]%query_inv & E)%sql_bind_inv; [destruct E as [-> ->]; by left|].
  apply sql_bind_inv in E as (s2 & z & (l & Hl & Et2 & Hz)%delete_acks_inv & E). rewrite Et in Et2.
  destruct Hz as [[-> ->]| ->].
  - injection E as <- <-. by split.
  - destruct E as [-> ->]. right. exists l. by split.
Qed.

(** The insert keeps a row that is there, which is what [bound] says. *)
Lemma bound_alt rid owner now t :
  bound rid owner now t
  = match tb_identities t !! rid with
    | Some _ => t
    | None => set_identities (<[rid := {| ri_owner_id := owner; ri_bound_at := now |}]> (tb_identities t)) t
    end.
Proof.
  unfold bound, bound_row. destruct (tb_identities t !! rid) as [row|] eqn:Er; [|done]. cbn.
  rewrite insert_id by done. by destruct t.
Qed.

Lemma bind_runner_honours rid owner now s s' r :
  Db.runner_identity_bind rid owner now s = (s', r) ->
  honours (BindRunner rid owner now) (sq_tables s) (sq_tables s') r.
Proof.
  intros (s1 & y & Ey%statement_inv & E)%sql_bind_inv.
  assert (y = Err (Database "refused") /\ sq_tables s1 = sq_tables s
    \/ y = Ok tt /\ sq_tables s1 = bound rid owner now (sq_tables s)) as [[-> Et]|[-> Et]].
  { rewrite bound_alt. destruct Ey as [[-> ->]|Ey]; [by left|right].
    destruct (tb_identities (sq_tables s) !! rid); by destruct Ey as [-> ->]. }
  { destruct E as [-> ->]. by left. }
  apply sql_bind_inv in E as (s2 & z & [Et2 [->| ->]]%query_inv & E).
  { destruct E as [-> ->]. right. by rewrite Et2, Et. }
  rewrite Et in E. unfold bound in E. cbn in E. rewrite lookup_insert_eq in E. injection E as <- <-.
  cbn. by rewrite Et2, Et.
Qed.

Lemma list_letters_honours f s s' r :
  Db.list_dead_letters f s = (s', r) -> honours (ListDeadLetters f) (sq_tables s) (sq_tables s') r.
Proof.
  intros H. eapply query_honours; [exact H|]. split; [done|].
  exists (merge_sort newest_letter (base.filter (fun dl => letter_of (df_job_key f) dl = true)
                                      (rows (tb_dead (sq_tables s))))).
  split_and!; [by rewrite merge_sort_Permutation| |done].
  apply StronglySorted_merge_sort; unfold newest_letter; intros a b; [intros c|]; lia.
Qed.

Lemma size_filter_rows {A} (P : A -> bool) (m : gmap string A) :
  length (base.filter (fun x => P x = true) (rows m)) = size (base.filter (fun kv => P kv.2 = true) m).
Proof.
  unfold rows. rewrite <- length_map_to_list, map_filter_alt.
  rewrite map_to_list_to_map.
  - induction (map_to_list m) as [|[k x] l IH]; [done|]. rewrite fmap_cons, !filter_cons. cbn [snd].
    destruct (decide (P x = true)); cbn [length]; by rewrite IH.
  - eapply (sublist_NoDup _ (map_to_list m).*1); [apply NoDup_fst_map_to_list|].
    apply fmap_sublist, sublist_filter.
Qed.

Lemma count_letters_honours key s s' r :
  Db.count_dead_letters key s = (s', r) -> honours (CountDeadLetters key) (sq_tables s) (sq_tables s') r.
Proof.
  intros H. eapply query_honours; [exact H|]. cbn. split; [done|]. rewrite Z.max_r by lia. f_equal.
  apply size_filter_rows.
Qed.

Lemma remove_letters_honours ids s s' r :
  Db.remove_dead_letters ids s = (s', r) -> honours (RemoveDeadLetters ids) (sq_tables s) (sq_tables s') r.
Proof.
  unfold Db.remove_dead_letters. destruct ids as [|id ids].
  - intros [= <- <-]. cbn. rewrite map_filter_id by done. split; [by destruct (sq_tables s)|].
    symmetry. apply (f_equal Z.of_nat (y := O)), map_size_empty_iff, map_empty. intros k.
    rewrite map_lookup_filter. by destruct (tb_dead (sq_tables s) !! k).
  - intros H. by eapply execute_honours; [exact H|].
Qed.

Lemma purge_honours now s s' r :
  Db.purge_expired now s = (s', r) ->
  honours (PurgeExpired now) (sq_tables s) (sq_tables s') r.
Proof.
  intros H. eapply execute_honours; [exact H|]. cbn. split; repeat f_equal.
  - apply map_filter_ext. intros k dl _. cbn. destruct (dl_expires_at dl) as [x|]; [|done].
    by rewrite negb_true_iff.
  - apply map_filter_ext. intros k dl _. cbn. destruct (dl_expires_at dl) as [x|]; [|done].
    by rewrite negb_false_iff.
Qed.

Lemma list_claimed_honours cutoff limit s s' r :
  Db.list_claimed_older_than cutoff limit s = (s', r) ->
  honours (ListClaimedOlderThan cutoff limit) (sq_tables s) (sq_tables s') r.
Proof.
  intros H. eapply query_honours; [exact H|]. split; [done|].
  apply select_slice; [apply _..|]. intros e. rewrite andb_true_iff, orb_true_iff, bool_decide_eq_true.
  destruct (ex_claimed_at e) as [x|]; cbn; [rewrite Z.leb_le|]; naive_solver.
Qed.

Lemma update_honours (c : Call bool) id ok f s s' r :
  Db.update_execution id ok f s = (s', r) ->
  (forall t m hit, swapped ok f id (tb_execs t) m hit -> post c t (set_execs m t) hit) ->
  honours c (sq_tables s) (sq_tables s') r.
Proof. intros [[-> ->]|(hit & m & -> & Hs & ->)]%update_inv Hp; [by left|by apply Hp]. Qed.

Lemma sqlite_call_honours {A} (c : Call A) s s' r :
  Db.sqlite_call c s = (s', r) -> honours c (sq_tables s) (sq_tables s') r.
Proof.
  destruct c; cbn [Db.sqlite_call]; intros H.
  all: try (by eapply query_honours; [exact H|]).
  all: try (by eapply execute_honours; [exact H|]).
  all: try (by eapply update_honours; [exact H|]; intros t m hit Hs; exists m).
  - apply insert_execution_inv in H as [(w & -> & ->)|[-> ?]]; [by left|done].
  - by apply create_and_advance_honours.
  - by apply claim_honours.
  - eapply query_honours; [exact H|]. split; [done|]. apply select_slice; [apply _..|done].
  - eapply query_honours; [exact H|]. split; [done|]. apply select_slice; [apply _..|done].
  - by apply list_claimed_honours.
  - by apply idempotency_honours.
  - by apply requeue_abandoned_honours.
  - by apply cancel_honours.
  - by apply count_honours_job.
  - by apply count_honours_group.
  - by apply prune_older_honours.
  - by apply prune_keep_honours.
  - by apply bind_runner_honours.
  - apply insert_dead_letter_inv in H as [(w & -> & ->)|[-> ?]]; [by left|done].
  - by apply complete_as_dead_honours.
  - by apply replay_honours.
  - by apply list_letters_honours.
  - by apply count_letters_honours.
  - by apply remove_letters_honours.
  - by apply purge_honours.
  - by apply append_logs_honours.
  - apply statement_inv in H as [[-> ->]|H]; [by left|].
    destruct (existsb _ _); destruct H as [-> ->]; [by left|done].
  - eapply execute_honours; [exact H|]. cbn.
    destruct (tb_deliveries (sq_tables s) !! ad_delivery_id d) eqn:Ed; cbn; [|done].
    by rewrite set_deliveries_id.
  - by apply delete_overrides_honours.
  - by apply take_ack_honours.
  - by apply take_expired_honours.
  - by apply record_failure_honours.
  - by apply take_streak_honours.
Qed.

#[export] Instance sqlite_laws : StoreLaws SqliteStore.
Proof. constructor. intros A c s s' r. apply sqlite_call_honours. Qed.

(** ** When no statement is refused *)

(** Whether the rows allow a call: its primary keys are free, the row it
    claims is queued, the letter it replays exists, the executions it logs
    for exist. *)
Definition free {A} (m : gmap string A) (k : string) : bool := bool_decide (m !! k = None).
Fixpoint loggable (execs : gmap string Execution) (ids : list string)
    (entries : list ExecutionLogEntry) : bool :=
  match entries with
  | [] => true
  | le :: entries =>
      negb (free execs (le_execution_id le)) && not_in ids (le_id le)
      && loggable execs (ids ++ [le_id le]) entries
  end.
Definition accepts {A} (c : Call A) (t : Tables) : bool :=
  match c with
  | CreateExecution ex | CreateAndAdvance ex _ => free (tb_execs t) (ex_id ex)
  | ClaimExecution id _ _ =>
      match tb_execs t !! id with Some e => has_state EQueued e | None => false end
  | AddDeadLetter dl => free (tb_dead t) (dl_id dl)
  | CompleteAsDead id fence _ _ dl _ =>
      match tb_execs t !! id with
      | Some e => negb (in_states [EClaimed; EFailed] e && fence_ok fence e)
                  || free (tb_dead t) (dl_id dl)
      | None => true
      end
  | ReplayDeadLetter id ex => negb (free (tb_dead t) id) && free (tb_execs t) (ex_id ex)
  | AppendLogs entries => loggable (tb_execs t) (map le_id (tb_logs t)) entries
  | AuditLog ev => not_in (map ae_event_id (tb_audit t)) (ae_event_id ev)
  | _ => true
  end.

Definition succeeded {A} (r : result A StoreError) : bool :=
  match r with Ok _ => true | Err _ => false end.

Lemma delete_acks_faultless acks t :
  exists t', Db.delete_acks acks (MkSqlite t []) = (MkSqlite t' [], Ok tt).
Proof. revert t. induction acks as [|a acks IH]; intros t; [by eexists|]. apply IH. Qed.

Lemma existsb_ids {A} (f : A -> string) (l : list A) id :
  existsb (fun x => String.eqb (f x) id) l = negb (not_in (map f l) id).
Proof.
  unfold not_in. rewrite negb_involutive. induction l as [|x l IH]; [done|]. cbn.
  by rewrite IH, String.eqb_sym.
Qed.

Lemma append_entries_faultless entries cache t :
  exists t' r, Db.append_entries cache entries (MkSqlite t []) = (MkSqlite t' [], r)
    /\ succeeded r = loggable (tb_execs t) (map le_id (tb_logs t)) entries.
Proof.
  revert cache t. induction entries as [|le entries IH]; intros cache t; [by eexists _, _|].
  cbn [Db.append_entries loggable]. unfold sql_bind at 1.
  assert (exists n, (match cache !! le_execution_id le with
                     | Some n => sql_ret n
                     | None => query (fun t => next_seq (tb_logs t) (le_execution_id le))
                     end) (MkSqlite t []) = (MkSqlite t [], Ok n)) as [n ->]
    by (destruct (cache !! _); by eexists).
  unfold sql_bind at 1, Db.insert_log_with, statement, free. cbn [sq_faults sq_tables tail].
  destruct (tb_execs t !! le_execution_id le) as [e|] eqn:Ee; [|by eexists _, _].
  rewrite (existsb_ids le_id).
  destruct (not_in (map le_id (tb_logs t)) (le_id le)) eqn:En; cbn [negb]; [|by eexists _, _].
  destruct (IH (<[le_execution_id le := n + 1]> cache)
              (set_logs (tb_logs t ++ [with_seq n le]) t)) as (t' & r & Ea & Hr).
  exists t', r. split; [exact Ea|]. rewrite Hr. cbn. by rewrite map_app.
Qed.

Lemma transaction_faultless {A} (m : Sql (A * bool)) t t' x :
  m (MkSqlite t []) = (MkSqlite t' [], x) -> succeeded (transaction m (MkSqlite t [])).2 = succeeded x.
Proof. intros E. unfold transaction. cbn. rewrite E. by destruct x as [[a []]|e]. Qed.

Lemma prune_faultless select t :
  (forall l t, select (set_logs l t) = select t) ->
  succeeded (Db.prune_selection select (MkSqlite t [])).2 = true.
Proof.
  intros Hsel. unfold Db.prune_selection, Db.delete_executions, transaction, sql_bind. cbn.
  rewrite Hsel, logs_dropped. done.
Qed.

Lemma faultless_accepted {A} (c : Call A) (t : Tables) :
  succeeded (run (MkSqlite t []) c).2 = accepts c t.
Proof.
  destruct c; try reflexivity; cbn [run sqlite_ops Db.sqlite_call accepts].
  - cbn. unfold free. by destruct (tb_execs t !! ex_id ex).
  - cbn. unfold transaction, sql_bind, free. cbn. by destruct (tb_execs t !! ex_id ex).
  - unfold Db.claim_execution, sql_bind. cbn. destruct (tb_execs t !! id) as [e|]; [|done].
    destruct (has_state EQueued e); [|done]. cbn. by rewrite lookup_insert_eq.
  - unfold Db.complete_execution. cbn. by destruct (tb_execs t !! id) as [e|]; [destruct (_ && _)|].
  - unfold Db.requeue_abandoned, sql_bind. cbn. by destruct (_.*1).
  - unfold Db.requeue_if_claimed. cbn. by destruct (tb_execs t !! id) as [e|]; [destruct (has_state _ e)|].
  - unfold Db.cancel_execution, sql_bind. cbn. by destruct (tb_execs t !! id) as [e|]; [destruct (_ || _)|].
  - by destruct states.
  - by destruct states.
  - by apply prune_faultless.
  - by apply prune_faultless.
  - unfold Db.runner_identity_bind, sql_bind, execute, query, statement. cbn.
    destruct (tb_identities t !! rid) as [row|] eqn:Er; cbn; [by rewrite Er|by rewrite lookup_insert_eq].
  - cbn. unfold free. by destruct (tb_dead t !! dl_id dl).
  - unfold Db.complete_as_dead, transaction, sql_bind, free. cbn.
    destruct (tb_execs t !! id) as [e|]; [|done].
    destruct (_ && fence_ok fence e); [|done]. cbn. by destruct (tb_dead t !! dl_id dl).
  - unfold Db.replay_dead_letter, transaction, sql_bind, free. cbn.
    destruct (tb_dead t !! id) as [d|]; [|done]. cbn. by destruct (tb_execs t !! ex_id ex).
  - by destruct ids.
  - unfold Db.append_logs_batch. destruct entries as [|le entries]; [done|].
    destruct (append_entries_faultless (le :: entries) ∅ t) as (t' & r & E & <-).
    rewrite (transaction_faultless _ t t' (match r with Ok _ => Ok (tt, true) | Err e => Err e end));
      [by destruct r|]. unfold sql_bind. rewrite E. by destruct r.
  - cbn. unfold Db.audit_log, statement. cbn. rewrite (existsb_ids ae_event_id).
    by destruct (not_in _ _).
  - cbn. by destruct (tb_deliveries t !! _).
  - unfold Db.delete_expired_alert_rule_overrides, sql_bind. cbn. by destruct (_.*1).
  - unfold Db.take_job_alert_ack, sql_bind. cbn. by destruct (tb_acks t !! key).
  - unfold Db.take_expired_job_alert_acks, sql_bind. cbn.
    by destruct (delete_acks_faultless (rows (base.filter (fun kv => (ak_expires_at kv.2 <=? now) = true)
                                      (tb_acks t))) t) as [t' ->].
  - unfold Db.record_job_failure, sql_bind. cbn. by rewrite lookup_insert_eq.
  - unfold Db.take_job_failure_streak, sql_bind. cbn. by destruct (tb_streaks t !! key).
Qed.

(** C37. When the engine refuses no statement, a call succeeds exactly when the
    rows allow it: the only errors are a primary key already taken, a claim of
    a row that is not queued, a replay of a letter that is not there, a log
    line without its execution. *)
Theorem faultless_call_succeeds_iff_accepted {A} (c : Call A) (t : Tables) :
  succeeded (run (MkSqlite t []) c).2 = accepts c t.
Proof. apply faultless_accepted. Qed.


(** A store without refusals keeps answering without them. *)
Definition faultless (s : SqliteStore) : Prop := sq_faults s = [].
Definition stays {A} (m : Sql A) : Prop := forall s, faultless s -> faultless (m s).1.

Lemma stays_statement {A} (f : Tables -> result (Tables * A) StoreError) : stays (statement f).
Proof.
  intros s Hs. unfold faultless, statement in *. rewrite Hs.
  by destruct (f (sq_tables s)) as [[t a]|e].
Qed.
Lemma stays_ret {A} (a : A) : stays (sql_ret a).
Proof. by intros s Hs. Qed.
Lemma stays_answer {A} (r : result A StoreError) : stays (fun s => (s, r)).
Proof. by intros s Hs. Qed.
Lemma stays_bind {A B} (m : Sql A) (k : A -> Sql B) :
  stays m -> (forall a, stays (k a)) -> stays (sql_bind m k).
Proof.
  intros Hm Hk s Hs. unfold sql_bind. specialize (Hm s Hs). destruct (m s) as [s1 [a|e]]; [|done].
  by apply Hk.
Qed.
Lemma stays_transaction {A} (m : Sql (A * bool)) : stays m -> stays (transaction m).
Proof.
  intros Hm s Hs. unfold transaction. pose proof (stays_statement (fun t => Ok (t, tt)) s Hs) as H1.
  fold (query (fun _ : Tables => tt)) in H1. destruct (query _ s) as [s1 [[]|e]]; [|done].
  specialize (Hm s1 H1). destruct (m s1) as [s2 [[a []]|e]]; [|done..].
  pose proof (stays_statement (fun t => Ok (t, tt)) s2 Hm) as H2.
  fold (query (fun _ : Tables => tt)) in H2. by destruct (query _ s2) as [s3 [[]|e]].
Qed.
Lemma stays_entries entries : forall cache, stays (Db.append_entries cache entries).
Proof.
  induction entries as [|le entries IH]; intros cache; cbn [Db.append_entries]; [apply stays_ret|].
  apply stays_bind; [destruct (cache !! _); [apply stays_ret|apply stays_statement]|intros n].
  apply stays_bind; [apply stays_statement|intros _; apply IH].
Qed.
Lemma stays_acks acks : stays (Db.delete_acks acks).
Proof.
  induction acks as [|a acks IH]; cbn [Db.delete_acks]; [apply stays_ret|].
  apply stays_bind; [apply stays_statement|intros _; apply IH].
Qed.

Lemma stays_call {A} (c : Call A) : stays (Db.sqlite_call c).
Proof.
  destruct c; cbn [Db.sqlite_call];
    repeat first
      [ apply stays_statement | apply stays_ret | apply stays_answer | apply stays_entries
      | apply stays_acks | apply stays_transaction | apply stays_bind; [|intros ?]
      | match goal with
        | |- stays (match ?x with _ => _ end) => destruct x
        | |- stays (Db.append_logs_batch ?x) => destruct x
        | |- stays (?f _ _ _ _ _ _ _) => unfold f | |- stays (?f _ _ _ _ _ _) => unfold f
        | |- stays (?f _ _ _ _) => unfold f | |- stays (?f _ _ _) => unfold f
        | |- stays (?f _ _) => unfold f | |- stays (?f _) => unfold f | |- stays ?f => unfold f
        end ].
Qed.

(** With no refusals, a call the rows allow has the effect of its post. *)
Lemma faultless_run {A} (c : Call A) (s : SqliteStore) :
  faultless s -> accepts c (tables s) = true ->
  exists s' a, run s c = (s', Ok a) /\ faultless s' /\ post c (tables s) (tables s') a.
Proof.
  intros Hs Hacc. pose proof (stays_call c s Hs) as Hstay.
  pose proof (sqlite_call_honours c s) as Hh. pose proof (faultless_accepted c (tables s)) as Ha.
  assert (s = MkSqlite (tables s) []) as Es by (unfold faultless in Hs; destruct s; cbn in *; by subst).
  rewrite <- Es in Ha. cbn [run sqlite_ops] in *.
  destruct (Db.sqlite_call c s) as [s' [a|e]]; cbn in *; [|congruence].
  exists s', a. split_and!; [done..|]. exact (Hh s' (Ok a) eq_refl).
Qed.
