(* ===== verification/Lifecycle.v ===== *)
(** * The life of an execution row

    What the contract of the store calls says of the rows themselves, for any
    store that honours it: every row stays well-formed ([row_ok]: its claim
    and completion columns fit its state), an execution changes state only
    along the edges of [step_row], and a row that has reached its end is never
    changed again before retention deletes it. The traits the scheduler loop
    is proved against ([Store.JobStore]) are part of the same interface. *)

From S2P Require Import Prelude RustStr Chrono Store StoreCalls.

Local Open Scope string_scope.
Local Open Scope Z_scope.

(** ** The scheduler's part of the store *)

#[export] Instance calls_job_store `{StoreOps St} : JobStore St := {|
  job_states s := tb_states (tables s);
  executions s := tb_execs (tables s);
  register_fires s := tb_fires (tables s);
  list_register_fires s := run s ListRegisterFires;
  upsert_job_state s row := run s (UpsertJobState row);
  upsert_register_fire s row := run s (UpsertRegisterFire row);
  delete_register_fire s key := run s (DeleteRegisterFire key);
  create_execution s ex := run s (CreateExecution ex);
  create_execution_and_advance_job_state s ex row := run s (CreateAndAdvance ex row)
|}.

Lemma quiet_error {A} (c : Call A) t t' e :
  (forall e, ~ refusal c t e) -> (residue c t t' -> t' = t) -> honours c t t' (Err e) -> t' = t.
Proof. intros Hr Hq. destruct e as [w|w|w]; cbn; [naive_solver..|done]. Qed.

#[export] Instance calls_job_store_laws `{StoreLaws St} : JobStoreLaws St.
Proof.
  split; unfold same_tables; cbn; intros s s' [a|e] *; intros Hrun%run_honours;
    try (apply quiet_error in Hrun; [by rewrite Hrun|by intros ? []|by intros [?|[]]]).
  - cbn in Hrun. destruct Hrun as [-> Hp]. split; [done|]. exact Hp.
  - cbn in Hrun. by rewrite Hrun.
  - cbn in Hrun. by rewrite Hrun.
  - cbn in Hrun. by rewrite Hrun.
  - cbn in Hrun. destruct Hrun as (m & [_ ->] & ->). done.
  - cbn in Hrun. destruct Hrun as (m & [_ ->] & ->). done.
Qed.

(** ** Well-formed rows *)

Definition ended (s : ExecutionState) : bool :=
  match s with EQueued | EClaimed => false | _ => true end.

Definition row_ok (e : Execution) : Prop :=
  match ex_state e with
  | EQueued => ex_runner_id e = None /\ ex_claimed_at e = None /\ ex_started_at e = None
               /\ ex_completed_at e = None
  | EClaimed => is_Some (ex_runner_id e) /\ is_Some (ex_claimed_at e)
                /\ is_Some (ex_started_at e) /\ ex_completed_at e = None
  | _ => is_Some (ex_completed_at e)
  end.
Definition rows_ok (t : Tables) : Prop :=
  map_Forall (fun id e => ex_id e = id /\ row_ok e) (tb_execs t).

(** A row that has not been dispatched yet. *)
Definition fresh_row (e : Execution) : Prop := ex_state e = EQueued /\ row_ok e.

(** What a caller must pass: rows that are fresh, outcomes that are final. *)
Definition call_ok {A} (c : Call A) : Prop :=
  match c with
  | CreateExecution ex | CreateAndAdvance ex _ | ReplayDeadLetter _ ex => fresh_row ex
  | CompleteExecution _ _ st _ _ _ _ => ended st = true
  | _ => True
  end.

Lemma rows_ids t : rows_ok t -> map ex_id (rows (tb_execs t)) = (map_to_list (tb_execs t)).*1.
Proof.
  intros Hok. unfold rows. rewrite <- list_fmap_compose. apply list_fmap_ext.
  intros i [id e] Hi. cbn. apply list_elem_of_lookup_2, elem_of_map_to_list in Hi.
  by destruct (Hok id e Hi).
Qed.
(** The ids of a selection of rows are distinct. *)
Lemma selected_ids_nodup t (P : Execution -> Prop) `{!forall e, Decision (P e)} :
  rows_ok t -> NoDup (map ex_id (base.filter P (rows (tb_execs t)))).
Proof.
  intros Hok. eapply sublist_NoDup; [|apply fmap_sublist, sublist_filter].
  change (NoDup (map ex_id (rows (tb_execs t)))). rewrite rows_ids by done. apply NoDup_fst_map_to_list.
Qed.

(** ** Steps of one row *)

Inductive step_row (id : string) : option Execution -> option Execution -> Prop :=
| step_same o : step_row id o o
| step_create e : ex_id e = id -> fresh_row e -> step_row id None (Some e)
| step_claim e rid now : ex_state e = EQueued -> step_row id (Some e) (Some (claimed_row rid now e))
| step_finish e st now d err rs :
    ex_state e = EClaimed -> ended st = true -> step_row id (Some e) (Some (set_outcome st now d err rs e))
| step_bury e now d err rs :
    ex_state e = EFailed -> step_row id (Some e) (Some (set_outcome EDead now d err rs e))
| step_requeue e : ex_state e = EClaimed -> step_row id (Some e) (Some (requeued_row e))
| step_cancel e now :
    ex_state e = EQueued \/ ex_state e = EClaimed -> step_row id (Some e) (Some (cancelled_row now e))
| step_prune e : is_Some (ex_completed_at e) -> step_row id (Some e) None.
#[export] Hint Constructors step_row : croniq.

Definition steps_rows (t t' : Tables) : Prop :=
  forall id, step_row id (tb_execs t !! id) (tb_execs t' !! id).

Lemma steps_same t t' : tb_execs t' = tb_execs t -> steps_rows t t'.
Proof. intros E id. rewrite E. constructor. Qed.

Lemma steps_inserted t t' k ex m :
  inserted (tb_execs t) k ex m -> tb_execs t' = m -> ex_id ex = k -> fresh_row ex -> steps_rows t t'.
Proof.
  intros [Hn Em] Et Hk Hrow id. rewrite Et, Em, lookup_insert. case_decide as E; [subst; rewrite Hn|]; by constructor.
Qed.

Lemma steps_swapped t t' ok f id m hit :
  swapped ok f id (tb_execs t) m hit -> tb_execs t' = m ->
  (forall e, ok e = true -> step_row id (Some e) (Some (f e))) -> steps_rows t t'.
Proof.
  intros Hs Et Hf k. rewrite Et. unfold swapped in Hs.
  destruct (tb_execs t !! id) as [e|] eqn:Ee; destruct Hs as [_ ->]; [|constructor].
  destruct (ok e) eqn:Ho; [|constructor]. rewrite lookup_insert.
  case_decide as E; [subst; rewrite Ee; auto|constructor].
Qed.

Lemma in_states_In l e : in_states l e = true <-> In (ex_state e) l.
Proof.
  unfold in_states, has_state. rewrite existsb_exists. split.
  - intros (s & Hs & E%bool_decide_eq_true). by rewrite E.
  - intros H. exists (ex_state e). split; [done|]. by apply bool_decide_eq_true.
Qed.

(** The rows a prune drops are among those it selected. *)
Lemma slice_in {A} (R : A -> A -> Prop) off lim all out x :
  slice R off lim all out -> x ∈ out -> x ∈ all.
Proof.
  intros (l & <- & _ & ->) Hx. eapply elem_of_submseteq; [exact Hx|]. etrans;
    [apply submseteq_take|apply submseteq_drop].
Qed.

Lemma not_in_spec ids id : not_in ids id = true <-> id ∉ ids.
Proof.
  unfold not_in. rewrite negb_true_iff. rewrite <- not_true_iff_false, existsb_exists.
  split; intros H.
  - intros Hid. apply H. exists id. split; [by apply list_elem_of_In|apply String.eqb_refl].
  - intros (x & Hx & E%String.eqb_eq). subst. apply H. by apply list_elem_of_In.
Qed.

Lemma drop_lookup ids t id :
  tb_execs (drop_executions ids t) !! id
  = if bool_decide (id ∈ ids) then None else tb_execs t !! id.
Proof.
  cbn. case_bool_decide as Hd; destruct (tb_execs t !! id) as [e|] eqn:Ee.
  - apply map_lookup_filter_None. right. intros e' _ H%not_in_spec. done.
  - apply map_lookup_filter_None. by left.
  - apply map_lookup_filter_Some. split; [done|]. by apply not_in_spec.
  - apply map_lookup_filter_None. by left.
Qed.

Lemma steps_dropped t gone :
  rows_ok t ->
  (forall e, e ∈ gone -> is_Some (ex_completed_at e) /\ e ∈ rows (tb_execs t)) ->
  steps_rows t (drop_executions (map ex_id gone) t).
Proof.
  intros Hok Hg id. rewrite drop_lookup. case_bool_decide as Hd; [|constructor].
  destruct (tb_execs t !! id) as [e|] eqn:Ee; [|constructor]. constructor.
  apply list_elem_of_fmap in Hd as (e' & -> & He'). destruct (Hg e' He') as [Hc Hin].
  apply list_elem_of_fmap in Hin as ([k e0] & -> & Hk%elem_of_map_to_list). cbn in *.
  destruct (Hok _ _ Hk) as [Hid _]. cbn in *. congruence.
Qed.

Lemma residue_steps {A} (c : Call A) t t' : residue c t t' -> steps_rows t t'.
Proof.
  intros [->|H]; [by apply steps_same|]. destruct c; try done.
  - destruct H as (m & Hs & ->). eapply steps_swapped; [exact Hs|done|].
    intros e He%bool_decide_eq_true. auto with croniq.
  - rewrite H. by apply steps_same.
  - destruct H as (l & -> & _). by apply steps_same.
  - rewrite H. by apply steps_same.
Qed.

Lemma requeue_all_steps rid t :
  steps_rows t (set_execs ((fun e => if claimed_by rid e then requeued_row e else e) <$> tb_execs t) t).
Proof.
  intros id. cbn. rewrite lookup_fmap. destruct (tb_execs t !! id) as [e|]; [|constructor]. cbn.
  destruct (claimed_by rid e) eqn:Ec; [|constructor].
  apply andb_true_iff in Ec as [Hc%bool_decide_eq_true _]. auto with croniq.
Qed.

Lemma post_steps {A} (c : Call A) t t' r :
  call_ok c -> rows_ok t -> post c t t' r -> steps_rows t t'.
Proof.
  intros Hc Hok Hp. destruct c; cbn [post call_ok] in Hp, Hc;
    try (apply steps_same; solve [by rewrite Hp|by destruct Hp as [-> _]|by destruct Hp as [_ ->]]).
  - destruct Hp as (m & Hi & ->). by eapply steps_inserted.
  - destruct Hp as (m & Hi & ->). by eapply steps_inserted.
  - destruct Hp as (m & Hs & -> & _). eapply steps_swapped; [exact Hs|done|].
    intros e He%bool_decide_eq_true. auto with croniq.
  - destruct Hp as (m & Hs & ->). eapply steps_swapped; [exact Hs|done|].
    intros e [He%bool_decide_eq_true _]%andb_true_iff. auto with croniq.
  - destruct Hp as [_ ->]. apply requeue_all_steps.
  - destruct Hp as (m & Hs & ->). eapply steps_swapped; [exact Hs|done|].
    intros e He%bool_decide_eq_true. auto with croniq.
  - destruct Hp as (m & hit & Hs & ->). eapply steps_swapped; [exact Hs|done|].
    intros e [He|[He|[]]]%in_states_In; auto with croniq.
  - destruct Hp as (gone & Hsl & -> & _). apply steps_dropped; [done|]. intros e He.
    pose proof (slice_in _ _ _ _ _ _ Hsl He) as Hf. apply list_elem_of_filter in Hf. tauto.
  - destruct Hp as (gone & Hsl & -> & _). apply steps_dropped; [done|]. intros e He.
    pose proof (slice_in _ _ _ _ _ _ Hsl He) as Hf. apply list_elem_of_filter in Hf. tauto.
  - destruct Hp as (m & Hi & ->). by apply steps_same.
  - destruct Hp as (m & Hs & Hr). destruct r; [|rewrite Hr; by apply steps_same].
    destruct Hr as (d & _ & ->). eapply steps_swapped; [exact Hs|done|].
    intros e [He%in_states_In _]%andb_true_iff.
    destruct He as [He|[He|[]]]; symmetry in He; auto with croniq.
  - destruct Hp as (_ & m & Hi & ->). by eapply steps_inserted.
Qed.

Lemma steps_keep_rows t t' : rows_ok t -> steps_rows t t' -> rows_ok t'.
Proof.
  intros Hok Hst id e' He'. specialize (Hst id). specialize (Hok id). rewrite He' in Hst.
  destruct (tb_execs t !! id) as [e|]; [|inversion Hst as [|? Hid [_ Hrow]| | | | | |]; subst; by split].
  destruct (Hok _ eq_refl) as [Hid Hrow]. unfold row_ok in Hrow |- *.
  inversion Hst as [|?|? rid now Hs|? st now d err rs Hs Hend|? now d err rs Hs|? Hs|? now Hs|];
    subst; cbn; split; try done; eauto.
  - rewrite Hs in Hrow. split_and!; [done..|tauto].
  - by destruct st.
  - rewrite Hs in Hrow. tauto.
Qed.

(** A row that has ended stays as it is until it is deleted, except that a
    failed attempt may be buried. *)
Lemma step_ended id e o :
  step_row id (Some e) o -> ended (ex_state e) = true -> ex_state e <> EFailed -> o = Some e \/ o = None.
Proof.
  intros Hst He Hf. inversion Hst as [| |? ? ? Hs|? ? ? ? ? ? Hs|? ? ? ? ? Hs|? Hs|? ? Hs|]; subst; auto;
    try (destruct Hs as [Hs|Hs]); by rewrite Hs in He.
Qed.

Lemma store_calls_life `{StoreLaws St} {A} (c : Call A) (s s' : St) r :
  call_ok c -> rows_ok (tables s) -> run s c = (s', r) ->
  rows_ok (tables s') /\ steps_rows (tables s) (tables s').
Proof.
  intros Hc Hok Hrun. enough (steps_rows (tables s) (tables s')) by eauto using steps_keep_rows.
  apply run_honours in Hrun. destruct r as [a|[w|w|w]]; cbn in Hrun.
  - by eapply post_steps.
  - apply steps_same. by destruct Hrun as [-> _].
  - apply steps_same. by destruct Hrun as [-> _].
  - by eapply residue_steps.
Qed.
