(* ===== verification/Server.v ===== *)
(** * The server's shared state and its programs

    The state the handlers and loops of [croniq-server] share: the store, the
    runner state and the alert throttle map. A method is a program [M A] over
    that state; a program that reads the clock ([Utc::now]) or draws an id
    ([Uuid::new_v4]) takes the next one of a stream. The lock-free notification
    [work_notify] carries no state and is left out.

    [keeps R m] says that a program relates the states before and after it by
    [R]: the rules below follow the shape of a program, so an invariant of
    every program built from store calls is proved call by call. *)

From S2P Require Import Prelude RustStr Chrono RunnerTypes Queue Registry RunnerApi.
From S2P Require Import Store StoreCalls.

Local Open Scope string_scope.
Local Open Scope Z_scope.

(** ** What the programs take from outside *)

(** The clock, the ids, and the text formats of third-party types:
    [Uuid::parse_str] (its answer in the form [Uuid::to_string] prints),
    [DateTime::to_rfc3339], its [Display], and [serde_json] on lists of strings. *)
Class Env := {
  clock : nat -> instant;
  uuid : nat -> string;
  parse_uuid : string -> option string;
  to_rfc3339 : instant -> string;
  show_utc : instant -> string;
  json_strings : list string -> string;
  parse_json_strings : string -> option (list string)
}.

Class EnvLaws `{E : Env} := {
  uuid_inj :: Inj (=) (=) uuid;
  parse_uuid_uuid n : parse_uuid (uuid n) = Some (uuid n);
  parse_uuid_canonical s id : parse_uuid s = Some id -> parse_uuid id = Some id;
  parse_json_strings_json l : parse_json_strings (json_strings l) = Some l
}.

Section Programs.
  Context `{J : Json} `{E : Env} {St : Type} `{SO : StoreOps St}.

Record World := MkWorld {
  w_store : St;
  w_app : AppState;
  w_throttle : gmap (string * string) instant;
  w_clock : nat;
  w_ids : nat
}.

Definition M (A : Type) : Type := World -> World * A.

#[local] Instance M_ret : MRet M := fun A a w => (w, a).
#[local] Instance M_bind : MBind M := fun A B k m w => let '(w, a) := m w in k a w.

Definition set_app (a : AppState) (w : World) : World :=
  MkWorld (w_store w) a (w_throttle w) (w_clock w) (w_ids w).
Definition set_store (s : St) (w : World) : World :=
  MkWorld s (w_app w) (w_throttle w) (w_clock w) (w_ids w).
Definition set_throttle (m : gmap (string * string) instant) (w : World) : World :=
  MkWorld (w_store w) (w_app w) m (w_clock w) (w_ids w).

(** [Utc::now], [Uuid::new_v4] *)
Definition utc_now : M instant := fun w =>
  (MkWorld (w_store w) (w_app w) (w_throttle w) (S (w_clock w)) (w_ids w), clock (w_clock w)).
Definition new_uuid : M string := fun w =>
  (MkWorld (w_store w) (w_app w) (w_throttle w) (w_clock w) (S (w_ids w)), uuid (w_ids w)).

Definition call {A} (c : Call A) : M (result A StoreError) := fun w =>
  let '(s, r) := run (w_store w) c in (set_store s w, r).

Definition get_app {A} (f : AppState -> A) : M A := fun w => (w, f (w_app w)).
Definition modify_app (f : AppState -> AppState) : M unit := fun w => (set_app (f (w_app w)) w, tt).
Definition update_app {A} (f : AppState -> AppState * A) : M A := fun w =>
  let '(a, r) := f (w_app w) in (set_app a w, r).

(** Loops over a list, in order. *)
Fixpoint each {A} (f : A -> M unit) (l : list A) : M unit :=
  match l with
  | [] => mret tt
  | x :: l => _ ← f x; each f l
  end.
Fixpoint collect {A B} (f : A -> M (list B)) (l : list A) : M (list B) :=
  match l with
  | [] => mret []
  | x :: l => a ← f x; b ← collect f l; mret (a ++ b)%list
  end.

(** [audit::record_event]; a failed write is only logged. *)
Definition record_event (actor_type : string) (actor_id : option string)
    (action target_type : string) (target_id : option string) : M unit :=
  id ← new_uuid;
  now ← utc_now;
  _ ← call (AuditLog {| ae_event_id := id; ae_actor_type := actor_type; ae_actor_id := actor_id;
                        ae_action := action; ae_target_type := target_type;
                        ae_target_id := target_id; ae_diff_json := None; ae_ip_address := None;
                        ae_user_agent := None; ae_created_at := now |});
  mret tt.

(** ** Invariants of programs *)

Definition keeps {A} (R : World -> World -> Prop) (m : M A) : Prop :=
  forall w w' a, m w = (w', a) -> R w w'.

Section Keeps.
  Context (R : World -> World -> Prop) `{!PreOrder R}.

Lemma keeps_ret {A} (a : A) : keeps R (mret a).
Proof. intros w w' b [= <- _]. reflexivity. Qed.
Lemma keeps_bind {A B} (m : M A) (k : A -> M B) :
  keeps R m -> (forall a, keeps R (k a)) -> keeps R (m ≫= k).
Proof.
  intros Hm Hk w w' b. unfold mbind, M_bind. destruct (m w) as [w1 a] eqn:E1. intros H.
  transitivity w1; [by eapply Hm|by eapply Hk].
Qed.
Lemma keeps_get {A} (f : AppState -> A) : keeps R (get_app f).
Proof. intros w w' b [= <- _]. reflexivity. Qed.
Lemma keeps_each {A} (f : A -> M unit) l : (forall x, keeps R (f x)) -> keeps R (each f l).
Proof.
  intros Hf. induction l as [|x l IH]; [apply keeps_ret|]. apply keeps_bind; [done|intros []; exact IH].
Qed.
Lemma keeps_collect {A B} (f : A -> M (list B)) l :
  (forall x, keeps R (f x)) -> keeps R (collect f l).
Proof.
  intros Hf. induction l as [|x l IH]; [apply keeps_ret|]. apply keeps_bind; [done|intros a].
  apply keeps_bind; [exact IH|intros b; apply keeps_ret].
Qed.
Lemma keeps_event aty aid act tty tid :
  keeps R new_uuid -> keeps R utc_now -> (forall ev, keeps R (call (AuditLog ev))) ->
  keeps R (record_event aty aid act tty tid).
Proof.
  intros Hu Hn Hc. do 3 (apply keeps_bind; [done|intros ?]). apply keeps_ret.
Qed.
End Keeps.

(** A program that makes no store call, or only calls of one kind, keeps the
    tables. *)
Definition same_store (w w' : World) : Prop := w_store w' = w_store w.
Definition same_app (w w' : World) : Prop := w_app w' = w_app w.
#[local] Instance same_store_preorder : PreOrder same_store.
Proof. split; [done|]. intros a b c. unfold same_store. congruence. Qed.
#[local] Instance same_app_preorder : PreOrder same_app.
Proof. split; [done|]. intros a b c. unfold same_app. congruence. Qed.

Lemma call_same_app {A} (c : Call A) : keeps same_app (call c).
Proof. intros w w' a. unfold call. destruct (run _ _). by intros [= <- _]. Qed.
Lemma modify_same_store f : keeps same_store (modify_app f).
Proof. intros w w' a. by intros [= <- _]. Qed.
Lemma update_same_store {A} (f : AppState -> AppState * A) : keeps same_store (update_app f).
Proof. intros w w' a. unfold update_app. destruct (f _). by intros [= <- _]. Qed.

Lemma call_eq {A} (c : Call A) w w' r :
  call c w = (w', r) ->
  run (w_store w) c = (w_store w', r) /\ w_app w' = w_app w /\ w_throttle w' = w_throttle w
  /\ w_clock w' = w_clock w /\ w_ids w' = w_ids w.
Proof. unfold call. destruct (run _ _) as [s r'] eqn:Er. intros [= <- <-]. by rewrite <- Er. Qed.

Lemma bind_eq {A B} (m : M A) (k : A -> M B) w w' b :
  (m ≫= k) w = (w', b) -> exists w1 a, m w = (w1, a) /\ k a w1 = (w', b).
Proof. unfold mbind, M_bind. destruct (m w) as [w1 a]. eauto. Qed.
End Programs.

Arguments World {_} _.
Arguments M {_} _ _.
#[export] Existing Instance M_ret.
#[export] Existing Instance M_bind.
#[export] Existing Instance same_store_preorder.
#[export] Existing Instance same_app_preorder.

(** Follow the program's structure. *)
Ltac keeps_step :=
  match goal with
  | |- keeps _ (mret _) => apply keeps_ret; apply _
  | |- keeps _ (_ ≫= _) => apply keeps_bind; [apply _| |intros ?]
  | |- keeps _ (collect _ _) => apply keeps_collect; [apply _|intros ?]
  | |- keeps _ (each _ _) => apply keeps_each; [apply _|intros ?]
  | |- keeps _ (match ?x with _ => _ end) => destruct x
  | |- keeps _ (let '(_, _) := ?x in _) => destruct x
  | |- keeps _ (let x := _ in _) => cbv zeta
  end.
Ltac keeps_all := repeat first [solve [auto with croniq]|keeps_step].
