(* ===== verification/Alerts.v ===== *)
(** * Alerts

    Models the decisions of [croniq-server/src/alerts.rs]: which rules match a
    failure, the overrides, acknowledgements and throttle windows that hold an
    alert back, the deliveries recorded for it, and the recovery that ends an
    incident. What a channel does with an alert (a shell command, a web
    request, a mail) is a parameter that answers whether it was delivered. *)

From S2P Require Import Prelude RustStr Chrono RunnerTypes Queue Registry RunnerApi.
From S2P Require Import Store StoreCalls Server.

Local Open Scope string_scope.
Local Open Scope Z_scope.

(** ** Configuration ([compile.rs]) *)

Inductive ChannelKind :=
| ChShell (command : string)
| ChWebhook (url : string) (signing_key : option string) (timeout_secs : Z)
| ChEmail (recipients : list string)
| ChUnknown (reason : string).
Record ChannelConfig := { cc_name : string; cc_kind : ChannelKind }.

Inductive RuleTrigger :=
| JobFailed | JobSlaMissed | JobMissedFire | MaintenanceActive | JobBlocked | JobRecovered.
#[export] Instance RuleTrigger_eq_dec : EqDecision RuleTrigger.
Proof. solve_decision. Defined.

Record RuleConfig := {
  ru_name : string;
  ru_trigger : RuleTrigger;
  ru_job_key_glob : string;
  ru_min_attempts : Z;
  ru_dead_letter_only : bool;
  ru_min_consecutive : Z;
  ru_throttle : option string;
  ru_expected_within : option string;
  ru_channels : list string
}.
Record AlertsConfig := { al_channels : gmap string ChannelConfig; al_rules : list RuleConfig }.
Definition alerts_none : AlertsConfig := {| al_channels := ∅; al_rules := [] |}.

(** ** Failures *)

Definition DEAD_LETTER_REASON : string := "dead_letter".
Definition DROPPED_REASON : string := "dropped".
Definition MAINTENANCE_ACTIVE_REASON : string := "maintenance_active".
Definition JOB_RECOVERED_REASON : string := "job_recovered".
Definition ACK_EXPIRED_REASON : string := "ack_expired".

Record FailureContext := {
  fc_job_key : string;
  fc_execution_id : string;
  fc_error : string;
  fc_attempt : Z;
  fc_reason : string;
  fc_consecutive : Z
}.

(** [event_name], [delivery_kind] *)
Definition event_name (ctx : FailureContext) : string :=
  if String.eqb (fc_reason ctx) MAINTENANCE_ACTIVE_REASON then MAINTENANCE_ACTIVE_REASON
  else if String.eqb (fc_reason ctx) JOB_RECOVERED_REASON then JOB_RECOVERED_REASON
  else "job_failed".
Definition delivery_kind (ctx : FailureContext) : AlertDeliveryKind :=
  if String.eqb (fc_reason ctx) JOB_RECOVERED_REASON then KRecovery else KAlert.

(** [parse_throttle_secs] *)
Definition checked_mul_u64 (a b : Z) : option Z := if a * b <=? U64_MAX then Some (a * b) else None.
Definition last_char (s : string) : option ascii :=
  match str_rev s with EmptyString => None | String c _ => Some c end.
Definition parse_throttle_secs (s : string) : option Z :=
  let s := trim s in
  if str_is_empty s then None
  else
    c ← last_char s;
    '(digits, mult) ←
      (if Ascii.eqb c "s" then Some (default s (strip_suffix "s" s), 1)
       else if Ascii.eqb c "m" then Some (default s (strip_suffix "m" s), 60)
       else if Ascii.eqb c "h" then Some (default s (strip_suffix "h" s), 3600)
       else if is_digit c then Some (s, 1)
       else None);
    n ← parse_u64 digits;
    checked_mul_u64 n mult.

(** [glob_match]: [*] is any run of bytes, [?] is one byte. *)
Fixpoint glob_match (pat : string) : string -> bool :=
  match pat with
  | EmptyString => fun s => str_is_empty s
  | String p pat' =>
      if Ascii.eqb p "*" then
        (fix star (s : string) : bool :=
           glob_match pat' s || match s with EmptyString => false | String _ s' => star s' end)
      else fun s =>
        match s with
        | EmptyString => false
        | String c s' => (Ascii.eqb p "?" || Ascii.eqb p c) && glob_match pat' s'
        end
  end.

(** [rule_matches_failure] *)
Definition rule_matches_failure (rule : RuleConfig) (ctx : FailureContext) : bool :=
  bool_decide (ru_trigger rule = JobFailed)
  && negb (fc_attempt ctx <? ru_min_attempts rule)
  && negb (fc_consecutive ctx <? ru_min_consecutive rule)
  && negb (ru_dead_letter_only rule && negb (String.eqb (fc_reason ctx) DEAD_LETTER_REASON))
  && glob_match (ru_job_key_glob rule) (fc_job_key ctx).

(** [AlertRuleOverride::is_expired], [is_suppressing],
    [effective_throttle_secs], [JobAlertAck::is_active] of [models.rs] *)
Definition ov_is_suppressing (ov : AlertRuleOverride) (now : instant) : bool :=
  if override_expired now ov then false
  else bool_decide (ov_enabled ov = Some false)
       || match ov_snooze_until ov with Some s => now <? s | None => false end.
Definition ov_effective_throttle_secs (ov : AlertRuleOverride) (now : instant) : option Z :=
  if override_expired now ov then None else ov_throttle_secs ov.
Definition ack_is_active (ack : JobAlertAck) (now : instant) : bool := now <? ak_expires_at ack.

(** [check_throttle] *)
Inductive ThrottleDecision := TdFire | TdSuppress (last_at : instant).
Definition check_throttle (m : gmap (string * string) instant) (rule job : string)
    (window : option Z) (now : instant) : ThrottleDecision :=
  match window with
  | None => TdFire
  | Some window =>
      match m !! (rule, job) with
      | Some last_at => if Z.max (num_seconds (now - last_at)) 0 <? window then TdSuppress last_at
                        else TdFire
      | None => TdFire
      end
  end.

(** [job_failed_rules_for], [job_recovered_rules_for] *)
Definition rules_for (trigger : RuleTrigger) (alerts : AlertsConfig) (job : string)
    : list RuleConfig :=
  List.filter (fun r => bool_decide (ru_trigger r = trigger) && glob_match (ru_job_key_glob r) job)
    (al_rules alerts).

(** [recovery_message] *)
Definition nl : string := String "010" EmptyString.
Definition runs_word (n : Z) : string := if n =? 1 then "run" else "runs".

(** ** Delivery *)

(** What a channel reports: delivered, failed, or not even set up. *)
Inductive Sent := SDelivered | SFailed (error : string) | SSetupFailed (error : string).

Section Delivery.
  Context `{J : Json} `{E : Env} {St : Type} `{SO : StoreOps St}.
  Context (transport : string -> ChannelConfig -> string -> FailureContext -> instant -> Sent).

Definition recovery_message (job : string) (ack : option JobAlertAck)
    (streak : option JobFailureStreak) : string :=
  let first := match streak with
    | Some st => job ++ " succeeded again after " ++ show_uint (fs_consecutive st) ++ " failed "
                 ++ runs_word (fs_consecutive st) ++ " in a row, failing since "
                 ++ to_rfc3339 (fs_since st) ++ ". Last error: " ++ fs_last_error st
    | None => job ++ " succeeded again."
    end in
  str_join nl (first :: match ack with
    | Some a => ["Acknowledged by " ++ ak_acked_by_name a ++ " at " ++ to_rfc3339 (ak_acked_at a)
                 ++ ": " ++ ak_note a ++ " (" ++ show_uint (ak_suppressed_count a) ++ " failed "
                 ++ runs_word (ak_suppressed_count a) ++ " held back)"]
    | None => []
    end).

Definition delivery (id rule channel : string) (ctx : FailureContext) (st : AlertDeliveryState)
    (error : option string) (now : instant) (delivered : option instant) : AlertDelivery := {|
  ad_delivery_id := id; ad_rule_name := rule; ad_channel_name := channel;
  ad_job_key := fc_job_key ctx; ad_execution_id := Some (fc_execution_id ctx); ad_state := st;
  ad_error := error; ad_fired_at := now; ad_delivered_at := delivered;
  ad_kind := delivery_kind ctx |}.

(** [dispatch]: [deliver_shell], [deliver_webhook], [deliver_email] *)
Definition dispatch (channel : ChannelConfig) (rule : string) (ctx : FailureContext)
    (now : instant) : M St AlertDelivery :=
  id ← new_uuid;
  match cc_kind channel with
  | ChUnknown reason => mret (delivery id rule (cc_name channel) ctx DFailed (Some reason) now None)
  | ChShell _ =>
      let '(st, error) := match transport id channel rule ctx now with
                          | SDelivered => (DDelivered, None)
                          | SFailed e | SSetupFailed e => (DFailed, Some e)
                          end in
      mret (delivery id rule (cc_name channel) ctx st error now (Some now))
  | ChWebhook _ _ _ | ChEmail _ =>
      match transport id channel rule ctx now, cc_kind channel with
      | SSetupFailed e, ChWebhook _ _ _ =>
          mret (delivery id rule (cc_name channel) ctx DFailed (Some e) now None)
      | SDelivered, _ =>
          at_ ← utc_now;
          mret (delivery id rule (cc_name channel) ctx DDelivered None now (Some at_))
      | SFailed e, _ | SSetupFailed e, _ =>
          at_ ← utc_now;
          mret (delivery id rule (cc_name channel) ctx DFailed (Some e) now (Some at_))
      end
  end.

Definition record_delivery (d : AlertDelivery) : M St (list AlertDelivery) :=
  _ ← call (RecordAlertDelivery d); mret [d].

(** [deliver_to_channels] *)
Definition deliver_to_channels (rule : RuleConfig) (alerts : AlertsConfig) (ctx : FailureContext)
    (now : instant) : M St (list AlertDelivery) :=
  collect (fun channel_name =>
    match al_channels alerts !! channel_name with
    | None =>
        id ← new_uuid;
        record_delivery (delivery id (ru_name rule) channel_name ctx DFailed
                           (Some "unknown channel") now None)
    | Some channel => d ← dispatch channel (ru_name rule) ctx now; record_delivery d
    end) (ru_channels rule).

(** The row of an alert that was held back. *)
Definition held_back (rule : RuleConfig) (ctx : FailureContext) (st : AlertDeliveryState)
    (now : instant) : M St (list AlertDelivery) :=
  id ← new_uuid;
  record_delivery (delivery id (ru_name rule) (default "<none>" (head (ru_channels rule))) ctx st
                     None now None).

Definition get_override (rule : RuleConfig) : M St (option AlertRuleOverride) :=
  r ← call (GetRuleOverride (ru_name rule));
  mret match r with Ok o => o | Err _ => None end.

Definition throttle_window (rule : RuleConfig) (ov : option AlertRuleOverride)
    (ctx : FailureContext) (now : instant) : option Z :=
  let base := match o ← ov; ov_effective_throttle_secs o now with
              | Some n => Some n
              | None => t ← ru_throttle rule; parse_throttle_secs t
              end in
  if String.eqb (fc_reason ctx) ACK_EXPIRED_REASON then None else base.

(** [dispatch_rule] *)
Definition dispatch_rule (rule : RuleConfig) (alerts : AlertsConfig) (ctx : FailureContext)
    : M St (list AlertDelivery) :=
  now ← utc_now;
  ov ← get_override rule;
  if match ov with Some o => ov_is_suppressing o now | None => false end then mret []
  else
    ack ← (if str_is_empty (fc_job_key ctx) then mret None
           else r ← call (GetAck (fc_job_key ctx));
                mret match r with Ok (Some a) => if ack_is_active a now then Some a else None
                             | _ => None end);
    match ack with
    | Some _ =>
        _ ← (if str_is_empty (fc_execution_id ctx) then mret (Ok tt)
             else call (RecordAckSuppression (fc_job_key ctx) (fc_execution_id ctx)
                          (fc_error ctx) now));
        held_back rule ctx DAcknowledged now
    | None =>
        throttle ← (fun w => (w, w_throttle w));
        match check_throttle throttle (ru_name rule) (fc_job_key ctx)
                (throttle_window rule ov ctx now) now with
        | TdSuppress _ => held_back rule ctx DThrottled now
        | TdFire =>
            _ ← (fun w => (set_throttle (<[(ru_name rule, fc_job_key ctx) := now]> (w_throttle w)) w, tt));
            deliver_to_channels rule alerts ctx now
        end
    end.

(** [evaluate_failure] *)
Definition evaluate_failure (alerts : AlertsConfig) (ctx : FailureContext)
    : M St (list AlertDelivery) :=
  collect (fun rule => if rule_matches_failure rule ctx then dispatch_rule rule alerts ctx
                       else mret []) (al_rules alerts).

(** [close_incident] *)
Definition close_incident (alerts : AlertsConfig) (job : string) : M St unit := fun w =>
  let recovery_rules := map ru_name (List.filter (fun r => bool_decide (ru_trigger r = JobRecovered))
                                       (al_rules alerts)) in
  (set_throttle (base.filter (fun kv => kv.1.2 <> job \/ kv.1.1 ∈ recovery_rules) (w_throttle w)) w, tt).

(** [send_recovery] *)
Definition send_recovery (alerts : AlertsConfig) (ack : option JobAlertAck)
    (streak : option JobFailureStreak) (execution_id : string) : M St (list AlertDelivery) :=
  match option_map ak_job_key ack, option_map fs_job_key streak with
  | None, None => mret []
  | a, s =>
      let job := match a with Some k => k | None => default "" s end in
      now ← utc_now;
      let ctx := {| fc_job_key := job; fc_execution_id := execution_id;
                    fc_error := recovery_message job ack streak; fc_attempt := 0;
                    fc_reason := JOB_RECOVERED_REASON;
                    fc_consecutive := default 0 (option_map fs_consecutive streak) |} in
      let acked := bool_decide (is_Some ack) in
      recorded ← match rules_for JobRecovered alerts job with
        | [] =>
            if acked then
              collect (fun rule =>
                ov ← get_override rule;
                if match ov with Some o => ov_is_suppressing o now | None => false end
                then mret [] else deliver_to_channels rule alerts ctx now)
                (rules_for JobFailed alerts job)
            else mret []
        | recovery_rules =>
            collect (fun rule =>
              if negb acked && (fc_consecutive ctx <? ru_min_consecutive rule) then mret []
              else dispatch_rule rule alerts ctx) recovery_rules
        end;
      _ ← match recorded with [] => mret tt | _ => close_incident alerts job end;
      mret recorded
  end.

(** [alert_ack_expired] *)
Definition ack_expired_message (ack : JobAlertAck) : string :=
  "The acknowledgement by " ++ ak_acked_by_name ack ++ " ran out at " ++ to_rfc3339 (ak_expires_at ack)
  ++ ", and " ++ ak_job_key ack ++ " has not succeeded since " ++ to_rfc3339 (ak_acked_at ack) ++ ". "
  ++ show_uint (ak_suppressed_count ack) ++ " failed " ++ runs_word (ak_suppressed_count ack)
  ++ " held back. Note: " ++ ak_note ack ++ nl ++ "Last error: "
  ++ default "none recorded" (ak_last_error ack).
Definition alert_ack_expired (alerts : AlertsConfig) (ack : JobAlertAck) : M St (list AlertDelivery) :=
  let ctx := {| fc_job_key := ak_job_key ack;
                fc_execution_id := default "" (ak_last_execution_id ack);
                fc_error := ack_expired_message ack; fc_attempt := 0;
                fc_reason := ACK_EXPIRED_REASON; fc_consecutive := 1 |} in
  collect (fun rule => dispatch_rule rule alerts ctx) (rules_for JobFailed alerts (ak_job_key ack)).
End Delivery.
