(* ===== verification/JobConfig.v ===== *)
(** * Compiled jobs and their dispatch

    Models the compiled job of [croniq-config/src/compile.rs] and
    [croniq-config/src/schedule.rs], and the conversions of
    [croniq-bridge/src/dispatch.rs] that turn a job and a fire instant into a
    work item, an execution row's metadata and an execution policy. *)

From S2P Require Import Prelude RustStr Chrono Ast Durations Execution RunnerTypes Schedule.

Local Open Scope string_scope.
Local Open Scope Z_scope.

Inductive CompiledSchedule :=
| CInterval (seconds : Z)
| CDaily (hour minute : Z)
| CWeekdays (days : list AstWeekday.t) (hour minute : Z)
| CMonthly (ordinals : list MonthOrdinal) (hour minute : Z)
| COnce (at_ : string)
| CDisabled.

Inductive ExecutionMode := ModeQueued | ModeEphemeral.
#[export] Instance ExecutionMode_eq_dec : EqDecision ExecutionMode.
Proof. solve_decision. Defined.

Inductive CatchUpPolicy := CatchUpAll | CatchUpLatest | CatchUpNone.
#[export] Instance CatchUpPolicy_eq_dec : EqDecision CatchUpPolicy.
Proof. solve_decision. Defined.
Inductive JobPriority := PLow | PNormal | PHigh.

Record RunnerConfig := {
  rc_require : list string;
  rc_prefer : list string;
  rc_exclude : list string;
  rc_sticky : bool
}.

Record JobConfig := {
  jc_key : string;
  jc_namespace : string;
  jc_name : string;
  jc_variant : option string;
  jc_description : option string;
  jc_schedule : CompiledSchedule;
  jc_schedule_summary : string;
  jc_timezone : option string;
  jc_calendar : option string;
  jc_window : option string;
  jc_not_before : option string;
  jc_not_after : option string;
  jc_runner : RunnerConfig;
  jc_retry : RetryConfig;
  jc_timeout : option string;
  jc_dead_letter : DeadLetterConfig;
  jc_metadata : gmap string string;
  jc_execution_mode : ExecutionMode;
  jc_catch_up : CatchUpPolicy;
  jc_catch_up_explicit : bool;
  jc_queue_ttl : option string;
  jc_max_queue_depth : option Z;
  jc_keep_last : option Z;
  jc_max_concurrent : option Z;
  jc_concurrency_group : option string;
  jc_coalesce : bool;
  jc_priority : JobPriority;
  jc_tags : list string;
  jc_run_on_register : bool
}.

(** The fingerprint of a compiled definition, [JobConfig::config_hash] of
    [croniq-config/src/fingerprint.rs]: its clients only compare hashes. *)
Class Fingerprint := { config_hash : JobConfig -> string }.

Definition COALESCE_METADATA_KEY : string := "__coalesce".
Definition COALESCE_SCHEDULE_VALUE : string := "schedule".
Definition REQUIRE_METADATA_KEY : string := "__require".
Definition PREFER_METADATA_KEY : string := "__prefer".

(** [job_coalesces_scheduled_fires] *)
Definition job_coalesces_scheduled_fires (metadata : gmap string string) : bool :=
  match metadata !! COALESCE_METADATA_KEY with
  | Some v => String.eqb v COALESCE_SCHEDULE_VALUE
  | None => false
  end.

(** [CompiledSchedule::from_ast] *)
Definition compiled_from_ast (kind : ScheduleKind) : CompiledSchedule :=
  match kind with
  | KInterval count unit =>
      CInterval match unit with
                | Seconds => count
                | Minutes => wrap_u64 (count * 60)
                | Hours => wrap_u64 (count * 3600)
                end
  | KDaily time => CDaily (tv_hour time) (tv_minute time)
  | KWeekdays days time => CWeekdays days (tv_hour time) (tv_minute time)
  | KMonthly ords time => CMonthly ords (tv_hour time) (tv_minute time)
  | KOnce at_ => COnce (sv_value at_)
  | KDisabled => CDisabled
  end.

(** [CompiledSchedule::to_schedule_kind] *)
Definition to_schedule_kind (c : CompiledSchedule) : ScheduleKind :=
  let time h m :=
    {| tv_hour := h; tv_minute := m; tv_raw := pad2 h +:+ ":" +:+ pad2 m |} in
  match c with
  | CInterval secs =>
      if (3600 <=? secs) && (secs mod 3600 =? 0) then KInterval (wrap_u32 (secs / 3600)) Hours
      else if (60 <=? secs) && (secs mod 60 =? 0) then KInterval (wrap_u32 (secs / 60)) Minutes
      else KInterval (wrap_u32 secs) Seconds
  | CDaily h m => KDaily (time h m)
  | CWeekdays days h m => KWeekdays days (time h m)
  | CMonthly ords h m => KMonthly ords (time h m)
  | COnce at_ => KOnce (MkValue at_ true false)
  | CDisabled => KDisabled
  end.

Section Dispatch.
  Context `{J : Json}.
  (** [serde_json::to_string] on a list of strings *)
  Context (json_strings : list string -> string).

(** [metadata_is_foldable] *)
Definition metadata_is_foldable (metadata : Value) : bool :=
  has_key metadata COALESCE_METADATA_KEY.

(** [metadata_to_json] *)
Definition metadata_to_json (meta : gmap string string) : Value := of_map meta.

(** [job_to_work_item] *)
Definition job_to_work_item (job : JobConfig) (execution_id : string)
    (fire_at scheduled_for : instant) (attempt : Z) : WorkItem := {|
  execution_id := execution_id;
  wi_job_key := jc_key job;
  fire_at := fire_at;
  scheduled_for := scheduled_for;
  attempt := attempt;
  require := rc_require (jc_runner job);
  prefer := rc_prefer (jc_runner job);
  metadata := metadata_to_json (jc_metadata job);
  timeout := default "5m" (jc_timeout job);
  is_ephemeral := bool_decide (jc_execution_mode job = ModeEphemeral) |}.

(** [job_execution_metadata] *)
Definition job_execution_metadata (job : JobConfig) : gmap string string :=
  let metadata := jc_metadata job in
  let metadata := match rc_require (jc_runner job) with
                  | [] => metadata
                  | l => <[REQUIRE_METADATA_KEY := json_strings l]> metadata
                  end in
  let metadata := match rc_prefer (jc_runner job) with
                  | [] => metadata
                  | l => <[PREFER_METADATA_KEY := json_strings l]> metadata
                  end in
  match jc_timeout job with
  | Some timeout => <[TIMEOUT_METADATA_KEY := timeout]> metadata
  | None => metadata
  end.
End Dispatch.

(** [job_to_execution_policy] *)
Definition job_to_execution_policy (job : JobConfig) : ExecutionPolicy := {|
  ep_retry := retry_config_to_policy (jc_retry job);
  ep_timeout := timeout_to_policy (jc_timeout job);
  ep_dead_letter := dead_letter_to_policy (jc_dead_letter job) |}.

(** ** Persisted schedules *)

Section Persisted.
  Context `{C : Chrono}.

(** An interval whose count fits its coarsest unit survives the unit change. *)
Lemma interval_kind_seconds secs :
  0 <= secs -> (secs <= U32_MAX \/ secs mod 60 = 0 /\ secs <= 60 * U32_MAX
                \/ secs mod 3600 = 0 /\ secs <= 3600 * U32_MAX) ->
  from_ast (to_schedule_kind (CInterval secs)) = from_ast (KInterval secs Seconds).
Proof.
  unfold U32_MAX. intros H0 Hr. cbn [to_schedule_kind].
  case_if; [|case_if]; b2p; unwrap.
  - cbn. replace (secs / 3600 * 3600) with secs; [done|]. Z.to_euclidean_division_equations; lia.
  - cbn. replace (secs / 60 * 60) with secs; [done|]. Z.to_euclidean_division_equations; lia.
  - done.
Qed.

(** A schedule persisted in its compiled form and read back (the canonical
    expression stored for configuration-defined jobs) compiles to the schedule
    the configuration itself compiles to, errors included; the change of
    interval unit on the way loses nothing at the field widths. *)
Theorem persisted_schedule_rebuilds kind :
  kind_ok kind ->
  from_ast (to_schedule_kind (compiled_from_ast kind)) = from_ast kind.
Proof.
  destruct kind as [count unit|[]|? []|? []| |]; try done. cbn [kind_ok compiled_from_ast].
  unfold U32_MAX. intros Hc. destruct unit.
  - apply interval_kind_seconds; unfold U32_MAX; lia.
  - unwrap.
    apply interval_kind_seconds; unfold U32_MAX; [lia|]. right; left. split; [|lia].
    apply Z.mod_mul. lia.
  - unwrap.
    apply interval_kind_seconds; unfold U32_MAX; [lia|]. right; right. split; [|lia].
    apply Z.mod_mul. lia.
Qed.
End Persisted.

Lemma persisted_schedule_rebuilds_witness :
  from_ast (C := Demo.demo_chrono) (to_schedule_kind (compiled_from_ast (KInterval 120 Minutes)))
  = Ok (Interval 7200).
Proof.
  etransitivity; [apply persisted_schedule_rebuilds|reflexivity].
  cbn. unfold U32_MAX. lia.
Defined.

(** A job for the examples. *)
Definition demo_job (key : string) (register : bool) : JobConfig := {|
  jc_key := key; jc_namespace := "web"; jc_name := "hook"; jc_variant := None;
  jc_description := None; jc_schedule := CInterval 3600; jc_schedule_summary := "every 1 hour";
  jc_timezone := None; jc_calendar := None; jc_window := None; jc_not_before := None;
  jc_not_after := None;
  jc_runner := {| rc_require := ["linux"]; rc_prefer := []; rc_exclude := []; rc_sticky := false |};
  jc_retry := {| rcf_strategy := "none"; rcf_max_attempts := 1; rcf_base := None; rcf_cap := None;
                 rcf_delay := None; rcf_step := None; rcf_jitter := None |};
  jc_timeout := Some "10m";
  jc_dead_letter := {| dlc_enabled := true; dlc_retention := None; dlc_operator_hint := None;
                       dlc_replay_max_age := None |};
  jc_metadata := ∅; jc_execution_mode := ModeQueued; jc_catch_up := CatchUpAll;
  jc_catch_up_explicit := false; jc_queue_ttl := None; jc_max_queue_depth := Some 2;
  jc_keep_last := None; jc_max_concurrent := None; jc_concurrency_group := None;
  jc_coalesce := false; jc_priority := PNormal; jc_tags := []; jc_run_on_register := register |}.

(** Hashes for the examples: the timeout and the key. *)
Definition demo_hash (job : JobConfig) : string := default "" (jc_timeout job) +:+ jc_key job.
