(* ===== verification/ConfigFacts.v ===== *)
(** * Theorems on the configuration language

    The round trip of the formatter, the schedule line a job is stored with,
    the rules of a stored calendar, the comments a rewrite would lose, and that
    parsing always ends. *)

From S2P Require Import Prelude RustStr Ast Lexer Parser Format LexFacts FormatTokens ItemTokens FormatParse RoundTrip ParserFacts.
From S2P Require Import Chrono Schedule JobConfig.

Local Open Scope Z_scope.

(** ** Schedule lines of stored jobs *)

(** [CompiledSchedule::to_dsl] *)
Definition to_dsl (c : CompiledSchedule) : string := format_schedule_line (to_schedule_kind c).

(** [CompiledSchedule::summary] *)
Definition summary (c : CompiledSchedule) : string :=
  match c with
  | CInterval secs =>
      if (3600 <=? secs) && (secs mod 3600 =? 0) then "every " +:+ interval_phrase (secs / 3600) "hour"
      else if (60 <=? secs) && (secs mod 60 =? 0) then "every " +:+ interval_phrase (secs / 60) "minute"
      else "every " +:+ interval_phrase secs "second"
  | CDaily h m => "every day at " +:+ pad2 h +:+ ":" +:+ pad2 m
  | CWeekdays days h m =>
      "every " +:+ str_join ", " (map AstWeekday.as_str days) +:+ " at " +:+ pad2 h +:+ ":" +:+ pad2 m
  | CMonthly ords h m =>
      "every " +:+ str_join ", " (map (fun o => match o with OrdDay d => show_uint d | OrdLast => "last" end) ords)
      +:+ " of month at " +:+ pad2 h +:+ ":" +:+ pad2 m
  | COnce at_ => "once at " +:+ at_
  | CDisabled => "disabled"
  end.

Definition clock_text (h m : Z) : TimeValue := MkTimeValue h m (pad2 h +:+ ":" +:+ pad2 m).

Lemma clock_text_ok h m : 0 <= h <= 23 -> 0 <= m <= 59 -> time_ok (clock_text h m) = true.
Proof.
  intros Hh Hm.
  assert (forallb (fun h => forallb (fun m => time_ok (clock_text (Z.of_nat h) (Z.of_nat m))) (seq 0 60)) (seq 0 24)
          = true) as H by (vm_compute; reflexivity).
  rewrite forallb_forall in H. specialize (H (Z.to_nat h) ltac:(apply in_seq; lia)).
  rewrite forallb_forall in H. specialize (H (Z.to_nat m) ltac:(apply in_seq; lia)).
  by rewrite !Z2Nat.id in H by lia.
Qed.

Lemma time_ok_range t : time_ok t = true -> 0 <= tv_hour t <= 23 /\ 0 <= tv_minute t <= 59.
Proof.
  unfold time_ok. intros H. apply andb_true_iff in H as [_ H]. apply bool_decide_eq_true_1 in H.
  unfold read_time in H. destruct (split_char ":" (tv_raw t)) as [|h [|m [|]]]; [done|done| |done].
  destruct (parse_u8 h) as [hour|] eqn:Eh; [|done]. destruct (parse_u8 m) as [minute|] eqn:Em; [|done].
  cbn in H. destruct (_ || _) eqn:E; [done|]. injection H as <-. cbn [tv_hour tv_minute]. b2p.
  unfold parse_u8 in Eh, Em. apply parse_uint_range in Eh, Em; unfold U8_MAX in *; lia.
Qed.

Definition unit_secs (unit : IntervalUnit) : Z :=
  match unit with Seconds => 1 | Minutes => 60 | Hours => 3600 end.

(** The unit a stored interval is written with divides it, and the count still fits. *)
Lemma interval_units count unit :
  0 <= count <= U32_MAX -> exists count' unit',
    to_schedule_kind (CInterval (count * unit_secs unit)) = KInterval count' unit'
    /\ 0 <= count' <= U32_MAX /\ count' * unit_secs unit' = count * unit_secs unit.
Proof.
  intros Hc. cbn [to_schedule_kind]. set (secs := count * unit_secs unit).
  destruct ((3600 <=? secs) && (secs mod 3600 =? 0)) eqn:E1; b2p.
  { assert (0 <= secs / 3600 <= count) by (unfold secs in *; destruct unit; cbn [unit_secs] in *; Z.to_euclidean_division_equations; lia).
    exists (secs / 3600), Hours. rewrite wrap_u32_id by lia. split_and!; [done|lia..|]. cbn. Z.to_euclidean_division_equations; lia. }
  destruct ((60 <=? secs) && (secs mod 60 =? 0)) eqn:E2; b2p.
  { assert (0 <= secs / 60 <= count).
    { unfold secs in *; destruct unit; cbn [unit_secs] in *; Z.to_euclidean_division_equations; lia. }
    exists (secs / 60), Minutes. rewrite wrap_u32_id by lia. split_and!; [done|lia..|]. cbn. Z.to_euclidean_division_equations; lia. }
  assert (0 <= secs <= count).
  { unfold secs in *; destruct unit; cbn [unit_secs] in *; Z.to_euclidean_division_equations; lia. }
  exists secs, Seconds. rewrite wrap_u32_id by lia. split_and!; [done|lia..|]. cbn. lia.
Qed.

Lemma compiled_interval count unit :
  0 <= count <= U32_MAX -> compiled_from_ast (KInterval count unit) = CInterval (count * unit_secs unit).
Proof.
  intros Hc. cbn [compiled_from_ast]. f_equal. unfold U32_MAX in Hc.
  destruct unit; cbn [unit_secs]; rewrite ?wrap_u64_id; unfold U64_MAX; lia.
Qed.

Definition probe_key : JobKey := MkJobKey "__sched__:__probe__" "__sched__" "__probe__" None.

(** A schedule line in the probe job is read in normal form. *)
Lemma parse_schedule_line k :
  kind_prints k = true -> parse_schedule_expr (format_schedule_line k) = Ok (norm_kind k).
Proof.
  intros Hk. set (ast := [IJob (MkJob probe_key (Some (MkScheduleNode k None [])) [])]).
  assert (printable ast = true) as Ho.
  { unfold printable, ast. cbn [forallb item_ok]. unfold job_ok, schedule_ok.
    cbn [jb_key jb_directives jb_schedule forallb sched_kind sched_options].
    rewrite Hk. by destruct k. }
  unfold parse_schedule_expr. rewrite (parse_file_toks ast); [done|done|].
  unfold ast, file_toks. cbn [map concat item_toks]. unfold job_toks.
  cbn [jb_key jb_directives jb_schedule split_description key_raw probe_key app].
  unfold schedule_toks. cbn [sched_mode sched_kind sched_options mode_toks options_toks app]. rewrite <- !app_assoc.
  change ("job __sched__:__probe__ {" +:+ String NL (format_schedule_line k +:+ String NL ("}" +:+ String NL "")))
    with ("job" +:+ " " +:+ "__sched__:__probe__" +:+ " {" +:+ nl +:+ (format_schedule_line k +:+ nl +:+ ("}" +:+ nl +:+ ""))).
  apply Lexes_keyword; [done|]. apply Lexes_word; [done|done|]. apply Lexes_open_line.
  apply LexLine_solid; [apply line_solid|]. apply Lexes_kind; [done|done|].
  apply Lexes_nl. apply (LexLine_close 0). apply LexLine_eof.
Qed.

Lemma to_schedule_kind_ok k : kind_prints k = true ->
  kind_prints (to_schedule_kind (compiled_from_ast k)) = true
  /\ compiled_from_ast (norm_kind (to_schedule_kind (compiled_from_ast k))) = compiled_from_ast (norm_kind k).
Proof.
  intros Hk. destruct k as [count unit|t|days t|ords t|v|]; cbn [kind_prints] in Hk.
  - assert (0 <= count <= U32_MAX) as Hc by (b2p; lia). cbn [norm_kind].
    rewrite compiled_interval by done.
    destruct (interval_units count unit Hc) as (count' & unit' & -> & Hc' & Es).
    split; [cbn; b2p; split; b2p; lia|]. cbn [norm_kind]. by rewrite compiled_interval, Es.
  - destruct (time_ok_range t Hk). split; [by apply clock_text_ok|done].
  - apply andb_true_iff in Hk as [Hd Ht]. destruct (time_ok_range t Ht).
    split; [|done]. cbn. rewrite Hd. by apply clock_text_ok.
  - rewrite !andb_true_iff in Hk. destruct Hk as [[Hd Hords] Ht]. destruct (time_ok_range t Ht).
    split; [|done]. cbn. rewrite Hd, Hords. by apply clock_text_ok.
  - done.
  - done.
Qed.

(** *** The order and repetition of weekdays do not matter *)

Lemma weekday_index_lookup d : AstWeekday.ALL !! AstWeekday.index d = Some d.
Proof. by destruct d. Qed.

Lemma weekday_lookup_index i d : AstWeekday.ALL !! i = Some d -> AstWeekday.index d = i /\ (i < 7)%nat.
Proof.
  intros H. assert (i < 7)%nat as Hi by (apply lookup_lt_Some in H; done).
  do 7 (destruct i as [|i]; [injection H as <-; split; [done|lia]|]). lia.
Qed.

Lemma elem_of_norm_days d days : d ∈ norm_days days <-> d ∈ days.
Proof.
  unfold norm_days, day_indices. rewrite list_elem_of_omap. setoid_rewrite list_elem_of_filter.
  setoid_rewrite Exists_exists. split.
  - intros (i & [(d' & Hd' & Hi) _] & El). apply weekday_lookup_index in El as [El _].
    rewrite <- El in Hi. replace d with d'; [done|]. by destruct d, d'.
  - intros Hd. exists (AstWeekday.index d). split_and!; [by exists d| |apply weekday_index_lookup].
    apply elem_of_seq. destruct d; cbn; lia.
Qed.

Section SameFires.
  Context `{C : Chrono}.

Lemma weekdays_scan_ext tz ds ds' t today after fuel k :
  (forall d, d ∈ ds <-> d ∈ ds') ->
  weekdays_scan tz ds t today after fuel k = weekdays_scan tz ds' t today after fuel k.
Proof.
  intros H. revert k. induction fuel as [|fuel IH]; intros k; cbn [weekdays_scan]; [done|].
  rewrite !IH. by rewrite (bool_decide_ext _ _ (H (weekday (today + k)))).
Qed.

(** Two schedules that fire at the same instants in every zone. *)
Definition same_fires (s s' : Schedule) : Prop :=
  forall after tz, next_fire_after s after tz = next_fire_after s' after tz.

Lemma norm_kind_same_fires k :
  match from_ast k, from_ast (norm_kind k) with
  | Ok s, Ok s' => same_fires s' s
  | Err e, Err e' => e' = e
  | _, _ => False
  end.
Proof.
  destruct k as [| |days t| | |]; cbn [norm_kind]; try by destruct (from_ast _).
  cbn [from_ast]. destruct (time_from_ast t) as [v|e]; cbn [res_bind]; [|done].
  intros after tz. cbn [next_fire_after]. apply weekdays_scan_ext. intros d.
  rewrite !list_elem_of_fmap. by setoid_rewrite elem_of_norm_days.
Qed.

Lemma kind_prints_ok k : kind_prints k = true -> kind_ok k.
Proof.
  destruct k as [count unit|t|days t|ords t|v|]; cbn; unfold U8_MAX; intros Hk; b2p; try done; try lia;
    match goal with H : time_ok _ = true |- _ => apply time_ok_range in H; lia end.
Qed.

(** A schedule survives being stored. The schedule of a job written to the
    store as its canonical expression ([to_dsl] of the compiled schedule) is read
    back by [parse_schedule_expr], and the schedule built from it fires, after
    every instant and in every time zone, at the instant the configured schedule
    does; a configured schedule the scheduler refuses is refused with the same
    error. *)
Theorem stored_schedule_fires_the_same k :
  kind_prints k = true ->
  exists k', parse_schedule_expr (to_dsl (compiled_from_ast k)) = Ok k' /\
    match from_ast k, from_ast k' with
    | Ok s, Ok s' => same_fires s' s
    | Err e, Err e' => e' = e
    | _, _ => False
    end.
Proof.
  intros Hk. destruct (to_schedule_kind_ok k Hk) as [Hk' _].
  exists (norm_kind (to_schedule_kind (compiled_from_ast k))).
  split; [by apply parse_schedule_line|].
  rewrite <- (persisted_schedule_rebuilds k) by by apply kind_prints_ok.
  apply norm_kind_same_fires.
Qed.
End SameFires.

Lemma stored_schedule_fires_the_same_witness :
  let k := KWeekdays [AstWeekday.Friday; AstWeekday.Monday; AstWeekday.Friday] (MkTimeValue 9 5 "9:5") in
  kind_prints k = true /\
  exists k', parse_schedule_expr (to_dsl (compiled_from_ast k)) = Ok k' /\
    match from_ast (C := Demo.demo_chrono) k, from_ast (C := Demo.demo_chrono) k' with
    | Ok s, Ok s' => same_fires (C := Demo.demo_chrono) s' s
    | Err e, Err e' => e' = e
    | _, _ => False
    end.
Proof.
  intros k. assert (kind_prints k = true) as Hk by (vm_compute; reflexivity).
  split; [exact Hk|]. exact (stored_schedule_fires_the_same (C := Demo.demo_chrono) k Hk).
Defined.

(** The summary shown to people is no schedule line. *)
Lemma summary_does_not_parse :
  let c := compiled_from_ast (KWeekdays [AstWeekday.Monday; AstWeekday.Friday] (MkTimeValue 9 0 "09:00")) in
  summary c = "every monday, friday at 09:00"
  /\ to_dsl c = "every Mon Fri at 09:00"
  /\ exists e, parse_schedule_expr (summary c) = Err e.
Proof. vm_compute. split_and!; [done..|]. eexists. reflexivity. Qed.

(** ** Formatting a file *)

(** C15. Formatting loses nothing: the text [format] writes for a file parses, as
    the file in normal form (the weekdays of a schedule or of a [weekly] rule in
    week order, the description of a job first), and formatting that again gives
    the same text, so that the formatter is idempotent. Files are those the
    grammar can write down ([printable]): values the lexer can produce, times and
    ordinals in range, blocks nested no deeper than [MAX_BLOCK_DEPTH], and no job
    key of identifier characters with two dots in a row, which [format] writes
    bare although only its quoted form reads back
    ([dotted_key_is_written_bare]). *)
Theorem format_parse_roundtrip ast :
  printable ast = true ->
  parse (format ast) = Ok (normalize ast) /\ format (normalize ast) = format ast.
Proof.
  intros H. split; [|by apply format_normalize].
  apply parse_file_toks; [done|]. by apply Lexes_format.
Qed.

Definition demo_file : Croniqfile :=
  [ICalendar (plain_value "biz")
     [MkAstRule Include (plain_value "weekly") [plain_value "fri"; plain_value "mon"; plain_value "tue"; plain_value "wed"];
      MkAstRule Exclude (plain_value "annual") [MkValue "2026-12-24 \ x" true false]];
   IJob (MkJob (MkJobKey "ops:backup" "ops" "backup" None)
     (Some (MkScheduleNode (KWeekdays [AstWeekday.Sunday; AstWeekday.Monday] (MkTimeValue 9 0 "09:00")) (Some MQueued)
              [MkDirective (plain_value "calendar") [plain_value "biz"]]))
     [DComment " keep";
      DBlock (MkBlock (plain_value "retry") None
        [DDirective (MkDirective (plain_value "max_attempts") [plain_value "3"])]);
      DDirective (MkDirective (plain_value "description") [MkValue "nightly" true false])])].

Lemma format_parse_roundtrip_witness :
  printable demo_file = true /\ normalize demo_file <> demo_file
  /\ parse (format demo_file) = Ok (normalize demo_file)
  /\ format (normalize demo_file) = format demo_file.
Proof.
  assert (printable demo_file = true) as H by (vm_compute; reflexivity).
  split; [exact H|]. split; [vm_compute; congruence|]. exact (format_parse_roundtrip demo_file H).
Defined.

(** ** Parsing ends *)

Lemma parse_ends source : parse source <> Err OutOfSteps.
Proof.
  unfold parse. destruct (tokenize source) as [toks|e] eqn:Et; cbn [map_err res_bind];
    [|apply tokenize_refusal in Et; congruence].
  apply (run_parser_ends _ source); [|done]. unfold parse_croniqfile.
  apply eats_loop, eats_item_loop.
Qed.

(** C39. Parsing always ends. The loop of the lexer reaches the end of every
    text, or an error, within one step per byte and one more: the tokens end with
    the only [Eof]. Each loop of the parser ends before the tokens do. So a file,
    a schedule expression and the rules of a stored calendar are parsed, or
    refused with an error of the lexer or of the grammar; no text makes a loop
    spin. *)
Theorem parsing_terminates source name :
  tokenize source <> Err LexOutOfSteps
  /\ (forall toks, tokenize source = Ok toks ->
      exists init e, toks = init ++ [e] /\ tok_kind e = Eof /\ Forall (fun t => tok_kind t <> Eof) init)
  /\ parse source <> Err OutOfSteps
  /\ parse_schedule_expr source <> Err OutOfSteps
  /\ parse_calendar_rules name source <> Err OutOfSteps.
Proof.
  split; [apply tokenize_ends|]. split.
  { intros toks E. pose proof (tokenize_total source) as H. rewrite E in H. by apply tokenize_loop_last in H. }
  split; [apply parse_ends|split].
  - unfold parse_schedule_expr.
    match goal with |- context [parse ?text] => pose proof (parse_ends text) as H; destruct (parse text) as [ast|e] end;
      cbn [res_bind]; [by destruct (find_schedule ast)|congruence].
  - unfold parse_calendar_rules. destruct (tokenize source) as [toks|e] eqn:Et; cbn [map_err res_bind];
    [|apply tokenize_refusal in Et; congruence].
    assert (forall e, first_refused (map tok_kind toks) = Some e -> e <> OutOfSteps) as Hr.
    { intros e. induction (map tok_kind toks) as [|t l IH]; [done|]. cbn [first_refused].
      destruct t; cbn; try done; by intros [= <-]. }
    destruct (first_refused _) as [e|] eqn:Ef; [by specialize (Hr e eq_refl); congruence|].
    pose proof (run_parser_ends (p_loop rule_list) source toks (eats_loop _ _ _ eats_rule_list) Et) as H.
    destruct (run_parser _ _); cbn [res_bind]; congruence.
Qed.

(** ** Comments a rewrite would lose *)

Lemma position_of_Some x l i : position_of x l = Some i -> l !! i = Some x.
Proof.
  revert i. induction l as [|y l IH]; intros i; cbn [position_of]; [done|].
  destruct (String.eqb_spec y x) as [->|]; [by intros [= <-]|].
  destruct (position_of x l) as [j|]; [|done]. intros [= <-]. by apply IH.
Qed.

Lemma position_of_None x l : position_of x l = None -> x ∉ l.
Proof.
  induction l as [|y l IH]; cbn [position_of]; [set_solver|].
  destruct (String.eqb_spec y x) as [->|Hne]; [done|].
  destruct (position_of x l); [done|]. intros _. rewrite not_elem_of_cons. split; [congruence|by apply IH].
Qed.

Lemma swap_remove_perm {A} (l : list A) i x : l !! i = Some x -> l ≡ₚ x :: swap_remove i l.
Proof.
  intros Hi. unfold swap_remove. destruct l as [|z l _] using rev_ind; [done|].
  rewrite last_snoc, length_app. replace (length l + length [z] - 1)%nat with (length l) by (cbn; lia).
  rewrite take_app_length. destruct (decide (i = length l)) as [->|Hne].
  - rewrite list_lookup_middle in Hi by done. injection Hi as ->.
    rewrite list_insert_ge by lia. by rewrite Permutation_app_comm.
  - pose proof (lookup_lt_Some _ _ _ Hi) as Hlt. rewrite length_app in Hlt. cbn in Hlt.
    rewrite lookup_app_l in Hi by lia. rewrite insert_take_drop by lia.
    rewrite <- (take_drop_middle l i x Hi) at 1. rewrite <- app_assoc. cbn [app].
    rewrite <- (Permutation_middle (take i l)), (app_assoc (take i l)), <- Permutation_cons_append.
    by rewrite (Permutation_middle (take i l)).
Qed.

Abbreviation occurrences := (count_occ String.string_dec).

Lemma lost_loop_counts source kept c :
  occurrences (lost_loop kept source) c = (occurrences source c - occurrences kept c)%nat.
Proof.
  revert kept. induction source as [|s source IH]; intros kept; cbn [lost_loop]; [done|].
  destruct (position_of s kept) as [i|] eqn:E.
  - apply position_of_Some, swap_remove_perm in E. rewrite IH, (Permutation_count_occ String.string_dec) in *.
    rewrite (E c). cbn [count_occ]. destruct (String.string_dec s c); lia.
  - cbn [count_occ]. rewrite IH. apply position_of_None in E. destruct (String.string_dec s c) as [->|]; [|done].
    rewrite (proj1 (count_occ_not_In String.string_dec kept c)) by by rewrite <- list_elem_of_In. lia.
Qed.

(** The comments a rewrite is reported to lose are exactly those it loses,
    with multiplicity: a comment is reported as often as it occurs more often in
    the source than in the rewritten text, wherever comments move. Nothing is
    reported exactly when every comment is kept. *)
Theorem lost_comments_exact source formatted :
  (forall c, occurrences (lost_comments source formatted) c
             = (occurrences (comments source) c - occurrences (comments formatted) c)%nat)
  /\ (lost_comments source formatted = []
      <-> forall c, (occurrences (comments source) c <= occurrences (comments formatted) c)%nat).
Proof.
  unfold lost_comments. split; [intros c; apply lost_loop_counts|].
  split.
  - intros H c. pose proof (lost_loop_counts (comments source) (comments formatted) c) as E.
    rewrite H in E. cbn in E. lia.
  - intros H. apply (count_occ_inv_nil String.string_dec). intros c. rewrite lost_loop_counts. specialize (H c). lia.
Qed.

(** A comment inside a schedule's block is one the formatter drops. *)
Lemma options_comment_is_lost :
  let source := "job a:b {" +:+ nl +:+ "every day at 09:00 {" +:+ nl +:+ "# why" +:+ nl +:+ "calendar biz" +:+ nl
                +:+ "}" +:+ nl +:+ "}" +:+ nl in
  match parse source with
  | Ok ast => lost_comments source (format ast) = ["why"]
  | Err _ => False
  end.
Proof. vm_compute. reflexivity. Qed.

(** ** Rules of a stored calendar *)

Definition unrefused (tok : TokenKind) : Prop := refused_token tok = None.

(** From tokens without placeholders the parser yields a [Q]. *)
Definition yields {A} (Q : A -> Prop) (m : P A) : Prop :=
  forall ts a ts', Forall unrefused ts -> m ts = Ok (a, ts') -> Forall unrefused ts' /\ Q a.

Lemma yields_ret {A} (Q : A -> Prop) a : Q a -> yields Q (p_ret a).
Proof. intros H ts b ts' Hts [= <- <-]. done. Qed.
Lemma yields_fail {A} (Q : A -> Prop) e : yields Q (p_fail e).
Proof. by intros ts a ts'. Qed.
Lemma yields_bind {A B} (Q : A -> Prop) (R : B -> Prop) (m : P A) (f : A -> P B) :
  yields Q m -> (forall a, Q a -> yields R (f a)) -> yields R (p_bind m f).
Proof.
  intros Hm Hf ts b ts' Hts. unfold p_bind. destruct (m ts) as [[a ts1]|e] eqn:E; [|done].
  destruct (Hm _ _ _ Hts E) as [Hts1 Ha]. by apply Hf.
Qed.
Lemma yields_peek {B} (R : B -> Prop) (f : TokenKind -> P B) :
  (forall tok, unrefused tok -> yields R (f tok)) -> yields R (p_bind peek f).
Proof.
  intros Hf ts b ts' Hts. apply Hf; [|done]. unfold hd_tok. destruct Hts; done.
Qed.
Lemma yields_advance : yields (fun _ => True) advance.
Proof.
  intros ts a ts' Hts [= _ <-]. split; [|done]. destruct Hts as [|t ts Ht Hts]; [done|].
  destruct ts; [by constructor|done].
Qed.
Lemma yields_skip_newlines : yields (fun _ => True) skip_newlines.
Proof.
  intros ts a ts' Hts [= _ <-]. split; [|done]. induction Hts as [|t ts Ht Hts IH]; [done|].
  destruct t; cbn [drop_newlines]; try by constructor. done.
Qed.
Lemma yields_loop {A} (Q : A -> Prop) f : (forall steps, yields Q (f steps)) -> yields Q (p_loop f).
Proof. intros H ts a ts'. apply H. Qed.
Lemma yields_then {A B} (R : B -> Prop) (m : P A) (k : P B) :
  yields (fun _ => True) m -> yields R k -> yields R (p_bind m (fun _ => k)).
Proof. intros Hm Hk. by eapply yields_bind. Qed.

Definition literal (v : StringValue) : Prop := sv_is_placeholder v = false.

Lemma yields_value : yields literal read_string_value.
Proof.
  apply yields_peek. intros tok Ht. destruct tok; try apply yields_fail; try discriminate Ht;
    cbn [value_of]; (apply yields_then; [apply yields_advance|by apply yields_ret]).
Qed.

Lemma day_values_literal days : Forall literal (day_values days).
Proof. unfold day_values. apply Forall_fmap. by apply Forall_true. Qed.

Lemma range_args_literal lower a b : literal a -> literal b -> Forall literal (range_args lower a b).
Proof.
  intros Ha Hb. assert (Forall literal [a; b]) as Hab by auto. unfold range_args.
  destruct (String.eqb lower "weekly").
  { repeat case_match; try done. apply day_values_literal. }
  repeat case_match; try done. unfold day_numbers. apply Forall_fmap. by apply Forall_true.
Qed.

Lemma single_args_literal lower a : literal a -> Forall literal (single_args lower a).
Proof.
  intros Ha. unfold single_args. repeat case_match; auto using day_values_literal.
Qed.

Lemma yields_rule_args lower steps : yields (Forall literal) (calendar_rule_args lower steps).
Proof.
  induction steps as [|steps IH]; cbn [calendar_rule_args]; [apply yields_fail|].
  apply yields_peek. intros tok _. case_match; [|by apply yields_ret].
  eapply yields_bind; [apply yields_value|]. intros first Hf. apply yields_peek. intros next _.
  eapply (yields_bind (Forall literal)).
  { case_decide; [|by apply yields_ret, single_args_literal]. apply yields_then; [apply yields_advance|].
    eapply yields_bind; [apply yields_value|]. intros second Hs. by apply yields_ret, range_args_literal. }
  intros added Ha. apply yields_peek. intros tok' _. case_match.
  - apply yields_then; [apply yields_advance|by apply yields_ret].
  - eapply yields_bind; [apply IH|]. intros more Hm. apply yields_ret, Forall_app. done.
Qed.

(** A rule without placeholders. *)
Definition literal_rule (r : AstCalendarRule) : Prop := literal (ar_type r) /\ Forall literal (ar_args r).

Lemma yields_rule : yields literal_rule parse_calendar_rule.
Proof.
  assert (forall kind, yields literal_rule
            (read_string_value >>>
             let! rtype := read_string_value in
             let! args := p_loop (calendar_rule_args (to_ascii_lowercase (sv_value rtype))) in
             p_ret (MkAstRule kind rtype args))) as Hrule.
  { intros kind. eapply yields_bind; [apply yields_value|]. intros _ _.
    eapply yields_bind; [apply yields_value|]. intros rtype Ht.
    eapply yields_bind; [apply yields_loop, yields_rule_args|]. intros args Ha. by apply yields_ret. }
  apply yields_peek. intros tok _. case_match; [apply Hrule|]. case_match; [apply Hrule|].
  case_match; [|apply yields_fail].
  eapply yields_bind; [apply yields_value|]. intros key Hk.
  eapply yields_bind; [apply yields_value|]. intros tz Hz. apply yields_ret. split; [done|by constructor].
Qed.

Lemma yields_rule_list steps : yields (Forall literal_rule) (rule_list steps).
Proof.
  induction steps as [|steps IH]; cbn [rule_list]; [apply yields_fail|].
  apply yields_then; [apply yields_skip_newlines|]. apply yields_peek. intros tok _.
  case_decide; [by apply yields_ret|]. case_match; [by apply yields_then; [apply yields_advance|]|].
  eapply yields_bind; [apply yields_rule|]. intros r Hr. eapply yields_bind; [apply IH|].
  intros rs Hrs. apply yields_ret. by constructor.
Qed.

Lemma first_refused_None toks : first_refused toks = None -> Forall unrefused toks.
Proof.
  induction toks as [|t toks IH]; [done|]. cbn [first_refused]. unfold or_else.
  destruct (refused_token t) eqn:E; [done|]. intros H. constructor; [done|by apply IH].
Qed.

(** The rules of a calendar stored outside the configuration cannot reach
    into it: whatever text is stored, parsing it gives exactly one calendar, under
    the name it is stored with, and none of its rules holds a placeholder that a
    later expansion could replace; text that would close the block or open another
    is refused. *)
Theorem stored_rules_stay_in_their_calendar name rules ast :
  parse_calendar_rules name rules = Ok ast ->
  exists parsed, ast = [ICalendar (MkValue name true false) parsed] /\ Forall literal_rule parsed.
Proof.
  unfold parse_calendar_rules. destruct (tokenize rules) as [toks|e]; cbn [map_err res_bind]; [|done].
  destruct (first_refused _) as [e|] eqn:Ef; [done|]. apply first_refused_None in Ef.
  unfold run_parser. destruct (p_loop rule_list (map tok_kind toks)) as [[parsed ts]|e] eqn:Ep; cbn [res_bind]; [|done].
  intros [= <-]. exists parsed. split; [done|].
  by apply (yields_loop _ _ yields_rule_list _ _ _ Ef) in Ep as [_ Ep].
Qed.

Lemma stored_rules_stay_in_their_calendar_witness :
  exists ast, parse_calendar_rules "biz" ("include weekly mon..fri; exclude annual 12-24" +:+ nl) = Ok ast /\
  exists parsed, ast = [ICalendar (MkValue "biz" true false) parsed] /\ Forall literal_rule parsed.
Proof.
  eexists. split; [vm_compute; reflexivity|].
  eapply (stored_rules_stay_in_their_calendar "biz" ("include weekly mon..fri; exclude annual 12-24" +:+ nl)).
  vm_compute. reflexivity.
Defined.

(** Text that would close the calendar's block. *)
Lemma stored_rules_injection_refused :
  exists e, parse_calendar_rules "biz" ("include weekly mon } job a:b { every day at 09:00" +:+ nl) = Err e.
Proof. vm_compute. eexists. reflexivity. Qed.

(** ** Where the formatter and the parser part *)

Definition reformatted (source : string) : result string ParseError :=
  res_bind (parse source) (fun ast => Ok (format ast)).

(** A quoted job key with two dots in a row is written bare, and no longer parses. *)
Lemma dotted_key_is_written_bare :
  let quote := String (Ascii.ascii_of_nat 34) "" in
  let source := "job " +:+ quote +:+ "a..b:c" +:+ quote +:+ " {" +:+ nl +:+ "every day at 09:00" +:+ nl +:+ "}" +:+ nl in
  match reformatted source with
  | Ok text => match parse text with Ok _ => False | Err _ => True end
  | Err _ => False
  end.
Proof. vm_compute. done. Qed.

(** The second end of a range loses its being a placeholder. *)
Lemma range_end_placeholder_is_lost :
  reformatted ("server {" +:+ nl +:+ "window 08:00..{vars.end}" +:+ nl +:+ "}" +:+ nl)
  = Ok ("server {" +:+ nl +:+ "  window 08:00..vars.end" +:+ nl +:+ "}" +:+ nl).
Proof. vm_compute. reflexivity. Qed.
