(* ===== verification/Restore.v ===== *)
(** * Restoring and rebuilding triggers

    Models what happens to triggers across a restart and a hot reload:
    [missed_fires_for], [restore_trigger_states] and [persist_healed_state] of
    [croniq-server/src/loader.rs], and [carry_over_state],
    [skip_fire_in_memory] and [skip_fire] of [croniq-server/src/scheduler.rs].

    The job store is reached through the rows it lists and the upserts issued
    to it; a failed upsert is only logged by the source, so the functions
    return the rows they write and go on. *)

From S2P Require Import Prelude RustStr Chrono Ast CalendarArgs DaySets Schedule Calendar.
From S2P Require Import Trigger TriggerSearch TriggerMachine Store JobConfig.

Local Open Scope Z_scope.

(** [missed_fires_for] *)
Definition missed_fires_for (job : JobConfig) : MissedFires :=
  if negb (jc_catch_up_explicit job) then CatchOnce
  else match jc_catch_up job with
       | CatchUpAll => CatchAll (default 10 (jc_max_queue_depth job))
       | CatchUpLatest => CatchOnce
       | CatchUpNone => CatchSkip
       end.

Section Restores.
  Context `{C : Chrono}.

Definition set_fire_count (n : Z) (t : Trigger) : Trigger := set_fired (last_fired_at t) n t.

(** [persist_healed_state]: the row upserted, if any. *)
Definition persist_healed_state (t : Trigger) (stored : JobState) (now : instant)
    : option JobState :=
  let healed_status := match state t with
                       | Paused => JDisabled
                       | Exhausted => JExhausted
                       | _ => JActive
                       end in
  if bool_decide (healed_status = js_status stored)
     && bool_decide (next_fire_at t = js_next_fire_at stored)
  then None
  else Some {| js_job_key := js_job_key stored;
               js_next_fire_at := next_fire_at t;
               js_last_fired_at := js_last_fired_at stored;
               js_fire_count := fire_count t;
               js_status := healed_status;
               js_updated_at := now |}.

(** The [recurring] test of [restore_trigger_states] and [carry_over_state]. *)
Definition is_recurring (s : Schedule) : bool :=
  match s with Once _ | Disabled => false | _ => true end.

(** [trigger.not_after.is_some_and(|na| now > na)] *)
Definition past_not_after (t : Trigger) (now : instant) : bool :=
  match not_after t with Some na => na <? now | None => false end.

(** One row of [restore_trigger_states] applied to its trigger: the trigger
    and the row written back. *)
Definition restore_trigger (t : Trigger) (row : JobState) (now : instant)
    : Trigger * option JobState :=
  match js_status row with
  | JExhausted =>
      if is_recurring (schedule t) && negb (past_not_after t now) then
        let t := resume (set_fire_count (js_fire_count row) t) now in
        (t, persist_healed_state t row now)
      else (set_next None (set_state Exhausted t), None)
  | JActive =>
      if past_not_after t now then
        let t := set_next None (set_state Exhausted (set_fire_count (js_fire_count row) t)) in
        (t, persist_healed_state t row now)
      else
        match js_next_fire_at row with
        | None => (t, None)
        | Some stored =>
            let t := set_fire_count (js_fire_count row) t in
            let '(t, outcome) := carry_over_pending_fire t stored now in
            match outcome with
            | Adopted =>
                let '(t, plan) := plan_missed_fires t now in
                match plan with
                | NoneMissed | PlanOnce | TooManyToReplay => (t, None)
                | Replay _ _ | Skipped => (t, persist_healed_state t row now)
                end
            | HealedGateClosed | HealedOutlivedSchedule | DroppedDisabled =>
                (t, persist_healed_state t row now)
            end
        end
  | JPaused | JDisabled => (t, None)
  end.

(** [restore_trigger_states]: the rows in the order the store lists them; a
    row of a job that is not loaded is ignored. The second component is the
    upserts, in order. *)
Fixpoint restore_trigger_states (triggers : gmap string Trigger) (states : list JobState)
    (now : instant) : gmap string Trigger * list JobState :=
  match states with
  | [] => (triggers, [])
  | row :: states =>
      match triggers !! js_job_key row with
      | None => restore_trigger_states triggers states now
      | Some t =>
          let '(t', w) := restore_trigger t row now in
          let '(triggers', ws) :=
            restore_trigger_states (<[js_job_key row := t']> triggers) states now in
          (triggers', option_list w ++ ws)
      end
  end.

(** [carry_over_state] *)
Definition carry_over_state (old new_trigger : Trigger) (now : instant) : Trigger :=
  let new_trigger := set_fired (last_fired_at old) (fire_count old) new_trigger in
  if bool_decide (state old = Exhausted) then
    if is_recurring (schedule new_trigger) then new_trigger
    else set_next None (set_state Exhausted new_trigger)
  else
    match next_fire_at old with
    | Some pending =>
        let '(t, outcome) := carry_over_pending_fire new_trigger pending now in
        match outcome with
        | Adopted => set_replay_until (replay_until old) t
        | HealedOutlivedSchedule | HealedGateClosed | DroppedDisabled => t
        end
    | None => new_trigger
    end.

(** [skip_fire_in_memory] *)
Definition skip_fire_in_memory (t : Trigger) (fire_at now : instant) : Trigger :=
  set_fired (last_fired_at t) (fire_count t) (mark_fired t fire_at now).

(** [skip_fire]: the advanced trigger and the row upserted. *)
Definition skip_fire (t : Trigger) (fire_at now : instant) : Trigger * JobState :=
  let t := skip_fire_in_memory t fire_at now in
  (t, {| js_job_key := job_key t;
         js_next_fire_at := next_fire_at t;
         js_last_fired_at := last_fired_at t;
         js_fire_count := fire_count t;
         js_status := if bool_decide (state t = Exhausted) then JExhausted else JActive;
         js_updated_at := now |}).

End Restores.

(** ** Invariants *)

Section RestoreFacts.
  Context `{CL : ChronoLaws}.

Lemma set_fired_inv l n t : trigger_inv t -> 0 <= n <= U64_MAX -> trigger_inv (set_fired l n t).
Proof. intros (H1 & H2 & H3 & _) Hn. exact (conj H1 (conj H2 (conj H3 Hn))). Qed.

Lemma exhausted_inv t : trigger_inv t -> trigger_inv (set_next None (set_state Exhausted t)).
Proof. intros (_ & _ & _ & Hf). split; [by right; right|]. split; [done|]. by split. Qed.

Lemma restore_trigger_keeps_inv t row now :
  trigger_inv t -> 0 <= js_fire_count row <= U64_MAX ->
  trigger_inv (restore_trigger t row now).1.
Proof.
  intros Ht Hc. unfold restore_trigger.
  pose proof (set_fired_inv (last_fired_at t) _ _ Ht Hc) as Hf.
  destruct (js_status row); try done.
  - case_if; [by apply exhausted_inv|]. destruct (js_next_fire_at row) as [stored|]; [|done].
    cbv zeta. pose proof (carry_over_inv _ stored now Hf) as Hco.
    unfold set_fire_count. destruct (carry_over_pending_fire _ _ _) as [t1 o]. simpl in Hco.
    pose proof (plan_missed_inv _ now Hco) as Hp.
    destruct o; try done. destruct (plan_missed_fires t1 now) as [t2 p]. by destruct p.
  - case_if; [|by apply exhausted_inv]. by apply resume_inv.
Qed.

Lemma restore_states_inv triggers states now :
  map_Forall (fun _ => trigger_inv) triggers ->
  Forall (fun r => 0 <= js_fire_count r <= U64_MAX) states ->
  map_Forall (fun _ => trigger_inv) (restore_trigger_states triggers states now).1.
Proof.
  intros Ht Hs. revert triggers Ht. induction Hs as [|row states Hr Hs IH]; intros triggers Ht; [done|].
  cbn [restore_trigger_states]. destruct (triggers !! js_job_key row) as [t|] eqn:E; [|by apply IH].
  pose proof (restore_trigger_keeps_inv t row now (Ht _ _ E) Hr) as Hi.
  destruct (restore_trigger t row now) as [t' w].
  specialize (IH (<[js_job_key row:=t']> triggers)).
  destruct (restore_trigger_states _ states now) as [triggers' ws]. simpl in *.
  apply IH. by apply map_Forall_insert_2.
Qed.

(** A restart keeps the trigger invariant for every job: whatever rows
    the store returns, each restored trigger is armed with a pending fire its
    gates allow, paused, or exhausted. *)
Theorem restore_preserves_inv triggers states now key t :
  (forall k t, triggers !! k = Some t -> reachable t) ->
  Forall (fun r => 0 <= js_fire_count r <= U64_MAX) states ->
  (restore_trigger_states triggers states now).1 !! key = Some t ->
  (state t = Armed /\ is_Some (next_fire_at t) \/ state t = Paused \/ state t = Exhausted)
  /\ (forall n, next_fire_at t = Some n -> gate_allows t n = true).
Proof.
  intros Hr Hs Hk.
  assert (trigger_inv t) as (?&_&?&_); [|done].
  eapply (restore_states_inv triggers states now); [|done..].
  intros k t' Hk'. apply reachable_inv. by eapply Hr.
Qed.

(** ** Restarts and rebuilds keep the pending fire *)

(** A restart resumes where the scheduler left off: if the persisted
    active row holds a fire this schedule computed earlier and it is not yet
    due, the freshly built trigger adopts exactly that fire with the persisted
    count, keeps its state, and nothing is written back. *)
Theorem restart_resumes_pending_fire t off earlier now row stored :
  trigger_ok t -> zones_fixed t off -> earlier <= now -> now <= stored ->
  compute_next_fire t earlier = Some stored ->
  js_status row = JActive -> js_next_fire_at row = Some stored ->
  past_not_after t now = false ->
  restore_trigger t row now
  = (set_next (Some stored) (set_fire_count (js_fire_count row) t), None).
Proof.
  intros Hok Hz He Hn Hc Hst Hnext Hna. unfold restore_trigger. rewrite Hst, Hna, Hnext. cbv zeta.
  rewrite (own_pending_adopted (set_fire_count (js_fire_count row) t) off earlier now stored);
    [|done|done|done|by rewrite (compute_config _ t)].
  unfold plan_missed_fires. cbn [next_fire_at set_next set_fire_count].
  case_if; [done|]. b2p. lia.
Qed.

(** Rebuilding a live trigger under an unchanged schedule, zone, calendar
    and window (a reload, or an edit of any other field of the job) keeps its
    pending fire, its fire count, its last fire and a replay in progress. *)
Theorem rebuild_keeps_pending_fire old new_trigger off earlier now pending :
  trigger_ok old -> zones_fixed old off -> same_config new_trigger old ->
  state old <> Exhausted -> next_fire_at old = Some pending ->
  earlier <= now -> compute_next_fire old earlier = Some pending ->
  let t := carry_over_state old new_trigger now in
  next_fire_at t = Some pending /\ fire_count t = fire_count old
  /\ last_fired_at t = last_fired_at old /\ replay_until t = replay_until old
  /\ state t = state new_trigger.
Proof.
  intros Hok Hz Hcfg Hne Hn Hle Hc. unfold carry_over_state. cbv zeta.
  rewrite bool_decide_false, Hn by done.
  rewrite (own_pending_adopted _ off earlier now pending); try done.
  - by rewrite (trigger_ok_proper _ old).
  - destruct Hz as [Hz1 Hz2], Hcfg as (_ & Ez & Ec & _). split; simpl; [by rewrite Ez|].
    by rewrite Ec.
  - rewrite (compute_config _ old); [done|]. by etransitivity; [apply set_fired_config|].
Qed.

(** A skipped fire (maintenance, queue overflow, rate limit) moves the
    schedule on exactly as a fire does, leaves the fire count and the last
    fire as they were, and persists the row the trigger now shows. *)
Lemma skip_fire_advances_only t fire_at now :
  let '(t', row) := skip_fire t fire_at now in
  next_fire_at t' = next_fire_at (mark_fired t fire_at now)
  /\ state t' = state (mark_fired t fire_at now)
  /\ replay_until t' = replay_until (mark_fired t fire_at now)
  /\ fire_count t' = fire_count t /\ last_fired_at t' = last_fired_at t
  /\ js_next_fire_at row = next_fire_at t' /\ js_fire_count row = fire_count t
  /\ (js_status row = JExhausted <-> next_fire_at t' = None).
Proof.
  unfold skip_fire, skip_fire_in_memory. cbv zeta.
  cbn [next_fire_at state replay_until fire_count last_fired_at set_fired js_next_fire_at
       js_fire_count js_status]. split_and!; try done.
  destruct (mark_fired_cases t fire_at now) as [(-> & n & -> & _)|[-> ->]]; by split.
Qed.

(** ** A missed [once] fire *)

(** A [once] job whose instant passed while the server was down does not
    run: the trigger built at boot is exhausted, restoring the active row puts
    the instant back without re-arming it, and no later tick fires it. *)
Theorem missed_once_fire_is_dropped key tz nb na m at_ now row later :
  at_ <= now -> js_status row = JActive -> js_next_fire_at row = Some at_ ->
  past_not_after (with_bounds key (Once at_) tz None None nb na now) now = false ->
  let t := (restore_trigger
              (set_missed_fires m (with_bounds key (Once at_) tz None None nb na now)) row now).1 in
  next_fire_at t = Some at_ /\ state t = Exhausted /\ evaluate t later = None.
Proof.
  intros Hle Hst Hn Hna.
  assert (forall t, schedule t = Once at_ -> compute_next_fire t now = None) as Hc.
  { intros t Hs. unfold compute_next_fire. rewrite Hs. unfold next_fire_after. case_if; [|done].
    b2p. lia. }
  unfold restore_trigger, with_bounds in *. cbn [is_disabled] in *. rewrite Hst, Hn.
  rewrite Hc in * by done. cbn [next_fire_at set_next] in *.
  change (past_not_after (set_missed_fires m ?t) now) with (past_not_after t now) in *.
  unfold past_not_after in *. simpl in Hna |- *. rewrite Hna.
  unfold carry_over_pending_fire. cbn [schedule set_fire_count set_fired set_missed_fires set_state
    set_next is_disabled].
  match goal with |- context [compute_next_fire ?t now] => rewrite (Hc t) by done end.
  unfold gate_allows. cbn. unfold plan_missed_fires. cbn. case_if; done.
Qed.
End RestoreFacts.

Import Demo.

Definition demo_row (key : string) (stored : instant) : JobState := {|
  js_job_key := key; js_next_fire_at := Some stored; js_last_fired_at := None;
  js_fire_count := 7; js_status := JActive; js_updated_at := 0
|}.

Definition demo_fresh : Trigger (C := demo_chrono) :=
  set_missed_fires CatchOnce (with_bounds (C := demo_chrono) "ops:hourly" (Interval 3600)
    (utc : @Tz demo_chrono) None None None None (seconds 100)).

Lemma restore_preserves_inv_witness :
  let restored := (restore_trigger_states {["ops:hourly" := demo_fresh]}
    [demo_row "ops:hourly" (seconds 3600)] (seconds 100)).1 in
  (t ← restored !! "ops:hourly"; next_fire_at t) = Some (seconds 3600) /\
  forall t, restored !! "ops:hourly" = Some t ->
    forall n, next_fire_at t = Some n -> gate_allows t n = true.
Proof.
  split; [vm_compute; reflexivity|].
  intros t Ht. apply (restore_preserves_inv (C := demo_chrono) {["ops:hourly" := demo_fresh]}
    [demo_row "ops:hourly" (seconds 3600)] (seconds 100) "ops:hourly" t); [| |exact Ht].
  - intros k u [<- <-]%lookup_singleton_Some. apply reach_init.
  - repeat constructor; vm_compute; congruence.
Defined.

Lemma demo_trigger_later : compute_next_fire demo_trigger (seconds 108000) = Some (seconds 109800).
Proof. vm_compute. reflexivity. Qed.

Lemma restart_resumes_pending_fire_witness :
  restore_trigger demo_trigger (demo_row "billing:sync" (seconds 109800)) (seconds 109000)
  = (set_next (Some (seconds 109800)) (set_fire_count 7 demo_trigger), None).
Proof.
  apply (restart_resumes_pending_fire (CL := demo_laws) demo_trigger 0 (seconds 108000)
    (seconds 109000) (demo_row "billing:sync" (seconds 109800)) (seconds 109800) demo_trigger_ok
    demo_zones_fixed); [vm_compute; congruence|vm_compute; congruence|exact demo_trigger_later|..];
    reflexivity.
Defined.

Lemma rebuild_keeps_pending_fire_witness :
  next_fire_at (carry_over_state demo_trigger (set_missed_fires CatchSkip demo_trigger)
                  (seconds 100000)) = Some (seconds 108000).
Proof.
  apply (rebuild_keeps_pending_fire (CL := demo_laws) demo_trigger
    (set_missed_fires CatchSkip demo_trigger) 0 0 (seconds 100000) (seconds 108000)
    demo_trigger_ok demo_zones_fixed).
  - repeat split.
  - discriminate.
  - reflexivity.
  - vm_compute. congruence.
  - exact demo_compute.
Defined.

Lemma missed_once_fire_is_dropped_witness :
  state (restore_trigger (set_missed_fires CatchOnce
           (with_bounds (C := demo_chrono) "db:migrate" (Once (seconds 50)) (utc : @Tz demo_chrono)
              None None None None (seconds 100)))
         (demo_row "db:migrate" (seconds 50)) (seconds 100)).1 = Exhausted.
Proof.
  apply (missed_once_fire_is_dropped (C := demo_chrono) "db:migrate" (utc : @Tz demo_chrono)
    None None CatchOnce (seconds 50) (seconds 100) (demo_row "db:migrate" (seconds 50)) 0);
    [vm_compute; congruence|reflexivity..].
Defined.
