(* ===== verification/Quota.v ===== *)
(** * The per-job trigger rate limit

    Models [croniq-server/src/quota.rs]: a sliding window of the last minute's
    fires per job key. Readings of the monotonic clock are nanosecond counts
    passed by the caller. *)

From S2P Require Import Prelude Chrono.

Local Open Scope Z_scope.

Record JobQuota := { max_per_minute : Z }.
Definition quota_default : JobQuota := {| max_per_minute := 60 |}.

Record QuotaGuard := MkGuard {
  recent_triggers : gmap string (list Z);
  default_quota : JobQuota;
  quotas : gmap string JobQuota
}.

(** [QuotaGuard::new], [set_quota] *)
Definition guard_new : QuotaGuard := MkGuard ∅ quota_default ∅.
Definition set_quota (g : QuotaGuard) (job_key : string) (quota : JobQuota) : QuotaGuard :=
  MkGuard (recent_triggers g) (default_quota g) (<[job_key := quota]> (quotas g)).

Definition WINDOW : Z := 60 * NS_SEC.

(** [Instant::duration_since] saturates at zero. *)
Definition duration_since (now t : Z) : Z := Z.max 0 (now - t).

Definition quota_of (g : QuotaGuard) (job_key : string) : Z :=
  max_per_minute (default (default_quota g) (quotas g !! job_key)).

(** [QuotaGuard::allow], with the clock reading [now]. *)
Definition allow (g : QuotaGuard) (job_key : string) (now : Z) : QuotaGuard * bool :=
  let quota := quota_of g job_key in
  let triggers := default [] (recent_triggers g !! job_key) in
  let triggers := filter (fun t => duration_since now t < WINDOW) triggers in
  let put l := MkGuard (<[job_key := l]> (recent_triggers g)) (default_quota g) (quotas g) in
  if quota <=? wrap_u32 (Z.of_nat (length triggers)) then (put triggers, false)
  else (put (triggers ++ [now]), true).

(** ** The limit is a sliding window *)

(** A sequence of calls, and which of them were allowed. *)
Fixpoint run_allows (g : QuotaGuard) (calls : list (string * Z)) : QuotaGuard * list (string * Z) :=
  match calls with
  | [] => (g, [])
  | (key, now) :: calls =>
      let '(g, ok) := allow g key now in
      let '(g, out) := run_allows g calls in
      (g, if ok then (key, now) :: out else out)
  end.

(** The fires of [key] among [out] less than a minute before [now]. *)
Definition in_last_minute (key : string) (now : Z) (out : list (string * Z)) : list Z :=
  filter (fun t => duration_since now t < WINDOW) (filter (fun c => c.1 = key) out).*2.

(** What the guard remembers, after the allowed fires [out], the last call
    being at [last]. *)
Definition guard_ok (g : QuotaGuard) (out : list (string * Z)) (last : Z) : Prop :=
  forall key, 0 <= quota_of g key <= U32_MAX /\
    Z.of_nat (length (default [] (recent_triggers g !! key))) <= quota_of g key /\
    forall now, last <= now ->
      filter (fun t => duration_since now t < WINDOW) (default [] (recent_triggers g !! key))
      = in_last_minute key now out.

Lemma in_last_minute_app key now l1 l2 :
  in_last_minute key now (l1 ++ l2) = in_last_minute key now l1 ++ in_last_minute key now l2.
Proof. unfold in_last_minute. by rewrite filter_app, fmap_app, filter_app. Qed.

Lemma filter_window_mono (l : list Z) last now :
  last <= now ->
  filter (fun t => duration_since now t < WINDOW) (filter (fun t => duration_since last t < WINDOW) l)
  = filter (fun t => duration_since now t < WINDOW) l.
Proof.
  intros Hle. rewrite list_filter_filter_l; [done|]. unfold duration_since. intros x Hx. lia.
Qed.

Lemma allow_decides g key now :
  0 <= quota_of g key <= U32_MAX ->
  Z.of_nat (length (default [] (recent_triggers g !! key))) <= quota_of g key ->
  (allow g key now).2
  = (Z.of_nat (length (filter (fun t => duration_since now t < WINDOW)
                         (default [] (recent_triggers g !! key)))) <? quota_of g key).
Proof.
  intros Hq Hlen. unfold allow. set (l := filter _ _).
  assert (length l <= length (default [] (recent_triggers g !! key)))%nat by apply length_filter.
  unwrap. case_if; simpl; b2p; symmetry; [apply Z.ltb_ge|apply Z.ltb_lt]; lia.
Qed.

Lemma in_last_minute_other key key' t now :
  key' <> key -> in_last_minute key now [(key', t)] = [].
Proof. intros Hne. unfold in_last_minute. by rewrite filter_cons_False, filter_nil. Qed.

Lemma in_last_minute_one key t now :
  in_last_minute key now [(key, t)] = filter (fun t => duration_since now t < WINDOW) [t].
Proof. unfold in_last_minute. by rewrite filter_cons_True, filter_nil. Qed.

(** Every call keeps the memory exact. *)
Lemma allow_keeps_ok g out last key now :
  guard_ok g out last -> last <= now ->
  guard_ok (allow g key now).1 (out ++ if (allow g key now).2 then [(key, now)] else []) now.
Proof.
  intros Hg Hle k. destruct (Hg k) as (Hq & Hlen & Hf).
  assert (quota_of (allow g key now).1 k = quota_of g k) as Eq by (unfold allow; by case_if).
  rewrite Eq. split; [done|].
  destruct (decide (k = key)) as [->|Hne].
  - pose proof (allow_decides g key now Hq Hlen) as Ed.
    set (l := filter (fun t => duration_since now t < WINDOW)
                (default [] (recent_triggers g !! key))) in *.
    assert (recent_triggers (allow g key now).1 !! key
            = Some (if (allow g key now).2 then l ++ [now] else l)) as ->
      by (unfold allow; fold l; case_if; simpl; by rewrite lookup_insert_eq).
    assert (length l <= length (default [] (recent_triggers g !! key)))%nat by apply length_filter.
    split.
    + destruct (allow g key now).2; simpl; rewrite ?length_app; simpl; [|lia].
      symmetry in Ed. b2p. lia.
    + intros now' Hle'. rewrite in_last_minute_app.
      assert (filter (fun t => duration_since now' t < WINDOW) l = in_last_minute key now' out) as El.
      { unfold l. rewrite filter_window_mono by done. apply Hf. lia. }
      destruct (allow g key now).2; simpl.
      * rewrite filter_app, El. by rewrite in_last_minute_one.
      * rewrite El. by rewrite app_nil_r.
  - assert (recent_triggers (allow g key now).1 !! k = recent_triggers g !! k) as ->
      by (unfold allow; case_if; simpl; by rewrite lookup_insert_ne).
    split; [done|]. intros now' Hle'. rewrite in_last_minute_app, Hf by lia.
    destruct (allow g key now).2; [rewrite in_last_minute_other by done|]; by rewrite app_nil_r.
Qed.

Lemma run_allows_ok calls g pre last :
  guard_ok g pre last -> Sorted Z.le (last :: calls.*2) ->
  let '(g', out) := run_allows g calls in
  exists last', guard_ok g' (pre ++ out) last' /\ last' ∈ last :: calls.*2
  /\ quotas g' = quotas g /\ default_quota g' = default_quota g.
Proof.
  revert g pre last. induction calls as [|[key now] calls IH]; intros g pre last Hg Hs; cbn [run_allows].
  { rewrite app_nil_r. exists last. by split_and!; [|left|..]. }
  cbn [fmap list_fmap snd] in Hs. apply Sorted_inv in Hs as [Hs Hhd]. apply HdRel_inv in Hhd.
  pose proof (allow_keeps_ok g pre last key now Hg Hhd) as Hk.
  assert (quotas (allow g key now).1 = quotas g
          /\ default_quota (allow g key now).1 = default_quota g) as [Eq Ed]
    by (unfold allow; by case_if).
  destruct (allow g key now) as [g1 ok]. simpl in *. specialize (IH _ _ _ Hk Hs).
  destruct (run_allows g1 calls) as [g2 out].
  destruct IH as (last' & Hg2 & Hin & Eq2 & Ed2). exists last'.
  split_and!; [|by right|congruence..].
  by destruct ok; rewrite <- app_assoc in Hg2.
Qed.

(** The rate limit is an exact sliding window: starting from an empty
    guard, after any calls in clock order, a fire of a job is allowed exactly
    when fewer than its quota were allowed in the last sixty seconds; a refused
    fire does not count, and other jobs' fires never do. *)
Theorem quota_is_sliding_window dq qs calls key now :
  (forall k, 0 <= quota_of (MkGuard ∅ dq qs) k <= U32_MAX) ->
  Sorted Z.le calls.*2 -> Forall (fun c => c.2 <= now) calls ->
  let '(g, out) := run_allows (MkGuard ∅ dq qs) calls in
  (allow g key now).2
  = bool_decide (Z.of_nat (length (in_last_minute key now out)) < quota_of (MkGuard ∅ dq qs) key).
Proof.
  intros Hq Hs Hle.
  set (first := match calls with [] => now | c :: _ => c.2 end).
  assert (guard_ok (MkGuard ∅ dq qs) [] first) as Hg0.
  { intros k. split; [done|]. simpl. specialize (Hq k). rewrite lookup_empty. by split; [simpl; lia|]. }
  assert (Sorted Z.le (first :: calls.*2)) as Hs'.
  { constructor; [done|]. unfold first. destruct calls; constructor; simpl; lia. }
  pose proof (run_allows_ok calls _ [] first Hg0 Hs') as Hr.
  destruct (run_allows _ calls) as [g out]. destruct Hr as (last & Hg & Hin & Eq & Ed).
  assert (last <= now) as Hlast.
  { apply elem_of_cons in Hin as [->|(c & -> & Hc)%list_elem_of_fmap].
    - unfold first. destruct calls; [lia|]. by apply Forall_cons_1 in Hle as [? _].
    - by rewrite Forall_forall in Hle; apply Hle. }
  destruct (Hg key) as (Hqg & Hlen & Hf).
  assert (quota_of g key = quota_of (MkGuard ∅ dq qs) key) as Eqq
    by (unfold quota_of; simpl; by rewrite Eq, Ed).
  rewrite allow_decides, Hf, Eqq by done. simpl.
  case_bool_decide; [by apply Z.ltb_lt|apply Z.ltb_ge; lia].
Qed.

Lemma quota_is_sliding_window_witness :
  let g := MkGuard ∅ {| max_per_minute := 2 |} ∅ in
  let calls := [("a", 0); ("a", NS_SEC); ("a", 2 * NS_SEC); ("b", 3 * NS_SEC)]%string in
  (allow (run_allows g calls).1 "a" (60 * NS_SEC)).2
  = bool_decide (Z.of_nat (length (in_last_minute "a" (60 * NS_SEC) (run_allows g calls).2)) < 2)
  /\ (run_allows g calls).2 = [("a", 0); ("a", NS_SEC); ("b", 3 * NS_SEC)]%string.
Proof.
  split; [|vm_compute; reflexivity].
  pose proof (quota_is_sliding_window {| max_per_minute := 2 |} ∅
    [("a", 0); ("a", NS_SEC); ("a", 2 * NS_SEC); ("b", 3 * NS_SEC)]%string "a" (60 * NS_SEC)) as H.
  rewrite (surjective_pairing (run_allows _ _)) in H. apply H; clear H.
  - intros k. unfold quota_of. cbn [quotas]. rewrite lookup_empty. cbn. unfold U32_MAX. lia.
  - repeat constructor; simpl; unfold NS_SEC; lia.
  - repeat constructor; simpl; unfold NS_SEC; lia.
Defined.
