(* ===== verification/LoginThrottle.v ===== *)
(** * Throttling of the login endpoints

    Models [croniq-server/src/api/login_throttle.rs]: the sliding windows per
    client and per client and user, the failure budget of a second-factor token,
    the guard against replayed one-time codes, the spacing of reset mails, and
    the client address behind trusted proxies. Readings of the monotonic clock
    are nanosecond counts. A method holds its locks from its first access to its
    last, except [refund_login], which takes the two maps one after the other. *)

From S2P Require Import Prelude RustStr Chrono Quota IpAddr.

Local Open Scope Z_scope.

Definition IP_MAX_ATTEMPTS : nat := 30.
Definition IP_TOTAL_MAX_ATTEMPTS : nat := IP_MAX_ATTEMPTS * 10.
Definition USERNAME_KEY_MAX : nat := 128.
Definition RESET_MAIL_COOLDOWN : Z := seconds (5 * 60).
Definition IP_WINDOW : Z := seconds (5 * 60).
Definition MFA_MAX_FAILURES : Z := 5.
Definition MFA_ENTRY_TTL : Z := seconds (10 * 60).
Definition STEP_ENTRY_TTL : Z := seconds (5 * 60).
Definition PRUNE_THRESHOLD : nat := 1024.

Record MfaEntry := MkMfa { mfa_count : Z; mfa_last_seen : Z }.
Record StepEntry := MkStep { se_step : Z; se_last_seen : Z }.

(** [TrustedProxies]: networks with their prefix lengths *)
Definition TrustedProxies := list (IpAddr * Z).

Record LoginThrottle := MkThrottle {
  ip_attempts : gmap (IpAddr * string) (list Z);
  ip_totals : gmap IpAddr (list Z);
  trusted_proxies : TrustedProxies;
  reset_mails : gmap string Z;
  mfa_failures : gmap string MfaEntry;
  consumed_steps : gmap string StepEntry
}.

(** [LoginThrottle::default] *)
Definition throttle_default : LoginThrottle := MkThrottle ∅ ∅ [] ∅ ∅ ∅.

Definition set_attempts pairs totals (th : LoginThrottle) : LoginThrottle :=
  MkThrottle pairs totals (trusted_proxies th) (reset_mails th) (mfa_failures th) (consumed_steps th).
Definition set_reset_mails m (th : LoginThrottle) : LoginThrottle :=
  MkThrottle (ip_attempts th) (ip_totals th) (trusted_proxies th) m (mfa_failures th) (consumed_steps th).
Definition set_mfa m (th : LoginThrottle) : LoginThrottle :=
  MkThrottle (ip_attempts th) (ip_totals th) (trusted_proxies th) (reset_mails th) m (consumed_steps th).
Definition set_steps m (th : LoginThrottle) : LoginThrottle :=
  MkThrottle (ip_attempts th) (ip_totals th) (trusted_proxies th) (reset_mails th) (mfa_failures th) m.

(** [now.duration_since(t) < ttl] *)
Definition fresh (ttl now t : Z) : bool := duration_since now t <? ttl.

(** [map.retain(..)] once the map is large *)
Definition sweep_map {K V} `{Countable K} (keep : V -> bool) (m : gmap K V) : gmap K V :=
  if (PRUNE_THRESHOLD <? size m)%nat then filter (fun kv => keep kv.2 = true) m else m.

(** [prune] *)
Definition prune {K} `{Countable K} (m : gmap K (list Z)) (now : Z) : gmap K (list Z) :=
  sweep_map (fun attempts => match last attempts with
                             | Some l => fresh IP_WINDOW now l
                             | None => false
                             end) m.

(** [attempts.retain(..)] *)
Definition retain_window (now : Z) (l : list Z) : list Z := List.filter (fresh IP_WINDOW now) l.

(** [Vec::pop] *)
Definition pop {A} (l : list A) : list A := take (length l - 1) l.

(** [s.chars().take(n)] on the UTF-8 bytes *)
Fixpoint take_chars (n : nat) (s : string) : string :=
  match s with
  | "" => ""
  | String b s' =>
      if byte_in b 128 191 then String b (take_chars n s')
      else match n with O => "" | S n => String b (take_chars n s') end
  end.

Section Throttle.
  (** [str::to_lowercase], the Unicode case mapping *)
  Context (to_lowercase : string -> string).

Definition username_key (username : string) : string :=
  to_lowercase (take_chars USERNAME_KEY_MAX (trim username)).

Definition allow_login_at (th : LoginThrottle) (ip : option IpAddr) (username : string) (now : Z)
    : LoginThrottle * bool :=
  match ip with
  | None => (th, true)
  | Some ip =>
      let key := (ip, username_key username) in
      let pairs := prune (ip_attempts th) now in
      let totals := prune (ip_totals th) now in
      let pair := retain_window now (default [] (pairs !! key)) in
      let total := retain_window now (default [] (totals !! ip)) in
      if (IP_MAX_ATTEMPTS <=? length pair)%nat || (IP_TOTAL_MAX_ATTEMPTS <=? length total)%nat
      then (set_attempts (<[key := pair]> pairs) (<[ip := total]> totals) th, false)
      else (set_attempts (<[key := pair ++ [now]]> pairs) (<[ip := total ++ [now]]> totals) th, true)
  end.

(** [allow_ip] names no user. *)
Definition allow_ip (th : LoginThrottle) (ip : option IpAddr) (now : Z) : LoginThrottle * bool :=
  allow_login_at th ip "" now.

(** The two critical sections of [refund_login]. *)
Definition refund_pair (th : LoginThrottle) (ip : option IpAddr) (username : string) : LoginThrottle :=
  match ip with
  | None => th
  | Some ip => set_attempts (alter pop (ip, username_key username) (ip_attempts th)) (ip_totals th) th
  end.
Definition refund_total (th : LoginThrottle) (ip : option IpAddr) : LoginThrottle :=
  match ip with
  | None => th
  | Some ip => set_attempts (ip_attempts th) (alter pop ip (ip_totals th)) th
  end.
Definition refund_login (th : LoginThrottle) (ip : option IpAddr) (username : string) : LoginThrottle :=
  refund_total (refund_pair th ip username) ip.

Definition allow_reset_mail_at (th : LoginThrottle) (user_id : string) (now : Z) : LoginThrottle * bool :=
  let m := sweep_map (fresh RESET_MAIL_COOLDOWN now) (reset_mails th) in
  let sent := (set_reset_mails (<[user_id := now]> m) th, true) in
  match m !! user_id with
  | Some l => if fresh RESET_MAIL_COOLDOWN now l then (set_reset_mails m th, false) else sent
  | None => sent
  end.

Definition mfa_blocked_at (th : LoginThrottle) (token_hash : string) (now : Z) : bool :=
  match mfa_failures th !! token_hash with
  | Some e => (MFA_MAX_FAILURES <=? mfa_count e) && fresh MFA_ENTRY_TTL now (mfa_last_seen e)
  | None => false
  end.

Definition record_mfa_failure_at (th : LoginThrottle) (token_hash : string) (now : Z) : LoginThrottle * Z :=
  let m := sweep_map (fun e => fresh MFA_ENTRY_TTL now (mfa_last_seen e)) (mfa_failures th) in
  let entry := default (MkMfa 0 now) (m !! token_hash) in
  let failures := Z.min U32_MAX (mfa_count entry + 1) in
  (set_mfa (<[token_hash := MkMfa failures now]> m) th, failures).

Definition clear_mfa (th : LoginThrottle) (token_hash : string) : LoginThrottle :=
  set_mfa (delete token_hash (mfa_failures th)) th.

Definition consume_totp_step_at (th : LoginThrottle) (user_id : string) (step now : Z) : LoginThrottle * bool :=
  let m := sweep_map (fun e => fresh STEP_ENTRY_TTL now (se_last_seen e)) (consumed_steps th) in
  match m !! user_id with
  | Some e =>
      let ok := (se_step e <? step) || (STEP_ENTRY_TTL <=? duration_since now (se_last_seen e)) in
      (set_steps (if ok then <[user_id := MkStep step now]> m else m) th, ok)
  | None => (set_steps (<[user_id := MkStep step now]> m) th, true)
  end.
End Throttle.

(** ** Trusted proxies *)

(** [u32::MAX.checked_shl(32 - len).unwrap_or(0)], and the same for [u128] *)
Definition prefix_mask (w len : Z) : Z :=
  if w - len <? w then Z.shiftl (2 ^ w - 1) (w - len) mod 2 ^ w else 0.

Definition in_network (ip : IpAddr) (net : IpAddr * Z) : bool :=
  match net.1, ip with
  | V4 n, V4 i => let mask := prefix_mask 32 net.2 in Z.land n mask =? Z.land i mask
  | V6 n, V6 i => let mask := prefix_mask 128 net.2 in Z.land n mask =? Z.land i mask
  | _, _ => false
  end.

(** [TrustedProxies::contains] *)
Definition proxies_contain (nets : TrustedProxies) (ip : IpAddr) : bool :=
  existsb (in_network (to_canonical ip)) nets.

Definition PROXIES_ENV : string := "CRONIQ_TRUSTED_PROXIES".

(** One entry of [TrustedProxies::parse]. *)
Definition parse_network (entry : string) : result (IpAddr * Z) string :=
  let '(addr, len) := match split_once "/" entry with
                      | Some (a, l) => (a, Some l)
                      | None => (entry, None)
                      end in
  res_bind (ok_or (parse_ip_addr addr)
              (PROXIES_ENV +:+ ": '" +:+ entry +:+ "' is not an IP address or CIDR range")) (fun addr =>
  let addr := to_canonical addr in
  let max := if is_ipv4 addr then 32 else 128 in
  res_bind
    match len with
    | None => Ok max
    | Some l =>
        ok_or (n ← parse_u8 l; if n <=? max then Some n else None)
          (PROXIES_ENV +:+ ": '" +:+ entry +:+ "' has an invalid prefix length")
    end (fun len => Ok (addr, len))).

(** The non-empty, trimmed pieces between commas. *)
Definition comma_list (s : string) : list string :=
  List.filter (fun e => negb (str_is_empty e)) (map trim (split_char "," s)).

(** [TrustedProxies::parse] *)
Definition parse_proxies (spec : string) : result TrustedProxies string := res_collect parse_network (comma_list spec).

(** [TrustedProxies::from_env]: the variable is unset, not Unicode, or a text *)
Definition proxies_from_env (var : option (option string)) : result TrustedProxies string :=
  match var with
  | Some (Some v) => parse_proxies v
  | None => Ok []
  | Some None => Err (PROXIES_ENV +:+ " is not valid Unicode")
  end.

Definition parse_hop (hop : string) : option IpAddr :=
  to_canonical <$> match parse_ip_addr hop with
                   | Some ip => Some ip
                   | None => parse_socket_addr_ip hop
                   end.

(** The loop of [client_ip], over the hops from the nearest on. *)
Fixpoint walk_hops (nets : TrustedProxies) (client : IpAddr) (hops : list string) : IpAddr :=
  match hops with
  | [] => client
  | hop :: hops =>
      match parse_hop hop with
      | None => client
      | Some ip => if proxies_contain nets ip then walk_hops nets ip hops else ip
      end
  end.

(** [TrustedProxies::client_ip] *)
Definition client_ip (nets : TrustedProxies) (peer : IpAddr) (forwarded_for : list string) : IpAddr :=
  if negb (proxies_contain nets peer) then peer
  else walk_hops nets peer (rev (concat (map comma_list forwarded_for))).

(** [ClientIp::from_request_parts]: the peer, and the header values, [None] for
    one that is not text *)
Definition request_client (th : LoginThrottle) (peer : option IpAddr) (xff : list (option string))
    : option IpAddr :=
  (fun p => client_ip (trusted_proxies th) p (omap id xff)) <$> peer.
