(* ===== verification/LoginFacts.v ===== *)
(** * Theorems on the throttling of logins

    That pruning and expiry are invisible: the throttle answers as a log that
    forgets nothing; what that bounds; the budget of second-factor tokens, spent
    one-time codes and reset mails; which address a forwarded request counts
    for. *)

From S2P Require Import Prelude RustStr Chrono Quota IpAddr LoginThrottle.

Local Open Scope Z_scope.

(** ** Windows *)

Lemma fresh_later ttl now now' t : now <= now' -> fresh ttl now' t = true -> fresh ttl now t = true.
Proof. unfold fresh, duration_since. rewrite !Z.ltb_lt. lia. Qed.

Lemma retain_retain now now' l : now <= now' -> retain_window now' (retain_window now l) = retain_window now' l.
Proof.
  intros Hle. unfold retain_window. induction l as [|t l IH]; [done|]. cbn [List.filter].
  destruct (fresh IP_WINDOW now t) eqn:E; cbn [List.filter]; [by rewrite IH|].
  rewrite IH. destruct (fresh IP_WINDOW now' t) eqn:E'; [|done].
  apply (fresh_later _ now) in E'; [congruence|done].
Qed.

Lemma retain_app now l l' : retain_window now (l ++ l') = retain_window now l ++ retain_window now l'.
Proof. apply List.filter_app. Qed.

Lemma pop_snoc {A} (l : list A) x : pop (l ++ [x]) = l.
Proof.
  unfold pop. rewrite length_app. replace (length l + length [x] - 1)%nat with (length l) by (cbn; lia).
  apply take_app_length.
Qed.

(** The entries of one key: in clock order, none after [t]. *)
Definition ordered (t : Z) (l : list Z) : Prop := StronglySorted Z.le l /\ Forall (fun x => x <= t) l.

Lemma ordered_snoc_inv t l x : ordered t (l ++ [x]) -> ordered t l /\ Forall (fun y => y <= x) l /\ x <= t.
Proof.
  intros [Hs Hf]. apply Forall_app in Hf as [Hf Hx]. apply Forall_cons_1 in Hx as [Hx _].
  apply StronglySorted_app in Hs as (Hlx & Hl & _). split_and!; [done| |done].
  apply Forall_forall. intros y Hy. by apply Hlx; [|left].
Qed.

Lemma ordered_later t t' l : t <= t' -> ordered t l -> ordered t' l.
Proof. intros Hle [Hs Hf]. split; [done|]. eapply Forall_impl; [done|]. cbn. lia. Qed.

Lemma ordered_pop t l : ordered t l -> ordered t (pop l).
Proof.
  destruct l as [|x l _] using rev_ind; [done|]. rewrite pop_snoc. by intros [? _]%ordered_snoc_inv.
Qed.

Lemma ordered_snoc t l : ordered t l -> ordered t (l ++ [t]).
Proof.
  intros [Hs Hf]. split.
  - apply StronglySorted_app. split_and!; [|done|by repeat constructor].
    intros x y Hx Hy. apply list_elem_of_singleton in Hy as ->. rewrite Forall_forall in Hf. by apply Hf.
  - apply Forall_app. split; [done|]. repeat constructor. lia.
Qed.

Lemma ordered_retain t now l : ordered t l -> ordered t (retain_window now l).
Proof.
  intros [Hs Hf]. unfold retain_window. split.
  - clear Hf. induction Hs as [|x l Hs IH Hx]; [constructor|]. cbn [List.filter].
    destruct (fresh IP_WINDOW now x); [|done]. constructor; [done|].
    rewrite Forall_forall in *. intros y Hy. apply Hx. by apply list_elem_of_In, filter_In, proj1, list_elem_of_In in Hy.
  - rewrite Forall_forall in *. intros y Hy. apply Hf. by apply list_elem_of_In, filter_In, proj1, list_elem_of_In in Hy.
Qed.

Lemma stale_window now l : Forall (fun x => fresh IP_WINDOW now x = false) l -> retain_window now l = [].
Proof. induction 1 as [|x l Hx Hl IH]; [done|]. unfold retain_window in *. cbn. by rewrite Hx. Qed.

Lemma stale_before now x y : y <= x -> fresh IP_WINDOW now x = false -> fresh IP_WINDOW now y = false.
Proof. unfold fresh, duration_since. rewrite !Z.ltb_ge. unfold IP_WINDOW, seconds, NS_SEC. lia. Qed.

(** Popping commutes with the window: what is dropped is the newest entry. *)
Lemma retain_pop t now l : ordered t l -> retain_window now (pop l) = pop (retain_window now l).
Proof.
  destruct l as [|x l _] using rev_ind; [done|]. intros (Ho & Hle & Hx)%ordered_snoc_inv.
  rewrite pop_snoc, retain_app. cbn. destruct (fresh IP_WINDOW now x) eqn:E; [by rewrite pop_snoc|].
  rewrite app_nil_r, stale_window; [done|]. eapply Forall_impl; [done|]. cbn. intros y Hy. by apply (stale_before _ x).
Qed.

(** ** The attempts as a log *)

Definition entries {K} `{Countable K} (m : gmap K (list Z)) (k : K) : list Z := default [] (m !! k).

(** Two lists of entries that count the same from [t] on. *)
Definition agrees (t : Z) (l l' : list Z) : Prop :=
  ordered t l /\ ordered t l' /\ forall now, t <= now -> retain_window now l = retain_window now l'.
Definition same_windows {K} `{Countable K} (t : Z) (m m' : gmap K (list Z)) : Prop :=
  forall k, agrees t (entries m k) (entries m' k).

Lemma agrees_later t t' l l' : t <= t' -> agrees t l l' -> agrees t' l l'.
Proof.
  intros Hle (Ho & Ho' & Hw). split_and!; [by eapply ordered_later..|]. intros now Hn. apply Hw. lia.
Qed.

Lemma agrees_retain t l l' : agrees t l l' -> agrees t (retain_window t l) l'.
Proof.
  intros (Ho & Ho' & Hw). split_and!; [by apply ordered_retain|done|].
  intros now Hn. by rewrite retain_retain, Hw.
Qed.

Lemma agrees_snoc t l l' : agrees t l l' -> agrees t (l ++ [t]) (l' ++ [t]).
Proof.
  intros (Ho & Ho' & Hw). split_and!; [by apply ordered_snoc..|].
  intros now Hn. by rewrite !retain_app, Hw.
Qed.

Lemma agrees_pop t l l' : agrees t l l' -> agrees t (pop l) (pop l').
Proof.
  intros (Ho & Ho' & Hw). split_and!; [by apply ordered_pop..|].
  intros now Hn. by rewrite !(retain_pop t), Hw.
Qed.

(** What [prune] drops no window counts. *)
Lemma agrees_stale t l l' :
  agrees t l l' -> match last l with Some x => fresh IP_WINDOW t x | None => false end = false ->
  agrees t [] l'.
Proof.
  intros (Ho & Ho' & Hw) Hl. split_and!; [split; constructor|done|]. intros now Hn. rewrite <- Hw by done.
  symmetry. destruct l as [|x l _] using rev_ind; [done|]. rewrite last_snoc in Hl.
  destruct (ordered_snoc_inv _ _ _ Ho) as (_ & Hle & _).
  assert (fresh IP_WINDOW now x = false) as Hx.
  { destruct (fresh IP_WINDOW now x) eqn:E; [|done]. by apply (fresh_later _ t) in E; [congruence|]. }
  apply stale_window, Forall_app. split; [|by repeat constructor].
  eapply Forall_impl; [done|]. cbn. intros y Hy. by apply (stale_before _ x).
Qed.

Lemma entries_insert {K} `{Countable K} (m : gmap K (list Z)) k l k' :
  entries (<[k := l]> m) k' = if decide (k = k') then l else entries m k'.
Proof. unfold entries. rewrite lookup_insert. by case_decide. Qed.

Lemma entries_alter {K} `{Countable K} (m : gmap K (list Z)) k k' :
  entries (alter pop k m) k' = if decide (k = k') then pop (entries m k') else entries m k'.
Proof. unfold entries. rewrite lookup_alter. case_decide; [subst|done]. by destruct (m !! k'). Qed.

Lemma same_windows_prune {K} `{Countable K} t (m m' : gmap K (list Z)) :
  same_windows t m m' -> same_windows t (prune m t) m'.
Proof.
  intros Hs k. specialize (Hs k). unfold prune, sweep_map. case_match; [|done].
  unfold entries in *. rewrite map_lookup_filter. destruct (m !! k) as [l|] eqn:E; [|done]. cbn in *.
  case_guard as Hg; [done|]. cbn. apply (agrees_stale t l); [done|]. by apply not_true_is_false.
Qed.

Lemma same_windows_insert {K} `{Countable K} t (m m' : gmap K (list Z)) k l l' :
  same_windows t m m' -> agrees t l l' -> same_windows t (<[k := l]> m) (<[k := l']> m').
Proof. intros Hs Hl k'. rewrite !entries_insert. case_decide; [done|]. apply Hs. Qed.

Lemma same_windows_keep {K} `{Countable K} t (m m' : gmap K (list Z)) k l :
  same_windows t m m' -> agrees t l (entries m' k) -> same_windows t (<[k := l]> m) m'.
Proof. intros Hs Hl k'. rewrite !entries_insert. case_decide; [by subst|]. apply Hs. Qed.

Lemma same_windows_pop {K} `{Countable K} t (m m' : gmap K (list Z)) k :
  same_windows t m m' -> same_windows t (alter pop k m) (alter pop k m').
Proof. intros Hs k'. rewrite !entries_alter. case_decide; [by apply agrees_pop|]; apply Hs. Qed.

Lemma same_windows_later {K} `{Countable K} t t' (m m' : gmap K (list Z)) :
  t <= t' -> same_windows t m m' -> same_windows t' m m'.
Proof. intros Hle Hs k. by eapply agrees_later. Qed.

Section Login.
  Context (to_lowercase : string -> string).

(** The critical sections of the methods that change the throttle. *)
Inductive Op :=
| Attempt (ip : option IpAddr) (username : string) (now : Z)
| RefundPair (ip : option IpAddr) (username : string)
| RefundTotal (ip : option IpAddr)
| ResetMail (user_id : string) (now : Z)
| MfaFailure (token_hash : string) (now : Z)
| ClearMfa (token_hash : string)
| ConsumeStep (user_id : string) (step now : Z).

(** The new state, and the answer of an operation that has one. *)
Definition perform (th : LoginThrottle) (op : Op) : LoginThrottle * bool :=
  match op with
  | Attempt ip username now => allow_login_at to_lowercase th ip username now
  | RefundPair ip username => (refund_pair to_lowercase th ip username, true)
  | RefundTotal ip => (refund_total th ip, true)
  | ResetMail user_id now => allow_reset_mail_at th user_id now
  | MfaFailure token now => ((record_mfa_failure_at th token now).1, true)
  | ClearMfa token => (clear_mfa th token, true)
  | ConsumeStep user_id step now => consume_totp_step_at th user_id step now
  end.

Definition op_time (op : Op) : option Z :=
  match op with
  | Attempt _ _ now | ResetMail _ now | MfaFailure _ now | ConsumeStep _ _ now => Some now
  | _ => None
  end.

Definition performs (th : LoginThrottle) (ops : list Op) : LoginThrottle :=
  foldl (fun th op => (perform th op).1) th ops.

(** The attempts with their answers. *)
Fixpoint answers (th : LoginThrottle) (ops : list Op) : list (IpAddr * string * bool) :=
  match ops with
  | [] => []
  | op :: ops =>
      let rest := answers (perform th op).1 ops in
      match op with
      | Attempt (Some ip) username _ => (ip, username_key to_lowercase username, (perform th op).2) :: rest
      | _ => rest
      end
  end.

(** The reference: every attempt that was let through and not handed back, kept
    for ever. *)
Record AttemptLog := MkLog { log_pairs : gmap (IpAddr * string) (list Z); log_totals : gmap IpAddr (list Z) }.

Definition log_allows (lg : AttemptLog) (ip : IpAddr) (user : string) (now : Z) : bool :=
  (length (retain_window now (entries (log_pairs lg) (ip, user))) <? IP_MAX_ATTEMPTS)%nat
  && (length (retain_window now (entries (log_totals lg) ip)) <? IP_TOTAL_MAX_ATTEMPTS)%nat.

Definition log_step (lg : AttemptLog) (op : Op) : AttemptLog :=
  match op with
  | Attempt (Some ip) username now =>
      let user := username_key to_lowercase username in
      if log_allows lg ip user now
      then MkLog (<[(ip, user) := entries (log_pairs lg) (ip, user) ++ [now]]> (log_pairs lg))
                 (<[ip := entries (log_totals lg) ip ++ [now]]> (log_totals lg))
      else lg
  | RefundPair (Some ip) username =>
      MkLog (alter pop (ip, username_key to_lowercase username) (log_pairs lg)) (log_totals lg)
  | RefundTotal (Some ip) => MkLog (log_pairs lg) (alter pop ip (log_totals lg))
  | _ => lg
  end.

Fixpoint log_answers (lg : AttemptLog) (ops : list Op) : list (IpAddr * string * bool) :=
  match ops with
  | [] => []
  | op :: ops =>
      let rest := log_answers (log_step lg op) ops in
      match op with
      | Attempt (Some ip) username now =>
          let user := username_key to_lowercase username in (ip, user, log_allows lg ip user now) :: rest
      | _ => rest
      end
  end.

(** The simulation: the throttle remembers what the log's windows still hold. *)
Definition remembers (t : Z) (th : LoginThrottle) (lg : AttemptLog) : Prop :=
  same_windows t (ip_attempts th) (log_pairs lg) /\ same_windows t (ip_totals th) (log_totals lg).

(** Clock readings in order, from [t] on. *)
Fixpoint clock_ordered (t : Z) (ops : list Op) : Prop :=
  match ops with
  | [] => True
  | op :: ops =>
      match op_time op with
      | Some now => t <= now /\ clock_ordered now ops
      | None => clock_ordered t ops
      end
  end.

Lemma remembers_attempt t th lg ip username now :
  remembers t th lg -> t <= now ->
  let op := Attempt (Some ip) username now in
  (perform th op).2 = log_allows lg ip (username_key to_lowercase username) now
  /\ remembers now (perform th op).1 (log_step lg op).
Proof.
  intros [Hp Ht] Hle. cbn -[allow_login_at log_allows]. unfold allow_login_at. set (user := username_key to_lowercase username).
  apply (same_windows_later _ now) in Hp, Ht; [|done..].
  apply same_windows_prune in Hp, Ht. set (pairs := prune _ _) in *. set (totals := prune (ip_totals th) now) in *.
  pose proof (agrees_retain _ _ _ (Hp (ip, user))) as Hpk. pose proof (agrees_retain _ _ _ (Ht ip)) as Htk.
  change (default [] (pairs !! (ip, user))) with (entries pairs (ip, user)).
  change (default [] (totals !! ip)) with (entries totals ip).
  set (pair := retain_window now (entries pairs (ip, user))) in *.
  set (total := retain_window now (entries totals ip)) in *.
  assert (log_allows lg ip user now
          = negb ((IP_MAX_ATTEMPTS <=? length pair)%nat || (IP_TOTAL_MAX_ATTEMPTS <=? length total)%nat)) as El.
  { unfold log_allows, pair, total. destruct (Hp (ip, user)) as (_ & _ & ->); [|done].
    destruct (Ht ip) as (_ & _ & ->); [|done]. by rewrite negb_orb, !Nat.ltb_antisym. }
  rewrite El. destruct (_ || _); cbn; (split; [done|split]); cbn;
    first [by apply same_windows_keep | by apply same_windows_insert; [|apply agrees_snoc]].
Qed.

Lemma remembers_step t th lg op :
  remembers t th lg -> match op_time op with Some now => t <= now | None => True end ->
  remembers (default t (op_time op)) (perform th op).1 (log_step lg op).
Proof.
  intros Hr Hle. destruct op as [[ip|] username now|[ip|] username|[ip|]|user now|token now|token|user step now];
    cbn [op_time default] in *.
  - by apply (remembers_attempt t).
  - split; (eapply same_windows_later; [done|apply Hr]).
  - destruct Hr as [Hp Ht]. by split; [apply same_windows_pop|].
  - done.
  - destruct Hr as [Hp Ht]. by split; [|apply same_windows_pop].
  - done.
  - cbn. unfold allow_reset_mail_at. repeat case_match; (split; (eapply same_windows_later; [done|apply Hr])).
  - split; (eapply same_windows_later; [done|apply Hr]).
  - done.
  - cbn. unfold consume_totp_step_at. repeat case_match; (split; (eapply same_windows_later; [done|apply Hr])).
Qed.

Lemma answers_log t th lg ops :
  remembers t th lg -> clock_ordered t ops -> answers th ops = log_answers lg ops.
Proof.
  revert t th lg. induction ops as [|op ops IH]; intros t th lg Hr Hc; [done|].
  assert (match op_time op with Some now => t <= now | None => True end
          /\ clock_ordered (default t (op_time op)) ops) as [Hle Hc'].
  { cbn [clock_ordered] in Hc. by destruct (op_time op). }
  pose proof (IH _ _ _ (remembers_step t th lg op Hr Hle) Hc') as E.
  cbn [answers log_answers]. rewrite E. destruct op as [[ip|] username now| | | | | |]; try done.
  f_equal. f_equal. by apply (remembers_attempt t).
Qed.

Lemma remembers_empty t nets : remembers t (MkThrottle ∅ ∅ nets ∅ ∅ ∅) (MkLog ∅ ∅).
Proof.
  split; intros k; unfold entries; cbn; rewrite lookup_empty; (split_and!; [split; constructor..|done]).
Qed.

Lemma remembers_run t th lg ops :
  remembers t th lg -> clock_ordered t ops ->
  exists t', remembers t' (performs th ops) (foldl log_step lg ops).
Proof.
  revert t th lg. induction ops as [|op ops IH]; intros t th lg Hr Hc; [by exists t|].
  cbn [clock_ordered performs foldl] in *. destruct (op_time op) as [now|] eqn:E.
  - destruct Hc as [Hle Hc]. pose proof (remembers_step t th lg op Hr) as H. rewrite E in H. by apply (IH now); [apply H|].
  - pose proof (remembers_step t th lg op Hr) as H. rewrite E in H. by apply (IH t); [apply H|].
Qed.

Lemma clock_ordered_app t ops ops' :
  clock_ordered t (ops ++ ops') -> clock_ordered t ops.
Proof.
  revert t. induction ops as [|op ops IH]; intros t; [done|]. cbn. destruct (op_time op); naive_solver.
Qed.

Lemma answers_app th ops ops' : answers th (ops ++ ops') = answers th ops ++ answers (performs th ops) ops'.
Proof.
  revert th. induction ops as [|op ops IH]; intros th; [done|]. cbn [app answers performs foldl].
  rewrite IH. destruct op as [[]| | | | | |]; done.
Qed.
Lemma log_answers_app lg ops ops' :
  log_answers lg (ops ++ ops') = log_answers lg ops ++ log_answers (foldl log_step lg ops) ops'.
Proof.
  revert lg. induction ops as [|op ops IH]; intros lg; [done|]. cbn [app log_answers foldl].
  rewrite IH. destruct op as [[]| | | | | |]; done.
Qed.

(** C32. Pruning is invisible: whatever is swept from the maps when they grow
    large, dropped from a window or removed with a refund, and however the
    operations interleave, in clock order the throttle answers every login
    attempt as the log that forgets nothing does: it is let through exactly when
    fewer than thirty attempts for this address and user, and fewer than three
    hundred for this address, were let through in the last five minutes and not
    handed back. *)
Theorem throttle_refines_attempt_log t nets ops :
  clock_ordered t ops ->
  answers (MkThrottle ∅ ∅ nets ∅ ∅ ∅) ops = log_answers (MkLog ∅ ∅) ops.
Proof. intros Hc. by apply (answers_log t); [apply remembers_empty|]. Qed.

(** *** How many attempts get through *)

Definition counted (T : Z) {K} `{Countable K} (m : gmap K (list Z)) (k : K) : nat :=
  length (retain_window T (entries m k)).

Lemma retain_shorter now T l : now <= T -> (length (retain_window T l) <= length (retain_window now l))%nat.
Proof.
  intros Hle. rewrite <- (retain_retain now T) by done. apply List.filter_length_le.
Qed.

Lemma length_pop {A} (l : list A) : length (pop l) = (length l - 1)%nat.
Proof. unfold pop. rewrite length_take. lia. Qed.

Lemma retain_pop_length now l :
  (length (retain_window now (pop l)) <= length (retain_window now l)
   <= S (length (retain_window now (pop l))))%nat.
Proof.
  destruct l as [|x l _] using rev_ind; [cbn; lia|]. rewrite pop_snoc, retain_app, length_app.
  cbn. destruct (fresh IP_WINDOW now x); cbn; lia.
Qed.

Definition before (T : Z) (op : Op) : Prop := default T (op_time op) <= T.

(** No window of the log ever holds more than its budget. *)
Definition log_within (T : Z) (lg : AttemptLog) : Prop :=
  (forall k, counted T (log_pairs lg) k <= IP_MAX_ATTEMPTS)%nat
  /\ (forall k, counted T (log_totals lg) k <= IP_TOTAL_MAX_ATTEMPTS)%nat.

Lemma counted_snoc T {K} `{Countable K} (m : gmap K (list Z)) k k' now :
  counted T (<[k := entries m k ++ [now]]> m) k'
  = (counted T m k' + if decide (k = k') then length (retain_window T [now]) else 0)%nat.
Proof.
  unfold counted. rewrite entries_insert. case_decide; [subst|lia]. by rewrite retain_app, length_app.
Qed.

Lemma counted_pop T {K} `{Countable K} (m : gmap K (list Z)) k k' :
  (counted T (alter pop k m) k' <= counted T m k'
   <= counted T (alter pop k m) k' + if decide (k = k') then 1 else 0)%nat.
Proof.
  unfold counted. rewrite entries_alter. case_decide; [|lia]. pose proof (retain_pop_length T (entries m k')). lia.
Qed.

Lemma log_within_step T lg op : before T op -> log_within T lg -> log_within T (log_step lg op).
Proof.
  unfold before. intros Hb [Hp Ht].
  destruct op as [[ip|] username now|[ip|] username|[ip|]|user now|token now|token|user step now]; try done; cbn -[log_allows].
  - cbn in Hb. destruct (log_allows _ _ _ _) eqn:E; [|done]. unfold log_allows in E.
    rewrite andb_true_iff, !Nat.ltb_lt in E. destruct E as [Ep Et].
    pose proof (List.filter_length_le (fresh IP_WINDOW T) [now]) as Hn. cbn [length] in Hn.
    split; intros k; cbn [log_pairs log_totals]; rewrite counted_snoc; unfold retain_window in *.
    + case_decide; [subst k|specialize (Hp k); lia].
      pose proof (retain_shorter now T (entries (log_pairs lg) (ip, username_key to_lowercase username)) Hb).
      unfold counted, retain_window in *. lia.
    + case_decide; [subst k|specialize (Ht k); lia].
      pose proof (retain_shorter now T (entries (log_totals lg) ip) Hb). unfold counted, retain_window in *. lia.
  - split; [|done]. intros k. cbn [log_pairs]. pose proof (counted_pop T (log_pairs lg) (ip, username_key to_lowercase username) k).
    specialize (Hp k). lia.
  - split; [done|]. intros k. cbn [log_totals]. pose proof (counted_pop T (log_totals lg) ip k). specialize (Ht k). lia.
Qed.

Lemma log_within_run T lg ops : Forall (before T) ops -> log_within T lg -> log_within T (foldl log_step lg ops).
Proof.
  intros Hb. revert lg. induction Hb as [|op ops Hop Hb IH]; intros lg Hl; [done|].
  cbn. by apply IH, log_within_step.
Qed.

(** The attempts for this address and user, or this address, that were let
    through, and those handed back. *)
Definition passed (P : IpAddr * string -> bool) (out : list (IpAddr * string * bool)) : nat :=
  length (List.filter (fun a => P a.1 && a.2) out).
Definition pair_refunds (ip : IpAddr) (user : string) (ops : list Op) : nat :=
  length (List.filter (fun op => match op with
                                 | RefundPair (Some i) u =>
                                     bool_decide ((i, username_key to_lowercase u) = (ip, user))
                                 | _ => false
                                 end) ops).
Definition total_refunds (ip : IpAddr) (ops : list Op) : nat :=
  length (List.filter (fun op => match op with RefundTotal (Some i) => bool_decide (i = ip) | _ => false end) ops).

(** An attempt of the last five minutes. *)
Definition recent (T : Z) (op : Op) : Prop :=
  match op with Attempt _ _ now => T - IP_WINDOW < now | _ => True end.

Lemma retain_recent T now : now <= T -> T - IP_WINDOW < now -> retain_window T [now] = [now].
Proof.
  intros Hle Hr. unfold retain_window. cbn. unfold fresh, duration_since.
  by rewrite (proj2 (Z.ltb_lt _ _)) by lia.
Qed.

Lemma log_passed T ip user lg ops :
  Forall (before T) ops -> Forall (recent T) ops ->
  (passed (fun k => bool_decide (k = (ip, user))) (log_answers lg ops) + counted T (log_pairs lg) (ip, user)
   <= counted T (log_pairs (foldl log_step lg ops)) (ip, user) + pair_refunds ip user ops)%nat
  /\ (passed (fun k => bool_decide (k.1 = ip)) (log_answers lg ops) + counted T (log_totals lg) ip
      <= counted T (log_totals (foldl log_step lg ops)) ip + total_refunds ip ops)%nat.
Proof.
  intros Hb. revert lg. induction Hb as [|op ops Hop Hb IH]; intros lg Hr; [cbn; lia|].
  apply Forall_cons_1 in Hr as [Hrop Hr]. cbn [foldl].
  specialize (IH (log_step lg op) Hr).
  destruct op as [[i|] username now|[i|] username|[i|]|u now|token now|token|u step now];
    cbn -[passed log_allows Nat.add counted pair_refunds total_refunds] in *; try done.
  - unfold before in Hop. cbn in Hop. set (key := username_key to_lowercase username) in *.
    destruct (log_allows lg i key now) eqn:E; unfold passed, pair_refunds, total_refunds in *; cbn -[Nat.add log_step counted] in *;
      rewrite ?andb_true_r, ?andb_false_r in *; [|done].
    rewrite !counted_snoc, retain_recent in IH by done. cbn [length] in IH.
    repeat case_bool_decide; repeat case_decide; simplify_eq; cbn [length]; destruct IH; split; lia.
  - pose proof (counted_pop T (log_pairs lg) (i, username_key to_lowercase username) (ip, user)).
    unfold pair_refunds, total_refunds in *. cbn -[Nat.add counted] in *.
    repeat case_bool_decide; repeat case_decide; simplify_eq; cbn [length]; destruct IH; split; lia.
  - pose proof (counted_pop T (log_totals lg) i ip).
    unfold pair_refunds, total_refunds in *. cbn -[Nat.add counted] in *.
    repeat case_bool_decide; repeat case_decide; simplify_eq; cbn [length]; destruct IH; split; lia.
Qed.

(** A client cannot hammer the login: whatever operations came before, of the
    attempts of the last five minutes no more than thirty were let through for one
    address and user beyond those handed back after a successful sign-in, and no
    more than three hundred for one address across all users. *)
Theorem login_attempts_are_bounded t nets ops last_ops T ip user :
  clock_ordered t (ops ++ last_ops) -> Forall (before T) (ops ++ last_ops) -> Forall (recent T) last_ops ->
  let out := answers (performs (MkThrottle ∅ ∅ nets ∅ ∅ ∅) ops) last_ops in
  (passed (fun k => bool_decide (k = (ip, user))) out <= IP_MAX_ATTEMPTS + pair_refunds ip user last_ops)%nat
  /\ (passed (fun k => bool_decide (k.1 = ip)) out <= IP_TOTAL_MAX_ATTEMPTS + total_refunds ip last_ops)%nat.
Proof.
  intros Hc Hb Hr out.
  assert (out = log_answers (foldl log_step (MkLog ∅ ∅) ops) last_ops) as ->.
  { pose proof (answers_log t _ _ _ (remembers_empty t nets) Hc) as E1.
    pose proof (answers_log t _ _ _ (remembers_empty t nets) (clock_ordered_app _ _ _ Hc)) as E2.
    rewrite answers_app, log_answers_app, E2 in E1. by apply app_inv_head in E1. }
  pose proof (log_within_run T (MkLog ∅ ∅) (ops ++ last_ops) Hb) as Hw. rewrite foldl_app in Hw.
  destruct Hw as [Hp Ht].
  { split; intros k; unfold counted, entries; cbn; rewrite lookup_empty; cbn; lia. }
  apply Forall_app in Hb as [_ Hb].
  destruct (log_passed T ip user (foldl log_step (MkLog ∅ ∅) ops) last_ops Hb Hr).
  specialize (Hp (ip, user)). specialize (Ht ip). lia.
Qed.

(** ** Codes, tokens and mails *)

(** The operations between two instants. *)
Definition between (t1 t2 : Z) (op : Op) : Prop := t1 <= default t1 (op_time op) <= t2.

(** A sweep drops only what it may. *)
Lemma sweep_map_lookup {K V} `{Countable K} (keep : V -> bool) (m : gmap K V) k :
  sweep_map keep m !! k = m !! k
  \/ sweep_map keep m !! k = None /\ exists v, m !! k = Some v /\ keep v = false.
Proof.
  unfold sweep_map. case_match; [|by left]. rewrite map_lookup_filter.
  destruct (m !! k) as [v|]; [|by left]. cbn. case_guard as Hg; cbn; [by left|]. right. split; [done|].
  exists v. split; [done|]. by apply not_true_is_false.
Qed.

Lemma sweep_map_keeps {K V} `{Countable K} (keep : V -> bool) (m : gmap K V) k v :
  m !! k = Some v -> keep v = true -> sweep_map keep m !! k = Some v.
Proof.
  intros Hk Hv. destruct (sweep_map_lookup keep m k) as [->|(_ & v' & Hk' & Hv')]; [done|congruence].
Qed.

Lemma fresh_within ttl t1 t now t2 :
  t1 <= t -> now <= t2 -> t1 <= t2 -> t2 - t1 < ttl -> fresh ttl now t = true.
Proof.
  intros H1 H2 H3 H4. unfold fresh, duration_since. apply Z.ltb_lt. lia.
Qed.

(** The user's entry holds a step from [s] on, consumed at [t1] or later. *)
Definition spent (t1 s : Z) (user : string) (th : LoginThrottle) : Prop :=
  exists e, consumed_steps th !! user = Some e /\ s <= se_step e /\ t1 <= se_last_seen e.

Lemma consume_spends th user s t1 :
  (consume_totp_step_at th user s t1).2 = true -> spent t1 s user (consume_totp_step_at th user s t1).1.
Proof.
  unfold consume_totp_step_at, spent. destruct (sweep_map _ _ !! user) as [e|] eqn:E; cbn.
  - intros ->. cbn. exists (MkStep s t1). rewrite lookup_insert_eq. cbn. split_and!; [done|lia..].
  - intros _. exists (MkStep s t1). rewrite lookup_insert_eq. cbn. split_and!; [done|lia..].
Qed.

Lemma spent_consume t1 t2 s user th user' s' now :
  spent t1 s user th -> t1 <= now <= t2 -> t2 - t1 < STEP_ENTRY_TTL ->
  spent t1 s user (consume_totp_step_at th user' s' now).1
  /\ (user' = user -> (consume_totp_step_at th user' s' now).2 = true -> s < s').
Proof.
  intros (e & He & Hs & Hseen) Hnow Httl. unfold consume_totp_step_at.
  set (m := sweep_map _ _). assert (m !! user = Some e) as Hm.
  { apply sweep_map_keeps; [done|]. eapply fresh_within; [..|done]; lia. }
  destruct (decide (user' = user)) as [->|Hne].
  - rewrite Hm. cbn. rewrite (proj2 (Z.leb_gt _ _)), orb_false_r by (unfold duration_since; lia).
    destruct (Z.ltb_spec (se_step e) s').
    + split; [|lia]. exists (MkStep s' now). cbn. rewrite lookup_insert_eq. split_and!; [done|cbn; lia..].
    + split; [|done]. by exists e.
  - split; [|done]. exists e. split; [|done].
    by destruct (m !! user') as [e'|]; [destruct (_ || _)|]; cbn; rewrite ?lookup_insert_ne.
Qed.

Lemma spent_step t1 t2 s user th op :
  spent t1 s user th -> between t1 t2 op -> t2 - t1 < STEP_ENTRY_TTL -> spent t1 s user (perform th op).1.
Proof.
  intros Hs Hb Httl. destruct op as [[ip|] username now|[ip|] username|[ip|]|u now|token now|token|u step now]; try done; cbn.
  - unfold allow_login_at. by case_match.
  - unfold allow_reset_mail_at. by repeat case_match.
  - by eapply spent_consume.
Qed.

Lemma run_keeps (I : LoginThrottle -> Prop) (Q : Op -> Prop) th ops :
  (forall th op, I th -> Q op -> I (perform th op).1) -> I th -> Forall Q ops -> I (performs th ops).
Proof.
  intros Hstep Hi Hq. revert th Hi. induction Hq as [|op ops Hop Hq IH]; intros th Hi; [done|].
  cbn. by apply IH, Hstep.
Qed.

(** A one-time code cannot be replayed: once a code of step [s1] has been
    consumed for a user, then, whatever other logins, failures and resets happen
    and whatever the maps sweep, a code accepted for that user in the next five
    minutes is of a strictly later step. *)
Theorem consumed_code_is_not_replayed th ops user s1 t1 s2 t2 :
  (perform th (ConsumeStep user s1 t1)).2 = true ->
  t1 <= t2 -> t2 - t1 < STEP_ENTRY_TTL -> Forall (between t1 t2) ops ->
  (perform (performs (perform th (ConsumeStep user s1 t1)).1 ops) (ConsumeStep user s2 t2)).2 = true ->
  s1 < s2.
Proof.
  intros H1 Hle Httl Hops H2. cbn [perform] in *. apply consume_spends in H1.
  eapply run_keeps in H1; [|intros th' op Hi Hq; by apply (spent_step t1 t2)|done].
  destruct (spent_consume t1 t2 s1 user _ user s2 t2 H1 ltac:(lia) Httl) as [_ Hc]. by apply Hc.
Qed.

(** The failures of [token] among [ops]. *)
Definition failures_of (token : string) (ops : list Op) : Z :=
  Z.of_nat (length (List.filter (fun op => match op with
                                           | MfaFailure t _ => bool_decide (t = token)
                                           | _ => false
                                           end) ops)).

Lemma failures_of_cons token op ops :
  failures_of token (op :: ops)
  = (match op with MfaFailure t _ => if decide (t = token) then 1 else 0 | _ => 0 end) + failures_of token ops.
Proof.
  unfold failures_of. destruct op as [| | | |t now| |]; cbn -[Z.of_nat]; try lia.
  case_bool_decide; case_decide; try done. cbn -[Z.of_nat]. lia.
Qed.

Lemma failures_of_nonneg token ops : 0 <= failures_of token ops.
Proof. unfold failures_of. lia. Qed.

(** The token's entry counts [n] failures, the last of them at [t0] or later. *)
Definition failed (t0 n : Z) (token : string) (th : LoginThrottle) : Prop :=
  match mfa_failures th !! token with
  | Some e => (n = 0 \/ t0 <= mfa_last_seen e) /\ 0 <= mfa_count e /\ Z.min U32_MAX n <= mfa_count e
  | None => n = 0
  end.

Lemma failed_record t0 t n token th token' now :
  failed t0 n token th -> 0 <= n -> t0 <= now <= t -> t - t0 < MFA_ENTRY_TTL ->
  failed t0 (n + if decide (token' = token) then 1 else 0) token (record_mfa_failure_at th token' now).1.
Proof.
  intros Hf Hn Hnow Httl. unfold record_mfa_failure_at, failed in *. cbn [fst mfa_failures set_mfa].
  set (m := sweep_map _ _).
  assert (match m !! token with
          | Some e => (n = 0 \/ t0 <= mfa_last_seen e) /\ 0 <= mfa_count e /\ Z.min U32_MAX n <= mfa_count e
          | None => n = 0
          end) as Hm.
  { unfold m. destruct (sweep_map_lookup (fun e => fresh MFA_ENTRY_TTL now (mfa_last_seen e)) (mfa_failures th) token)
      as [->|(-> & e & E & Hk)]; [done|]. rewrite E in Hf. destruct Hf as ([Hz|Hl] & _); [done|].
    rewrite (fresh_within _ t0 _ _ t) in Hk by lia. done. }
  case_decide as Ht; [subst token'|rewrite lookup_insert_ne, Z.add_0_r by done; done].
  rewrite lookup_insert_eq. cbn [mfa_count mfa_last_seen]. split; [right; lia|].
  unfold U32_MAX in *. destruct (m !! token) as [e|]; cbn [default from_option id mfa_count]; lia.
Qed.

Lemma failed_run t0 t n token th ops :
  failed t0 n token th -> 0 <= n -> Forall (between t0 t) ops -> t - t0 < MFA_ENTRY_TTL ->
  ClearMfa token ∉ ops -> failed t0 (n + failures_of token ops) token (performs th ops).
Proof.
  intros Hf Hn Hb Httl. revert n th Hn Hf. induction Hb as [|op ops Hop Hb IH]; intros n th Hn Hf Hc.
  { unfold failures_of. cbn. by rewrite Z.add_0_r. }
  apply not_elem_of_cons in Hc as [Hne Hc]. rewrite failures_of_cons, Z.add_assoc. cbn [performs foldl].
  apply IH; [|..|done]; [by repeat case_match; lia|].
  destruct op as [[ip|] username now|[ip|] username|[ip|]|u now|token' now|token'|u step now]; rewrite ?Z.add_0_r; try done; cbn.
  - unfold allow_login_at. by case_match.
  - unfold allow_reset_mail_at. by repeat case_match.
  - eapply (failed_record _ t); [done|done|apply Hop|done].
  - unfold failed, clear_mfa in *. cbn. rewrite lookup_delete_ne; [done|]. congruence.
  - unfold consume_totp_step_at. by case_match.
Qed.

(** The failures counted for a token. *)
Definition count_of (th : LoginThrottle) (token : string) : Z :=
  default 0 (mfa_count <$> mfa_failures th !! token).

Lemma count_record th token token' now :
  0 <= count_of th token ->
  0 <= count_of (record_mfa_failure_at th token' now).1 token
    <= count_of th token + if decide (token' = token) then 1 else 0.
Proof.
  intros H0. unfold count_of, record_mfa_failure_at in *. cbn [fst mfa_failures set_mfa].
  set (keep := fun e => fresh MFA_ENTRY_TTL now (mfa_last_seen e)).
  assert (0 <= default 0 (mfa_count <$> sweep_map keep (mfa_failures th) !! token)
            <= default 0 (mfa_count <$> mfa_failures th !! token)) as Hm.
  { destruct (sweep_map_lookup keep (mfa_failures th) token) as [->|[-> _]]; [lia|cbn; lia]. }
  case_decide as Ht; [subst token'|rewrite lookup_insert_ne by done; lia]. rewrite lookup_insert_eq. cbn -[U32_MAX].
  destruct (sweep_map keep (mfa_failures th) !! token) as [e|]; cbn in *; unfold U32_MAX; lia.
Qed.

Lemma count_run th ops token :
  0 <= count_of th token -> 0 <= count_of (performs th ops) token <= count_of th token + failures_of token ops.
Proof.
  revert th. induction ops as [|op ops IH]; intros th H0; [unfold failures_of; cbn; lia|].
  rewrite failures_of_cons. cbn [performs foldl]. fold (performs (perform th op).1 ops).
  assert (0 <= count_of (perform th op).1 token
            <= count_of th token + match op with
                                   | MfaFailure t _ => if decide (t = token) then 1 else 0
                                   | _ => 0 end) as Hs;
    [|specialize (IH (perform th op).1 ltac:(lia)); lia].
  destruct op as [[ip|] username now|[ip|] username|[ip|]|u now|token' now|token'|u step now]; cbn;
    try (unfold count_of in *; cbn; lia).
  - unfold allow_login_at, count_of in *. case_match; cbn; lia.
  - unfold allow_reset_mail_at, count_of in *. repeat case_match; cbn; lia.
  - by apply count_record.
  - unfold count_of, clear_mfa in *. cbn. rewrite lookup_delete. case_decide; cbn; lia.
  - unfold consume_totp_step_at, count_of in *. case_match; cbn; lia.
Qed.

(** A second-factor token is spent after five wrong codes: whatever the
    throttle held before and whatever else happens, a token with five failures in
    less than ten minutes and no success is refused, so that in the five minutes
    it is valid for it allows no further guess. A token is refused only when five
    failures were counted for it. *)
Theorem mfa_token_is_spent th ops token t0 t :
  0 <= count_of th token -> t0 <= t -> t - t0 < MFA_ENTRY_TTL ->
  Forall (between t0 t) ops -> ClearMfa token ∉ ops ->
  (5 <= failures_of token ops -> mfa_blocked_at (performs th ops) token t = true)
  /\ (mfa_blocked_at (performs th ops) token t = true -> 5 <= count_of th token + failures_of token ops).
Proof.
  intros H0 Hle Httl Hb Hc. split.
  - intros H5. assert (failed t0 0 token th) as Hf.
    { unfold failed, count_of in *. destruct (mfa_failures th !! token) as [e|]; [|done]. cbn in H0.
      split; [by left|]. unfold U32_MAX. lia. }
    apply (failed_run t0 t 0 token th ops) in Hf; [|lia|done..]. unfold failed, mfa_blocked_at in *.
    destruct (mfa_failures (performs th ops) !! token) as [e|]; [|lia].
    destruct Hf as ([Hz|Hl] & _ & Hn); [lia|]. apply andb_true_iff. split.
    + unfold MFA_MAX_FAILURES, U32_MAX in *. apply Z.leb_le. lia.
    + by apply (fresh_within _ t0 _ _ t).
  - pose proof (count_run th ops token H0) as Hr. unfold mfa_blocked_at, count_of in *.
    destruct (mfa_failures (performs th ops) !! token) as [e|]; [|done]. cbn in Hr.
    unfold MFA_MAX_FAILURES. intros H. b2p. lia.
Qed.

(** *** Reset mails *)

Definition mailed (t1 : Z) (user : string) (th : LoginThrottle) : Prop :=
  exists l, reset_mails th !! user = Some l /\ t1 <= l.

Lemma mail_sent th user t1 :
  (allow_reset_mail_at th user t1).2 = true -> mailed t1 user (allow_reset_mail_at th user t1).1.
Proof.
  unfold allow_reset_mail_at, mailed. intros H. exists t1.
  repeat case_match; cbn in *; try done; by rewrite lookup_insert_eq.
Qed.

Lemma mailed_mail t1 t2 user th user' now :
  mailed t1 user th -> t1 <= now <= t2 -> t2 - t1 < RESET_MAIL_COOLDOWN ->
  mailed t1 user (allow_reset_mail_at th user' now).1
  /\ (user' = user -> (allow_reset_mail_at th user' now).2 = false).
Proof.
  intros (l & Hl & Ht) Hnow Hc. unfold allow_reset_mail_at, mailed. set (m := sweep_map _ _).
  assert (fresh RESET_MAIL_COOLDOWN now l = true) as Hf by (apply (fresh_within _ t1 _ _ t2); lia).
  assert (m !! user = Some l) as Hm by by apply sweep_map_keeps.
  destruct (decide (user' = user)) as [->|Hne].
  - rewrite Hm, Hf. cbn. split; [by exists l|done].
  - split; [|done]. exists l. split; [|done].
    repeat case_match; cbn; by rewrite ?lookup_insert_ne.
Qed.

Lemma mailed_step t1 t2 user th op :
  mailed t1 user th -> between t1 t2 op -> t2 - t1 < RESET_MAIL_COOLDOWN -> mailed t1 user (perform th op).1.
Proof.
  intros Hs Hb Hc. destruct op as [[ip|] username now|[ip|] username|[ip|]|u now|token now|token|u step now]; try done; cbn.
  - unfold allow_login_at. by case_match.
  - by eapply mailed_mail.
  - unfold consume_totp_step_at. by case_match.
Qed.

(** Two reset mails to one account are at least the cooldown apart. *)
Theorem reset_mails_are_spaced th ops user t1 t2 :
  (perform th (ResetMail user t1)).2 = true -> t1 <= t2 -> Forall (between t1 t2) ops ->
  (perform (performs (perform th (ResetMail user t1)).1 ops) (ResetMail user t2)).2 = true ->
  RESET_MAIL_COOLDOWN <= t2 - t1.
Proof.
  intros H1 Hle Hops H2. destruct (Z_lt_le_dec (t2 - t1) RESET_MAIL_COOLDOWN) as [Hc|]; [|done].
  cbn [perform] in *. apply mail_sent in H1.
  eapply run_keeps in H1; [|intros th' op Hi Hq; by apply (mailed_step t1 t2)|done].
  destruct (mailed_mail t1 t2 user _ user t2 H1 ltac:(lia) Hc) as [_ Hf]. rewrite Hf in H2 by done. done.
Qed.
End Login.

(** ** Trusted proxies *)

Lemma mask_land w len a :
  0 < w -> 0 <= len <= w -> 0 <= a < 2 ^ w ->
  Z.land a (prefix_mask w len) = Z.shiftl (Z.shiftr a (w - len)) (w - len).
Proof.
  intros Hw Hl Ha. unfold prefix_mask. destruct (Z.ltb_spec (w - len) w) as [Hk|Hk].
  - apply Z.bits_inj'. intros i Hi. rewrite Z.land_spec, Z.shiftl_spec by done.
    replace (2 ^ w - 1) with (Z.ones w) by (rewrite Z.ones_equiv; lia).
    destruct (Z_lt_le_dec i (w - len)) as [Hlo|Hlo].
    { rewrite (Z.testbit_neg_r _ (i - _)) by lia. rewrite Z.mod_pow2_bits_low by lia.
      rewrite Z.shiftl_spec, (Z.testbit_neg_r _ (i - _)) by lia. apply andb_false_r. }
    rewrite Z.shiftr_spec by lia. replace (i - (w - len) + (w - len)) with i by lia.
    destruct (Z_lt_le_dec i w) as [Hhi|Hhi].
    + rewrite Z.mod_pow2_bits_low, Z.shiftl_spec, Z.testbit_ones_nonneg by lia.
      rewrite (proj2 (Z.ltb_lt _ _)) by lia. apply andb_true_r.
    + rewrite (Z.testbit_eqb a), Z.div_small by (try lia; pose proof (Z.pow_le_mono_r 2 w i); lia). done.
  - replace (w - len) with w by lia. rewrite Z.land_0_r, Z.shiftr_div_pow2, Z.div_small by lia.
    by rewrite Z.shiftl_0_l.
Qed.

Lemma shiftl_inj k a b : 0 <= k -> Z.shiftl a k = Z.shiftl b k -> a = b.
Proof.
  intros Hk. rewrite !Z.shiftl_mul_pow2 by done. pose proof (Z.pow_pos_nonneg 2 k). nia.
Qed.

Lemma masked_eq w len a b :
  0 < w -> 0 <= len <= w -> 0 <= a < 2 ^ w -> 0 <= b < 2 ^ w ->
  (Z.land a (prefix_mask w len) =? Z.land b (prefix_mask w len)) = true
  <-> Z.shiftr a (w - len) = Z.shiftr b (w - len).
Proof.
  intros Hw Hl Ha Hb. rewrite Z.eqb_eq, !mask_land by done. split; [|by intros ->].
  apply shiftl_inj. lia.
Qed.

(** A network the parser accepts. *)
Definition net_ok (net : IpAddr * Z) : Prop := ip_ok net.1 /\ 0 <= net.2 <= width net.1.

(** The address is in the network: same family, same leading bits. *)
Definition belongs (ip : IpAddr) (net : IpAddr * Z) : Prop :=
  is_ipv4 ip = is_ipv4 net.1 /\
  Z.shiftr (bits ip) (width ip - net.2) = Z.shiftr (bits net.1) (width ip - net.2).

Lemma in_network_spec ip net : ip_ok ip -> net_ok net -> in_network ip net = true <-> belongs ip net.
Proof.
  unfold in_network, belongs, net_ok, ip_ok. destruct net as [[n|n] len], ip as [i|i];
    cbn -[prefix_mask Z.pow Z.shiftr Z.land Z.sub Z.eqb]; intros Hi [Hn Hl].
  - rewrite masked_eq by (done || lia). intuition congruence.
  - intuition discriminate.
  - intuition discriminate.
  - rewrite masked_eq by (done || lia). intuition congruence.
Qed.

Lemma parse_network_ok entry net : parse_network entry = Ok net -> net_ok net /\ to_canonical net.1 = net.1.
Proof.
  unfold parse_network.
  set (cut := match split_once "/" entry with Some (a, l) => (a, Some l) | None => (entry, None) end).
  destruct cut as [addr len].
  destruct (parse_ip_addr addr) as [a|] eqn:Ea; cbn [ok_or res_bind]; [|done].
  assert (ip_ok (to_canonical a)) as Ho.
  { apply to_canonical_ok. unfold parse_ip_addr, parse_with in Ea.
    destruct (read_ip_addr addr) as [[a' rest]|] eqn:Er; [|done]. apply read_ip_addr_ok in Er.
    by repeat case_match; simplify_eq. }
  assert ((if is_ipv4 (to_canonical a) then 32 else 128) = width (to_canonical a)) as -> by by destruct (to_canonical a).
  assert (0 <= width (to_canonical a)) as Hw by (by destruct (to_canonical a)).
  destruct len as [l|]; cbn [res_bind].
  - destruct (parse_u8 l) as [n|] eqn:En; cbn; [|done]. case_match eqn:Hn; cbn; [|done].
    intros [= <-]. apply parse_uint_range in En; [|done]. b2p.
    split; [|apply to_canonical_idem]. split; [done|]. cbn. lia.
  - intros [= <-]. split; [|apply to_canonical_idem]. split; [done|]. cbn. lia.
Qed.

(** ** The client behind proxies *)

Lemma split_char_comma a b sep : split_char sep (a +:+ String sep b) = split_char sep a ++ split_char sep b.
Proof.
  induction a as [|c a IH].
  - rewrite str_app_empty. cbn [split_char]. by rewrite Ascii.eqb_refl.
  - rewrite str_app_cons. cbn [split_char]. rewrite IH. destruct (Ascii.eqb c sep); [done|].
    destruct (split_char sep a) as [|p ps] eqn:E; [|done].
    destruct a; cbn in E; [done|]. repeat case_match; done.
Qed.

Lemma comma_list_app a b : comma_list (a +:+ String "," b) = comma_list a ++ comma_list b.
Proof. unfold comma_list. rewrite split_char_comma, map_app. apply List.filter_app. Qed.

(** The hops of a header, the nearest first. *)
Definition hops_of (values : list string) : list string := rev (concat (map comma_list values)).

Lemma walk_untrusted nets client hops more :
  proxies_contain nets client = true ->
  proxies_contain nets (walk_hops nets client hops) = false ->
  walk_hops nets client (hops ++ more) = walk_hops nets client hops.
Proof.
  revert client. induction hops as [|hop hops IH]; intros client Hc Hu; cbn [walk_hops app] in *; [congruence|].
  destruct (parse_hop hop) as [ip|]; [|congruence]. destruct (proxies_contain nets ip) eqn:E; [|done].
  by apply IH.
Qed.

Lemma last_of_cons {A} (x d : A) l : List.last (x :: l) d = List.last l x.
Proof. revert x. induction l as [|y l IH]; intros x; [done|]. cbn in *. by destruct l. Qed.

(** The walk ends at the first hop that is not a trusted proxy: every hop nearer
    than the answer parses and is trusted. *)
Lemma walk_hops_spec nets client hops :
  exists near ips far, hops = near ++ far /\ Forall2 (fun h ip => parse_hop h = Some ip) near ips
    /\ walk_hops nets client hops = List.last ips client
    /\ (forall ip, ip ∈ pop ips -> proxies_contain nets ip = true)
    /\ (match far with
        | [] => True
        | hop :: _ => parse_hop hop = None \/ ips <> [] /\ proxies_contain nets (List.last ips client) = false
        end).
Proof.
  revert client. induction hops as [|hop hops IH]; intros client.
  { exists [], [], []. split_and!; [done|constructor|done|set_solver|done]. }
  cbn [walk_hops]. destruct (parse_hop hop) as [ip|] eqn:Ep.
  - destruct (proxies_contain nets ip) eqn:Et.
    + destruct (IH ip) as (near & ips & far & -> & Hn & Hw & Ht & Hf).
      exists (hop :: near), (ip :: ips), far. split_and!; [done|by constructor| | |].
      * by rewrite last_of_cons, Hw.
      * intros x Hx. destruct ips as [|y ips]; [by apply not_elem_of_nil in Hx|].
        unfold pop in *. cbn in Hx, Ht. rewrite ?Nat.sub_0_r in *. apply elem_of_cons in Hx as [->|Hx]; [done|].
        by apply Ht.
      * destruct far as [|h far]; [done|]. destruct Hf as [Hf|[Hne Hf]]; [by left|]. right. split; [done|].
        by rewrite last_of_cons.
    + exists [hop], [ip], hops. split_and!; [done|by repeat constructor|done| |].
      * intros x Hx. by apply not_elem_of_nil in Hx.
      * destruct hops; [done|]. right. by split.
  - exists [], [], (hop :: hops). split_and!; [done|constructor|done| |by left]. intros x Hx. by apply not_elem_of_nil in Hx.
Qed.

(** A client cannot choose the address it is counted under: what it writes
    into the forwarding header itself, before the hops that trusted proxies have
    appended or in header lines of its own, never changes the address found, as
    long as that address is not itself a trusted proxy. From a peer that is not a
    trusted proxy the header is not read at all. *)
Theorem forged_hops_are_ignored nets peer forged lines appended rest :
  proxies_contain nets (client_ip nets peer (appended :: rest)) = false ->
  client_ip nets peer (lines ++ (forged +:+ String "," appended) :: rest) = client_ip nets peer (appended :: rest).
Proof.
  unfold client_ip. destruct (proxies_contain nets peer) eqn:Ep; cbn [negb]; [|done].
  rewrite map_app, concat_app. cbn [map concat]. rewrite comma_list_app, !rev_app_distr, <- !app_assoc.
  rewrite (app_assoc (rev (concat (map comma_list rest)))). by apply walk_untrusted.
Qed.

(** An address is trusted exactly when one of the configured networks shares its
    family and its leading bits; the IPv4 address behind a mapped one counts. *)
Theorem proxies_contain_exact spec nets ip :
  parse_proxies spec = Ok nets -> ip_ok ip ->
  proxies_contain nets ip = true <-> Exists (belongs (to_canonical ip)) nets.
Proof.
  intros Hp Hip. apply to_canonical_ok in Hip. unfold proxies_contain, parse_proxies in *.
  assert (Forall net_ok nets) as Hn.
  { revert nets Hp. induction (comma_list spec) as [|e l IH]; intros nets; cbn; [by intros [= <-]|].
    destruct (parse_network e) as [n|] eqn:En; cbn; [|done].
    destruct (res_collect parse_network l) as [ns|]; cbn; [|done]. intros [= <-].
    constructor; [by apply parse_network_ok in En as [? _]|by apply IH]. }
  clear Hp. induction Hn as [|n nets Hn Hns IH]; cbn [existsb].
  - split; [done|]. by intros ?%Exists_nil.
  - rewrite orb_true_iff, Exists_cons, IH. by rewrite in_network_spec.
Qed.

(** ** Examples *)

Module Examples.
Definition client : IpAddr := V4 3325256705.
Definition bob : list Op := [Attempt (Some client) "Bob" 0; RefundPair (Some client) "Bob"; RefundTotal (Some client)].
Definition burst (n : nat) : list Op := repeat (Attempt (Some client) "ann" (seconds 1)) n.
End Examples.
Import Examples.

Lemma throttle_refines_attempt_log_witness :
  clock_ordered 0 (bob ++ burst 31) /\
  answers to_ascii_lowercase (MkThrottle ∅ ∅ [] ∅ ∅ ∅) (bob ++ burst 31)
  = log_answers to_ascii_lowercase (MkLog ∅ ∅) (bob ++ burst 31)
  /\ last (log_answers to_ascii_lowercase (MkLog ∅ ∅) (bob ++ burst 31)) = Some (client, "ann", false).
Proof.
  assert (clock_ordered 0 (bob ++ burst 31)) as Hc by (vm_compute; repeat split; discriminate).
  split; [exact Hc|]. split; [exact (throttle_refines_attempt_log to_ascii_lowercase 0 [] _ Hc)|].
  vm_compute. reflexivity.
Defined.

Lemma login_attempts_are_bounded_witness :
  let out := answers to_ascii_lowercase (performs to_ascii_lowercase (MkThrottle ∅ ∅ [] ∅ ∅ ∅) bob) (burst 40) in
  (passed (fun k => bool_decide (k = (client, "ann"%string))) out
   <= IP_MAX_ATTEMPTS + pair_refunds to_ascii_lowercase client "ann" (burst 40))%nat
  /\ passed (fun k => bool_decide (k = (client, "ann"%string))) out = 30%nat.
Proof.
  cbv zeta. split; [|vm_compute; reflexivity].
  apply (login_attempts_are_bounded to_ascii_lowercase 0 [] bob (burst 40) (seconds 2) client "ann").
  - vm_compute. repeat split; discriminate.
  - apply Forall_app. split; [repeat constructor; vm_compute; discriminate|].
    apply Forall_forall. intros op Hop. apply list_elem_of_In, repeat_spec in Hop as ->. vm_compute. discriminate.
  - apply Forall_forall. intros op Hop. apply list_elem_of_In, repeat_spec in Hop as ->. vm_compute. reflexivity.
Defined.

Lemma consumed_code_is_not_replayed_witness :
  (perform to_ascii_lowercase throttle_default (ConsumeStep "u" 7 0)).2 = true /\ 7 < 8.
Proof.
  split; [vm_compute; reflexivity|].
  refine (consumed_code_is_not_replayed to_ascii_lowercase throttle_default
            [ConsumeStep "u" 7 (seconds 10); Attempt (Some client) "u" (seconds 20)] "u" 7 0 8 (seconds 30) _ _ _ _ _).
  - vm_compute. reflexivity.
  - vm_compute. discriminate.
  - vm_compute. reflexivity.
  - repeat constructor; vm_compute; discriminate.
  - vm_compute. reflexivity.
Defined.

Lemma mfa_token_is_spent_witness :
  let ops := repeat (MfaFailure "tok" 0) 5 in
  mfa_blocked_at (performs to_ascii_lowercase throttle_default ops) "tok" (seconds 299) = true.
Proof.
  cbv zeta.
  refine (proj1 (mfa_token_is_spent to_ascii_lowercase throttle_default (repeat (MfaFailure "tok" 0) 5) "tok" 0 (seconds 299)
                   _ _ _ _ _) _).
  - vm_compute. discriminate.
  - vm_compute. discriminate.
  - vm_compute. reflexivity.
  - repeat constructor; vm_compute; discriminate.
  - cbn. set_solver.
  - vm_compute. discriminate.
Defined.

Lemma reset_mails_are_spaced_witness :
  RESET_MAIL_COOLDOWN <= seconds 300 - 0.
Proof.
  refine (reset_mails_are_spaced to_ascii_lowercase throttle_default [] "u" 0 (seconds 300) _ _ _ _).
  - vm_compute. reflexivity.
  - vm_compute. discriminate.
  - constructor.
  - vm_compute. reflexivity.
Defined.

Definition demo_proxies : TrustedProxies := [(V4 167772160, 8)].

Lemma forged_hops_are_ignored_witness :
  parse_proxies "10.0.0.0/8" = Ok demo_proxies /\
  client_ip demo_proxies (V4 167772161) ["10.9.9.9"; "127.0.0.1 " +:+ String "," " 198.51.100.1, 10.0.0.2"]
  = client_ip demo_proxies (V4 167772161) [" 198.51.100.1, 10.0.0.2"]
  /\ client_ip demo_proxies (V4 167772161) [" 198.51.100.1, 10.0.0.2"] = client.
Proof.
  split; [vm_compute; reflexivity|]. split; [|vm_compute; reflexivity].
  apply (forged_hops_are_ignored demo_proxies (V4 167772161) "127.0.0.1 " ["10.9.9.9"] " 198.51.100.1, 10.0.0.2" []).
  vm_compute. reflexivity.
Defined.
