(* ===== verification/Caller.v ===== *)
(** * Callers, scopes and the authentication of a request

    Models [croniq-auth/src/context.rs] (the caller of a request, its scopes,
    what it may hand on), the caller a token's claims stand for
    ([croniq-auth/src/jwt.rs], [validate_token]), and the middleware of
    [croniq-server/src/api/auth_middleware.rs] that turns an [Authorization]
    header into a caller. The signature check of a JWT and the SHA-256 of a
    secret are third-party code and parameters; the tables of credentials are
    the class [CredentialStore]. *)

From S2P Require Import Prelude RustStr Chrono Store.

Local Open Scope string_scope.
Local Open Scope result_scope.
Local Open Scope Z_scope.

(** ** The caller *)

Inductive CallerType := CallerApiKey | CallerUser.
Inductive AuthMethod := AmPassword | AmApiKey | AmPat | AmOidc.
Inductive Role := RAdmin | ROperator | RViewer.

Record CallerContext := MkCaller {
  cc_caller_type : CallerType;
  cc_caller_id : string;
  cc_client_id : string;
  cc_user_id : option string;
  cc_role : option Role;
  cc_auth_method : AuthMethod;
  cc_scopes : list string;
  cc_token_generation : option Z
}.

(** [Role::as_str], [FromStr for Role] *)
Definition role_as_str (r : Role) : string :=
  match r with RAdmin => "admin" | ROperator => "operator" | RViewer => "viewer" end.
Definition role_from_str (s : string) : option Role :=
  if String.eqb s "admin" then Some RAdmin
  else if String.eqb s "operator" then Some ROperator
  else if String.eqb s "viewer" then Some RViewer
  else None.

(** ** Scopes *)

Module Scope.
Definition ADMIN : string := "admin".
Definition JOBS_READ : string := "jobs:read".
Definition JOBS_WRITE : string := "jobs:write".
Definition JOBS_REGISTER : string := "jobs:register".
Definition JOBS_TRIGGER : string := "jobs:trigger".
Definition SCHEDULES_READ : string := "schedules:read".
Definition SCHEDULES_WRITE : string := "schedules:write".
Definition EXECUTIONS_READ : string := "executions:read".
Definition EXECUTIONS_CANCEL : string := "executions:cancel".
Definition DEAD_LETTERS_READ : string := "dead-letters:read".
Definition DEAD_LETTERS_WRITE : string := "dead-letters:write".
Definition CALENDARS_READ : string := "calendars:read".
Definition CALENDARS_WRITE : string := "calendars:write".
Definition WORK_POLL : string := "work:poll".
Definition WORK_RENEW : string := "work:renew".
Definition WORK_ACK : string := "work:ack".
Definition WORK_EVENTS : string := "work:events".
Definition RUNNERS_READ : string := "runners:read".
Definition RUNNERS_WRITE : string := "runners:write".
Definition RUNNERS_HEARTBEAT : string := "runners:heartbeat".
Definition API_CLIENTS_ADMIN : string := "api-clients:admin".
Definition API_KEYS_ADMIN : string := "api-keys:admin".
Definition USERS_ADMIN : string := "users:admin".
Definition MCP_READ : string := "mcp:read".
Definition MCP_WRITE : string := "mcp:write".
Definition ALERTS_READ : string := "alerts:read".
Definition ALERTS_WRITE : string := "alerts:write".
Definition ALERTS_ACK : string := "alerts:ack".
Definition NOTES_WRITE : string := "notes:write".

Definition ALL : list string :=
  [ADMIN; JOBS_READ; JOBS_WRITE; JOBS_REGISTER; JOBS_TRIGGER; SCHEDULES_READ; SCHEDULES_WRITE;
   EXECUTIONS_READ; EXECUTIONS_CANCEL; DEAD_LETTERS_READ; DEAD_LETTERS_WRITE; CALENDARS_READ;
   CALENDARS_WRITE; WORK_POLL; WORK_RENEW; WORK_ACK; WORK_EVENTS; RUNNERS_READ; RUNNERS_WRITE;
   RUNNERS_HEARTBEAT; API_CLIENTS_ADMIN; API_KEYS_ADMIN; USERS_ADMIN; MCP_READ; MCP_WRITE;
   ALERTS_READ; ALERTS_WRITE; ALERTS_ACK; NOTES_WRITE].
(** [Scope::is_known] *)
Definition is_known (scope : string) : bool := existsb (String.eqb scope) ALL.
End Scope.

(** [default_scopes_for_role] *)
Definition default_scopes_for_role (r : Role) : list string :=
  match r with
  | RAdmin => [Scope.ADMIN]
  | ROperator =>
      [Scope.JOBS_READ; Scope.JOBS_WRITE; Scope.JOBS_TRIGGER; Scope.SCHEDULES_READ;
       Scope.SCHEDULES_WRITE; Scope.CALENDARS_READ; Scope.CALENDARS_WRITE; Scope.EXECUTIONS_READ;
       Scope.EXECUTIONS_CANCEL; Scope.DEAD_LETTERS_READ; Scope.DEAD_LETTERS_WRITE;
       Scope.RUNNERS_READ; Scope.ALERTS_READ; Scope.ALERTS_ACK; Scope.NOTES_WRITE]
  | RViewer =>
      [Scope.JOBS_READ; Scope.SCHEDULES_READ; Scope.CALENDARS_READ; Scope.EXECUTIONS_READ;
       Scope.DEAD_LETTERS_READ; Scope.RUNNERS_READ; Scope.ALERTS_READ]
  end.

Definition holds (scopes : list string) (s : string) : bool := existsb (fun held => String.eqb held s) scopes.

(** [CallerContext::has_scope], [has_any_scope], [is_admin] *)
Definition has_scope (c : CallerContext) (scope : string) : bool :=
  existsb (fun s => String.eqb s "admin" || String.eqb s scope) (cc_scopes c).
Definition has_any_scope (c : CallerContext) (scopes : list string) : bool := existsb (has_scope c) scopes.
Definition is_admin (c : CallerContext) : bool := holds (cc_scopes c) "admin".

(** [can_grant_scopes], [grantable_subset] *)
Definition can_grant_scopes (c : CallerContext) (requested : list string) : bool :=
  is_admin c || forallb (holds (cc_scopes c)) requested.
Definition grantable_subset (c : CallerContext) (candidates : list string) : list string :=
  if is_admin c then candidates else List.filter (holds (cc_scopes c)) candidates.

Definition HTTP_UNAUTHORIZED : Z := 401.
Definition HTTP_FORBIDDEN : Z := 403.

(** [require_scope], [require_grantable_scopes] *)
Definition require_scope (c : CallerContext) (scope : string) : result unit Z :=
  if has_scope c scope then Ok tt else Err HTTP_FORBIDDEN.
Definition require_grantable_scopes (c : CallerContext) (requested : list string) : result unit Z :=
  if can_grant_scopes c requested then Ok tt else Err HTTP_FORBIDDEN.

(** [pat_effective_scopes] *)
Definition pat_effective_scopes (pat_scopes : list string) (role : Role) : list string :=
  let allowed := default_scopes_for_role role in
  if holds allowed Scope.ADMIN then pat_scopes else List.filter (holds allowed) pat_scopes.

(** ** Tokens *)

Record Claims := {
  cl_sub : string;
  cl_client_id : string;
  cl_caller_type : string;
  cl_user_id : option string;
  cl_role : option string;
  cl_auth_method : string;
  cl_scopes : list string;
  cl_token_generation : option Z;
  cl_iss : string;
  cl_exp : Z;
  cl_iat : Z
}.

(** [caller_type_to_str], [auth_method_to_str], [parse_auth_method] *)
Definition caller_type_to_str (t : CallerType) : string :=
  match t with CallerApiKey => "apikey" | CallerUser => "user" end.
Definition auth_method_to_str (m : AuthMethod) : string :=
  match m with AmPassword => "password" | AmApiKey => "apikey" | AmPat => "pat" | AmOidc => "oidc" end.
Definition parse_auth_method (s : string) : AuthMethod :=
  if String.eqb s "password" then AmPassword
  else if String.eqb s "pat" then AmPat
  else if String.eqb s "oidc" then AmOidc
  else AmApiKey.

(** The claims [issue_token_pair] signs for a caller, and the caller
    [validate_token] reads off them. *)
Definition claims_of (c : CallerContext) (issuer : string) (now ttl_secs : Z) : Claims := {|
  cl_sub := cc_caller_id c; cl_client_id := cc_client_id c;
  cl_caller_type := caller_type_to_str (cc_caller_type c); cl_user_id := cc_user_id c;
  cl_role := role_as_str <$> cc_role c; cl_auth_method := auth_method_to_str (cc_auth_method c);
  cl_scopes := cc_scopes c; cl_token_generation := cc_token_generation c; cl_iss := issuer;
  cl_exp := (now + ttl_secs * NS_SEC) / NS_SEC; cl_iat := now / NS_SEC |}.
Definition caller_of_claims (claims : Claims) : CallerContext := {|
  cc_caller_type := if String.eqb (cl_caller_type claims) "apikey" then CallerApiKey else CallerUser;
  cc_caller_id := cl_sub claims; cc_client_id := cl_client_id claims; cc_user_id := cl_user_id claims;
  cc_role := cl_role claims ≫= role_from_str; cc_auth_method := parse_auth_method (cl_auth_method claims);
  cc_scopes := cl_scopes claims; cc_token_generation := cl_token_generation claims |}.

(** ** Credentials *)

Record ApiKey := {
  ak_key_id : string;
  ak_client_id : string;
  ak_key_hash : string;
  ak_key_prefix : string;
  ak_key_expires_at : option instant;
  ak_revoked_at : option instant;
  ak_created_at : instant
}.
Record ApiClient := {
  ac_client_id : string;
  ac_name : string;
  ac_scopes : list string;
  ac_is_active : bool;
  ac_created_at : instant;
  ac_managed_by : string
}.
Record PersonalAccessToken := {
  pat_token_id : string;
  pat_user_id : string;
  pat_name : string;
  pat_token_hash : string;
  pat_token_prefix : string;
  pat_scopes : list string;
  pat_expires_at : option instant;
  pat_revoked_at : option instant;
  pat_last_used_at : option instant;
  pat_created_at : instant
}.
Record User := {
  us_user_id : string;
  us_username : string;
  us_email : option string;
  us_display_name : option string;
  us_role : Role;
  us_is_active : bool;
  us_created_at : instant;
  us_updated_at : instant;
  us_last_login_at : option instant
}.

(** The reads the middleware makes, and its one write. *)
Class CredentialStore (St : Type) := {
  find_api_key_by_hash : St -> string -> result (option ApiKey) StoreError;
  get_client : St -> string -> result (option ApiClient) StoreError;
  pat_find_by_hash : St -> string -> result (option PersonalAccessToken) StoreError;
  users_get_by_id : St -> string -> result (option User) StoreError;
  users_token_generation : St -> string -> result (option Z) StoreError;
  pat_touch_last_used : St -> string -> instant -> St * result unit StoreError
}.

Definition HTTP_SERVER_ERROR : Z := 500.
Definition HTTP_NO_STORE : Z := 503.
(** [.map_err(|_| INTERNAL_SERVER_ERROR)?.ok_or(UNAUTHORIZED)?] *)
Definition known {A} (r : result (option A) StoreError) : result A Z :=
  match r with
  | Err _ => Err HTTP_SERVER_ERROR
  | Ok None => Err HTTP_UNAUTHORIZED
  | Ok (Some a) => Ok a
  end.
Definition expired (at_ : option instant) (now : instant) : bool :=
  match at_ with Some e => e <? now | None => false end.
Definition refuse_if (b : bool) : result unit Z := if b then Err HTTP_UNAUTHORIZED else Ok tt.

Section Middleware.
  Context {St : Type} `{CS : CredentialStore St}.
  (** [hash_api_key], and [decode::<Claims>] under the configured key and
      issuer. *)
  Context (hash_token : string -> string) (decode_claims : string -> option Claims).

(** The [ApiKey] branch of [require_auth]. *)
Definition resolve_api_key (s : St) (raw : string) (now : instant) : result CallerContext Z :=
  api_key <-? known (find_api_key_by_hash s (hash_token raw));
  _r <-? refuse_if (bool_decide (is_Some (ak_revoked_at api_key)));
  _e <-? refuse_if (expired (ak_key_expires_at api_key) now);
  client <-? known (get_client s (ak_client_id api_key));
  _a <-? refuse_if (negb (ac_is_active client));
  Ok (MkCaller CallerApiKey (ak_key_id api_key) (ak_client_id api_key) None None AmApiKey
        (ac_scopes client) None).

(** [resolve_pat] *)
Definition resolve_pat (s : St) (raw : string) (now touched : instant) : St * result CallerContext Z :=
  match (pat <-? known (pat_find_by_hash s (hash_token raw));
         _r <-? refuse_if (bool_decide (is_Some (pat_revoked_at pat)));
         _e <-? refuse_if (expired (pat_expires_at pat) now);
         user <-? known (users_get_by_id s (pat_user_id pat));
         _a <-? refuse_if (negb (us_is_active user));
         Ok (pat, user)) with
  | Err status => (s, Err status)
  | Ok (pat, user) =>
      let s := (pat_touch_last_used s (pat_token_id pat) touched).1 in
      (s, Ok (MkCaller CallerUser (us_user_id user) (us_user_id user) (Some (us_user_id user))
                (Some (us_role user)) AmPat (pat_effective_scopes (pat_scopes pat) (us_role user)) None))
  end.

(** [enforce_token_generation] *)
Definition enforce_token_generation (s : option St) (c : CallerContext) : result unit Z :=
  match cc_user_id c, s with
  | Some uid, Some s =>
      current <-? known (users_token_generation s uid);
      refuse_if (negb (default 0 (cc_token_generation c) =? current))
  | _, _ => Ok tt
  end.

(** The header forms [require_auth] knows. *)
Inductive Credential := Jwt (token : string) | Pat (raw : string) | Key (raw : string).
Definition parse_header (header : string) : option Credential :=
  match strip_prefix "Bearer " header with
  | Some token => Some (if starts_with "croniq_pat_" token then Pat token else Jwt token)
  | None =>
      match strip_prefix "PAT " header with
      | Some raw => Some (Pat raw)
      | None => Key <$> strip_prefix "ApiKey " header
      end
  end.

(** [require_auth], up to the call of the route: the caller, or the status it
    refuses with. *)
Definition require_auth (has_jwt_config : bool) (store : option St) (header : option string)
    (now touched : instant) : option St * result CallerContext Z :=
  if negb has_jwt_config then (store, Err HTTP_UNAUTHORIZED)
  else match header ≫= parse_header with
  | None => (store, Err HTTP_UNAUTHORIZED)
  | Some (Jwt token) =>
      (store, (claims <-? ok_or (decode_claims token) HTTP_UNAUTHORIZED;
               let c := caller_of_claims claims in
               _g <-? enforce_token_generation store c; Ok c))
  | Some (Pat raw) =>
      match store with
      | None => (None, Err HTTP_NO_STORE)
      | Some s => let '(s, r) := resolve_pat s raw now touched in (Some s, r)
      end
  | Some (Key raw) =>
      match store with
      | None => (None, Err HTTP_NO_STORE)
      | Some s => (store, resolve_api_key s raw now)
      end
  end.
End Middleware.
