(* ===== verification/RegisterFire.v ===== *)
(** * Adoption fires

    Models [croniq-server/src/register_fire.rs]: which [run_on_register] jobs
    owe a fire because their definition was adopted, and when their gates
    permit it. *)

From S2P Require Import Prelude RustStr Chrono Ast CalendarArgs DaySets Schedule Calendar.
From S2P Require Import Trigger TriggerSearch Store JobConfig.

Local Open Scope Z_scope.

Inductive Adoption := FirstRegistration | ConfigChanged.

Record PendingRegisterFire := {
  prf_job_key : string;
  prf_config_hash : string;
  prf_due_at : instant;
  prf_reason : Adoption
}.

(** [sort_by(|a, b| a.job_key.cmp(&b.job_key))] *)
Definition key_le (a b : PendingRegisterFire) : Prop :=
  String.leb (prf_job_key a) (prf_job_key b) = true.
#[export] Instance key_le_dec a b : Decision (key_le a b).
Proof. unfold key_le. apply _. Defined.

Definition str_le (a b : string) : Prop := String.leb a b = true.
#[export] Instance str_le_dec a b : Decision (str_le a b).
Proof. unfold str_le. apply _. Defined.

Section Planning.
  Context `{C : Chrono} `{F : Fingerprint}.

(** [due_at] *)
Definition due_at (t : Trigger) (now : instant) : option instant :=
  let from := match not_before t with
              | Some nb => if now <? nb then nb else now
              | None => now
              end in
  open ← next_gate_open t from;
  match not_after t with
  | Some na => if na <? open then None else Some open
  | None => Some open
  end.

(** The loop body of [plan] for one declaring job. *)
Definition plan_job (triggers : gmap string Trigger) (recorded : gmap string string)
    (now : instant) (job : JobConfig) : option PendingRegisterFire :=
  let hash := config_hash job in
  reason ← match recorded !! jc_key job with
           | None => Some FirstRegistration
           | Some recorded_hash => if String.eqb recorded_hash hash then None else Some ConfigChanged
           end;
  trigger ← triggers !! jc_key job;
  if bool_decide (state trigger = Paused) then None
  else
    due ← due_at trigger now;
    Some {| prf_job_key := jc_key job; prf_config_hash := hash;
            prf_due_at := due; prf_reason := reason |}.

(** [plan] *)
Definition plan (jobs : list JobConfig) (triggers : gmap string Trigger)
    (recorded : gmap string string) (now : instant) : list PendingRegisterFire :=
  merge_sort key_le
    (omap (plan_job triggers recorded now) (List.filter jc_run_on_register jobs)).

(** [stale_records] *)
Definition stale_records (jobs : list JobConfig) (recorded : gmap string string) : list string :=
  let still_declared := map jc_key (List.filter jc_run_on_register jobs) in
  let defined := map jc_key jobs in
  merge_sort str_le
    (filter (fun key => key ∈ defined /\ key ∉ still_declared) (map_to_list recorded).*1).

(** [recorded_hashes] *)
Definition recorded_hashes (rows : list JobRegisterFire) : gmap string string :=
  foldl (fun m row => <[rf_job_key row := rf_config_hash row]> m) ∅ rows.
End Planning.

(** ** Correctness of the plan *)

Section PlanFacts.
  Context `{CL : ChronoLaws} `{F : Fingerprint}.

(** The earliest instant the [not_before] bound leaves. *)
Definition earliest (t : Trigger) (now : instant) : instant :=
  match not_before t with Some nb => Z.max now nb | None => now end.

Lemma due_at_inv t now due :
  due_at t now = Some due ->
  next_gate_open t (earliest t now) = Some due
  /\ (forall na, not_after t = Some na -> due <= na).
Proof.
  unfold due_at, earliest. cbv zeta. intros (o & Ho & Hd)%bind_Some.
  assert (o = due) as ->.
  { destruct (not_after t); [case_if_in Hd|]; by simplify_eq. }
  split.
  - destruct (not_before t) as [nb|]; [|done]. case_if_in Ho; b2p; rewrite <- Ho; f_equal; lia.
  - intros na Hna. rewrite Hna in Hd. case_if_in Hd; b2p; [done|lia].
Qed.

Lemma window_open_found tz off w from u :
  window_ok w -> fixed_offset tz off -> next_window_open_at_or_after tz w from = Some u ->
  from <= u /\ contains w (time_of (local_of tz u)) = true.
Proof.
  intros Hw Hf. destruct Hf as [Hl Hf].
  unfold next_window_open_at_or_after. cbv zeta. rewrite Hl.
  intros (n & Hn & Hu)%bind_Some.
  apply next_instant_in_some in Hn as (Hle & _ & Hopen & _);
    [|intros; by apply window_intervals_ok; apply Hw].
  unfold resolve_local_at_or_after, resolve_local in Hu. rewrite Hf in Hu. injection Hu as <-.
  rewrite Hl, <- window_open_at by done.
  replace (_ + off) with n by lia. split; [lia|done].
Qed.

(** The opening a search returns is open. *)
Lemma gate_rounds_open tr off h fuel t u :
  trigger_ok tr -> zones_fixed tr off -> gate_rounds tr h fuel t = Some u ->
  gate_allows tr u = true.
Proof.
  intros (_ & Hc & Hw) [Hz Hcz]. revert t.
  induction fuel as [|fuel IH]; intros t; cbn [gate_rounds]; [done|].
  case_if; [done|]. intros (c & Hcal & (w & Hwin & Hr)%bind_Some)%bind_Some. cbv zeta in Hr.
  case_if_in Hr; b2p; [injection Hr as <-|by eapply IH].
  unfold gate_allows. cbv zeta. apply andb_true_iff. split.
  - destruct (calendar tr) as [cal|]; [|done].
    destruct (Hcz cal eq_refl) as [o Ho].
    pose proof (calendar_open_fixed cal o t (Hc _ eq_refl) Ho) as Hopen.
    rewrite Hcal in Hopen. destruct Hopen as (? & _ & ? & _).
    by replace t with c by lia.
  - destruct (window tr) as [win|] eqn:E; [|done].
    destruct (window_open_found _ off win t w (Hw _ eq_refl) Hz Hwin).
    by replace t with w by lia.
Qed.
Lemma plan_elem p jobs triggers recorded now :
  p ∈ plan jobs triggers recorded now <->
  exists job, job ∈ jobs /\ jc_run_on_register job = true
              /\ plan_job triggers recorded now job = Some p.
Proof.
  unfold plan. rewrite merge_sort_Permutation, list_elem_of_omap.
  setoid_rewrite list_elem_of_In. setoid_rewrite filter_In. naive_solver.
Qed.

Lemma plan_job_Some triggers recorded now job p :
  plan_job triggers recorded now job = Some p <->
  exists t, recorded !! jc_key job <> Some (config_hash job)
    /\ triggers !! jc_key job = Some t /\ state t <> Paused
    /\ due_at t now = Some (prf_due_at p)
    /\ prf_job_key p = jc_key job /\ prf_config_hash p = config_hash job
    /\ prf_reason p = match recorded !! jc_key job with Some _ => ConfigChanged | None => FirstRegistration end.
Proof.
  unfold plan_job. cbv zeta. split.
  - intros (reason & Hr & (t & Ht & Hp)%bind_Some)%bind_Some. exists t.
    case_bool_decide; [done|]. apply bind_Some in Hp as (due & Hd & [= <-]). cbn.
    destruct (recorded !! jc_key job) as [h|]; [|by simplify_eq].
    destruct (String.eqb_spec h (config_hash job)); simplify_eq. split_and!; congruence.
  - intros (t & Hne & Ht & Hs & Hd & Hk & Hh & Hreason). destruct p as [pk ph pd pr]. cbn in *. subst.
    rewrite Ht. destruct (recorded !! jc_key job) as [h|].
    + destruct (String.eqb_spec h (config_hash job)); [congruence|]. cbn.
      by rewrite bool_decide_false, Hd.
    + cbn. by rewrite bool_decide_false, Hd.
Qed.

(** One entry per job. *)
Lemma plan_keys_NoDup jobs triggers recorded now :
  NoDup (map jc_key jobs) -> NoDup (map prf_job_key (plan jobs triggers recorded now)).
Proof.
  intros Hnd. unfold plan. rewrite merge_sort_Permutation.
  induction jobs as [|job jobs IH]; [constructor|]. cbn [map] in Hnd.
  apply NoDup_cons in Hnd as [Hni Hnd]. specialize (IH Hnd). cbn [List.filter].
  destruct (jc_run_on_register job); [|done]. cbn [omap list_omap].
  destruct (plan_job triggers recorded now job) as [p|] eqn:Hp; [|done]. cbn [map].
  apply NoDup_cons. split; [|done]. intros (p' & Ek & Hp')%list_elem_of_fmap.
  apply list_elem_of_omap in Hp' as (job' & Hj' & Hp').
  apply plan_job_Some in Hp as (_ & _ & _ & _ & _ & E1 & _).
  apply plan_job_Some in Hp' as (_ & _ & _ & _ & _ & E2 & _).
  apply list_elem_of_In, filter_In in Hj' as [Hj' _]. apply Hni.
  rewrite <- E1, Ek, E2. apply list_elem_of_fmap_2. by apply list_elem_of_In.
Qed.

(** The adoption plan is exact. A job is planned exactly when it declares
    [run_on_register], the store records no fire for this very definition, its
    trigger exists and is not paused, and its gates permit an instant in its
    bounds; the planned instant is then the first whole second from now (and
    from [not_before]) on at which the calendar and the window are open, or
    that starting instant itself, and it is never past [not_after]. *)
Theorem adoption_plan_exact jobs triggers recorded now off :
  (forall k t, triggers !! k = Some t -> trigger_ok t /\ zones_fixed t off) ->
  (forall p, p ∈ plan jobs triggers recorded now ->
     exists job t, job ∈ jobs /\ jc_run_on_register job = true
       /\ recorded !! jc_key job <> Some (config_hash job)
       /\ prf_job_key p = jc_key job /\ prf_config_hash p = config_hash job
       /\ triggers !! jc_key job = Some t /\ state t <> Paused
       /\ earliest t now <= prf_due_at p /\ gate_allows t (prf_due_at p) = true
       /\ (forall na, not_after t = Some na -> prf_due_at p <= na)
       /\ (forall v, whole_second v -> earliest t now <= v < prf_due_at p -> gate_allows t v = false))
  /\ (forall job t, job ∈ jobs -> jc_run_on_register job = true ->
       recorded !! jc_key job <> Some (config_hash job) ->
       triggers !! jc_key job = Some t -> state t <> Paused -> is_Some (due_at t now) ->
       exists p, p ∈ plan jobs triggers recorded now /\ prf_job_key p = jc_key job
                 /\ prf_config_hash p = config_hash job).
Proof.
  intros Hts. split.
  - intros p (job & Hj & Hreg & (t & Hne & Ht & Hst & Hd & Hk & Hh & _)%plan_job_Some)%plan_elem.
    destruct (Hts _ _ Ht) as [Hok Hz]. apply due_at_inv in Hd as [Hopen Hna].
    exists job, t. split_and!; try done.
    + by apply (next_gate_open_ge t).
    + by eapply gate_rounds_open.
    + by eapply gate_rounds_closed.
  - intros job t Hj Hreg Hne Ht Hst [due Hd].
    exists {| prf_job_key := jc_key job; prf_config_hash := config_hash job; prf_due_at := due;
              prf_reason := match recorded !! jc_key job with Some _ => ConfigChanged | None => FirstRegistration end |}.
    split_and!; [|done..]. apply plan_elem. exists job. split_and!; [done..|].
    apply plan_job_Some. by exists t.
Qed.
End PlanFacts.

Lemma adoption_plan_exact_witness :
  exists p, p ∈ plan (C := Demo.demo_chrono) (F := {| config_hash := demo_hash |})
                  [demo_job "billing:sync" true] {["billing:sync"%string := demo_trigger]}
                  {["billing:sync" := "5mbilling:sync"]}%string 0
            /\ prf_job_key p = "billing:sync"%string /\ prf_config_hash p = "10mbilling:sync"%string.
Proof.
  destruct (adoption_plan_exact (CL := Demo.demo_laws) (F := {| config_hash := demo_hash |})
           [demo_job "billing:sync" true] {["billing:sync"%string := demo_trigger]}
           {["billing:sync" := "5mbilling:sync"]}%string 0 0) as [_ H].
  { intros k t [_ <-]%lookup_singleton_Some. split; [apply demo_trigger_ok|apply demo_zones_fixed]. }
  apply (H (demo_job "billing:sync" true) demo_trigger).
  - by left.
  - done.
  - cbn [jc_key demo_job]. rewrite lookup_singleton_eq. discriminate.
  - apply lookup_singleton_eq.
  - discriminate.
  - eexists. vm_compute. reflexivity.
Defined.
