(* ===== verification/Scheduler.v ===== *)
(** * The scheduler loop

    Models [croniq-server/src/scheduler.rs]: the loop state, the tick that
    evaluates every trigger and publishes the due fires as one wave, the
    adoption fires, and the runtime commands that add, remove and reload jobs.

    The source's sources of nondeterminism are arguments: the order in which
    the trigger map is visited, the monotonic clock readings of the rate limit
    (one per job, since a tick asks at most once per job), and the stream of
    fresh execution ids, [uuid], of which the loop state counts the ids drawn.
    The tracing header injected into a work item's metadata is the build's
    without the [otlp] feature: none. *)

From S2P Require Import Prelude RustStr Chrono Ast CalendarArgs DaySets Schedule Calendar.
From S2P Require Import Trigger TriggerSearch TriggerMachine Durations Execution RunnerTypes.
From S2P Require Import Queue Registry RunnerApi Store JobConfig Restore Quota RegisterFire.

Local Open Scope Z_scope.

Definition EPHEMERAL_TRACKING_MAX_AGE_HOURS : Z := 1.

Record FiredExecution := {
  fe_execution_id : string;
  fe_job_key : string;
  fe_fire_at : instant;
  fe_attempt : Z;
  fe_is_ephemeral : bool
}.

Record SkippedFire := { sf_job_key : string; sf_fire_at : instant }.

Record TickResult := {
  fired : list FiredExecution;
  maintenance_skipped : list SkippedFire
}.

Section Loop.
  Context `{C : Chrono} `{J : Json} `{F : Fingerprint} {St : Type} `{JS : JobStore St}.
  Context (json_strings : list string -> string) (uuid : nat -> string).

Record SchedulerLoop := MkLoop {
  triggers : gmap string Trigger;
  jobs : gmap string JobConfig;
  store : St;
  runner : AppState;
  quota : QuotaGuard;
  pending_register_fires : list PendingRegisterFire;
  maintenance : MaintenanceState;
  uuids_drawn : nat
}.

(** ** Commands *)

(** [jobs.into_iter().map(|j| (j.key.clone(), j)).collect()]: a later job of
    the same key wins. *)
Definition jobs_by_key (l : list JobConfig) : gmap string JobConfig :=
  foldl (fun m j => <[jc_key j := j]> m) ∅ l.

(** [arm_register_fires]; failed deletions are only logged. *)
Definition arm_register_fires (l : SchedulerLoop) (now : instant) : SchedulerLoop :=
  let '(st, r) := list_register_fires (store l) in
  let '(st, pending) :=
    match r with
    | Err _ => (st, [])
    | Ok rows =>
        let recorded := recorded_hashes rows in
        let js := (map_to_list (jobs l)).*2 in
        let st := foldl (fun st key => (delete_register_fire st key).1) st
                    (stale_records js recorded) in
        (st, plan js (triggers l) recorded now)
    end in
  MkLoop (triggers l) (jobs l) st (runner l) (quota l) pending (maintenance l) (uuids_drawn l).

(** [SchedulerLoop::new] *)
Definition loop_new (trs : gmap string Trigger) (js : list JobConfig) (st : St) (r : AppState)
    (now : instant) : SchedulerLoop :=
  arm_register_fires (MkLoop trs (jobs_by_key js) st r guard_new [] maintenance_off 0) now.

(** [set_maintenance_handle], [set_quota_defaults] *)
Definition set_maintenance_handle (l : SchedulerLoop) (m : MaintenanceState) : SchedulerLoop :=
  MkLoop (triggers l) (jobs l) (store l) (runner l) (quota l) (pending_register_fires l) m
    (uuids_drawn l).
Definition set_quota_defaults (l : SchedulerLoop) (max : Z) : SchedulerLoop :=
  let q := foldl (fun g key => set_quota g key {| max_per_minute := max |}) (quota l)
             (map_to_list (jobs l)).*1 in
  MkLoop (triggers l) (jobs l) (store l) (runner l) q (pending_register_fires l) (maintenance l)
    (uuids_drawn l).

(** [SchedulerLoop::reload]: every new trigger, carried over from the old one
    of its key if there is one; then the adoption fires are planned anew. *)
Definition reload_triggers (old new_triggers : gmap string Trigger) (now : instant)
    : gmap string Trigger :=
  map_imap (fun key new_trigger =>
    Some match old !! key with
         | Some old_trigger => carry_over_state old_trigger new_trigger now
         | None => new_trigger
         end) new_triggers.
Definition reload (l : SchedulerLoop) (new_triggers : gmap string Trigger)
    (new_jobs : list JobConfig) (now : instant) : SchedulerLoop :=
  arm_register_fires
    (MkLoop (reload_triggers (triggers l) new_triggers now) (jobs_by_key new_jobs) (store l)
       (runner l) (quota l) (pending_register_fires l) (maintenance l) (uuids_drawn l)) now.

Inductive SchedulerCommand :=
| AddJob (job : JobConfig) (trigger : Trigger)
| RemoveJob (job_key : string)
| Reload (new_triggers : gmap string Trigger) (new_jobs : list JobConfig).

(** [apply_command]; the acknowledgement of a reload carries the trigger map. *)
Definition apply_command (l : SchedulerLoop) (cmd : SchedulerCommand) (now : instant)
    : SchedulerLoop :=
  let put trs js := MkLoop trs js (store l) (runner l) (quota l) (pending_register_fires l)
                      (maintenance l) (uuids_drawn l) in
  match cmd with
  | AddJob job trigger =>
      let key := jc_key job in
      let trigger := match triggers l !! key with
                     | Some old => carry_over_state old trigger now
                     | None => trigger
                     end in
      put (<[key := trigger]> (triggers l)) (<[key := job]> (jobs l))
  | RemoveJob key => put (delete key (triggers l)) (delete key (jobs l))
  | Reload new_triggers new_jobs => reload l new_triggers new_jobs now
  end.

(** [apply_command_synced]: the snapshot the HTTP side reads is brought into
    line for the key the command touched. *)
Definition apply_command_synced (l : SchedulerLoop) (snapshot : gmap string Trigger)
    (cmd : SchedulerCommand) (now : instant) : SchedulerLoop * gmap string Trigger :=
  let touched := match cmd with
                 | AddJob job _ => Some (jc_key job)
                 | RemoveJob key => Some key
                 | Reload _ _ => None
                 end in
  let l := apply_command l cmd now in
  (l, match touched with
      | None => snapshot
      | Some key => match triggers l !! key with
                    | Some t => <[key := t]> snapshot
                    | None => delete key snapshot
                    end
      end).

(** ** Publishing a wave *)

(** The items under the queue's write lock, and for each ephemeral one the
    executions it replaced. *)
Fixpoint enqueue_wave (q : WorkQueue) (wave : list WorkItem)
    : WorkQueue * list (string * string * list string) :=
  match wave with
  | [] => (q, [])
  | item :: wave =>
      if is_ephemeral item then
        let '(q, replaced) := remove_job q (wi_job_key item) in
        let '(q, eph) := enqueue_wave (enqueue q item).1 wave in
        (q, (execution_id item, wi_job_key item, replaced) :: eph)
      else enqueue_wave (enqueue q item).1 wave
  end.

(** The bookkeeping of one ephemeral item after the lock. *)
Definition track_ephemeral (now : instant) (r : AppState) (e : string * string * list string)
    : AppState :=
  let '(execution_id, job_key, replaced) := e in
  let r := forget_ephemeral r replaced in
  let r := record_ephemeral r execution_id now (seconds (EPHEMERAL_TRACKING_MAX_AGE_HOURS * 3600)) in
  let r := bump_ephemeral r job_key 1 TFired in
  bump_ephemeral r job_key (Z.of_nat (length replaced)) TSuperseded.

(** [publish_wave] *)
Definition publish_wave (r : AppState) (wave : list WorkItem) (now : instant) : AppState :=
  match wave with
  | [] => r
  | _ =>
      let '(q, eph) := enqueue_wave (queue r) wave in
      foldl (track_ephemeral now) (set_queue q r) eph
  end.

(** ** Adoption fires *)

(** A fresh queued execution row. *)
Definition queued_execution (job : JobConfig) (id : string) (fire_at now : instant) : Execution := {|
  ex_id := id; ex_job_key := jc_key job; ex_fire_at := fire_at; ex_scheduled_for := fire_at;
  ex_attempt := 1; ex_state := EQueued; ex_runner_id := None; ex_claimed_at := None;
  ex_started_at := None; ex_completed_at := None; ex_duration_ms := None; ex_error := None;
  ex_dead_reason := None; ex_idempotency_key := None;
  ex_metadata := job_execution_metadata json_strings job; ex_created_at := now |}.

Definition is_ephemeral_job (job : JobConfig) : bool :=
  bool_decide (jc_execution_mode job = ModeEphemeral).

(** The depth test of the tick and of the adoption fires. *)
Definition at_depth_cap (q : WorkQueue) (job : JobConfig) (key : string) : bool :=
  default 10 (jc_max_queue_depth job) <=? Z.of_nat (count_for_job q key).

Record DispatchAcc := MkDispatch {
  d_store : St;
  d_pending : list PendingRegisterFire;
  d_wave : list WorkItem;
  d_dispatched : list (PendingRegisterFire * string * bool);
  d_uuids : nat
}.

(** The body of the loop of [dispatch_due_register_fires]. *)
Definition dispatch_one (js : gmap string JobConfig) (q : WorkQueue) (now : instant)
    (a : DispatchAcc) (p : PendingRegisterFire) : DispatchAcc :=
  match js !! prf_job_key p with
  | None => a
  | Some job =>
      let eph := is_ephemeral_job job in
      if negb eph && at_depth_cap q job (prf_job_key p) then
        MkDispatch (d_store a) (d_pending a ++ [p]) (d_wave a) (d_dispatched a) (d_uuids a)
      else
        let id := uuid (d_uuids a) in
        let '(st, r) := if eph then (d_store a, Ok tt)
                        else create_execution (d_store a) (queued_execution job id now now) in
        match r with
        | Err _ => MkDispatch st (d_pending a ++ [p]) (d_wave a) (d_dispatched a) (S (d_uuids a))
        | Ok _ => MkDispatch st (d_pending a) (d_wave a ++ [job_to_work_item job id now now 1])
                    (d_dispatched a ++ [(p, id, eph)]) (S (d_uuids a))
        end
  end.

Definition register_row (p : PendingRegisterFire) (now : instant) : JobRegisterFire :=
  {| rf_job_key := prf_job_key p; rf_config_hash := prf_config_hash p; rf_fired_at := now |}.

Definition adoption_fired (now : instant) (d : PendingRegisterFire * string * bool) : FiredExecution :=
  let '(p, id, eph) := d in
  {| fe_execution_id := id; fe_job_key := prf_job_key p; fe_fire_at := now; fe_attempt := 1;
     fe_is_ephemeral := eph |}.

(** [dispatch_due_register_fires] *)
Definition dispatch_due_register_fires (l : SchedulerLoop) (now : instant)
    : SchedulerLoop * list FiredExecution :=
  let due := List.filter (fun p => prf_due_at p <=? now) (pending_register_fires l) in
  let later := List.filter (fun p => negb (prf_due_at p <=? now)) (pending_register_fires l) in
  let a := foldl (dispatch_one (jobs l) (queue (runner l)) now)
             (MkDispatch (store l) later [] [] (uuids_drawn l)) due in
  let r := publish_wave (runner l) (d_wave a) now in
  let st := foldl (fun st d => (upsert_register_fire st (register_row d.1.1 now)).1)
              (d_store a) (d_dispatched a) in
  (MkLoop (triggers l) (jobs l) st r (quota l) (d_pending a) (maintenance l) (d_uuids a),
   map (adoption_fired now) (d_dispatched a)).

(** ** The tick *)

Record TickAcc := MkAcc {
  t_store : St;
  t_quota : QuotaGuard;
  t_uuids : nat;
  t_wave : list WorkItem;
  t_fired : list FiredExecution;
  t_skipped : list SkippedFire
}.
Definition set_t_store (st : St) (a : TickAcc) : TickAcc :=
  MkAcc st (t_quota a) (t_uuids a) (t_wave a) (t_fired a) (t_skipped a).
Definition set_t_quota (g : QuotaGuard) (a : TickAcc) : TickAcc :=
  MkAcc (t_store a) g (t_uuids a) (t_wave a) (t_fired a) (t_skipped a).

(** The row written for a fire that ran. *)
Definition fired_row (key : string) (t : Trigger) (fire_at now : instant) : JobState := {|
  js_job_key := key; js_next_fire_at := next_fire_at t; js_last_fired_at := Some fire_at;
  js_fire_count := fire_count t;
  js_status := if bool_decide (state t = Exhausted) then JExhausted else JActive;
  js_updated_at := now |}.

(** [skip_fire] against the store; a failed write is only logged. *)
Definition skip_to_store (t : Trigger) (fire_at now : instant) (a : TickAcc) : Trigger * TickAcc :=
  let '(t, row) := skip_fire t fire_at now in
  (t, set_t_store (upsert_job_state (t_store a) row).1 a).

(** The rollback after a failed write: the four fields saved before
    [mark_fired]. *)
Definition roll_back (before after : Trigger) : Trigger :=
  set_state (state before)
    (set_next (next_fire_at before)
       (set_fired (last_fired_at before) (fire_count before) after)).

(** From the id on: persist the execution and the advance, then add the item
    to the wave, or roll back. *)
Definition persist_and_publish (job : JobConfig) (t : Trigger) (fire_at now : instant)
    (a : TickAcc) : Trigger * TickAcc :=
  let eph := is_ephemeral_job job in
  let id := uuid (t_uuids a) in
  let t' := mark_fired t fire_at now in
  let row := fired_row (jc_key job) t' fire_at now in
  let '(st, r) :=
    if eph then upsert_job_state (t_store a) row
    else create_execution_and_advance_job_state (t_store a)
           (queued_execution job id fire_at now) row in
  match r with
  | Err _ => (roll_back t t',
              MkAcc st (t_quota a) (S (t_uuids a)) (t_wave a) (t_fired a) (t_skipped a))
  | Ok _ =>
      (t', MkAcc st (t_quota a) (S (t_uuids a))
             (t_wave a ++ [job_to_work_item job id fire_at fire_at 1])
             (t_fired a ++ [{| fe_execution_id := id; fe_job_key := jc_key job;
                               fe_fire_at := fire_at; fe_attempt := 1; fe_is_ephemeral := eph |}])
             (t_skipped a))
  end.

(** A due trigger outside maintenance. [q] is the queue, which the loop only
    reads; [mono] the clock reading of the rate limit. *)
Definition fire_due (js : gmap string JobConfig) (q : WorkQueue) (mono : string -> Z)
    (now : instant) (t : Trigger) (fire_at : instant) (a : TickAcc) : Trigger * TickAcc :=
  match js !! job_key t with
  | None => (skip_fire_in_memory t fire_at now, a)
  | Some job =>
      let eph := is_ephemeral_job job in
      if negb eph && job_coalesces_scheduled_fires (jc_metadata job)
         && bool_decide (is_Some (find_for_job q (job_key t)
                                    (fun item => metadata_is_foldable (metadata item))))
      then
        let t' := mark_fired t fire_at now in
        (t', set_t_store (upsert_job_state (t_store a) (fired_row (job_key t) t' fire_at now)).1 a)
      else if eph then persist_and_publish job t fire_at now a
      else if at_depth_cap q job (job_key t) then skip_to_store t fire_at now a
      else
        let '(g, ok) := allow (t_quota a) (job_key t) (mono (job_key t)) in
        let a := set_t_quota g a in
        if ok then persist_and_publish job t fire_at now a else skip_to_store t fire_at now a
  end.

(** The body of the tick's loop. *)
Definition tick_one (js : gmap string JobConfig) (q : WorkQueue) (mono : string -> Z)
    (maintenance_active : bool) (now : instant) (t : Trigger) (a : TickAcc)
    : Trigger * TickAcc :=
  match evaluate t now with
  | None => (t, a)
  | Some fire_at =>
      if maintenance_active then
        if bool_decide (is_Some (js !! job_key t)) then
          let '(t', a) := skip_to_store t fire_at now a in
          (t', MkAcc (t_store a) (t_quota a) (t_uuids a) (t_wave a) (t_fired a)
                 (t_skipped a ++ [{| sf_job_key := job_key t; sf_fire_at := fire_at |}]))
        else (skip_fire_in_memory t fire_at now, a)
      else fire_due js q mono now t fire_at a
  end.

Fixpoint tick_loop (js : gmap string JobConfig) (q : WorkQueue) (mono : string -> Z)
    (maintenance_active : bool) (now : instant) (order : list string)
    (trs : gmap string Trigger) (a : TickAcc) : gmap string Trigger * TickAcc :=
  match order with
  | [] => (trs, a)
  | key :: order =>
      match trs !! key with
      | None => tick_loop js q mono maintenance_active now order trs a
      | Some t =>
          let '(t', a') := tick_one js q mono maintenance_active now t a in
          tick_loop js q mono maintenance_active now order (<[key := t']> trs) a'
      end
  end.

(** [tick], visiting the triggers in the order [order]. *)
Definition tick (l : SchedulerLoop) (order : list string) (mono : string -> Z) (now : instant)
    : SchedulerLoop * TickResult :=
  let maintenance_active := is_active (maintenance l) now in
  let '(l, adopted) :=
    if negb maintenance_active && match pending_register_fires l with [] => false | _ => true end
    then dispatch_due_register_fires l now else (l, []) in
  let '(trs, a) := tick_loop (jobs l) (queue (runner l)) mono maintenance_active now order
                     (triggers l)
                     (MkAcc (store l) (quota l) (uuids_drawn l) [] adopted []) in
  let r := publish_wave (runner l) (t_wave a) now in
  (MkLoop trs (jobs l) (t_store a) r (t_quota a) (pending_register_fires l) (maintenance l)
     (t_uuids a),
   {| fired := t_fired a; maintenance_skipped := t_skipped a |}).
End Loop.
