(* ===== verification/DemoServer.v ===== *)
(** * A server for the examples

    A concrete environment that satisfies the laws of [EnvLaws] (one tick of
    the clock per reading, unary ids, a self-delimiting text for lists of
    strings) and the rows, items and worlds the closed examples run on. *)

From S2P Require Import Prelude RustStr Chrono RunnerTypes Queue Registry RunnerApi.
From S2P Require Import Durations Execution JobConfig Store StoreCalls Sqlite SqliteFacts Server.

Local Open Scope string_scope.
Local Open Scope Z_scope.

Fixpoint demo_uuid (n : nat) : string :=
  match n with O => "e" | S n => String "0" (demo_uuid n) end.

#[global] Instance demo_uuid_inj : Inj (=) (=) demo_uuid.
Proof.
  intros m. induction m as [|m IH]; intros [|n] H; try done. injection H as H. f_equal. by apply IH.
Qed.

(** Each byte follows an [x]; a bar ends a string. *)
Fixpoint quoted (s k : string) : string :=
  match s with
  | "" => String "|" k
  | String c s => String "x" (String c (quoted s k))
  end.
Fixpoint demo_json_strings (l : list string) : string :=
  match l with [] => "" | s :: l => quoted s (demo_json_strings l) end.
Fixpoint unquoted (acc s : string) : option (list string) :=
  match s with
  | "" => if str_is_empty acc then Some [] else None
  | String h s =>
      if Ascii.eqb h "|" then cons acc <$> unquoted "" s
      else if Ascii.eqb h "x" then
        match s with
        | String c s => unquoted (acc +:+ String c "") s
        | "" => None
        end
      else None
  end.

Lemma unquoted_quoted s : forall acc k, unquoted acc (quoted s k) = cons (acc +:+ s) <$> unquoted "" k.
Proof.
  induction s as [|c s IH]; intros acc k; cbn.
  - by rewrite str_app_nil.
  - by rewrite IH, <- str_app_assoc.
Qed.

#[global] Instance demo_env : Env | 100 := {|
  clock n := seconds (Z.of_nat n);
  uuid := demo_uuid;
  parse_uuid s := Some s;
  to_rfc3339 t := pretty t;
  show_utc t := pretty t;
  json_strings := demo_json_strings;
  parse_json_strings := unquoted "" |}.

#[global] Instance demo_env_laws : EnvLaws (E := demo_env).
Proof.
  split; [apply _|done|by intros s id [= ->]|].
  intros l. change (unquoted "" (demo_json_strings l) = Some l).
  induction l as [|s l IH]; [done|]. cbn [demo_json_strings]. by rewrite unquoted_quoted, IH.
Qed.

(** Rows: queued at the fire time, or claimed by a runner. *)
Definition demo_queued (id job : string) (fire : instant) (md : gmap string string) : Execution := {|
  ex_id := id; ex_job_key := job; ex_fire_at := fire; ex_scheduled_for := fire; ex_attempt := 1;
  ex_state := EQueued; ex_runner_id := None; ex_claimed_at := None; ex_started_at := None;
  ex_completed_at := None; ex_duration_ms := None; ex_error := None; ex_dead_reason := None;
  ex_idempotency_key := None; ex_metadata := md; ex_created_at := fire |}.
Definition demo_claimed (id job runner : string) (at_ : instant) (md : gmap string string) : Execution :=
  claimed_row runner at_ (demo_queued id job 0 md).

Definition demo_tables (rows : list Execution) : Tables :=
  MkTables ∅ (list_to_map (map (fun e => (ex_id e, e)) rows)) ∅ ∅ [] ∅ [] ∅ ∅ ∅ ∅ ∅.

(** A world with these rows and work items, one runner [r1], and a store that
    refuses the statements the script says. *)
Definition demo_world (rows : list Execution) (work : list WorkItem) (faults : list bool)
    : World SqliteStore := {|
  w_store := MkSqlite (demo_tables rows) faults;
  w_app := set_registry (register_poll registry_new "r1" (demo_poll "A")).1
             (set_queue (foldl (fun q x => (enqueue q x).1) queue_new work) (app_new 0));
  w_throttle := ∅; w_clock := 0; w_ids := 0 |}.

(** A work item of a job that draws on the group [db], which has one slot. *)
Definition demo_group : gmap string string :=
  {["__concurrency_group" := "db"; "__concurrency_group_max" := "1"]}.
Definition demo_grouped_item (id job : string) : WorkItem := {|
  execution_id := id; wi_job_key := job; fire_at := 0; scheduled_for := 0; attempt := 1;
  require := []; prefer := []; metadata := demo_group; timeout := "5m"; is_ephemeral := false |}.
