(* ===== verification/ListApi.v ===== *)
(** * Listing executions

    Models [handle_list_executions] of [croniq-server/src/api/mod.rs]: the
    parsing of the query parameters and the filter it builds. What the handler
    asks of the caller's favorites is an argument, as is the RFC 3339 parser.
    The facts: the [state] parameter never widens a query, and the cursor
    ([until] with [until_id]) walks a history without losing or repeating a
    row. *)

From S2P Require Import Prelude RustStr Chrono RunnerTypes Queue Registry RunnerApi.
From S2P Require Import Store StoreCalls Sqlite SqliteFacts Lifecycle Server DemoServer.

Local Open Scope string_scope.
Local Open Scope Z_scope.

(** ** The parameters *)

(** [ExecutionState::ALL], [ExecutionState::parse] *)
Definition ALL_STATES : list ExecutionState :=
  [EQueued; EClaimed; ECompleted; EFailed; EDead; ECancelled].
Definition parse_state (s : string) : option ExecutionState :=
  find (fun st => String.eqb (to_ascii_lowercase (state_str st)) (to_ascii_lowercase s)) ALL_STATES.

(** The loop over [state]; the error is the entry that names no state. *)
Fixpoint parse_states (raws : list string) (acc : list ExecutionState)
    : result (list ExecutionState) string :=
  match raws with
  | [] => Ok acc
  | raw :: raws =>
      let raw := trim raw in
      if str_is_empty raw then parse_states raws acc
      else match parse_state raw with
      | None => Err raw
      | Some st => parse_states raws (if bool_decide (st ∈ acc) then acc else (acc ++ [st])%list)
      end
  end.
Definition state_param (params : gmap string string) : list string :=
  split_char "," (default "" (params !! "state")).

Section Handler.
  Context `{E : Env} (parse_rfc3339 : string -> option instant).

(** The filter [handle_list_executions] builds. *)
Definition list_filter (params : gmap string string) (states : list ExecutionState)
    (favorites : option (list string)) : ExecutionFilter := {|
  ef_job_key := params !! "job_key";
  ef_job_key_contains := v ← params !! "job_key_contains";
                         if str_is_empty (trim v) then None else Some (trim v);
  ef_job_keys := favorites;
  ef_states := states;
  ef_runner_id := params !! "runner_id";
  ef_since := params !! "since" ≫= parse_rfc3339;
  ef_until := params !! "until" ≫= parse_rfc3339;
  ef_until_id := params !! "until_id" ≫= parse_uuid;
  ef_limit := (fun l => Z.min l MAX_EXECUTIONS_LIMIT) <$> (params !! "limit" ≫= parse_u32) |}.

Context `{J : Json} {St : Type} `{SO : StoreOps St}.

(** [handle_list_executions]: the rows, or the status of the refusal.
    [refused] is the scope check, [favorites] the answer of
    [favorites_filter]. *)
Definition handle_list_executions (has_store : bool) (refused : option Z)
    (favorites : result (option (list string)) Z) (params : gmap string string)
    : M St (result (list Execution) Z) :=
  match refused with
  | Some status => mret (Err status)
  | None =>
      if negb has_store then mret (Err 503)
      else match parse_states (state_param params) [] with
      | Err _ => mret (Err 400)
      | Ok states =>
          match favorites with
          | Err status => mret (Err status)
          | Ok favorites =>
              r ← call (ListExecutions (list_filter params states favorites));
              mret match r with Ok rows => Ok rows | Err _ => Err 500 end
          end
      end
  end.
End Handler.

(** ** States *)

Definition names_state (raw : string) (st : ExecutionState) : Prop :=
  to_ascii_lowercase (trim raw) = state_str st.
Definition blank (raw : string) : Prop := trim raw = "".

Lemma parse_state_exact s st : parse_state s = Some st <-> to_ascii_lowercase s = state_str st.
Proof.
  unfold parse_state. split.
  - intros [_ Heq%String.eqb_eq]%find_some. rewrite <- Heq. by destruct st.
  - intros ->. by destruct st.
Qed.

Lemma parse_states_spec raws : forall acc,
  match parse_states raws acc with
  | Ok l => (forall st, st ∈ l <-> st ∈ acc \/ exists raw, raw ∈ raws /\ names_state raw st)
            /\ (forall raw, raw ∈ raws -> blank raw \/ exists st, names_state raw st)
  | Err raw => exists r, r ∈ raws /\ trim r = raw /\ ~ blank r /\ forall st, ~ names_state r st
  end.
Proof.
  induction raws as [|raw raws IH]; intros acc; cbn [parse_states].
  { split; [|by intros raw ?%not_elem_of_nil]. intros st. split; [by left|].
    intros [?|(r & Hr & _)]; [done|]. by apply not_elem_of_nil in Hr. }
  cbv zeta. destruct (str_is_empty (trim raw)) eqn:Ee.
  - assert (blank raw) as Hb by (unfold blank; by destruct (trim raw)).
    assert (forall st, ~ names_state raw st) as Hn by (intros st; unfold names_state; rewrite Hb; by destruct st).
    specialize (IH acc). destruct (parse_states raws acc) as [l|r].
    + destruct IH as [H1 H2]. split.
      * intros st. rewrite H1. split; intros [?|(r & Hr & Hs)]; auto; right; exists r; split; auto; [by right|].
        apply elem_of_cons in Hr as [->|?]; [by destruct (Hn st)|done].
      * intros r [->|Hr]%elem_of_cons; auto.
    + destruct IH as (x & Hx & Hrest). exists x. split; [by right|done].
  - destruct (parse_state (trim raw)) as [st0|] eqn:Ep.
    + apply parse_state_exact in Ep. specialize (IH (if bool_decide (st0 ∈ acc) then acc else (acc ++ [st0])%list)).
      assert (forall st, st ∈ (if bool_decide (st0 ∈ acc) then acc else (acc ++ [st0])%list) <-> st ∈ acc \/ st = st0) as Hacc.
      { intros st. case_bool_decide; [naive_solver|]. by rewrite elem_of_app, list_elem_of_singleton. }
      destruct (parse_states raws _) as [l|r].
      * destruct IH as [H1 H2]. split.
        -- intros st. rewrite H1, Hacc. split.
           ++ intros [[?| ->]|(r & Hr & Hs)]; [by left|right; exists raw; split; [left|done]|].
              right. exists r. split; [by right|done].
           ++ intros [?|(r & Hr & Hs)]; [by left; left|]. apply elem_of_cons in Hr as [->|Hr]; [|right; eauto].
              left. right. unfold names_state in Hs. rewrite Ep in Hs. by destruct st, st0.
        -- intros r [->|Hr]%elem_of_cons; [right; by exists st0|auto].
      * destruct IH as (x & Hx & Hrest). exists x. split; [by right|done].
    + exists raw. split_and!; [left|done| |].
      * unfold blank. intros Hb. by rewrite Hb in Ee.
      * intros st Hst. apply parse_state_exact in Hst. congruence.
Qed.

(** The [state] parameter never widens a query: the handler filters by
    exactly the states the parameter names, in any case and with blank entries
    skipped; one entry that names no state refuses the request; and there is no
    state filter only when every entry is blank. *)
Theorem state_filter_is_exact (params : gmap string string) :
  match parse_states (state_param params) [] with
  | Ok l => (forall st, st ∈ l <-> exists raw, raw ∈ state_param params /\ names_state raw st)
            /\ (l = [] <-> forall raw, raw ∈ state_param params -> blank raw)
  | Err raw => exists r, r ∈ state_param params /\ ~ blank r /\ forall st, ~ names_state r st
  end.
Proof.
  pose proof (parse_states_spec (state_param params) []) as H.
  destruct (parse_states _ _) as [l|r]; [|by destruct H as (x & ? & _ & ? & ?); exists x].
  destruct H as [H1 H2].
  assert (forall st, st ∈ l <-> exists raw, raw ∈ state_param params /\ names_state raw st) as Hl.
  { intros st. rewrite H1. split; [intros [?%not_elem_of_nil|?]; done|by right]. }
  split; [exact Hl|]. split.
  - intros -> raw Hraw. destruct (H2 raw Hraw) as [?|[st Hst]]; [done|]. exfalso.
    apply (not_elem_of_nil st). apply Hl. eauto.
  - intros Hall. destruct l as [|st l]; [done|]. exfalso.
    destruct (proj1 (Hl st) ltac:(left)) as (raw & Hraw & Hs). unfold names_state in Hs.
    rewrite (Hall raw Hraw) in Hs. by destruct st.
Qed.

(** ** Pages *)

(** The request for the page after a row. *)
Definition after_row (f : ExecutionFilter) (cursor : option Execution) : ExecutionFilter := {|
  ef_job_key := ef_job_key f; ef_job_key_contains := ef_job_key_contains f; ef_job_keys := ef_job_keys f;
  ef_states := ef_states f; ef_runner_id := ef_runner_id f; ef_since := ef_since f;
  ef_until := ex_created_at <$> cursor; ef_until_id := ex_id <$> cursor; ef_limit := ef_limit f |}.

(** A caller that asks for the page after the last row it saw until a page is
    empty. *)
Fixpoint history (fuel : nat) (f : ExecutionFilter) (cursor : option Execution) (t : Tables)
    : list Execution :=
  match fuel with
  | O => []
  | S fuel =>
      match (run (MkSqlite t []) (ListExecutions (after_row f cursor))).2 with
      | Ok page => match last page with
                   | None => []
                   | Some e => (page ++ history fuel f (Some e) t)%list
                   end
      | Err _ => []
      end
  end.

Lemma ltb_strict a b : String.ltb a b = true <-> String.le a b /\ ~ String.le b a.
Proof.
  unfold String.ltb, String.le, String.leb. rewrite (String.compare_antisym b a).
  destruct (String.compare a b); cbn; intuition congruence.
Qed.

(** The row [y] is strictly older than the cursor. *)
Definition older (e y : Execution) : bool :=
  (ex_created_at y <? ex_created_at e) || (ex_created_at y =? ex_created_at e) && String.ltb (ex_id y) (ex_id e).

Lemma older_iff e y : older e y = true <-> newest_first e y /\ ~ newest_first y e.
Proof.
  unfold older, newest_first. rewrite orb_true_iff, andb_true_iff, Z.ltb_lt, Z.eqb_eq, ltb_strict. split.
  - intros [?|(Heq & Hle & Hn)]; [split; [by left|lia]|]. split; [by right|]. intros [?|[_ ?]]; [lia|done].
  - intros [[?|[Heq Hle]] Hn]; [by left|]. right. split_and!; [done..|]. intros Hle'. apply Hn. by right.
Qed.

Lemma filter_after f e y :
  filter_ok (after_row f (Some e)) y = filter_ok (after_row f None) y && older e y.
Proof. unfold filter_ok, older. cbn. by rewrite andb_true_r. Qed.

(** Distinct rows are ordered one way only. *)
Lemma rows_antisymm t a b :
  rows_ok t -> a ∈ rows (tb_execs t) -> b ∈ rows (tb_execs t) -> newest_first a b -> newest_first b a -> a = b.
Proof.
  intros Hok Ha Hb Hab Hba. assert (ex_id a = ex_id b) as Hid.
  { destruct Hab as [?|[? H1]], Hba as [?|[? H2]]; try lia. by apply (anti_symm String.le). }
  apply list_elem_of_fmap in Ha as ([k x] & -> & Hx%elem_of_map_to_list).
  apply list_elem_of_fmap in Hb as ([k' y] & -> & Hy%elem_of_map_to_list). cbn in *.
  destruct (Hok k x Hx) as [Ex _], (Hok k' y Hy) as [Ey _]. congruence.
Qed.

Section Paging.
  Context (t : Tables) (f : ExecutionFilter) (limit : Z).
  Context (Hok : rows_ok t) (Hlim : ef_limit f = Some limit) (Hpos : 0 < limit <= MAX_EXECUTIONS_LIMIT).

Definition matching : list Execution :=
  base.filter (fun e => filter_ok (after_row f None) e = true) (rows (tb_execs t)).

Lemma page_spec cursor : exists page,
  (run (MkSqlite t []) (ListExecutions (after_row f cursor))).2 = Ok page
  /\ slice newest_first 0 limit (base.filter (fun e => filter_ok (after_row f cursor) e = true) (rows (tb_execs t))) page.
Proof.
  destruct (faultless_run (ListExecutions (after_row f cursor)) (MkSqlite t []) eq_refl eq_refl)
    as (s' & page & Hr & _ & _ & Hs).
  exists page. rewrite Hr. split; [done|]. cbn [ef_limit after_row] in Hs. rewrite Hlim in Hs. cbn [default] in Hs.
  rewrite Z.min_l in Hs; [done|]. pose proof Hpos as [_ H]. exact H.
Qed.

Lemma matching_row y : y ∈ matching -> y ∈ rows (tb_execs t).
Proof. by intros [_ ?]%list_elem_of_filter. Qed.

(** What the cursor selects is what follows it. *)
Lemma cursor_selects before e rest :
  (before ++ e :: rest)%list ≡ₚ matching -> StronglySorted newest_first (before ++ e :: rest)%list ->
  base.filter (fun y => filter_ok (after_row f (Some e)) y = true) (rows (tb_execs t)) ≡ₚ rest.
Proof.
  intros Hperm Hsort. apply StronglySorted_app in Hsort as (Hcross & _ & Hrest).
  apply StronglySorted_inv in Hrest as [_ Hafter]. rewrite Forall_forall in Hafter.
  assert (NoDup (before ++ e :: rest)%list) as Hnd.
  { rewrite Hperm. eapply NoDup_fmap_1, selected_ids_nodup, Hok. }
  assert (forall y, y ∈ (before ++ e :: rest)%list -> y ∈ rows (tb_execs t)) as Hrow
    by (intros y; rewrite Hperm; apply matching_row).
  rewrite (list_filter_iff _ (fun y => older e y = true /\ filter_ok (after_row f None) y = true))
    by (intros y; rewrite filter_after, andb_true_iff; tauto).
  rewrite <- (list_filter_filter (fun y => older e y = true) (fun y => filter_ok (after_row f None) y = true)).
  fold matching. rewrite <- Hperm, filter_app, filter_cons_False.
  - rewrite (list_filter_none _ before), list_filter_all; [done|..]; apply Forall_forall; intros y Hy.
    + apply older_iff. split; [by apply Hafter|]. intros Hye. apply NoDup_app in Hnd as (_ & _ & Hnd).
      apply NoDup_cons in Hnd as [Hni _]. apply Hni.
      rewrite (rows_antisymm t e y); [done|exact Hok|apply Hrow, elem_of_app; right; left| |by apply Hafter|done].
      apply Hrow, elem_of_app. right. by right.
    + rewrite older_iff. intros [_ Hn]. apply Hn. apply Hcross; [done|left].
  - rewrite older_iff. tauto.
Qed.

Lemma page_resumes seen rest :
  (seen ++ rest)%list ≡ₚ matching -> StronglySorted newest_first (seen ++ rest)%list ->
  (run (MkSqlite t []) (ListExecutions (after_row f (last seen)))).2 = Ok (take (Z.to_nat limit) rest).
Proof.
  intros Hperm Hsort. destruct (page_spec (last seen)) as (page & -> & sorted & Hp & Hs & ->).
  change (drop (Z.to_nat 0) sorted) with sorted. do 2 f_equal.
  assert (sorted ≡ₚ rest) as Hsr.
  { rewrite Hp. destruct seen as [|e seen _] using rev_ind; [by rewrite <- Hperm|].
    rewrite last_snoc. rewrite <- (assoc_L app) in Hperm, Hsort. by eapply cursor_selects. }
  apply StronglySorted_app in Hsort as (_ & _ & Hrest).
  eapply StronglySorted_unique_strong; [|done..].
  intros a b Ha Hb. apply (rows_antisymm t); [done|..]; apply matching_row; rewrite <- Hperm; apply elem_of_app; right;
    [by rewrite <- Hsr|done].
Qed.

Lemma history_rest fuel : forall seen rest,
  (seen ++ rest)%list ≡ₚ matching -> StronglySorted newest_first (seen ++ rest)%list -> (length rest < fuel)%nat ->
  history fuel f (last seen) t = rest.
Proof.
  induction fuel as [|fuel IH]; intros seen rest Hperm Hsort Hfuel; [lia|]. cbn [history].
  rewrite (page_resumes seen rest) by done. destruct rest as [|r rest]; [by rewrite take_nil|].
  destruct (Z.to_nat limit) as [|n] eqn:En; [lia|]. cbn [take].
  destruct (last (r :: take n rest)) as [e|] eqn:El; [|by apply last_None in El].
  assert (last (seen ++ r :: take n rest) = Some e) as Hl by (by rewrite last_app, El).
  rewrite <- Hl, (IH _ (drop n rest)); [by cbn; rewrite take_drop|..].
  - by rewrite <- (assoc_L app); cbn; rewrite take_drop.
  - by rewrite <- (assoc_L app); cbn; rewrite take_drop.
  - rewrite length_drop. cbn in Hfuel. lia.
Qed.
End Paging.

(** The cursor walks a history completely: a caller that asks, page by
    page, for the rows after the last one it saw reads every matching row
    exactly once, newest first, however many rows share a creation time, and
    reaches the end after at most one request per row and one more. *)
Theorem paging_reads_whole_history t f limit fuel :
  rows_ok t -> ef_limit f = Some limit -> 0 < limit <= MAX_EXECUTIONS_LIMIT ->
  (size (tb_execs t) < fuel)%nat ->
  history fuel f None t ≡ₚ base.filter (fun e => filter_ok (after_row f None) e = true) (rows (tb_execs t))
  /\ StronglySorted newest_first (history fuel f None t)
  /\ NoDup (map ex_id (history fuel f None t)).
Proof.
  intros Hok Hlim Hpos Hfuel.
  assert (history fuel f None t = merge_sort newest_first (matching t f)) as ->.
  { apply (history_rest t f limit Hok Hlim Hpos fuel []); cbn [app].
    - apply merge_sort_Permutation.
    - apply StronglySorted_merge_sort; apply _.
    - rewrite merge_sort_Permutation. unfold matching.
      eapply Nat.le_lt_trans; [apply length_filter|]. unfold rows. rewrite length_fmap.
      by rewrite length_map_to_list. }
  pose proof (merge_sort_Permutation newest_first (matching t f)) as Hp. split_and!; [done| |].
  - apply StronglySorted_merge_sort; apply _.
  - rewrite Hp. by apply selected_ids_nodup.
Qed.

(** Three rows created at the same moment, read one at a time. *)
Definition demo_history : Tables :=
  demo_tables [demo_queued "a" "web:hook" 0 ∅; demo_queued "b" "web:hook" 0 ∅; demo_queued "c" "web:hook" 0 ∅].
Definition demo_filter : ExecutionFilter := {|
  ef_job_key := Some "web:hook"; ef_job_key_contains := None; ef_job_keys := None; ef_states := [];
  ef_runner_id := None; ef_since := None; ef_until := None; ef_until_id := None; ef_limit := Some 1 |}.

Lemma paging_reads_whole_history_witness :
  map ex_id (history 5 demo_filter None demo_history) = ["c"; "b"; "a"]
  /\ NoDup (map ex_id (history 5 demo_filter None demo_history)).
Proof.
  split; [vm_compute; reflexivity|].
  apply (paging_reads_whole_history demo_history demo_filter 1 5); [|reflexivity|split; [lia|vm_compute; congruence]|].
  - intros id e He. apply elem_of_list_to_map_2, list_elem_of_fmap in He as (x & [= -> ->] & Hx).
    split; [reflexivity|]. repeat (apply elem_of_cons in Hx as [->|Hx]; [repeat split|]). by apply not_elem_of_nil in Hx.
  - vm_compute. lia.
Defined.
