(* ===== verification/Requeue.v ===== *)
(** * From rows back to work items

    Models how the server turns queued execution rows into work items again:
    [work_item_from_execution], [job_config_from_job_def] and the restore at
    boot of [croniq-server/src/loader.rs], and the requeues of
    [croniq-server/src/watchdog.rs] that the watchdog shares with the poll
    handler. The order in which a hash map is visited is an argument. *)

From S2P Require Import Prelude RustStr Chrono RunnerTypes Queue Registry RunnerApi.
From S2P Require Import Durations Execution JobConfig Scheduler Store StoreCalls Server.

Local Open Scope string_scope.
Local Open Scope Z_scope.

(** ** [loader.rs] *)

(** [RetryConfig::default], [DeadLetterConfig::default], [RunnerConfig::default] *)
Definition retry_config_default : RetryConfig := {|
  rcf_strategy := "exponential"; rcf_max_attempts := 3; rcf_base := Some "2s";
  rcf_cap := Some "30s"; rcf_delay := None; rcf_step := None;
  rcf_jitter := Some (SpecFloat.binary_normalize 53 1024 1 (-2) false) |}.
Definition dead_letter_config_default : DeadLetterConfig := {|
  dlc_enabled := true; dlc_retention := Some "30d"; dlc_operator_hint := None;
  dlc_replay_max_age := None |}.
Definition runner_config_default : RunnerConfig :=
  {| rc_require := []; rc_prefer := []; rc_exclude := []; rc_sticky := false |}.

Definition option_or {A} (a b : option A) : option A := match a with Some _ => a | None => b end.

(** [job_config_from_job_def] *)
Definition job_config_from_job_def (job_def : JobDefinition) : JobConfig :=
  let '(ns, name) := match split_once ":" (jd_job_key job_def) with
                     | Some p => p
                     | None => ("default", jd_job_key job_def)
                     end in
  {| jc_key := jd_job_key job_def; jc_namespace := ns; jc_name := name; jc_variant := None;
     jc_description := jd_description job_def; jc_schedule := CDisabled;
     jc_schedule_summary := "api"; jc_timezone := None; jc_calendar := None; jc_window := None;
     jc_not_before := None; jc_not_after := None; jc_runner := runner_config_default;
     jc_retry := match jd_max_retries job_def with
                 | Some n => {| rcf_strategy := rcf_strategy retry_config_default;
                                rcf_max_attempts := n;
                                rcf_base := rcf_base retry_config_default;
                                rcf_cap := rcf_cap retry_config_default;
                                rcf_delay := rcf_delay retry_config_default;
                                rcf_step := rcf_step retry_config_default;
                                rcf_jitter := rcf_jitter retry_config_default |}
                 | None => retry_config_default
                 end;
     jc_timeout := option_or (jd_timeout job_def) (Some "5m");
     jc_dead_letter := {|
       dlc_enabled := default true (jd_dead_letter_enabled job_def);
       dlc_retention := option_or (jd_dead_letter_retention job_def)
                          (dlc_retention dead_letter_config_default);
       dlc_operator_hint := jd_dead_letter_operator_hint job_def;
       dlc_replay_max_age := jd_dead_letter_replay_max_age job_def |};
     jc_metadata := jd_metadata job_def; jc_execution_mode := ModeQueued;
     jc_catch_up := CatchUpAll; jc_catch_up_explicit := false; jc_queue_ttl := None;
     jc_max_queue_depth := None; jc_keep_last := None; jc_max_concurrent := None;
     jc_concurrency_group := None; jc_coalesce := false; jc_priority := PNormal;
     jc_tags := jd_tags job_def; jc_run_on_register := false |}.

(** [execution_was_requested] of [compile.rs] *)
Definition REQUESTED_METADATA_KEY : string := "__requested".
Definition execution_was_requested (metadata : gmap string string) : bool :=
  bool_decide (is_Some (metadata !! REQUESTED_METADATA_KEY)).

Section Requeues.
  Context `{J : Json} `{E : Env} {St : Type} `{SO : StoreOps St}.

(** [work_item_from_execution] *)
Definition stamped_capabilities (ex : Execution) (key : string) (fallback : list string)
    : list string :=
  default fallback (v ← ex_metadata ex !! key; parse_json_strings v).
Definition work_item_from_execution (ex : Execution) (job : JobConfig) : WorkItem := {|
  execution_id := ex_id ex;
  wi_job_key := ex_job_key ex;
  fire_at := ex_fire_at ex;
  scheduled_for := ex_scheduled_for ex;
  attempt := ex_attempt ex;
  require := stamped_capabilities ex REQUIRE_METADATA_KEY (rc_require (jc_runner job));
  prefer := stamped_capabilities ex PREFER_METADATA_KEY (rc_prefer (jc_runner job));
  metadata := of_map (ex_metadata ex);
  timeout := effective_timeout (ex_metadata ex) (jc_timeout job);
  is_ephemeral := false |}.

(** [queue.write().await.enqueue(item)] *)
Definition enqueue_item (item : WorkItem) : M St bool :=
  update_app (fun a => let '(q, ok) := enqueue (queue a) item in (set_queue q a, ok)).

(** [cancel_on_restore] *)
Fixpoint cancel_each (now : instant) (execs : list Execution) : M St nat :=
  match execs with
  | [] => mret 0%nat
  | ex :: execs =>
      r ← call (CancelExecution (ex_id ex) now);
      n ← cancel_each now execs;
      mret (if is_ok r then S n else n)
  end.
Definition cancel_on_restore (execs : list Execution) : M St nat :=
  now ← utc_now; cancel_each now execs.

Definition enqueue_rows (job : JobConfig) (execs : list Execution) : M St unit :=
  each (fun ex => _ ← enqueue_item (work_item_from_execution ex job); mret tt) execs.

Definition newest_fire_first (a b : Execution) : Prop := ex_fire_at b <= ex_fire_at a.
#[local] Instance newest_fire_first_dec : RelDecision newest_fire_first.
Proof. unfold newest_fire_first. intros a b. apply _. Defined.

(** The body of the loop of [restore_queued_executions] for one job: how many
    executions it restored. *)
Definition restore_job (job : option JobConfig) (all_execs : list Execution) : M St nat :=
  match job with
  | None => mret 0%nat
  | Some job =>
      let requested := List.filter (fun ex => execution_was_requested (ex_metadata ex)) all_execs in
      let execs := List.filter (fun ex => negb (execution_was_requested (ex_metadata ex))) all_execs in
      _ ← enqueue_rows job requested;
      let restored := length requested in
      match execs with
      | [] => mret restored
      | _ =>
          if bool_decide (jc_execution_mode job = ModeEphemeral)
          then _ ← cancel_on_restore execs; mret restored
          else match jc_catch_up job with
          | CatchUpNone => _ ← cancel_on_restore execs; mret restored
          | CatchUpLatest =>
              match merge_sort newest_fire_first execs with
              | [] => mret restored
              | latest :: rest =>
                  _ ← enqueue_rows job [latest];
                  _ ← (match rest with
                       | [] => mret 0%nat
                       | _ => cancel_on_restore rest
                       end);
                  mret (restored + 1)%nat
              end
          | CatchUpAll => _ ← enqueue_rows job execs; mret (restored + length execs)%nat
          end
      end
  end.

(** [restore_queued_executions]; [order] is the order in which the groups are
    visited. *)
Definition of_job (key : string) (l : list Execution) : list Execution :=
  List.filter (fun ex => String.eqb (ex_job_key ex) key) l.
Fixpoint restore_groups (jobs : gmap string JobConfig) (execs : list Execution)
    (order : list string) : M St nat :=
  match order with
  | [] => mret 0%nat
  | key :: order =>
      n ← restore_job (jobs !! key) (of_job key execs);
      m ← restore_groups jobs execs order;
      mret (n + m)%nat
  end.
Definition restore_queued_executions (jobs : list JobConfig) (order : list string) : M St nat :=
  r ← call (FindQueued 1000);
  match r with
  | Err _ => mret 0%nat
  | Ok execs => restore_groups (jobs_by_key jobs) execs order
  end.

(** ** [watchdog.rs]: requeues *)

(** [enqueue_requeued_execution] *)
Definition enqueue_requeued_execution (resolve : string -> M St (option JobConfig))
    (exec_id : string) : M St bool :=
  r ← call (GetExecution exec_id);
  match r with
  | Ok (Some ex) =>
      if negb (has_state EQueued ex) then mret false
      else
        job ← resolve (ex_job_key ex);
        match job with
        | None => mret false
        | Some job => enqueue_item (work_item_from_execution ex job)
        end
  | Ok None | Err _ => mret false
  end.

(** [requeue_abandoned_for_runner] *)
Definition requeue_abandoned_for_runner (resolve : string -> M St (option JobConfig))
    (runner_id : string) (now : instant) : M St (list string) :=
  r ← call (RequeueAbandoned runner_id now);
  match r with
  | Err _ => mret []
  | Ok ids =>
      _ ← each (fun id => _ ← enqueue_requeued_execution resolve id; mret tt) ids;
      mret ids
  end.

(** [record_requeue_in_log] *)
Definition record_requeue_in_log (ex : Execution) (now : instant) (message : string) : M St unit :=
  let fields := match ex_runner_id ex with
                | Some rid => <["runner_id" := rid]> ∅
                | None => ∅ : gmap string string
                end in
  let fields := match ex_claimed_at ex with
                | Some at_ => <["claimed_at" := to_rfc3339 at_]> fields
                | None => fields
                end in
  id ← new_uuid;
  _ ← call (AppendLogs [{| le_id := id; le_execution_id := ex_id ex; le_timestamp := now;
                           le_level := "warn"; le_message := message; le_fields := fields;
                           le_seq := 0 |}]);
  mret tt.

Definition UNREPORTED_CLAIM_GRACE_SECS : Z := 60.
Definition RESTART_RECONCILE_LIMIT : Z := 10000.

Inductive ClaimLoss := Unreported | BeforeRestart.
Definition is_before_restart (l : ClaimLoss) : bool :=
  match l with BeforeRestart => true | Unreported => false end.

Definition mentioned (id : string) (l : list string) : bool := existsb (String.eqb id) l.

(** The leases of this runner it no longer mentions, visited in [order]. *)
Definition unreported_leases (a : AppState) (rid : string) (reported : list string)
    (cutoff : instant) (order : list string) : list string :=
  List.filter (fun id =>
    match lease_renewals a !! id with
    | Some lease => String.eqb (lr_runner_id lease) rid && (renewed_at lease <? cutoff)
                    && negb (mentioned id reported)
    | None => false
    end) order.

(** The rows claimed under a previous process, not reported and not found yet. *)
Fixpoint add_before_restart (rid : string) (reported : list string) (rows : list Execution)
    (candidates : list (string * ClaimLoss)) : list (string * ClaimLoss) :=
  match rows with
  | [] => candidates
  | ex :: rows =>
      let candidates :=
        if bool_decide (ex_runner_id ex = Some rid) && negb (mentioned (ex_id ex) reported)
           && negb (existsb (fun c => String.eqb c.1 (ex_id ex)) candidates)
        then (candidates ++ [(ex_id ex, BeforeRestart)])%list else candidates in
      add_before_restart rid reported rows candidates
  end.

Definition forget_reconciled (rid : string) (a : AppState) : AppState :=
  set_reconciled (restart_reconciled a ∖ {[rid]}) a.

Definition loss_line (rid claimed_at : string) (loss : ClaimLoss) : string :=
  match loss with
  | Unreported =>
      "claim by runner " ++ rid ++ " at " ++ claimed_at ++ " was lost before the runner "
      ++ "started the execution (it stopped reporting it in flight) — requeued"
  | BeforeRestart =>
      "claim by runner " ++ rid ++ " at " ++ claimed_at ++ " predates a server restart, "
      ++ "and the runner's first poll afterwards did not report it in flight — "
      ++ "requeued"
  end.

(** The body of the loop of [release_unreported_claims]: the ids it requeued. *)
Definition release_one (resolve : string -> M St (option JobConfig)) (rid : string)
    (now : instant) (candidate : string * ClaimLoss) : M St (list string) :=
  let '(id_str, loss) := candidate in
  let drop_lease := modify_app (fun a => clear_lease a rid id_str) in
  let retry := modify_app (fun a => if is_before_restart loss then forget_reconciled rid a else a) in
  match parse_uuid id_str with
  | None => _ ← drop_lease; mret []
  | Some id =>
      r ← call (GetExecution id);
      match r with
      | Ok None => _ ← drop_lease; mret []
      | Err _ => _ ← retry; mret []
      | Ok (Some ex) =>
          if negb (has_state EClaimed ex) || negb (bool_decide (ex_runner_id ex = Some rid))
          then _ ← drop_lease; mret []
          else
            r ← call (RequeueIfClaimed (ex_id ex) now);
            match r with
            | Ok false => _ ← drop_lease; mret []
            | Err _ => _ ← retry; mret []
            | Ok true =>
                let claimed_at := default "" (to_rfc3339 <$> ex_claimed_at ex) in
                _ ← record_requeue_in_log ex now (loss_line rid claimed_at loss);
                _ ← record_event "system" None "execution.unreported_claim_requeued" "execution"
                      (Some id_str);
                _ ← modify_app (fun a => set_registry (release (registry a) rid id_str).1 a);
                _ ← drop_lease;
                _ ← enqueue_requeued_execution resolve (ex_id ex);
                mret [ex_id ex]
            end
      end
  end.

(** [release_unreported_claims] *)
Definition release_unreported_claims (resolve : string -> M St (option JobConfig))
    (order : list string) (rid : string) (reported : list string) (now : instant)
    : M St (list string) :=
  let cutoff := now - seconds UNREPORTED_CLAIM_GRACE_SECS in
  stale ← get_app (fun a => unreported_leases a rid reported cutoff order);
  let candidates := map (fun id => (id, Unreported)) stale in
  first_poll ← update_app (fun a =>
    (set_reconciled ({[rid]} ∪ restart_reconciled a) a, bool_decide (rid ∉ restart_reconciled a)));
  candidates ←
    (if first_poll : bool then
       started ← get_app started_at;
       r ← call (ListClaimedOlderThan started RESTART_RECONCILE_LIMIT);
       match r with
       | Ok rows => mret (add_before_restart rid reported rows candidates)
       | Err _ => _ ← modify_app (forget_reconciled rid); mret candidates
       end
     else mret candidates);
  collect (release_one resolve rid now) candidates.
End Requeues.
