(* ===== verification/Dispatch.v ===== *)
(** * Dispatch: the server's poll and completion handlers

    Models the runner-facing handlers of [croniq-server/src/api/mod.rs]:
    [handle_poll] with its lease refresh, takeover and release of lost claims,
    [try_dequeue_for] with the per-job and per-group concurrency guards,
    [handle_complete] and [deregister_runner]. The caller's authorization is an
    argument; a long poll is a sequence of rounds between which other tasks
    change the state, given as a list of such changes that ends with the
    deadline. The watchdog's counters are metrics and left out. *)

From S2P Require Import Prelude RustStr Chrono RunnerTypes Queue Registry RunnerApi.
From S2P Require Import Durations Execution JobConfig Store StoreCalls Server Requeue.

Local Open Scope string_scope.
Local Open Scope Z_scope.

Definition MAX_CONCURRENT_METADATA_KEY : string := "__max_concurrent".
Definition CONCURRENCY_GROUP_MAX_METADATA_KEY : string := "__concurrency_group_max".

Section Guards.
  Context `{J : Json}.

(** [concurrency_limit] *)
Definition positive (n : Z) : option Z := if 0 <? n then Some n else None.
Definition concurrency_limit (item : WorkItem) : option Z :=
  s ← get_str (metadata item) MAX_CONCURRENT_METADATA_KEY;
  n ← parse_u64 s;
  positive n.

(** [concurrency_group] *)
Definition concurrency_group (item : WorkItem) : option (string * Z) :=
  group ← get_str (metadata item) CONCURRENCY_GROUP_METADATA_KEY;
  if str_is_empty group then None
  else
    s ← get_str (metadata item) CONCURRENCY_GROUP_MAX_METADATA_KEY;
    n ← parse_u64 s;
    limit ← positive n;
    Some (group, limit).
End Guards.

Record PollResponse `{J : Json} := {
  ps_work : list WorkAssignment;
  ps_cancel : list string
}.
Definition empty_response `{J : Json} : PollResponse := {| ps_work := []; ps_cancel := [] |}.

(** [CompletionStatus] of [types.rs], [CompletionEvent] of [completion.rs] *)
Inductive CompletionStatus := CSuccess | CFailure | CCancelled.
#[export] Instance CompletionStatus_eq_dec : EqDecision CompletionStatus.
Proof. solve_decision. Defined.
Record CompletionEvent := {
  ce_runner_id : string;
  ce_execution_id : string;
  ce_status : CompletionStatus;
  ce_error : option string;
  ce_duration_ms : Z;
  ce_attempt : Z
}.

Definition HTTP_OK : Z := 200.
Definition HTTP_CONFLICT : Z := 409.
Definition HTTP_UNAVAILABLE : Z := 503.

Section Handlers.
  Context `{J : Json} `{E : Env} {St : Type} `{SO : StoreOps St}.
  (** [state.store.is_some()]; [main.rs] always opens one. *)
  Context (has_store : bool).
  (** [state.dsl_jobs], when a lookup can read it. *)
  Context (dsl_jobs : option (list JobConfig)).

(** ** The guards *)

Abbreviation Counts := (gmap string Z).

(** [has_free_concurrency_slot] *)
Definition has_free_concurrency_slot (item : WorkItem) (batch_claims cache : Counts)
    : M St (Counts * bool) :=
  match concurrency_limit item with
  | None => mret (cache, true)
  | Some limit =>
      let batch := default 0 (batch_claims !! wi_job_key item) in
      if limit <=? batch then mret (cache, false)
      else if negb has_store then mret (cache, true)
      else match cache !! wi_job_key item with
      | Some n => mret (cache, wrap_u64 (n + batch) <? limit)
      | None =>
          r ← call (CountInStates (wi_job_key item) [EClaimed]);
          match r with
          | Ok n => mret (<[wi_job_key item := n]> cache, wrap_u64 (n + batch) <? limit)
          | Err _ => mret (cache, true)
          end
      end
  end.

(** [has_free_group_slot] *)
Definition has_free_group_slot (item : WorkItem) (batch_claims cache : Counts)
    : M St (Counts * bool) :=
  match concurrency_group item with
  | None => mret (cache, true)
  | Some (group, limit) =>
      let batch := default 0 (batch_claims !! group) in
      if limit <=? batch then mret (cache, false)
      else if negb has_store then mret (cache, true)
      else match cache !! group with
      | Some n => mret (cache, wrap_u64 (n + batch) <? limit)
      | None =>
          r ← call (CountInGroup group [EClaimed]);
          match r with
          | Ok n => mret (<[group := n]> cache, wrap_u64 (n + batch) <? limit)
          | Err _ => mret (cache, false)
          end
      end
  end.

(** The maps of one poll: claims handed out in this batch and counts read from
    the store, per job and per group. *)
Record Batch := MkBatch {
  batch_claims : Counts;
  inflight_cache : Counts;
  group_batch_claims : Counts;
  group_inflight_cache : Counts
}.
Definition batch_new : Batch := MkBatch ∅ ∅ ∅ ∅.

(** The closure passed to [dequeue_for_where_at]. *)
Definition slot_free (item : WorkItem) (b : Batch) : M St (Batch * bool) :=
  '(c, ok) ← has_free_concurrency_slot item (batch_claims b) (inflight_cache b);
  let b := MkBatch (batch_claims b) c (group_batch_claims b) (group_inflight_cache b) in
  if ok : bool then
    '(g, ok) ← has_free_group_slot item (group_batch_claims b) (group_inflight_cache b);
    mret (MkBatch (batch_claims b) (inflight_cache b) (group_batch_claims b) g, ok)
  else mret (b, false).

(** ** Dequeueing under the guards *)

(** The scan of [WorkQueue::dequeue_for_where_at] with a predicate that reads
    and writes state: [Queue.scan_best], one item at a time. *)
Fixpoint scan_best_st (now : instant) (caps : list string)
    (eligible : WorkItem -> Batch -> M St (Batch * bool))
    (l : list WorkItem) (i : nat) (best : option (Z * nat)) (b : Batch)
    : M St (Batch * option (Z * nat)) :=
  match l with
  | [] => mret (b, best)
  | item :: l =>
      if negb (has_all caps (require item)) then scan_best_st now caps eligible l (S i) best b
      else
        let rank := effective_priority item now in
        if match best with Some (best_rank, _) => rank <=? best_rank | None => false end
        then scan_best_st now caps eligible l (S i) best b
        else
          '(b, ok) ← eligible item b;
          if ok : bool then
            if rank =? CEILING then mret (b, Some (rank, i))
            else scan_best_st now caps eligible l (S i) (Some (rank, i)) b
          else scan_best_st now caps eligible l (S i) best b
  end.

Definition dequeue_where_st (now : instant) (caps : list string) (b : Batch)
    : M St (Batch * option WorkItem) :=
  q ← get_app queue;
  '(b, best) ← scan_best_st now caps slot_free (items q) 0 None b;
  match best with
  | Some (_, i) =>
      match items q !! i with
      | Some item =>
          _ ← modify_app (set_queue (MkQueue (delete i (items q))
                                       (dec_count (per_job_count q) (wi_job_key item))));
          mret (b, Some item)
      | None => mret (b, None)
      end
  | None => mret (b, None)
  end.

Definition bump (m : Counts) (k : string) : Counts := <[k := wrap_u64 (default 0 (m !! k) + 1)]> m.
Definition count_pick (item : WorkItem) (b : Batch) : Batch :=
  MkBatch (bump (batch_claims b) (wi_job_key item)) (inflight_cache b)
    (match concurrency_group item with
     | Some (group, _) => bump (group_batch_claims b) group
     | None => group_batch_claims b
     end) (group_inflight_cache b).

(** [while items.len() < capacity] *)
Fixpoint pick_items (now : instant) (caps : list string) (capacity : nat) (b : Batch)
    : M St (list WorkItem) :=
  match capacity with
  | O => mret []
  | S capacity =>
      '(b, next) ← dequeue_where_st now caps b;
      match next with
      | None => mret []
      | Some item =>
          items ← pick_items now caps capacity (count_pick item b);
          mret (item :: items)
      end
  end.

(** [items.retain(..)]: the store-side claim of one item. *)
Definition keep_claimed (rid : string) (now : instant) (item : WorkItem) : M St bool :=
  if is_ephemeral item then mret true
  else match parse_uuid (execution_id item) with
  | None => mret true
  | Some id =>
      r ← call (ClaimExecution id rid now);
      mret match r with
           | Ok _ => true
           | Err (Conflict _) | Err (NotFound _) => false
           | Err (Database _) => match concurrency_group item with
                                 | Some _ => false
                                 | None => true
                                 end
           end
  end.
Fixpoint retain_claimed (rid : string) (now : instant) (l : list WorkItem) : M St (list WorkItem) :=
  match l with
  | [] => mret []
  | item :: l =>
      keep ← keep_claimed rid now item;
      rest ← retain_claimed rid now l;
      mret (if keep : bool then item :: rest else rest)
  end.

(** What the registry makes of the items: the ones it took and the ones it
    refused. *)
Fixpoint register_claims (rid : string) (l : list WorkItem) (reg : RunnerRegistry)
    : RunnerRegistry * list WorkItem * list WorkItem :=
  match l with
  | [] => (reg, [], [])
  | item :: l =>
      let '(reg, claimed) := claim reg rid (execution_id item) in
      let '(reg, taken, refused) := register_claims rid l reg in
      if claimed : bool then (reg, item :: taken, refused) else (reg, taken, item :: refused)
  end.

(** Ephemeral tallies: how many items of each job. *)
Definition tally_items (f : TallyField) (l : list WorkItem) (a : AppState) : AppState :=
  foldl (fun a item => if is_ephemeral item then bump_ephemeral a (wi_job_key item) 1 f else a) a l.

(** The body of the loop over the refused items. *)
Definition hand_back (now : instant) (item : WorkItem) : M St unit :=
  back ← match (if has_store then parse_uuid (execution_id item) else None) with
         | Some id => r ← call (RequeueIfClaimed id now);
                      mret match r with Ok requeued => requeued | Err _ => false end
         | None => mret true
         end;
  if back : bool then _ ← enqueue_item item; mret tt else mret tt.

(** [try_dequeue_for] *)
Definition try_dequeue_for (rid : string) (caps : list string) (capacity : nat)
    : M St (list WorkAssignment) :=
  dispatch_now ← utc_now;
  items ← pick_items dispatch_now caps capacity batch_new;
  match items with
  | [] => mret []
  | _ =>
      items ← (if has_store then now ← utc_now; retain_claimed rid now items else mret items);
      '(taken, refused) ← update_app (fun a =>
        let '(reg, taken, refused) := register_claims rid items (registry a) in
        (set_registry reg a, (taken, refused)));
      _ ← (match List.filter (fun item => negb (is_ephemeral item)) refused with
           | [] => mret tt
           | refused => now ← utc_now; each (hand_back now) refused
           end);
      _ ← modify_app (fun a => tally_items TDropped refused (tally_items TDispatched taken a));
      let assignments := map assignment_of taken in
      now ← utc_now;
      _ ← modify_app (fun a => touch_leases a rid (map wa_execution_id assignments) now);
      mret assignments
  end.

(** ** The poll handler *)

(** The lookups the handlers pass to the requeues. *)
Definition lookup_job (key : string) : M St (option JobConfig) :=
  match jobs ← dsl_jobs; find (fun j => String.eqb (jc_key j) key) jobs with
  | Some job => mret (Some job)
  | None =>
      r ← call (GetJobDefinition key);
      mret match r with Ok (Some def) => Some (job_config_from_job_def def) | _ => None end
  end.

(** [leases_held_by] *)
Definition held_in_store (rid id : string) : M St bool :=
  match parse_uuid id with
  | None => mret false
  | Some id =>
      r ← call (GetExecution id);
      mret match r with
           | Ok (Some ex) => has_state EClaimed ex && bool_decide (ex_runner_id ex = Some rid)
           | _ => false
           end
  end.
Definition holds_lease (a : AppState) (rid id : string) : bool :=
  match lease_renewals a !! id with
  | Some l => String.eqb (lr_runner_id l) rid
  | None => false
  end.
Definition leases_held_by (rid : string) (inflight : list string) : M St (list string) :=
  app ← get_app (fun a => a);
  if negb has_store then mret inflight
  else collect (fun id =>
         held ← (if holds_lease app rid id then mret true else held_in_store rid id);
         mret (if held : bool then [id] else [])) inflight.

(** The requeue of a taken-over session: spawned when the Croniqfile's jobs are
    known, inline otherwise. *)
Definition takeover_requeue (rid : string) : M St unit :=
  now ← utc_now; _ ← requeue_abandoned_for_runner lookup_job rid now; mret tt.

Definition is_takeover {A} (o : result RegisterOutcome A) : bool :=
  match o with Ok (RegTookOver _) => true | _ => false end.

(** One round of the long poll. *)
Definition poll_round (m : MaintenanceState) (rid : string) (caps : list string) (capacity : nat)
    : M St PollResponse :=
  now ← utc_now;
  work ← (if is_active m now then mret [] else try_dequeue_for rid caps capacity);
  cancel ← update_app (fun a => drain_cancels a rid);
  mret {| ps_work := work; ps_cancel := cancel |}.

Definition is_empty_response (r : PollResponse) : bool :=
  match ps_work r, ps_cancel r with [], [] => true | _, _ => false end.

(** The loop: a wake-up is what the other tasks did meanwhile, and the
    maintenance state they left; after the last one the deadline passes. *)
Definition WakeUp : Type := (World St -> World St) * MaintenanceState.
Definition woken (wake : World St -> World St) : M St unit := fun w => (wake w, tt).
Fixpoint long_poll (m : MaintenanceState) (rid : string) (caps : list string) (capacity : nat)
    (wakes : list WakeUp) : M St PollResponse :=
  r ← poll_round m rid caps capacity;
  if negb (is_empty_response r) then mret r
  else match wakes with
  | [] => mret empty_response
  | (wake, m) :: wakes => _ ← woken wake; long_poll m rid caps capacity wakes
  end.

(** The response, and the runner ids whose takeover requeue was spawned. *)
Definition handle_poll (refused : option Z) (m : MaintenanceState) (order : list string)
    (wakes : list WakeUp) (req : PollRequest)
    : M St (Z * PollResponse * list string) :=
  match refused with
  | Some status => mret (status, empty_response, [])
  | None =>
      let rid := pr_runner_id req in
      reg_now ← utc_now;
      outcome ← update_app (fun a =>
        let '(reg, o) := register_or_update (registry a) reg_now rid (pr_capabilities req)
                           (pr_max_inflight req) (pr_inflight req) (pr_instance_id req)
                           (pr_tags req) in
        (set_registry reg a, o));
      match outcome with
      | Err _ => mret (HTTP_CONFLICT, empty_response, [])
      | Ok o =>
          let took_over := is_takeover (A := string) (Ok o) in
          flapping ← (if took_over then
                        now ← utc_now;
                        update_app (fun a => let '(reg, f) := record_takeover (registry a) rid now in
                                             (set_registry reg a, f))
                      else mret false);
          held ← leases_held_by rid (pr_inflight req);
          now ← utc_now;
          _ ← modify_app (fun a => touch_leases a rid held now);
          spawned ←
            (if took_over then
               if has_store then
                 _ ← record_event "system" None "runner.takeover" "runner" (Some rid);
                 _ ← (if flapping : bool
                      then record_event "system" None "runner.identity_flapping" "runner" (Some rid)
                      else mret tt);
                 match dsl_jobs with
                 | Some _ => mret [rid]
                 | None => _ ← takeover_requeue rid; mret []
                 end
               else mret []
             else mret []);
          _ ← (if negb took_over && has_store then
                 now ← utc_now;
                 _ ← release_unreported_claims lookup_job order rid (pr_inflight req) now;
                 mret tt
               else mret tt);
          let capacity := saturating_sub (pr_max_inflight req)
                            (Z.of_nat (length (pr_inflight req))) in
          if capacity =? 0 then
            cancel ← update_app (fun a => drain_cancels a rid);
            mret (HTTP_OK, {| ps_work := []; ps_cancel := cancel |}, spawned)
          else
            r ← long_poll m rid (pr_capabilities req) (Z.to_nat capacity) wakes;
            mret (HTTP_OK, r, spawned)
      end
  end.

(** ** Completion and deregistration *)

(** [handle_complete]: the status, and the event sent to the processor. *)
Definition handle_complete (refused : option Z) (channel_closed : bool) (req : CompletionEvent)
    : M St (Z * bool * option CompletionEvent) :=
  match refused with
  | Some status => mret (status, false, None)
  | None =>
      if channel_closed then mret (HTTP_UNAVAILABLE, false, None)
      else
        _ ← modify_app (fun a =>
              set_registry (release (registry a) (ce_runner_id req) (ce_execution_id req)).1 a);
        _ ← modify_app (fun a => clear_lease a (ce_runner_id req) (ce_execution_id req));
        mret (HTTP_OK, true, Some req)
  end.

(** [runner_identity::release_runner]; a failure is only logged. *)
Definition release_runner (rid : string) : M St unit :=
  if has_store then _ ← call (ReleaseRunner rid); mret tt else mret tt.

(** [deregister_runner] *)
Definition deregister_runner (rid : string) : M St unit :=
  _ ← modify_app (fun a => set_registry (registry_remove (registry a) rid).1 a);
  _ ← release_runner rid;
  if has_store then takeover_requeue rid else mret tt.
End Handlers.
