(* ===== verification/TriggerApi.v ===== *)
(** * Manual triggers

    Models [handle_trigger] of [croniq-server/src/api/mod.rs] and the
    predicates of [croniq-config/src/compile.rs] it asks: the validation of the
    request, the idempotency lookup, the fold of bare signals into a queued
    execution ([coalesce]), the depth cap, and the row and work item of the
    execution a trigger creates. The scope check is the argument [refused]. *)

From S2P Require Import Prelude RustStr Chrono RunnerTypes Queue Registry RunnerApi.
From S2P Require Import Durations Execution JobConfig Store StoreCalls Server Requeue Dispatch.

Local Open Scope string_scope.
Local Open Scope Z_scope.

(** ** The request *)

(** [TriggerRequest::metadata]: null, an object, or anything else; a member
    with the text the handler takes of it ([as_str], else [to_string]). *)
Inductive Payload := PlNull | PlObject (members : list (string * string)) | PlOther.

Record TriggerRequest := MkTriggerRequest {
  tr_job_key : string;
  tr_require : list string;
  tr_prefer : list string;
  tr_metadata : Payload;
  tr_timeout : option string;
  tr_idempotency_key : option string
}.
Record TriggerResponse := {
  ts_execution_id : string;
  ts_queued : nat;
  ts_deduplicated : bool;
  ts_coalesced : bool
}.

Definition DEFAULT_TRIGGER_TIMEOUT : string := "5m".
Definition MAX_IDEMPOTENCY_KEY_CHARS : nat := 200.
Definition TRIGGER_OVERFLOW_RETRY_AFTER_SECS : Z := 1.
Definition REQUESTED_BY_TRIGGER : string := "trigger".
Definition RESERVED_METADATA_PREFIX : string := "__".

(** [str::chars().count()] of UTF-8 text: the bytes that do not continue a
    character. *)
Definition continues_char (c : ascii) : bool :=
  let n := Z.of_N (N_of_ascii c) in (128 <=? n) && (n <? 192).
Fixpoint chars_count (s : string) : nat :=
  match s with
  | "" => O
  | String c s => if continues_char c then chars_count s else S (chars_count s)
  end.

(** [is_reserved_metadata_key], [job_declares_coalesce],
    [is_bare_trigger_signal], [mark_requested] of [compile.rs] *)
Definition is_reserved_metadata_key (key : string) : bool :=
  starts_with RESERVED_METADATA_PREFIX key.
Definition job_declares_coalesce (metadata : gmap string string) : bool :=
  bool_decide (is_Some (metadata !! COALESCE_METADATA_KEY)).
Definition is_bare_trigger_signal (metadata : Payload) (require prefer : list string)
    (timeout : option string) : bool :=
  match require, prefer with
  | [], [] =>
      match timeout with
      | Some t => if str_is_empty (trim t) then true else false
      | None => true
      end
      && match metadata with
         | PlNull => true
         | PlObject members => forallb (fun kv => is_reserved_metadata_key kv.1) members
         | PlOther => false
         end
  | _, _ => false
  end.
Definition mark_requested (metadata : gmap string string) (by_ : string) : gmap string string :=
  <[REQUESTED_METADATA_KEY := by_]> metadata.

Definition is_bare_signal (req : TriggerRequest) : bool :=
  is_bare_trigger_signal (tr_metadata req) (tr_require req) (tr_prefer req) (tr_timeout req).

Definition HTTP_BAD_REQUEST : Z := 400.
Definition HTTP_TOO_MANY_REQUESTS : Z := 429.
Definition HTTP_INTERNAL_SERVER_ERROR : Z := 500.

Section Trigger.
  Context `{J : Json} `{E : Env} {St : Type} `{SO : StoreOps St}.
  Context (has_store : bool) (dsl_jobs : option (list JobConfig)) (trigger_dedup_window_secs : Z).

Definition item_is_foldable (item : WorkItem) : bool := metadata_is_foldable (metadata item).

(** ** The execution a trigger creates *)

(** The caller's members over the job's metadata, reserved keys dropped. *)
Definition overlay (metadata : gmap string string) (payload : Payload) : gmap string string :=
  match payload with
  | PlObject members =>
      foldl (fun m kv => if is_reserved_metadata_key kv.1 then m else <[kv.1 := kv.2]> m) metadata members
  | PlNull | PlOther => metadata
  end.

Definition inherit (own : list string) (of_job : JobConfig -> list string) (job : option JobConfig)
    : list string :=
  match own with [] => default [] (of_job <$> job) | l => l end.
Definition trigger_require (req : TriggerRequest) : option JobConfig -> list string :=
  inherit (tr_require req) (fun j => rc_require (jc_runner j)).
Definition trigger_prefer (req : TriggerRequest) : option JobConfig -> list string :=
  inherit (tr_prefer req) (fun j => rc_prefer (jc_runner j)).
Definition trigger_timeout (requested : option string) (job : option JobConfig) : string :=
  default DEFAULT_TRIGGER_TIMEOUT (option_or requested (job ≫= jc_timeout)).

Definition stamp (key : string) (l : list string) (m : gmap string string) : gmap string string :=
  match l with [] => m | l => <[key := json_strings l]> m end.
Definition trigger_metadata (req : TriggerRequest) (requested : option string) (job : option JobConfig)
    : gmap string string :=
  let m := overlay (default ∅ (jc_metadata <$> job)) (tr_metadata req) in
  let m := if is_bare_signal req then m else delete COALESCE_METADATA_KEY m in
  let m := stamp REQUIRE_METADATA_KEY (trigger_require req job) m in
  let m := stamp PREFER_METADATA_KEY (trigger_prefer req job) m in
  let m := <[TIMEOUT_METADATA_KEY := trigger_timeout requested job]> m in
  mark_requested m REQUESTED_BY_TRIGGER.

Definition trigger_execution (req : TriggerRequest) (requested idem : option string)
    (job : option JobConfig) (id : string) (now : instant) : Execution := {|
  ex_id := id; ex_job_key := tr_job_key req; ex_fire_at := now; ex_scheduled_for := now;
  ex_attempt := 1; ex_state := EQueued; ex_runner_id := None; ex_claimed_at := None;
  ex_started_at := None; ex_completed_at := None; ex_duration_ms := None; ex_error := None;
  ex_dead_reason := None; ex_idempotency_key := idem;
  ex_metadata := trigger_metadata req requested job; ex_created_at := now |}.
Definition trigger_item (req : TriggerRequest) (requested : option string)
    (job : option JobConfig) (id : string) (now : instant) : WorkItem := {|
  execution_id := id; wi_job_key := tr_job_key req; fire_at := now; scheduled_for := now;
  attempt := 1; require := trigger_require req job; prefer := trigger_prefer req job;
  metadata := of_map (trigger_metadata req requested job);
  timeout := trigger_timeout requested job; is_ephemeral := false |}.

(** ** The handler *)

Definition Answer : Type := Z * option Z * TriggerResponse.
Definition error_response (status : Z) : Answer :=
  (status, None, {| ts_execution_id := ""; ts_queued := 0; ts_deduplicated := false;
                    ts_coalesced := false |}).

(** The idempotency lookup. *)
Definition find_duplicate (req : TriggerRequest) (idem : option string) (now : instant)
    : M St (option Execution) :=
  match idem, has_store with
  | Some key, true =>
      r ← call (FindByIdempotencyKey (tr_job_key req) key (now - seconds trigger_dedup_window_secs));
      mret match r with Ok found => found | Err _ => None end
  | _, _ => mret None
  end.

(** The job the trigger inherits from. *)
Definition trigger_job (key : string) : M St (option JobConfig) :=
  match jobs ← dsl_jobs; find (fun j => String.eqb (jc_key j) key) jobs with
  | Some job => mret (Some job)
  | None =>
      if has_store then
        r ← call (GetJobDefinition key);
        mret match r with Ok def => job_config_from_job_def <$> def | Err _ => None end
      else mret None
  end.

(** From the insert on. *)
Definition create_triggered (req : TriggerRequest) (requested idem : option string)
    (job : option JobConfig) (now : instant) : M St Answer :=
  id ← new_uuid;
  r ← (if has_store then call (CreateExecution (trigger_execution req requested idem job id now))
       else mret (Ok tt));
  match r with
  | Err _ => mret (error_response HTTP_INTERNAL_SERVER_ERROR)
  | Ok _ =>
      _ ← enqueue_item (trigger_item req requested job id now);
      queued ← get_app (fun a => len (queue a));
      mret (HTTP_OK, None, {| ts_execution_id := id; ts_queued := queued;
                              ts_deduplicated := false; ts_coalesced := false |})
  end.

(** [handle_trigger] *)
Definition handle_trigger (refused : option Z) (req : TriggerRequest) : M St Answer :=
  match refused with
  | Some status => mret (error_response status)
  | None =>
      let idem := k ← tr_idempotency_key req; if str_is_empty k then None else Some k in
      if match idem with
         | Some k => (MAX_IDEMPOTENCY_KEY_CHARS <? chars_count k)%nat
         | None => false
         end
      then mret (error_response HTTP_BAD_REQUEST)
      else match validate_optional_duration (tr_timeout req) with
      | Err _ => mret (error_response HTTP_BAD_REQUEST)
      | Ok requested =>
          now ← utc_now;
          duplicate ← find_duplicate req idem now;
          match duplicate with
          | Some existing =>
              queued ← get_app (fun a => len (queue a));
              mret (HTTP_OK, None, {| ts_execution_id := ex_id existing; ts_queued := queued;
                                      ts_deduplicated := true; ts_coalesced := false |})
          | None =>
              job ← trigger_job (tr_job_key req);
              q ← get_app queue;
              let may_fold := match job with
                              | Some j => job_declares_coalesce (jc_metadata j)
                              | None => false
                              end && is_bare_signal req in
              match (if may_fold then find_for_job q (tr_job_key req) item_is_foldable else None) with
              | Some target =>
                  mret (HTTP_OK, None, {| ts_execution_id := execution_id target; ts_queued := len q;
                                          ts_deduplicated := false; ts_coalesced := true |})
              | None =>
                  let max_queue_depth := default 10 (job ≫= jc_max_queue_depth) in
                  if max_queue_depth <=? Z.of_nat (count_for_job q (tr_job_key req))
                  then mret (HTTP_TOO_MANY_REQUESTS, Some TRIGGER_OVERFLOW_RETRY_AFTER_SECS,
                             (error_response 0).2)
                  else create_triggered req requested idem job now
              end
          end
      end
  end.
End Trigger.
