(* ===== verification/Compile.v ===== *)
(** * The compiler: from the syntax tree to the runtime configuration

    Models [croniq-config/src/compile.rs] ([compile] and what it calls) and
    [placeholders.rs]. The environment, the files and the JSON text of an
    execution payload are parameters.

    A loop of the source that sets several locals from directives is a fold per
    local: no arm of those loops reads another local, so the folds do not depend
    on each other. The loop over the items of a file threads the defaults in
    force, which a job or calendar takes as they stand above it. *)

From S2P Require Import Prelude RustStr Chrono Ast CalendarArgs Durations Execution RunnerTypes Schedule.
From S2P Require Import Calendar JobConfig Format Alerts Queue StoreCalls Requeue Dispatch TriggerApi ConfigFacts.
From Stdlib Require Import SpecFloat.

Local Open Scope string_scope.
Local Open Scope Z_scope.

(** ** Configuration records *)

Record OidcDslConfig := {
  od_issuer : option string; od_client_id : option string; od_redirect_url : option string;
  od_default_role : option string; od_provider_name : option string;
  od_post_login_redirect : option string
}.
Record SmtpDslConfig := {
  sd_host : option string; sd_port : option Z; sd_security : option string; sd_from : option string
}.
(** [PasswordAuthConfig] and [TotpAuthConfig] have one field each. *)
Record AuthDslConfig := { au_password_enabled : option bool; au_totp_required : option bool }.
Record McpConfig := { mc_enabled : bool; mc_allowed_hosts : list string }.
Record PolicyConfig := { po_dsl_adopt_on_mutate : bool; po_strict_calendars : bool }.
Record LogConfig := { lg_level : string; lg_format : string; lg_output : string }.
Record MetricsConfig := { me_listen : string; me_path : string }.
Record ObservabilityConfig := { ob_log : option LogConfig; ob_metrics : option MetricsConfig }.
Record ServerConfig := {
  sc_listen : string; sc_data_dir : string; sc_db : string; sc_app_url : option string;
  sc_execution_retention : option string
}.
Record PullApiConfig := {
  pa_listen : string; pa_lease_ttl : string; pa_trigger_dedup_window : string;
  pa_runner_identity_binding : string
}.
Record ConcurrencyGroupConfig := { cg_name : string; cg_max_concurrent : Z }.
Record RuntimeConfig := {
  rt_server : ServerConfig;
  rt_pull_api : option PullApiConfig;
  rt_observability : option ObservabilityConfig;
  rt_mcp : option McpConfig;
  rt_oidc : option OidcDslConfig;
  rt_smtp : option SmtpDslConfig;
  rt_auth : AuthDslConfig;
  rt_policy : PolicyConfig;
  rt_alerts : AlertsConfig;
  rt_jobs : list JobConfig;
  rt_calendars : list CalendarConfig;
  rt_concurrency_groups : list ConcurrencyGroupConfig
}.

Inductive RunnerExec :=
| ExecShell (command : string) (workdir user : option string) (env : gmap string string)
| ExecExec (argv : list string) (workdir user : option string) (env : gmap string string).

(** [JobDefaults] *)
Record JobDefaults := {
  jd_default_timezone : option string;
  jd_default_timeout : option string;
  jd_default_retry : RetryConfig;
  jd_default_dead_letter : DeadLetterConfig;
  jd_default_execution_mode : ExecutionMode;
  jd_default_catch_up : CatchUpPolicy;
  jd_default_catch_up_explicit : bool;
  jd_default_queue_ttl : option string;
  jd_default_max_queue_depth : option Z;
  jd_default_keep_last : option Z;
  jd_default_priority : JobPriority
}.

Definition RUNNER_EXEC_METADATA_KEY : string := "__runner_exec".
Definition RETRY_STRATEGIES : list string := ["exponential"; "linear"; "fixed"; "none"].

(** ** Values of directives *)

(** [ExecutionMode::parse], [CatchUpPolicy::parse], [JobPriority::parse] and
    [as_str], [RuleTrigger::parse] and [needs_expected_within] *)
Definition mode_parse (v : string) : option ExecutionMode :=
  if String.eqb v "queued" then Some ModeQueued
  else if String.eqb v "ephemeral" then Some ModeEphemeral else None.
Definition catch_up_parse (v : string) : option CatchUpPolicy :=
  if String.eqb v "all" then Some CatchUpAll
  else if String.eqb v "latest" then Some CatchUpLatest
  else if String.eqb v "none" then Some CatchUpNone else None.
Definition priority_parse (v : string) : option JobPriority :=
  if String.eqb v "low" then Some PLow
  else if String.eqb v "normal" then Some PNormal
  else if String.eqb v "high" then Some PHigh else None.
Definition priority_str (p : JobPriority) : string :=
  match p with PLow => "low" | PNormal => "normal" | PHigh => "high" end.
Definition rule_trigger_parse (v : string) : option RuleTrigger :=
  if String.eqb v "job_failed" then Some JobFailed
  else if String.eqb v "job_sla_missed" then Some JobSlaMissed
  else if String.eqb v "job_missed_fire" then Some JobMissedFire
  else if String.eqb v "maintenance_active" then Some MaintenanceActive
  else if String.eqb v "job_blocked" then Some JobBlocked
  else if String.eqb v "job_recovered" then Some JobRecovered else None.
Definition needs_expected_within (t : RuleTrigger) : bool :=
  match t with
  | JobSlaMissed | JobMissedFire | JobBlocked | MaintenanceActive => true
  | JobFailed | JobRecovered => false
  end.

(** [parse_bool], and the narrower test of two flags *)
Definition one_of (v : string) (l : list string) : bool := existsb (String.eqb v) l.
Definition parse_bool (s : string) : option bool :=
  let v := to_ascii_lowercase s in
  if one_of v ["true"; "yes"; "on"; "1"] then Some true
  else if one_of v ["false"; "no"; "off"; "0"] then Some false
  else None.
Definition is_true_word (v : string) : bool := one_of v ["true"; "yes"; "1"; "on"].

(** [verbose_duration_unit] *)
Definition verbose_duration_unit (word : string) : option string :=
  if one_of word ["millisecond"; "milliseconds"] then Some "ms"
  else if one_of word ["second"; "seconds"] then Some "s"
  else if one_of word ["minute"; "minutes"] then Some "m"
  else if one_of word ["hour"; "hours"] then Some "h"
  else if one_of word ["day"; "days"] then Some "d"
  else None.

(** [str::parse::<u16>] *)
Definition parse_u16 : string -> option Z := parse_uint 65535.

(** [str::parse::<f64>]: an optional sign, then [inf], [infinity] or [nan] in
    any case, or a decimal number with an optional exponent; the nearest double,
    ties to even. *)
Fixpoint digits_of (s : string) : list Z * string :=
  match s with
  | String c s' =>
      if is_digit c then
        let '(ds, rest) := digits_of s' in (default 0 (digit_val c) :: ds, rest)
      else ([], s)
  | "" => ([], "")
  end.
Definition digits_value (ds : list Z) : Z := fold_left (fun n d => 10 * n + d) ds 0.
Definition take_sign (s : string) : bool * string :=
  match s with
  | String c s' => if Ascii.eqb c "-" then (true, s') else if Ascii.eqb c "+" then (false, s') else (false, s)
  | "" => (false, "")
  end.
Definition parse_exponent (s : string) : option Z :=
  match s with
  | "" => Some 0
  | String c s' =>
      if Ascii.eqb c "e" || Ascii.eqb c "E" then
        let '(neg, s') := take_sign s' in
        match digits_of s' with
        | ((_ :: _) as ds, "") => Some (if neg : bool then - digits_value ds else digits_value ds)
        | _ => None
        end
      else None
  end.
(** The double nearest to [n * 10 ^ e]. *)
Definition f64_of_decimal (neg : bool) (n e : Z) : f64 :=
  match n with
  | Zpos m =>
      if 0 <=? e then binary_normalize 53 1024 (if neg then Zneg (m * Z.to_pos (10 ^ e)) else Zpos (m * Z.to_pos (10 ^ e))) 0 neg
      else
        let '(q, e', l) := SFdiv_core_binary 53 1024 (Zpos m) 0 (10 ^ (- e)) 0 in
        binary_round_aux 53 1024 neg q e' l
  | _ => S754_zero neg
  end.
Definition parse_f64 (s : string) : option f64 :=
  let '(neg, body) := take_sign s in
  let word := to_ascii_lowercase body in
  if String.eqb word "inf" || String.eqb word "infinity" then Some (S754_infinity neg)
  else if String.eqb word "nan" then Some S754_nan
  else
    let '(whole, rest) := digits_of body in
    let '(frac, rest) := match rest with
                         | String "." rest => digits_of rest
                         | _ => ([], rest)
                         end in
    if (length whole + length frac =? 0)%nat then None
    else e ← parse_exponent rest;
         Some (f64_of_decimal neg (digits_value (whole ++ frac)) (e - Z.of_nat (length frac))).

(** [parse_duration_secs] of [compile.rs] *)
Definition channel_duration_secs (s : string) : option Z :=
  let s := trim s in
  let chars := String.list_ascii_of_string s in
  c ← last chars;
  let front := String.string_of_list_ascii (take (length chars - 1) chars) in
  '(digits, mult) ← (if Ascii.eqb c "s" then Some (front, 1)
                     else if Ascii.eqb c "m" then Some (front, 60)
                     else if Ascii.eqb c "h" then Some (front, 3600)
                     else if is_digit c then Some (s, 1)
                     else None);
  n ← parse_u64 digits;
  if n * mult <=? U64_MAX then Some (n * mult) else None.

(** ** Placeholders *)

Inductive PlaceholderError :=
| Unresolved (name : string)
| FileRead (path why : string)
| UnknownPrefix (text : string).

Section Compile.
  Context `{C : Chrono}.
  (** [std::env::var] and [std::fs::read_to_string] *)
  Context (env_var : string -> option string) (read_file : string -> result string string).
  (** [serde_json::to_string] of an execution payload *)
  Context (exec_json : RunnerExec -> option string).

(** [placeholders::resolve] *)
Definition resolve (placeholder : string) (vars : gmap string string) : result string PlaceholderError :=
  match strip_prefix "$" placeholder with
  | Some rest =>
      let '(name, dflt) := match split_once ":" rest with
                           | Some (n, d) => (n, Some d)
                           | None => (rest, None)
                           end in
      ok_or (option_or (env_var name) dflt) (Unresolved ("$" ++ name))
  | None =>
  match strip_prefix "env." placeholder with
  | Some name => ok_or (env_var name) (Unresolved ("env." ++ name))
  | None =>
  match strip_prefix "file." placeholder with
  | Some path =>
      match read_file path with
      | Ok text => Ok (trim text)
      | Err why => Err (FileRead path why)
      end
  | None =>
  match strip_prefix "vars." placeholder with
  | Some name => ok_or (vars !! name) (Unresolved ("vars." ++ name))
  | None => Err (UnknownPrefix placeholder)
  end end end end.

(** [resolve_str] *)
Definition resolve_str (vars : gmap string string) (v : StringValue) : string :=
  if sv_is_placeholder v then
    match resolve (sv_value v) vars with Ok s => s | Err _ => sv_value v end
  else sv_value v.

(** [collect_vars] *)
Definition entries_of (item : Item) : list Directive :=
  match item with IVars entries => entries | _ => [] end.
Definition var_entries (ast : Croniqfile) : list Directive := concat (map entries_of ast).
Definition collect_literal (vars : gmap string string) (d : Directive) : gmap string string :=
  match head (dir_args d) with
  | Some v => if sv_is_placeholder v then vars else <[sv_value (dir_key d) := sv_value v]> vars
  | None => vars
  end.
Definition collect_placeholder (vars : gmap string string) (d : Directive) : gmap string string :=
  match head (dir_args d) with
  | Some v => if sv_is_placeholder v then <[sv_value (dir_key d) := resolve_str vars v]> vars else vars
  | None => vars
  end.
Definition collect_vars (ast : Croniqfile) : gmap string string :=
  let vars := fold_left collect_literal (var_entries ast) ∅ in
  fold_left collect_placeholder (var_entries ast) vars.

Section Vars.
  Context (vars : gmap string string).

(** [first_arg], [duration_arg] *)
Definition first_arg (d : Directive) : option string := resolve_str vars <$> head (dir_args d).
Definition duration_arg (d : Directive) : option string :=
  first ← first_arg d;
  match dir_args d with
  | [_; unit] =>
      match verbose_duration_unit (resolve_str vars unit), parse_u64 (trim first) with
      | Some suffix, Some _ => Some (trim first ++ suffix)
      | _, _ => Some first
      end
  | _ => Some first
  end.
Definition resolved_args (d : Directive) : list string := map (resolve_str vars) (dir_args d).

(** ** Folds over directives *)

(** What the arm of a [match] on the key does to one local. *)
Definition at_key {A} (key : string) (f : Directive -> A -> A) (acc : A) (d : Directive) : A :=
  if String.eqb (sv_value (dir_key d)) key then f d acc else acc.
Definition fold_key {A} (key : string) (f : Directive -> A -> A) (ds : list Directive) (init : A) : A :=
  fold_left (at_key key f) ds init.
(** The same where blocks and comments lie between the directives. *)
Definition directives_in (l : list DirectiveOrBlock) : list Directive :=
  omap (fun x => match x with DDirective d => Some d | _ => None end) l.
Definition blocks_in (l : list DirectiveOrBlock) : list NamedBlock :=
  omap (fun x => match x with DBlock b => Some b | _ => None end) l.
Definition body_of (b : NamedBlock) : list Directive := directives_in (block_directives b).

(** The arms: a value when there is one, a value or nothing, a parsed value,
    presence. *)
Definition take_value (d : Directive) (acc : string) : string := default acc (first_arg d).
Definition take_duration (d : Directive) (acc : string) : string := default acc (duration_arg d).
Definition keep_value (d : Directive) (acc : option string) : option string := option_or (first_arg d) acc.
Definition keep_duration (d : Directive) (acc : option string) : option string :=
  option_or (duration_arg d) acc.
Definition set_value (d : Directive) (_ : option string) : option string := first_arg d.
Definition set_duration (d : Directive) (_ : option string) : option string := duration_arg d.
Definition parse_value {A} (parse : string -> option A) (d : Directive) (acc : A) : A :=
  default acc (first_arg d ≫= parse).
Definition parse_some {A} (parse : string -> option A) (d : Directive) (acc : option A) : option A :=
  option_or (first_arg d ≫= parse) acc.
(** [duration_arg(..).filter(|v| v != "none")] *)
Definition set_ttl (d : Directive) (_ : option string) : option string :=
  v ← duration_arg d; if String.eqb v "none" then None else Some v.

(** ** Sub-blocks of a job *)

(** [compile_retry_block] *)
Definition compile_retry_block (block : NamedBlock) (base : RetryConfig) : RetryConfig :=
  let ds := body_of block in
  let val d := default "" (duration_arg d) in
  let some_val d (_ : option string) := Some (val d) in
  {| rcf_strategy := match block_qualifier block with
                     | Some q => if one_of (sv_value q) RETRY_STRATEGIES then sv_value q
                                 else rcf_strategy base
                     | None => rcf_strategy base
                     end;
     rcf_max_attempts :=
       fold_key "max_attempts" (fun d n => default n (parse_u32 (val d))) ds (rcf_max_attempts base);
     rcf_base := fold_key "base" some_val ds (rcf_base base);
     rcf_cap := fold_key "cap" some_val ds (rcf_cap base);
     rcf_delay := fold_key "delay" some_val ds (rcf_delay base);
     rcf_step := fold_key "step" some_val ds (rcf_step base);
     rcf_jitter := fold_key "jitter" (fun d _ => parse_f64 (val d)) ds (rcf_jitter base) |}.

(** [compile_dead_letter_block] *)
Definition compile_dead_letter_block (block : NamedBlock) (base : DeadLetterConfig) : DeadLetterConfig :=
  let ds := body_of block in
  {| dlc_enabled := fold_key "enabled" (parse_value parse_bool) ds (dlc_enabled base);
     dlc_retention := fold_key "retention" set_duration ds (dlc_retention base);
     dlc_operator_hint := fold_key "operator_hint" set_value ds (dlc_operator_hint base);
     dlc_replay_max_age := fold_key "replay_max_age" set_duration ds (dlc_replay_max_age base) |}.

(** [compile_runner_block] *)
Definition push_capability (d : Directive) (caps : list string) : list string :=
  let val := default "" (first_arg d) in
  if str_is_empty val then caps else (caps ++ [val])%list.
Definition compile_runner_block (block : NamedBlock) : RunnerConfig :=
  let ds := body_of block in
  {| rc_require := fold_key "require" push_capability ds [];
     rc_prefer := fold_key "prefer" push_capability ds [];
     rc_exclude := fold_key "exclude" push_capability ds [];
     rc_sticky := fold_key "sticky" (fun _ _ => true) ds false |}.

(** [compile_runner_exec_block] *)
Definition env_entry (env : gmap string string) (d : Directive) : gmap string string :=
  match first_arg d with Some v => <[sv_value (dir_key d) := v]> env | None => env end.
Definition env_of (block : NamedBlock) : gmap string string :=
  fold_left (fun env b => if String.eqb (sv_value (block_name b)) "env"
                          then fold_left env_entry (body_of b) env else env)
    (blocks_in (block_directives block)) ∅.
Definition compile_runner_exec_block (block : NamedBlock) : option RunnerExec :=
  kind ← block_qualifier block;
  let ds := body_of block in
  let command := fold_key "command" set_value ds None in
  let argv := fold_key "args" (fun d _ => resolved_args d) ds [] in
  let workdir := fold_key "workdir" set_value ds None in
  let user := fold_key "user" set_value ds None in
  if String.eqb (sv_value kind) "shell" then (fun c => ExecShell c workdir user (env_of block)) <$> command
  else if String.eqb (sv_value kind) "exec" then
    match argv with [] => None | _ => Some (ExecExec argv workdir user (env_of block)) end
  else None.

(** ** Jobs *)

(** The blocks of a job, in order: the runner, the retry and dead-letter
    settings, the metadata. *)
Definition runner_arm (runner : RunnerConfig) (b : NamedBlock) : RunnerConfig :=
  if String.eqb (sv_value (block_name b)) "runner" then
    match block_qualifier b with None => compile_runner_block b | Some _ => runner end
  else runner.
Definition retry_arm (retry : RetryConfig) (b : NamedBlock) : RetryConfig :=
  if String.eqb (sv_value (block_name b)) "retry" then compile_retry_block b retry else retry.
Definition dead_letter_arm (dl : DeadLetterConfig) (b : NamedBlock) : DeadLetterConfig :=
  if String.eqb (sv_value (block_name b)) "dead_letter" then compile_dead_letter_block b dl else dl.
Definition metadata_entry (m : gmap string string) (d : Directive) : gmap string string :=
  if is_reserved_metadata_key (sv_value (dir_key d)) then m
  else match first_arg d with Some v => <[sv_value (dir_key d) := v]> m | None => m end.
Definition metadata_arm (m : gmap string string) (b : NamedBlock) : gmap string string :=
  if String.eqb (sv_value (block_name b)) "runner" then
    match block_qualifier b with
    | Some q =>
        if one_of (sv_value q) ["shell"; "exec"] then
          match compile_runner_exec_block b ≫= exec_json with
          | Some json => <[RUNNER_EXEC_METADATA_KEY := json]> m
          | None => m
          end
        else m
    | None => m
    end
  else if String.eqb (sv_value (block_name b)) "metadata" then fold_left metadata_entry (body_of b) m
  else m.

Definition push_tags (d : Directive) (tags : list string) : list string :=
  fold_left (fun tags v => if str_is_empty v || one_of v tags then tags else (tags ++ [v])%list)
    (resolved_args d) tags.

(** [singleton] and [max_concurrent] set one local. *)
Definition limit_arm (acc : option Z) (d : Directive) : option Z :=
  at_key "max_concurrent" (fun d _ => n ← first_arg d ≫= parse_u32; if 0 <? n then Some n else None)
    (at_key "singleton" (fun _ _ => Some 1) acc d) d.

(** The stamps: what travels with every execution. *)
Definition stamp_metadata (limits : gmap string Z) (max_concurrent : option Z) (group : option string)
    (coalesce coalesce_schedule : bool) (priority : JobPriority) (m : gmap string string)
    : gmap string string :=
  let m := match max_concurrent with
           | Some n => <[MAX_CONCURRENT_METADATA_KEY := show_uint n]> m
           | None => m
           end in
  let m := match group with
           | Some g => match limits !! g with
                       | Some limit => <[CONCURRENCY_GROUP_MAX_METADATA_KEY := show_uint limit]>
                                         (<[CONCURRENCY_GROUP_METADATA_KEY := g]> m)
                       | None => m
                       end
           | None => m
           end in
  let m := if coalesce
           then <[COALESCE_METADATA_KEY := if coalesce_schedule then COALESCE_SCHEDULE_VALUE else "1"]> m
           else m in
  let m := delete PRIORITY_METADATA_KEY m in
  match priority with
  | PNormal => m
  | p => <[PRIORITY_METADATA_KEY := priority_str p]> m
  end.

(** [compile_job] *)
Definition compile_job (job : JobBlock) (defaults : JobDefaults) (limits : gmap string Z) : JobConfig :=
  let ds := directives_in (jb_directives job) in
  let bs := blocks_in (jb_directives job) in
  let options := match jb_schedule job with Some s => sched_options s | None => [] end in
  let schedule := match jb_schedule job with
                  | Some s => compiled_from_ast (sched_kind s)
                  | None => CDisabled
                  end in
  let prefix_mode := match s ← jb_schedule job; sched_mode s with
                     | Some MEphemeral => ModeEphemeral
                     | Some MQueued => ModeQueued
                     | None => jd_default_execution_mode defaults
                     end in
  let mode := fold_key "execution_mode" (parse_value mode_parse) ds prefix_mode in
  let ephemeral := bool_decide (mode = ModeEphemeral) in
  let catch_up := fold_key "catch_up" (parse_value catch_up_parse) ds (jd_default_catch_up defaults) in
  let explicit := fold_key "catch_up"
                    (fun d b => match first_arg d ≫= catch_up_parse with Some _ => true | None => b end)
                    ds (jd_default_catch_up_explicit defaults) in
  let queue_ttl := fold_key "queue_ttl" set_ttl ds (jd_default_queue_ttl defaults) in
  let depth := fold_key "max_queue_depth" (parse_some parse_u32) ds (jd_default_max_queue_depth defaults) in
  let keep_last := fold_key "keep_last" (parse_some parse_u32) ds (jd_default_keep_last defaults) in
  let max_concurrent := if ephemeral then None else fold_left limit_arm ds None in
  let group := if ephemeral then None
               else fold_key "concurrency_group"
                      (fun d _ => g ← first_arg d; if bool_decide (is_Some (limits !! g)) then Some g else None)
                      ds None in
  let coalesce := if ephemeral then false else fold_key "coalesce" (fun _ _ => true) ds false in
  let coalesce_schedule :=
    if ephemeral then false
    else fold_key "coalesce" (fun d _ => bool_decide (first_arg d = Some "schedule")) ds false in
  let priority := fold_key "priority" (parse_value priority_parse) ds (jd_default_priority defaults) in
  {| jc_key := key_raw (jb_key job); jc_namespace := key_namespace (jb_key job);
     jc_name := key_name (jb_key job); jc_variant := key_variant (jb_key job);
     jc_description := fold_key "description" set_value ds None;
     jc_schedule := schedule; jc_schedule_summary := summary schedule;
     jc_timezone := fold_key "timezone" keep_value options
                      (fold_key "timezone" keep_value ds (jd_default_timezone defaults));
     jc_calendar := fold_key "calendar" set_value options None;
     jc_window := fold_key "window" set_value ds None;
     jc_not_before := fold_key "not_before" set_value options None;
     jc_not_after := fold_key "not_after" set_value options None;
     jc_runner := fold_left runner_arm bs runner_config_default;
     jc_retry := fold_left retry_arm bs (jd_default_retry defaults);
     jc_timeout := fold_key "timeout" set_duration ds (jd_default_timeout defaults);
     jc_dead_letter := fold_left dead_letter_arm bs (jd_default_dead_letter defaults);
     jc_metadata := stamp_metadata limits max_concurrent group coalesce coalesce_schedule priority
                      (fold_left metadata_arm bs ∅);
     jc_execution_mode := mode;
     jc_catch_up := if ephemeral then CatchUpNone else catch_up;
     jc_catch_up_explicit := if ephemeral then false else explicit;
     jc_queue_ttl := if ephemeral then None else queue_ttl;
     jc_max_queue_depth := if ephemeral then Some 1 else depth;
     jc_keep_last := if ephemeral then None else keep_last;
     jc_max_concurrent := max_concurrent;
     jc_concurrency_group := group;
     jc_coalesce := coalesce;
     jc_priority := priority;
     jc_tags := fold_key "tags" push_tags ds [];
     jc_run_on_register := fold_key "run_on_register" (fun _ _ => true) ds false |}.

(** ** Calendars *)

(** One rule of [compile_calendar]: the arguments the runtime sees. *)
Definition rule_args (rule : AstCalendarRule) : list string :=
  let args := map (resolve_str vars) (ar_args rule) in
  if existsb sv_is_placeholder (ar_args rule) && negb (rule_args_valid (sv_value (ar_type rule)) args)
  then map (fun a => if sv_is_placeholder a then "{" ++ sv_value a ++ "}" else resolve_str vars a)
         (ar_args rule)
  else args.
Definition compile_calendar (name : StringValue) (rules : list AstCalendarRule)
    (default_timezone : option string) : CalendarConfig :=
  let is_timezone (r : AstCalendarRule) := String.eqb (sv_value (ar_type r)) "timezone" in
  {| Calendar.cc_name := sv_value name;
     cc_timezone := fold_left (fun tz r => if is_timezone r then resolve_str vars <$> head (ar_args r) else tz)
                      rules default_timezone;
     cc_rules := map (fun r => {| rc_kind := match ar_kind r with Include => "include" | Exclude => "exclude" end;
                                  rc_rule_type := sv_value (ar_type r); rc_args := rule_args r |})
                   (List.filter (fun r => negb (is_timezone r)) rules) |}.

(** ** Alerts *)

(** [compile_channel_kind] *)
Definition compile_channel_kind (block : NamedBlock) : ChannelKind :=
  let ds := body_of block in
  let shell := fold_key "shell" keep_value ds None in
  let webhook := fold_key "webhook" keep_value ds None in
  let signing_key := fold_key "sign" (fun d key =>
    match resolved_args d with
    | scheme :: v :: _ => if String.eqb scheme "hmac" && negb (str_is_empty v) then Some v else key
    | _ => key
    end) ds None in
  let timeout := fold_key "timeout" (fun d t =>
    match duration_arg d ≫= channel_duration_secs with Some secs => Z.max secs 1 | None => t end) ds 5 in
  let recipients := fold_key "email" (fun d l =>
    (l ++ List.filter (fun v => negb (str_is_empty (trim v))) (resolved_args d))%list) ds [] in
  match shell, webhook, recipients with
  | Some command, _, _ => ChShell command
  | None, Some url, _ => ChWebhook url signing_key timeout
  | None, None, _ :: _ => ChEmail recipients
  | None, None, [] => ChUnknown "no channel kind directive (expected `shell`, `webhook`, or `email`)"
  end.

(** [compile_rule] *)
Definition compile_alert_rule (name : string) (block : NamedBlock) : option RuleConfig :=
  let ds := body_of block in
  let at_least_one d n := match first_arg d ≫= parse_u32 with Some m => Z.max m 1 | None => n end in
  trigger ← fold_key "when" (fun d t => match first_arg d with
                                        | Some v => rule_trigger_parse v
                                        | None => t
                                        end) ds None;
  let expected_within := fold_key "expected_within" set_duration ds None in
  if needs_expected_within trigger && negb (bool_decide (is_Some expected_within)) then None
  else Some {|
    ru_name := name; ru_trigger := trigger;
    ru_job_key_glob := fold_key "job_key" take_value ds "*";
    ru_min_attempts := fold_key "min_attempts" at_least_one ds 1;
    ru_dead_letter_only :=
      fold_key "dead_letter" (fun d b => match first_arg d with Some v => is_true_word v | None => b end) ds false;
    ru_min_consecutive := fold_key "min_consecutive" at_least_one ds 1;
    ru_throttle := fold_key "throttle" set_duration ds None;
    ru_expected_within := expected_within;
    ru_channels := fold_key "channels" (fun d l =>
      (l ++ List.filter (fun v => negb (str_is_empty v)) (resolved_args d))%list) ds [] |}.

(** [compile_alerts] *)
Definition alerts_arm (cfg : AlertsConfig) (sub : NamedBlock) : AlertsConfig :=
  let qualifier := default "" (resolve_str vars <$> block_qualifier sub) in
  if str_is_empty qualifier then cfg
  else if String.eqb (sv_value (block_name sub)) "channel" then
    {| al_channels := <[qualifier := Build_ChannelConfig qualifier (compile_channel_kind sub)]> (al_channels cfg);
       al_rules := al_rules cfg |}
  else if String.eqb (sv_value (block_name sub)) "rule" then
    {| al_channels := al_channels cfg;
       al_rules := (al_rules cfg ++ option_list (compile_alert_rule qualifier sub))%list |}
  else cfg.
Definition compile_alerts (sub_blocks : list NamedBlock) : AlertsConfig :=
  fold_left alerts_arm sub_blocks alerts_none.

(** ** Server blocks *)

Definition compile_server (cfg : ServerConfig) (ds : list Directive) : ServerConfig := {|
  sc_listen := fold_key "listen" take_value ds (sc_listen cfg);
  sc_data_dir := fold_key "data_dir" take_value ds (sc_data_dir cfg);
  sc_db := fold_key "db" take_value ds (sc_db cfg);
  sc_app_url := fold_key "app_url" keep_value ds (sc_app_url cfg);
  sc_execution_retention := fold_key "execution_retention" keep_duration ds (sc_execution_retention cfg) |}.
Definition compile_pull_api (ds : list Directive) : PullApiConfig := {|
  pa_listen := fold_key "listen" take_value ds ":9443";
  pa_lease_ttl := fold_key "lease_ttl" take_duration ds "60s";
  pa_trigger_dedup_window := fold_key "trigger_dedup_window" take_duration ds "10m";
  pa_runner_identity_binding := fold_key "runner_identity_binding" take_value ds "strict" |}.
Definition compile_log (b : NamedBlock) : LogConfig := {|
  lg_level := fold_key "level" take_value (body_of b) "info";
  lg_format := fold_key "format" take_value (body_of b) "text";
  lg_output := fold_key "output" take_value (body_of b) "stderr" |}.
Definition compile_metrics (b : NamedBlock) : MetricsConfig := {|
  me_listen := fold_key "listen" take_value (body_of b) ":9900";
  me_path := fold_key "path" take_value (body_of b) "/metrics" |}.
Definition last_block {A} (name : string) (f : NamedBlock -> A) (bs : list NamedBlock) : option A :=
  fold_left (fun acc b => if String.eqb (sv_value (block_name b)) name then Some (f b) else acc) bs None.
Definition compile_observability (bs : list NamedBlock) : ObservabilityConfig := {|
  ob_log := last_block "log" compile_log bs;
  ob_metrics := last_block "metrics" compile_metrics bs |}.
(** The flags of [mcp] and [policy] take the text as written. *)
Definition raw_arg (d : Directive) : option string := sv_value <$> head (dir_args d).
Definition raw_flag (d : Directive) (b : bool) : bool :=
  match raw_arg d with Some v => is_true_word v | None => b end.
Definition compile_mcp (ds : list Directive) : McpConfig := {|
  mc_enabled := fold_key "enabled" raw_flag ds true;
  mc_allowed_hosts := fold_key "allowed_hosts"
    (fun d _ => List.filter (fun s => negb (str_is_empty s)) (resolved_args d)) ds [] |}.
Definition compile_policy (cfg : PolicyConfig) (ds : list Directive) : PolicyConfig := {|
  po_dsl_adopt_on_mutate := fold_key "dsl_adopt_on_mutate" raw_flag ds (po_dsl_adopt_on_mutate cfg);
  po_strict_calendars := fold_key "strict_calendars"
    (fun d b => default b (raw_arg d ≫= parse_bool)) ds (po_strict_calendars cfg) |}.
Definition compile_oidc (ds : list Directive) : OidcDslConfig := {|
  od_issuer := fold_key "issuer" keep_value ds None;
  od_client_id := fold_key "client_id" keep_value ds None;
  od_redirect_url := fold_key "redirect_url" keep_value ds None;
  od_default_role := fold_key "default_role" keep_value ds None;
  od_provider_name := fold_key "provider_name" keep_value ds None;
  od_post_login_redirect := fold_key "post_login_redirect" keep_value ds None |}.
Definition compile_smtp (ds : list Directive) : SmtpDslConfig := {|
  sd_host := fold_key "host" keep_value ds None;
  sd_port := fold_key "port" (fun d p => match first_arg d with Some v => parse_u16 (trim v) | None => p end) ds None;
  sd_security := fold_key "security"
    (fun d s => option_or ((fun v => to_ascii_lowercase (trim v)) <$> first_arg d) s) ds None;
  sd_from := fold_key "from" keep_value ds None |}.
Definition auth_flag (block key : string) (b : NamedBlock) (acc : option bool) : option bool :=
  if String.eqb (sv_value (block_name b)) block
  then fold_key key (fun d f => match first_arg d with Some v => parse_bool v | None => f end) (body_of b) acc
  else acc.
Definition compile_auth (cfg : AuthDslConfig) (bs : list NamedBlock) : AuthDslConfig := {|
  au_password_enabled := fold_left (fun acc b => auth_flag "password" "enabled" b acc) bs (au_password_enabled cfg);
  au_totp_required := fold_left (fun acc b => auth_flag "totp" "required" b acc) bs (au_totp_required cfg) |}.

(** ** Groups and defaults *)

(** [collect_concurrency_groups] *)
Definition group_limit (ds : list Directive) : option Z :=
  d ← find (fun d => String.eqb (sv_value (dir_key d)) "max_concurrent") ds;
  n ← first_arg d ≫= parse_u32;
  if 0 <? n then Some n else None.
Definition collect_group (groups : list ConcurrencyGroupConfig) (item : Item) : list ConcurrencyGroupConfig :=
  match item with
  | IConcurrencyGroup name ds =>
      let name := resolve_str vars name in
      if str_is_empty name || existsb (fun g => String.eqb (cg_name g) name) groups then groups
      else match group_limit ds with
           | Some n => (groups ++ [Build_ConcurrencyGroupConfig name n])%list
           | None => groups
           end
  | _ => groups
  end.
Definition collect_concurrency_groups (ast : Croniqfile) : list ConcurrencyGroupConfig :=
  fold_left collect_group ast [].
Definition limits_of (groups : list ConcurrencyGroupConfig) : gmap string Z :=
  list_to_map (map (fun g => (cg_name g, cg_max_concurrent g)) (rev groups)).

(** The [Item::Defaults] arm *)
Definition apply_defaults (dft : JobDefaults) (l : list DirectiveOrBlock) : JobDefaults :=
  let ds := directives_in l in
  let bs := blocks_in l in
  {| jd_default_timezone := fold_key "timezone" keep_value ds (jd_default_timezone dft);
     jd_default_timeout := fold_key "timeout" set_duration ds (jd_default_timeout dft);
     jd_default_retry := fold_left retry_arm bs (jd_default_retry dft);
     jd_default_dead_letter := fold_left dead_letter_arm bs (jd_default_dead_letter dft);
     jd_default_execution_mode :=
       fold_key "execution_mode" (parse_value mode_parse) ds (jd_default_execution_mode dft);
     jd_default_catch_up := fold_key "catch_up" (parse_value catch_up_parse) ds (jd_default_catch_up dft);
     jd_default_catch_up_explicit :=
       fold_key "catch_up"
         (fun d b => match first_arg d ≫= catch_up_parse with Some _ => true | None => b end)
         ds (jd_default_catch_up_explicit dft);
     jd_default_queue_ttl := fold_key "queue_ttl" set_ttl ds (jd_default_queue_ttl dft);
     jd_default_max_queue_depth :=
       fold_key "max_queue_depth" (parse_some parse_u32) ds (jd_default_max_queue_depth dft);
     jd_default_keep_last := fold_key "keep_last" (parse_some parse_u32) ds (jd_default_keep_last dft);
     jd_default_priority := fold_key "priority" (parse_value priority_parse) ds (jd_default_priority dft) |}.

(** The jobs and calendars of the items, under the defaults in force at each. *)
Fixpoint compile_items (items : list Item) (dft : JobDefaults) (limits : gmap string Z)
    : list JobConfig * list CalendarConfig :=
  match items with
  | [] => ([], [])
  | IDefaults l :: items => compile_items items (apply_defaults dft l) limits
  | IJob job :: items =>
      let '(jobs, cals) := compile_items items dft limits in
      (compile_job job dft limits :: jobs, cals)
  | ICalendar name rules :: items =>
      let '(jobs, cals) := compile_items items dft limits in
      (jobs, compile_calendar name rules (jd_default_timezone dft) :: cals)
  | _ :: items => compile_items items dft limits
  end.
End Vars.

(** The locals [compile] starts with. *)
Definition builtin_defaults : JobDefaults := {|
  jd_default_timezone := None; jd_default_timeout := None; jd_default_retry := retry_config_default;
  jd_default_dead_letter := dead_letter_config_default; jd_default_execution_mode := ModeQueued;
  jd_default_catch_up := CatchUpAll; jd_default_catch_up_explicit := false; jd_default_queue_ttl := None;
  jd_default_max_queue_depth := None; jd_default_keep_last := None; jd_default_priority := PNormal |}.
Definition server_default : ServerConfig := {|
  sc_listen := ":4000"; sc_data_dir := "./.data"; sc_db := "sqlite"; sc_app_url := None;
  sc_execution_retention := None |}.

(** The item's arm for one local of [compile]. *)
Definition fold_items {A} (f : A -> Item -> A) (ast : Croniqfile) (init : A) : A := fold_left f ast init.

(** [compile] *)
Definition compile (ast : Croniqfile) : RuntimeConfig :=
  let vars := collect_vars ast in
  let groups := collect_concurrency_groups vars ast in
  let '(jobs, calendars) := compile_items vars ast builtin_defaults (limits_of groups) in
  {| rt_server := fold_items (fun s i => match i with IServer ds => compile_server vars s ds | _ => s end)
                    ast server_default;
     rt_pull_api := fold_items (fun p i => match i with IPullApi ds => Some (compile_pull_api vars ds) | _ => p end)
                      ast None;
     rt_observability := fold_items (fun o i => match i with
                                                | IObservability bs => Some (compile_observability vars bs)
                                                | _ => o
                                                end) ast None;
     rt_mcp := fold_items (fun m i => match i with IMcp ds => Some (compile_mcp vars ds) | _ => m end) ast None;
     rt_oidc := fold_items (fun o i => match i with IOidc ds => Some (compile_oidc vars ds) | _ => o end) ast None;
     rt_smtp := fold_items (fun s i => match i with ISmtp ds => Some (compile_smtp vars ds) | _ => s end) ast None;
     rt_auth := fold_items (fun a i => match i with IAuth bs => compile_auth vars a bs | _ => a end)
                  ast (Build_AuthDslConfig None None);
     rt_policy := fold_items (fun p i => match i with IPolicy ds => compile_policy p ds | _ => p end)
                    ast (Build_PolicyConfig false true);
     rt_alerts := fold_items (fun a i => match i with IAlerts bs => compile_alerts vars bs | _ => a end)
                    ast alerts_none;
     rt_jobs := jobs; rt_calendars := calendars; rt_concurrency_groups := groups |}.
End Compile.
