(* ===== verification/CompileFacts.v ===== *)
(** * What the compiled configuration promises

    Facts on [Compile.v]: the groups it keeps, the stamps it puts on a job and
    what the dispatch path reads back from them, the settings a job inherits,
    and what an ephemeral job gives up. *)

From S2P Require Import Prelude RustStr Chrono Ast Parser Durations Execution RunnerTypes Schedule Calendar JobConfig Queue.
From S2P Require Import StoreCalls Requeue Dispatch TriggerApi Alerts Compile.

Local Open Scope string_scope.
Local Open Scope Z_scope.

(** ** Folds over directives *)

(** The reference reading of a directive: the last of its kind decides. *)
Definition keyed (key : string) (ds : list Directive) : list Directive :=
  List.filter (fun d => String.eqb (sv_value (dir_key d)) key) ds.

Lemma fold_key_keyed {A} key (f : Directive -> A -> A) ds init :
  fold_key key f ds init = fold_left (fun acc d => f d acc) (keyed key ds) init.
Proof.
  unfold fold_key, keyed. revert init. induction ds as [|d ds IH]; intros init; [done|].
  simpl. rewrite IH. unfold at_key. by destruct (String.eqb _ _).
Qed.

Lemma fold_last {A} (f : Directive -> A) ds init :
  fold_left (fun _ d => f d) ds init = default init (f <$> last ds).
Proof.
  revert init. induction ds as [|d ds IH]; intros init; [done|].
  cbn [fold_left]. rewrite IH, last_cons. by destruct (last ds).
Qed.

Lemma fold_last_some {A} (p : Directive -> option A) ds init :
  fold_left (fun acc d => option_or (p d) acc) ds init = option_or (last (omap p ds)) init.
Proof.
  induction ds as [|d ds IH] using rev_ind; [done|].
  rewrite fold_left_app, omap_app. cbn [fold_left]. rewrite IH.
  destruct (p d) as [a|] eqn:E; simpl; rewrite E; simpl.
  - by rewrite last_snoc.
  - by rewrite app_nil_r.
Qed.

(** The last directive decides, or the last that has a value does. *)
Definition last_set {A} (p : Directive -> option A) (key : string) (ds : list Directive) : option A :=
  last (keyed key ds) ≫= p.
Definition last_value {A} (p : Directive -> option A) (key : string) (ds : list Directive) : option A :=
  last (omap p (keyed key ds)).

Lemma fold_key_set {A} key (p : Directive -> option A) ds :
  fold_key key (fun d _ => p d) ds None = last_set p key ds.
Proof. rewrite fold_key_keyed, fold_last. unfold last_set. by destruct (last _). Qed.

Lemma fold_key_keep {A} key (p : Directive -> option A) ds :
  fold_key key (fun d acc => option_or (p d) acc) ds None = last_value p key ds.
Proof. rewrite fold_key_keyed, fold_last_some. unfold last_value. by destruct (last _). Qed.

Lemma fold_key_default {A} key (p : Directive -> option A) ds init :
  fold_key key (fun d acc => default acc (p d)) ds init = default init (last_value p key ds).
Proof.
  rewrite fold_key_keyed. unfold last_value. induction (keyed key ds) as [|d l IH] using rev_ind; [done|].
  rewrite fold_left_app, omap_app. cbn [fold_left]. rewrite IH.
  destruct (p d) as [a|] eqn:E; simpl; rewrite E; simpl.
  - by rewrite last_snoc.
  - by rewrite app_nil_r.
Qed.

Lemma keyed_app key l1 l2 : keyed key (l1 ++ l2) = (keyed key l1 ++ keyed key l2)%list.
Proof. unfold keyed. by rewrite List.filter_app. Qed.

Lemma fold_key_app {A} key (f : Directive -> A -> A) l1 l2 init :
  fold_key key f l2 (fold_key key f l1 init) = fold_key key f (l1 ++ l2) init.
Proof. unfold fold_key. by rewrite fold_left_app. Qed.

(** ** Concurrency groups *)

Definition group_ok (g : ConcurrencyGroupConfig) : Prop :=
  cg_name g <> "" /\ 0 < cg_max_concurrent g <= U32_MAX.
Definition groups_ok (groups : list ConcurrencyGroupConfig) : Prop :=
  NoDup (map cg_name groups) /\ Forall group_ok groups.

Section Facts.
  Context `{C : Chrono} {J : Json} {JL : JsonLaws (J := J)}.
  Context (env_var : string -> option string) (read_file : string -> result string string).
  Context (exec_json : RunnerExec -> option string).

Lemma group_limit_range vars ds n :
  group_limit env_var read_file vars ds = Some n -> 0 < n <= U32_MAX.
Proof.
  unfold group_limit. intros (d & _ & (m & (s & _ & Hm)%bind_Some & H)%bind_Some)%bind_Some.
  apply parse_uint_range in Hm; [|done]. case_if_in H; [|done]. simplify_eq. b2p. lia.
Qed.

Lemma collect_group_ok vars groups item :
  groups_ok groups -> groups_ok (collect_group env_var read_file vars groups item).
Proof.
  intros [Hn Hf]. destruct item; try done. simpl.
  destruct (str_is_empty _ || _) eqn:E; [done|]. apply orb_false_iff in E as [E1 E2].
  destruct (group_limit _ _ _ _) as [n|] eqn:El; [|done]. apply group_limit_range in El.
  split.
  - rewrite map_app. apply NoDup_app. split; [done|]. split; [|apply NoDup_singleton].
    intros x Hx Hx'. apply list_elem_of_singleton in Hx' as ->.
    apply list_elem_of_In, in_map_iff in Hx as (g & Hg & Hin).
    apply not_true_iff_false in E2. apply E2, existsb_exists. exists g. split; [done|].
    apply String.eqb_eq. done.
  - apply Forall_app. split; [done|]. constructor; [|done]. split; [|done]. simpl.
    intros E. rewrite E in E1. done.
Qed.

Lemma collected_groups_ok vars ast : groups_ok (collect_concurrency_groups env_var read_file vars ast).
Proof.
  unfold collect_concurrency_groups.
  assert (groups_ok []) as H0 by (split; constructor).
  generalize (@nil ConcurrencyGroupConfig), H0. induction ast as [|i ast IH]; intros gs Hg; [done|].
  simpl. apply IH, collect_group_ok, Hg.
Qed.

Lemma elem_of_reverse_map {A B} (f : A -> B) l y : y ∈ rev (map f l) <-> exists x, f x = y /\ x ∈ l.
Proof.
  rewrite !list_elem_of_In, <- in_rev, in_map_iff. setoid_rewrite list_elem_of_In. done.
Qed.

Lemma limits_lookup groups g n :
  groups_ok groups ->
  limits_of groups !! g = Some n <-> Build_ConcurrencyGroupConfig g n ∈ groups.
Proof.
  intros [Hn _]. unfold limits_of. rewrite <- elem_of_list_to_map.
  - rewrite map_rev, elem_of_reverse_map. split.
    + intros ([g' n'] & [= -> ->] & H). done.
    + intros H. by eexists (Build_ConcurrencyGroupConfig g n).
  - rewrite <- (list_fmap_compose (fun g => (cg_name g, cg_max_concurrent g)) fst).
    change (NoDup (map cg_name (rev groups))). rewrite map_rev. apply NoDup_ListNoDup, NoDup_rev, NoDup_ListNoDup, Hn.
Qed.

(** The budget the file declares for a group: that of the first block of this
    name with a positive limit; a group without a name has none. *)
Definition declared_limit (vars : gmap string string) (g : string) (item : Item) : option Z :=
  match item with
  | IConcurrencyGroup name ds =>
      if String.eqb (resolve_str env_var read_file vars name) g
      then group_limit env_var read_file vars ds else None
  | _ => None
  end.
Definition declared_budget (vars : gmap string string) (ast : Croniqfile) (g : string) : option Z :=
  if str_is_empty g then None else head (omap (declared_limit vars g) ast).

Lemma limits_snoc groups g n :
  limits_of (groups ++ [Build_ConcurrencyGroupConfig g n]) = <[g := n]> (limits_of groups).
Proof. unfold limits_of. by rewrite rev_app_distr. Qed.

Lemma limits_none groups g :
  limits_of groups !! g = None <-> existsb (fun x => String.eqb (cg_name x) g) groups = false.
Proof.
  induction groups as [|[x n] groups IH] using rev_ind; [done|].
  rewrite limits_snoc, existsb_app, orb_false_iff, <- IH. simpl. rewrite orb_false_r, String.eqb_neq.
  destruct (decide (x = g)) as [->|Hne].
  - rewrite lookup_insert_eq. naive_solver.
  - rewrite lookup_insert_ne by done. naive_solver.
Qed.

(** One item adds the budget it declares to a group that has none yet. *)
Lemma collect_group_limits vars groups item g : str_is_empty g = false ->
  limits_of (collect_group env_var read_file vars groups item) !! g
  = option_or (limits_of groups !! g) (declared_limit vars g item).
Proof.
  intros Hg. destruct item; simpl; try (by destruct (limits_of groups !! g)).
  destruct (String.eqb_spec (resolve_str env_var read_file vars name) g) as [->|Hne].
  - rewrite Hg. simpl. destruct (existsb _ groups) eqn:E.
    + destruct (limits_of groups !! g) eqn:Eg; [done|]. apply limits_none in Eg. congruence.
    + rewrite (proj2 (limits_none _ _) E). destruct (group_limit _ _ _ _) as [n|]; simpl.
      * by rewrite limits_snoc, lookup_insert_eq.
      * by apply limits_none.
  - destruct (_ || _); [by destruct (limits_of groups !! g)|].
    destruct (group_limit _ _ _ _) as [n|]; [|by destruct (limits_of groups !! g)].
    rewrite limits_snoc, lookup_insert_ne by done. by destruct (limits_of groups !! g).
Qed.

Lemma collected_limits vars ast g :
  limits_of (collect_concurrency_groups env_var read_file vars ast) !! g = declared_budget vars ast g.
Proof.
  unfold declared_budget. destruct (str_is_empty g) eqn:Hg.
  - destruct (limits_of _ !! g) as [n|] eqn:E; [|done].
    pose proof (collected_groups_ok vars ast) as Hok. apply limits_lookup in E; [|done].
    destruct Hok as [_ Hall]. rewrite Forall_forall in Hall. destruct (Hall _ E) as [Hne _].
    by destruct g.
  - unfold collect_concurrency_groups.
    assert (forall gs, limits_of (fold_left (collect_group env_var read_file vars) ast gs) !! g
                       = option_or (limits_of gs !! g) (head (omap (declared_limit vars g) ast))) as H.
    { induction ast as [|i ast IH]; intros gs; simpl; [by destruct (limits_of gs !! g)|].
      rewrite IH, collect_group_limits by done.
      by destruct (limits_of gs !! g), (declared_limit vars g i). }
    by rewrite H.
Qed.

(** ** Stamps *)

Lemma metadata_entry_reserved vars m d k :
  is_reserved_metadata_key k = true -> metadata_entry env_var read_file vars m d !! k = m !! k.
Proof.
  intros Hk. unfold metadata_entry. destruct (is_reserved_metadata_key (sv_value _)) eqn:E; [done|].
  destruct (first_arg _ _ _ _); [|done]. apply lookup_insert_ne. intros <-. congruence.
Qed.

Lemma metadata_arm_reserved vars m b k :
  is_reserved_metadata_key k = true -> k <> RUNNER_EXEC_METADATA_KEY ->
  metadata_arm env_var read_file exec_json vars m b !! k = m !! k.
Proof.
  intros Hk Hne. unfold metadata_arm. case_if.
  - destruct (block_qualifier b); [|done]. case_if; [|done].
    destruct (_ ≫= exec_json); [|done]. by apply lookup_insert_ne.
  - case_if; [|done]. generalize (body_of b). intros ds. revert m.
    induction ds as [|d ds IH]; intros m; [done|]. simpl. rewrite IH. by apply metadata_entry_reserved.
Qed.

Lemma metadata_blocks_reserved vars bs m k :
  is_reserved_metadata_key k = true -> k <> RUNNER_EXEC_METADATA_KEY ->
  fold_left (metadata_arm env_var read_file exec_json vars) bs m !! k = m !! k.
Proof.
  intros Hk Hne. revert m. induction bs as [|b bs IH]; intros m; [done|].
  simpl. rewrite IH. by apply metadata_arm_reserved.
Qed.

(** What a [runner shell] or [runner exec] block has a runner execute. *)
Definition exec_payload (vars : gmap string string) (b : NamedBlock) : option string :=
  if String.eqb (sv_value (block_name b)) "runner"
  then compile_runner_exec_block env_var read_file vars b ≫= exec_json else None.

Lemma exec_block_qualified vars b q :
  block_qualifier b = Some q -> one_of (sv_value q) ["shell"; "exec"] = false ->
  compile_runner_exec_block env_var read_file vars b = None.
Proof.
  unfold compile_runner_exec_block, one_of. intros ->. simpl.
  destruct (String.eqb (sv_value q) "shell"), (String.eqb (sv_value q) "exec"); done.
Qed.

Lemma metadata_arm_exec vars m b :
  metadata_arm env_var read_file exec_json vars m b !! RUNNER_EXEC_METADATA_KEY
  = option_or (exec_payload vars b) (m !! RUNNER_EXEC_METADATA_KEY).
Proof.
  unfold metadata_arm, exec_payload. case_if.
  - destruct (block_qualifier b) as [q|] eqn:Eq; [|unfold compile_runner_exec_block; by rewrite Eq].
    destruct (one_of _ _) eqn:E; [|by rewrite (exec_block_qualified _ _ _ Eq E)].
    destruct (_ ≫= exec_json); [|done]. apply lookup_insert_eq.
  - case_if; [|done]. generalize (body_of b). intros ds. revert m.
    induction ds as [|d ds IH]; intros m; [done|]. simpl. rewrite IH. by apply metadata_entry_reserved.
Qed.

Lemma metadata_blocks_exec vars bs m :
  fold_left (metadata_arm env_var read_file exec_json vars) bs m !! RUNNER_EXEC_METADATA_KEY
  = option_or (last (omap (exec_payload vars) bs)) (m !! RUNNER_EXEC_METADATA_KEY).
Proof.
  induction bs as [|b bs IH] using rev_ind; [done|].
  rewrite fold_left_app, omap_app. simpl. rewrite metadata_arm_exec, IH.
  destruct (exec_payload vars b); simpl; [by rewrite last_snoc|by rewrite app_nil_r].
Qed.

(** The keys the compiler stamps, and what the stamp of each is. *)
Definition stamped (limits : gmap string Z) (limit : option Z) (group : option string)
    (coalesce schedule : bool) (p : JobPriority) (k : string) : option string :=
  if String.eqb k MAX_CONCURRENT_METADATA_KEY then show_uint <$> limit
  else if String.eqb k CONCURRENCY_GROUP_METADATA_KEY then
    g ← group; _n ← limits !! g; Some g
  else if String.eqb k CONCURRENCY_GROUP_MAX_METADATA_KEY then
    g ← group; show_uint <$> limits !! g
  else if String.eqb k COALESCE_METADATA_KEY then
    if coalesce then Some (if schedule then COALESCE_SCHEDULE_VALUE else "1") else None
  else if String.eqb k PRIORITY_METADATA_KEY then
    match p with PNormal => None | p => Some (priority_str p) end
  else None.

Lemma eqb_case k k' : k = k' /\ String.eqb k k' = true \/ k' <> k /\ String.eqb k k' = false.
Proof. destruct (String.eqb_spec k k'); [left|right]; auto. Qed.

Lemma stamp_lookup limits limit group coalesce schedule p m k :
  m !! k = None ->
  stamp_metadata limits limit group coalesce schedule p m !! k
  = stamped limits limit group coalesce schedule p k.
Proof.
  intros Hm. unfold stamp_metadata, stamped.
  destruct (eqb_case k MAX_CONCURRENT_METADATA_KEY) as [[-> ->]|[H1 ->]];
  [|destruct (eqb_case k CONCURRENCY_GROUP_METADATA_KEY) as [[-> ->]|[H2 ->]];
  [|destruct (eqb_case k CONCURRENCY_GROUP_MAX_METADATA_KEY) as [[-> ->]|[H3 ->]];
  [|destruct (eqb_case k COALESCE_METADATA_KEY) as [[-> ->]|[H4 ->]];
  [|destruct (eqb_case k PRIORITY_METADATA_KEY) as [[-> ->]|[H5 ->]]]]]];
  destruct limit as [n|], group as [g|], coalesce, p; simpl;
  try (destruct (limits !! g) eqn:Eg; simpl);
  repeat first [rewrite lookup_insert_eq | rewrite lookup_insert_ne by done
               | rewrite lookup_delete_eq | rewrite lookup_delete_ne by done]; done.
Qed.
Lemma stamp_exec limits limit group coalesce schedule p m :
  stamp_metadata limits limit group coalesce schedule p m !! RUNNER_EXEC_METADATA_KEY
  = m !! RUNNER_EXEC_METADATA_KEY.
Proof.
  unfold stamp_metadata. destruct limit as [n|], group as [g|], coalesce, p; simpl;
  try (destruct (limits !! g)); simpl;
  repeat first [rewrite lookup_insert_ne by done|rewrite lookup_delete_ne by done]; done.
Qed.
Definition limit_ok (limit : option Z) : Prop := forall n, limit = Some n -> 0 < n <= U32_MAX.

Lemma limit_arm_ok vars acc d : limit_ok acc -> limit_ok (limit_arm env_var read_file vars acc d).
Proof.
  intros Ha n. unfold limit_arm, at_key. case_if.
  - intros (m & (v & _ & Hm)%bind_Some & H)%bind_Some.
    apply parse_uint_range in Hm; [|done]. case_if_in H; [|done]. simplify_eq. b2p. lia.
  - case_if; [intros [= <-]; unfold U32_MAX; lia | apply Ha].
Qed.

Lemma limit_fold_ok vars ds acc : limit_ok acc -> limit_ok (fold_left (limit_arm env_var read_file vars) ds acc).
Proof. revert acc. induction ds as [|d ds IH]; intros acc Ha; [done|]. apply IH, limit_arm_ok, Ha. Qed.

Definition compiled_job := compile_job env_var read_file exec_json.

Lemma compiled_limit_ok vars job dft limits : limit_ok (jc_max_concurrent (compiled_job vars job dft limits)).
Proof.
  simpl. case_bool_decide; [done|]. by apply limit_fold_ok.
Qed.

Lemma compiled_metadata vars job dft limits k :
  is_reserved_metadata_key k = true -> k <> RUNNER_EXEC_METADATA_KEY ->
  let j := compiled_job vars job dft limits in
  exists schedule,
    jc_metadata j !! k
    = stamped limits (jc_max_concurrent j) (jc_concurrency_group j) (jc_coalesce j) schedule (jc_priority j) k.
Proof.
  intros Hk Hne. eexists. unfold compiled_job, compile_job. cbn [jc_metadata jc_max_concurrent jc_concurrency_group jc_coalesce jc_priority].
  apply stamp_lookup. by rewrite metadata_blocks_reserved.
Qed.

Lemma compiled_exec vars job dft limits :
  jc_metadata (compiled_job vars job dft limits) !! RUNNER_EXEC_METADATA_KEY
  = last (omap (exec_payload vars) (blocks_in (jb_directives job))).
Proof.
  unfold compiled_job, compile_job. cbn [jc_metadata]. rewrite stamp_exec, metadata_blocks_exec.
  rewrite lookup_empty. by destruct (last _).
Qed.

Lemma compile_items_jobs vars items dft limits j :
  j ∈ (compile_items env_var read_file exec_json vars items dft limits).1 ->
  exists job dft', IJob job ∈ items /\ j = compiled_job vars job dft' limits.
Proof.
  revert dft. induction items as [|i items IH]; intros dft; simpl; [by intros ?%elem_of_nil|].
  destruct i; try (intros (job & dft' & Hin & ->)%IH; set_solver).
  - destruct (compile_items _ _ _ _ _ _ _) as [js cs] eqn:E. simpl.
    specialize (IH dft). rewrite E in IH. intros H.
    apply IH in H as (job & dft' & Hin & ->). set_solver.
  - destruct (compile_items _ _ _ _ _ _ _) as [js cs] eqn:E. simpl.
    specialize (IH dft). rewrite E in IH. intros [->|H]%elem_of_cons; [set_solver|].
    apply IH in H as (job' & dft' & Hin & ->). set_solver.
Qed.
(** ** What a job inherits *)

Definition compiled := compile env_var read_file exec_json.
Definition vars_of := collect_vars env_var read_file.

Lemma compiled_groups ast :
  rt_concurrency_groups (compiled ast) = collect_concurrency_groups env_var read_file (vars_of ast) ast.
Proof. unfold compiled, compile. cbv zeta. by destruct (compile_items _ _ _ _ _ _ _). Qed.

Lemma compiled_jobs ast :
  rt_jobs (compiled ast)
  = (compile_items env_var read_file exec_json (vars_of ast) ast builtin_defaults
       (limits_of (rt_concurrency_groups (compiled ast)))).1.
Proof.
  rewrite compiled_groups. unfold compiled, compile, vars_of. cbv zeta.
  by destruct (compile_items _ _ _ _ _ _ _).
Qed.

Lemma compiled_groups_ok ast : groups_ok (rt_concurrency_groups (compiled ast)).
Proof. rewrite compiled_groups. apply collected_groups_ok. Qed.

(** The defaults in force below [pre], and the directives they come from. *)
Definition defaults_after (vars : gmap string string) (pre : list Item) (dft : JobDefaults) : JobDefaults :=
  fold_left (fun dft i => match i with IDefaults l => apply_defaults env_var read_file vars dft l | _ => dft end)
    pre dft.
Definition default_directives (i : Item) : list Directive :=
  match i with IDefaults l => directives_in l | _ => [] end.
Definition inherited (pre : list Item) : list Directive := concat (map default_directives pre).
Definition is_job (i : Item) : bool := match i with IJob _ => true | _ => false end.

Lemma inherited_field {A} (field : JobDefaults -> A) key (f : Directive -> A -> A) vars :
  (forall dft l, field (apply_defaults env_var read_file vars dft l)
                 = fold_key key f (directives_in l) (field dft)) ->
  forall pre dft, field (defaults_after vars pre dft) = fold_key key f (inherited pre) (field dft).
Proof.
  intros Hf pre. unfold defaults_after. induction pre as [|i pre IH]; intros dft; [done|].
  cbn [fold_left]. rewrite IH. unfold inherited. cbn [map concat]. rewrite <- fold_key_app.
  destruct i; try done. by rewrite Hf.
Qed.

Lemma compile_items_at vars pre job post dft limits :
  (compile_items env_var read_file exec_json vars (pre ++ IJob job :: post) dft limits).1
    !! length (List.filter is_job pre)
  = Some (compiled_job vars job (defaults_after vars pre dft) limits).
Proof.
  revert dft. induction pre as [|i pre IH]; intros dft.
  - simpl. by destruct (compile_items _ _ _ _ _ _ _).
  - destruct i; try apply IH; cbn [app compile_items]; specialize (IH dft);
    by destruct (compile_items _ _ _ _ _ _ _).
Qed.
Ltac inherit_field :=
  match goal with
  | |- ?field (defaults_after _ _ _) = _ =>
      erewrite (inherited_field field); [reflexivity|intros; reflexivity]
  | dft := defaults_after _ _ _ |- _ => subst dft; inherit_field
  end.

Definition arg {A} (vars : gmap string string) (parse : string -> option A) (d : Directive) : option A :=
  first_arg env_var read_file vars d ≫= parse.
(** Last of the two directives that limit a job. *)
Definition limits_runs (d : Directive) : bool :=
  String.eqb (sv_value (dir_key d)) "singleton" || String.eqb (sv_value (dir_key d)) "max_concurrent".
Definition run_limit (vars : gmap string string) (d : Directive) : option Z :=
  if String.eqb (sv_value (dir_key d)) "singleton" then Some 1 else arg vars parse_u32 d ≫= positive.

Lemma limit_fold_last vars ds :
  fold_left (limit_arm env_var read_file vars) ds None = last (List.filter limits_runs ds) ≫= run_limit vars.
Proof.
  induction ds as [|d ds IH] using rev_ind; [done|].
  rewrite fold_left_app, List.filter_app. cbn [fold_left List.filter]. rewrite IH.
  unfold limit_arm, at_key, limits_runs, run_limit, arg.
  destruct (String.eqb_spec (sv_value (dir_key d)) "max_concurrent") as [E|E].
  - rewrite orb_true_r, last_snoc. simpl. rewrite E. done.
  - destruct (String.eqb_spec (sv_value (dir_key d)) "singleton") as [E'|E']; simpl.
    + rewrite last_snoc. simpl. by rewrite E'.
    + by rewrite app_nil_r.
Qed.

Definition prefix_mode (job : JobBlock) : option ExecutionMode :=
  s ← jb_schedule job; m ← sched_mode s;
  Some match m with MEphemeral => ModeEphemeral | MQueued => ModeQueued end.
Definition schedule_options (job : JobBlock) : list Directive :=
  match jb_schedule job with Some s => sched_options s | None => [] end.

Lemma compiled_mode vars job dft limits dflt :
  jd_default_execution_mode dft = default ModeQueued dflt ->
  jc_execution_mode (compiled_job vars job dft limits)
  = default ModeQueued (option_or
      (last_value (arg vars mode_parse) "execution_mode" (directives_in (jb_directives job)))
      (option_or (prefix_mode job) dflt)).
Proof.
  intros Hd. simpl. unfold parse_value. rewrite (fold_key_default _ (arg vars mode_parse)).
  destruct (last_value _ _ _); [done|]. unfold prefix_mode.
  destruct (jb_schedule job) as [sch|]; [|done]. simpl. by destruct (sched_mode sch) as [[]|].
Qed.

Lemma compiled_timeout vars pre job limits :
  jc_timeout (compiled_job vars job (defaults_after vars pre builtin_defaults) limits)
  = last_set (duration_arg env_var read_file vars) "timeout"
      (inherited pre ++ directives_in (jb_directives job)).
Proof. rewrite <- fold_key_set, <- fold_key_app. simpl. f_equal. inherit_field. Qed.

Lemma compiled_priority vars pre job limits :
  jc_priority (compiled_job vars job (defaults_after vars pre builtin_defaults) limits)
  = default PNormal (last_value (arg vars priority_parse) "priority"
      (inherited pre ++ directives_in (jb_directives job))).
Proof. rewrite <- fold_key_default, <- fold_key_app. simpl. f_equal. inherit_field. Qed.

(** ** What dispatch reads *)

(** The rank the queue gives each priority. *)
Definition priority_rank (p : JobPriority) : Z := match p with PLow => 0 | PNormal => 1 | PHigh => 2 end.
(** The keys the compiler may stamp. *)
Definition STAMPS : list string :=
  [RUNNER_EXEC_METADATA_KEY; MAX_CONCURRENT_METADATA_KEY; CONCURRENCY_GROUP_METADATA_KEY;
   CONCURRENCY_GROUP_MAX_METADATA_KEY; COALESCE_METADATA_KEY; PRIORITY_METADATA_KEY].

Lemma stamped_other limits limit group coalesce schedule p k :
  k ∉ STAMPS -> stamped limits limit group coalesce schedule p k = None.
Proof.
  intros Hk. unfold stamped. repeat case_if; try done;
  match goal with E : String.eqb k _ = true |- _ => apply String.eqb_eq in E; subst k end;
  exfalso; apply Hk; unfold STAMPS; set_solver.
Qed.

Lemma limit_reads_back n : 0 < n <= U32_MAX -> parse_u64 (show_uint n) ≫= positive = Some n.
Proof.
  intros Hn. unfold parse_u64. rewrite parse_show_uint by (unfold U32_MAX, U64_MAX in *; lia).
  simpl. unfold positive. by rewrite (proj2 (Z.ltb_lt _ _)) by lia.
Qed.

Ltac stamp_key := first [reflexivity | let E := fresh in intros E; vm_compute in E; discriminate E].

(** The group and budget the claim path reads off an item. *)
Lemma item_group limits j id fire due n :
  (forall g b, limits !! g = Some b -> g <> "" /\ 0 < b <= U32_MAX) ->
  (forall k, is_reserved_metadata_key k = true -> k <> RUNNER_EXEC_METADATA_KEY -> exists schedule,
     jc_metadata j !! k
     = stamped limits (jc_max_concurrent j) (jc_concurrency_group j) (jc_coalesce j) schedule (jc_priority j) k) ->
  concurrency_group (job_to_work_item j id fire due n)
  = (g ← jc_concurrency_group j; b ← limits !! g; Some (g, b)).
Proof.
  intros Hok Hmeta. set (item := job_to_work_item _ _ _ _ _).
  assert (forall k, get_str (metadata item) k = jc_metadata j !! k) as Hget by apply get_str_of_map.
  unfold concurrency_group. rewrite !Hget.
  destruct (Hmeta CONCURRENCY_GROUP_METADATA_KEY) as [s1 ->]; [stamp_key..|].
  destruct (Hmeta CONCURRENCY_GROUP_MAX_METADATA_KEY) as [s2 ->]; [stamp_key..|].
  unfold stamped. simpl. destruct (jc_concurrency_group j) as [g|]; [|done]. simpl.
  destruct (limits !! g) as [b|] eqn:Hb; [|done]. simpl. destruct (Hok _ _ Hb) as [Hne Hrange].
  destruct g; [done|]. simpl.
  pose proof (limit_reads_back b Hrange) as Hr. apply bind_Some in Hr as (v & -> & Hv). simpl. by rewrite Hv.
Qed.

Lemma compiled_limit vars job dft limits :
  jc_max_concurrent (compiled_job vars job dft limits)
  = if bool_decide (jc_execution_mode (compiled_job vars job dft limits) = ModeEphemeral) then None
    else last (List.filter limits_runs (directives_in (jb_directives job))) ≫= run_limit vars.
Proof.
  unfold compiled_job, compile_job. cbn [jc_max_concurrent jc_execution_mode]. case_bool_decide; [done|].
  apply limit_fold_last.
Qed.

(** The job's group and its budget, as its own last [concurrency_group] names
    one the file declares. *)
Definition declared_group (vars : gmap string string) (ast : Croniqfile) (ds : list Directive) : option (string * Z) :=
  g ← last_set (first_arg env_var read_file vars) "concurrency_group" ds;
  b ← declared_budget vars ast g; Some (g, b).

Lemma compiled_group vars job dft limits :
  jc_concurrency_group (compiled_job vars job dft limits)
  = if bool_decide (jc_execution_mode (compiled_job vars job dft limits) = ModeEphemeral) then None
    else g ← last_set (first_arg env_var read_file vars) "concurrency_group" (directives_in (jb_directives job));
         _b ← limits !! g; Some g.
Proof.
  unfold compiled_job, compile_job. cbn [jc_concurrency_group jc_execution_mode]. case_bool_decide; [done|].
  rewrite fold_key_set. unfold last_set. destruct (last _) as [d|]; [|done]. cbn [mbind option_bind].
  destruct (first_arg _ _ _ d) as [g|]; [|done]. cbn [mbind option_bind].
  case_bool_decide as Hg; [destruct Hg as [b ->]; done|]. by apply eq_None_not_Some in Hg as ->.
Qed.

Lemma compiled_coalesce vars job dft limits :
  jc_coalesce (compiled_job vars job dft limits)
  = negb (bool_decide (jc_execution_mode (compiled_job vars job dft limits) = ModeEphemeral))
    && negb (bool_decide (keyed "coalesce" (directives_in (jb_directives job)) = [])).
Proof.
  unfold compiled_job, compile_job. cbn [jc_coalesce jc_execution_mode]. case_bool_decide; [done|].
  rewrite fold_key_keyed, fold_last. destruct (keyed _ _) as [|d l]; [done|].
  rewrite last_cons. by destruct (last l).
Qed.

(** ** Verbose durations *)

Lemma trim_printed n u : 0 <= n -> trim (show_uint n +:+ unit_suffix u) = show_uint n +:+ unit_suffix u.
Proof.
  intros Hn. apply trim_digits_suffix; [by apply show_uint_digits|apply show_uint_nonempty|].
  destruct u; cbn; repeat constructor.
Qed.

Lemma duration_arg_verbose vars d n word u :
  resolved_args env_var read_file vars d = [show_uint n; word] ->
  verbose_duration_unit word = Some (unit_suffix u) -> 0 <= n <= U64_MAX ->
  duration_arg env_var read_file vars d = Some (show_uint n +:+ unit_suffix u).
Proof.
  unfold resolved_args, duration_arg, first_arg.
  destruct (dir_args d) as [|a [|b [|]]]; intros [= Ha Hb] Hu Hn. simpl. rewrite Ha, Hb, Hu.
  pose proof (trim_printed n UBare ltac:(lia)) as Ht. cbn [unit_suffix] in Ht.
  rewrite str_app_nil in Ht. rewrite Ht.
  unfold parse_u64. by rewrite parse_show_uint.
Qed.

Lemma unit_millis_pos u : 1 <= unit_millis u.
Proof. destruct u; simpl; lia. Qed.

Lemma effective_timeout_parses md t v :
  md !! TIMEOUT_METADATA_KEY = None -> trim t = t -> parse_duration t = Some v ->
  effective_timeout md (Some t) = t.
Proof. intros Hm Ht Hp. unfold effective_timeout. rewrite Hm. simpl. by rewrite Ht, Hp. Qed.

(** A timeout spelt out in words is the one executions run under: when the
    last [timeout] in a job's scope is [n] and a unit word, every execution
    that carries no stamp of its own is timed out after exactly [n] of those
    units. *)
Theorem verbose_timeout_is_in_force pre job post d n u word :
  let ast := (pre ++ IJob job :: post)%list in
  last (keyed "timeout" (inherited pre ++ directives_in (jb_directives job))) = Some d ->
  resolved_args env_var read_file (vars_of ast) d = [show_uint n; word] ->
  verbose_duration_unit word = Some (unit_suffix u) ->
  0 <= n -> n * unit_millis u <= U64_MAX ->
  exists j, rt_jobs (compiled ast) !! length (List.filter is_job pre) = Some j /\
    forall md, md !! TIMEOUT_METADATA_KEY = None ->
      parse_duration (effective_timeout md (jc_timeout j)) = Some (n * unit_millis u * NS_MS).
Proof.
  intros ast Hd Hargs Hw Hn Hmax. pose proof (unit_millis_pos u) as Hu.
  eexists. split. { rewrite compiled_jobs. apply compile_items_at. }
  intros md Hmd. rewrite compiled_timeout. unfold last_set. rewrite Hd. cbn [mbind option_bind].
  rewrite (duration_arg_verbose _ _ n word u) by (done || nia).
  assert (parse_duration (show_uint n +:+ unit_suffix u) = Some (n * unit_millis u * NS_MS)) as Hp.
  { unfold parse_duration. rewrite parse_duration_print by nia. by rewrite (proj2 (Z.leb_le _ _) Hmax). }
  erewrite effective_timeout_parses; [done|done|by apply trim_printed|done].
Qed.
End Facts.

(** ** A file, from its text *)

Definition demo_text : string := "defaults {
  timeout 2 hours
  priority low
}
concurrency_group db {
  max_concurrent 2
}
job ops:report {
  every day at 02:00
  max_concurrent 3
  concurrency_group db
  coalesce schedule
  priority high
  metadata {
    __timeout 1s
    owner ops
  }
}
".
Definition demo_file : Croniqfile := match Parser.parse demo_text with Ok file => file | Err _ => [] end.
Definition demo_compiled : Croniqfile -> RuntimeConfig :=
  compiled (C := Demo.demo_chrono) (fun _ => None) (fun _ => Err "no such file") (fun _ => None).
Definition demo_block : JobBlock :=
  match last demo_file with
  | Some (IJob job) => job
  | _ => MkJob (MkJobKey "x:y" "x" "y" None) None []
  end.


Lemma verbose_timeout_is_in_force_witness :
  exists j, rt_jobs (demo_compiled (take 2 demo_file ++ [IJob demo_block])%list) !! 0%nat = Some j /\
    parse_duration (effective_timeout ∅ (jc_timeout j)) = Some (7200000 * NS_MS).
Proof.
  destruct (verbose_timeout_is_in_force (C := Demo.demo_chrono) (fun _ => None)
              (fun _ => Err "no such file") (fun _ => None) (take 2 demo_file) demo_block []
              (MkDirective (plain_value "timeout") [plain_value "2"; plain_value "hours"]) 2 UH "hours")
    as (j & Hj & Hrun); [vm_compute; reflexivity..|vm_compute; congruence|vm_compute; congruence|].
  exists j. split; [exact Hj|]. exact (Hrun ∅ eq_refl).
Defined.

(** The defaults above the job, and the directives that override them. *)
Example demo_settings :
  map (fun j => (jc_timeout j, jc_priority j, jc_execution_mode j)) (rt_jobs (demo_compiled demo_file))
  = [(Some "2h", PHigh, ModeQueued)].
Proof. vm_compute. reflexivity. Qed.
