(* ===== verification/BlockDirectives.v ===== *)
(** * Known directives of the configuration blocks

    Models [croniq-config/src/block_directives.rs]: the table of directives per
    block, the value domains, the checks, and the suggestions with their edit
    distance. A diagnostic is its severity and text; source spans are left out
    with those of the syntax tree. Where the source pushes onto one vector, the
    definitions here return what is pushed. *)

From S2P Require Import Prelude RustStr Ast Execution Compile JobConfig TriggerApi.
From Stdlib Require Import SpecFloat.

Local Open Scope string_scope.
Local Open Scope Z_scope.

(** ** Diagnostics ([validate.rs]) *)

Inductive Severity := SevError | SevWarning.
#[export] Instance Severity_eq_dec : EqDecision Severity.
Proof. solve_decision. Defined.

Record Diagnostic := { dg_severity : Severity; dg_message : string }.
Definition error (message : string) : list Diagnostic := [{| dg_severity := SevError; dg_message := message |}].
Definition warning (message : string) : list Diagnostic := [{| dg_severity := SevWarning; dg_message := message |}].
Definition when (b : bool) (diags : list Diagnostic) : list Diagnostic := if b then diags else [].

(** ** Known keys, per block *)

Definition SERVER : list string := ["listen"; "data_dir"; "db"; "app_url"; "execution_retention"].
Definition PULL_API : list string := ["listen"; "lease_ttl"; "trigger_dedup_window"; "runner_identity_binding"].
Definition MCP : list string := ["enabled"; "allowed_hosts"].
Definition POLICY : list string := ["dsl_adopt_on_mutate"; "strict_calendars"].
Definition OIDC : list string :=
  ["issuer"; "client_id"; "redirect_url"; "default_role"; "provider_name"; "post_login_redirect"].
Definition SMTP : list string := ["host"; "port"; "security"; "from"].
Definition DEFAULTS : list string :=
  ["timezone"; "timeout"; "execution_mode"; "catch_up"; "queue_ttl"; "max_queue_depth"; "keep_last"; "priority"].
Definition DEFAULTS_BLOCKS : list (string * list string) :=
  [("retry", ["max_attempts"; "base"; "cap"; "delay"; "step"; "jitter"]);
   ("dead_letter", ["enabled"; "retention"; "operator_hint"; "replay_max_age"])].
Definition JOB : list string :=
  ["description"; "timezone"; "timeout"; "window"; "execution_mode"; "catch_up"; "queue_ttl";
   "max_queue_depth"; "keep_last"; "singleton"; "max_concurrent"; "concurrency_group"; "coalesce";
   "priority"; "tags"; "run_on_register"].
Definition CONCURRENCY_GROUP : list string := ["max_concurrent"].
Definition JOB_BLOCKS : list string := ["runner"; "retry"; "dead_letter"; "metadata"].
Definition SCHEDULE_ONLY : list string := ["calendar"; "not_before"; "not_after"].
Definition OBSERVABILITY_BLOCKS : list (string * list string) :=
  [("log", ["level"; "format"; "output"]); ("metrics", ["listen"; "path"])].
Definition AUTH_BLOCKS : list (string * list string) := [("password", ["enabled"]); ("totp", ["required"])].

(** [ExecutionMode::VALUES], [CatchUpPolicy::VALUES], [JobPriority::VALUES],
    [RuleTrigger::VALUES] *)
Definition MODE_VALUES : list string := ["queued"; "ephemeral"].
Definition CATCH_UP_VALUES : list string := ["all"; "latest"; "none"].
Definition PRIORITY_VALUES : list string := ["low"; "normal"; "high"].
Definition TRIGGER_VALUES : list string :=
  ["job_failed"; "job_sla_missed"; "job_missed_fire"; "maintenance_active"; "job_blocked"; "job_recovered"].

Inductive Domain :=
| OneOf (allowed : list string)
| Count
| Fraction
| Text.
Definition SCALAR_VALUES : list (string * Domain) :=
  [("execution_mode", OneOf MODE_VALUES); ("catch_up", OneOf CATCH_UP_VALUES);
   ("max_queue_depth", Count); ("keep_last", Count); ("description", Text)].
Definition RETRY_VALUES : list (string * Domain) := [("max_attempts", Count); ("jitter", Fraction)].

Record RemovedDirective := { rd_block : string; rd_key : string; rd_message : string }.
Definition REMOVED : list RemovedDirective := [
  {| rd_block := "pull_api"; rd_key := "auth";
     rd_message := "`pull_api { auth … }` was removed in 0.29.0 — it was never an auth on/off switch, "
       ++ "its value was used verbatim as the JWT signing secret. Move that exact value to "
       ++ "the CRONIQ_JWT_SECRET env var (or $DATA_DIR/jwt.secret) and delete this line. "
       ++ "Leaving it here and letting the secret change also changes the key that wraps "
       ++ "stored TOTP secrets at rest, which makes them undecryptable (recovery codes keep "
       ++ "working). If no user has enrolled TOTP, any new secret is safe." |}].

(** ** Suggestions *)

(** [s.chars()] on the UTF-8 bytes: a continuation byte belongs to the
    character before it. *)
Fixpoint chars (s : string) : list string :=
  match s with
  | "" => []
  | String b s' =>
      match s' with
      | String c _ =>
          if byte_in c 128 191
          then match chars s' with
               | h :: t => String b h :: t
               | [] => [String b ""]
               end
          else String b "" :: chars s'
      | "" => [String b ""]
      end
  end.

(** [edit_distance]: one row of the table after another. *)
Fixpoint edit_cells (ac : string) (b_chars : list string) (prev : list nat) (left : nat) : list nat :=
  match b_chars, prev with
  | bc :: b_chars, diag :: ((up :: _) as prev) =>
      let cost := if String.eqb ac bc then 0%nat else 1%nat in
      let v := Nat.min (Nat.min (diag + cost) (up + 1)) (left + 1) in
      v :: edit_cells ac b_chars prev v
  | _, _ => []
  end.
Definition edit_row (b_chars : list string) (prev : list nat) (i : nat) (ac : string) : list nat :=
  (i + 1)%nat :: edit_cells ac b_chars prev (i + 1).
Fixpoint edit_rows (a_chars b_chars : list string) (prev : list nat) (i : nat) : list nat :=
  match a_chars with
  | [] => prev
  | ac :: a_chars => edit_rows a_chars b_chars (edit_row b_chars prev i ac) (S i)
  end.
Definition edit_distance (a b : string) : nat :=
  default 0%nat (last (edit_rows (chars a) (chars b) (seq 0 (S (length (chars b)))) 0)).

(** [min_by_key] by the distance, then the length: the first of the least. *)
Definition nearer (x y : string * nat) : bool :=
  (x.2 <? y.2)%nat || (x.2 =? y.2)%nat && (String.length x.1 <? String.length y.1)%nat.
Definition min_by_distance (l : list (string * nat)) : option (string * nat) :=
  fold_left (fun best x => match best with
                           | None => Some x
                           | Some b => if nearer x b then Some x else best
                           end) l None.

Definition edit_budget (got : string) : nat :=
  let n := length (chars got) in
  if (n <=? 3)%nat then 1 else if (n <=? 8)%nat then 2 else 3.
(** [closest] *)
Definition closest (got : string) (known : list string) : option string :=
  fst <$> min_by_distance
    (List.filter (fun kd => (kd.2 <=? edit_budget got)%nat) (map (fun k => (k, edit_distance got k)) known)).

(** [sort_unstable] on distinct strings *)
Fixpoint insert_sorted (x : string) (l : list string) : list string :=
  match l with
  | [] => [x]
  | y :: l' => if String.leb x y then x :: l else y :: insert_sorted x l'
  end.
Definition sort_strings (l : list string) : list string := fold_right insert_sorted [] l.

(** [hint] *)
Definition hint (got : string) (known : list string) : string :=
  match closest got known with
  | Some best => " — did you mean '" ++ best ++ "'?"
  | None => " (known: " ++ str_join ", " (sort_strings known) ++ ")"
  end.

(** ** Checks *)

Definition words (d : Directive) : list string := map sv_value (dir_args d).
Definition has_placeholder (d : Directive) : bool := existsb sv_is_placeholder (dir_args d).
Definition key_of (d : Directive) : string := sv_value (dir_key d).
Definition table_find {A} (name : string) (table : list (string * A)) : option A :=
  snd <$> find (fun e => String.eqb e.1 name) table.

(** [check_directive], [check_directives] *)
Definition check_directive (block : string) (known : list string) (d : Directive) : list Diagnostic :=
  if one_of (key_of d) known then []
  else match find (fun r => String.eqb (rd_block r) block && String.eqb (rd_key r) (key_of d)) REMOVED with
       | Some removed => error (rd_message removed)
       | None => error ("unknown directive '" ++ key_of d ++ "' in `" ++ block ++ " { }`" ++ hint (key_of d) known)
       end.
Definition check_directives (block : string) (known : list string) (ds : list Directive) : list Diagnostic :=
  flat_map (check_directive block known) ds.

(** The arms of [check_value] that accept, and the fix of the others. *)
Definition in_domain (domain : Domain) (ws : list string) : bool :=
  match domain, ws with
  | OneOf allowed, [v] => one_of v allowed
  | Count, [v] => bool_decide (is_Some (parse_u32 v))
  | Fraction, [v] => match parse_f64 v with Some f => SFleb f64_zero f && SFleb f f64_one | None => false end
  | Text, [v] => negb (str_is_empty v)
  | _, _ => false
  end.
Definition domain_fix (domain : Domain) (ws : list string) : string :=
  match domain with
  | OneOf allowed =>
      let guess := match ws with
                   | [v] => (fun b => "did you mean '" ++ b ++ "'? ") <$> closest v allowed
                   | _ => None
                   end in
      default "" guess ++ "write one of: " ++ str_join ", " allowed
  | Count => "write a whole number, e.g. `10`"
  | Fraction => "write a number from 0 to 1, e.g. `0.25`"
  | Text => "write one value, quoted if it has spaces"
  end.
(** [check_value] *)
Definition check_value (domains : list (string * Domain)) (d : Directive) : list Diagnostic :=
  match table_find (key_of d) domains with
  | None => []
  | Some domain =>
      if has_placeholder d || in_domain domain (words d) then []
      else
        let shown := match words d with
                     | [] => "bare `" ++ key_of d ++ "`"
                     | ws => "`" ++ key_of d ++ " " ++ str_join " " ws ++ "`"
                     end in
        error (shown ++ " is not a valid value — " ++ domain_fix domain (words d))
  end.

(** [check_retry_values] *)
Definition check_retry_values (nb : NamedBlock) : list Diagnostic :=
  if String.eqb (sv_value (block_name nb)) "retry" then
    app
      match block_qualifier nb with
      | Some q =>
          when (negb (sv_is_placeholder q) && negb (one_of (sv_value q) RETRY_STRATEGIES))
            (error ("unknown retry strategy '" ++ sv_value q ++ "'" ++ hint (sv_value q) RETRY_STRATEGIES))
      | None => []
      end
      (flat_map (check_value RETRY_VALUES) (body_of nb))
  else [].

(** [check_named_block] *)
Definition check_named_block (parent : string) (known : list (string * list string)) (nb : NamedBlock)
    : list Diagnostic :=
  let name := sv_value (block_name nb) in
  match table_find name known with
  | None => error ("unknown block '" ++ name ++ " { }' in `" ++ parent ++ " { }`" ++ hint name (map fst known))
  | Some keys =>
      let path := parent ++ "." ++ name in
      flat_map (fun x => match x with
        | DDirective d => check_directive path keys d
        | DBlock inner => error ("unknown block '" ++ sv_value (block_name inner) ++ " { }' in `" ++ path
                                 ++ " { }` — this block takes directives only")
        | DComment _ => []
        end) (block_directives nb)
  end.

(** [check_job_body] *)
Definition check_job_directive (key label : string) (d : Directive) : list Diagnostic :=
  if one_of (key_of d) JOB then check_value SCALAR_VALUES d
  else if one_of (key_of d) SCHEDULE_ONLY then
    error ("`" ++ key_of d ++ "` is a schedule option, not a job directive — move it into the "
           ++ "schedule line's braces, e.g. `every day at 02:00 { " ++ key_of d ++ " … }` "
           ++ "(job '" ++ key ++ "')")
  else error ("unknown directive '" ++ key_of d ++ "' in `" ++ label ++ " { }`" ++ hint (key_of d) JOB).
Definition check_metadata_key (label : string) (d : Directive) : list Diagnostic :=
  when (is_reserved_metadata_key (key_of d))
    (error ("metadata key '" ++ key_of d ++ "' in `" ++ label ++ " { }` is reserved: keys "
            ++ "starting with `__` are set by croniq itself — use the "
            ++ "directive instead, or rename the key")).
Definition check_job_block (label : string) (nb : NamedBlock) : list Diagnostic :=
  let name := sv_value (block_name nb) in
  if one_of name JOB_BLOCKS then
    app match table_find name DEFAULTS_BLOCKS with
        | Some keys => flat_map (check_directive (label ++ "." ++ name) keys) (body_of nb)
        | None => []
        end
      (app (check_retry_values nb)
         (when (String.eqb name "metadata") (flat_map (check_metadata_key label) (body_of nb))))
  else error ("unknown block '" ++ name ++ " { }' in `" ++ label ++ " { }`" ++ hint name JOB_BLOCKS).
Definition check_job_body (job : JobBlock) : list Diagnostic :=
  let key := key_raw (jb_key job) in
  let label := "job " ++ key in
  flat_map (fun x => match x with
    | DDirective d => check_job_directive key label d
    | DBlock nb => check_job_block label nb
    | DComment _ => []
    end) (jb_directives job).

(** [validate_blocks] *)
Definition check_defaults_entry (x : DirectiveOrBlock) : list Diagnostic :=
  match x with
  | DDirective d => app (check_directive "defaults" DEFAULTS d) (check_value SCALAR_VALUES d)
  | DBlock nb => app (check_named_block "defaults" DEFAULTS_BLOCKS nb) (check_retry_values nb)
  | DComment _ => []
  end.
Definition validate_block (item : Item) : list Diagnostic :=
  match item with
  | IServer ds => check_directives "server" SERVER ds
  | IPullApi ds => check_directives "pull_api" PULL_API ds
  | IMcp ds => check_directives "mcp" MCP ds
  | IPolicy ds => check_directives "policy" POLICY ds
  | IOidc ds => check_directives "oidc" OIDC ds
  | ISmtp ds => check_directives "smtp" SMTP ds
  | IDefaults l => flat_map check_defaults_entry l
  | IObservability bs => flat_map (check_named_block "observability" OBSERVABILITY_BLOCKS) bs
  | IAuth bs => flat_map (check_named_block "auth" AUTH_BLOCKS) bs
  | IConcurrencyGroup name ds =>
      check_directives ("concurrency_group " ++ sv_value name) CONCURRENCY_GROUP ds
  | IJob job => check_job_body job
  | _ => []
  end.
Definition validate_blocks (ast : Croniqfile) : list Diagnostic := flat_map validate_block ast.
