(* ===== verification/Validate.v ===== *)
(** * Validation of a configuration file

    Models [croniq-config/src/validate.rs] with [job_bounds.rs] and
    [timezone.rs]. A check returns the diagnostics it pushes, in order; the
    locals a loop of the source updates are threaded. The names of the time
    zones and the order in which a hash set of capabilities is visited are
    parameters. *)

From S2P Require Import Prelude RustStr Chrono Ast Lexer Format CalendarArgs Execution JobConfig Alerts TriggerApi Compile BlockDirectives.

Local Open Scope string_scope.
Local Open Scope Z_scope.

Record Options := { check_calendars : bool; check_job_times : bool }.
Definition options_default : Options := {| check_calendars := true; check_job_times := true |}.

Definition dq : string := chr DQ.
Definition arity (d : Directive) : Z := Z.of_nat (length (dir_args d)).

Section Validate.
  Context `{C : Chrono}.
  (** [chrono_tz::TZ_VARIANTS], by name *)
  Context (TZ_VARIANTS : list string).
  (** The order in which a [HashSet] is visited *)
  Context (visit : gset string -> list string).

(** ** Job bounds ([job_bounds.rs]) *)

Definition parse_job_window (s : string) : result (NaiveTime * NaiveTime) string :=
  match split_once ".." s with
  | None => Err ("invalid window `" ++ s ++ "`: write it as `HH:MM..HH:MM`")
  | Some (st, en) =>
      let time t := map_err (fun _ : string =>
        "invalid window `" ++ s ++ "`: `" ++ t ++ "` is not a time of day (HH:MM)") (parse_time t) in
      res_bind (time st) (fun a => res_bind (time en) (fun b => Ok (a, b)))
  end.
Definition parse_bound (s : string) : result instant string :=
  ok_or (parse_from_rfc3339 s)
    ("invalid bound `" ++ s ++ "`: write an RFC 3339 timestamp with an offset, "
     ++ "e.g. `2026-12-31T23:59:59Z`").
Definition parse_once_at (s : string) : result instant string :=
  match parse_from_rfc3339 s with
  | Some dt => Ok dt
  | None =>
      match parse_naive_datetime s with
      | Some dt => Ok dt   (** [Utc.from_utc_datetime] *)
      | None => Err ("invalid `once at` datetime `" ++ s ++ "`: write an existing date and time, "
                     ++ "e.g. `2026-12-31T23:59:59Z`")
      end
  end.

(** ** Time zones ([timezone.rs]) *)

Record InvalidTimezone := { it_value : string; it_suggestion : option string }.
Definition show_invalid_timezone (e : InvalidTimezone) : string :=
  "unknown timezone '" ++ it_value e ++ "'"
  ++ match it_suggestion e with
     | Some best => " — did you mean '" ++ best ++ "'?"
     | None => " — expected an IANA zone name such as 'Europe/Vienna', "
               ++ "'America/New_York' or 'UTC'"
     end.
Definition closest_zone (value : string) : option string :=
  let needle := to_ascii_lowercase value in
  fst <$> min_by_distance
    (List.filter (fun nd => (nd.2 <=? edit_budget value)%nat)
       (map (fun name => (name, edit_distance needle (to_ascii_lowercase name))) TZ_VARIANTS)).
Definition timezone_parse (value : string) : result Tz InvalidTimezone :=
  ok_or (tz_parse value) {| it_value := value; it_suggestion := closest_zone value |}.

(** [validate_timezone_value]: what it pushes, and whether a zone is declared *)
Definition validate_timezone_value (d : Directive) : list Diagnostic * bool :=
  match dir_args d with
  | [] => (error "`timezone` needs a zone name, e.g. `timezone Europe/Vienna`", false)
  | a :: _ =>
      if sv_is_placeholder a then ([], true)
      else match timezone_parse (sv_value a) with
           | Ok _ => ([], true)
           | Err e => (error (show_invalid_timezone e), true)
           end
  end.
Definition is_key (key : string) (d : Directive) : bool := String.eqb (key_of d) key.
Definition timezone_diags (ds : list Directive) : list Diagnostic :=
  flat_map (fun d => (validate_timezone_value d).1) (List.filter (is_key "timezone") ds).
Definition declares_timezone (ds : list Directive) : bool :=
  existsb (fun d => is_key "timezone" d && (validate_timezone_value d).2) ds.

(** ** Durations and priorities *)

(** [is_compact_duration], [reads_as_duration] *)
Definition is_compact_duration (value : string) : bool :=
  let digits := default value (head (omap (fun unit => strip_suffix unit value) ["ms"; "s"; "m"; "h"; "d"])) in
  negb (str_is_empty digits) && bool_decide (is_Some (parse_u64 digits)).
Definition reads_as_duration (ws : list string) : bool :=
  match ws with
  | [value] => is_compact_duration value
  | [count; unit] =>
      bool_decide (is_Some (parse_u64 count)) && bool_decide (is_Some (verbose_duration_unit unit))
  | _ => false
  end.

(** [validate_duration_directives] *)
Definition duration_readable (d : Directive) : bool :=
  reads_as_duration (words d)
  || is_key "queue_ttl" d && bool_decide (words d = ["none"]).
Definition validate_duration_directive (d : Directive) : list Diagnostic :=
  when ((is_key "timeout" d || is_key "queue_ttl" d) && negb (has_placeholder d) && negb (duration_readable d))
    (error ("`" ++ key_of d ++ " " ++ str_join " " (words d) ++ "` is not a duration — write e.g. `"
            ++ key_of d ++ " 4h` or `" ++ key_of d ++ " 4 hours` "
            ++ "(units: ms, s, m, h, d, or bare seconds)")).
Definition validate_duration_directives (l : list DirectiveOrBlock) : list Diagnostic :=
  flat_map validate_duration_directive (directives_in l).

(** [validate_priority_directives] *)
Definition priority_valid (ws : list string) : bool :=
  match ws with [value] => bool_decide (is_Some (priority_parse value)) | _ => false end.
Definition validate_priority_directive (d : Directive) : list Diagnostic :=
  when (is_key "priority" d && negb (has_placeholder d) && negb (priority_valid (words d)))
    (error ("`priority " ++ str_join " " (words d) ++ "` is not a priority — write one of: "
            ++ str_join ", " PRIORITY_VALUES ++ " (default: normal)")).
Definition validate_priority_directives (l : list DirectiveOrBlock) : list Diagnostic :=
  flat_map validate_priority_directive (directives_in l).

(** ** Times of a job *)

(** [job_time_errors] *)
Definition check_time {A} (parse : string -> result A string) (d : Directive) : list string :=
  match dir_args d with
  | [a] => if sv_is_placeholder a then []
           else match parse (sv_value a) with Ok _ => [] | Err e => [e] end
  | _ => ["`" ++ key_of d ++ "` takes exactly one value, got " ++ show_uint (arity d)]
  end.
Definition job_time_errors (job : JobBlock) : list string :=
  app (flat_map (check_time parse_job_window) (List.filter (is_key "window") (directives_in (jb_directives job))))
    match jb_schedule job with
    | None => []
    | Some sched =>
        app (flat_map (check_time parse_bound)
               (List.filter (fun d => is_key "not_before" d || is_key "not_after" d) (sched_options sched)))
          match sched_kind sched with
          | KOnce at_ =>
              if sv_is_placeholder at_ then []
              else match parse_once_at (sv_value at_) with Ok _ => [] | Err e => [e] end
          | _ => []
          end
    end.

(** [validate_schedule_kind] *)
Definition interval_seconds (count : Z) (unit : IntervalUnit) : Z :=
  match unit with
  | Seconds => count
  | Minutes => Z.min U64_MAX (count * 60)
  | Hours => Z.min U64_MAX (count * 3600)
  end.
Definition validate_schedule_kind (sched : ScheduleNode) : list Diagnostic :=
  match sched_kind sched with
  | KInterval count unit =>
      let seconds := interval_seconds count unit in
      app (when (seconds <? 30)
             (warning ("interval of " ++ show_uint seconds
                       ++ "s is shorter than the default runner poll cycle (30s); "
                       ++ "executions may be delayed by up to one poll period")))
          (when (count =? 0) (error "interval count must be greater than zero"))
  | _ => []
  end.

(** [validate_timezone] *)
Definition is_wall_clock (sched : option ScheduleNode) : bool :=
  match sched_kind <$> sched with
  | Some (KDaily _) | Some (KWeekdays _ _) | Some (KMonthly _ _) => true
  | _ => false
  end.
Definition validate_timezone (job : JobBlock) (default_timezone : bool) : list Diagnostic :=
  let own := directives_in (jb_directives job) in
  let options := match jb_schedule job with Some s => sched_options s | None => [] end in
  let has_timezone := default_timezone || declares_timezone own || declares_timezone options in
  app (timezone_diags own)
    (app (timezone_diags options)
       (when (negb has_timezone && (is_wall_clock (jb_schedule job) || existsb (is_key "window") own))
          (warning ("job '" ++ key_raw (jb_key job)
                    ++ "' declares no timezone: wall-clock times are interpreted as UTC; "
                    ++ "declare 'timezone' to be explicit — in the job body, in `defaults { }`, "
                    ++ "or as a schedule option")))).
(** ** Calendars *)

(** The rule arguments that are checked: a placeholder resolves later. *)
Definition literal_args (rule : AstCalendarRule) : list string :=
  map sv_value (List.filter (fun a => negb (sv_is_placeholder a)) (ar_args rule)).
Definition validate_annual_arg (a : string) : list Diagnostic :=
  match parse_annual_arg a with
  | Err msg => error msg
  | Ok AIgnored =>
      warning ("argument '" ++ a ++ "' is ignored by the scheduler — expected MM-DD or YYYY-MM-DD")
  | Ok (AMonthDay month day) =>
      when (negb ((1 <=? month) && (month <=? 12)) || negb ((1 <=? day) && (day <=? 31)))
        (warning ("date " ++ a ++ " can never match"))
  | Ok (ADate _) => []
  end.
Definition validate_monthly_arg (a : string) : list Diagnostic :=
  match parse_monthly_arg a with
  | Err msg => error msg
  | Ok day => when (negb ((1 <=? day) && (day <=? 31)))
                (warning ("day " ++ show_uint day ++ " can never match (valid days are 1–31)"))
  end.
Definition validate_weekly_arg (a : string) : list Diagnostic :=
  match parse_weekly_arg a with Err msg => error msg | Ok _ => [] end.
Definition validate_rule (rule : AstCalendarRule) : list Diagnostic :=
  let type := sv_value (ar_type rule) in
  if String.eqb type "weekly" then flat_map validate_weekly_arg (literal_args rule)
  else if String.eqb type "window" then
    match ar_args rule with
    | [] => error "window rule requires start and end times"
    | args =>
        if forallb (fun a => negb (sv_is_placeholder a)) args then
          match parse_window_args (map sv_value args) with Err msg => error msg | Ok _ => [] end
        else []
    end
  else if String.eqb type "monthly" then flat_map validate_monthly_arg (literal_args rule)
  else if String.eqb type "annual" || String.eqb type "yearly" then
    flat_map validate_annual_arg (literal_args rule)
  else if String.eqb type "timezone" then []
  else warning ("unknown calendar rule type '" ++ type ++ "'").

(** [validate_calendar] *)
Definition rule_as_directive (rule : AstCalendarRule) : Directive := MkDirective (ar_type rule) (ar_args rule).
Definition validate_calendar (name : StringValue) (rules : list AstCalendarRule) (default_timezone : bool)
    : list Diagnostic :=
  let zones := map rule_as_directive rules in
  let has_timezone := default_timezone || declares_timezone zones in
  app (timezone_diags zones)
    (app (when (negb has_timezone && negb (bool_decide (rules = [])))
            (warning ("calendar '" ++ sv_value name
                      ++ "' declares no timezone: its rules are interpreted as UTC, not in "
                      ++ "the zone of the jobs that consult it; declare 'timezone' to be explicit — in "
                      ++ "the calendar body or in `defaults { }`")))
       (flat_map validate_rule rules)).

(** ** Runner blocks *)

(** [validate_runner_exec_block] *)
Definition validate_exec_entry (job kind : string) (x : DirectiveOrBlock) : list Diagnostic :=
  match x with
  | DDirective d =>
      if is_key "command" d then
        when (arity d =? 0) (error ("`command` in job '" ++ job ++ "' requires a string argument"))
      else if is_key "args" d then
        when (arity d =? 0) (error ("`args` in job '" ++ job ++ "' requires at least one argv entry"))
      else if is_key "workdir" d || is_key "user" d then
        when (negb (arity d =? 1))
          (error ("`" ++ key_of d ++ "` in job '" ++ job ++ "' takes exactly one argument"))
      else warning ("unknown directive '" ++ key_of d ++ "' in `runner " ++ kind ++ "` block of job '" ++ job ++ "'")
  | DBlock inner =>
      if String.eqb (sv_value (block_name inner)) "env" then []
      else warning ("unknown sub-block '" ++ sv_value (block_name inner) ++ "' in `runner " ++ kind
                    ++ "` of job '" ++ job ++ "'")
  | DComment _ => []
  end.
Definition validate_runner_exec_block (job kind : string) (block : NamedBlock) : list Diagnostic :=
  let has_command := existsb (is_key "command") (body_of block) in
  let has_args := existsb (is_key "args") (body_of block) in
  app (flat_map (validate_exec_entry job kind) (block_directives block))
    (if String.eqb kind "shell" then
       app (when (negb has_command)
              (error ("`runner shell` in job '" ++ job ++ "' requires `command " ++ dq ++ "…" ++ dq ++ "`")))
         (when has_args
            (error ("`args` is only valid in `runner exec`; use `command` for shell strings (job '" ++ job ++ "')")))
     else if String.eqb kind "exec" then
       app (when (negb has_args)
              (error ("`runner exec` in job '" ++ job ++ "' requires `args <argv0> <argv1> …`")))
         (when has_command
            (error ("`command` is only valid in `runner shell`; use `args` for argv arrays (job '" ++ job ++ "')")))
     else []).

(** [validate_runner_constraints] *)
Definition capability (d : Directive) : string := default "" (head (words d)).
Definition places (d : Directive) : bool := one_of (key_of d) ["require"; "prefer"; "exclude"].
Definition bad_capability (d : Directive) : bool :=
  places d && (negb (arity d =? 1) || str_is_empty (capability d)).
Definition validate_placement (job : string) (d : Directive) : list Diagnostic :=
  if bad_capability d then
    error ("`runner { " ++ key_of d ++ " }` takes exactly one capability, got "
           ++ (if str_is_empty (capability d) && (arity d =? 1) then "an empty one" else show_uint (arity d))
           ++ " (job '" ++ job ++ "') — write one line per capability")
  else when (negb (places d || is_key "sticky" d))
         (warning ("unknown runner directive '" ++ key_of d ++ "' in job '" ++ job ++ "'")).
Definition is_runner (b : NamedBlock) : bool := String.eqb (sv_value (block_name b)) "runner".
Fixpoint validate_runner_blocks (job : string) (bs : list NamedBlock) (exec_block_seen : bool)
    : list Diagnostic :=
  match bs with
  | [] => []
  | block :: bs =>
      match sv_value <$> block_qualifier block with
      | None => app (flat_map (validate_placement job) (body_of block)) (validate_runner_blocks job bs exec_block_seen)
      | Some kind =>
          if one_of kind ["shell"; "exec"] then
            app (when exec_block_seen
                   (error ("job '" ++ job ++ "' has more than one `runner shell|exec` block; "
                           ++ "only one execution payload is allowed")))
              (app (validate_runner_exec_block job kind block) (validate_runner_blocks job bs true))
          else
            app (error ("unknown runner type '" ++ kind ++ "' in job '" ++ job
                        ++ "' — expected `shell` or `exec`"))
              (validate_runner_blocks job bs exec_block_seen)
      end
  end.
(** The capabilities the unqualified blocks name under [key]. *)
Definition named_capabilities (key : string) (bs : list NamedBlock) : gset string :=
  list_to_set (map capability
    (List.filter (fun d => is_key key d && negb (bad_capability d))
       (flat_map body_of (List.filter (fun b => negb (bool_decide (is_Some (block_qualifier b)))) bs)))).
Definition validate_runner_constraints (job : JobBlock) : list Diagnostic :=
  let key := key_raw (jb_key job) in
  let bs := List.filter is_runner (blocks_in (jb_directives job)) in
  app (validate_runner_blocks key bs false)
    (flat_map (fun cap => error ("capability '" ++ cap ++ "' is both required and excluded in job '" ++ key ++ "'"))
       (visit (named_capabilities "require" bs ∩ named_capabilities "exclude" bs))).
(** ** Concurrency *)

(** [job_is_ephemeral] *)
Definition job_is_ephemeral (job : JobBlock) (default_ephemeral : bool) : bool :=
  let by_prefix := match s ← jb_schedule job; sched_mode s with
                   | Some MEphemeral => true
                   | Some MQueued => false
                   | None => default_ephemeral
                   end in
  fold_key "execution_mode" (fun d e => match head (words d) with
                                        | Some v => String.eqb v "ephemeral"
                                        | None => e
                                        end)
    (directives_in (jb_directives job)) by_prefix.

(** The [max_concurrent], [coalesce] and [concurrency_group] arms. *)
Definition validate_max_concurrent (job : string) (d : Directive) : list Diagnostic :=
  match dir_args d with
  | [] => error ("`max_concurrent` in job '" ++ job ++ "' requires a positive integer argument")
  | a :: _ =>
      if sv_is_placeholder a then []
      else match parse_u32 (sv_value a) with
           | Some n => when (n =? 0)
                         (error ("`max_concurrent` in job '" ++ job ++ "' must be greater than zero"))
           | None => error ("`max_concurrent` in job '" ++ job ++ "' requires a positive integer, got '"
                            ++ sv_value a ++ "'")
           end
  end.
Definition validate_coalesce (job : string) (d : Directive) : list Diagnostic :=
  let unexpected := match dir_args d with
                    | [] => None
                    | [a] => if sv_is_placeholder a || String.eqb (sv_value a) "schedule" then None else Some a
                    | _ :: extra :: _ => Some extra
                    end in
  match unexpected with
  | None => []
  | Some a => error ("`coalesce` in job '" ++ job ++ "' takes no argument or `schedule`, got '" ++ sv_value a
                     ++ "' — write `coalesce` to fold triggers, or `coalesce schedule` to fold "
                     ++ "scheduled fires as well")
  end.
Definition validate_group_ref (job : string) (group_names : gset string) (d : Directive) : list Diagnostic :=
  match dir_args d with
  | [] => error ("`concurrency_group` in job '" ++ job ++ "' requires the name of a "
                 ++ "`concurrency_group { }` block")
  | a :: _ =>
      when (negb (sv_is_placeholder a) && negb (bool_decide (sv_value a ∈ group_names)))
        (error ("concurrency_group '" ++ sv_value a ++ "' referenced in job '" ++ job ++ "' is not "
                ++ "defined — declare `concurrency_group " ++ sv_value a ++ " { max_concurrent N }` "
                ++ "at the top level. Left undefined the job would run unguarded, "
                ++ "which is the failure mode a shared budget exists to prevent."))
  end.
Definition exclusive (job : string) : list Diagnostic :=
  error ("`singleton` and `max_concurrent` are mutually exclusive (job '" ++ job ++ "')").

(** The loop of [validate_concurrency] over the directives of a job. *)
Fixpoint concurrency_loop (job : string) (group_names : gset string) (ds : list Directive)
    (singleton_seen max_concurrent_seen : bool) : list Diagnostic :=
  match ds with
  | [] => []
  | d :: ds =>
      let next := concurrency_loop job group_names ds in
      if is_key "singleton" d then
        app (when max_concurrent_seen (exclusive job)) (next true max_concurrent_seen)
      else if is_key "max_concurrent" d then
        app (when singleton_seen (exclusive job))
          (app (validate_max_concurrent job d) (next singleton_seen true))
      else if is_key "coalesce" d then
        app (validate_coalesce job d) (next singleton_seen max_concurrent_seen)
      else if is_key "concurrency_group" d then
        app (validate_group_ref job group_names d) (next singleton_seen max_concurrent_seen)
      else next singleton_seen max_concurrent_seen
  end.
(** The keyword of the first guard: the local [guard]. *)
Definition first_guard (ds : list Directive) : option string :=
  key_of <$> find (fun d => is_key "singleton" d || is_key "max_concurrent" d) ds.

(** [validate_concurrency] *)
Definition validate_concurrency (job : JobBlock) (default_ephemeral : bool) (group_names : gset string)
    : list Diagnostic :=
  let key := key_raw (jb_key job) in
  let ds := directives_in (jb_directives job) in
  let ephemeral := job_is_ephemeral job default_ephemeral in
  app (concurrency_loop key group_names ds false false)
    (app (when (existsb (is_key "concurrency_group") ds && ephemeral)
            (error ("`concurrency_group` has no effect on the `ephemeral` job '" ++ key ++ "': ephemeral "
                    ++ "executions are not persisted, so they are blocked by the group's budget without "
                    ++ "ever counting toward it. Use `queued` (the default) for a job that shares a "
                    ++ "budget, or drop `concurrency_group`.")))
       (app (when (existsb (is_key "coalesce") ds && ephemeral)
               (error ("`coalesce` has no effect on the `ephemeral` job '" ++ key ++ "': a trigger folds into a "
                       ++ "queued execution, and ephemeral jobs keep at most one queued fire, which the "
                       ++ "next scheduled one replaces outright. Use `queued` (the default) for a job "
                       ++ "whose triggers should collapse, or drop `coalesce`.")))
          match first_guard ds with
          | Some kw =>
              when ephemeral
                (error ("`" ++ kw ++ "` has no effect on the `ephemeral` job '" ++ key
                        ++ "': ephemeral executions are not "
                        ++ "persisted, so the concurrency guard can never observe an in-flight run. Use "
                        ++ "`queued` for a real overlap guarantee, or drop `" ++ kw ++ "`."))
          | None => []
          end)).

(** [validate_concurrency_group] *)
Definition validate_concurrency_group (name : StringValue) (ds : list Directive) : list Diagnostic :=
  let group := sv_value name in
  match find (is_key "max_concurrent") ds with
  | None =>
      error ("`concurrency_group " ++ group ++ "` has no `max_concurrent` — a group without a limit caps "
             ++ "nothing. Write `concurrency_group " ++ group ++ " { max_concurrent 1 }` to serialize the "
             ++ "set.")
  | Some d =>
      match dir_args d with
      | [] => error ("`max_concurrent` in `concurrency_group " ++ group ++ "` requires a positive integer argument")
      | a :: _ =>
          if sv_is_placeholder a then []
          else match parse_u32 (sv_value a) with
               | Some n => when (n =? 0)
                             (error ("`max_concurrent` in `concurrency_group " ++ group
                                     ++ "` must be greater than zero — "
                                     ++ "zero would block every member of the group forever"))
               | None => error ("`max_concurrent` in `concurrency_group " ++ group ++ "` requires a positive "
                                ++ "integer, got '" ++ sv_value a ++ "'")
               end
      end
  end.
(** ** Alerts *)

Definition ALERT_CHANNEL_KINDS : list string := ["shell"; "webhook"; "email"].
Definition ALERT_CHANNEL_KEYS : list string := ["shell"; "webhook"; "email"; "sign"; "timeout"].
Definition ALERT_RULE_KEYS : list string :=
  ["when"; "job_key"; "min_attempts"; "min_consecutive"; "dead_letter"; "throttle"; "expected_within"; "channels"].

(** The first known word within [budget] edits. *)
Definition first_close (budget : nat) (got : string) (known : list string) : option string :=
  find (fun k => (edit_distance got k <=? budget)%nat) known.

(** The entries of a channel or rule: the unknown ones are reported. *)
Definition validate_alert_entry (kind name : string) (known : list string) (x : DirectiveOrBlock)
    : list Diagnostic :=
  match x with
  | DDirective d =>
      if one_of (key_of d) known then []
      else error ("unknown directive '" ++ key_of d ++ "' in alert " ++ kind ++ " '" ++ name ++ "'"
                  ++ match first_close 2 (key_of d) known with
                     | Some k => " — did you mean '" ++ k ++ "'?"
                     | None => " (known: " ++ str_join ", " known ++ ")"
                     end)
  | DBlock _ => error ("alert " ++ kind ++ " '" ++ name ++ "' takes directives only, not blocks")
  | DComment _ => []
  end.

(** The channel half *)
Definition channel_timeout (ws : list string) : option Z :=
  compact ← match ws with
            | [v] => Some v
            | [n; unit] => (fun suffix => n ++ suffix) <$> verbose_duration_unit unit
            | _ => None
            end;
  channel_duration_secs compact.
Definition sign_ok (ws : list string) : bool :=
  match ws with [scheme; key] => String.eqb scheme "hmac" && negb (str_is_empty key) | _ => false end.
Definition validate_channel_directive (name : string) (is_webhook : bool) (d : Directive) : list Diagnostic :=
  let w := words d in
  if (is_key "shell" d || is_key "webhook" d)
     && (negb (arity d =? 1) || str_is_empty (default "" (head w))) then
    error ("`" ++ key_of d ++ "` in alert channel '" ++ name ++ "' takes one value")
  else if is_key "email" d && (bool_decide (w = []) || existsb (fun v => str_is_empty (trim v)) w) then
    error ("`email` in alert channel '" ++ name ++ "' needs at least one address")
  else if is_key "sign" d then
    if negb (sign_ok w) && negb (has_placeholder d) then
      error ("`sign` in alert channel '" ++ name ++ "' takes `sign hmac <secret>`")
    else when (negb is_webhook) (error ("`sign` in alert channel '" ++ name ++ "' applies to `webhook` only"))
  else if is_key "timeout" d && negb (has_placeholder d) then
    if bool_decide (channel_timeout w = None) then
      error ("`timeout " ++ str_join " " w ++ "` in alert channel '" ++ name ++ "' is not a duration — "
             ++ "write e.g. `timeout 5s` (units: s, m, h)")
    else when (negb is_webhook) (error ("`timeout` in alert channel '" ++ name ++ "' applies to `webhook` only"))
  else [].
Definition validate_channel (name : string) (ds : list Directive) : list Diagnostic :=
  let kinds := List.filter (fun d => one_of (key_of d) ALERT_CHANNEL_KINDS) ds in
  app match kinds with
      | [] => error ("alert channel '" ++ name ++ "' has no kind — add one of `shell " ++ dq ++ "…" ++ dq ++ "`, "
                     ++ "`webhook " ++ dq ++ "…" ++ dq ++ "` or `email " ++ dq ++ "…" ++ dq ++ "`")
      | [_] => []
      | _ => error ("alert channel '" ++ name ++ "' declares more than one kind; only one of "
                    ++ "shell / webhook / email is used")
      end
    (flat_map (validate_channel_directive name (existsb (is_key "webhook") kinds)) ds).

(** The rule half: what one directive reports, and the locals it sets. *)
Definition validate_when (name : string) (d : Directive) : list Diagnostic :=
  if has_placeholder d then []
  else match words d with
       | [v] =>
           match rule_trigger_parse v with
           | Some _ => []
           | None => error ("unknown alert trigger `when " ++ v ++ "` in rule '" ++ name ++ "'"
                            ++ default "" ((fun k => " (did you mean '" ++ k ++ "'?)")
                                           <$> first_close 3 v TRIGGER_VALUES)
                            ++ " — write one of: " ++ str_join ", " TRIGGER_VALUES)
           end
       | _ => error ("`when` in rule '" ++ name ++ "' takes one trigger")
       end.
Definition validate_rule_channels (name : string) (alert_channels : gset string) (check_channel_refs : bool)
    (d : Directive) : list Diagnostic :=
  app (when (arity d =? 0) (error ("`channels` in rule '" ++ name ++ "' needs at least one channel name")))
    (flat_map (fun a =>
       when (check_channel_refs && negb (sv_is_placeholder a) && negb (bool_decide (sv_value a ∈ alert_channels)))
         (error ("rule '" ++ name ++ "' sends to channel '" ++ sv_value a ++ "', which is not declared "
                 ++ "in any `alerts { channel … }`")))
       (dir_args d)).
Definition one_word (p : string -> bool) (ws : list string) : bool :=
  match ws with [v] => p v | _ => false end.
Definition validate_rule_directive (name : string) (alert_channels : gset string) (check_channel_refs : bool)
    (d : Directive) : list Diagnostic :=
  let w := words d in
  let placeholder := has_placeholder d in
  if is_key "when" d then validate_when name d
  else if is_key "job_key" d then
    when (negb (arity d =? 1))
      (error ("`job_key` in rule '" ++ name ++ "' takes one glob, e.g. `job_key " ++ dq ++ "billing:*" ++ dq ++ "`"))
  else if is_key "min_attempts" d || is_key "min_consecutive" d then
    when (negb placeholder && negb (one_word (fun v => bool_decide (is_Some (parse_u32 v))) w))
      (error ("`" ++ key_of d ++ "` in rule '" ++ name ++ "' takes a whole number"))
  else if is_key "dead_letter" d then
    when (negb placeholder
          && negb (one_word (fun v => one_of v ["true"; "false"; "yes"; "no"; "on"; "off"; "1"; "0"]) w))
      (error ("`dead_letter` in rule '" ++ name ++ "' takes `true` or `false`"))
  else if is_key "throttle" d || is_key "expected_within" d then
    when (negb placeholder && negb (reads_as_duration w))
      (error ("`" ++ key_of d ++ " " ++ str_join " " w ++ "` in rule '" ++ name ++ "' is not a duration — write e.g. `"
              ++ key_of d ++ " 10m`"))
  else if is_key "channels" d then validate_rule_channels name alert_channels check_channel_refs d
  else [].
(** The trigger of the last [when] that names one, and whether some [when]
    names none. *)
Definition when_trigger (d : Directive) : option RuleTrigger :=
  if has_placeholder d then None
  else match words d with [v] => rule_trigger_parse v | _ => None end.
Definition rule_trigger (ds : list Directive) : option RuleTrigger :=
  fold_key "when" (fun d t => match when_trigger d with Some t' => Some t' | None => t end) ds None.
Definition trigger_unknown (ds : list Directive) : bool :=
  existsb (fun d => is_key "when" d && bool_decide (when_trigger d = None)) ds.
Definition validate_alert_rule (name : string) (alert_channels : gset string) (check_channel_refs : bool)
    (ds : list Directive) : list Diagnostic :=
  let has_expected_within := existsb (is_key "expected_within") ds in
  let has_channels := existsb (fun d => is_key "channels" d && negb (arity d =? 0)) ds in
  app (flat_map (validate_rule_directive name alert_channels check_channel_refs) ds)
    (app (when (bool_decide (rule_trigger ds = None) && negb (trigger_unknown ds))
            (error ("alert rule '" ++ name ++ "' has no `when` — write one of: " ++ str_join ", " TRIGGER_VALUES)))
       (app match rule_trigger ds with
            | Some t =>
                when (needs_expected_within t && negb has_expected_within)
                  (error ("alert rule '" ++ name ++ "' needs `expected_within` for this trigger — without it "
                          ++ "the rule is dropped"))
            | None => []
            end
          (when (negb has_channels)
             (warning ("alert rule '" ++ name ++ "' has no `channels`, so it notifies no one"))))).

(** [validate_alerts] *)
Fixpoint validate_alerts (alert_channels : gset string) (check_channel_refs : bool) (subs : list NamedBlock)
    (seen : gset (string * string)) : list Diagnostic :=
  match subs with
  | [] => []
  | sub :: subs =>
      let kind := sv_value (block_name sub) in
      let next := validate_alerts alert_channels check_channel_refs subs in
      if one_of kind ["channel"; "rule"] then
        match q ← block_qualifier sub; if str_is_empty (sv_value q) then None else Some (sv_value q) with
        | None => app (error ("alert " ++ kind ++ " needs a name: `" ++ kind ++ " " ++ dq ++ "name" ++ dq ++ " { … }`"))
                    (next seen)
        | Some name =>
            let known := if String.eqb kind "channel" then ALERT_CHANNEL_KEYS else ALERT_RULE_KEYS in
            let ds := List.filter (fun d => one_of (key_of d) known) (body_of sub) in
            app (when (bool_decide ((kind, name) ∈ seen))
                   (error ("duplicate alert " ++ kind ++ " '" ++ name ++ "' — the later one replaces the earlier")))
              (app (flat_map (validate_alert_entry kind name known) (block_directives sub))
                 (app (if String.eqb kind "channel" then validate_channel name ds
                       else validate_alert_rule name alert_channels check_channel_refs ds)
                    (next ({[(kind, name)]} ∪ seen))))
        end
      else app (error ("unknown block '" ++ kind ++ "' in `alerts { }` — write `channel " ++ dq ++ "name" ++ dq
                       ++ " { … }` or `rule " ++ dq ++ "name" ++ dq ++ " { … }`"))
             (next seen)
  end.

(** ** The whole file *)

Definition calendar_name (i : Item) : option string :=
  match i with ICalendar name _ => Some (sv_value name) | _ => None end.
Definition group_name (i : Item) : option string :=
  match i with IConcurrencyGroup name _ => Some (sv_value name) | _ => None end.
(** The first passes: each name that an earlier item has. *)
Fixpoint duplicates (what : string) (names : list string) (seen : gset string) : list Diagnostic :=
  match names with
  | [] => []
  | n :: names =>
      app (when (bool_decide (n ∈ seen)) (error ("duplicate " ++ what ++ " name '" ++ n ++ "'")))
        (duplicates what names ({[n]} ∪ seen))
  end.
Definition channel_names (ast : Croniqfile) : gset string :=
  list_to_set (flat_map (fun i => match i with
    | IAlerts subs =>
        omap (fun sb => if String.eqb (sv_value (block_name sb)) "channel"
                        then sv_value <$> block_qualifier sb else None) subs
    | _ => []
    end) ast).
Definition has_imports (ast : Croniqfile) : bool :=
  existsb (fun i => match i with IImport _ => true | _ => false end) ast.

(** What the second pass carries from item to item. *)
Record Pass := {
  ps_default_ephemeral : bool;
  ps_default_timezone : bool;
  ps_declared_before_defaults : Z;
  ps_job_keys : gset string
}.

Definition calendar_refs (job : JobBlock) (calendar_names : gset string) : list Diagnostic :=
  match jb_schedule job with
  | None => []
  | Some sched =>
      flat_map (fun a =>
        when (negb (sv_is_placeholder a) && negb (bool_decide (sv_value a ∈ calendar_names)))
          (error ("calendar '" ++ sv_value a ++ "' referenced in job '" ++ key_raw (jb_key job) ++ "' is not defined")))
        (flat_map dir_args (List.filter (is_key "calendar") (sched_options sched)))
  end.
(** The [Item::Job] arm *)
Definition validate_job (opts : Options) (calendar_names group_names : gset string) (st : Pass) (job : JobBlock)
    : list Diagnostic :=
  let key := jb_key job in
  concat [
    when (bool_decide (key_raw key ∈ ps_job_keys st)) (error ("duplicate job key '" ++ key_raw key ++ "'"));
    when (str_is_empty (key_namespace key) || str_is_empty (key_name key)
          || bool_decide (key_variant key = Some ""))
      (error ("job key '" ++ key_raw key ++ "' has an empty segment — write `namespace:name` or "
              ++ "`namespace:name:variant`"));
    when (bool_decide (jb_schedule job = None)) (error ("job '" ++ key_raw key ++ "' has no schedule"));
    when (check_calendars opts) (calendar_refs job calendar_names);
    match jb_schedule job with Some sched => validate_schedule_kind sched | None => [] end;
    when (check_job_times opts) (flat_map error (job_time_errors job));
    validate_timezone job (ps_default_timezone st);
    validate_runner_constraints job;
    validate_duration_directives (jb_directives job);
    validate_priority_directives (jb_directives job);
    validate_concurrency job (ps_default_ephemeral st) group_names
  ].
(** The [Item::Defaults] arm *)
Definition defaults_ephemeral (l : list DirectiveOrBlock) (e : bool) : bool :=
  fold_key "execution_mode" (fun d e => match head (words d) with
                                        | Some v => String.eqb v "ephemeral"
                                        | None => e
                                        end) (directives_in l) e.
Definition defaults_timezone (l : list DirectiveOrBlock) (tz : bool) : bool :=
  fold_key "timezone" (fun d _ => (validate_timezone_value d).2) (directives_in l) tz.
Definition validate_defaults (st : Pass) (l : list DirectiveOrBlock) : list Diagnostic :=
  concat [
    when (0 <? ps_declared_before_defaults st)
      (warning ("`defaults { }` applies only to jobs, calendars and imports declared "
                ++ "after it; " ++ show_uint (ps_declared_before_defaults st) ++ " above it do not inherit it — "
                ++ "move it to the top of the file"));
    validate_duration_directives l;
    validate_priority_directives l;
    timezone_diags (directives_in l)
  ].
Definition counts_as_declared (i : Item) : bool :=
  match i with IJob _ | ICalendar _ _ | IImport _ => true | _ => false end.
Definition pass_item (st : Pass) (i : Item) : Pass := {|
  ps_default_ephemeral := match i with IDefaults l => defaults_ephemeral l (ps_default_ephemeral st)
                                     | _ => ps_default_ephemeral st end;
  ps_default_timezone := match i with IDefaults l => defaults_timezone l (ps_default_timezone st)
                                    | _ => ps_default_timezone st end;
  ps_declared_before_defaults := ps_declared_before_defaults st + (if counts_as_declared i then 1 else 0);
  ps_job_keys := match i with IJob job => {[key_raw (jb_key job)]} ∪ ps_job_keys st | _ => ps_job_keys st end |}.
Definition validate_item (opts : Options) (calendar_names group_names alert_channels : gset string)
    (check_channel_refs : bool) (st : Pass) (i : Item) : list Diagnostic :=
  match i with
  | IDefaults l => validate_defaults st l
  | IJob job => validate_job opts calendar_names group_names st job
  | ICalendar name rules => when (check_calendars opts) (validate_calendar name rules (ps_default_timezone st))
  | IConcurrencyGroup name ds => validate_concurrency_group name ds
  | IAlerts subs => validate_alerts alert_channels check_channel_refs subs ∅
  | _ => []
  end.
Fixpoint validate_items (opts : Options) (calendar_names group_names alert_channels : gset string)
    (check_channel_refs : bool) (st : Pass) (items : list Item) : list Diagnostic :=
  match items with
  | [] => []
  | i :: items =>
      app (validate_item opts calendar_names group_names alert_channels check_channel_refs st i)
        (validate_items opts calendar_names group_names alert_channels check_channel_refs (pass_item st i) items)
  end.

(** [validate_with], [validate] *)
Definition validate_with (ast : Croniqfile) (opts : Options) : list Diagnostic :=
  let calendars := omap calendar_name ast in
  let groups := omap group_name ast in
  concat [
    duplicates "calendar" calendars ∅;
    duplicates "concurrency_group" groups ∅;
    validate_blocks ast;
    validate_items opts (list_to_set calendars) (list_to_set groups) (channel_names ast)
      (negb (has_imports ast)) (Build_Pass false false 0 ∅) ast
  ].
Definition validate (ast : Croniqfile) : list Diagnostic := validate_with ast options_default.

(** ** The server's load ([croniq-server/src/loader.rs]) *)

Definition LOADER_VALIDATE : Options := {| check_calendars := false; check_job_times := false |}.
(** [validate_ast]: the messages of a refused load; warnings are logged. *)
Definition is_error (d : Diagnostic) : bool := bool_decide (dg_severity d = SevError).
Definition validate_ast (ast : Croniqfile) : result unit (list string) :=
  match map dg_message (List.filter is_error (validate_with ast LOADER_VALIDATE)) with
  | [] => Ok tt
  | messages => Err messages
  end.
End Validate.
