(* ===== verification/ValidateFacts.v ===== *)
(** * What a validated file means

    Facts on [Validate.v] and [BlockDirectives.v] together with the compiler:
    the guards of a file without errors are in force, its durations are what
    they say, and where the checks of the server let something through. *)

From S2P Require Import Prelude RustStr Chrono Ast Lexer Parser Format CalendarArgs Durations Execution Schedule Calendar JobConfig Alerts.
From S2P Require Import Requeue Dispatch TriggerApi Compile CompileFacts BlockDirectives Validate.

Local Open Scope string_scope.
Local Open Scope Z_scope.

(** ** Files without errors *)

Definition no_errors (l : list Diagnostic) : bool :=
  forallb (fun d => bool_decide (dg_severity d = SevWarning)) l.

Lemma no_errors_app l1 l2 : no_errors (app l1 l2) = no_errors l1 && no_errors l2.
Proof. apply forallb_app. Qed.

Lemma no_errors_concat ls : no_errors (concat ls) = forallb no_errors ls.
Proof. induction ls as [|l ls IH]; [done|]. cbn [concat forallb]. by rewrite no_errors_app, IH. Qed.

Lemma no_errors_when b m : no_errors (when b (error m)) = negb b.
Proof. by destruct b. Qed.

Lemma no_errors_when_warning b m : no_errors (when b (warning m)) = true.
Proof. by destruct b. Qed.

Lemma no_errors_flat_map {A} (f : A -> list Diagnostic) l :
  no_errors (flat_map f l) = forallb (fun x => no_errors (f x)) l.
Proof. induction l as [|x l IH]; [done|]. simpl. by rewrite no_errors_app, IH. Qed.

Lemma forallb_elem {A} (p : A -> bool) l x : forallb p l = true -> x ∈ l -> p x = true.
Proof. intros H Hx. rewrite forallb_forall in H. apply H, list_elem_of_In, Hx. Qed.

(** ** Literal values *)

Definition literal_directives (ds : list Directive) : bool := forallb (fun d => negb (has_placeholder d)) ds.

Lemma literal_elem ds d : literal_directives ds = true -> d ∈ ds -> has_placeholder d = false.
Proof. intros H Hd. by apply (forallb_elem _ _ _ H), negb_true_iff in Hd. Qed.

(** A group written out: no placeholder, and a name that is not empty. *)
Definition literal_group (i : Item) : bool :=
  match i with
  | IConcurrencyGroup name ds =>
      negb (sv_is_placeholder name) && negb (str_is_empty (sv_value name)) && literal_directives ds
  | _ => true
  end.

Section Facts.
  Context `{C : Chrono}.
  Context (env_var : string -> option string) (read_file : string -> result string string).
  Context (exec_json : RunnerExec -> option string).
  Context (TZ_VARIANTS : list string) (visit : gset string -> list string).

Lemma resolve_literal vars v : sv_is_placeholder v = false -> resolve_str env_var read_file vars v = sv_value v.
Proof. intros H. unfold resolve_str. by rewrite H. Qed.

Lemma first_arg_literal vars d :
  has_placeholder d = false -> first_arg env_var read_file vars d = head (words d).
Proof.
  unfold has_placeholder, first_arg, words. destruct (dir_args d) as [|a l]; [done|].
  simpl. intros H. b2p. by rewrite resolve_literal.
Qed.

(** ** The checks of an item *)

Definition pass_over (pre : list Item) (st : Pass) : Pass := fold_left (pass_item TZ_VARIANTS) pre st.
Definition start_pass : Pass := Build_Pass false false 0 ∅.
Definition names_of (f : Item -> option string) (ast : Croniqfile) : gset string := list_to_set (omap f ast).
Definition item_diags (ast : Croniqfile) (opts : Options) : Pass -> Item -> list Diagnostic :=
  validate_item TZ_VARIANTS visit opts (names_of calendar_name ast) (names_of group_name ast) (channel_names ast)
    (negb (has_imports ast)).

Lemma validate_items_at opts cals groups chans refs st pre i post :
  no_errors (validate_items TZ_VARIANTS visit opts cals groups chans refs st (pre ++ i :: post)) = true ->
  no_errors (validate_item TZ_VARIANTS visit opts cals groups chans refs (pass_over pre st) i) = true.
Proof.
  revert st. induction pre as [|x pre IH]; intros st; cbn [app validate_items]; rewrite no_errors_app;
    intros H; b2p; [done|]. by apply IH.
Qed.

Lemma validated_item opts pre i post :
  let ast := (pre ++ i :: post)%list in
  no_errors (validate_with TZ_VARIANTS visit ast opts) = true ->
  no_errors (item_diags ast opts (pass_over pre start_pass) i) = true.
Proof.
  intros ast. unfold validate_with. rewrite no_errors_concat. cbn [forallb]. intros H. b2p.
  by apply validate_items_at with (post := post).
Qed.

Lemma validated_block opts ast i :
  no_errors (validate_with TZ_VARIANTS visit ast opts) = true -> i ∈ ast -> no_errors (validate_block i) = true.
Proof.
  unfold validate_with. rewrite no_errors_concat. cbn [forallb]. intros H Hi. b2p.
  unfold validate_blocks in *. rewrite no_errors_flat_map in *.
  match goal with H : forallb _ ast = true |- _ => by apply (forallb_elem _ _ _ H) end.
Qed.

(** ** The execution mode *)

Definition mode_word (d : Directive) (e : bool) : bool :=
  match head (words d) with Some v => String.eqb v "ephemeral" | None => e end.
Definition mode_ok (d : Directive) : Prop :=
  has_placeholder d = false /\
  (is_key "execution_mode" d = true -> no_errors (check_value SCALAR_VALUES d) = true).

Lemma checked_mode d :
  mode_ok d -> is_key "execution_mode" d = true ->
  exists v, words d = [v] /\ (v = "queued" \/ v = "ephemeral").
Proof.
  intros [Hp Hc] Hk. specialize (Hc Hk). unfold is_key in Hk. apply String.eqb_eq in Hk.
  unfold check_value in Hc. rewrite Hk, Hp in Hc. simpl in Hc.
  destruct (words d) as [|v [|]]; simpl in Hc; try discriminate Hc. exists v. split; [done|].
  destruct (String.eqb_spec v "queued") as [E|]; [by left|].
  destruct (String.eqb_spec v "ephemeral") as [E|]; [by right|done].
Qed.

Definition is_ephemeral (m : ExecutionMode) : bool := bool_decide (m = ModeEphemeral).

(** The compiler and the validator fold the mode the same way. *)
Lemma modes_agree vars ds m :
  Forall mode_ok ds ->
  is_ephemeral (fold_key "execution_mode" (parse_value env_var read_file vars mode_parse) ds m)
  = fold_key "execution_mode" mode_word ds (is_ephemeral m).
Proof.
  intros Hds. revert m. unfold fold_key. induction Hds as [|d ds Hd _ IH]; intros m; [done|].
  cbn [fold_left]. rewrite IH. f_equal. unfold at_key.
  destruct (String.eqb (sv_value (dir_key d)) "execution_mode") eqn:E; [|done].
  destruct (checked_mode d Hd E) as (v & Hv & Hw). destruct Hd as [Hp _].
  unfold parse_value, mode_word. rewrite first_arg_literal, Hv by done. by destruct Hw as [->| ->].
Qed.

Lemma pass_ephemeral pre st :
  ps_default_ephemeral (pass_over pre st)
  = fold_key "execution_mode" mode_word (inherited pre) (ps_default_ephemeral st).
Proof.
  revert st. unfold pass_over. induction pre as [|i pre IH]; intros st; [done|].
  cbn [fold_left]. rewrite IH. unfold inherited. cbn [map concat]. rewrite <- fold_key_app.
  by destruct i.
Qed.

Lemma mode_agrees vars pre job limits :
  Forall mode_ok (inherited pre) -> Forall mode_ok (directives_in (jb_directives job)) ->
  is_ephemeral (jc_execution_mode (compiled_job env_var read_file exec_json vars job
                                     (defaults_after env_var read_file vars pre builtin_defaults) limits))
  = job_is_ephemeral job (ps_default_ephemeral (pass_over pre start_pass)).
Proof.
  intros Hpre Hown. unfold compiled_job, compile_job. cbn [jc_execution_mode]. rewrite modes_agree by done.
  unfold job_is_ephemeral. f_equal. rewrite pass_ephemeral.
  change (ps_default_ephemeral start_pass) with (is_ephemeral (jd_default_execution_mode builtin_defaults)).
  rewrite <- (modes_agree vars) by done.
  rewrite <- (inherited_field env_var read_file jd_default_execution_mode "execution_mode" _ vars) by done.
  destruct (jb_schedule job) as [sch|]; [|done]. simpl. by destruct (sched_mode sch) as [[]|].
Qed.

(** The directives in a job's scope, checked. *)
Lemma elem_of_directives d l : d ∈ directives_in l -> DDirective d ∈ l.
Proof.
  unfold directives_in. intros (x & Hx & Hd)%list_elem_of_omap. destruct x; simplify_eq. done.
Qed.

Lemma job_modes_ok job :
  no_errors (check_job_body job) = true -> literal_directives (directives_in (jb_directives job)) = true ->
  Forall mode_ok (directives_in (jb_directives job)).
Proof.
  intros Hc Hl. apply Forall_forall. intros d Hd. pose proof (literal_elem _ _ Hl Hd) as Hp.
  split; [done|]. intros Hk. unfold check_job_body in Hc. rewrite no_errors_flat_map in Hc.
  apply elem_of_directives in Hd. pose proof (forallb_elem _ _ _ Hc Hd) as H. cbn beta iota in H.
  unfold check_job_directive in H. apply String.eqb_eq in Hk.
  by replace (one_of (key_of d) JOB) with true in H by (by rewrite Hk).
Qed.

Lemma inherited_modes_ok pre :
  forallb (fun i => no_errors (validate_block i)) pre = true -> literal_directives (inherited pre) = true ->
  Forall mode_ok (inherited pre).
Proof.
  intros Hc Hl. apply Forall_forall. intros d Hd. pose proof (literal_elem _ _ Hl Hd) as Hp.
  split; [done|]. intros _. unfold inherited in Hd.
  apply list_elem_of_In, in_concat in Hd as (l & Hl' & Hd). apply in_map_iff in Hl' as (i & <- & Hi).
  rewrite forallb_forall in Hc. specialize (Hc i Hi). destruct i; try done. simpl in *.
  rewrite no_errors_flat_map in Hc. apply list_elem_of_In, elem_of_directives in Hd.
  pose proof (forallb_elem _ _ _ Hc Hd) as H. simpl in H. rewrite no_errors_app in H. b2p. done.
Qed.

(** ** Guards *)

Lemma concurrency_loop_each job groups ds s m d :
  no_errors (concurrency_loop job groups ds s m) = true -> d ∈ ds ->
  (is_key "max_concurrent" d = true -> no_errors (validate_max_concurrent job d) = true) /\
  (is_key "concurrency_group" d = true -> no_errors (validate_group_ref job groups d) = true).
Proof.
  revert s m. induction ds as [|x ds IH]; intros s m H Hd; [by apply elem_of_nil in Hd|].
  cbn [concurrency_loop] in H.
  apply elem_of_cons in Hd as [->|Hd].
  - unfold is_key in *. destruct (String.eqb_spec (key_of x) "singleton") as [E|_].
    { rewrite E. done. }
    destruct (String.eqb_spec (key_of x) "max_concurrent") as [E|_].
    { rewrite E. rewrite !no_errors_app in H. b2p. done. }
    destruct (String.eqb_spec (key_of x) "coalesce") as [E|_].
    { rewrite E. done. }
    destruct (String.eqb_spec (key_of x) "concurrency_group") as [E|_]; [|done].
    rewrite no_errors_app in H. b2p. done.
  - repeat case_if_in H; rewrite ?no_errors_app in H; b2p; by eapply IH.
Qed.

Lemma checked_limit vars job d :
  has_placeholder d = false -> is_key "max_concurrent" d = true ->
  no_errors (validate_max_concurrent job d) = true ->
  exists n, run_limit env_var read_file vars d = Some n /\ 0 < n.
Proof.
  unfold run_limit, arg. intros Hp Hk. rewrite first_arg_literal by done.
  unfold is_key, key_of in Hk. apply String.eqb_eq in Hk. rewrite Hk. simpl.
  unfold validate_max_concurrent, has_placeholder, words in *.
  destruct (dir_args d) as [|a l]; [done|]. simpl in Hp. b2p.
  match goal with E : sv_is_placeholder a = false |- _ => rewrite E end. simpl.
  destruct (parse_u32 (sv_value a)) as [n|] eqn:E; [|done]. rewrite no_errors_when. intros Hn. b2p.
  simpl. exists n. unfold positive. apply parse_uint_range in E; [|done].
  rewrite (proj2 (Z.ltb_lt 0 n)) by lia. split; [done|lia].
Qed.

Lemma checked_reference job groups d g :
  has_placeholder d = false -> no_errors (validate_group_ref job groups d) = true ->
  head (words d) = Some g -> g ∈ groups.
Proof.
  unfold validate_group_ref, has_placeholder, words. destruct (dir_args d) as [|a l]; [done|].
  simpl. intros Hp H [= <-]. rewrite no_errors_when in H. b2p.
  match goal with E : sv_is_placeholder a = false |- _ => rewrite E in H end.
  by destruct H as [H|H]; [|apply negb_false_iff, bool_decide_eq_true in H].
Qed.

(** A checked group is one the compiler keeps. *)
Definition has_group (g : string) (groups : list ConcurrencyGroupConfig) : bool :=
  existsb (fun x => String.eqb (cg_name x) g) groups.

Lemma collect_keeps vars groups i g :
  has_group g groups = true -> has_group g (collect_group env_var read_file vars groups i) = true.
Proof.
  intros H. destruct i; try done. simpl. case_if; [done|]. destruct (group_limit _ _ _ _); [|done].
  unfold has_group. by rewrite existsb_app, orb_true_iff; left.
Qed.

Lemma checked_group_limit vars name ds :
  no_errors (validate_concurrency_group name ds) = true -> literal_directives ds = true ->
  is_Some (group_limit env_var read_file vars ds).
Proof.
  unfold validate_concurrency_group, group_limit. intros H Hl.
  change (fun d => String.eqb (sv_value (dir_key d)) "max_concurrent") with (is_key "max_concurrent").
  destruct (find _ ds) as [d|] eqn:Ed; [|done]. apply find_some in Ed as [Hd _].
  simpl. rewrite first_arg_literal by (eapply literal_elem, list_elem_of_In, Hd; done).
  apply list_elem_of_In in Hd. pose proof (literal_elem _ _ Hl Hd) as Hp.
  unfold has_placeholder, words in *. destruct (dir_args d) as [|a l]; [done|]. simpl in Hp |- *. b2p.
  match goal with E : sv_is_placeholder a = false |- _ => rewrite E in H end. simpl in H.
  destruct (parse_u32 (sv_value a)) as [n|] eqn:En; [|done]. rewrite no_errors_when in H. b2p. simpl.
  apply parse_uint_range in En; [|done]. rewrite (proj2 (Z.ltb_lt 0 n)) by lia. by eexists.
Qed.

Lemma collect_adds vars groups name ds :
  literal_group (IConcurrencyGroup name ds) = true ->
  no_errors (validate_concurrency_group name ds) = true ->
  has_group (sv_value name) (collect_group env_var read_file vars groups (IConcurrencyGroup name ds)) = true.
Proof.
  simpl. intros Hl Hc. b2p. rewrite resolve_literal by done.
  match goal with E : str_is_empty _ = false |- _ => rewrite E end. simpl.
  destruct (existsb _ groups) eqn:E; [done|].
  destruct (checked_group_limit vars name ds) as [n ->]; [done..|].
  unfold has_group. rewrite existsb_app, orb_true_iff. right. simpl. by rewrite String.eqb_refl.
Qed.

Lemma declared_group_limit vars ast name ds :
  IConcurrencyGroup name ds ∈ ast -> literal_group (IConcurrencyGroup name ds) = true ->
  no_errors (validate_concurrency_group name ds) = true ->
  is_Some (limits_of (collect_concurrency_groups env_var read_file vars ast) !! sv_value name).
Proof.
  intros Hin Hl Hc.
  assert (has_group (sv_value name) (collect_concurrency_groups env_var read_file vars ast) = true) as Hg.
  { unfold collect_concurrency_groups. apply list_elem_of_split in Hin as (l1 & l2 & ->).
    rewrite fold_left_app. cbn [fold_left]. pose proof (collect_adds vars (fold_left (collect_group env_var read_file vars) l1 []) name ds Hl Hc) as H.
    revert H. generalize (collect_group env_var read_file vars (fold_left (collect_group env_var read_file vars) l1 []) (IConcurrencyGroup name ds)).
    induction l2 as [|i l2 IH]; intros gs H; [done|]. apply IH, collect_keeps, H. }
  apply existsb_exists in Hg as ([g n] & Hin' & E). apply String.eqb_eq in E. simpl in E. subst g.
  exists n. apply limits_lookup; [apply collected_groups_ok|]. by apply list_elem_of_In.
Qed.

Definition compiled_of := compiled env_var read_file exec_json.

(** The group a job names, among those of its file. *)
Lemma checked_group_kept opts ast g :
  no_errors (validate_with TZ_VARIANTS visit ast opts) = true -> forallb literal_group ast = true ->
  g ∈ names_of group_name ast ->
  is_Some (limits_of (rt_concurrency_groups (compiled_of ast)) !! g).
Proof.
  intros Hv Hl Hg. unfold names_of in Hg. apply elem_of_list_to_set, list_elem_of_omap in Hg as (i & Hi & Hn).
  destruct i as [| | | | | | | | | | | | |name ds| |]; try done. injection Hn as <-.
  pose proof (forallb_elem _ _ _ Hl Hi) as Hlit.
  unfold compiled_of. rewrite compiled_groups. apply declared_group_limit with (ds := ds); [done..|].
  apply list_elem_of_split in Hi as (pre & post & ->).
  exact (validated_item opts pre _ post Hv).
Qed.

(** What the checks of a file say of one of its jobs. *)
Lemma validated_job opts pre job post :
  let ast := (pre ++ IJob job :: post)%list in
  no_errors (validate_with TZ_VARIANTS visit ast opts) = true ->
  no_errors (validate_concurrency job (ps_default_ephemeral (pass_over pre start_pass)) (names_of group_name ast)) = true /\
  no_errors (check_job_body job) = true /\ forallb (fun i => no_errors (validate_block i)) pre = true.
Proof.
  intros ast Hv. split; [|split].
  - pose proof (validated_item opts pre (IJob job) post Hv) as H.
    unfold item_diags, validate_item, validate_job in H. rewrite no_errors_concat in H. cbn [forallb] in H. b2p. done.
  - apply (validated_block opts ast (IJob job)); [done|]. subst ast. set_solver.
  - apply forallb_forall. intros i Hi. apply (validated_block opts ast); [done|].
    apply list_elem_of_In in Hi. subst ast. set_solver.
Qed.

Lemma guarded_not_ephemeral job e groups :
  no_errors (validate_concurrency job e groups) = true ->
  let ds := directives_in (jb_directives job) in
  existsb (fun d => limits_runs d || is_key "concurrency_group" d || is_key "coalesce" d) ds = true ->
  job_is_ephemeral job e = false.
Proof.
  intros Hv ds Hg. unfold validate_concurrency in Hv. rewrite !no_errors_app, !no_errors_when in Hv.
  fold ds in Hv. destruct (job_is_ephemeral job e); [exfalso|done].
  rewrite !andb_true_r in Hv. b2p. apply existsb_exists in Hg as (d & Hd & Hk).
  assert (forall p, existsb p ds = false -> p d = false) as Hnone.
  { intros p Hp. destruct (p d) eqn:E; [|done]. rewrite <- not_true_iff_false in Hp. exfalso.
    apply Hp, existsb_exists. eauto. }
  destruct (is_key "concurrency_group" d) eqn:E1; [by rewrite Hnone in E1|].
  destruct (is_key "coalesce" d) eqn:E2; [by rewrite Hnone in E2|].
  unfold first_guard in *. destruct (find _ ds) as [x|] eqn:Ef; [done|].
  apply find_none with (x := d) in Ef; [|done]. rewrite !orb_false_r in Hk.
  unfold limits_runs in Hk. unfold is_key, key_of in Ef. congruence.
Qed.

Lemma last_keyed key (ds : list Directive) d :
  last (keyed key ds) = Some d -> d ∈ ds /\ is_key key d = true.
Proof.
  intros H. apply last_Some_elem_of, list_elem_of_In, List.filter_In in H as [H1 H2].
  split; [by apply list_elem_of_In|done].
Qed.

Lemma last_guard (ds : list Directive) d :
  last (List.filter limits_runs ds) = Some d -> d ∈ ds /\ limits_runs d = true.
Proof.
  intros H. apply last_Some_elem_of, list_elem_of_In, List.filter_In in H as [H1 H2].
  split; [by apply list_elem_of_In|done].
Qed.

Lemma guard_present (p : Directive -> bool) ds d :
  d ∈ ds -> p d = true -> existsb p ds = true.
Proof. intros Hd Hp. apply existsb_exists. exists d. split; [by apply list_elem_of_In|done]. Qed.

Lemma run_limit_literal vars vars' d :
  has_placeholder d = false -> run_limit env_var read_file vars d = run_limit env_var read_file vars' d.
Proof. intros Hp. unfold run_limit, arg. by rewrite !first_arg_literal. Qed.

Lemma literal_limit key groups ds d :
  no_errors (concurrency_loop key groups ds false false) = true -> d ∈ ds ->
  has_placeholder d = false -> limits_runs d = true ->
  exists n, run_limit env_var read_file ∅ d = Some n /\ 0 < n.
Proof.
  intros Hl Hd Hp Hk. unfold limits_runs in Hk. unfold run_limit.
  destruct (String.eqb (sv_value (dir_key d)) "singleton") eqn:E; [by exists 1|]. simpl in Hk.
  destruct (checked_limit ∅ key d Hp Hk) as (n & Hn & Hpos).
  { by eapply concurrency_loop_each. }
  unfold run_limit in Hn. rewrite E in Hn. eauto.
Qed.

Lemma fold_key_true key d ds :
  d ∈ ds -> is_key key d = true -> fold_key key (fun _ _ => true) ds false = true.
Proof.
  intros Hd Hk. rewrite fold_key_keyed, fold_last.
  destruct (last (keyed key ds)) as [x|] eqn:E; [done|]. apply last_None in E.
  assert (d ∈ keyed key ds) as H by (by apply list_elem_of_In, List.filter_In; split; [apply list_elem_of_In|]).
  rewrite E in H. by apply elem_of_nil in H.
Qed.

(** C20. The guards a validated file writes are in force. When [validate] finds
    no error, a job with a [singleton] or [max_concurrent] compiles with that
    positive limit, a job that names a group compiles into that group, with a
    budget, and a job with [coalesce] folds: nothing is dropped on the way, in
    particular not because the job is ephemeral. This is for values written out (a
    placeholder is only known when it is resolved) in the job, the defaults above
    it and the groups, and for groups with a name: validation accepts a group
    named by the empty string, which the compiler drops
    ([unnamed_group_is_dropped]). *)
Theorem validated_guards_are_in_force opts pre job post :
  let ast := (pre ++ IJob job :: post)%list in
  let own := directives_in (jb_directives job) in
  no_errors (validate_with TZ_VARIANTS visit ast opts) = true ->
  literal_directives (inherited pre) = true -> literal_directives own = true ->
  forallb literal_group ast = true ->
  exists j, rt_jobs (compiled_of ast) !! length (List.filter is_job pre) = Some j /\
    (forall d, last (List.filter limits_runs own) = Some d ->
       exists n, jc_max_concurrent j = Some n /\ run_limit env_var read_file ∅ d = Some n /\ 0 < n) /\
    (forall d g, last (keyed "concurrency_group" own) = Some d -> head (words d) = Some g ->
       jc_concurrency_group j = Some g /\
       exists n, Build_ConcurrencyGroupConfig g n ∈ rt_concurrency_groups (compiled_of ast) /\ 0 < n) /\
    (existsb (is_key "coalesce") own = true -> jc_coalesce j = true).
Proof.
  intros ast own Hv Hpre Hown Hgroups. destruct (validated_job opts pre job post Hv) as (Hcon & Hbody & Hblocks).
  set (vars := vars_of env_var read_file ast). set (limits := limits_of (rt_concurrency_groups (compiled_of ast))).
  eexists. split; [unfold compiled_of; rewrite compiled_jobs; apply compile_items_at|].
  pose proof (mode_agrees vars pre job limits (inherited_modes_ok pre Hblocks Hpre) (job_modes_ok job Hbody Hown)) as Hmode.
  pose proof (guarded_not_ephemeral _ _ _ Hcon) as Hguard. cbv zeta in Hguard. fold own in Hguard.
  unfold validate_concurrency in Hcon. rewrite no_errors_app in Hcon. apply andb_true_iff in Hcon as [Hloop _].
  unfold compiled_job, compile_job, is_ephemeral in Hmode |- *.
  cbn [jc_execution_mode jc_max_concurrent jc_concurrency_group jc_coalesce] in Hmode |- *.
  fold own vars limits in Hmode, Hloop |- *. rewrite Hmode. split; [|split].
  - intros d Hd. destruct (last_guard _ _ Hd) as [Hin Hk].
    rewrite Hguard by (eapply guard_present; [exact Hin|by rewrite Hk]).
    rewrite limit_fold_last, Hd. simpl.
    rewrite (run_limit_literal vars ∅ d) by (by apply (literal_elem _ _ Hown)).
    destruct (literal_limit _ _ _ d Hloop Hin (literal_elem _ _ Hown Hin) Hk) as (n & Hn & Hpos). eauto.
  - intros d g Hd Hg. destruct (last_keyed _ _ _ Hd) as [Hin Hk].
    rewrite Hguard by (eapply guard_present; [exact Hin|by rewrite Hk, orb_true_r]).
    destruct (checked_group_kept opts ast g Hv Hgroups) as [n Hn].
    { eapply checked_reference; [by apply (literal_elem _ _ Hown)|by eapply concurrency_loop_each|done]. }
    fold limits in Hn. split.
    + rewrite fold_key_set. unfold last_set. rewrite Hd. simpl. rewrite first_arg_literal, Hg by (by apply (literal_elem _ _ Hown)).
      simpl. by rewrite bool_decide_eq_true_2 by (by exists n).
    + exists n. pose proof (compiled_groups_ok env_var read_file exec_json ast) as Hok.
      apply limits_lookup in Hn; [|done]. split; [done|].
      destruct Hok as [_ Hall]. rewrite Forall_forall in Hall. by destruct (Hall _ Hn) as [_ [? _]].
  - intros Hc. apply existsb_exists in Hc as (d & Hd & Hk). apply list_elem_of_In in Hd.
    rewrite Hguard by (eapply guard_present; [exact Hd|by rewrite Hk, orb_true_r]).
    by apply (fold_key_true "coalesce" d).
Qed.

(** ** Durations *)

(** What the words of a duration stand for. *)
Definition denotes (ws : list string) (n : Z) (u : TimeUnit) : Prop :=
  match ws with
  | [v] => exists s, v = s +:+ unit_suffix u /\ parse_u64 s = Some n
  | [count; unit] => parse_u64 count = Some n /\ verbose_duration_unit unit = Some (unit_suffix u)
  | _ => False
  end.

Lemma compact_denotes v : is_compact_duration v = true -> exists n u, denotes [v] n u.
Proof.
  unfold is_compact_duration. intros H. b2p.
  assert (forall s u, v = s +:+ unit_suffix u -> parse_u64 s <> None -> exists n u, denotes [v] n u) as Hd.
  { intros s u Hv Hs. destruct (parse_u64 s) as [n|] eqn:E; [|done]. exists n, u, s. done. }
  match goal with H : bool_decide _ = true |- _ => apply bool_decide_eq_true in H as [n Hn] end.
  cbn [omap list_omap] in Hn.
  destruct (strip_suffix "ms" v) as [s|] eqn:E1; [apply strip_suffix_app in E1; apply (Hd s UMs); simpl in *; congruence|].
  destruct (strip_suffix "s" v) as [s|] eqn:E2; [apply strip_suffix_app in E2; apply (Hd s US); simpl in *; congruence|].
  destruct (strip_suffix "m" v) as [s|] eqn:E3; [apply strip_suffix_app in E3; apply (Hd s UM); simpl in *; congruence|].
  destruct (strip_suffix "h" v) as [s|] eqn:E4; [apply strip_suffix_app in E4; apply (Hd s UH); simpl in *; congruence|].
  destruct (strip_suffix "d" v) as [s|] eqn:E5; [apply strip_suffix_app in E5; apply (Hd s UD); simpl in *; congruence|].
  apply (Hd v UBare); [by rewrite str_app_nil|]. simpl in Hn. congruence.
Qed.

Lemma verbose_unit word suffix :
  verbose_duration_unit word = Some suffix -> exists u, suffix = unit_suffix u.
Proof.
  unfold verbose_duration_unit. repeat case_if; intros [= <-];
  [by exists UMs|by exists US|by exists UM|by exists UH|by exists UD].
Qed.

Lemma reads_denotes ws : reads_as_duration ws = true -> exists n u, denotes ws n u.
Proof.
  destruct ws as [|a [|b [|]]]; try done; [apply compact_denotes|]. simpl. intros H. b2p.
  repeat match goal with H : bool_decide _ = true |- _ => apply bool_decide_eq_true in H as [? ?] end.
  match goal with H : verbose_duration_unit b = Some _ |- _ => destruct (verbose_unit _ _ H) as [u ->] end. eauto.
Qed.

Lemma duration_arg_denotes vars d n u :
  has_placeholder d = false -> denotes (words d) n u ->
  exists s, duration_arg env_var read_file vars d = Some (s +:+ unit_suffix u) /\ parse_u64 s = Some n.
Proof.
  unfold duration_arg. intros Hp. rewrite first_arg_literal by done.
  unfold has_placeholder, words in *. destruct (dir_args d) as [|a [|b [|]]]; try done.
  - intros (s & Hv & Hs). simpl in *. rewrite Hv. eauto.
  - simpl in *. intros [Hc Hu]. b2p. rewrite resolve_literal by done. rewrite Hu.
    pose proof (trim_numeral_suffix (sv_value a) "" (numeral_parses _ _ Hc) ltac:(set_solver)) as Ht.
    rewrite str_app_nil in Ht. rewrite Ht, Hc. eauto.
Qed.

Lemma denoted_timeout md s n u :
  md !! TIMEOUT_METADATA_KEY = None -> parse_u64 s = Some n ->
  parse_duration (effective_timeout md (Some (s +:+ unit_suffix u)))
  = Some (if n * unit_millis u <=? U64_MAX then n * unit_millis u * NS_MS else 300 * NS_SEC).
Proof.
  intros Hm Hs. pose proof (parse_duration_numeral s n u Hs) as Hp.
  assert (trim (s +:+ unit_suffix u) = s +:+ unit_suffix u) as Ht.
  { apply trim_numeral_suffix; [by eapply numeral_parses|]. destruct u; cbn; repeat constructor. }
  destruct (n * unit_millis u <=? U64_MAX).
  - erewrite effective_timeout_parses; [|done..|]; unfold parse_duration; by rewrite Hp.
  - unfold effective_timeout. rewrite Hm. simpl. rewrite Ht. unfold parse_duration at 2. by rewrite Hp.
Qed.

(** The durations of every [defaults] block and of the job have been checked. *)
Lemma checked_durations opts pre job post d :
  let ast := (pre ++ IJob job :: post)%list in
  no_errors (validate_with TZ_VARIANTS visit ast opts) = true ->
  d ∈ (inherited pre ++ directives_in (jb_directives job))%list ->
  no_errors (validate_duration_directive d) = true.
Proof.
  intros ast Hv [Hd|Hd]%elem_of_app.
  - unfold inherited in Hd. apply list_elem_of_In, in_concat in Hd as (l & Hl & Hd).
    apply in_map_iff in Hl as (i & <- & Hi). apply list_elem_of_In in Hd.
    destruct i; try (by apply elem_of_nil in Hd).
    apply list_elem_of_In, list_elem_of_split in Hi as (pre1 & pre2 & ->). subst ast.
    rewrite <- app_assoc in Hv. cbn [app] in Hv.
    pose proof (validated_item opts pre1 _ _ Hv) as H. unfold item_diags, validate_item, validate_defaults in H.
    rewrite no_errors_concat in H. cbn [forallb] in H. b2p.
    unfold validate_duration_directives in *. rewrite no_errors_flat_map in *.
    match goal with H : forallb _ (directives_in _) = true |- _ => by apply (forallb_elem _ _ _ H) end.
  - pose proof (validated_item opts pre (IJob job) post Hv) as H. unfold item_diags, validate_item, validate_job in H.
    rewrite no_errors_concat in H. cbn [forallb] in H. b2p.
    unfold validate_duration_directives in *. rewrite no_errors_flat_map in *.
    match goal with H : forallb (fun x => no_errors (validate_duration_directive x)) _ = true |- _ =>
      by apply (forallb_elem _ _ _ H) end.
Qed.

(** The timeout of a validated job is the one it says: when [validate] finds
    no error and the last [timeout] in the job's scope is written out, it
    stands for a number [n] of a unit [u], compact or in words, and every
    execution that carries no stamp of its own is timed out after exactly that.
    The exception is a number whose milliseconds do not fit 64 bits, which
    passes validation: such a job runs under the built-in five minutes. *)
Theorem validated_timeout_is_in_force opts pre job post d :
  let ast := (pre ++ IJob job :: post)%list in
  let scope := (inherited pre ++ directives_in (jb_directives job))%list in
  no_errors (validate_with TZ_VARIANTS visit ast opts) = true ->
  last (keyed "timeout" scope) = Some d -> has_placeholder d = false ->
  exists j n u,
    rt_jobs (compiled_of ast) !! length (List.filter is_job pre) = Some j /\ denotes (words d) n u /\
    forall md, md !! TIMEOUT_METADATA_KEY = None ->
      parse_duration (effective_timeout md (jc_timeout j))
      = Some (if n * unit_millis u <=? U64_MAX then n * unit_millis u * NS_MS else 300 * NS_SEC).
Proof.
  intros ast scope Hv Hd Hp. destruct (last_keyed _ _ _ Hd) as [Hin Hk].
  pose proof (checked_durations opts pre job post d Hv Hin) as Hc. unfold validate_duration_directive in Hc.
  rewrite no_errors_when, Hk, Hp in Hc. cbn [orb andb negb] in Hc. rewrite negb_involutive in Hc.
  unfold duration_readable in Hc. replace (is_key "queue_ttl" d) with false in Hc.
  2:{ unfold is_key in *. apply String.eqb_eq in Hk. by rewrite Hk. }
  rewrite orb_false_r in Hc. destruct (reads_denotes _ Hc) as (n & u & Hden).
  eexists _, n, u. split; [unfold compiled_of; rewrite compiled_jobs; apply compile_items_at|].
  split; [done|]. intros md Hmd. rewrite compiled_timeout. unfold last_set. fold scope. rewrite Hd.
  cbn [mbind option_bind]. destruct (duration_arg_denotes (vars_of env_var read_file ast) d n u Hp Hden) as (s & -> & Hs).
  by apply denoted_timeout.
Qed.
End Facts.

(** ** Files, from their text *)

Definition demo_zones : list string := ["UTC"; "Europe/Vienna"].
Definition demo_validate (ast : Croniqfile) (opts : Options) : list Diagnostic :=
  validate_with (C := Demo.demo_chrono) demo_zones elements ast opts.
Definition parsed (text : string) : Croniqfile := match Parser.parse text with Ok file => file | Err _ => [] end.

Definition guarded_text : string := "concurrency_group db {
  max_concurrent 2
}
defaults {
  timeout 2 hours
  execution_mode ephemeral
}
job ops:report {
  queued every 5 minutes
  singleton
  concurrency_group db
  coalesce schedule
  timeout 90m
}
".
Definition guarded_pre : list Item := take 2 (parsed guarded_text).
Definition guarded_job : JobBlock :=
  match last (parsed guarded_text) with Some (IJob job) => job | _ => MkJob (MkJobKey "x:y" "x" "y" None) None [] end.
Definition no_env : string -> option string := fun _ => None.
Definition no_file : string -> result string string := fun _ => Err "no such file".
Definition no_json : RunnerExec -> option string := fun _ => None.

Lemma validated_guards_are_in_force_witness :
  exists j, rt_jobs (demo_compiled (guarded_pre ++ [IJob guarded_job])%list) !! 0%nat = Some j /\
    jc_max_concurrent j = Some 1 /\ jc_concurrency_group j = Some "db" /\ jc_coalesce j = true.
Proof.
  destruct (validated_guards_are_in_force (C := Demo.demo_chrono) no_env no_file no_json demo_zones elements
              options_default guarded_pre guarded_job []) as (j & Hj & Hlimit & Hgroup & Hfold);
    [vm_compute; reflexivity..|].
  exists j. split; [exact Hj|].
  destruct (Hlimit (MkDirective (plain_value "singleton") [])) as (n & Hn & Hr & _); [vm_compute; reflexivity|].
  split; [rewrite Hn; exact (eq_sym Hr)|].
  split; [|apply Hfold; vm_compute; reflexivity].
  apply (Hgroup (MkDirective (plain_value "concurrency_group") [plain_value "db"]) "db"); vm_compute; reflexivity.
Defined.

Lemma validated_timeout_is_in_force_witness :
  exists j n u, rt_jobs (demo_compiled (guarded_pre ++ [IJob guarded_job])%list) !! 0%nat = Some j /\
    denotes ["90m"] n u /\
    parse_duration (effective_timeout ∅ (jc_timeout j))
    = Some (if n * unit_millis u <=? U64_MAX then n * unit_millis u * NS_MS else 300 * NS_SEC).
Proof.
  destruct (validated_timeout_is_in_force (C := Demo.demo_chrono) no_env no_file no_json demo_zones elements
              options_default guarded_pre guarded_job [] (MkDirective (plain_value "timeout") [plain_value "90m"]))
    as (j & n & u & Hj & Hden & Hrun); [vm_compute; reflexivity..|].
  exists j, n, u. split; [exact Hj|]. split; [exact Hden|]. exact (Hrun ∅ eq_refl).
Defined.

(** ** What validation lets through *)

(** A group may be named by the empty string: the file is accepted, the compiler
    drops the group, and the job that names it runs unguarded. *)
Definition unnamed_group_text : string := "concurrency_group " ++ dq ++ dq ++ " {
  max_concurrent 1
}
job ops:report {
  every 5 minutes
  concurrency_group " ++ dq ++ dq ++ "
}
".
Example unnamed_group_is_dropped :
  demo_validate (parsed unnamed_group_text) options_default = [] /\
  map jc_concurrency_group (rt_jobs (demo_compiled (parsed unnamed_group_text))) = [None].
Proof. vm_compute. done. Qed.

(** A number of days beyond 64 bits of milliseconds is accepted. *)
Definition long_timeout_text : string := "job ops:report {
  every 5 minutes
  timeout 300000000000d
}
".
Example long_timeout_is_five_minutes :
  demo_validate (parsed long_timeout_text) options_default = [] /\
  map (fun j => effective_timeout ∅ (jc_timeout j)) (rt_jobs (demo_compiled (parsed long_timeout_text))) = ["5m"].
Proof. vm_compute. done. Qed.

(** The server loads a file whose calendar has a mistyped zone, and evaluates
    the calendar in UTC. *)
Definition mistyped_zone_text : string := "calendar biz {
  timezone Europe/Berln
  include weekly mon
}
".
Example mistyped_calendar_zone_loads_as_utc :
  no_errors (demo_validate (parsed mistyped_zone_text) options_default) = false /\
  validate_ast (C := Demo.demo_chrono) demo_zones elements (parsed mistyped_zone_text) = Ok tt /\
  map (fun c => res_ok (from_config (C := Demo.demo_chrono) c) ≫= fun cal => Some (cal_tz cal))
    (rt_calendars (demo_compiled (parsed mistyped_zone_text))) = [Some (UTC (Chrono := Demo.demo_chrono))].
Proof. vm_compute. done. Qed.
