(* ===== verification/AlertRuleFacts.v ===== *)
(** * The alerts of a validated file

    What [validate_alerts] of [Validate.v] guarantees of the rules and channels
    the compiler makes, and the case it lets through: a second [alerts] block. *)

From S2P Require Import Prelude RustStr Chrono Ast Parser Durations Execution Schedule JobConfig Alerts.
From S2P Require Import Requeue TriggerApi Compile CompileFacts BlockDirectives Validate ValidateFacts.

Local Open Scope string_scope.
Local Open Scope Z_scope.

(** A channel or rule without placeholders. *)
Definition literal_block (b : NamedBlock) : bool :=
  match block_qualifier b with Some q => negb (sv_is_placeholder q) | None => true end
  && literal_directives (body_of b).
Definition qualifier_of (b : NamedBlock) : string := default "" (sv_value <$> block_qualifier b).
Definition named (kind : string) (b : NamedBlock) : bool := String.eqb (sv_value (block_name b)) kind.

Section Facts.
  Context `{C : Chrono}.
  Context (env_var : string -> option string) (read_file : string -> result string string).
  Context (vars : gmap string string).

(** ** One rule *)

Lemma keyed_known key known ds :
  one_of key known = true ->
  keyed key (List.filter (fun d => one_of (key_of d) known) ds) = keyed key ds.
Proof.
  intros Hk. unfold keyed. induction ds as [|d ds IH]; [done|]. simpl.
  destruct (String.eqb (sv_value (dir_key d)) key) eqn:E.
  - apply String.eqb_eq in E. unfold key_of at 1. rewrite E, Hk. simpl.
    rewrite E, String.eqb_refl. by rewrite IH.
  - destruct (one_of (key_of d) known); simpl; [by rewrite E|done].
Qed.

Definition rule_keys (b : NamedBlock) : list Directive :=
  List.filter (fun d => one_of (key_of d) ALERT_RULE_KEYS) (body_of b).

Lemma rule_keys_literal b :
  literal_block b = true -> forall d, d ∈ rule_keys b -> has_placeholder d = false.
Proof.
  unfold literal_block. intros H d Hd. b2p. apply list_elem_of_In, List.filter_In in Hd as [Hd _].
  apply list_elem_of_In in Hd. by eapply literal_elem.
Qed.

(** Every [when] of a checked rule names a trigger. *)
Lemma checked_when name chans refs b d :
  literal_block b = true ->
  no_errors (validate_alert_rule name chans refs (rule_keys b)) = true ->
  d ∈ keyed "when" (rule_keys b) ->
  exists v t, words d = [v] /\ rule_trigger_parse v = Some t /\ when_trigger d = Some t.
Proof.
  intros Hl Hv Hd. apply list_elem_of_In, List.filter_In in Hd as [Hd Hk]. apply list_elem_of_In in Hd.
  unfold validate_alert_rule in Hv. rewrite !no_errors_app, no_errors_flat_map in Hv. b2p.
  match goal with H : forallb _ _ = true |- _ => pose proof (forallb_elem _ _ _ H Hd) as Hc end.
  unfold validate_rule_directive in Hc. change (String.eqb (sv_value (dir_key d)) "when") with (is_key "when" d) in Hk.
  rewrite Hk in Hc. pose proof (rule_keys_literal b Hl d Hd) as Hp.
  unfold validate_when, when_trigger in *. rewrite Hp in Hc |- *. destruct (words d) as [|v [|]]; try done.
  destruct (rule_trigger_parse v) as [t|] eqn:E; [|done]. eauto.
Qed.

Lemma fold_last_always {A} (f : Directive -> option A) (step : Directive -> option A -> option A) ds :
  (forall d acc, d ∈ ds -> step d acc = f d) ->
  fold_left (fun acc d => step d acc) ds None = last ds ≫= f.
Proof.
  intros Hs. induction ds as [|d ds _] using rev_ind; [done|].
  rewrite fold_left_app, last_snoc. simpl. apply Hs. set_solver.
Qed.

(** The compiler reads the trigger the validator reads. *)
Lemma trigger_agrees name chans refs b :
  literal_block b = true ->
  no_errors (validate_alert_rule name chans refs (rule_keys b)) = true ->
  fold_key "when" (fun d t => match first_arg env_var read_file vars d with
                              | Some v => rule_trigger_parse v
                              | None => t
                              end) (body_of b) None
  = rule_trigger (rule_keys b) /\
  is_Some (rule_trigger (rule_keys b)).
Proof.
  intros Hl Hv. unfold rule_trigger. rewrite !fold_key_keyed.
  assert (keyed "when" (rule_keys b) = keyed "when" (body_of b)) as Hkeys by (by apply keyed_known).
  pose proof (fun d => checked_when name chans refs b d Hl Hv) as Hw.
  rewrite (fold_last_always when_trigger), (fold_last_always when_trigger).
  - rewrite Hkeys. split; [done|].
    destruct (last (keyed "when" (body_of b))) as [d|] eqn:E.
    + destruct (Hw d) as (v & t & _ & _ & Ht); [rewrite Hkeys; by apply last_Some_elem_of|]. simpl. by rewrite Ht.
    + exfalso. apply last_None in E.
      assert (rule_trigger (rule_keys b) = None) as Hn.
      { unfold rule_trigger. by rewrite fold_key_keyed, Hkeys, E. }
      assert (trigger_unknown (rule_keys b) = true) as Hu.
      { destruct (trigger_unknown (rule_keys b)) eqn:Eu; [done|]. unfold validate_alert_rule in Hv.
        rewrite !no_errors_app, no_errors_when, Eu, bool_decide_eq_true_2 in Hv by done.
        by rewrite andb_false_r in Hv. }
      apply existsb_exists in Hu as (d & Hd & Hk). b2p. rewrite <- Hkeys in E.
      assert (d ∈ keyed "when" (rule_keys b)) as Hd' by (by apply list_elem_of_In, List.filter_In).
      rewrite E in Hd'. by apply elem_of_nil in Hd'.
  - intros d acc Hd. destruct (Hw d Hd) as (v & t & _ & _ & ->). done.
  - intros d acc Hd. rewrite <- Hkeys in Hd. destruct (Hw d Hd) as (v & t & Hv' & Ht & ->).
    apply list_elem_of_In, List.filter_In in Hd as [Hd _]. apply list_elem_of_In in Hd.
    rewrite first_arg_literal by (by eapply rule_keys_literal). by rewrite Hv'.
Qed.

Lemma checked_rule_compiles name chans refs b :
  literal_block b = true ->
  no_errors (validate_alert_rule name chans refs (rule_keys b)) = true ->
  exists r, compile_alert_rule env_var read_file vars name b = Some r /\ ru_name r = name.
Proof.
  intros Hl Hv. destruct (trigger_agrees name chans refs b Hl Hv) as [Ht [t Hs]].
  unfold compile_alert_rule. rewrite Ht, Hs. cbn [mbind option_bind].
  destruct (needs_expected_within t) eqn:En; [|by eexists].
  assert (is_Some (fold_key "expected_within" (set_duration env_var read_file vars) (body_of b) None)) as He.
  { unfold validate_alert_rule in Hv. cbv zeta in Hv. rewrite !no_errors_app, Hs, En in Hv.
    rewrite !no_errors_when, no_errors_flat_map in Hv. cbn [andb] in Hv. rewrite !negb_involutive in Hv. b2p.
    match goal with H : existsb (is_key "expected_within") _ = true |- _ =>
      apply existsb_exists in H as (d & Hd & Hk) end.
    unfold set_duration. rewrite fold_key_set. unfold last_set.
    rewrite <- (keyed_known "expected_within" ALERT_RULE_KEYS) by done. fold (rule_keys b).
    destruct (last (keyed "expected_within" (rule_keys b))) as [x|] eqn:E.
    - destruct (last_keyed _ _ _ E) as [Hx Hkx]. simpl.
      match goal with H : forallb _ _ = true |- _ => pose proof (forallb_elem _ _ _ H Hx) as Hc end.
      unfold validate_rule_directive in Hc. unfold is_key in *. apply String.eqb_eq in Hkx. rewrite Hkx in Hc.
      simpl in Hc. rewrite no_errors_when, (rule_keys_literal b Hl x Hx) in Hc. simpl in Hc.
      rewrite negb_involutive in Hc. destruct (reads_denotes _ Hc) as (n & u & Hden).
      destruct (duration_arg_denotes env_var read_file vars x n u (rule_keys_literal b Hl x Hx) Hden) as (s & -> & _).
      by eexists.
    - apply last_None in E. exfalso.
      assert (d ∈ keyed "expected_within" (rule_keys b)) as Hd' by (by apply list_elem_of_In, List.filter_In).
      rewrite E in Hd'. by apply elem_of_nil in Hd'. }
  rewrite bool_decide_eq_true_2 by done. by eexists.
Qed.

(** ** One block *)

Definition checked_sub (chans : gset string) (refs : bool) (b : NamedBlock) : Prop :=
  exists q, block_qualifier b = Some q /\ str_is_empty (sv_value q) = false /\
    (named "channel" b = true \/
     named "rule" b = true /\ no_errors (validate_alert_rule (sv_value q) chans refs (rule_keys b)) = true).

Lemma validate_alerts_checked chans refs subs seen :
  no_errors (validate_alerts chans refs subs seen) = true -> Forall (checked_sub chans refs) subs.
Proof.
  revert seen. induction subs as [|b subs IH]; intros seen H; [done|]. cbn [validate_alerts] in H. unfold checked_sub.
  destruct (one_of (sv_value (block_name b)) ["channel"; "rule"]) eqn:Ek; [|done].
  destruct (block_qualifier b) as [q|] eqn:Hq; [|done]. cbn [mbind option_bind] in H.
  destruct (str_is_empty (sv_value q)) eqn:Eq; [done|].
  rewrite !no_errors_app in H. apply andb_true_iff in H as [_ H]. apply andb_true_iff in H as [_ H].
  apply andb_true_iff in H as [Hr H]. constructor; [|by eapply IH].
  exists q. split; [done|]. split; [done|]. unfold named, rule_keys in *.
  destruct (String.eqb (sv_value (block_name b)) "channel") eqn:E; [by left|right].
  unfold one_of in Ek. cbn [existsb] in Ek. rewrite E, orb_false_r in Ek. split; [exact Ek|exact Hr].
Qed.

Lemma resolved_qualifier b q :
  literal_block b = true -> block_qualifier b = Some q -> resolve_str env_var read_file vars q = sv_value q.
Proof. unfold literal_block. intros H Hq. rewrite Hq in H. b2p. by apply resolve_literal. Qed.

Definition arm := alerts_arm env_var read_file vars.

(** A checked channel is declared; a checked rule is appended. *)
Lemma arm_channel cfg b q :
  literal_block b = true -> block_qualifier b = Some q -> str_is_empty (sv_value q) = false ->
  named "channel" b = true ->
  exists kind, arm cfg b = {| al_channels := <[sv_value q := kind]> (al_channels cfg); al_rules := al_rules cfg |}.
Proof.
  intros Hl Hq He Hk. unfold arm, alerts_arm, named in *. rewrite Hq. simpl.
  rewrite (resolved_qualifier b q) by done. rewrite He, Hk. by eexists.
Qed.

Lemma arm_rule chans refs cfg b q :
  literal_block b = true -> block_qualifier b = Some q -> str_is_empty (sv_value q) = false ->
  named "rule" b = true -> no_errors (validate_alert_rule (sv_value q) chans refs (rule_keys b)) = true ->
  exists r, compile_alert_rule env_var read_file vars (sv_value q) b = Some r /\ ru_name r = sv_value q /\
    arm cfg b = {| al_channels := al_channels cfg; al_rules := al_rules cfg ++ [r] |}.
Proof.
  intros Hl Hq He Hk Hv. destruct (checked_rule_compiles (sv_value q) chans refs b Hl Hv) as (r & Hr & Hn).
  exists r. split; [done|]. split; [done|]. unfold arm, alerts_arm, named in *. rewrite Hq. simpl.
  rewrite (resolved_qualifier b q) by done. rewrite He. apply String.eqb_eq in Hk. rewrite Hk. simpl.
  by rewrite Hr.
Qed.

Lemma arms_names chans refs subs cfg :
  Forall (checked_sub chans refs) subs -> forallb literal_block subs = true ->
  map ru_name (al_rules (fold_left arm subs cfg))
  = (map ru_name (al_rules cfg) ++ map qualifier_of (List.filter (named "rule") subs))%list.
Proof.
  intros Hc. revert cfg. induction Hc as [|b subs (q & Hq & He & Hk) _ IH]; intros cfg Hl; simpl.
  { by rewrite app_nil_r. }
  simpl in Hl. b2p. rewrite IH by done. unfold qualifier_of at 2.
  destruct Hk as [Hk|[Hk Hv]].
  - destruct (arm_channel cfg b q) as [kind ->]; [done..|].
    replace (named "rule" b) with false; [done|]. unfold named in *. apply String.eqb_eq in Hk. by rewrite Hk.
  - destruct (arm_rule chans refs cfg b q) as (r & _ & Hn & ->); [done..|]. rewrite Hk. simpl.
    rewrite map_app, <- app_assoc. simpl. by rewrite Hq, Hn.
Qed.

(** Channels stay declared, and every channel of the block is. *)
Definition declared (cfg : AlertsConfig) (name : string) : Prop := is_Some (al_channels cfg !! name).

Lemma arm_declared cfg b name : declared cfg name -> declared (arm cfg b) name.
Proof.
  unfold declared, arm, alerts_arm. intros H. case_if; [done|]. case_if.
  - simpl. destruct (decide (default "" (resolve_str env_var read_file vars <$> block_qualifier b) = name)) as [->|Hne];
      [by rewrite lookup_insert_eq|by rewrite lookup_insert_ne].
  - by case_if.
Qed.

Lemma arms_declared subs cfg name : declared cfg name -> declared (fold_left arm subs cfg) name.
Proof. revert cfg. induction subs as [|b subs IH]; intros cfg H; [done|]. apply IH, arm_declared, H. Qed.

Lemma arms_declare chans refs subs cfg b q :
  Forall (checked_sub chans refs) subs -> forallb literal_block subs = true ->
  b ∈ subs -> named "channel" b = true -> block_qualifier b = Some q ->
  declared (fold_left arm subs cfg) (sv_value q).
Proof.
  intros Hc Hl Hb Hk Hq. rewrite Forall_forall in Hc. destruct (Hc b Hb) as (q' & Hq' & He & _).
  rewrite Hq in Hq'. simplify_eq. pose proof (forallb_elem _ _ _ Hl Hb) as Hlb.
  apply list_elem_of_split in Hb as (l1 & l2 & ->). rewrite fold_left_app. cbn [fold_left].
  apply arms_declared. destruct (arm_channel (fold_left arm l1 cfg) b q') as [kind ->]; [done..|].
  unfold declared. simpl. by rewrite lookup_insert_eq.
Qed.

(** The channels a checked rule names are declared ones. *)
Lemma fold_append_elem {A} (g : Directive -> list A) ds init (x : A) :
  x ∈ fold_left (fun acc d => (acc ++ g d)%list) ds init -> x ∈ init \/ exists d, d ∈ ds /\ x ∈ g d.
Proof.
  revert init. induction ds as [|d ds IH]; intros init H; [by left|]. apply IH in H as [H|(d' & Hd & Hx)].
  - apply elem_of_app in H as [H|H]; [by left|]. right. exists d. set_solver.
  - right. exists d'. set_solver.
Qed.

Lemma checked_channels name chans b r c :
  literal_block b = true ->
  no_errors (validate_alert_rule name chans true (rule_keys b)) = true ->
  compile_alert_rule env_var read_file vars name b = Some r -> c ∈ ru_channels r -> c ∈ chans.
Proof.
  intros Hl Hv Hr Hc. unfold compile_alert_rule in Hr. apply bind_Some in Hr as (t & _ & Hr).
  case_if_in Hr; [done|]. simplify_eq. cbn [ru_channels] in Hc. rewrite fold_key_keyed in Hc.
  apply fold_append_elem in Hc as [Hc|(d & Hd & Hc)]; [by apply elem_of_nil in Hc|].
  rewrite <- (keyed_known "channels" ALERT_RULE_KEYS) in Hd by done. fold (rule_keys b) in Hd.
  apply list_elem_of_In, List.filter_In in Hd as [Hd Hk]. apply list_elem_of_In in Hd.
  apply list_elem_of_In, List.filter_In in Hc as [Hc _]. apply in_map_iff in Hc as (a & <- & Ha).
  unfold validate_alert_rule in Hv. rewrite !no_errors_app, no_errors_flat_map in Hv. apply andb_true_iff in Hv as [Hv _].
  pose proof (forallb_elem _ _ _ Hv Hd) as H. pose proof (rule_keys_literal b Hl d Hd) as Hp.
  unfold validate_rule_directive in H. unfold is_key, key_of in H. apply String.eqb_eq in Hk. rewrite Hk in H.
  simpl in H. unfold validate_rule_channels in H. rewrite no_errors_app, no_errors_flat_map in H. b2p.
  rewrite forallb_forall in *.
  match goal with H : forall x, In x (dir_args d) -> _ |- _ => specialize (H a Ha); rewrite no_errors_when in H end.
  assert (sv_is_placeholder a = false) as Hpa.
  { destruct (sv_is_placeholder a) eqn:E; [|done]. unfold has_placeholder in Hp. rewrite <- not_true_iff_false in Hp.
    exfalso. apply Hp, existsb_exists. eauto. }
  rewrite resolve_literal by done. rewrite Hpa in *. simpl in *. b2p.
  by match goal with H : bool_decide _ = true |- _ => apply bool_decide_eq_true in H end.
Qed.

Lemma arms_rules chans refs subs cfg r :
  Forall (checked_sub chans refs) subs -> forallb literal_block subs = true ->
  r ∈ al_rules (fold_left arm subs cfg) ->
  r ∈ al_rules cfg \/
  exists b q, b ∈ subs /\ literal_block b = true /\
    no_errors (validate_alert_rule (sv_value q) chans refs (rule_keys b)) = true /\
    compile_alert_rule env_var read_file vars (sv_value q) b = Some r.
Proof.
  intros Hc. revert cfg. induction Hc as [|b subs (q & Hq & He & Hk) _ IH]; intros cfg Hl Hr; [by left|].
  simpl in Hl. b2p. apply IH in Hr as [Hr|(b' & q' & Hb & ?)]; [|right; exists b', q'; set_solver|done].
  destruct Hk as [Hk|[Hk Hv]].
  - destruct (arm_channel cfg b q) as [kind Ha]; [done..|]. rewrite Ha in Hr. by left.
  - destruct (arm_rule chans refs cfg b q) as (r' & Hcr & _ & Ha); [done..|]. rewrite Ha in Hr. simpl in Hr.
    apply elem_of_app in Hr as [Hr|Hr]; [by left|]. apply list_elem_of_singleton in Hr as ->.
    right. exists b, q. split; [set_solver|]. done.
Qed.
End Facts.

(** ** The file *)

Section File.
  Context `{C : Chrono}.
  Context (env_var : string -> option string) (read_file : string -> result string string).
  Context (exec_json : RunnerExec -> option string).
  Context (TZ_VARIANTS : list string) (visit : gset string -> list string).

Definition is_alerts (i : Item) : bool := match i with IAlerts _ => true | _ => false end.

Lemma fold_no_alerts vars post a :
  forallb (fun i => negb (is_alerts i)) post = true ->
  fold_items (fun a i => match i with IAlerts bs => compile_alerts env_var read_file vars bs | _ => a end) post a = a.
Proof.
  unfold fold_items. revert a. induction post as [|i post IH]; intros a Hp; [done|]. simpl in Hp. b2p.
  cbn [fold_left]. destruct i; try done; by apply IH.
Qed.

(** The alerts in force are those of the last [alerts] block. *)
Lemma compiled_alerts pre subs post :
  forallb (fun i => negb (is_alerts i)) post = true ->
  let ast := (pre ++ IAlerts subs :: post)%list in
  rt_alerts (compiled env_var read_file exec_json ast)
  = compile_alerts env_var read_file (vars_of env_var read_file ast) subs.
Proof.
  intros Hp ast. unfold compiled, compile. cbv zeta. destruct (compile_items _ _ _ _ _ _ _). cbn [rt_alerts].
  subst ast. unfold fold_items. rewrite fold_left_app. cbn [fold_left]. by apply fold_no_alerts.
Qed.

Lemma channel_declared_here pre subs post c :
  forallb (fun i => negb (is_alerts i)) (pre ++ post)%list = true ->
  c ∈ channel_names (pre ++ IAlerts subs :: post)%list ->
  exists b q, b ∈ subs /\ named "channel" b = true /\ block_qualifier b = Some q /\ sv_value q = c.
Proof.
  intros Hn Hc. unfold channel_names in Hc. apply elem_of_list_to_set, list_elem_of_In, in_flat_map in Hc as (i & Hi & Hc).
  destruct i as [| | | | | | | | |subs'| | | | | |]; try done. apply list_elem_of_In, list_elem_of_omap in Hc as (b & Hb & Hq).
  assert (IAlerts subs' = IAlerts subs) as [= ->].
  { apply list_elem_of_In in Hi. rewrite forallb_app in Hn. b2p.
    apply elem_of_app in Hi as [Hi|[Hi|Hi]%elem_of_cons]; [|done|];
    match goal with H : forallb _ ?l = true, Hi : _ ∈ ?l |- _ => apply (forallb_elem _ _ _ H) in Hi; done end. }
  destruct (String.eqb (sv_value (block_name b)) "channel") eqn:E; [|done].
  destruct (block_qualifier b) as [q|] eqn:Eq; [|done]. injection Hq as <-. exists b, q. done.
Qed.

End File.

(** ** Files, from their text *)

Definition alerts_text : string := "alerts {
  channel " ++ dq ++ "ops" ++ dq ++ " {
    shell " ++ dq ++ "page" ++ dq ++ "
  }
  rule " ++ dq ++ "late" ++ dq ++ " {
    when job_sla_missed
    expected_within 2 hours
    channels " ++ dq ++ "ops" ++ dq ++ "
  }
}
".
Definition alerts_subs : list NamedBlock :=
  match parsed alerts_text with [IAlerts subs] => subs | _ => [] end.


(** A channel declared in one [alerts] block counts for the rules of another, but
    only the last block is compiled: the rule sends to no one. *)
Definition two_alerts_text : string := "alerts {
  channel " ++ dq ++ "ops" ++ dq ++ " {
    shell " ++ dq ++ "page" ++ dq ++ "
  }
}
alerts {
  rule " ++ dq ++ "down" ++ dq ++ " {
    when job_failed
    channels " ++ dq ++ "ops" ++ dq ++ "
  }
}
".
Example earlier_alerts_block_is_lost :
  let cfg := rt_alerts (demo_compiled (parsed two_alerts_text)) in
  demo_validate (parsed two_alerts_text) options_default = [] /\
  map ru_channels (al_rules cfg) = [["ops"]] /\ al_channels cfg !! "ops" = None.
Proof. vm_compute. done. Qed.
