(* ===== verification/ScheduleInput.v ===== *)
(** * Schedules that arrive outside the configuration file

    Models [croniq-scheduler/src/input.rs]: the schedule built from a stored
    expression, with its interval shorthand, and the checks the API and the
    tools run on a row before it is written. *)

From S2P Require Import Prelude RustStr Chrono Ast Lexer Parser Schedule Calendar Trigger Format BlockDirectives Validate.

Local Open Scope string_scope.
Local Open Scope Z_scope.

(** ** Error texts *)

Definition show_lex_error (e : LexError) : string :=
  match e with
  | UnterminatedString _ => "unterminated string"
  | UnterminatedPlaceholder _ => "unterminated placeholder"
  | InvalidEscape ch _ => "invalid escape sequence '" ++ chr BACKSLASH ++ String ch "'"
  | UnexpectedChar ch _ => "unexpected character '" ++ ch ++ "'"
  | LexOutOfSteps => ""   (** [tokenize_ends]: never returned *)
  end.
Definition show_parse_error (e : ParseError) : string :=
  match e with
  | General message => message
  | Unexpected expected got => "unexpected token: expected " ++ expected ++ ", got " ++ got
  | InvalidJobKey key => "invalid job key '" ++ key ++ "': expected namespace:name or namespace:name:variant"
  | InvalidTimeText value => "invalid time '" ++ value ++ "': expected HH:MM"
  | InvalidOrdinal value => "invalid ordinal '" ++ value ++ "': expected 1st, 2nd, 3rd, ... or 'last'"
  | Lex e => show_lex_error e
  | OutOfSteps => ""   (** [parsing_terminates]: never returned *)
  end.
Definition show_schedule_error (e : ScheduleError) : string :=
  match e with
  | InvalidInterval m => "invalid interval: " ++ m
  | InvalidTime m => "invalid time: " ++ m
  | InvalidDatetime m => "invalid datetime: " ++ m
  end.
Definition show_calendar_error (e : CalendarError) : string :=
  match e with
  | UnknownRuleKind s => "unknown rule kind: " ++ s
  | UnknownRuleType s => "unknown rule type: " ++ s
  | InvalidRule s => "invalid rule: " ++ s
  end.

(** [InputError] and its text *)
Record InputError := { ie_code : string; ie_message : string }.
Definition show_input_error (e : InputError) : string := ie_code e ++ ": " ++ ie_message e.

(** [parse_interval_seconds] *)
Definition parse_interval_seconds (s : string) : option Z :=
  let s := trim s in
  match parse_u64 s with
  | Some n => Some n
  | None =>
      match strip_suffix "s" s with
      | Some n => parse_u64 n
      | None =>
          match strip_suffix "m" s with
          | Some n => (fun v => wrap_u64 (v * 60)) <$> parse_u64 n
          | None =>
              match strip_suffix "h" s with
              | Some n => (fun v => wrap_u64 (v * 3600)) <$> parse_u64 n
              | None =>
                  match (strip_prefix "*/" s ≫= first_word) ≫= parse_u64 with
                  | Some n => Some (wrap_u64 (n * 60))
                  | None => None
                  end
              end
          end
      end
  end.

(** [opt.filter(|s| !s.is_empty())] *)
Definition non_empty (o : option string) : option string :=
  match o with Some s => if str_is_empty s then None else Some s | None => None end.

Section Input.
  Context `{C : Chrono}.
  Context (TZ_VARIANTS : list string) (visit : gset string -> list string).

(** [schedule_from_expr] *)
Definition schedule_from_expr (expr : string) : option Schedule :=
  match parse_interval_seconds expr with
  | Some seconds => Some (Interval seconds)
  | None => kind ← res_ok (parse_schedule_expr expr); res_ok (from_ast kind)
  end.

(** [check_schedule] *)
Definition check_schedule (expr : option string) : result unit InputError :=
  match expr with
  | None => Ok tt
  | Some expr =>
      match schedule_from_expr expr with
      | Some (Interval seconds) =>
          if seconds =? 0
          then Err {| ie_code := "invalid_schedule";
                      ie_message := "an interval schedule must be longer than zero seconds" |}
          else Ok tt
      | Some _ => Ok tt
      | None =>
          Err {| ie_code := "invalid_schedule";
                 ie_message := "schedule '" ++ expr ++ "' does not parse: use interval shorthand ("
                   ++ dq ++ "30s" ++ dq ++ ", " ++ dq ++ "5m" ++ dq ++ ", " ++ dq ++ "1h" ++ dq ++ ", "
                   ++ dq ++ "*/5 * * * *" ++ dq ++ ") or a Croniqfile schedule line ("
                   ++ dq ++ "every day at 02:00" ++ dq ++ ")" |}
      end
  end.

(** [check_window] *)
Definition check_window (window : option string) : result unit InputError :=
  match non_empty window with
  | None => Ok tt
  | Some w =>
      match window_parse w with
      | Some _ => Ok tt
      | None =>
          Err {| ie_code := "invalid_window";
                 ie_message := "window '" ++ w ++ "' does not parse: expected HH:MM..HH:MM, e.g. 02:00..06:00" |}
      end
  end.

(** [check_timezone] *)
Definition check_timezone (timezone : option string) : result unit InputError :=
  match non_empty timezone with
  | None => Ok tt
  | Some name =>
      match timezone_parse TZ_VARIANTS name with
      | Ok _ => Ok tt
      | Err e => Err {| ie_code := "unknown_timezone"; ie_message := show_invalid_timezone e |}
      end
  end.

(** [check_calendar_rules] *)
Definition check_calendar_rules (rules : string) : result unit InputError :=
  if str_is_empty (trim rules) then Ok tt
  else match parse_calendar_rules "__validate__" rules with
       | Err e => Err {| ie_code := "invalid_rules"; ie_message := show_parse_error e |}
       | Ok ast =>
           match map dg_message (List.filter is_error (validate TZ_VARIANTS visit ast)) with
           | [] => Ok tt
           | errors => Err {| ie_code := "invalid_rules"; ie_message := str_join "; " errors |}
           end
       end.
End Input.
