(* ===== verification/Loader.v ===== *)
(** * Loading a configuration

    Models the loading half of [croniq-server/src/loader.rs] with
    [croniq-config/src/import.rs]: imports, the calendars a server resolves
    references against, the triggers of a compiled file and of a stored row, the
    rows synthesized from a file, and the part of [main.rs] that adds the stored
    jobs at boot. The file system, the glob library and the RFC 3339 text of an
    instant are parameters; a call that would panic is an error value. *)

From S2P Require Import Prelude RustStr Chrono Ast Lexer Parser Schedule Calendar Trigger TriggerMachine Store StoreCalls Execution JobConfig ConfigFacts Restore.
From S2P Require Import Requeue Compile BlockDirectives Validate ScheduleInput.

Local Open Scope string_scope.
Local Open Scope Z_scope.

(** ** Rows and results *)

(** [TriggerDefinition], [CalendarDefinition] of [models.rs] *)
Record TriggerDefinition := {
  td_trigger_id : string;
  td_job_key : string;
  td_cron_expression : option string;
  td_timezone : option string;
  td_calendar : option string;
  td_window : option string;
  td_not_before : option instant;
  td_not_after : option instant;
  td_enabled : bool;
  td_managed_by : string;
  td_created_at : instant;
  td_updated_at : instant
}.
Record CalendarDefinition := {
  cd_calendar_id : string;
  cd_name : string;
  cd_timezone : option string;
  cd_rules : string;
  cd_managed_by : string;
  cd_created_at : instant;
  cd_updated_at : instant
}.

(** [LoadError], without the position of a parse error; [LoadPanic] stands for
    a failed [expect]. *)
Inductive LoadError :=
| LoadIo (e : string)
| LoadParse (message : string)
| LoadTimezone (job reason : string)
| LoadValidate (messages : list string)
| LoadPanic (message : string).

(** [ImportError] *)
Inductive ImportError :=
| InvalidPath (path : string)
| GlobError (pattern message : string)
| NoMatches (path : string)
| CircularImport (path : string).

(** ** Imports ([import.rs]) *)

(** [Path]: its components, [Ord] on them, [parent] and [join] (Unix paths) *)
Definition components (p : string) : list string :=
  let pieces := split_char "/" p in
  app (if starts_with "/" p then ["/"] else if bool_decide (head pieces = Some ".") then ["."] else [])
    (List.filter (fun c => negb (str_is_empty c || String.eqb c ".")) pieces).
Definition component_rank (c : string) : nat :=
  if String.eqb c "/" then 0 else if String.eqb c "." then 1 else if String.eqb c ".." then 2 else 3.
Definition component_leb (x y : string) : bool :=
  let rx := component_rank x in
  let ry := component_rank y in
  (rx <? ry)%nat || (rx =? ry)%nat && String.leb x y.
Fixpoint components_leb (a b : list string) : bool :=
  match a, b with
  | [], _ => true
  | _, [] => false
  | x :: a, y :: b => if String.eqb x y then components_leb a b else component_leb x y
  end.
Definition join (base p : string) : string :=
  if starts_with "/" p || str_is_empty base then p
  else if bool_decide (is_Some (strip_suffix "/" base)) then base ++ p else base ++ "/" ++ p.
Definition parent (p : string) : option string :=
  match rev (components p) with
  | [] | ["/"] => None
  | _ :: before => Some (foldl join "" (rev before))
  end.
Definition path_leb (p q : string) : bool := components_leb (components p) (components q).
Fixpoint insert_path (p : string) (l : list string) : list string :=
  match l with
  | [] => [p]
  | q :: l' => if path_leb p q then p :: l else q :: insert_path p l'
  end.
Definition sort_paths (l : list string) : list string := foldr insert_path [] l.

Section Imports.
  (** The file system, and the files a glob pattern matches *)
  Context (read_to_string : string -> result string string).
  Context (canonicalize : string -> option string).
  Context (is_file : string -> bool).
  Context (glob : string -> result (list string) string).

Definition canonical (p : string) : string := default p (canonicalize p).

(** The loop over the matches: [visited] keeps what was inserted before a
    repetition is found. *)
Fixpoint visit_paths (paths : list string) (visited : gset string) : gset string * result unit ImportError :=
  match paths with
  | [] => (visited, Ok tt)
  | p :: paths =>
      if bool_decide (canonical p ∈ visited) then (visited, Err (CircularImport p))
      else visit_paths paths ({[ canonical p ]} ∪ visited)
  end.
(** [resolve_imports_with_visited] (paths are valid strings) *)
Definition resolve_imports_with_visited (base_dir import_path : string) (visited : gset string)
    : gset string * result (list string) ImportError :=
  let pattern := join base_dir import_path in
  match glob pattern with
  | Err e => (visited, Err (GlobError pattern e))
  | Ok matches =>
      match sort_paths (List.filter is_file matches) with
      | [] => (visited, Err (NoMatches import_path))
      | paths =>
          match visit_paths paths visited with
          | (visited, Ok _) => (visited, Ok paths)
          | (visited, Err e) => (visited, Err e)
          end
      end
  end.

(** [load_and_resolve]: [None] when [fuel] nested imports are not enough. The
    visited set is shared by the whole load. An imported file that does not load
    is skipped, and so is an import that does not resolve. *)
Section Level.
  Context (load : string -> gset string -> option (gset string * result Croniqfile LoadError)).

Fixpoint load_imported (paths : list string) (visited : gset string) : option (gset string * list Item) :=
  match paths with
  | [] => Some (visited, [])
  | p :: paths =>
      '(visited, r) ← load p visited;
      '(visited, rest) ← load_imported paths visited;
      Some (visited, app (match r with Ok items => items | Err _ => [] end) rest)
  end.
Fixpoint resolve_items (base_dir : string) (items : list Item) (visited : gset string)
    : option (gset string * list Item) :=
  match items with
  | [] => Some (visited, [])
  | IImport path :: items =>
      let '(visited, r) := resolve_imports_with_visited base_dir (sv_value path) visited in
      '(visited, imported) ← match r with
                             | Ok paths => load_imported paths visited
                             | Err _ => Some (visited, [])
                             end;
      '(visited, rest) ← resolve_items base_dir items visited;
      Some (visited, app imported rest)
  | i :: items =>
      '(visited, rest) ← resolve_items base_dir items visited;
      Some (visited, i :: rest)
  end.
End Level.

Fixpoint load_and_resolve (fuel : nat) (path : string) (visited : gset string)
    : option (gset string * result Croniqfile LoadError) :=
  match fuel with
  | O => None
  | S fuel =>
      match read_to_string path with
      | Err e => Some (visited, Err (LoadIo e))
      | Ok src =>
          match parse src with
          | Err e => Some (visited, Err (LoadParse (show_parse_error e)))
          | Ok ast =>
              '(visited, items) ← resolve_items (load_and_resolve fuel) (default "." (parent path)) ast visited;
              Some (visited, Ok items)
          end
      end
  end.
End Imports.

(** ** Calendars *)

Section Loading.
  Context `{C : Chrono}.
  Context (TZ_VARIANTS : list string) (visit : gset string -> list string).
  Context (env_var : string -> option string) (read_file : string -> result string string).
  Context (exec_json : RunnerExec -> option string).
  (** [DateTime::to_rfc3339] *)
  Context (to_rfc3339 : instant -> string).

(** [calendar_config_from_definition] *)
Definition set_calendar (name : string) (tz : option string) (cfg : CalendarConfig) : CalendarConfig :=
  {| cc_name := name; cc_timezone := tz; cc_rules := cc_rules cfg |}.
Definition stored_zone (def : CalendarDefinition) (cfg : CalendarConfig) : option string :=
  let tz := match cc_timezone cfg with None => cd_timezone def | tz => tz end in
  match non_empty tz with
  | Some name => match timezone_parse TZ_VARIANTS name with Ok _ => tz | Err _ => None end
  | None => tz
  end.
Definition calendar_config_from_definition (def : CalendarDefinition) : result CalendarConfig string :=
  match parse_calendar_rules "__store__" (cd_rules def) with
  | Err e => Err (show_parse_error e)
  | Ok ast =>
      match map dg_message (List.filter is_error (validate TZ_VARIANTS visit ast)) with
      | [] =>
          match rt_calendars (compile env_var read_file exec_json ast) with
          | cfg :: _ => Ok (set_calendar (cd_name def) (stored_zone def cfg) cfg)
          | [] => Err "rules did not produce a calendar"
          end
      | errors => Err (str_join "; " errors)
      end
  end.

(** [ResolvedCalendars] *)
Record ResolvedCalendars := {
  res_calendars : gmap string Calendar;
  res_errors : gmap string string;
  res_strict : bool
}.
Definition empty_lenient : ResolvedCalendars :=
  {| res_calendars := ∅; res_errors := ∅; res_strict := false |}.

(** [ResolvedCalendars::resolve]: the gate and the fault *)
Definition resolve_calendar (r : ResolvedCalendars) (name : option string) : option Calendar * option string :=
  match non_empty name with
  | None => (None, None)
  | Some name =>
      match res_calendars r !! name with
      | Some cal => (Some cal, None)
      | None =>
          let reason := match res_errors r !! name with
                        | Some err => "calendar '" ++ name ++ "' failed to compile: " ++ err
                        | None => "calendar '" ++ name ++ "' is not defined"
                        end in
          (None, if res_strict r then Some reason else None)
      end
  end.

(** [resolve_calendars] *)
Definition add_stored (acc : gmap string Calendar * gmap string string) (def : CalendarDefinition)
    : gmap string Calendar * gmap string string :=
  let '(calendars, errors) := acc in
  if String.eqb (cd_managed_by def) "dsl" then acc
  else match res_bind (calendar_config_from_definition def) (fun cfg => map_err show_calendar_error (from_config cfg)) with
       | Ok cal => (<[cd_name def := cal]> calendars, errors)
       | Err e => (calendars, <[cd_name def := e]> errors)
       end.
Definition add_dsl (acc : gmap string Calendar * gmap string string) (cfg : CalendarConfig)
    : gmap string Calendar * gmap string string :=
  let '(calendars, errors) := acc in
  match from_config cfg with
  | Ok cal => (<[cc_name cfg := cal]> calendars, delete (cc_name cfg) errors)
  | Err e => (delete (cc_name cfg) calendars, <[cc_name cfg := show_calendar_error e]> errors)
  end.
Definition resolve_calendars (dsl : list CalendarConfig) (stored : list CalendarDefinition) (strict : bool)
    : ResolvedCalendars :=
  let '(calendars, errors) := foldl add_dsl (foldl add_stored (∅, ∅) stored) dsl in
  {| res_calendars := calendars; res_errors := errors; res_strict := strict |}.

(** ** The triggers of a file *)

Record LoadedConfig := {
  lc_runtime : RuntimeConfig;
  lc_triggers : gmap string Trigger;
  lc_calendar_faults : gmap string string
}.

Definition job_block (i : Item) : option JobBlock := match i with IJob j => Some j | _ => None end.

(** [timezone::parse] of a job's zone; UTC when none is declared *)
Definition load_timezone (job : JobConfig) : result Tz LoadError :=
  match jc_timezone job with
  | Some name => map_err (fun e => LoadTimezone (jc_key job) (show_invalid_timezone e))
                   (timezone_parse TZ_VARIANTS name)
  | None => Ok UTC
  end.

(** The [time_faults] of a job: what its times and its schedule are faulted for,
    then what the compiled values are. *)
Definition load_schedule (ast_job : JobBlock) : Schedule * list string :=
  let faults := job_time_errors ast_job in
  match jb_schedule ast_job with
  | None => (Disabled, faults)
  | Some s =>
      match from_ast (sched_kind s) with
      | Ok schedule => (schedule, faults)
      | Err e => (Disabled, match faults with [] => [show_schedule_error e] | _ => faults end)
      end
  end.
Definition bound {A} (parse : string -> result A string) (value : option string) (faults : list string)
    : option A * list string :=
  match value with
  | None => (None, faults)
  | Some s =>
      match parse s with
      | Ok v => (Some v, faults)
      | Err e => (None, if one_of e faults then faults else app faults [e])
      end
  end.
Definition job_window (s : string) : result (option TimeWindow) string :=
  res_bind (parse_job_window s) (fun _ => Ok (window_parse s)).

(** The body of the loop of [load_from_compiled]: a trigger and why it is paused *)
Definition load_job (resolved : ResolvedCalendars) (now : instant) (ast_job : JobBlock) (job : JobConfig)
    : result (Trigger * list string) LoadError :=
  let '(schedule, time_faults) := load_schedule ast_job in
  res_bind (load_timezone job) (fun tz =>
    let '(calendar, calendar_fault) := resolve_calendar resolved (jc_calendar job) in
    let '(not_before, time_faults) := bound parse_bound (jc_not_before job) time_faults in
    let '(not_after, time_faults) := bound parse_bound (jc_not_after job) time_faults in
    let '(window, time_faults) := bound job_window (jc_window job) time_faults in
    let t := with_bounds (jc_key job) schedule tz calendar (mjoin window) not_before not_after now in
    let t := set_missed_fires (missed_fires_for job) t in
    let reasons := app (option_list calendar_fault) time_faults in
    Ok (match reasons with [] => t | _ => pause t end, reasons)).

Fixpoint load_jobs (resolved : ResolvedCalendars) (now : instant) (ast_jobs : list JobBlock)
    (jobs : list JobConfig) (triggers : gmap string Trigger) (faults : gmap string string)
    : result (gmap string Trigger * gmap string string) LoadError :=
  match jobs with
  | [] => Ok (triggers, faults)
  | job :: jobs =>
      match List.find (fun j => String.eqb (key_raw (jb_key j)) (jc_key job)) ast_jobs with
      | None => Err (LoadPanic "compiled job must have matching AST job")
      | Some ast_job =>
          res_bind (load_job resolved now ast_job job) (fun '(t, reasons) =>
            load_jobs resolved now ast_jobs jobs (<[jc_key job := t]> triggers)
              (match reasons with [] => faults | _ => <[jc_key job := str_join "; " reasons]> faults end))
      end
  end.

(** [load_from_compiled]; the placeholders that did not resolve are logged. *)
Definition load_from_compiled (runtime : RuntimeConfig) (ast : Croniqfile) (now : instant)
    : result LoadedConfig LoadError :=
  res_bind (map_err LoadValidate (validate_ast TZ_VARIANTS visit ast)) (fun _ =>
    let resolved := resolve_calendars (rt_calendars runtime) [] (po_strict_calendars (rt_policy runtime)) in
    res_bind (load_jobs resolved now (omap job_block ast) (rt_jobs runtime) ∅ ∅) (fun '(triggers, faults) =>
      Ok {| lc_runtime := runtime; lc_triggers := triggers; lc_calendar_faults := faults |})).

Definition load_ast (ast : Croniqfile) (now : instant) : result LoadedConfig LoadError :=
  load_from_compiled (compile env_var read_file exec_json ast) ast now.
(** [load_str] *)
Definition load_str (src : string) (now : instant) : result LoadedConfig LoadError :=
  res_bind (map_err (fun e => LoadParse (show_parse_error e)) (parse src)) (fun ast => load_ast ast now).
(** [load_file] *)
Definition load_file (read_to_string : string -> result string string) (canonicalize : string -> option string)
    (is_file : string -> bool) (glob : string -> result (list string) string)
    (fuel : nat) (path : string) (now : instant) : option (result LoadedConfig LoadError) :=
  let canonical := canonical canonicalize path in
  '(_, r) ← load_and_resolve read_to_string canonicalize is_file glob fuel canonical {[ canonical ]};
  Some (res_bind r (fun ast => load_ast ast now)).

(** ** The trigger of a stored row *)

Record BuiltTrigger := { bt_trigger : Trigger; bt_config_fault : option string }.

(** [trigger_from_definition] *)
Definition row_timezone (def : TriggerDefinition) : Tz * option string :=
  match td_timezone def with
  | Some name => match timezone_parse TZ_VARIANTS name with
                 | Ok tz => (tz, None)
                 | Err e => (UTC, Some (show_invalid_timezone e))
                 end
  | None => (UTC, None)
  end.
Definition row_window (def : TriggerDefinition) : option TimeWindow * option string :=
  match td_window def with
  | Some s => match parse_job_window s with
              | Ok _ => (window_parse s, None)
              | Err e => (None, Some e)
              end
  | None => (None, None)
  end.
Definition trigger_from_definition (def : TriggerDefinition) (calendars : ResolvedCalendars) (now : instant)
    : option BuiltTrigger :=
  cron_expr ← td_cron_expression def;
  schedule ← schedule_from_expr cron_expr;
  let '(tz, timezone_fault) := row_timezone def in
  let '(window, window_fault) := row_window def in
  let '(calendar, calendar_fault) := resolve_calendar calendars (td_calendar def) in
  let t := with_bounds (td_job_key def) schedule tz calendar window (td_not_before def) (td_not_after def) now in
  Some match omap id [calendar_fault; timezone_fault; window_fault] with
       | [] => {| bt_trigger := t; bt_config_fault := None |}
       | faults => {| bt_trigger := pause t; bt_config_fault := Some (str_join "; " faults) |}
       end.

(** [compiled_schedule_from_expr] *)
Definition compiled_schedule_from_expr (expr : string) : option CompiledSchedule :=
  match parse_interval_seconds expr with
  | Some seconds => Some (CInterval seconds)
  | None => compiled_from_ast <$> res_ok (parse_schedule_expr expr)
  end.

(** [job_config_from_definition] *)
Definition job_config_from_definition (def : TriggerDefinition) (job_def : option JobDefinition) : JobConfig :=
  let '(ns, name) := match split_once ":" (td_job_key def) with
                     | Some p => p
                     | None => ("default", td_job_key def)
                     end in
  {| jc_key := td_job_key def; jc_namespace := ns; jc_name := name; jc_variant := None;
     jc_description := job_def ≫= jd_description;
     jc_schedule := default CDisabled (td_cron_expression def ≫= compiled_schedule_from_expr);
     jc_schedule_summary := default "" (td_cron_expression def);
     jc_timezone := td_timezone def; jc_calendar := td_calendar def; jc_window := td_window def;
     jc_not_before := to_rfc3339 <$> td_not_before def; jc_not_after := to_rfc3339 <$> td_not_after def;
     jc_runner := runner_config_default;
     jc_retry := match job_def ≫= jd_max_retries with
                 | Some n => {| rcf_strategy := rcf_strategy retry_config_default;
                                rcf_max_attempts := n;
                                rcf_base := rcf_base retry_config_default;
                                rcf_cap := rcf_cap retry_config_default;
                                rcf_delay := rcf_delay retry_config_default;
                                rcf_step := rcf_step retry_config_default;
                                rcf_jitter := rcf_jitter retry_config_default |}
                 | None => retry_config_default
                 end;
     jc_timeout := option_or (job_def ≫= jd_timeout) (Some "5m");
     jc_dead_letter := {|
       dlc_enabled := default true (job_def ≫= jd_dead_letter_enabled);
       dlc_retention := option_or (job_def ≫= jd_dead_letter_retention)
                          (dlc_retention dead_letter_config_default);
       dlc_operator_hint := job_def ≫= jd_dead_letter_operator_hint;
       dlc_replay_max_age := job_def ≫= jd_dead_letter_replay_max_age |};
     jc_metadata := default ∅ (jd_metadata <$> job_def); jc_execution_mode := ModeQueued;
     jc_catch_up := CatchUpAll; jc_catch_up_explicit := false; jc_queue_ttl := None;
     jc_max_queue_depth := None; jc_keep_last := None; jc_max_concurrent := None;
     jc_concurrency_group := None; jc_coalesce := false; jc_priority := PNormal;
     jc_tags := default [] (jd_tags <$> job_def); jc_run_on_register := false |}.

(** ** Rows of a file's jobs *)

Definition is_scheduled (cfg : JobConfig) : bool :=
  match jc_schedule cfg with CDisabled => false | _ => true end.

(** [synth_job_def_from_dsl] *)
Definition synth_job_def_from_dsl (cfg : JobConfig) (now : instant) : JobDefinition := {|
  jd_job_key := jc_key cfg; jd_description := jc_description cfg; jd_assigned_runner_id := None;
  jd_is_active := is_scheduled cfg; jd_metadata := jc_metadata cfg;
  jd_created_at := now; jd_updated_at := now; jd_timeout := jc_timeout cfg;
  jd_max_retries := Some (rcf_max_attempts (jc_retry cfg));
  jd_dead_letter_enabled := Some (dlc_enabled (jc_dead_letter cfg)); jd_tags := jc_tags cfg;
  jd_dead_letter_retention := dlc_retention (jc_dead_letter cfg);
  jd_dead_letter_operator_hint := dlc_operator_hint (jc_dead_letter cfg);
  jd_dead_letter_replay_max_age := dlc_replay_max_age (jc_dead_letter cfg) |}.

(** [dsl_trigger_id], [synth_trigger_def_from_dsl] *)
Definition dsl_trigger_id (job_key : string) : string := "dsl:" ++ job_key.
Definition synth_trigger_def_from_dsl (cfg : JobConfig) (now : instant) : TriggerDefinition := {|
  td_trigger_id := dsl_trigger_id (jc_key cfg); td_job_key := jc_key cfg;
  td_cron_expression := Some (to_dsl (jc_schedule cfg));
  td_timezone := jc_timezone cfg; td_calendar := jc_calendar cfg; td_window := jc_window cfg;
  td_not_before := jc_not_before cfg ≫= parse_from_rfc3339;
  td_not_after := jc_not_after cfg ≫= parse_from_rfc3339;
  td_enabled := is_scheduled cfg; td_managed_by := "dsl"; td_created_at := now; td_updated_at := now |}.

(** ** Stored jobs at boot ([main.rs]) *)

Record BootJobs := {
  bj_jobs : list JobConfig;
  bj_triggers : gmap string Trigger;
  bj_faults : gmap string string
}.
Section Boot.
  Context (get_job_definition : string -> result (option JobDefinition) StoreError).

(** One row of the reconcile loop; a store error stops the boot. *)
Definition reconcile_row (resolved : ResolvedCalendars) (now : instant) (b : BootJobs) (def : TriggerDefinition)
    : result BootJobs StoreError :=
  if String.eqb (td_managed_by def) "dsl" || negb (td_enabled def) then Ok b
  else if bool_decide (is_Some (bj_triggers b !! td_job_key def)) then Ok b
  else res_bind (get_job_definition (td_job_key def)) (fun job_def =>
    if match job_def with Some j => negb (jd_is_active j) | None => false end then Ok b
    else Ok match trigger_from_definition def resolved now with
            | None => b
            | Some built =>
                {| bj_jobs := app (bj_jobs b) [job_config_from_definition def job_def];
                   bj_triggers := <[td_job_key def := bt_trigger built]> (bj_triggers b);
                   bj_faults := match bt_config_fault built with
                                | Some reason => <[td_job_key def := reason]> (bj_faults b)
                                | None => bj_faults b
                                end |}
            end).
Fixpoint reconcile_rows (resolved : ResolvedCalendars) (now : instant) (b : BootJobs)
    (rows : list TriggerDefinition) : result BootJobs StoreError :=
  match rows with
  | [] => Ok b
  | def :: rows => res_bind (reconcile_row resolved now b def) (fun b => reconcile_rows resolved now b rows)
  end.
End Boot.
End Loading.
