(* ===== verification/ImportFacts.v ===== *)
(** * Imports end

    Facts on the import half of [Loader.v]: the visited set bounds the nesting of
    imports whatever the files contain, and what a repeated match of a pattern
    costs. *)

From S2P Require Import Prelude RustStr Chrono Ast Lexer Parser Store Compile Validate ValidateFacts Loader.

Local Open Scope string_scope.

Section Imports.
  Context (read_to_string : string -> result string string) (canonicalize : string -> option string).
  Context (is_file : string -> bool) (glob : string -> result (list string) string).
  (** The files there are, by canonical path: a match is one of them. *)
  Context (files : gset string).
  Hypothesis glob_files : forall pattern ms p, glob pattern = Ok ms -> p ∈ ms -> canonical canonicalize p ∈ files.

(** The files not visited yet *)
Definition left_over (visited : gset string) : nat := size (files ∖ visited).

Lemma left_over_mono v w : v ⊆ w -> (left_over w <= left_over v)%nat.
Proof. intros H. unfold left_over. apply subseteq_size. set_solver. Qed.

Lemma visit_paths_grows paths v : v ⊆ (visit_paths canonicalize paths v).1.
Proof.
  revert v. induction paths as [|p paths IH]; intros v; [done|]. cbn [visit_paths]. case_bool_decide; [done|].
  etransitivity; [|apply IH]. set_solver.
Qed.

Lemma visit_paths_takes p paths v w :
  canonical canonicalize p ∈ files -> visit_paths canonicalize (p :: paths) v = (w, Ok tt) -> (left_over w < left_over v)%nat.
Proof.
  intros Hp. cbn [visit_paths]. case_bool_decide as Hv; [done|]. intros H.
  pose proof (visit_paths_grows paths ({[canonical canonicalize p]} ∪ v)) as Hg. rewrite H in Hg. cbn [fst] in Hg.
  unfold left_over. apply subset_size. set_solver.
Qed.

Lemma sort_paths_elem p l : p ∈ sort_paths l -> p ∈ l.
Proof.
  assert (forall q l, p ∈ insert_path q l -> p = q \/ p ∈ l) as Hins.
  { intros q l'. induction l' as [|x l' IH]; cbn [insert_path]; [set_solver|]. case_match; set_solver. }
  induction l as [|x l IH]; cbn [sort_paths foldr]; [done|]. intros [->|H]%Hins; [left|right; by apply IH].
Qed.

(** A resolved import takes files out of those left over. *)
Lemma resolve_imports_takes base path v w r :
  resolve_imports_with_visited canonicalize is_file glob base path v = (w, r) ->
  v ⊆ w /\ (is_ok r = true -> (left_over w < left_over v)%nat).
Proof.
  unfold resolve_imports_with_visited. destruct (glob (join base path)) as [ms|e] eqn:Eg; [|by intros [= <- <-]].
  destruct (sort_paths (List.filter is_file ms)) as [|p paths] eqn:Es; [by intros [= <- <-]|].
  destruct (visit_paths canonicalize (p :: paths) v) as [w' [[]|e]] eqn:Ev; intros [= <- <-];
    (split; [pose proof (visit_paths_grows (p :: paths) v) as Hg; by rewrite Ev in Hg|]); [intros _|done].
  eapply visit_paths_takes; [|done]. assert (p ∈ sort_paths (List.filter is_file ms)) as Hp by (rewrite Es; left).
  apply sort_paths_elem, list_elem_of_In, List.filter_In in Hp as [Hp _]. eapply glob_files; [done|]. by apply list_elem_of_In.
Qed.

(** ** One level *)

Section Level.
  Context (load : string -> gset string -> option (gset string * result Croniqfile LoadError)) (n : nat).
  Hypothesis load_total : forall p v, (left_over v < n)%nat -> exists w r, load p v = Some (w, r) /\ v ⊆ w.

Lemma load_imported_total paths v :
  (left_over v < n)%nat -> exists w items, load_imported load paths v = Some (w, items) /\ v ⊆ w.
Proof.
  revert v. induction paths as [|p paths IH]; intros v Hv; cbn [load_imported]; [by eexists _, _|].
  destruct (load_total p v Hv) as (w & r & -> & Hw). cbn [mbind option_bind].
  destruct (IH w) as (w' & rest & -> & Hw'); [pose proof (left_over_mono _ _ Hw); lia|].
  eexists _, _. split; [done|]. set_solver.
Qed.

Lemma resolve_items_total base items v :
  (left_over v <= n)%nat ->
  exists w out, resolve_items canonicalize is_file glob load base items v = Some (w, out) /\ v ⊆ w.
Proof.
  revert v. induction items as [|i items IH]; intros v Hv; [by eexists _, _|].
  assert (forall v', v ⊆ v' -> exists w out, resolve_items canonicalize is_file glob load base items v' = Some (w, out) /\ v ⊆ w) as Hrest.
  { intros v' Hv'. destruct (IH v') as (w & out & H & Hw); [pose proof (left_over_mono _ _ Hv'); lia|].
    eexists _, _. split; [done|]. set_solver. }
  destruct i; try (cbn [resolve_items]; destruct (Hrest v) as (w & out & -> & Hw); [done|]; by eexists _, _).
  cbn [resolve_items]. destruct (resolve_imports_with_visited _ _ _ base _ v) as [w r] eqn:Er.
  apply resolve_imports_takes in Er as [Hw Hok].
  assert (exists w' out, match r with Ok paths => load_imported load paths w | Err _ => Some (w, []) end = Some (w', out) /\ w ⊆ w')
    as (w' & out & -> & Hw').
  { destruct r as [paths|e]; [|by eexists _, _]. apply load_imported_total. specialize (Hok eq_refl). lia. }
  cbn [mbind option_bind]. destruct (Hrest w') as (w'' & out' & -> & Hw''); [set_solver|]. by eexists _, _.
Qed.
End Level.

Abbreviation load := (load_and_resolve read_to_string canonicalize is_file glob).

Lemma load_total fuel path v :
  (left_over v < fuel)%nat -> exists w r, load fuel path v = Some (w, r) /\ v ⊆ w.
Proof.
  revert path v. induction fuel as [|fuel IH]; intros path v Hv; [lia|]. cbn [load_and_resolve].
  destruct (read_to_string path); [|by eexists _, _]. destruct (parse _) as [ast|]; [|by eexists _, _].
  destruct (resolve_items_total (load fuel) fuel IH (default "." (parent path)) ast v) as (w & items & -> & Hw); [lia|].
  by eexists _, _.
Qed.

(** ** More fuel changes nothing *)

Definition extends (f g : string -> gset string -> option (gset string * result Croniqfile LoadError)) : Prop :=
  forall p v x, f p v = Some x -> g p v = Some x.

Lemma load_imported_extends f g paths v x :
  extends f g -> load_imported f paths v = Some x -> load_imported g paths v = Some x.
Proof.
  intros Hfg. revert v x. induction paths as [|p paths IH]; intros v x; cbn [load_imported]; [done|].
  destruct (f p v) as [[w r]|] eqn:E; [|done]. rewrite (Hfg _ _ _ E). cbn [mbind option_bind].
  destruct (load_imported f paths w) as [y|] eqn:Ef; [|done]. by rewrite (IH _ _ Ef).
Qed.

Lemma resolve_items_extends f g base items v x :
  extends f g -> resolve_items canonicalize is_file glob f base items v = Some x ->
  resolve_items canonicalize is_file glob g base items v = Some x.
Proof.
  intros Hfg. revert v x. induction items as [|i items IH]; intros v x; [done|].
  destruct i; cbn [resolve_items];
    try (destruct (resolve_items _ _ _ f base items v) as [y|] eqn:Ef; [|done]; by rewrite (IH _ _ Ef)).
  destruct (resolve_imports_with_visited _ _ _ base _ v) as [w r].
  destruct (match r with Ok paths => load_imported f paths w | Err _ => Some (w, []) end) as [[w' im]|] eqn:Em; [|done].
  assert (match r with Ok paths => load_imported g paths w | Err _ => Some (w, []) end = Some (w', im)) as ->
    by (destruct r; [by eapply load_imported_extends|done]).
  cbn [mbind option_bind]. destruct (resolve_items _ _ _ f base items w') as [y|] eqn:Ef; [|done]. by rewrite (IH _ _ Ef).
Qed.

Lemma load_S fuel path v :
  load (S fuel) path v
  = match read_to_string path with
    | Err e => Some (v, Err (LoadIo e))
    | Ok src =>
        match parse src with
        | Err e => Some (v, Err (LoadParse (ScheduleInput.show_parse_error e)))
        | Ok ast => '(w, items) ← resolve_items canonicalize is_file glob (load fuel) (default "." (parent path)) ast v;
                    Some (w, Ok items)
        end
    end.
Proof. reflexivity. Qed.

Lemma load_extends fuel : extends (load fuel) (load (S fuel)).
Proof.
  induction fuel as [|fuel IH]; intros p v x; [done|]. rewrite (load_S fuel), (load_S (S fuel)).
  destruct (read_to_string p); [|done]. destruct (parse _) as [ast|]; [|done].
  destruct (resolve_items _ _ _ (load fuel) _ ast v) as [y|] eqn:E; [|done].
  by rewrite (resolve_items_extends _ _ _ _ _ _ IH E).
Qed.

(** C38. Loading a file ends, however the files import each other. On a file
    system where patterns match finitely many files, [load_and_resolve] answers
    as soon as its nesting is allowed to exceed their number, and no further
    nesting changes the answer: cycles are cut by the visited set. *)
Theorem imports_end path :
  let start := {[ canonical canonicalize path ]} in
  exists visited r,
    forall fuel, (size files < fuel)%nat -> load fuel (canonical canonicalize path) start = Some (visited, r).
Proof.
  intros start.
  destruct (load_total (S (size files)) (canonical canonicalize path) start) as (w & r & H & _).
  { unfold left_over. apply Nat.lt_succ_r, subseteq_size. set_solver. }
  exists w, r. intros fuel Hf. induction Hf as [|fuel Hf IH]; [done|]. by apply load_extends.
Qed.
End Imports.

(** ** A file system *)

Definition job_text (key : string) : string := "job " ++ key ++ " {
  every 5 minutes
}
".
(** [ring] and [back] import each other. [main] imports [b] and then everything
    in its directory. *)
Definition demo_read (path : string) : result string string :=
  if String.eqb path "/c/ring" then Ok "import ./back
"
  else if String.eqb path "/c/back" then Ok ("import ./ring
" ++ job_text "x:back")
  else if String.eqb path "/c/main" then Ok "import ./jobs/b
import ./jobs/all
"
  else if String.eqb path "/c/jobs/a" then Ok (job_text "x:a")
  else if String.eqb path "/c/jobs/b" then Ok (job_text "x:b")
  else if String.eqb path "/c/jobs/c" then Ok (job_text "x:c")
  else Err "no such file".
Definition demo_glob (pattern : string) : result (list string) string :=
  Ok (if String.eqb pattern "/c/./ring" then ["/c/ring"]
      else if String.eqb pattern "/c/./back" then ["/c/back"]
      else if String.eqb pattern "/c/./jobs/b" then ["/c/jobs/b"]
      else if String.eqb pattern "/c/./jobs/all" then ["/c/jobs/c"; "/c/jobs/b"; "/c/jobs/a"]
      else []).
Definition demo_files : gset string :=
  list_to_set ["/c/ring"; "/c/back"; "/c/main"; "/c/jobs/a"; "/c/jobs/b"; "/c/jobs/c"].
Definition demo_keys (path : string) : list string :=
  match load_and_resolve demo_read (fun _ => None) (fun _ => true) demo_glob 7 path {[ path ]} with
  | Some (_, Ok items) => map (fun job => key_raw (jb_key job)) (omap job_block items)
  | _ => []
  end.

Lemma imports_end_witness :
  exists visited r, forall fuel, (size demo_files < fuel)%nat ->
    load_and_resolve demo_read (fun _ => None) (fun _ => true) demo_glob fuel "/c/ring" {[ "/c/ring" ]} = Some (visited, r).
Proof.
  apply (imports_end demo_read (fun _ => None) (fun _ => true) demo_glob demo_files) with (path := "/c/ring").
  intros pattern ms p [= <-] Hp. change (canonical (fun _ => None) p) with p. unfold demo_files.
  apply elem_of_list_to_set. repeat case_match; set_solver.
Defined.

(** The cycle is cut, and the file it is cut at contributes the rest. *)
Example cycle_is_cut : demo_keys "/c/ring" = ["x:back"].
Proof. vm_compute. done. Qed.

(** A pattern that matches one file already loaded loads none of the others, and
    marks those before it as visited. *)
Example overlapping_import_loads_nothing : demo_keys "/c/main" = ["x:b"].
Proof. vm_compute. done. Qed.
