(* ===== verification/LoaderFacts.v ===== *)
(** * What a loaded configuration does

    Facts on [Loader.v] and [ScheduleInput.v]: a job loaded from a file fires
    only inside the gates the file declares, the trigger of a stored row, the
    rows synthesized from a file, and the imports of a file. *)

From S2P Require Import Prelude RustStr Chrono Ast Lexer Parser CalendarArgs DaySets Schedule Calendar Trigger TriggerSearch TriggerMachine Store StoreCalls Execution JobConfig ConfigFacts Restore.
From S2P Require Import Requeue Compile CompileFacts BlockDirectives Validate ValidateFacts ScheduleInput Loader.

Local Open Scope string_scope.
Local Open Scope Z_scope.

Section Runs.
  Context `{C : Chrono}.

(** ** Fires of a trigger *)

Lemma unarmed_never_fires t nows : state t <> Armed -> run_ticks t nows = [].
Proof.
  intros Ht. induction nows as [|now nows IH]; [done|]. cbn [run_ticks]. unfold tick_trigger, evaluate.
  by rewrite bool_decide_eq_false_2 by done.
Qed.

(** A tick that may fire: inside the bounds of the trigger. *)
Definition in_bounds (t : Trigger) (now : instant) : Prop :=
  (forall nb, not_before t = Some nb -> nb <= now) /\ (forall na, not_after t = Some na -> now <= na).

Lemma run_ticks_gated t nows :
  trigger_inv t ->
  Forall (fun f => gate_allows t f = true /\ exists now, now ∈ nows /\ f <= now /\ in_bounds t now)
    (run_ticks t nows).
Proof.
  revert t. induction nows as [|now nows IH]; intros t Ht; [constructor|].
  cbn [run_ticks]. unfold tick_trigger. destruct (evaluate t now) as [fa|] eqn:E.
  - apply evaluate_Some in E as (_ & Hn & Hle & Hb). constructor.
    { split; [by apply Ht|]. exists now. split; [left|]. done. }
    pose proof (mark_fired_config t fa now) as Hcfg.
    destruct (mark_fired_bounds t fa now) as [Hna Hnb].
    eapply Forall_impl; [by apply IH, mark_fired_inv, Ht|].
    intros f (Hg & now' & Hin & Hf & Hb'). rewrite (gate_allows_config _ _ _ Hcfg) in Hg.
    split; [done|]. exists now'. split; [by right|]. split; [done|].
    unfold in_bounds in *. by rewrite Hnb, Hna in Hb'.
  - eapply Forall_impl; [by apply IH|]. intros f (Hg & now' & Hin & Hf & Hb').
    split; [done|]. exists now'. split; [by right|]. done.
Qed.
End Runs.

(** ** Windows and bounds *)

Lemma parse_time_opt_ok s : parse_time_opt s = res_ok (parse_time s).
Proof.
  unfold parse_time_opt, parse_time. destruct (split_char _ s) as [|h [|m [|x l]]]; try done.
  destruct (parse_u32 h); [|done]. cbn. destruct (parse_u32 m); [|done]. cbn. by destruct (from_hm_opt _ _).
Qed.

(** The loader and the runtime read a window alike: a window that passes the
    check is attached. *)
Lemma job_window_ok s w : job_window s = Ok w <-> exists tw, window_parse s = Some tw /\ w = Some tw.
Proof.
  unfold job_window, parse_job_window, window_parse. destruct (split_once ".." s) as [[a b]|]; [|naive_solver].
  cbn [mbind option_bind]. rewrite !parse_time_opt_ok.
  destruct (parse_time a) as [x|e]; cbn; [|naive_solver]. destruct (parse_time b) as [y|e]; cbn; naive_solver.
Qed.

Lemma parse_job_window_some s : (exists p, parse_job_window s = Ok p) <-> is_Some (window_parse s).
Proof.
  split.
  - intros [p Hp]. assert (job_window s = Ok (window_parse s)) as H by (unfold job_window; by rewrite Hp).
    apply job_window_ok in H as (tw & -> & _). done.
  - intros [tw Htw]. destruct (parse_job_window s) as [p|e] eqn:E; [by eexists|].
    assert (job_window s = Ok (Some tw)) as H by (apply job_window_ok; eauto). unfold job_window in H. by rewrite E in H.
Qed.

Section Gates.
  Context `{C : Chrono}.

Lemma parse_bound_ok s dt : parse_bound s = Ok dt <-> parse_from_rfc3339 s = Some dt.
Proof. unfold parse_bound. destruct (parse_from_rfc3339 s); simpl; naive_solver. Qed.

(** Nothing is faulted only if every value parses. *)
Lemma bound_unfaulted {A} (parse : string -> result A string) value faults v :
  bound parse value faults = (v, []) ->
  faults = [] /\ match value with Some s => exists x, parse s = Ok x /\ v = Some x | None => v = None end.
Proof.
  unfold bound. destruct value as [s|]; [|naive_solver]. destruct (parse s) as [x|e]; [naive_solver|].
  destruct (one_of e faults) eqn:Ef; [|intros [= _ H]; by destruct faults].
  intros [= <- ->]. done.
Qed.

(** ** The calendars of a file *)

Definition calendar_named (n : string) (dsl : list CalendarConfig) : option CalendarConfig :=
  last (List.filter (fun c => String.eqb (cc_name c) n) dsl).

Lemma add_dsl_lookup n dsl acc :
  (foldl add_dsl acc dsl).1 !! n
  = match calendar_named n dsl with Some cfg => res_ok (from_config cfg) | None => acc.1 !! n end.
Proof.
  unfold calendar_named. revert acc. induction dsl as [|c dsl IH] using rev_ind; intros acc; [done|].
  rewrite foldl_app, List.filter_app. cbn [foldl List.filter]. specialize (IH acc).
  destruct (foldl add_dsl acc dsl) as [cals errs]. cbn [add_dsl fst] in *.
  destruct (String.eqb_spec (cc_name c) n) as [<-|Hn].
  - rewrite last_snoc. destruct (from_config c); cbn [fst res_ok]; [apply lookup_insert_eq|apply lookup_delete_eq].
  - rewrite app_nil_r. destruct (from_config c); cbn [fst];
      [rewrite lookup_insert_ne by done|rewrite lookup_delete_ne by done]; done.
Qed.

(** ** One job *)

Section Jobs.
  Context (TZ_VARIANTS : list string).

(** What a trigger carries when nothing is faulted: the schedule of the file and
    every gate of the compiled job. *)
Record carries (resolved : ResolvedCalendars) (ast_job : JobBlock) (job : JobConfig) (t : Trigger) : Prop := {
  ca_schedule : match jb_schedule ast_job with
                | Some s => from_ast (sched_kind s) = Ok (schedule t)
                | None => schedule t = Disabled
                end;
  ca_zone : load_timezone TZ_VARIANTS job = Ok (timezone t);
  ca_calendar : resolve_calendar resolved (jc_calendar job) = (calendar t, None);
  ca_window : (jc_window job ≫= window_parse) = window t /\ (is_Some (jc_window job) -> is_Some (window t));
  ca_not_before : (jc_not_before job ≫= parse_from_rfc3339) = not_before t
                  /\ (is_Some (jc_not_before job) -> is_Some (not_before t));
  ca_not_after : (jc_not_after job ≫= parse_from_rfc3339) = not_after t
                 /\ (is_Some (jc_not_after job) -> is_Some (not_after t))
}.

Lemma with_bounds_fields key s tz c w nb na now :
  let t := with_bounds key s tz c w nb na now in
  schedule t = s /\ timezone t = tz /\ calendar t = c /\ window t = w /\ not_before t = nb /\ not_after t = na.
Proof. unfold with_bounds. destruct (is_disabled s); [done|]. by destruct (next_fire_at _). Qed.

Lemma load_schedule_unfaulted ast_job s :
  load_schedule ast_job = (s, []) ->
  match jb_schedule ast_job with Some k => from_ast (sched_kind k) = Ok s | None => s = Disabled end.
Proof.
  unfold load_schedule. destruct (jb_schedule ast_job) as [k|]; [|naive_solver].
  destruct (from_ast _) as [s'|e]; [naive_solver|]. by destruct (job_time_errors _).
Qed.

(** A job is loaded faulted and paused, or with everything it declares. *)
Lemma load_job_cases resolved now ast_job job t reasons :
  load_job TZ_VARIANTS resolved now ast_job job = Ok (t, reasons) ->
  trigger_inv t /\ (reasons <> [] /\ state t = Paused \/ reasons = [] /\ carries resolved ast_job job t).
Proof.
  unfold load_job. destruct (load_schedule ast_job) as [s f0] eqn:Es.
  destruct (load_timezone TZ_VARIANTS job) as [tz|e] eqn:Ez; [|done]. cbn [res_bind].
  destruct (resolve_calendar _ _) as [cal cf] eqn:Ec.
  destruct (bound parse_bound (jc_not_before job) f0) as [nb f1] eqn:Eb.
  destruct (bound parse_bound (jc_not_after job) f1) as [na f2] eqn:Ea.
  destruct (bound job_window (jc_window job) f2) as [w f3] eqn:Ew.
  set (t0 := set_missed_fires _ _). intros [= <- <-].
  assert (trigger_inv t0) as Hinv by apply with_bounds_inv.
  destruct (app (option_list cf) f3) as [|r rs] eqn:Er.
  2:{ split; [|left; by split]. destruct Hinv as (_ & Hd & Hg & Hf). split; [by right; left|]. split; [exact Hd|]. split; [exact Hg|exact Hf]. }
  split; [done|]. right. split; [done|]. apply app_eq_nil in Er as [Ecf ->].
  destruct cf; [done|].
  apply bound_unfaulted in Ew as [-> Hw]. apply bound_unfaulted in Ea as [-> Ha].
  apply bound_unfaulted in Eb as [-> Hb]. apply load_schedule_unfaulted in Es.
  destruct (with_bounds_fields (jc_key job) s tz cal (mjoin w) nb na now) as (F1 & F2 & F3 & F4 & F5 & F6).
  split; cbn [t0 set_missed_fires schedule timezone calendar window not_before not_after];
    rewrite ?F1, ?F2, ?F3, ?F4, ?F5, ?F6; try done.
  - destruct (jc_window job) as [ws|]; [|by subst w; split; [|intros []]].
    destruct Hw as (x & (tw & Htw & ->)%job_window_ok & ->). by cbn; rewrite Htw.
  - destruct (jc_not_before job) as [bs|]; [|by subst nb; split; [|intros []]].
    destruct Hb as (x & Hx%parse_bound_ok & ->). by cbn; rewrite Hx.
  - destruct (jc_not_after job) as [bs|]; [|by subst na; split; [|intros []]].
    destruct Ha as (x & Hx%parse_bound_ok & ->). by cbn; rewrite Hx.
Qed.

(** An unfaulted trigger is freshly built. *)
Lemma load_job_fresh resolved now ast_job job t :
  load_job TZ_VARIANTS resolved now ast_job job = Ok (t, []) ->
  t = set_missed_fires (missed_fires_for job)
        (with_bounds (jc_key job) (schedule t) (timezone t) (calendar t) (window t) (not_before t) (not_after t) now).
Proof.
  unfold load_job. destruct (load_schedule ast_job) as [s f0].
  destruct (load_timezone TZ_VARIANTS job) as [tz|e]; [|done]. cbn [res_bind].
  destruct (resolve_calendar _ _) as [cal cf]. destruct (bound _ (jc_not_before job) f0) as [nb f1].
  destruct (bound _ (jc_not_after job) f1) as [na f2]. destruct (bound _ (jc_window job) f2) as [w f3].
  intros [= <- Hr]. rewrite Hr. cbn [set_missed_fires schedule timezone calendar window not_before not_after].
  destruct (with_bounds_fields (jc_key job) s tz cal (mjoin w) nb na now) as (-> & -> & -> & -> & -> & ->). done.
Qed.

(** ** All jobs *)

Definition block_of (asts : list JobBlock) (job : JobConfig) : option JobBlock :=
  List.find (fun j => String.eqb (key_raw (jb_key j)) (jc_key job)) asts.
Definition fault_text (reasons : list string) : option string :=
  match reasons with [] => None | _ => Some (str_join "; " reasons) end.

Lemma load_jobs_spec resolved now asts jobs trs fs trs' fs' :
  load_jobs TZ_VARIANTS resolved now asts jobs trs fs = Ok (trs', fs') -> NoDup (map jc_key jobs) ->
  (forall j, j ∈ jobs -> exists ab t reasons,
     block_of asts j = Some ab /\ load_job TZ_VARIANTS resolved now ab j = Ok (t, reasons) /\
     trs' !! jc_key j = Some t /\ fs' !! jc_key j = option_or (fault_text reasons) (fs !! jc_key j)) /\
  (forall k, k ∉ map jc_key jobs -> trs' !! k = trs !! k /\ fs' !! k = fs !! k).
Proof.
  revert trs fs. induction jobs as [|job jobs IH]; intros trs fs; cbn [load_jobs map].
  { intros [= <- <-] _. split; [by intros j ?%elem_of_nil|done]. }
  destruct (List.find _ asts) as [ab|] eqn:Ef; [|done].
  destruct (load_job TZ_VARIANTS resolved now ab job) as [[t reasons]|e] eqn:El; [|done]. cbn [res_bind].
  intros H [Hnew Hnd]%NoDup_cons. destruct (IH _ _ H Hnd) as [Hin Hout]. clear IH H. split.
  - intros j [->|Hj]%elem_of_cons.
    + exists ab, t, reasons. destruct (Hout _ Hnew) as [-> ->]. split_and!; [done..|by rewrite lookup_insert_eq|].
      destruct reasons; [done|]. by rewrite lookup_insert_eq.
    + destruct (Hin j Hj) as (ab' & t' & rs' & ? & ? & ? & ->). exists ab', t', rs'. split_and!; [done..|].
      assert (jc_key j <> jc_key job) as Hne.
      { intros E. apply Hnew. rewrite <- E. apply list_elem_of_In, in_map, list_elem_of_In, Hj. }
      destruct reasons; [done|]. by rewrite lookup_insert_ne by done.
  - intros k Hk. rewrite not_elem_of_cons in Hk. destruct Hk as [Hne Hk]. destruct (Hout k Hk) as [-> ->].
    rewrite lookup_insert_ne by done. split; [done|]. destruct reasons; [done|]. by rewrite lookup_insert_ne by done.
Qed.
End Jobs.
End Gates.

(** ** Keys of the jobs of a file *)

Section File.
  Context `{C : Chrono}.
  Context (TZ_VARIANTS : list string) (visit : gset string -> list string).
  Context (env_var : string -> option string) (read_file : string -> result string string).
  Context (exec_json : RunnerExec -> option string).
Let compiled := compile env_var read_file exec_json.
Let load := load_ast TZ_VARIANTS visit env_var read_file exec_json.

Definition ast_keys (ast : Croniqfile) : list string := map (fun j => key_raw (jb_key j)) (omap job_block ast).

Lemma compiled_keys ast : map jc_key (rt_jobs (compiled ast)) = ast_keys ast.
Proof.
  subst compiled. fold (CompileFacts.compiled env_var read_file exec_json). rewrite compiled_jobs.
  generalize (vars_of env_var read_file ast). intros vars. generalize builtin_defaults. intros dft.
  generalize (limits_of (rt_concurrency_groups (CompileFacts.compiled env_var read_file exec_json ast))).
  intros limits. unfold ast_keys. revert dft. induction ast as [|i ast IH]; intros dft; [done|].
  destruct i; cbn [compile_items omap list_omap job_block map]; try apply IH;
    specialize (IH dft); destruct (compile_items _ _ _ _ _ _ _) as [js cs]; cbn [fst map] in *; try done; by rewrite IH.
Qed.

Lemma checked_keys opts cals groups chans refs st items :
  no_errors (validate_items TZ_VARIANTS visit opts cals groups chans refs st items) = true ->
  NoDup (ast_keys items) /\ Forall (fun k => k ∉ ps_job_keys st) (ast_keys items).
Proof.
  revert st. induction items as [|i items IH]; intros st; [by split; constructor|].
  cbn [validate_items]. rewrite no_errors_app. intros [Hi Hr]%andb_true_iff. apply IH in Hr as [Hnd Hnew].
  destruct i; try (by split). unfold ast_keys in *. cbn [omap list_omap job_block map] in *.
  cbn [pass_item ps_job_keys] in Hnew. unfold validate_item, validate_job in Hi.
  rewrite no_errors_concat in Hi. cbn [forallb] in Hi. b2p.
  match goal with H : no_errors (when (bool_decide (_ ∈ ps_job_keys st)) _) = true |- _ =>
    rewrite no_errors_when in H; b2p; apply bool_decide_eq_false in H end.
  split.
  - constructor; [|done]. intros Hin. rewrite Forall_forall in Hnew. apply Hnew in Hin. set_solver.
  - constructor; [done|]. eapply Forall_impl; [done|]. set_solver.
Qed.

Lemma validated_keys opts ast :
  no_errors (validate_with TZ_VARIANTS visit ast opts) = true -> NoDup (ast_keys ast).
Proof.
  unfold validate_with. rewrite no_errors_concat. cbn [forallb]. intros H. b2p.
  match goal with H : no_errors (validate_items _ _ _ _ _ _ _ _ _) = true |- _ => by apply checked_keys in H as [Hnd _] end.
Qed.

Lemma validate_ast_ok ast :
  validate_ast TZ_VARIANTS visit ast = Ok tt <-> no_errors (validate_with TZ_VARIANTS visit ast LOADER_VALIDATE) = true.
Proof.
  unfold validate_ast. induction (validate_with _ _ _ _) as [|d l IH]; [done|].
  cbn [List.filter]. unfold is_error at 1. cbn [no_errors forallb]. destruct (dg_severity d); cbn; [done|].
  exact IH.
Qed.

Lemma find_block pre job post :
  NoDup (ast_keys (pre ++ IJob job :: post)%list) ->
  List.find (fun j => String.eqb (key_raw (jb_key j)) (key_raw (jb_key job))) (omap job_block (pre ++ IJob job :: post)%list)
  = Some job.
Proof.
  unfold ast_keys. rewrite omap_app. cbn [omap list_omap job_block]. intros Hnd.
  induction (omap job_block pre) as [|j js IH]; cbn [app List.find].
  { by rewrite String.eqb_refl. }
  cbn [app map] in Hnd. apply NoDup_cons in Hnd as [Hnew Hnd].
  destruct (String.eqb_spec (key_raw (jb_key j)) (key_raw (jb_key job))) as [E|]; [|by apply IH].
  exfalso. apply Hnew. rewrite E, map_app. cbn [map]. set_solver.
Qed.

(** ** A loaded job *)

Lemma loaded_job pre job post now cfg :
  let ast := (pre ++ IJob job :: post)%list in
  load ast now = Ok cfg ->
  exists j t reasons,
    lc_runtime cfg = compiled ast /\ rt_jobs (compiled ast) !! length (List.filter is_job pre) = Some j /\
    lc_triggers cfg !! jc_key j = Some t /\ lc_calendar_faults cfg !! jc_key j = fault_text reasons /\
    load_job TZ_VARIANTS
      (resolve_calendars TZ_VARIANTS visit env_var read_file exec_json (rt_calendars (compiled ast)) []
         (po_strict_calendars (rt_policy (compiled ast)))) now job j = Ok (t, reasons).
Proof.
  intros ast Hload. unfold load, load_ast, load_from_compiled in Hload. fold compiled in Hload.
  destruct (validate_ast TZ_VARIANTS visit ast) as [[]|e] eqn:Ev; [|done]. cbn [map_err res_bind] in Hload.
  destruct (load_jobs _ _ _ _ _ _ _) as [[trs fs]|e] eqn:El; [|done]. injection Hload as <-. cbn.
  apply validate_ast_ok, validated_keys in Ev.
  apply load_jobs_spec in El as [Hin _]; [|by rewrite compiled_keys].
  assert (rt_jobs (compiled ast) !! length (List.filter is_job pre)
          = Some (compiled_job env_var read_file exec_json (vars_of env_var read_file ast) job
                    (defaults_after env_var read_file (vars_of env_var read_file ast) pre builtin_defaults)
                    (limits_of (rt_concurrency_groups (compiled ast))))) as Hj
    by (unfold compiled; fold (CompileFacts.compiled env_var read_file exec_json); rewrite compiled_jobs; apply compile_items_at).
  destruct (Hin _ (list_elem_of_lookup_2 _ _ _ Hj)) as (ab & t & reasons & Hb & Hl & Ht & Hf).
  unfold block_of in Hb. change (jc_key (compiled_job _ _ _ _ _ _ _)) with (key_raw (jb_key job)) in Hb.
  unfold ast in Hb. rewrite find_block in Hb by done. injection Hb as <-.
  exists (compiled_job env_var read_file exec_json (vars_of env_var read_file ast) job
            (defaults_after env_var read_file (vars_of env_var read_file ast) pre builtin_defaults)
            (limits_of (rt_concurrency_groups (compiled ast)))), t, reasons.
  split_and!; try done. rewrite Hf, lookup_empty. by destruct (fault_text reasons).
Qed.

(** What a job of the runtime configuration declares about its fires, [nows]
    being the ticks of the server. *)
Definition declared_gates (rt : RuntimeConfig) (j : JobConfig) (nows : list instant) (f : instant) : Prop :=
  exists tz, load_timezone TZ_VARIANTS j = Ok tz /\
  (po_strict_calendars (rt_policy rt) = true -> forall n, non_empty (jc_calendar j) = Some n ->
     exists cc cal, calendar_named n (rt_calendars rt) = Some cc /\ from_config cc = Ok cal /\
                    is_allowed_at cal f = true) /\
  (forall s, jc_window j = Some s ->
     exists w, window_parse s = Some w /\ contains w (time_of (local_of tz f)) = true) /\
  exists now, now ∈ nows /\ f <= now /\
    (forall s, jc_not_before j = Some s -> exists nb, parse_from_rfc3339 s = Some nb /\ nb <= now) /\
    (forall s, jc_not_after j = Some s -> exists na, parse_from_rfc3339 s = Some na /\ now <= na).

Lemma strict_gate dsl n cal :
  resolve_calendar (resolve_calendars TZ_VARIANTS visit env_var read_file exec_json dsl [] true) (Some n) = (cal, None) ->
  str_is_empty n = false ->
  exists cc c, calendar_named n dsl = Some cc /\ from_config cc = Ok c /\ cal = Some c.
Proof.
  unfold resolve_calendar, resolve_calendars. cbn [foldl non_empty]. intros H Hn. rewrite Hn in H.
  pose proof (add_dsl_lookup n dsl (∅, ∅)) as Hl. destruct (foldl add_dsl (∅, ∅) dsl) as [cals errs].
  cbn [fst res_calendars res_errors res_strict] in *. rewrite Hl, lookup_empty in H.
  destruct (calendar_named n dsl) as [cc|]; [|by destruct (errs !! n)].
  destruct (from_config cc) as [c|e] eqn:Ec; cbn [res_ok] in H; [|by destruct (errs !! n)].
  injection H as <-. by exists cc, c.
Qed.

Lemma carried_gates rt job j t nows :
  carries TZ_VARIANTS (resolve_calendars TZ_VARIANTS visit env_var read_file exec_json (rt_calendars rt) []
             (po_strict_calendars (rt_policy rt))) job j t ->
  trigger_inv t -> Forall (declared_gates rt j nows) (run_ticks t nows).
Proof.
  intros [_ Hz Hc [Hw Hw'] [Hb Hb'] [Ha Ha']] Ht. eapply Forall_impl; [by apply run_ticks_gated|].
  intros f (Hg & now & Hin & Hf & Hnb & Hna). unfold gate_allows in Hg. apply andb_true_iff in Hg as [Hgc Hgw].
  exists (timezone t). split; [done|]. split; [|split].
  - intros Hs n Hn. rewrite Hs in Hc. destruct (jc_calendar j) as [n'|] eqn:En; [|done]. cbn [non_empty] in Hn.
    destruct (str_is_empty n') eqn:Ee; [done|]. injection Hn as ->.
    apply strict_gate in Hc as (cc & c & Hcc & Hfc & Hcal); [|done]. exists cc, c.
    rewrite Hcal in Hgc. done.
  - intros s Hs. rewrite Hs in Hw, Hw'. destruct Hw' as [w Hw']; [done|]. exists w. rewrite Hw' in Hw, Hgw. done.
  - exists now. split_and!; [done..| |].
    + intros s Hs. rewrite Hs in Hb, Hb'. destruct Hb' as [x Hx]; [done|]. exists x.
      cbn in Hb. rewrite Hb. split; [done|]. by apply Hnb.
    + intros s Hs. rewrite Hs in Ha, Ha'. destruct Ha' as [x Hx]; [done|]. exists x.
      cbn in Ha. rewrite Ha. split; [done|]. by apply Hna.
Qed.

End File.

(** ** Restarting a faulted job *)

Section Restart.
  Context `{C : Chrono}.

Lemma resume_state t now : state (resume t now) = Armed \/ state (resume t now) = Exhausted.
Proof. unfold resume, rearm. destruct (next_fire_at _); [by left|by right]. Qed.

(** A restart arms a paused trigger in two cases only: its row says exhausted,
    or the stored fire is closed by a gate the trigger still has. *)
Lemma restore_arms_paused t row now :
  state t = Paused -> state (restore_trigger t row now).1 = Armed ->
  js_status row = JExhausted /\ is_recurring (schedule t) = true \/
  js_status row = JActive /\ exists stored, js_next_fire_at row = Some stored /\ gate_allows t stored = false.
Proof.
  intros Hp. unfold restore_trigger. destruct (js_status row); cbn [fst]; try congruence.
  2:{ destruct (is_recurring (schedule t)); [by left|]. done. }
  destruct (past_not_after t now); [done|]. destruct (js_next_fire_at row) as [stored|]; cbn [fst]; [|congruence].
  intros H. right. split; [done|]. exists stored. split; [done|].
  unfold carry_over_pending_fire in H. cbn [schedule set_fire_count set_fired] in H.
  destruct (is_disabled (schedule t)); [done|].
  change (gate_allows (set_fire_count _ t) stored) with (gate_allows t stored) in H.
  destruct (gate_allows t stored); [|done]. exfalso. cbn [negb] in H.
  assert (forall n, state (plan_missed_fires (set_next n (set_fire_count (js_fire_count row) t)) now).1 = Paused) as Hplan.
  { intros n. unfold plan_missed_fires. cbn [next_fire_at set_next state set_fire_count set_fired].
    destruct n as [n|]; [|done]. case_if; [done|]. rewrite Hp. done. }
  destruct (compute_next_fire _ now) as [fresh|]; [destruct (fresh <? stored)|];
    [cbn in H; congruence|specialize (Hplan (Some stored))..];
    destruct (plan_missed_fires _ now) as [t' []]; cbn [fst] in *; congruence.
Qed.
End Restart.

(** ** Files, from their text *)

Definition demo_load (text : string) (now : instant) : result LoadedConfig LoadError :=
  load_str (C := Demo.demo_chrono) demo_zones elements no_env no_file no_json text now.

Definition gated_text : string := "defaults {
  timezone Etc/GMT-2
}
calendar workdays {
  include weekly weekday
}
job ops:report {
  every day at 02:00 {
    calendar workdays
    not_before 1970-01-02T00:00:00Z
  }
  window 01:00..06:00
}
".
Definition job_of (text : string) : JobBlock :=
  match last (parsed text) with Some (IJob job) => job | _ => MkJob (MkJobKey "x:y" "x" "y" None) None [] end.
Definition gated_file : Croniqfile := (take 2 (parsed gated_text) ++ [IJob (job_of gated_text)])%list.

Definition gated_loaded : result LoadedConfig LoadError :=
  load_ast (C := Demo.demo_chrono) demo_zones elements no_env no_file no_json gated_file 0.
Lemma gated_loads : is_ok gated_loaded = true.
Proof. vm_compute. done. Qed.


(** The trigger of the only job of a file, and what it fires. *)
Definition demo_trigger_of (text key : string) (now : instant) : option (Trigger (C := Demo.demo_chrono)) :=
  cfg ← res_ok (demo_load text now); lc_triggers cfg !! key.
Definition demo_fires (text key : string) (now : instant) (nows : list instant) : option (list instant) :=
  (fun t => run_ticks t nows) <$> demo_trigger_of text key now.

(** Friday, then Monday: the weekend is closed. *)
Example gated_job_fires :
  demo_fires gated_text "ops:report" 0 [NS_DAY - 1; NS_DAY; 2 * NS_DAY; 3 * NS_DAY; 4 * NS_DAY; 5 * NS_DAY]
  = Some [NS_DAY; 4 * NS_DAY; 5 * NS_DAY].
Proof. vm_compute. done. Qed.

(** ** What the load does not do *)

(** A fire that falls before [not_before] is kept and goes out at the bound: the
    job of 02:00 runs at midnight, for an instant of the day before. *)
Definition bounded_text : string := "job ops:report {
  every day at 02:00 { not_before 1970-01-02T00:00:00Z }
}
".
Example held_fire_goes_out_at_the_bound :
  demo_fires bounded_text "ops:report" 0 [seconds 7200; NS_DAY; NS_DAY + seconds 7200]
  = Some [seconds 7200; NS_DAY + seconds 7200].
Proof. vm_compute. done. Qed.

(** A placeholder for the date of a [once] job resolves in no path: the schedule
    is built from the unresolved text and the job is faulted. *)
Definition once_text : string := "vars { start 1970-01-02T00:00:00Z }
job ops:report {
  once at {vars.start}
}
".
Example once_placeholder_is_faulted :
  demo_fires once_text "ops:report" 0 [NS_DAY; 2 * NS_DAY] = Some [] /\
  (cfg ← res_ok (demo_load once_text 0); lc_calendar_faults cfg !! "ops:report")
  = Some "invalid datetime: vars.start".
Proof. vm_compute. done. Qed.

(** Of the calendars named on one line only the first is a gate. *)
Definition two_calendars_text : string := "calendar workdays {
  include weekly weekday
}
calendar mondays {
  include weekly mon
}
job ops:report {
  every day at 02:00 { calendar workdays mondays }
}
".
Example second_calendar_is_dropped :
  no_errors (demo_validate (parsed two_calendars_text) options_default) = true /\
  demo_fires two_calendars_text "ops:report" 0 [NS_DAY; 2 * NS_DAY]
  = Some [seconds 7200; NS_DAY + seconds 7200].
Proof. vm_compute. done. Qed.

(** A restart undoes the pause of a faulted job: its row says exhausted, the
    restore takes that for a recovery, and the job fires without the calendar
    that could not be resolved. *)
Definition faulted_text : string := "job ops:report {
  every 1 hour { calendar missing }
}
".
Definition exhausted_row : JobState := {|
  js_job_key := "ops:report"; js_next_fire_at := None; js_last_fired_at := None;
  js_fire_count := 3; js_status := JExhausted; js_updated_at := 0 |}.
Example restart_arms_a_faulted_job :
  demo_fires faulted_text "ops:report" 0 [seconds 3600; seconds 7200] = Some [] /\
  (t ← demo_trigger_of faulted_text "ops:report" 0;
   Some (run_ticks (restore_trigger t exhausted_row 0).1 [seconds 3600; seconds 7200]))
  = Some [seconds 3600; seconds 7200].
Proof. vm_compute. done. Qed.
