(* ===== verification/StoredJobFacts.v ===== *)
(** * Jobs that live in the store

    Facts on the rows of [Loader.v]: the row synthesized from a job of a file
    builds the trigger of the file, a row the API accepts is one the loader
    schedules, and the boot adds to the jobs of the file exactly the stored jobs
    that are enabled, active and not declared there. *)

From S2P Require Import Prelude RustStr Chrono Ast Lexer Parser Format FormatTokens ItemTokens RoundTrip CalendarArgs DaySets Schedule Calendar Trigger TriggerSearch TriggerMachine Store StoreCalls Execution JobConfig ConfigFacts Restore.
From S2P Require Import Requeue Compile CompileFacts BlockDirectives Validate ValidateFacts ScheduleInput Loader LoaderFacts.

Local Open Scope string_scope.
Local Open Scope Z_scope.

(** ** Triggers that fire alike *)

Section Alike.
  Context `{C : Chrono}.

(** Equal schedules, or lists of weekdays that name the same days. *)
Definition schedules_alike (s s' : Schedule) : Prop :=
  s = s' \/ same_fires s s' /\ exists ds x ds' x', s = Weekdays ds x /\ s' = Weekdays ds' x'.

Record alike (t t' : Trigger) : Prop := {
  al_schedule : schedules_alike (schedule t) (schedule t');
  al_timezone : timezone t = timezone t';
  al_calendar : calendar t = calendar t';
  al_window : window t = window t';
  al_not_before : not_before t = not_before t';
  al_not_after : not_after t = not_after t';
  al_state : state t = state t';
  al_next : next_fire_at t = next_fire_at t';
  al_replay : replay_until t = replay_until t'
}.

Lemma alike_next s s' after tz : schedules_alike s s' -> next_fire_after s after tz = next_fire_after s' after tz.
Proof. intros [->|[H _]]; [done|apply H]. Qed.

Lemma alike_gate_rounds t t' h fuel from : alike t t' -> gate_rounds t h fuel from = gate_rounds t' h fuel from.
Proof.
  intros [_ Hz Hc Hw _ _ _ _ _]. revert from.
  induction fuel as [|fuel IH]; intros from; cbn [gate_rounds]; [done|]. rewrite Hz, Hc, Hw. case_if; [done|].
  apply option_bind_ext_fun; intros c. apply option_bind_ext_fun; intros w. cbv zeta. case_if; [done|apply IH].
Qed.

Lemma alike_gate_jumps t t' fuel c : alike t t' -> gate_jumps t fuel c = gate_jumps t' fuel c.
Proof.
  intros Ha. revert c. induction fuel as [|fuel IH]; intros c; cbn [gate_jumps]; [done|].
  unfold gate_allows, next_gate_open. rewrite (alike_gate_rounds _ _ _ _ _ Ha).
  pose proof Ha as [Hs Hz Hc Hw _ _ _ _ _]. rewrite Hz, Hc, Hw. case_if; [done|].
  apply option_bind_ext_fun; intros o.
  destruct Hs as [->|(Hf & ds & x & ds' & x' & Es & Es')];
    [apply option_bind_ext_fun; intros c'; apply IH|].
  rewrite Es, Es' in *. rewrite (Hf _ _). apply option_bind_ext_fun; intros c'. apply IH.
Qed.

Lemma alike_compute t t' after : alike t t' -> compute_next_fire t after = compute_next_fire t' after.
Proof.
  intros Ha. unfold compute_next_fire. rewrite (alike_next _ _ _ _ (al_schedule _ _ Ha)), (al_timezone _ _ Ha).
  apply option_bind_ext_fun; intros c. by apply alike_gate_jumps.
Qed.

Lemma alike_anchor t t' fa now : alike t t' -> advance_anchor t fa now = advance_anchor t' fa now.
Proof.
  intros [Hs _ _ _ _ _ _ _ _]. unfold advance_anchor.
  by destruct Hs as [->|(_ & ds & x & ds' & x' & -> & ->)].
Qed.

(** The end of [mark_fired]: the next fire, unless it lies past [not_after]. *)
Definition settle (n : option instant) (t : Trigger) : Trigger :=
  match n, not_after t with
  | None, _ => set_state Exhausted (set_next None t)
  | Some next, Some na =>
      if na <? next then set_state Exhausted (set_next None t) else set_state Armed (set_next (Some next) t)
  | Some next, None => set_state Armed (set_next (Some next) t)
  end.

Lemma alike_settle n t t' : alike t t' -> alike (settle n t) (settle n t').
Proof.
  intros Ha. unfold settle. rewrite (al_not_after _ _ Ha).
  destruct n as [n|]; [destruct (not_after t') as [na|]; [destruct (na <? n)|]|]; destruct Ha; by split.
Qed.

Definition fired (fa : instant) (t : Trigger) : Trigger := set_fired (Some fa) (wrap_u64 (fire_count t + 1)) t.
Definition replay_next (fa : instant) (t : Trigger) : option instant :=
  until ← replay_until t; filter_le until (compute_next_fire (fired fa t) fa).
Definition resume_from (t : Trigger) (fa now : instant) : instant :=
  match replay_until t with Some _ => now | None => advance_anchor t fa now end.

Lemma mark_fired_settle t fa now :
  mark_fired t fa now
  = match replay_next fa t with
    | Some n => settle (Some n) (fired fa t)
    | None => settle (compute_next_fire (set_replay_until None (fired fa t)) (resume_from t fa now))
                (set_replay_until None (fired fa t))
    end.
Proof.
  unfold mark_fired, replay_next. fold (fired fa t). cbv zeta. change (replay_until (fired fa t)) with (replay_until t).
  destruct (until ← replay_until t; _) as [n|]; [by unfold settle; destruct (not_after t)|].
  change (match replay_until t with Some _ => now | None => advance_anchor (fired fa t) fa now end) with (resume_from t fa now).
  generalize (compute_next_fire (set_replay_until None (fired fa t)) (resume_from t fa now)). intros n.
  unfold settle. cbn [next_fire_at set_next not_after set_replay_until]. by destruct n, (not_after (fired fa t)).
Qed.

Lemma alike_mark_fired t t' fa now : alike t t' -> alike (mark_fired t fa now) (mark_fired t' fa now).
Proof.
  intros Ha. rewrite !mark_fired_settle.
  assert (alike (fired fa t) (fired fa t')) as Hf by (destruct Ha; by split).
  assert (alike (set_replay_until None (fired fa t)) (set_replay_until None (fired fa t'))) as Hr by (destruct Ha; by split).
  assert (replay_next fa t = replay_next fa t') as ->.
  { unfold replay_next. rewrite (al_replay _ _ Ha). apply option_bind_ext_fun; intros u. by rewrite (alike_compute _ _ fa Hf). }
  assert (resume_from t fa now = resume_from t' fa now) as ->
    by (unfold resume_from; rewrite (al_replay _ _ Ha); destruct (replay_until t'); [done|by apply alike_anchor]).
  destruct (replay_next fa t'); [by apply alike_settle|]. rewrite (alike_compute _ _ _ Hr). by apply alike_settle.
Qed.

Lemma alike_run_ticks t t' nows : alike t t' -> run_ticks t nows = run_ticks t' nows.
Proof.
  revert t t'. induction nows as [|now nows IH]; intros t t' Ha; [done|]. cbn [run_ticks]. unfold tick_trigger.
  assert (evaluate t now = evaluate t' now) as ->
    by (destruct Ha as [_ _ _ _ Hb Hn Hst Hx _]; unfold evaluate; by rewrite Hb, Hn, Hst, Hx).
  destruct (evaluate t' now) as [fa|]; [|by apply IH]. f_equal. apply IH. by apply alike_mark_fired.
Qed.

Lemma alike_with_bounds key s s' tz c w nb na m now :
  schedules_alike s s' -> alike (with_bounds key s tz c w nb na now) (set_missed_fires m (with_bounds key s' tz c w nb na now)).
Proof.
  intros Hs. unfold with_bounds. cbv zeta.
  set (t0 := MkTrigger key s tz c w nb na Armed None None None 0 CatchOnce None).
  set (t1 := MkTrigger key s' tz c w nb na Armed None None None 0 CatchOnce None).
  assert (alike t0 t1) as Ha by by split.
  replace (is_disabled s) with (is_disabled s') by (by destruct Hs as [->|(_ & ds & x & ds' & x' & -> & ->)]).
  destruct (is_disabled s'); [by split|]. rewrite (alike_compute _ _ now Ha).
  destruct (compute_next_fire t1 now); by split.
Qed.
End Alike.

(** ** Schedule lines are no shorthand *)

Lemma trim_end_prefix s : exists q, s = trim_end s +:+ q.
Proof.
  destruct (trim_start_rev_split (String.length (str_rev s)) (str_rev s)) as (_ & p & Hp); [done|].
  exists (str_rev p). unfold trim_end. rewrite <- str_rev_app, <- Hp. by rewrite str_rev_involutive.
Qed.

Lemma strip_suffix_prefix p s r : strip_suffix p s = Some r -> exists q, s = r +:+ q.
Proof.
  revert r. induction s as [|c s IH]; intros r; cbn [strip_suffix]; case_match; try done.
  - intros [= <-]. by eexists.
  - intros [= <-]. by eexists.
  - destruct (strip_suffix p s) as [r'|]; [|done]. intros [= <-].
    destruct (IH r' eq_refl) as [q ->]. by exists q.
Qed.

Definition letter (c : ascii) : bool := byte_in c 97 122.

(** Prefixes of a word that starts with a letter are no numbers. *)
Lemma word_prefix_no_number max c r p q : letter c = true -> String c r = p +:+ q -> parse_uint max p = None.
Proof.
  intros Hc. destruct p as [|a p]; [done|]. intros [= <- _]. cbn [parse_uint].
  assert (Ascii.eqb c "+" = false) as -> by (destruct c as [[] [] [] [] [] [] [] []]; vm_compute in Hc |- *; done).
  cbn [parse_digits]. unfold digit_val.
  assert (byte_in c 48 57 = false) as -> by (destruct c as [[] [] [] [] [] [] [] []]; vm_compute in Hc |- *; done).
  done.
Qed.

Lemma word_is_no_interval c r : letter c = true -> parse_interval_seconds (String c r) = None.
Proof.
  intros Hc. unfold parse_interval_seconds.
  assert (trim (String c r) = trim_end (String c r)) as ->.
  { unfold trim. rewrite head_ok_trim; [done|].
    destruct c as [[] [] [] [] [] [] [] []]; vm_compute in Hc; try discriminate Hc; by destruct r as [|b [|d r]]. }
  destruct (trim_end_prefix (String c r)) as [q Hq]. set (s := trim_end (String c r)) in *.
  assert (forall p q', s = p +:+ q' -> forall max, parse_uint max p = None) as Hno.
  { intros p q' -> max. eapply word_prefix_no_number; [done|]. rewrite Hq. symmetry. apply str_app_assoc. }
  unfold parse_u64. rewrite (Hno s "") by (by rewrite str_app_nil).
  destruct (strip_suffix "s" s) as [n|] eqn:E1; [apply strip_suffix_prefix in E1 as [q1 E1]; by eapply Hno|].
  destruct (strip_suffix "m" s) as [n|] eqn:E2; [apply strip_suffix_prefix in E2 as [q2 E2]; by erewrite Hno|].
  destruct (strip_suffix "h" s) as [n|] eqn:E3; [apply strip_suffix_prefix in E3 as [q3 E3]; by erewrite Hno|].
  destruct s as [|a s]; [done|]. injection Hq as <- _.
  assert (Ascii.eqb "*" c = false) as Hstar by (destruct c as [[] [] [] [] [] [] [] []]; vm_compute in Hc |- *; done).
  cbn [strip_prefix]. by rewrite Hstar.
Qed.

Lemma line_is_no_interval k : parse_interval_seconds (format_schedule_line k) = None.
Proof. destruct k; cbn [format_schedule_line]; by apply word_is_no_interval. Qed.

(** ** The row of a job of the file *)

Section Synthesized.
  Context `{C : Chrono}.
  Context (TZ_VARIANTS : list string) (visit : gset string -> list string).
  Context (env_var : string -> option string) (read_file : string -> result string string).
  Context (exec_json : RunnerExec -> option string).
Let load := load_ast TZ_VARIANTS visit env_var read_file exec_json.
Let resolve := resolve_calendars TZ_VARIANTS visit env_var read_file exec_json.

Lemma norm_kind_alike k :
  match from_ast k, from_ast (norm_kind k) with
  | Ok s, Ok s' => schedules_alike s' s
  | Err e, Err e' => e' = e
  | _, _ => False
  end.
Proof.
  pose proof (norm_kind_same_fires k) as H.
  destruct k as [| |days t| | |]; cbn [norm_kind] in *; try (destruct (from_ast _); by try left).
  cbn [from_ast] in *. destruct (time_from_ast t) as [v|e]; cbn [res_bind] in *; [|done].
  right. split; [done|]. by eexists _, _, _, _.
Qed.

(** The expression stored for a schedule builds a schedule that fires alike. *)
Lemma stored_expression k s :
  kind_prints k = true -> from_ast k = Ok s ->
  exists s', schedule_from_expr (to_dsl (compiled_from_ast k)) = Some s' /\ schedules_alike s' s.
Proof.
  intros Hk Hs. destruct (to_schedule_kind_ok k Hk) as [Hk' _].
  unfold schedule_from_expr, to_dsl. rewrite line_is_no_interval, parse_schedule_line by done.
  cbn [res_ok mbind option_bind]. pose proof (norm_kind_alike (to_schedule_kind (compiled_from_ast k))) as H.
  rewrite (persisted_schedule_rebuilds k), Hs in H by by apply kind_prints_ok.
  destruct (from_ast (norm_kind _)) as [s'|e]; [|done]. by exists s'.
Qed.

(** Calendars of the file win over stored ones of the same name. *)
Lemma resolve_stored dsl stored strict n :
  is_Some (calendar_named n dsl) ->
  res_calendars (resolve dsl stored strict) !! n = res_calendars (resolve dsl [] strict) !! n.
Proof.
  intros [cc Hcc]. unfold resolve, resolve_calendars.
  pose proof (add_dsl_lookup n dsl (foldl (add_stored TZ_VARIANTS visit env_var read_file exec_json) (∅, ∅) stored)) as H1.
  pose proof (add_dsl_lookup n dsl (foldl (add_stored TZ_VARIANTS visit env_var read_file exec_json) (∅, ∅) [])) as H2.
  do 2 destruct (foldl add_dsl _ dsl). cbn [fst res_calendars] in *. by rewrite H1, H2, Hcc.
Qed.

Lemma resolve_gate_stored dsl stored name cal :
  resolve_calendar (resolve dsl [] true) name = (cal, None) ->
  resolve_calendar (resolve dsl stored true) name = (cal, None).
Proof.
  destruct name as [n|]; [|done]. intros H. destruct (str_is_empty n) eqn:En.
  { unfold resolve_calendar, non_empty in *. by rewrite En in *. }
  destruct (strict_gate TZ_VARIANTS visit env_var read_file exec_json dsl n cal H En) as (cc & c & Hcc & Hc & ->).
  unfold resolve_calendar, non_empty in *. rewrite En in *. rewrite resolve_stored by by eexists.
  by destruct (res_calendars (resolve dsl [] true) !! n).
Qed.

Lemma row_timezone_same j now tz :
  load_timezone TZ_VARIANTS j = Ok tz -> row_timezone TZ_VARIANTS (synth_trigger_def_from_dsl j now) = (tz, None).
Proof.
  unfold load_timezone, row_timezone. cbn [synth_trigger_def_from_dsl td_timezone].
  destruct (jc_timezone j) as [n|]; [|by intros [= ->]]. destruct (timezone_parse _ n); [by intros [= ->]|done].
Qed.

Lemma row_window_same j now w :
  (jc_window j ≫= window_parse) = w -> (is_Some (jc_window j) -> is_Some w) ->
  row_window (synth_trigger_def_from_dsl j now) = (w, None).
Proof.
  unfold row_window. cbn [synth_trigger_def_from_dsl td_window]. destruct (jc_window j) as [s|]; [|by intros <-].
  cbn [mbind option_bind]. intros <- Hs.
  destruct (proj2 (parse_job_window_some s)) as [p ->]; [by apply Hs|done].
Qed.

(** C11. The stored form of a job of the file runs as the file does. For a job
    that loads without a fault under [strict_calendars], the row synthesized from
    it (which is what adoption writes to the store) is rebuilt, against any
    stored calendars, into a trigger without a fault that fires, whatever the
    ticks, at exactly the instants the trigger of the file does. Schedules are
    those the grammar can write down. *)
Theorem synthesized_row_fires_the_same pre job post k now cfg stored :
  let ast := (pre ++ IJob job :: post)%list in
  load ast now = Ok cfg -> po_strict_calendars (rt_policy (lc_runtime cfg)) = true ->
  (sched_kind <$> jb_schedule job) = Some k -> kind_prints k = true ->
  exists j t,
    rt_jobs (lc_runtime cfg) !! length (List.filter is_job pre) = Some j /\
    lc_triggers cfg !! jc_key j = Some t /\
    (lc_calendar_faults cfg !! jc_key j = None ->
     exists b, trigger_from_definition TZ_VARIANTS (synth_trigger_def_from_dsl j now)
                 (resolve (rt_calendars (lc_runtime cfg)) stored true) now = Some b /\
       bt_config_fault b = None /\ forall nows, run_ticks (bt_trigger b) nows = run_ticks t nows).
Proof.
  intros ast Hload Hstrict Hk Hp.
  destruct (loaded_job TZ_VARIANTS visit env_var read_file exec_json pre job post now cfg Hload)
    as (j & t & reasons & Hrt & Hj & Ht & Hf & Hl).
  exists j, t. rewrite Hrt in *. split_and!; [done..|]. rewrite Hf. intros Hnone.
  assert (jc_schedule j = compiled_from_ast k) as Hsched.
  { fold (CompileFacts.compiled env_var read_file exec_json) in Hj. fold ast in Hj.
    rewrite compiled_jobs in Hj. unfold ast in Hj. rewrite compile_items_at in Hj. injection Hj as <-.
    cbn. by destruct (jb_schedule job); [injection Hk as <-|]. }
  pose proof Hl as Hcase. apply load_job_cases in Hcase as [_ [[Hr _]|[-> Hc]]]; [by destruct reasons|].
  destruct Hc as [Hs Hz Hcal [Hw Hw'] [Hb _] [Ha _]].
  destruct (jb_schedule job) as [sn|]; [|done]. injection Hk as Hk. rewrite Hk in Hs.
  destruct (stored_expression k _ Hp Hs) as (s' & Hs' & Halike).
  apply load_job_fresh in Hl. rewrite Hstrict in Hcal. apply (resolve_gate_stored _ stored) in Hcal.
  unfold trigger_from_definition. rewrite (row_timezone_same j now _ Hz), (row_window_same j now _ Hw Hw').
  cbn [synth_trigger_def_from_dsl td_cron_expression td_calendar td_job_key td_not_before td_not_after mbind option_bind].
  rewrite Hsched, Hs', Hcal, Hb, Ha. eexists. split; [reflexivity|]. split; [done|]. intros nows.
  transitivity (run_ticks (set_missed_fires (missed_fires_for j) (with_bounds (jc_key j) (schedule t) (timezone t)
    (calendar t) (window t) (not_before t) (not_after t) now)) nows); [|by rewrite <- Hl].
  by apply alike_run_ticks, alike_with_bounds.
Qed.
End Synthesized.

Lemma gated_strict :
  match gated_loaded with Ok cfg => po_strict_calendars (rt_policy (lc_runtime cfg)) = true | Err _ => False end.
Proof. vm_compute. done. Qed.

Lemma synthesized_row_fires_the_same_witness :
  match gated_loaded with
  | Ok cfg =>
      exists j t, rt_jobs (lc_runtime cfg) !! 0%nat = Some j /\ lc_triggers cfg !! jc_key j = Some t /\
        (lc_calendar_faults cfg !! jc_key j = None ->
         exists b, trigger_from_definition (C := Demo.demo_chrono) demo_zones (synth_trigger_def_from_dsl (C := Demo.demo_chrono) j 0)
                     (resolve_calendars (C := Demo.demo_chrono) demo_zones elements no_env no_file no_json
                        (rt_calendars (lc_runtime cfg)) [] true) 0 = Some b /\
           bt_config_fault b = None /\ forall nows, run_ticks (C := Demo.demo_chrono) (bt_trigger b) nows = run_ticks t nows)
  | Err _ => False
  end.
Proof.
  pose proof gated_strict as Hs. destruct gated_loaded as [cfg|e] eqn:E; [|destruct Hs].
  exact (synthesized_row_fires_the_same (C := Demo.demo_chrono) demo_zones elements no_env no_file no_json
           (take 2 (parsed gated_text)) (job_of gated_text) [] (KDaily (MkTimeValue 2 0 "02:00")) 0 cfg [] E Hs
           eq_refl eq_refl).
Defined.

(** ** Stored jobs at boot *)

Section Boot.
  Context `{C : Chrono}.
  Context (TZ_VARIANTS : list string) (to_rfc3339 : instant -> string).
  Context (get_job_definition : string -> result (option JobDefinition) StoreError).
  Context (resolved : ResolvedCalendars) (now : instant).
Let step := reconcile_row TZ_VARIANTS to_rfc3339 get_job_definition resolved now.
Let run := reconcile_rows TZ_VARIANTS to_rfc3339 get_job_definition resolved now.

(** The trigger a stored row brings: enabled, not a copy of the file's, of a job
    that is not deactivated. *)
Definition brings (def : TriggerDefinition) (t : Trigger) : Prop :=
  td_managed_by def <> "dsl" /\ td_enabled def = true /\
  (exists jd, get_job_definition (td_job_key def) = Ok jd /\ forall j, jd = Some j -> jd_is_active j = true) /\
  exists b, trigger_from_definition TZ_VARIANTS def resolved now = Some b /\ t = bt_trigger b.

Lemma reconcile_row_spec b def b' :
  step b def = Ok b' ->
  bj_triggers b' = bj_triggers b /\ (forall t, brings def t -> is_Some (bj_triggers b !! td_job_key def)) \/
  exists t, bj_triggers b !! td_job_key def = None /\ brings def t /\
            bj_triggers b' = <[td_job_key def := t]> (bj_triggers b).
Proof.
  unfold step, reconcile_row. destruct (String.eqb_spec (td_managed_by def) "dsl") as [Hm|Hm]; cbn [orb].
  { intros [= <-]. left. split; [done|]. by intros t (? & _). }
  destruct (td_enabled def) eqn:Een; cbn [negb].
  2:{ intros [= <-]. left. split; [done|]. intros t (_ & ? & _). congruence. }
  case_bool_decide as Hk; [intros [= <-]; left; by split|].
  destruct (get_job_definition (td_job_key def)) as [jd|] eqn:Ej; [|done]. cbn [res_bind].
  destruct (match jd with Some j => negb (jd_is_active j) | None => false end) eqn:Ea.
  { intros [= <-]. left. split; [done|]. intros t (_ & _ & (jd' & Hjd & Hact) & _).
    rewrite Ej in Hjd. injection Hjd as <-. destruct jd as [j|]; [|done]. by rewrite (Hact j eq_refl) in Ea. }
  destruct (trigger_from_definition TZ_VARIANTS def resolved now) as [bt|] eqn:Eb.
  2:{ intros [= <-]. left. split; [done|]. intros t (_ & _ & _ & b0 & Hb & _). congruence. }
  intros [= <-]. right. exists (bt_trigger bt). split; [by apply eq_None_not_Some|]. split; [|done].
  split_and!; [done..| |by exists bt]. exists jd. split; [done|]. intros j ->. by apply negb_false_iff in Ea.
Qed.

(** The boot keeps the triggers of the file and adds, for the other keys, the
    stored jobs that may run: every trigger added is that of such a row, and no
    such row is left without a trigger for its job. *)
Lemma boot_adds_stored_jobs rows b b' :
  run b rows = Ok b' ->
  (forall k t, bj_triggers b !! k = Some t -> bj_triggers b' !! k = Some t) /\
  (forall k t, bj_triggers b' !! k = Some t -> bj_triggers b !! k = None ->
     exists def, def ∈ rows /\ td_job_key def = k /\ brings def t) /\
  (forall def t, def ∈ rows -> brings def t -> is_Some (bj_triggers b' !! td_job_key def)).
Proof.
  revert b. induction rows as [|def rows IH]; intros b; cbn [reconcile_rows run].
  { intros [= <-]. split_and!; [done|intros; congruence|by intros ?? ?%elem_of_nil]. }
  unfold run. cbn [reconcile_rows]. fold step. destruct (step b def) as [b1|] eqn:E1; [|done]. cbn [res_bind].
  intros (Hkeep & Hadd & Hall)%IH.
  apply reconcile_row_spec in E1 as [[E1 Hnone]|(t1 & Hfree & Hb & E1)]; rewrite E1 in *.
  - split_and!; [done| |].
    + intros k t Hk Hn. destruct (Hadd k t Hk Hn) as (d & Hd & ?). exists d. by split; [right|].
    + intros d t [->|Hd]%elem_of_cons Hbr; [|by eapply Hall].
      destruct (Hnone t Hbr) as [x Hx]. exists x. by apply Hkeep.
  - split_and!.
    + intros k t Hk. apply Hkeep. rewrite lookup_insert_ne; [done|]. intros <-. congruence.
    + intros k t Hk Hn. destruct (decide (td_job_key def = k)) as [<-|Hne].
      * exists def. split; [left|]. split; [done|]. assert (bj_triggers b' !! td_job_key def = Some t1) as H
          by (apply Hkeep, lookup_insert_eq). rewrite Hk in H. by injection H as ->.
      * destruct (Hadd k t Hk) as (d & Hd & ?); [by rewrite lookup_insert_ne|]. exists d. by split; [right|].
    + intros d t [->|Hd]%elem_of_cons Hbr; [|by eapply Hall]. exists t1. apply Hkeep, lookup_insert_eq.
Qed.
End Boot.
