(* ===== verification/Convert.v ===== *)
(** * From crontab lines to schedules

    Models [croniq-config/src/convert.rs], the converter of five-field cron
    expressions behind [croniq config convert] and [croniq migrate], and states
    what a cron expression means ([cron_matches]) so that the two can be
    compared. *)

From S2P Require Import Prelude RustStr Chrono Ast Lexer Parser Format LexFacts FormatTokens ItemTokens FormatParse RoundTrip Schedule Durations JobConfig ConfigFacts ScheduleInput StoredJobFacts.

Local Open Scope string_scope.
Local Open Scope Z_scope.
Local Open Scope result_scope.

(** ** Text helpers of the standard library *)

Fixpoint drop_chars (n : nat) (s : string) : string :=
  match n, s with
  | S n, String _ s => drop_chars n s
  | _, _ => s
  end.

(** [s.split_whitespace().collect()]: every piece is not empty, so the length of
    the text bounds their number. *)
Fixpoint split_whitespace_loop (steps : nat) (s : string) : list string :=
  match steps with
  | O => []
  | S steps =>
      match first_word s with
      | None => []
      | Some w => w :: split_whitespace_loop steps (drop_chars (String.length w) (trim_start s))
      end
  end.
Definition split_whitespace (s : string) : list string := split_whitespace_loop (S (String.length s)) s.

(** [s.trim_start_matches(p)]: every leading copy of [p]. *)
Fixpoint trim_start_matches_loop (steps : nat) (p s : string) : string :=
  match steps with
  | O => s
  | S steps => match strip_prefix p s with Some r => trim_start_matches_loop steps p r | None => s end
  end.
Definition trim_start_matches (p s : string) : string := trim_start_matches_loop (S (String.length s)) p s.

(** ** Fields *)

Record ConversionResult := { cr_schedule : string; cr_warnings : list string }.

Definition is_star (s : string) : bool := String.eqb s "*".
Definition is_zero (s : string) : bool := String.eqb s "0".
Definition is_step (s : string) : bool := starts_with "*/" s.

Definition parse_step (s : string) : result Z string :=
  ok_or (parse_u32 (trim_start_matches "*/" s)) ("invalid step value in '" ++ s ++ "'").

Definition parse_fixed (s : string) : option Z := parse_u32 s.

(** [dow_to_name]. [to_lowercase] is read on ASCII letters: no other letter
    lowers to one of a day's name, so the rest of Unicode only shows in the
    text of the error. *)
Definition dow_to_name (s : string) : result string string :=
  let l := to_ascii_lowercase s in
  let is_ x := String.eqb l x in
  if is_ "0" || is_ "7" || is_ "sun" || is_ "sunday" then Ok "sunday"
  else if is_ "1" || is_ "mon" || is_ "monday" then Ok "monday"
  else if is_ "2" || is_ "tue" || is_ "tuesday" then Ok "tuesday"
  else if is_ "3" || is_ "wed" || is_ "wednesday" then Ok "wednesday"
  else if is_ "4" || is_ "thu" || is_ "thursday" then Ok "thursday"
  else if is_ "5" || is_ "fri" || is_ "friday" then Ok "friday"
  else if is_ "6" || is_ "sat" || is_ "saturday" then Ok "saturday"
  else Err ("unknown day-of-week value '" ++ l ++ "'").

Definition parse_dow (s : string) : result (list string) string :=
  let is_ x := String.eqb s x in
  if is_ "1-5" then Ok ["weekday"]
  else if is_ "0-6" || is_ "6-0" then
    Ok ["sunday"; "monday"; "tuesday"; "wednesday"; "thursday"; "friday"; "saturday"]
  else if is_ "6,0" || is_ "0,6" then Ok ["weekend"]
  else if is_ "6-7" || is_ "0,7" then Ok ["weekend"]
  else res_collect dow_to_name (split_char "," s).

Definition format_weekday_schedule (days : list string) (time : string) : string :=
  if decide (days = ["weekday"]) then "every weekday at " ++ time
  else if decide (days = ["weekend"]) then "every weekend at " ++ time
  else if decide (length days = 7%nat) then "every day at " ++ time
  else match days with
       | [d] => "every " ++ d ++ " at " ++ time
       | _ => "every " ++ str_join " " days ++ " at " ++ time
       end.

Definition ordinal_suffix (n : Z) : string :=
  if (11 <=? n mod 100) && (n mod 100 <=? 13) then "th"
  else if n mod 10 =? 1 then "st"
  else if n mod 10 =? 2 then "nd"
  else if n mod 10 =? 3 then "rd"
  else "th".

(** The body of the loop of [parse_dom]. *)
Definition dom_ordinal (item : string) : result string string :=
  n <-? ok_or (parse_u32 item) ("invalid day-of-month value '" ++ item ++ "'");
  if (n =? 0) || (31 <? n)
  then Err ("day-of-month " ++ show_uint n ++ " out of range (1–31)")
  else Ok (show_uint n ++ ordinal_suffix n).

Definition parse_dom (s : string) : result (list string) string :=
  if String.eqb (to_ascii_lowercase s) "l" then Ok ["last"]
  else res_collect dom_ordinal (split_char "," s).

Definition format_monthly_schedule (ordinals : list string) (time : string) : string :=
  "every " ++ str_join " " ordinals ++ " of month at " ++ time.

(** ** The converter *)

Definition yearly_warning : string :=
  "@yearly/@annually maps to 'every 1st of month' — Croniq does not have a yearly-only construct; add a `calendar` block to restrict to January if needed.".
Definition month_warning (month : string) : string :=
  "the month field `" ++ month ++ "` is not expressed: the converted schedule fires in every month; restrict it with a `calendar` (e.g. `include annual ...` dates) if that matters".
Definition both_days_warning : string :=
  "Cron fires when EITHER dom OR dow matches; Croniq cannot express this directly. The converted schedule uses only the day-of-week field.".
Definition fallback_error (expr : string) : string :=
  "Could not convert '" ++ expr ++ "' to a Croniq schedule. Supported patterns: */N (step intervals), fixed time-of-day with weekday or dom constraints. Complex expressions with ranges or lists in the time fields are not supported.".

(** The [match expr] over the @-macros. *)
Definition convert_macro (expr : string) : option ConversionResult :=
  let is_ x := String.eqb expr x in
  if is_ "@yearly" || is_ "@annually" then
    Some {| cr_schedule := "every 1st of month at 00:00"; cr_warnings := [yearly_warning] |}
  else if is_ "@monthly" then Some {| cr_schedule := "every 1st of month at 00:00"; cr_warnings := [] |}
  else if is_ "@weekly" then Some {| cr_schedule := "every monday at 00:00"; cr_warnings := [] |}
  else if is_ "@daily" || is_ "@midnight" then Some {| cr_schedule := "every day at 00:00"; cr_warnings := [] |}
  else if is_ "@hourly" then Some {| cr_schedule := "every " ++ interval_phrase 1 "hour"; cr_warnings := [] |}
  else None.

(** The patterns with a fixed minute [m] and hour [h]. *)
Definition convert_fixed (m h : Z) (dom dow : string) (warnings : list string) : result ConversionResult string :=
  let time := pad2 h ++ ":" ++ pad2 m in
  if is_star dom && is_star dow then
    Ok {| cr_schedule := "every day at " ++ time; cr_warnings := warnings |}
  else if is_star dom && negb (is_star dow) then
    days <-? parse_dow dow;
    Ok {| cr_schedule := format_weekday_schedule days time; cr_warnings := warnings |}
  else if negb (is_star dom) && is_star dow then
    ordinals <-? parse_dom dom;
    Ok {| cr_schedule := format_monthly_schedule ordinals time; cr_warnings := warnings |}
  else
    days <-? parse_dow dow;
    Ok {| cr_schedule := format_weekday_schedule days time; cr_warnings := (warnings ++ [both_days_warning])%list |}.

(** The five fields. *)
Definition convert_fields (expr minute hour dom month dow : string) : result ConversionResult string :=
  let warnings := if is_star month then [] else [month_warning month] in
  let rest_star := is_star dom && is_star dow in
  if is_step minute && is_star hour && rest_star then
    n <-? parse_step minute;
    Ok {| cr_schedule := "every " ++ interval_phrase n "minute"; cr_warnings := warnings |}
  else if is_star minute && is_star hour && rest_star then
    Ok {| cr_schedule := "every " ++ interval_phrase 1 "minute"; cr_warnings := warnings |}
  else if is_zero minute && is_step hour && rest_star then
    n <-? parse_step hour;
    Ok {| cr_schedule := "every " ++ interval_phrase n "hour"; cr_warnings := warnings |}
  else if is_zero minute && is_star hour && rest_star then
    Ok {| cr_schedule := "every " ++ interval_phrase 1 "hour"; cr_warnings := warnings |}
  else match parse_fixed minute, parse_fixed hour with
       | Some m, Some h => convert_fixed m h dom dow warnings
       | _, _ => Err (fallback_error expr)
       end.

(** [convert] *)
Definition convert (expr : string) : result ConversionResult string :=
  let expr := trim expr in
  match convert_macro expr with
  | Some r => Ok r
  | None =>
      match split_whitespace expr with
      | [minute; hour; dom; month; dow] => convert_fields expr minute hour dom month dow
      | parts => Err ("expected 5 fields (minute hour dom month dow), got " ++ show_uint (Z.of_nat (length parts)))
      end
  end.

(** ** What a cron expression means

    Each field is a list of elements: a value, a range of values or every value,
    the last two with an optional step. A day matches when its day of the month
    and its weekday do, or, with both restricted, when either does. *)

Definition cron_element (value : string -> option Z) (e : string) (v : Z) : bool :=
  let '(range, step) :=
    match split_once "/" e with Some (r, s) => (r, parse_u32 s) | None => (e, Some 1) end in
  match step with
  | None => false
  | Some step =>
      (0 <? step) &&
      (if is_star range then v mod step =? 0
       else match split_once "-" range with
            | Some (a, b) =>
                match value a, value b with
                | Some a, Some b => (a <=? v) && (v <=? b) && ((v - a) mod step =? 0)
                | _, _ => false
                end
            | None => match value range with Some n => v =? n | None => false end
            end)
  end.
Definition cron_field (value : string -> option Z) (field : string) (v : Z) : bool :=
  existsb (fun e => cron_element value e v) (split_char "," field).

(** A weekday by number, or by its name in full or in three letters. *)
Definition cron_weekday_value (s : string) : option Z :=
  match AstWeekday.parse s with
  | Some AstWeekday.Sunday => Some 0
  | Some d => Some (Z.of_nat (AstWeekday.index d) + 1)
  | None => parse_u32 s
  end.
Definition weekday_number (w : Weekday) : Z :=
  match w with Sun => 0 | Mon => 1 | Tue => 2 | Wed => 3 | Thu => 4 | Fri => 5 | Sat => 6 end.

(** Sunday is 0 and 7. *)
Definition cron_weekday (field : string) (w : Weekday) : bool :=
  cron_field cron_weekday_value field (weekday_number w)
  || bool_decide (w = Sun) && cron_field cron_weekday_value field 7.

Section Cron.
  Context `{C : Chrono}.

(** [L] is the last day of the month. *)
Definition cron_month_day (field : string) (date : NaiveDate) : bool :=
  if String.eqb (to_ascii_lowercase field) "l"
  then day date =? last_day_of_month (year date) (month date)
  else cron_field parse_u32 field (day date).

Definition cron_day (dom dow : string) (date : NaiveDate) : bool :=
  if negb (is_star dom) && negb (is_star dow)
  then cron_month_day dom date || cron_weekday dow (weekday date)
  else cron_month_day dom date && cron_weekday dow (weekday date).

(** The expression matches a wall clock reading. *)
Definition cron_matches (minute hour dom month dow : string) (n : NaiveDateTime) : bool :=
  let t := time_of n in
  (t mod (60 * NS_SEC) =? 0)
  && cron_field parse_u32 minute (t / (60 * NS_SEC) mod 60)
  && cron_field parse_u32 hour (t / (3600 * NS_SEC))
  && cron_field parse_u32 month (Chrono.month (date_of n))
  && cron_day dom dow (date_of n).
End Cron.

(** ** The table of the module, and what it leaves out *)

Definition schedule_of (expr : string) : result string string :=
  r <-? convert expr; Ok (cr_schedule r).

Example convert_table :
  schedule_of "* * * * *" = Ok "every 1 minute" /\ schedule_of "*/5 * * * *" = Ok "every 5 minutes" /\
  schedule_of "0 */2 * * *" = Ok "every 2 hours" /\ schedule_of " 0 9 * * 1 " = Ok "every monday at 09:00" /\
  schedule_of "0 9 * * 1-5" = Ok "every weekday at 09:00" /\
  schedule_of "0 9 * * 1,3,5" = Ok "every monday wednesday friday at 09:00" /\
  schedule_of "0 3 1,15 * *" = Ok "every 1st 15th of month at 03:00" /\
  schedule_of "0 3 L * *" = Ok "every last of month at 03:00" /\
  schedule_of "0 9 * *" = Err "expected 5 fields (minute hour dom month dow), got 4".
Proof. vm_compute. repeat split. Qed.

(** ** The converter against cron

    the line emitted for a fixed time of day is one the
    schedule reader accepts, and the schedule it builds fires at the instants
    the cron expression names. *)

Local Open Scope list_scope.
Local Open Scope Z_scope.

(** ** Lines with a list of days *)

Definition days_line (ws : list string) (t : TimeValue) : string :=
  "every " +:+ str_join " " ws +:+ " at " +:+ tv_raw t.

(** A word of a list of days: one token, read by [weekday_list]. *)
Definition day_token (w : string) : bool := bare_word w && day_word w.

Definition days_toks (ws : list string) (t : TimeValue) : list TokenKind :=
  (Ident "every" :: map Ident ws ++ [Ident "at"; Ident (tv_raw t)])%list.

Lemma day_tokens_bare ws : forallb day_token ws = true -> forallb bare_word ws = true /\ forallb day_word ws = true.
Proof.
  unfold day_token. induction ws as [|w ws IH]; [done|]. cbn [forallb]. intros H. b2p.
  destruct (IH ltac:(done)) as [-> ->]. by rewrite !andb_true_r.
Qed.

Lemma Lexes_days ws t s ks :
  ws <> [] -> forallb day_token ws = true -> time_ok t = true -> stops s = true -> Lexes s ks ->
  Lexes (days_line ws t +:+ s) (days_toks ws t ++ ks).
Proof.
  intros Hne Hw Ht Hs Hl. destruct (day_tokens_bare ws Hw) as [Hb _]. unfold days_line, days_toks.
  change ("every " +:+ ?x) with ("every" +:+ " " +:+ x). assoc. cbn [app]. rewrite <- app_assoc.
  rewrite (str_app_assoc " "), join_args by done. rewrite <- args_toks_plain by done.
  assert (Lexes (" at " +:+ tv_raw t +:+ s) (Ident "at" :: Ident (tv_raw t) :: ks)) as Hat.
  { apply (Lexes_space ("at" +:+ " " +:+ tv_raw t +:+ s)). apply Lexes_keyword; [done|].
    by apply Lexes_word; [apply time_ok_bare|..]. }
  destruct (Lexes_args (map plain_value ws) (" at " +:+ tv_raw t +:+ s) _ (plain_args_ok _ Hb) eq_refl Hat)
    as [Hargs Hstop].
  by apply Lexes_word.
Qed.

(** The schedule parser on such a line. *)
Lemma parse_days_schedule ws t ts :
  ws <> [] -> forallb day_token ws = true -> time_ok t = true -> ts <> [] ->
  parse_schedule (days_toks ws t ++ Newline :: ts)
  = Ok (MkScheduleNode (KWeekdays (concat (map word_days ws)) t) None [], Newline :: ts).
Proof.
  intros Hne Hw Ht Hts. destruct (day_tokens_bare ws Hw) as [Hb Hd].
  destruct ws as [|w ws]; [done|]. unfold parse_schedule, days_toks. cbn [app]. rewrite peek_bind, hd_cons. cbn [text].
  change (String.eqb "every" "ephemeral") with false. change (String.eqb "every" "queued") with false. cbv iota.
  cbn [p_ret]. unfold p_bind at 1. cbn [p_ret]. rewrite peek_bind, hd_cons. cbn [text].
  change (String.eqb "every" "disabled") with false. change (String.eqb "every" "once") with false.
  change (String.eqb "every" "every") with true. cbv iota.
  rewrite (p_bind_ok _ _ _ (node (KWeekdays (concat (map word_days (w :: ws))) t) []) (Newline :: ts)); [done|].
  unfold parse_schedule_every. cbn [map app]. take_ident. rewrite peek_bind, hd_cons. cbn [text].
  assert (is_day_name w = true) as ->.
  { cbn [forallb] in Hd, Hb. apply andb_true_iff in Hd as [Hd _], Hb as [Hb _]. unfold day_word in Hd.
    rewrite (bare_word_no_range w) in Hd by done. by apply andb_true_iff in Hd as [_ Hd]. }
  unfold parse_schedule_weekdays. rewrite <- app_assoc.
  change (Ident w :: map Ident ws ++ ?x)%list with (map Ident (w :: ws) ++ x)%list.
  rewrite <- (args_toks_plain (w :: ws)) by done. cbn [app].
  rewrite (p_bind_ok _ _ _ (concat (map word_days (w :: ws))) (Ident "at" :: Ident (tv_raw t) :: Newline :: ts)%list).
  - take_ident. by apply (parse_time_options t [] ts (fun time options => node (KWeekdays (concat (map word_days (w :: ws))) time) options)).
  - unfold p_loop. apply weekday_list_reads; [done..|]. rewrite length_app, args_toks_plain, length_map by done. lia.
Qed.

Definition days_node (ws : list string) (t : TimeValue) : ScheduleNode :=
  MkScheduleNode (KWeekdays (concat (map word_days ws)) t) None [].

Lemma parse_days_job ws t :
  ws <> [] -> forallb day_token ws = true -> time_ok t = true ->
  parse_job (Ident "job" :: Ident "__sched__:__probe__" :: LBrace :: Newline :: days_toks ws t
             ++ [Newline; RBrace; Newline; Eof])
  = Ok (MkJob probe_key (Some (days_node ws t)) [], [Newline; Eof]).
Proof.
  intros Hne Hw Ht. unfold parse_job. take_ident.
  rewrite (p_bind_ok _ _ _ _ _ (job_key_reads probe_key (_ :: _) eq_refl ltac:(done))).
  rewrite (p_bind_ok _ _ _ _ _ (expect_lbrace_cons (_ :: _) ltac:(done))).
  rewrite (p_bind_ok _ _ _ (Some (days_node ws t), []) [RBrace; Newline; Eof]); [done|].
  pose proof (parse_days_schedule ws t [RBrace; Newline; Eof] Hne Hw Ht ltac:(done)) as E.
  unfold p_loop. cbn [length]. remember (S (length _)) as m eqn:Hm. cbn [job_loop]. rewrite skip_newlines_bind.
  cbn [drop_newlines]. unfold days_toks in *. cbn [app drop_newlines] in *. rewrite peek_bind, hd_cons. cbn [at_close].
  change (is_schedule_start (Ident "every")) with true. cbv iota. rewrite (p_bind_ok _ _ _ _ _ E).
  by subst m.
Qed.

(** The line in the probe job of [parse_schedule_expr]. *)
Lemma parse_days_line ws t :
  ws <> [] -> forallb day_token ws = true -> time_ok t = true ->
  parse_schedule_expr (days_line ws t) = Ok (KWeekdays (concat (map word_days ws)) t).
Proof.
  intros Hne Hw Ht. unfold parse_schedule_expr.
  set (tail := [RBrace; Newline; Eof]).
  assert (Lexes ("job __sched__:__probe__ {" +:+ String NL (days_line ws t +:+ String NL ("}" +:+ String NL "")))
            (Ident "job" :: Ident "__sched__:__probe__" :: LBrace :: Newline :: days_toks ws t ++ Newline :: tail))
    as Hl.
  { change ("job __sched__:__probe__ {" +:+ String NL (days_line ws t +:+ String NL ("}" +:+ String NL "")))
      with ("job" +:+ " " +:+ "__sched__:__probe__" +:+ " {" +:+ nl +:+ (days_line ws t +:+ nl +:+ ("}" +:+ nl +:+ ""))).
    apply Lexes_keyword; [done|]. apply Lexes_word; [done|done|]. apply Lexes_open_line.
    apply LexLine_solid; [done|]. apply Lexes_days; [done..|].
    apply Lexes_nl. apply (LexLine_close 0). apply LexLine_eof. }
  destruct (Lexes_tokenize _ _ Hl) as (toks & Et & Hk).
  unfold parse. rewrite Et. cbn [map_err res_bind]. unfold run_parser. rewrite Hk.
  unfold parse_croniqfile, p_loop. cbn [length]. remember (S (length _)) as m eqn:Hm.
  cbn [item_loop]. rewrite skip_terminators_bind. cbn [drop_terminators]. rewrite peek_bind, hd_cons, decide_False by done.
  rewrite (p_bind_ok _ _ _ (IJob (MkJob probe_key (Some (days_node ws t)) [])) [Newline; Eof]).
  - by subst m.
  - eapply item_keyword; [reflexivity|]. by apply parse_days_job.
Qed.

(** ** Elements of a cron field *)

Lemma count_char_nonneg x s : 0 <= count_char x s.
Proof. induction s; cbn; [lia|case_if; lia]. Qed.

Lemma split_once_count x s p : split_once (chr x) s = Some p -> 0 < count_char x s.
Proof.
  revert p. induction s as [|c s IH]; intros p; [done|]. cbn [split_once strip_prefix chr count_char].
  destruct (Ascii.eqb x c) eqn:E.
  - rewrite Ascii.eqb_eq in E. subst c. rewrite Ascii.eqb_refl. intros _.
    pose proof (count_char_nonneg x s). lia.
  - destruct (split_once (chr x) s) as [[a b]|] eqn:Es; [|done]. intros _. specialize (IH _ eq_refl).
    case_if; lia.
Qed.

Lemma split_char_single x s : count_char x s = 0 -> split_char x s = [s].
Proof.
  induction s as [|c s IH]; [done|]. cbn [count_char split_char]. pose proof (count_char_nonneg x s).
  destruct (Ascii.eqb c x); intros E; [lia|]. by rewrite IH by lia.
Qed.

(** An element with neither step nor range is a value. *)
Lemma plain_element value e v :
  count_char "/" e = 0 -> count_char "-" e = 0 -> is_star e = false ->
  cron_element value e v = match value e with Some n => v =? n | None => false end.
Proof.
  intros Hs Hd Hst. unfold cron_element.
  destruct (split_once "/" e) as [p|] eqn:E; [apply (split_once_count "/") in E; lia|].
  change (0 <? 1) with true. rewrite Hst. cbn [andb].
  destruct (split_once "-" e) as [p|] eqn:E'; [apply (split_once_count "-") in E'; lia|done].
Qed.

Lemma digits_count x s : is_digit x = false -> all_chars is_digit s = true -> count_char x s = 0.
Proof.
  intros Hx. induction s as [|c s IH]; [done|]. cbn [all_chars count_char]. intros H. apply andb_true_iff in H as [Hc Hs].
  rewrite IH by done. destruct (Ascii.eqb c x) eqn:E; [|done]. apply Ascii.eqb_eq in E as ->. congruence.
Qed.

(** The text of a number: an optional plus and digits. *)
Lemma number_text s n x : parse_u32 s = Some n -> is_digit x = false -> x <> "+"%char -> count_char x s = 0.
Proof.
  unfold parse_u32, parse_uint. intros Hp Hx Hplus. destruct s as [|c s]; [done|].
  destruct (Ascii.eqb c "+") eqn:E.
  - destruct (str_is_empty s); [done|]. apply parse_digits_all in Hp. cbn [count_char].
    apply Ascii.eqb_eq in E as ->. rewrite digits_count by done.
    destruct (Ascii.eqb "+" x) eqn:E'; [by apply Ascii.eqb_eq in E'; subst|done].
  - apply parse_digits_all in Hp. by apply digits_count.
Qed.

Lemma number_no_star s n : parse_u32 s = Some n -> is_star s = false.
Proof. intros H. unfold is_star. destruct (String.eqb s "*") eqn:E; [|done]. apply String.eqb_eq in E as ->. done. Qed.

Lemma number_element s n v : parse_u32 s = Some n -> cron_element parse_u32 s v = (v =? n).
Proof.
  intros H. rewrite plain_element; [by rewrite H|..]; [by eapply number_text..|by eapply number_no_star].
Qed.

Lemma number_field s n v : parse_u32 s = Some n -> cron_field parse_u32 s v = (v =? n).
Proof.
  intros H. unfold cron_field. rewrite split_char_single by (by eapply number_text).
  cbn [existsb]. by rewrite (number_element s n), orb_false_r.
Qed.

Lemma star_field value v : cron_field value "*" v = true.
Proof. unfold cron_field. cbn [split_char existsb]. unfold cron_element. cbn. by rewrite Z.mod_1_r. Qed.

(** ** Weekdays *)

Lemma lower_count x s : ascii_lower x = x -> count_char x s <= count_char x (to_ascii_lowercase s).
Proof.
  intros Hx. induction s as [|c s IH]; [done|]. cbn [to_ascii_lowercase count_char].
  destruct (Ascii.eqb c x) eqn:E; [apply Ascii.eqb_eq in E as ->; rewrite Hx, Ascii.eqb_refl|case_if]; lia.
Qed.

(** A one-character text that is no letter is its own lower case. *)
Lemma lower_digit s d : is_digit d = true -> to_ascii_lowercase s = chr d -> s = chr d.
Proof.
  intros Hd. destruct s as [|c [|c' s]]; cbn [to_ascii_lowercase]; [done| |done]. intros [= E]. unfold chr. f_equal.
  destruct c as [[] [] [] [] [] [] [] []]; cbn in E; try done; subst d; done.
Qed.

Lemma lower_value item lit :
  to_ascii_lowercase item = lit -> to_ascii_lowercase lit = lit -> is_Some (AstWeekday.parse lit) \/ item = lit ->
  cron_weekday_value item = cron_weekday_value lit.
Proof.
  intros Hi Hl [[d Hd]| ->]; [|done]. unfold cron_weekday_value.
  replace (AstWeekday.parse item) with (AstWeekday.parse lit); [by rewrite Hd|].
  unfold AstWeekday.parse. by rewrite Hi, Hl.
Qed.

(** What an item of a list of weekdays means, to the converter and to cron. *)
Record names_day (item name : string) (d : AstWeekday.t) (n : Z) : Prop := {
  nd_name : name = AstWeekday.as_str d;
  nd_value : cron_weekday_value item = Some n;
  nd_day : n = weekday_number (ast_weekday_to_chrono d) \/ n = 7 /\ d = AstWeekday.Sunday;
  nd_slash : count_char "/" item = 0;
  nd_dash : count_char "-" item = 0;
  nd_star : is_star item = false
}.

Lemma lower_names_day item lit name d n :
  to_ascii_lowercase item = lit -> names_day lit name d n -> to_ascii_lowercase lit = lit ->
  is_Some (AstWeekday.parse lit) \/ item = lit -> names_day item name d n.
Proof.
  intros Hi [Hn Hv Hd Hs Hm _] Hl Hc. pose proof (count_char_nonneg "/" item). pose proof (count_char_nonneg "-" item).
  pose proof (lower_count "/" item eq_refl) as H1. pose proof (lower_count "-" item eq_refl) as H2. rewrite Hi in H1, H2.
  split; [done| |done|lia|lia|].
  - by rewrite (lower_value item lit).
  - unfold is_star. destruct (String.eqb item "*") eqn:E; [|done]. apply String.eqb_eq in E. subst item lit.
    destruct Hc as [[? Hc]|_]; [done|]. done.
Qed.

(** The arms of the match of [dow_to_name]. *)
Definition dow_table : list (string * AstWeekday.t * Z) :=
  [("0", AstWeekday.Sunday, 0); ("7", AstWeekday.Sunday, 7); ("sun", AstWeekday.Sunday, 0); ("sunday", AstWeekday.Sunday, 0);
   ("1", AstWeekday.Monday, 1); ("mon", AstWeekday.Monday, 1); ("monday", AstWeekday.Monday, 1);
   ("2", AstWeekday.Tuesday, 2); ("tue", AstWeekday.Tuesday, 2); ("tuesday", AstWeekday.Tuesday, 2);
   ("3", AstWeekday.Wednesday, 3); ("wed", AstWeekday.Wednesday, 3); ("wednesday", AstWeekday.Wednesday, 3);
   ("4", AstWeekday.Thursday, 4); ("thu", AstWeekday.Thursday, 4); ("thursday", AstWeekday.Thursday, 4);
   ("5", AstWeekday.Friday, 5); ("fri", AstWeekday.Friday, 5); ("friday", AstWeekday.Friday, 5);
   ("6", AstWeekday.Saturday, 6); ("sat", AstWeekday.Saturday, 6); ("saturday", AstWeekday.Saturday, 6)].

Lemma dow_table_names :
  Forall (fun '(lit, d, n) => names_day lit (AstWeekday.as_str d) d n /\ to_ascii_lowercase lit = lit
    /\ (is_Some (AstWeekday.parse lit) \/ exists c, is_digit c = true /\ lit = chr c)) dow_table.
Proof.
  unfold dow_table. repeat (apply Forall_cons; split); [..|by apply Forall_nil];
    (split_and!; [split; (reflexivity || (by left) || (by right))|reflexivity|]);
    first [left; by eexists|right; eexists; apply and_comm; split; reflexivity].
Qed.

Lemma dow_to_name_table item :
  dow_to_name item
  = match find (fun row => String.eqb (to_ascii_lowercase item) row.1.1) dow_table with
    | Some row => Ok (AstWeekday.as_str row.1.2)
    | None => Err ("unknown day-of-week value '" +:+ to_ascii_lowercase item +:+ "'")
    end.
Proof.
  unfold dow_to_name, dow_table. cbn [find fst snd]. cbv zeta.
  repeat (match goal with |- context [String.eqb (to_ascii_lowercase item) ?x] =>
    destruct (String.eqb (to_ascii_lowercase item) x); cbn [orb]; [reflexivity|] end).
  reflexivity.
Qed.

Lemma dow_to_name_day item name : dow_to_name item = Ok name -> exists d n, names_day item name d n.
Proof.
  rewrite dow_to_name_table. destruct (find _ dow_table) as [[[lit d] n]|] eqn:E; [|done]. intros [= <-].
  apply find_some in E as [Hin Hi]. apply String.eqb_eq in Hi. cbn [fst snd] in *.
  apply list_elem_of_In in Hin. pose proof dow_table_names as Ht. rewrite Forall_forall in Ht.
  destruct (Ht _ Hin) as (Hn & Hl & Hc). exists d, n.
  apply (lower_names_day item lit _ d n Hi Hn Hl). destruct Hc as [Hc|(c & Hc & E)]; [by left|right].
  subst lit. rewrite E. by apply lower_digit.
Qed.

Lemma day_name_token d : day_token (AstWeekday.as_str d) = true /\ word_days (AstWeekday.as_str d) = [d].
Proof. by destruct d. Qed.

Lemma names_day_element item name d n w :
  names_day item name d n ->
  cron_element cron_weekday_value item (weekday_number w)
  || bool_decide (w = Sun) && cron_element cron_weekday_value item 7 = true <-> w = ast_weekday_to_chrono d.
Proof.
  intros [_ Hv Hd Hs Hm Hst]. rewrite !plain_element, Hv by done.
  destruct Hd as [->|[-> ->]]; [destruct d|]; destruct w; done.
Qed.

Lemma existsb_or {A} (f g : A -> bool) l : existsb (fun x => f x || g x) l = existsb f l || existsb g l.
Proof. induction l as [|x l IH]; [done|]. cbn [existsb]. rewrite IH. by destruct (f x), (g x), (existsb f l). Qed.

Lemma existsb_and {A} b (f : A -> bool) l : existsb (fun x => b && f x) l = b && existsb f l.
Proof. destruct b; [done|]. by induction l. Qed.

(** A list of weekdays names the same days to the converter and to cron. *)
Lemma weekday_items items names :
  res_collect dow_to_name items = Ok names ->
  exists ds, names = map AstWeekday.as_str ds /\ length ds = length items /\
    forall w, existsb (fun e => cron_element cron_weekday_value e (weekday_number w)
                         || bool_decide (w = Sun) && cron_element cron_weekday_value e 7) items = true
              <-> w ∈ map ast_weekday_to_chrono ds.
Proof.
  revert names. induction items as [|item items IH]; intros names; cbn [res_collect].
  { intros [= <-]. exists []. split_and!; [done..|]. intros w. cbn. by rewrite elem_of_nil. }
  destruct (dow_to_name item) as [name|] eqn:E; [|done]. cbn [res_bind].
  destruct (res_collect dow_to_name items) as [rest|]; [|done]. cbn [res_bind]. intros [= <-].
  destruct (IH rest eq_refl) as (ds & -> & Hlen & Hds). destruct (dow_to_name_day _ _ E) as (d & n & Hd).
  exists (d :: ds). cbn [map length existsb]. rewrite (nd_name _ _ _ _ Hd), Hlen. split_and!; [done..|].
  intros w. rewrite orb_true_iff, Hds, (names_day_element _ _ _ _ w Hd). by rewrite elem_of_cons.
Qed.

Lemma cron_weekday_items field w :
  cron_weekday field w
  = existsb (fun e => cron_element cron_weekday_value e (weekday_number w)
               || bool_decide (w = Sun) && cron_element cron_weekday_value e 7) (split_char "," field).
Proof. unfold cron_weekday, cron_field. by rewrite existsb_or, existsb_and. Qed.

(** The weekday fields the converter carries over: not [6-0] and [0,7], and a list
    of seven entries only when it names the whole week. *)
Definition dow_exact (dow : string) : bool :=
  negb (String.eqb dow "6-0") && negb (String.eqb dow "0,7")
  && (negb (Nat.eqb (length (split_char "," dow)) 7)
      || forallb (cron_weekday dow) [Mon; Tue; Wed; Thu; Fri; Sat; Sun]).

(** What the schedule of a converted line fires on. *)
Definition fires_on (k : ScheduleKind) (t : TimeValue) (days : Weekday -> bool) : Prop :=
  k = KDaily t /\ (forall w, days w = true) \/
  exists ds, k = KWeekdays ds t /\ ds <> [] /\ forall w, days w = true <-> w ∈ map ast_weekday_to_chrono ds.

Lemma parse_daily_line t : time_ok t = true -> parse_schedule_expr ("every day at " +:+ tv_raw t) = Ok (KDaily t).
Proof. intros Ht. by apply (parse_schedule_line (KDaily t)). Qed.

Lemma days_line_fires ws t days :
  ws <> [] -> forallb day_token ws = true -> time_ok t = true -> concat (map word_days ws) <> [] ->
  (forall w, days w = true <-> w ∈ map ast_weekday_to_chrono (concat (map word_days ws))) ->
  exists k, parse_schedule_expr (days_line ws t) = Ok k /\ fires_on k t days.
Proof. intros Hne Hw Ht Hc Hd. eexists. split; [by apply parse_days_line|]. right. by eexists. Qed.

Lemma names_tokens ds :
  forallb day_token (map AstWeekday.as_str ds) = true /\ concat (map word_days (map AstWeekday.as_str ds)) = ds.
Proof.
  induction ds as [|d ds [IH1 IH2]]; [done|]. cbn [map forallb concat].
  destruct (day_name_token d) as [-> ->]. by rewrite IH1, IH2.
Qed.

Lemma split_char_nonempty x s : split_char x s <> [].
Proof. destruct s as [|c s]; [done|]. cbn. case_if; [done|]. by destruct (split_char x s). Qed.

(** The groups and ranges with an arm of their own in [parse_dow]. *)
Lemma week_literals t days w :
  time_ok t = true -> w = "weekday" \/ w = "weekend" ->
  (forall d, days d = true <-> d ∈ map ast_weekday_to_chrono (word_days w)) ->
  exists k, parse_schedule_expr (format_weekday_schedule [w] (tv_raw t)) = Ok k /\ fires_on k t days.
Proof.
  intros Ht Hw Hd. destruct (days_line_fires [w] t days) as (k & Hk & Hf); [done|by destruct Hw as [->| ->]|done|..].
  - by destruct Hw as [->| ->].
  - intros d. rewrite Hd. cbn [map concat]. by rewrite app_nil_r.
  - exists k. split; [|done]. rewrite <- Hk. by destruct Hw as [->| ->].
Qed.

Lemma weekday_in_list (l : list Weekday) (days : Weekday -> bool) :
  forallb (fun w => Bool.eqb (days w) (bool_decide (w ∈ l))) [Mon; Tue; Wed; Thu; Fri; Sat; Sun] = true ->
  forall w, days w = true <-> w ∈ l.
Proof.
  intros H w. rewrite forallb_forall in H. specialize (H w ltac:(destruct w; cbn; tauto)).
  apply eqb_prop in H. rewrite H. apply bool_decide_eq_true.
Qed.

Lemma weekday_line dow days t :
  parse_dow dow = Ok days -> dow_exact dow = true -> time_ok t = true ->
  exists k, parse_schedule_expr (format_weekday_schedule days (tv_raw t)) = Ok k /\ fires_on k t (cron_weekday dow).
Proof.
  unfold parse_dow. intros Hp He Ht.
  destruct (String.eqb dow "1-5") eqn:E1.
  { apply String.eqb_eq in E1 as ->. injection Hp as <-. apply week_literals; [done|by left|].
    by apply weekday_in_list. }
  destruct (String.eqb dow "0-6" || String.eqb dow "6-0") eqn:E2.
  { injection Hp as <-. unfold dow_exact in He. apply orb_true_iff in E2 as [E2|E2];
      apply String.eqb_eq in E2 as ->; [|done].
    exists (KDaily t). split; [by apply parse_daily_line|]. left. split; [done|]. by intros []. }
  destruct (String.eqb dow "6,0" || String.eqb dow "0,6") eqn:E3.
  { injection Hp as <-. apply week_literals; [done|by right|].
    apply orb_true_iff in E3 as [E3|E3]; apply String.eqb_eq in E3 as ->; by apply weekday_in_list. }
  destruct (String.eqb dow "6-7" || String.eqb dow "0,7") eqn:E4.
  { injection Hp as <-. apply week_literals; [done|by right|].
    apply orb_true_iff in E4 as [E4|E4]; apply String.eqb_eq in E4 as ->; [by apply weekday_in_list|done]. }
  apply weekday_items in Hp as (ds & -> & Hlen & Hds). pose proof (split_char_nonempty "," dow) as Hne.
  destruct (names_tokens ds) as [Hw Hc]. unfold format_weekday_schedule. rewrite length_map.
  destruct ds as [|d ds]; [by destruct (split_char "," dow)|].
  rewrite !decide_False by (by destruct d, ds). case_decide as H7.
  - exists (KDaily t). split; [by apply parse_daily_line|]. left. split; [done|]. intros w.
    unfold dow_exact in He. rewrite !andb_true_iff, <- Hlen in He. destruct He as [_ He].
    rewrite H7 in He. cbn [Nat.eqb negb orb] in He. rewrite forallb_forall in He. apply He. destruct w; cbn; tauto.
  - destruct (days_line_fires (map AstWeekday.as_str (d :: ds)) t (cron_weekday dow)) as (k & Hk & Hf); [done..| | |].
    + by rewrite Hc.
    + intros w. rewrite cron_weekday_items, Hds. by rewrite Hc.
    + exists k. split; [|done]. rewrite <- Hk. by destruct ds.
Qed.

(** ** Days of the month *)

Lemma ordinal_text n : 1 <= n <= 31 -> show_uint n +:+ ordinal_suffix n = format_ordinal n.
Proof.
  intros Hn.
  assert (forallb (fun n => String.eqb (show_uint (Z.of_nat n) +:+ ordinal_suffix (Z.of_nat n))
            (format_ordinal (Z.of_nat n))) (seq 1 31) = true) as H by (vm_compute; reflexivity).
  rewrite forallb_forall in H. specialize (H (Z.to_nat n) ltac:(apply in_seq; lia)).
  rewrite Z2Nat.id in H by lia. by apply String.eqb_eq.
Qed.

Definition month_days (ords : list MonthOrdinal) : list MonthDay :=
  map (fun o => match o with OrdDay d => MDay d | OrdLast => MLast end) ords.

Section Months.
  Context `{CL : ChronoLaws}.

Lemma month_items items ordinals :
  res_collect dom_ordinal items = Ok ordinals ->
  exists ords, ordinals = map format_month_ordinal ords /\ forallb ItemTokens.ordinal_ok ords = true
    /\ length ords = length items /\
    forall date, existsb (fun e => cron_element parse_u32 e (day date)) items = true
                 <-> Exists (fun o => month_day_matches o date) (month_days ords).
Proof.
  revert ordinals. induction items as [|item items IH]; intros ordinals; cbn [res_collect].
  { intros [= <-]. exists []. split_and!; [done..|]. intros date. cbn. by rewrite Exists_nil. }
  unfold dom_ordinal at 1. destruct (parse_u32 item) as [n|] eqn:En; [|done]. cbn [ok_or res_bind].
  pose proof (parse_uint_range U32_MAX item n ltac:(done) En) as Hr. destruct (_ || _) eqn:Ez; [done|]. cbn [res_bind]. b2p.
  destruct (res_collect dom_ordinal items) as [rest|]; [|done]. cbn [res_bind]. intros [= <-].
  destruct (IH rest eq_refl) as (ords & -> & Hok & Hlen & Hm).
  exists (OrdDay n :: ords). cbn [map format_month_ordinal forallb ItemTokens.ordinal_ok length].
  rewrite Hok, Hlen, ordinal_text by lia. split_and!; [done| |done|].
  - rewrite !andb_true_iff, !Z.leb_le. lia.
  - intros date. cbn [existsb month_days map]. rewrite orb_true_iff, Exists_cons, <- Hm, (number_element item n) by done.
    cbn [month_day_matches]. by rewrite Z.eqb_eq.
Qed.

Lemma month_field dom ordinals :
  parse_dom dom = Ok ordinals ->
  exists ords, ordinals = map format_month_ordinal ords /\ forallb ItemTokens.ordinal_ok ords = true /\ ords <> [] /\
    forall date, cron_month_day dom date = true <-> Exists (fun o => month_day_matches o date) (month_days ords).
Proof.
  unfold parse_dom, cron_month_day. destruct (String.eqb (to_ascii_lowercase dom) "l").
  - intros [= <-]. exists [OrdLast]. split_and!; [done..|]. intros date. cbn [month_days map]. rewrite Z.eqb_eq, Exists_cons, Exists_nil.
    cbn. tauto.
  - intros H. apply month_items in H as (ords & -> & Hok & Hlen & Hm). exists ords. split_and!; [done..| |done].
    intros ->. pose proof (split_char_nonempty "," dom). by destruct (split_char "," dom).
Qed.
End Months.

(** ** The theorem *)

Section AsCron.
  Context `{CL : ChronoLaws}.

Lemma clock_reading h m t n :
  0 <= h < 24 -> 0 <= m < 60 -> from_hm_opt h m = Some t ->
  time_of n = t <->
  (time_of n mod (60 * NS_SEC) =? 0) && (time_of n / (60 * NS_SEC) mod 60 =? m) && (time_of n / (3600 * NS_SEC) =? h) = true.
Proof.
  intros Hh Hm. unfold from_hm_opt. case_if; [|done]. intros [= <-]. pose proof (time_of_range n) as Hr.
  rewrite !andb_true_iff, !Z.eqb_eq. generalize (time_of n) Hr. clear Hr. intros x Hr. unfold NS_SEC, NS_DAY in *.
  split; [intros ->|intros [[? ?] ?]]; [split_and!|]; Z.to_euclidean_division_equations; lia.
Qed.

(** What the schedule of a converted expression must tick on. *)
Definition ticks_as (s : Schedule) (matches : NaiveDateTime -> bool) : Prop :=
  sched_ok s /\ recurring s /\ (forall off u, wall_tick s off u <-> matches (u + off) = true)
  /\ match s with Interval _ => False | _ => True end.

Lemma time_kind h m : 0 <= h < 24 -> 0 <= m < 60 ->
  exists t, from_hm_opt h m = Some t /\ time_from_ast (clock_text h m) = Ok t /\ CalendarArgs.hm_time t.
Proof.
  intros Hh Hm. destruct (from_hm_opt h m) as [t|] eqn:E.
  - exists t. unfold time_from_ast. cbn [clock_text tv_hour tv_minute]. rewrite E. split_and!; [done..|].
    apply (from_hm_opt_range h m); (lia || done).
  - unfold from_hm_opt in E. destruct (Z.ltb_spec h 24), (Z.ltb_spec m 60); (lia || done).
Qed.

(** A schedule on weekdays, in terms of the fields. *)
Lemma fires_on_ticks k h m days matches :
  0 <= h < 24 -> 0 <= m < 60 -> fires_on k (clock_text h m) days ->
  (forall t n, from_hm_opt h m = Some t -> matches n = true <-> time_of n = t /\ days (weekday (date_of n)) = true) ->
  exists s, from_ast k = Ok s /\ ticks_as s matches.
Proof.
  intros Hh Hm Hf Hmt. destruct (time_kind h m Hh Hm) as (t & Et & Ek & Ht).
  destruct Hf as [[-> Hd]|(ds & -> & Hne & Hd)]; cbn [from_ast]; rewrite Ek; cbn [res_bind].
  - exists (Daily t). split; [done|]. split_and!; [done..| |done]. intros off u. cbn. rewrite (Hmt t) by done. naive_solver.
  - exists (Weekdays (map ast_weekday_to_chrono ds) t). split; [done|]. split_and!; [done|by destruct ds| |done].
    intros off u. cbn. by rewrite (Hmt t), Hd.
Qed.

Lemma fixed_fields minute hour month n m h t :
  parse_u32 minute = Some m -> parse_u32 hour = Some h -> 0 <= h < 24 -> 0 <= m < 60 -> from_hm_opt h m = Some t ->
  is_star month = true -> forall dom dow,
  cron_matches minute hour dom month dow n = true <-> time_of n = t /\ cron_day dom dow (date_of n) = true.
Proof.
  intros Hmi Hho Hh Hm Ht Hmo dom dow. apply String.eqb_eq in Hmo as ->. unfold cron_matches.
  rewrite (number_field minute m), (number_field hour h), star_field, andb_true_r by done.
  by rewrite andb_true_iff, <- clock_reading.
Qed.

Lemma cron_month_day_star date : cron_month_day "*" date = true.
Proof. unfold cron_month_day. cbn [String.eqb to_ascii_lowercase]. apply star_field. Qed.
Lemma cron_weekday_star w : cron_weekday "*" w = true.
Proof. unfold cron_weekday. by rewrite star_field. Qed.

(** A line that reads as a kind whose schedule ticks right. *)
Lemma line_schedule k line matches :
  parse_schedule_expr line = Ok k -> starts_with "every " line = true ->
  (exists s, from_ast k = Ok s /\ ticks_as s matches) ->
  exists s, schedule_from_expr line = Some s /\ ticks_as s matches.
Proof.
  intros Hk He (s & Hs & Hts). exists s. split; [|done]. unfold schedule_from_expr.
  destruct line as [|c line]; [done|]. unfold starts_with in He. cbn [strip_prefix] in He.
  destruct (Ascii.eqb "e" c) eqn:E; [|done]. apply Ascii.eqb_eq in E as <-.
  rewrite word_is_no_interval, Hk by done. cbn [res_ok mbind option_bind]. by rewrite Hs.
Qed.

Lemma starts_every line : starts_with "every " ("every " +:+ line) = true.
Proof. reflexivity. Qed.

Lemma format_weekday_every days time : starts_with "every " (format_weekday_schedule days time) = true.
Proof. unfold format_weekday_schedule. repeat case_decide; try done. by destruct days as [|? []]. Qed.

(** A monthly line. *)
Lemma monthly_ticks ords h m matches :
  0 <= h < 24 -> 0 <= m < 60 -> forallb ItemTokens.ordinal_ok ords = true -> ords <> [] ->
  (forall t n, from_hm_opt h m = Some t -> matches n = true <->
     time_of n = t /\ Exists (fun o => month_day_matches o (date_of n)) (month_days ords)) ->
  exists s, schedule_from_expr (format_monthly_schedule (map format_month_ordinal ords) (tv_raw (clock_text h m))) = Some s
            /\ ticks_as s matches.
Proof.
  intros Hh Hm Ho Hne Hmt. destruct (time_kind h m Hh Hm) as (t & Et & Ek & Ht).
  apply (line_schedule (KMonthly ords (clock_text h m))); [|apply starts_every|].
  - apply (parse_schedule_line (KMonthly ords (clock_text h m))). cbn [kind_prints].
    rewrite Ho, clock_text_ok by lia. by rewrite bool_decide_eq_false_2.
  - cbn [from_ast]. rewrite Ek. exists (Monthly (month_days ords) t). split; [done|]. split_and!; [done| | |done].
    + destruct ords as [|o ords]; [done|]. cbn [forallb] in Ho. apply andb_true_iff in Ho as [Ho _].
      apply Exists_cons. left. destruct o; [|done]. cbn in *. b2p. lia.
    + intros off u. cbn [wall_tick]. by rewrite (Hmt t).
Qed.

Lemma convert_fixed_ticks minute hour dom month dow m h r :
  parse_u32 minute = Some m -> parse_u32 hour = Some h -> 0 <= h < 24 -> 0 <= m < 60 -> is_star month = true ->
  dow_exact dow = true -> convert_fixed m h dom dow [] = Ok r -> cr_warnings r = [] ->
  exists s, schedule_from_expr (cr_schedule r) = Some s /\ ticks_as s (cron_matches minute hour dom month dow).
Proof.
  intros Hmi Hho Hh Hm Hmo He Hc Hw.
  assert (time_ok (clock_text h m) = true) as Ht by (apply clock_text_ok; lia).
  pose proof (fun x n Hx => fixed_fields minute hour month n m h x Hmi Hho Hh Hm Hx Hmo dom dow) as Hmt.
  unfold cron_day in Hmt. unfold convert_fixed in Hc. change (pad2 h +:+ ":" +:+ pad2 m) with (tv_raw (clock_text h m)) in Hc.
  remember (clock_text h m) as t eqn:Et.
  destruct (is_star dom) eqn:Edom, (is_star dow) eqn:Edow; cbn [andb negb] in Hc, Hmt.
  - injection Hc as <-. apply String.eqb_eq in Edom as ->, Edow as ->. cbn [cr_schedule].
    apply (line_schedule (KDaily t)); [by apply parse_daily_line|apply (starts_every ("day at " +:+ tv_raw t))|].
    subst t. apply (fires_on_ticks _ h m (cron_weekday "*")); [done..| |].
    + left. split; [done|]. intros w. apply cron_weekday_star.
    + intros x n Hx. rewrite (Hmt x n Hx), cron_month_day_star. done.
  - destruct (parse_dow dow) as [days|] eqn:Ed; [|done]. injection Hc as <-. apply String.eqb_eq in Edom as ->.
    destruct (weekday_line dow days t Ed He Ht) as (k & Hk & Hf). cbn [cr_schedule].
    apply (line_schedule k); [done|apply format_weekday_every|]. subst t. apply (fires_on_ticks _ h m (cron_weekday dow)); [done..|].
    intros x n Hx. rewrite (Hmt x n Hx), cron_month_day_star. done.
  - destruct (parse_dom dom) as [ordinals|] eqn:Ed; [|done]. injection Hc as <-. apply String.eqb_eq in Edow as ->.
    apply month_field in Ed as (ords & -> & Ho & Hne & Hd). cbn [cr_schedule].
    subst t. apply monthly_ticks; [done..|]. intros x n Hx. rewrite (Hmt x n Hx), cron_weekday_star, andb_true_r, Hd. done.
  - destruct (parse_dow dow) as [days|]; [|done]. cbn [res_bind] in Hc. injection Hc as <-. done.
Qed.

Lemma fixed_is_no_step s n : parse_u32 s = Some n -> is_step s = false.
Proof.
  intros H. pose proof (number_text s n "*" H eq_refl ltac:(done)) as Hc. unfold is_step, starts_with.
  destruct s as [|c s]; [done|]. cbn [strip_prefix]. cbn [count_char] in Hc. pose proof (count_char_nonneg "*" s).
  destruct (Ascii.eqb "*" c) eqn:E; [|done]. apply Ascii.eqb_eq in E as <-. cbn in Hc. lia.
Qed.

Lemma macro_one_word e r : convert_macro e = Some r -> length (split_whitespace e) = 1%nat.
Proof.
  unfold convert_macro. intros H.
  repeat match type of H with (if ?b then _ else _) = _ =>
    let E := fresh "E" in destruct b eqn:E;
    [rewrite ?orb_true_iff, !String.eqb_eq in E; (destruct E as [->| ->] || subst e); reflexivity|clear E]
  end. done.
Qed.

Lemma convert_fixed_warnings m h dom dow ws r :
  convert_fixed m h dom dow ws = Ok r -> exists more, cr_warnings r = (ws ++ more)%list.
Proof.
  unfold convert_fixed. destruct (is_star dom), (is_star dow); cbn [andb negb].
  - intros [= <-]. exists []. by rewrite app_nil_r.
  - destruct (parse_dow dow); [|done]. intros [= <-]. exists []. by rewrite app_nil_r.
  - destruct (parse_dom dom); [|done]. intros [= <-]. exists []. by rewrite app_nil_r.
  - destruct (parse_dow dow); [|done]. intros [= <-]. by eexists.
Qed.

(** C16. A converted crontab line fires when cron would. Take an expression with
    a fixed minute and hour in range that [convert] accepts without a warning, and
    whose weekday field is not one of those listed in [dow_exact]. The text it
    answers is one the server accepts as a schedule, and in a zone with a fixed
    offset the next fire of that schedule after an instant exists and is the
    earliest later instant whose local reading the cron expression matches. *)
Theorem converted_line_fires_as_cron expr r minute hour dom month dow m h tz off after :
  convert expr = Ok r -> cr_warnings r = [] -> split_whitespace (trim expr) = [minute; hour; dom; month; dow] ->
  parse_u32 minute = Some m -> parse_u32 hour = Some h -> m < 60 -> h < 24 -> dow_exact dow = true ->
  fixed_offset tz off -> -261998 <= year (date_of (after + off)) <= 261998 ->
  exists s u, schedule_from_expr (cr_schedule r) = Some s /\ next_fire_after s after tz = Some u /\ after < u /\
    cron_matches minute hour dom month dow (u + off) = true /\
    forall v, after < v -> cron_matches minute hour dom month dow (v + off) = true -> u <= v.
Proof.
  intros Hc Hw Hsp Hmi Hho Hm Hh He Hfix Hy.
  pose proof (parse_uint_range U32_MAX _ _ ltac:(done) Hmi). pose proof (parse_uint_range U32_MAX _ _ ltac:(done) Hho).
  assert (exists s, schedule_from_expr (cr_schedule r) = Some s /\ ticks_as s (cron_matches minute hour dom month dow))
    as (s & Hs & Hok & Hrec & Htick & Hint).
  { unfold convert in Hc. destruct (convert_macro (trim expr)) as [r'|] eqn:Em.
    { apply macro_one_word in Em. by rewrite Hsp in Em. }
    rewrite Hsp in Hc. unfold convert_fields in Hc.
    rewrite (fixed_is_no_step minute m), (fixed_is_no_step hour h), (number_no_star minute m), (number_no_star hour h) in Hc by done.
    rewrite !andb_false_r in Hc. cbn [andb] in Hc. unfold parse_fixed in Hc. rewrite Hmi, Hho in Hc.
    destruct (is_star month) eqn:Emo.
    - apply (convert_fixed_ticks minute hour dom month dow m h r); (done || lia).
    - apply convert_fixed_warnings in Hc as [more E]. by rewrite Hw in E. }
  destruct (recurring_has_next_fire s tz off after) as [u Hu]; [done..|].
  exists s, u. split_and!; [done..| | |].
  - eapply next_fire_after_later; [done| |done]. by eapply fixed_offset_date_monotone.
  - pose proof (schedule_earliest s tz off after u Hok Hfix Hu) as Hearly. apply Htick. destruct s; try done; by destruct Hearly.
  - pose proof (schedule_earliest s tz off after u Hok Hfix Hu) as Hearly. intros v Hv Hmv. apply Htick in Hmv.
    destruct s; try done; destruct Hearly as [_ Hearly]; by apply Hearly.
Qed.
End AsCron.

Import Demo.

Lemma converted_line_fires_as_cron_witness :
  exists s u, schedule_from_expr (C := demo_chrono) "every monday wednesday friday at 09:05" = Some s /\
    next_fire_after (C := demo_chrono) s 0 (fixed 7200) = Some u /\ 0 < u /\
    cron_matches (C := demo_chrono) "5" "9" "*" "*" "1,3,FRI" (u + seconds 7200) = true /\
    forall v, 0 < v -> cron_matches (C := demo_chrono) "5" "9" "*" "*" "1,3,FRI" (v + seconds 7200) = true -> u <= v.
Proof.
  apply (converted_line_fires_as_cron (CL := demo_laws) "5 9 * * 1,3,FRI"
           {| cr_schedule := "every monday wednesday friday at 09:05"; cr_warnings := [] |}
           "5" "9" "*" "*" "1,3,FRI" 5 9 (fixed 7200) (seconds 7200) 0);
    [vm_compute; reflexivity|reflexivity|vm_compute; reflexivity|reflexivity|reflexivity|lia|lia|vm_compute; reflexivity
    |exact (fixed_fixed_offset 7200)|vm_compute; intuition congruence].
Defined.

(** ** Where the line and the expression part

    The fields [dow_exact] leaves out, times out of range, and the weekly macro. *)
Example weekday_fields_that_part :
  schedule_of "0 9 * * 0,7" = Ok "every weekend at 09:00" /\ cron_weekday "0,7" Sat = false /\
  schedule_of "0 9 * * 1,1,1,1,1,1,1" = Ok "every day at 09:00" /\ cron_weekday "1,1,1,1,1,1,1" Tue = false /\
  schedule_of "@weekly" = Ok "every monday at 00:00" /\ cron_weekday "0" Mon = false.
Proof. vm_compute. repeat split. Qed.

Example time_out_of_range :
  schedule_of "75 30 * * *" = Ok "every day at 30:75" /\
  schedule_from_expr (C := demo_chrono) "every day at 30:75" = None /\
  schedule_of "*/0 * * * *" = Ok "every 0 minutes" /\
  schedule_from_expr (C := demo_chrono) "every 0 minutes" = None.
Proof. vm_compute. repeat split. Qed.

(** An interval is counted from the last fire, not from the hour: after 00:50 the
    expression [*/50] matches at 01:00, the converted schedule fires at 01:40. *)
Example steps_are_intervals :
  schedule_of "*/50 * * * *" = Ok "every 50 minutes" /\
  cron_matches (C := demo_chrono) "*/50" "*" "*" "*" "*" (minutes 60) = true /\
  (s ← schedule_from_expr (C := demo_chrono) "every 50 minutes"; next_fire_after (C := demo_chrono) s (minutes 50) (fixed 0))
  = Some (minutes 100).
Proof. vm_compute. repeat split. Qed.
