(* ===== verification/Forecast.v ===== *)
(** * The forecast

    Models [croniq-scheduler/src/forecast.rs] and the handler of
    [croniq-server/src/api/dashboard.rs]: the fire times of the triggers ahead,
    sorted into buckets on a fixed grid. A map of triggers is the list of its
    entries in the order it is visited. *)

From S2P Require Import Prelude RustStr Chrono Schedule Calendar Trigger Caller Dispatch.

Local Open Scope Z_scope.

Record ForecastBucket := MkBucket {
  fb_start : instant;
  fb_end : instant;
  fb_count : Z;
  fb_jobs : list string
}.

Record ForecastResponse := MkForecast {
  fr_window_minutes : Z;
  fr_bucket_minutes : Z;
  fr_bucket_seconds : Z;
  fr_buckets : list ForecastBucket
}.

Definition MIN_BUCKET_SECONDS : Z := 5.
Definition MAX_BUCKETS : Z := 720.

Definition NS_MILLI : Z := 1000000.
(** [DateTime::timestamp_millis], [DateTime::from_timestamp_millis] *)
Definition timestamp_millis (u : instant) : Z := u / NS_MILLI.
Definition of_timestamp_millis (ms : Z) : instant := ms * NS_MILLI.
(** [chrono::Duration::num_milliseconds]: towards zero *)
Definition num_milliseconds (d : Z) : Z := Z.quot d NS_MILLI.
(** [u32::div_ceil], [i64::div_euclid] with a positive divisor *)
Definition div_ceil (a b : Z) : Z := (a + b - 1) / b.

(** ** The grid *)

Record Grid := MkGrid {
  grid_window_minutes : Z;
  grid_bucket_secs : Z;
  grid_num_buckets : nat;
  grid_start : instant;
  grid_end : instant
}.

Definition grid_of (now : instant) (window_minutes bucket_seconds : Z) : Grid :=
  let window_minutes := Z.min window_minutes 240 in
  let window_secs := window_minutes * 60 in
  let bucket_secs :=
    Z.max (Z.max bucket_seconds MIN_BUCKET_SECONDS) (div_ceil (window_minutes * 60) MAX_BUCKETS) in
  let num_buckets := Z.to_nat (Z.quot window_secs bucket_secs + 1) in
  let bucket_size_ms := bucket_secs * 1000 in
  let start := of_timestamp_millis (timestamp_millis now / bucket_size_ms * bucket_size_ms) in
  MkGrid window_minutes bucket_secs num_buckets start (start + seconds (Z.of_nat num_buckets * bucket_secs)).

Definition empty_bucket (g : Grid) (i : nat) : ForecastBucket :=
  let start := grid_start g + seconds (Z.of_nat i * grid_bucket_secs g) in
  MkBucket start (start + seconds (grid_bucket_secs g)) 0 [].

(** ** The projection *)

(** One more fire of [job_key]. *)
Definition count_fire (job_key : string) (b : ForecastBucket) : ForecastBucket :=
  MkBucket (fb_start b) (fb_end b) (wrap_u32 (fb_count b + 1))
    (if bool_decide (job_key ∈ fb_jobs b) then fb_jobs b else fb_jobs b ++ [job_key]).

(** [buckets[bucket_idx]], for an index in range. *)
Definition bucket_index (g : Grid) (fire_at : instant) : nat :=
  Z.to_nat (Z.quot (num_milliseconds (fire_at - grid_start g)) (grid_bucket_secs g * 1000)).
Definition record_fire (g : Grid) (now : instant) (job_key : string) (fire_at : instant)
    (buckets : list ForecastBucket) : list ForecastBucket :=
  if now <=? fire_at then alter (count_fire job_key) (bucket_index g fire_at) buckets else buckets.

Section Project.
  Context `{C : Chrono}.

(** The [while] loop of one trigger, from [candidate]. [iterations > 500] ends it
    after 501 rounds. *)
Fixpoint project (g : Grid) (now : instant) (job_key : string) (trigger : Trigger)
    (rounds : nat) (candidate : option instant) (buckets : list ForecastBucket) : list ForecastBucket :=
  match rounds, candidate with
  | S rounds, Some fire_at =>
      if grid_end g <=? fire_at then buckets
      else project g now job_key trigger rounds
             (next_fire_after (schedule trigger) fire_at (timezone trigger))
             (record_fire g now job_key fire_at buckets)
  | _, _ => buckets
  end.

Definition MAX_FIRES : nat := 501.

Definition project_trigger (g : Grid) (now : instant) (buckets : list ForecastBucket) (entry : string * Trigger)
  : list ForecastBucket :=
  project g now entry.1 entry.2 MAX_FIRES (next_fire_at entry.2) buckets.

(** [compute_forecast_seconds] *)
Definition compute_forecast_seconds (triggers : list (string * Trigger)) (now : instant)
    (window_minutes bucket_seconds : Z) : ForecastResponse :=
  let g := grid_of now window_minutes bucket_seconds in
  let bucket_secs := grid_bucket_secs g in
  MkForecast (grid_window_minutes g)
    (if Z.rem bucket_secs 60 =? 0 then wrap_u32 (Z.quot bucket_secs 60) else 0)
    (wrap_u32 bucket_secs)
    (foldl (project_trigger g now) (map (empty_bucket g) (seq 0 (grid_num_buckets g))) triggers).

(** [u32::saturating_mul] *)
Definition saturating_mul_u32 (a b : Z) : Z := Z.min (a * b) U32_MAX.

(** [compute_forecast] *)
Definition compute_forecast (triggers : list (string * Trigger)) (now : instant)
    (window_minutes bucket_minutes : Z) : ForecastResponse :=
  compute_forecast_seconds triggers now window_minutes (saturating_mul_u32 (Z.max bucket_minutes 1) 60).

(** [ForecastQuery] with its defaults *)
Record ForecastQuery := MkForecastQuery {
  fq_window_minutes : option Z;
  fq_bucket_minutes : option Z;
  fq_bucket_seconds : option Z
}.
Definition default_window : Z := 60.
Definition default_bucket : Z := 5.

(** [handle_forecast] *)
Definition handle_forecast (triggers : option (list (string * Trigger))) (ctx : CallerContext) (now : instant)
    (q : ForecastQuery) : result ForecastResponse Z :=
  res_bind (require_scope ctx Scope.JOBS_READ) (fun _ =>
  res_bind (ok_or triggers HTTP_UNAVAILABLE) (fun triggers =>
  let window := default default_window (fq_window_minutes q) in
  Ok (match fq_bucket_seconds q with
      | Some secs => compute_forecast_seconds triggers now window secs
      | None => compute_forecast triggers now window (default default_bucket (fq_bucket_minutes q))
      end))).
End Project.

(** ** What the forecast shows

    the buckets tile the grid, the first one holds the
    present, and each counts exactly the fires its span holds. *)

(** ** The grid *)

Lemma grid_bucket_pos now w b : 5 <= grid_bucket_secs (grid_of now w b).
Proof. unfold grid_of. cbn [grid_bucket_secs]. unfold MIN_BUCKET_SECONDS. lia. Qed.

Lemma grid_start_spec now w b :
  let g := grid_of now w b in
  grid_start g <= now < grid_start g + seconds (grid_bucket_secs g) /\ grid_start g mod seconds (grid_bucket_secs g) = 0.
Proof.
  cbv zeta. pose proof (grid_bucket_pos now w b) as Hb. cbn [grid_start grid_of].
  change (Z.max (Z.max b MIN_BUCKET_SECONDS) (div_ceil (Z.min w 240 * 60) MAX_BUCKETS)) with (grid_bucket_secs (grid_of now w b)).
  generalize dependent (grid_bucket_secs (grid_of now w b)). intros s Hs.
  unfold of_timestamp_millis, timestamp_millis, NS_MILLI, seconds, NS_SEC.
  rewrite Z.div_div by lia. replace (1000000 * (s * 1000)) with (s * 1000000000) by lia.
  replace (now / (s * 1000000000) * (s * 1000) * 1000000) with (now / (s * 1000000000) * (s * 1000000000)) by lia.
  split; [|by apply Z_mod_mult].
  pose proof (Z.div_mod now (s * 1000000000) ltac:(lia)). pose proof (Z.mod_pos_bound now (s * 1000000000) ltac:(lia)). lia.
Qed.

Definition bucket_start (g : Grid) (i : nat) : instant := grid_start g + seconds (Z.of_nat i * grid_bucket_secs g).

(** The fires of bucket [i] still ahead at [now]. *)
Definition in_bucket (g : Grid) (now : instant) (i : nat) (f : instant) : Prop :=
  now <= f /\ bucket_start g i <= f < bucket_start g (S i).
#[export] Instance in_bucket_dec g now i f : Decision (in_bucket g now i f).
Proof. unfold in_bucket. apply _. Defined.

Lemma bucket_index_spec now w b i f :
  let g := grid_of now w b in
  now <= f -> bucket_index g f = i <-> bucket_start g i <= f < bucket_start g (S i).
Proof.
  cbv zeta. pose proof (grid_bucket_pos now w b) as Hb. destruct (grid_start_spec now w b) as [[Hs _] _].
  unfold bucket_index, bucket_start, num_milliseconds, NS_MILLI.
  generalize dependent (grid_start (grid_of now w b)). generalize dependent (grid_bucket_secs (grid_of now w b)).
  intros s Hs g0 Hg Hf. rewrite (Z.quot_div_nonneg (f - g0)) by lia.
  rewrite Z.quot_div_nonneg by (first [lia|apply Z.div_pos; lia]).
  rewrite Z.div_div by lia. replace (1000000 * (s * 1000)) with (seconds s) by (unfold seconds, NS_SEC; lia).
  assert (0 < seconds s) by (unfold seconds, NS_SEC; lia).
  pose proof (Z.div_mod (f - g0) (seconds s) ltac:(lia)) as Hd. pose proof (Z.mod_pos_bound (f - g0) (seconds s) ltac:(lia)).
  pose proof (Z.div_pos (f - g0) (seconds s) ltac:(lia) ltac:(lia)).
  set (q := (f - g0) / seconds s) in *.
  assert (forall n, seconds (Z.of_nat n * s) = Z.of_nat n * seconds s) as E by (intros; unfold seconds; lia).
  rewrite !E. split.
  - intros <-. rewrite Nat2Z.inj_succ, Z2Nat.id by lia. nia.
  - intros Hr. assert (q = Z.of_nat i) by nia. lia.
Qed.

(** ** One trigger *)

Section Projection.
  Context `{CL : ChronoLaws}.

(** The first 501 fires of a trigger by its schedule alone. *)
Definition fires_ahead (t : Trigger) : list instant :=
  match next_fire_at t with
  | Some f => f :: next_n_fires (schedule t) f (timezone t) (MAX_FIRES - 1)
  | None => []
  end.

(** What [project] visits. *)
Fixpoint take_before (e : instant) (l : list instant) : list instant :=
  match l with
  | f :: l => if e <=? f then [] else f :: take_before e l
  | [] => []
  end.

Lemma project_visits g now k t rounds f bs :
  project g now k t (S rounds) (Some f) bs
  = foldl (fun bs f => record_fire g now k f bs) bs
      (take_before (grid_end g) (f :: next_n_fires (schedule t) f (timezone t) rounds)).
Proof.
  revert f bs. induction rounds as [|rounds IH]; intros f bs; cbn [project take_before next_n_fires].
  - by case_if.
  - case_if; [done|]. destruct (next_fire_after (schedule t) f (timezone t)) as [f'|]; [|done].
    change (project g now k t (S rounds) (Some f') (record_fire g now k f bs)
      = foldl (fun bs f => record_fire g now k f bs) (record_fire g now k f bs)
          (take_before (grid_end g) (f' :: next_n_fires (schedule t) f' (timezone t) rounds))). apply IH.
Qed.

Lemma project_trigger_visits g now bs k t :
  project_trigger g now bs (k, t)
  = foldl (fun bs f => record_fire g now k f bs) bs (take_before (grid_end g) (fires_ahead t)).
Proof.
  unfold project_trigger, fires_ahead. cbn [fst snd]. change MAX_FIRES with (S (MAX_FIRES - 1)).
  destruct (next_fire_at t) as [f|]; [apply project_visits|done].
Qed.

Lemma record_lookup g now k l i bs :
  foldl (fun bs f => record_fire g now k f bs) bs l !! i
  = Nat.iter (length (filter (fun f => now <= f /\ bucket_index g f = i) l)) (count_fire k) <$> bs !! i.
Proof.
  revert bs. induction l as [|f l IH]; intros bs; cbn [foldl].
  { cbn. by destruct (bs !! i). }
  rewrite IH, filter_cons. unfold record_fire. destruct (Z.leb_spec now f) as [Hn|Hn].
  - case_decide as Hi.
    + destruct Hi as [_ <-]. rewrite list_lookup_alter, decide_True by done.
      rewrite <- option_fmap_compose. cbn [length]. destruct (bs !! bucket_index g f) as [b|]; [|done]. cbn. f_equal.
      by rewrite Nat.iter_swap.
    + rewrite list_lookup_alter_ne by (intros E; by apply Hi). done.
  - by rewrite decide_False by lia.
Qed.

Definition hits (g : Grid) (now : instant) (i : nat) (t : Trigger) : nat :=
  length (filter (in_bucket g now i) (fires_ahead t)).

Definition schedulable (t : Trigger) : Prop := sched_ok (schedule t) /\ date_monotone (timezone t).

Lemma fires_ahead_sorted t : schedulable t -> StronglySorted Z.lt (fires_ahead t).
Proof.
  intros [Hs Hz]. unfold fires_ahead. destruct (next_fire_at t) as [f|]; [|constructor]. by apply next_n_fires_sorted.
Qed.

(** Nothing the loop leaves out lies in a bucket. *)
Lemma take_before_filter e (Q : instant -> Prop) `{!forall f, Decision (Q f)} l :
  StronglySorted Z.lt l -> (forall f, Q f -> f < e) -> filter Q (take_before e l) = filter Q l.
Proof.
  intros Hs HQ. induction Hs as [|f l Hs IH Hall]; [done|]. cbn [take_before]. destruct (Z.leb_spec e f) as [He|He].
  - symmetry. apply list_filter_none. constructor; [intros Qf; apply HQ in Qf; lia|].
    eapply Forall_impl; [exact Hall|]. cbn. intros x Hx Qx. apply HQ in Qx. lia.
  - rewrite !filter_cons, IH. done.
Qed.

Lemma project_trigger_lookup now w b k t i bs :
  let g := grid_of now w b in
  schedulable t -> (i < grid_num_buckets g)%nat ->
  project_trigger g now bs (k, t) !! i = Nat.iter (hits g now i t) (count_fire k) <$> bs !! i.
Proof.
  cbv zeta. intros Ht Hi. rewrite project_trigger_visits, record_lookup. set (g := grid_of now w b) in *.
  f_equal. f_equal. unfold hits. f_equal. 
  rewrite (list_filter_iff (fun f => now <= f /\ bucket_index g f = i) (in_bucket g now i)).
  2: { intros f. unfold in_bucket. split; intros [Hn Hx]; (split; [done|]); by apply (bucket_index_spec now w b i f Hn). }
  apply take_before_filter; [by apply fires_ahead_sorted|]. intros f [_ [_ Hf]].
  eapply Z.lt_le_trans; [exact Hf|]. unfold bucket_start. pose proof (grid_bucket_pos now w b) as Hb.
  change (grid_end g) with (grid_start g + seconds (Z.of_nat (grid_num_buckets g) * grid_bucket_secs g)).
  fold g in Hb. unfold seconds, NS_SEC. nia.
Qed.

(** ** All triggers *)

Definition add_hits (g : Grid) (now : instant) (i : nat) (b : ForecastBucket) (e : string * Trigger) : ForecastBucket :=
  Nat.iter (hits g now i e.2) (count_fire e.1) b.

Lemma forecast_lookup now w b ts i bs :
  let g := grid_of now w b in
  Forall (fun e => schedulable e.2) ts -> (i < grid_num_buckets g)%nat ->
  foldl (project_trigger g now) bs ts !! i = (fun b => foldl (add_hits g now i) b ts) <$> bs !! i.
Proof.
  cbv zeta. intros Hts Hi. revert bs. induction Hts as [|[k t] ts Ht _ IH]; intros bs; cbn [foldl].
  { by destruct (bs !! i). }
  rewrite IH, (project_trigger_lookup now w b) by done. by destruct (bs !! i).
Qed.

Lemma project_length g now ts bs : length (foldl (project_trigger g now) bs ts) = length bs.
Proof.
  revert bs. induction ts as [|[k t] ts IH]; intros bs; [done|]. cbn [foldl]. rewrite IH, project_trigger_visits.
  generalize (take_before (grid_end g) (fires_ahead t)). intros l. revert bs.
  induction l as [|f l IHl]; intros bs; [done|]. cbn [foldl]. rewrite IHl. unfold record_fire. case_if; [|done].
  apply length_alter.
Qed.

Lemma iter_count n k b :
  let b' := Nat.iter n (count_fire k) b in
  fb_start b' = fb_start b /\ fb_end b' = fb_end b /\
  (fb_count b = wrap_u32 (fb_count b) -> fb_count b' = wrap_u32 (fb_count b + Z.of_nat n)) /\
  (forall x, x ∈ fb_jobs b' <-> x ∈ fb_jobs b \/ x = k /\ (0 < n)%nat) /\ (NoDup (fb_jobs b) -> NoDup (fb_jobs b')).
Proof.
  cbv zeta. induction n as [|n (Hs & He & Hc & Hj & Hd)]; cbn [Nat.iter].
  { split_and!; [done|done| | |done]; [by rewrite Z.add_0_r|]. intros x. split; [by left|]. intros [?|[_ ?]]; [done|lia]. }
  change (Nat.iter (S n) (count_fire k) b) with (count_fire k (Nat.iter n (count_fire k) b)).
  cbn [count_fire fb_start fb_end fb_count fb_jobs]. split_and!; [done..| | |].
  - intros E. rewrite (Hc E). unfold wrap_u32. rewrite Zplus_mod_idemp_l. f_equal. lia.
  - intros x. case_bool_decide as Hk.
    + rewrite Hj. split; [intros [?|[-> ?]]; [by left|right; split; [done|lia]]|].
      intros [?|[-> _]]; [by left|]. by apply Hj in Hk.
    + rewrite elem_of_app, list_elem_of_singleton, Hj. split.
      * intros [[?|[-> ?]]| ->]; [by left|right; split; [done|lia]..].
      * intros [?|[-> _]]; [by left; left|by right].
  - intros H. case_bool_decide as Hk; [by apply Hd|]. apply NoDup_app. split_and!; [by apply Hd| |].
    + intros x Hx ->%list_elem_of_singleton. done.
    + by apply NoDup_singleton.
Qed.

(** The fires of bucket [i] over all triggers. *)
Definition total_hits (g : Grid) (now : instant) (i : nat) (ts : list (string * Trigger)) : nat :=
  sum_list (map (fun e => hits g now i e.2) ts).

Lemma add_hits_spec g now i ts b :
  let b' := foldl (add_hits g now i) b ts in
  fb_start b' = fb_start b /\ fb_end b' = fb_end b /\
  (fb_count b = wrap_u32 (fb_count b) -> fb_count b' = wrap_u32 (fb_count b + Z.of_nat (total_hits g now i ts))) /\
  (forall x, x ∈ fb_jobs b' <-> x ∈ fb_jobs b \/ exists t, (x, t) ∈ ts /\ (0 < hits g now i t)%nat) /\
  (NoDup (fb_jobs b) -> NoDup (fb_jobs b')).
Proof.
  cbv zeta. revert b. induction ts as [|[k t] ts IH]; intros b; cbn [foldl].
  { split_and!; [done|done| | |done].
    - cbn. by rewrite Z.add_0_r.
    - intros x. split; [by left|]. intros [?|(t & Ht & _)]; [done|]. by apply elem_of_nil in Ht. }
  destruct (IH (add_hits g now i b (k, t))) as (-> & -> & Hc & Hj & Hd).
  unfold add_hits in *. cbn [fst snd] in *.
  destruct (iter_count (hits g now i t) k b) as (Hs & He & Hc' & Hj' & Hd'). split_and!; [done..| | |].
  - intros E. rewrite Hc; rewrite (Hc' E).
    + unfold wrap_u32, total_hits. cbn [map sum_list fst snd]. rewrite Zplus_mod_idemp_l. f_equal.
      unfold sum_list. cbn. lia.
    + unfold wrap_u32. by rewrite Zmod_mod.
  - intros x. rewrite Hj, Hj'. setoid_rewrite elem_of_cons. naive_solver.
  - naive_solver.
Qed.

Lemma hits_pos g now i t : (0 < hits g now i t)%nat <-> exists f, f ∈ fires_ahead t /\ in_bucket g now i f.
Proof.
  unfold hits. split.
  - destruct (filter _ (fires_ahead t)) as [|f l] eqn:E; [cbn; lia|]. intros _. exists f.
    assert (f ∈ filter (in_bucket g now i) (fires_ahead t)) as H by (rewrite E; left).
    apply list_elem_of_filter in H as [? ?]. done.
  - intros (f & Hf & Hi). assert (f ∈ filter (in_bucket g now i) (fires_ahead t)) as H by by apply list_elem_of_filter.
    destruct (filter _ (fires_ahead t)); [by apply elem_of_nil in H|cbn; lia].
Qed.

Lemma grid_length now w b :
  0 <= w -> let g := grid_of now w b in
  (grid_num_buckets g <= 721)%nat /\ grid_start g + minutes (Z.min w 240) < grid_end g.
Proof.
  intros Hw. cbv zeta. pose proof (grid_bucket_pos now w b) as Hb. cbn [grid_start grid_num_buckets grid_end grid_of] in *.
  set (start := of_timestamp_millis _). cbn [grid_bucket_secs grid_of] in Hb. unfold MAX_BUCKETS, div_ceil in *.
  set (W := Z.min w 240 * 60) in *. assert (0 <= W) by (unfold W; lia).
  assert ((W + 720 - 1) / 720 <= Z.max (Z.max b MIN_BUCKET_SECONDS) ((W + 720 - 1) / 720)) as Hs by lia.
  generalize dependent (Z.max (Z.max b MIN_BUCKET_SECONDS) ((W + 720 - 1) / 720)). intros s Hs5. intros start Hs.
  rewrite Z.quot_div_nonneg by lia.
  assert (W <= 720 * s) by (Z.to_euclidean_division_equations; lia).
  assert (0 <= W / s <= 720) by (split; [apply Z.div_pos; lia|apply Z.div_le_upper_bound; lia]).
  split; [lia|]. rewrite Z2Nat.id by lia. pose proof (Z.mul_succ_div_gt W s ltac:(lia)).
  unfold minutes, seconds, NS_SEC. unfold W in *. nia.
Qed.

Lemma bucket_span g i : fb_start (empty_bucket g i) = bucket_start g i /\ fb_end (empty_bucket g i) = bucket_start g (S i).
Proof. unfold empty_bucket, bucket_start, seconds. cbn [fb_start fb_end]. split; lia. Qed.

Lemma bucket_start_aligned now w b i :
  let g := grid_of now w b in bucket_start g i mod seconds (grid_bucket_secs g) = 0.
Proof.
  cbv zeta. destruct (grid_start_spec now w b) as [_ H]. unfold bucket_start.
  replace (seconds (Z.of_nat i * _)) with (Z.of_nat i * seconds (grid_bucket_secs (grid_of now w b))) by (unfold seconds; lia).
  by rewrite Z_mod_plus_full.
Qed.

End Projection.

Import Demo.

(** ** Examples *)

Definition demo_trigger (s : Schedule) (st : TriggerState) (next : option instant) : Trigger (C := demo_chrono) :=
  MkTrigger (C := demo_chrono) "etl:sync" s (fixed 0) None None None None st next None None 0 CatchOnce None.

Lemma demo_schedulable secs st next : 0 < secs <= I64_MAX -> schedulable (C := demo_chrono) (demo_trigger (Interval secs) st next).
Proof.
  intros Hs. split; [done|]. exact (fixed_offset_date_monotone (C := demo_chrono) _ _ (fixed_fixed_offset 0)).
Qed.

(** Every two minutes, seen at 00:03 in an hour of five-minute buckets. *)
Definition demo_forecast : ForecastResponse :=
  compute_forecast_seconds (C := demo_chrono) [("etl:sync", demo_trigger (Interval 120) Armed (Some (minutes 4)))] (minutes 3) 60 300.


(** A paused trigger keeps its next fire, and the forecast counts it. *)
Example paused_trigger_counted :
  map fb_count (fr_buckets (compute_forecast (C := demo_chrono)
    [("etl:sync", pause (demo_trigger (Interval 600) Armed (Some (minutes 1))))] 0 20 5)) = [1; 0; 1; 0; 1].
Proof. vm_compute. reflexivity. Qed.

(** Every five seconds, over four hours: the projection ends after 501 fires. *)
Example dense_schedule_cut_off :
  let fr := compute_forecast (C := demo_chrono) [("etl:sync", demo_trigger (Interval 5) Armed (Some 0))] 0 240 30 in
  map fb_count (fr_buckets fr) = [360; 141; 0; 0; 0; 0; 0; 0; 0].
Proof. vm_compute. reflexivity. Qed.
