(* ===== verification/Canonical.v ===== *)
(** * The fingerprint of a job

    Models [croniq-config/src/fingerprint.rs]: the text a job is hashed over, with
    the fields that do not count taken out, the embedded payload rendered anew and
    the keys of every object in order. [serde_json] (the value of a job, the text of
    a scalar, the rendering of a payload) and the SHA-256 digest are parameters.

    [serde_json::Map] has no duplicate keys; here an object is the list of its
    entries in whatever order the map gives them. *)

From S2P Require Import Prelude RustStr JobConfig Compile BlockDirectives.

Local Open Scope string_scope.

Inductive Value :=
| VNull
| VBool (b : bool)
| VNumber (text : string)
| VString (s : string)
| VArray (items : list Value)
| VObject (fields : list (string * Value)).

(** [IGNORED_FIELDS] *)
Definition IGNORED_FIELDS : list string :=
  ["key"; "namespace"; "name"; "variant"; "description"; "schedule_summary"; "tags"; "run_on_register"].

Section Canonical.
  (** [Value::to_string] on a scalar *)
  Context (scalar_text : Value -> string).

(** [write_canonical] *)
Fixpoint write_canonical (value : Value) : string :=
  match value with
  | VObject fields =>
      let rendered := map (fun kv => (kv.1, write_canonical kv.2)) fields in
      let keys := sort_strings (map fst fields) in
      "{" ++ str_join "," (map (fun key =>
        scalar_text (VString key) ++ ":" ++ default "" ((list_to_map rendered : gmap string string) !! key)) keys) ++ "}"
  | VArray items => "[" ++ str_join "," (map write_canonical items) ++ "]"
  | other => scalar_text other
  end.

(** [map.remove(field)] *)
Definition remove_field (field : string) (fields : list (string * Value)) : list (string * Value) :=
  List.filter (fun kv => negb (String.eqb kv.1 field)) fields.
(** [map.get_mut(key)] and a write through it *)
Definition update_field (key : string) (f : Value -> Value) (fields : list (string * Value)) : list (string * Value) :=
  map (fun kv => if String.eqb kv.1 key then (kv.1, f kv.2) else kv) fields.

  (** [serde_json::from_str::<RunnerExec>], then [serde_json::to_string] *)
  Context (rerender : string -> option string).

(** The payload of [metadata], where it is a string that decodes. *)
Definition rerender_string (v : Value) : Value :=
  match v with VString raw => VString (default raw (rerender raw)) | _ => v end.
Definition rerender_exec (v : Value) : Value :=
  match v with VObject fields => VObject (update_field RUNNER_EXEC_METADATA_KEY rerender_string fields) | _ => v end.

(** What is rendered of the value of a job. *)
Definition hashed_value (value : Value) : Value :=
  match value with
  | VObject fields =>
      VObject (update_field "metadata" rerender_exec (foldl (fun fs field => remove_field field fs) fields IGNORED_FIELDS))
  | _ => value
  end.

  (** [serde_json::to_value(self)] and the hexadecimal SHA-256 *)
  Context (to_value : JobConfig -> option Value) (digest : string -> string).

(** [config_hash] *)
Definition job_config_hash (job : JobConfig) : string :=
  digest (write_canonical (hashed_value (default VNull (to_value job)))).

(** The fingerprint the scheduler compares. *)
Definition canonical_fingerprint : Fingerprint := {| config_hash := job_config_hash |}.
End Canonical.

(** ** What moves the fingerprint, and what does not

    the text that is hashed does not depend on the order in
    which a map gives its entries, at any depth, nor on the fields that are
    ignored. *)

Local Open Scope list_scope.
Local Open Scope Z_scope.

(** ** Sorting *)

(** The order of [Ord for String]. *)
Definition le (x y : string) : Prop := String.leb x y = true.

Lemma leb_cons a s b t :
  String.leb (String a s) (String b t)
  = match (N_of_ascii a ?= N_of_ascii b)%N with Lt => true | Gt => false | Eq => String.leb s t end.
Proof. unfold String.leb. cbn [String.compare]. unfold Ascii.compare. by destruct (_ ?= _)%N. Qed.

#[export] Instance le_trans : Transitive le.
Proof.
  intros x. induction x as [|a x IH]; intros [|b y] [|c z]; try done. unfold le in *. rewrite !leb_cons.
  destruct (N.compare_spec (N_of_ascii a) (N_of_ascii b)), (N.compare_spec (N_of_ascii b) (N_of_ascii c)),
    (N.compare_spec (N_of_ascii a) (N_of_ascii c)); try done; try (exfalso; lia). apply IH.
Qed.
#[export] Instance le_antisym : AntiSymm (=) le.
Proof. intros x y. apply String.leb_antisym. Qed.

Lemma insert_sorted_perm x l : insert_sorted x l ≡ₚ x :: l.
Proof.
  induction l as [|y l IH]; cbn [insert_sorted]; [done|]. case_if; [done|]. rewrite IH. apply Permutation_swap.
Qed.
Lemma sort_strings_perm l : sort_strings l ≡ₚ l.
Proof. unfold sort_strings. induction l as [|x l IH]; cbn [fold_right]; [done|]. by rewrite insert_sorted_perm, IH. Qed.

Lemma insert_sorted_sorted x l : StronglySorted le l -> StronglySorted le (insert_sorted x l).
Proof.
  induction 1 as [|y l Hl IH Hy]; cbn [insert_sorted]; [repeat constructor|]. destruct (String.leb x y) eqn:E.
  - constructor; [by constructor|]. constructor; [done|]. eapply Forall_impl; [exact Hy|]. intros z Hz. by trans y.
  - constructor; [done|]. rewrite insert_sorted_perm. constructor; [|done].
    destruct (String.leb_total y x) as [?|?]; [done|congruence].
Qed.
Lemma sort_strings_sorted l : StronglySorted le (sort_strings l).
Proof. unfold sort_strings. induction l; cbn [fold_right]; [constructor|by apply insert_sorted_sorted]. Qed.

Lemma sort_strings_order l l' : l ≡ₚ l' -> sort_strings l = sort_strings l'.
Proof.
  intros H. apply (StronglySorted_unique le); [apply sort_strings_sorted..|]. by rewrite !sort_strings_perm.
Qed.

(** ** Values up to the order of their maps *)

Fixpoint value_size (v : Value) : nat :=
  match v with
  | VArray items => S (sum_list (map value_size items))
  | VObject fields => S (sum_list (map (fun kv => value_size kv.2) fields))
  | _ => 1
  end.

(** The same value, each object in some order of its entries. *)
Inductive same_value : Value -> Value -> Prop :=
| same_refl v : same_value v v
| same_array l l' : Forall2 same_value l l' -> same_value (VArray l) (VArray l')
| same_object fs fs' fs'' :
    Forall2 (fun a b => a.1 = b.1 /\ same_value a.2 b.2) fs fs' -> fs' ≡ₚ fs'' -> NoDup (map fst fs) ->
    same_value (VObject fs) (VObject fs'').

Section OrderFree.
  Context (scalar_text : Value -> string).
Let write := write_canonical scalar_text.

Lemma write_same n v v' : (value_size v < n)%nat -> same_value v v' -> write v = write v'.
Proof.
  revert v v'. induction n as [|n IH]; intros v v' Hn Hs; [lia|]. destruct Hs as [v|l l' Hl|fs fs' fs'' Hf Hp Hnd]; [done| |].
  - unfold write. cbn [write_canonical]. do 3 f_equal. cbn [value_size] in Hn.
    induction Hl as [|x y l l' Hxy Hl IHl]; [done|]. cbn [map] in *. cbn in Hn. f_equal; [apply IH; [lia|done]|].
    apply IHl. lia.
  - assert (map (fun kv => (kv.1, write kv.2)) fs = map (fun kv => (kv.1, write kv.2)) fs') as Er.
    { cbn [value_size] in Hn. clear Hp Hnd. induction Hf as [|[k x] [k' y] fs fs' [Hk Hxy] Hf IHf]; [done|].
      cbn in Hk, Hxy, Hn. subst k'. cbn [map fst snd]. f_equal; [f_equal; apply IH; [lia|done]|]. apply IHf. cbn. lia. }
    assert (map fst fs = map fst fs') as Ek by (clear - Hf; induction Hf as [|a b fs fs' [Hk _] _ IHf]; cbn; [done|by rewrite Hk, IHf]).
    assert ((list_to_map (map (fun kv => (kv.1, write kv.2)) fs) : gmap string string)
            = list_to_map (map (fun kv => (kv.1, write kv.2)) fs'')) as Em.
    { apply list_to_map_proper; [|by rewrite Er, Hp]. rewrite <- list_fmap_compose. exact Hnd. }
    unfold write in *. cbn [write_canonical]. rewrite Em, Ek.
    by rewrite (sort_strings_order (map fst fs') (map fst fs'')) by by rewrite Hp.
Qed.

(** The order of the entries of any map in a value does not show in the text. *)
Theorem canonical_text_is_order_free v v' : same_value v v' -> write v = write v'.
Proof. apply (write_same (S (value_size v))). lia. Qed.

  Context (rerender : string -> option string).

(** A field that is ignored does not show, whatever its value. *)
Theorem ignored_field_does_not_show field x fs fs' :
  field ∈ IGNORED_FIELDS ->
  hashed_value rerender (VObject (fs ++ (field, x) :: fs')) = hashed_value rerender (VObject (fs ++ fs')).
Proof.
  intros Hf. unfold hashed_value. do 2 f_equal. revert fs fs' Hf. generalize IGNORED_FIELDS.
  induction l as [|y l IH]; intros fs fs' Hf; [by apply elem_of_nil in Hf|]. cbn [foldl]. unfold remove_field at 2 4.
  rewrite !List.filter_app. cbn [List.filter fst]. destruct (String.eqb_spec field y) as [->|Hne]; cbn [negb]; [done|].
  apply IH. apply elem_of_cons in Hf as [->|Hf]; done.
Qed.
End OrderFree.
