(* ===== verification/DispatchFacts.v ===== *)
(** * Concurrency budgets hold under dispatch

    What the guards of [try_dequeue_for] guarantee, whatever the store calls
    return: a shared concurrency group never has more claimed executions than
    its limit, and every grouped item that is handed out is claimed in the
    store by the runner it went to. *)

From S2P Require Import Prelude RustStr Chrono RunnerTypes Queue Registry RunnerApi.
From S2P Require Import Durations Execution JobConfig Store StoreCalls Sqlite SqliteFacts Server.
From S2P Require Import DemoServer Requeue Dispatch.

Local Open Scope string_scope.
Local Open Scope Z_scope.

(** ** Counting rows *)

Definition count_where (P : Execution -> bool) (t : Tables) : Z :=
  Z.of_nat (length (base.filter (fun e => P e = true) (rows (tb_execs t)))).

Definition claimed_group (g : string) (e : Execution) : bool := in_group g e && has_state EClaimed e.

(** Claimed executions that draw on the group. *)
Definition claimed_in (g : string) (t : Tables) : Z := count_where (claimed_group g) t.

Definition b2z (b : bool) : Z := if b then 1 else 0.

Lemma count_insert P t id e e' :
  tb_execs t !! id = Some e ->
  count_where P (set_execs (<[id := e']> (tb_execs t)) t)
  = count_where P t - b2z (P e) + b2z (P e').
Proof.
  intros He. unfold count_where, rows. cbn [tb_execs set_execs].
  assert (map_to_list (<[id := e']> (tb_execs t)) ≡ₚ (id, e') :: map_to_list (delete id (tb_execs t)))
    as Hins.
  { rewrite <- insert_delete_eq. apply map_to_list_insert. apply lookup_delete_eq. }
  pose proof (map_to_list_delete (tb_execs t) id e He) as Hdel.
  rewrite (filter_Permutation _ _ _ (fmap_Permutation snd _ _ Hins)).
  rewrite <- (filter_Permutation _ _ _ (fmap_Permutation snd _ _ Hdel)).
  cbn [fmap list_fmap snd]. rewrite !filter_cons. unfold b2z.
  repeat case_decide; repeat case_if; cbn [length] in *; try congruence; lia.
Qed.

Lemma count_nonneg P t : 0 <= count_where P t.
Proof. unfold count_where. lia. Qed.

Section Facts.
  Context `{J : Json} `{E : Env} {St : Type} `{SL : StoreLaws St}.

Definition tbl (w : World St) : Tables := tables (w_store w).

(** Calls that only read. *)
Definition reads {A} (c : Call A) : Prop :=
  forall t t' r, honours c t t' r -> t' = t.

Lemma reads_call {A} (c : Call A) w w' r :
  reads c -> call c w = (w', r) -> tbl w' = tbl w /\ w_app w' = w_app w /\ honours c (tbl w) (tbl w) r.
Proof.
  intros Hr (Hrun & Ha & _)%call_eq. apply run_honours in Hrun. unfold tbl.
  pose proof (Hr _ _ _ Hrun) as Et. rewrite Et in Hrun. auto.
Qed.

Lemma quiet_reads {A} (c : Call A) :
  (forall t t' a, post c t t' a -> t' = t) -> (forall t t', residue c t t' -> t' = t) -> reads c.
Proof. intros Hp Hq t t' [a|[w|w|w]] H; cbn in H; [eauto|by destruct H..|eauto]. Qed.

Lemma reads_count_job key st : reads (CountInStates key st).
Proof. apply quiet_reads; [by intros ? ? ? [? _]|by intros ? ? [?|[]]]. Qed.
Lemma reads_count_group g st : reads (CountInGroup g st).
Proof. apply quiet_reads; [by intros ? ? ? [? _]|by intros ? ? [?|[]]]. Qed.

(** ** The guard of one group *)

Section Group.
  Context (g : string) (now : instant) (caps : list string).

(** The state of a poll's maps between two picks, [k] executions of the group
    picked so far and [c] of them claimed in the store. *)
Record batch_ok (c k : Z) (b : Batch) : Prop := {
  cache_exact n : group_inflight_cache b !! g = Some n -> n = c;
  batch_exact : default 0 (group_batch_claims b !! g) = k
}.

(** An item the guard let through leaves room in its group. *)
Definition fits (c k : Z) (x : WorkItem) : Prop :=
  forall limit, concurrency_group x = Some (g, limit) -> c + k < limit.

Lemma count_group_claimed t n :
  post (CountInGroup g [EClaimed]) t t n -> n = claimed_in g t.
Proof.
  intros [_ ->]. unfold claimed_in, count_where. do 2 f_equal. apply list_filter_iff. intros e.
  unfold claimed_group. rewrite andb_true_iff. cbn. by rewrite orb_false_r.
Qed.

Lemma slot_free_spec c k x b w w' b' ok :
  c = claimed_in g (tbl w) -> 0 <= k -> c + k <= U64_MAX -> batch_ok c k b ->
  slot_free true x b w = (w', (b', ok)) ->
  tbl w' = tbl w /\ w_app w' = w_app w /\ batch_ok c k b' /\ (ok = true -> fits c k x).
Proof.
  intros -> Hk Hb [Hc Hbk] Hrun.
  assert (forall w w' cache' ok', has_free_concurrency_slot true x (batch_claims b) (inflight_cache b) w
            = (w', (cache', ok')) -> tbl w' = tbl w /\ w_app w' = w_app w) as Hjob.
  { unfold has_free_concurrency_slot. clear Hrun. intros u u' cache' ok' Hj.
    destruct (concurrency_limit x) as [limit|]; [|by injection Hj as <- _ _].
    cbv zeta in Hj. destruct (limit <=? _); [by injection Hj as <- _ _|]. cbn [negb] in Hj.
    destruct (inflight_cache b !! _); [by injection Hj as <- _ _|].
    apply bind_eq in Hj as (u1 & r & (? & ? & _)%reads_call & Hj); [|apply reads_count_job].
    destruct r; injection Hj as <- _ _; by split. }
  unfold slot_free in Hrun.
  apply bind_eq in Hrun as (w1 & [cache1 ok1] & [Et Ea]%Hjob & Hrun).
  destruct ok1; [|injection Hrun as <- <- <-; split_and!; [done..|by constructor|done]].
  apply bind_eq in Hrun as (w2 & [gc ok2] & Hg & Hrun). injection Hrun as <- <- <-.
  cbn [group_batch_claims group_inflight_cache] in Hg. unfold has_free_group_slot in Hg.
  destruct (concurrency_group x) as [[g' limit]|] eqn:Eg.
  2: { injection Hg as <- <- <-. split_and!; [done..|by constructor|]. intros _ l Hl. congruence. }
  cbv zeta in Hg. destruct (Z.leb_spec limit (default 0 (group_batch_claims b !! g'))).
  { injection Hg as <- <- <-. split_and!; [done..|by constructor|done]. }
  cbn [negb] in Hg. destruct (group_inflight_cache b !! g') as [n|] eqn:En.
  { injection Hg as <- <- <-. split_and!; [done..|by constructor|]. intros Hlt%Z.ltb_lt l Hl.
    assert (g' = g /\ limit = l) as [-> ->] by (split; congruence).
    rewrite (Hc n En), Hbk, wrap_u64_id in Hlt by (pose proof (count_nonneg (claimed_group g) (tbl w));
      unfold claimed_in in *; lia). lia. }
  apply bind_eq in Hg as (w3 & r & (Et3 & Ea3 & Hh)%reads_call & Hg); [|apply reads_count_group].
  destruct r as [n|e]; injection Hg as <- <- <-;
    (split_and!; [congruence..| |]); [| |by constructor|done].
  - constructor; [|done]. intros n'. cbn [group_inflight_cache]. rewrite lookup_insert.
    case_decide as Eq; [|apply Hc]. intros [= <-]. subst g'. rewrite <- Et.
    by apply count_group_claimed.
  - intros Hlt%Z.ltb_lt l Hl. assert (g' = g /\ limit = l) as [-> ->] by (split; congruence).
    cbn in Hh. apply count_group_claimed in Hh. rewrite Et in Hh. rewrite Hh, Hbk, wrap_u64_id in Hlt;
      [lia|]. pose proof (count_nonneg (claimed_group g) (tbl w)). unfold claimed_in in *. lia.
Qed.

Lemma scan_spec c k all l i best b w w' b' best' :
  c = claimed_in g (tbl w) -> 0 <= k -> c + k <= U64_MAX -> batch_ok c k b ->
  l = drop i all -> (forall r j, best = Some (r, j) -> exists x, all !! j = Some x /\ fits c k x) ->
  scan_best_st now caps (slot_free true) l i best b w = (w', (b', best')) ->
  tbl w' = tbl w /\ w_app w' = w_app w /\ batch_ok c k b'
  /\ (forall r j, best' = Some (r, j) -> exists x, all !! j = Some x /\ fits c k x).
Proof.
  intros Hc Hk Hb. revert i best b w Hc. induction l as [|x l IH]; intros i best b w Hc Hbok Hl Hbest Hrun.
  { injection Hrun as <- <- <-. auto. }
  assert (all !! i = Some x /\ l = drop (S i) all) as [Hx Hl'].
  { symmetry in Hl. split.
    - rewrite <- (Nat.add_0_r i), <- lookup_drop. by rewrite Hl.
    - rewrite <- (Nat.add_1_r i), <- drop_drop. by rewrite Hl. }
  cbn [scan_best_st] in Hrun. destruct (negb _); [by eapply IH|].
  cbv zeta in Hrun. destruct (match best with Some _ => _ | None => _ end); [by eapply IH|].
  apply bind_eq in Hrun as (w1 & [b1 ok] & Hs & Hrun).
  apply (slot_free_spec c k) in Hs as (Et & Ea & Hb1 & Hf); [|done..].
  destruct ok; [destruct (_ =? CEILING)|].
  - injection Hrun as <- <- <-. split_and!; [done..|]. intros r j [= _ <-]. eauto.
  - apply IH in Hrun as (? & ? & ? & ?); [split_and!; congruence || done|congruence|done..|].
    intros r j [= _ <-]. eauto.
  - apply IH in Hrun as (? & ? & ? & ?); [split_and!; congruence || done|congruence|done..].
Qed.

(** One pick takes its item out of the queue and leaves the store alone. *)
Lemma dequeue_st_spec c k b w w' b' next :
  c = claimed_in g (tbl w) -> 0 <= k -> c + k <= U64_MAX -> batch_ok c k b ->
  dequeue_where_st true now caps b w = (w', (b', next)) ->
  tbl w' = tbl w /\ registry (w_app w') = registry (w_app w) /\ batch_ok c k b'
  /\ match next with
     | None => w_app w' = w_app w
     | Some x => fits c k x /\ items (queue (w_app w)) ≡ₚ x :: items (queue (w_app w'))
     end.
Proof.
  intros Hc Hk Hb Hbok Hrun. unfold dequeue_where_st in Hrun.
  apply bind_eq in Hrun as (w0 & q & [= <- <-] & Hrun).
  apply bind_eq in Hrun as (w1 & [b1 best] & Hs & Hrun).
  apply (scan_spec c k (items (queue (w_app w)))) in Hs as (Et & Ea & Hb1 & Hbest); [|done..].
  destruct best as [[r i]|]; [|injection Hrun as <- <- <-; by rewrite Ea].
  destruct (Hbest r i eq_refl) as (x & Hx & Hf). rewrite Hx in Hrun.
  injection Hrun as <- <- <-. split_and!; [done|cbn; by rewrite Ea|done|done|].
  cbn [queue w_app set_app set_queue items]. by apply delete_Permutation.
Qed.

Definition group_picks (l : list WorkItem) : Z :=
  Z.of_nat (length (List.filter (fun x => match concurrency_group x with
                                          | Some (g', _) => String.eqb g' g
                                          | None => false
                                          end) l)).

Lemma count_pick_ok c k x b :
  batch_ok c k b -> 0 <= k < U64_MAX -> batch_ok c (k + group_picks [x]) (count_pick x b).
Proof.
  intros [Hc Hk] Hr. split; [done|]. unfold count_pick, group_picks, bump. cbn.
  destruct (concurrency_group x) as [[g' l]|]; cbn; [|lia].
  destruct (String.eqb_spec g' g) as [->|Hne]; cbn.
  - rewrite lookup_insert_eq. cbn. rewrite Hk, wrap_u64_id by lia. lia.
  - rewrite lookup_insert_ne by done. rewrite Hk. lia.
Qed.

Lemma group_picks_cons x l : group_picks (x :: l) = group_picks [x] + group_picks l.
Proof. unfold group_picks. cbn. destruct (concurrency_group x) as [[g' n]|]; [destruct (String.eqb g' g)|]; cbn; lia. Qed.
Lemma group_picks_one x : 0 <= group_picks [x] <= 1.
Proof. unfold group_picks. cbn. destruct (concurrency_group x) as [[g' n]|]; [destruct (String.eqb g' g)|]; cbn; lia. Qed.

(** The picks of a poll stay within every limit the queued items of the group
    carry. *)
Lemma pick_items_spec c limit cap : forall k b w w' l,
  c = claimed_in g (tbl w) -> 0 <= k -> c + k + Z.of_nat cap <= U64_MAX -> batch_ok c k b ->
  (forall x n, x ∈ items (queue (w_app w)) -> concurrency_group x = Some (g, n) -> n <= limit) ->
  pick_items true now caps cap b w = (w', l) ->
  tbl w' = tbl w /\ registry (w_app w') = registry (w_app w)
  /\ items (queue (w_app w)) ≡ₚ l ++ items (queue (w_app w'))
  /\ (group_picks l = 0 \/ c + k + group_picks l <= limit).
Proof.
  induction cap as [|cap IH]; intros k b w w' l Hc Hk Hb Hbok Hlim Hrun.
  { injection Hrun as <- <-. split_and!; [done..|by left]. }
  cbn [pick_items] in Hrun. apply bind_eq in Hrun as (w1 & [b1 next] & Hd & Hrun).
  apply (dequeue_st_spec c k) in Hd as (Et & Er & Hb1 & Hn); [|done|done|lia|done].
  destruct next as [x|]; [|injection Hrun as <- <-; rewrite Hn; split_and!; [done..|by left]].
  destruct Hn as [Hf Hperm]. apply bind_eq in Hrun as (w2 & l' & Hp & Hrun). injection Hrun as <- <-.
  pose proof (count_nonneg (claimed_group g) (tbl w)) as Hnn. fold (claimed_in g (tbl w)) in Hnn.
  pose proof (group_picks_one x) as Hone.
  apply (IH (k + group_picks [x])) in Hp as (Et2 & Er2 & Hperm2 & Hpicks).
  - split_and!; [congruence..| |].
    { rewrite Hperm, Hperm2. done. }
    rewrite group_picks_cons. unfold fits in Hf.
    destruct (decide (group_picks [x] = 0)) as [H0|H0]; [destruct Hpicks as [Hp0|Hp0]; [left|right]; lia|].
    right. unfold group_picks in H0. cbn in H0.
    destruct (concurrency_group x) as [[g' n]|] eqn:Eg; [|done].
    destruct (String.eqb_spec g' g) as [->|]; [|done].
    specialize (Hf n eq_refl). specialize (Hlim x n). rewrite Hperm in Hlim.
    specialize (Hlim ltac:(left) Eg). lia.
  - by rewrite Et.
  - lia.
  - lia.
  - apply count_pick_ok; [done|lia].
  - intros y n Hy. apply Hlim. rewrite Hperm. by right.
Qed.

(** ** The claims *)

(** What a claim does to the tables, whatever it answers. *)
Lemma claim_cases id rid now' w w' r :
  call (ClaimExecution id rid now') w = (w', r) ->
  w_app w' = w_app w /\
  ((tbl w' = tbl w /\ is_ok r = false)
   \/ exists e, tb_execs (tbl w) !! id = Some e /\ ex_state e = EQueued
        /\ tbl w' = set_execs (<[id := claimed_row rid now' e]> (tb_execs (tbl w))) (tbl w)).
Proof.
  intros (Hrun & Ha & _)%call_eq. split; [done|]. apply run_honours in Hrun. unfold tbl.
  assert (forall m, swapped (has_state EQueued) (claimed_row rid now') id (tb_execs (tables (w_store w))) m true ->
    exists e, tb_execs (tables (w_store w)) !! id = Some e /\ ex_state e = EQueued
      /\ m = <[id := claimed_row rid now' e]> (tb_execs (tables (w_store w)))) as Hsw.
  { intros m Hs. unfold swapped in Hs. destruct (_ !! id) as [e|]; [|by destruct Hs].
    destruct Hs as [Hok ->]. rewrite <- Hok. exists e. split_and!; [done| |done].
    symmetry in Hok. by apply bool_decide_eq_true in Hok. }
  destruct r as [a|[x|x|x]]; cbn in Hrun.
  - right. destruct Hrun as (m & (e & He & Hq & ->)%Hsw & -> & _). eauto.
  - left. by destruct Hrun as [-> _].
  - left. by destruct Hrun as [-> _].
  - destruct Hrun as [->|(m & (e & He & Hq & ->)%Hsw & ->)]; [by left|right; eauto].
Qed.

(** The item and its row agree on the group. *)
Definition row_matches (t : Tables) (x : WorkItem) : Prop :=
  forall id e, is_ephemeral x = false -> parse_uuid (execution_id x) = Some id ->
    tb_execs t !! id = Some e -> concurrency_group_of e = fst <$> concurrency_group x.

Definition held_by (rid : string) (t : Tables) (x : WorkItem) : Prop :=
  exists id e, parse_uuid (execution_id x) = Some id /\ tb_execs t !! id = Some e
    /\ claimed_by rid e = true.

(** A grouped item that is kept is claimed; claims of other items keep it so,
    and keep what the rows say of their groups. *)
Lemma claim_keeps_rows rid now' t id e :
  tb_execs t !! id = Some e -> ex_state e = EQueued ->
  (forall x, row_matches t x -> row_matches (set_execs (<[id := claimed_row rid now' e]> (tb_execs t)) t) x)
  /\ (forall x, held_by rid t x -> held_by rid (set_execs (<[id := claimed_row rid now' e]> (tb_execs t)) t) x).
Proof.
  intros He Hq. split; intros x Hx.
  - intros id' e' Heph Hp. cbn. rewrite lookup_insert. case_decide as Eq; [|by apply Hx].
    subst id'. intros [= <-]. by apply (Hx id e).
  - destruct Hx as (id' & e' & Hp & He' & Hcl). exists id'. cbn. rewrite lookup_insert.
    case_decide as Eq; [|eauto]. subst id'. eexists. split_and!; [done..|].
    unfold claimed_by, has_state. cbn. by rewrite !bool_decide_true.
Qed.

Lemma keep_claimed_spec rid now' x w w' keep :
  row_matches (tbl w) x -> (is_Some (concurrency_group x) -> is_ephemeral x = false
                            /\ is_Some (parse_uuid (execution_id x))) ->
  keep_claimed rid now' x w = (w', keep) ->
  w_app w' = w_app w
  /\ claimed_in g (tbl w') <= claimed_in g (tbl w) + group_picks [x]
  /\ (forall y, row_matches (tbl w) y -> row_matches (tbl w') y)
  /\ (forall y, held_by rid (tbl w) y -> held_by rid (tbl w') y)
  /\ (keep = true -> is_Some (concurrency_group x) -> held_by rid (tbl w') x).
Proof.
  intros Hm Hpers Hrun. unfold keep_claimed in Hrun. pose proof (group_picks_one x) as Hone.
  destruct (is_ephemeral x) eqn:Eph.
  { injection Hrun as <- <-. split_and!; [done|lia|done|done|]. intros _ Hg. by destruct (Hpers Hg). }
  destruct (parse_uuid (execution_id x)) as [id|] eqn:Ep.
  2: { injection Hrun as <- <-. split_and!; [done|lia|done|done|].
       intros _ Hg. destruct (Hpers Hg) as [_ [? [=]]]. }
  apply bind_eq in Hrun as (w1 & r & Hcl & Hrun). injection Hrun as <- <-.
  pose proof Hcl as Hcl0. apply claim_cases in Hcl as [Ha Hcases]. split; [done|].
  destruct Hcases as [[Et Hr]|(e & He & Hq & Et)].
  - rewrite Et. split_and!; [lia|done|done|]. intros Hkeep Hg.
    destruct r as [a|[z|z|z]]; try done. by destruct (concurrency_group x); destruct Hg.
  - destruct (claim_keeps_rows rid now' (tbl w) id e He Hq) as [H1 H2]. rewrite Et.
    split_and!; [|done..|].
    + unfold claimed_in. rewrite (count_insert _ _ _ e) by done.
      assert (claimed_group g e = false) as ->.
      { unfold claimed_group, has_state. rewrite Hq. by rewrite andb_false_r. }
      assert (claimed_group g (claimed_row rid now' e) = in_group g e) as ->.
      { unfold claimed_group, has_state. cbn. by rewrite andb_true_r. }
      specialize (Hm id e Eph Ep He). unfold in_group. rewrite Hm.
      unfold group_picks, b2z. cbn. destruct (concurrency_group x) as [[g' l]|]; cbn;
        [|rewrite bool_decide_false by done; lia].
      destruct (String.eqb_spec g' g) as [->|Hne]; [rewrite bool_decide_true by done; cbn; lia|].
      rewrite bool_decide_false by congruence. cbn. lia.
    + intros _ _. exists id. cbn. rewrite lookup_insert_eq. eexists. split_and!; [done..|].
      unfold claimed_by, has_state. cbn. by rewrite !bool_decide_true.
Qed.

Definition persisted (x : WorkItem) : Prop :=
  is_ephemeral x = false /\ is_Some (parse_uuid (execution_id x)).
(** What the queue promises of its grouped items. *)
Definition item_linked (t : Tables) (x : WorkItem) : Prop :=
  row_matches t x /\ (is_Some (concurrency_group x) -> persisted x).

Lemma retain_spec rid now' l : forall w w' kept,
  (forall x, x ∈ l -> item_linked (tbl w) x) ->
  retain_claimed rid now' l w = (w', kept) ->
  w_app w' = w_app w
  /\ claimed_in g (tbl w') <= claimed_in g (tbl w) + group_picks l
  /\ (forall y, held_by rid (tbl w) y -> held_by rid (tbl w') y)
  /\ (forall x, x ∈ kept -> x ∈ l /\ (is_Some (concurrency_group x) -> held_by rid (tbl w') x)).
Proof.
  induction l as [|x l IH]; intros w w' kept Hl Hrun.
  { injection Hrun as <- <-. split_and!; [done|change (group_picks []) with 0; lia|done|].
    intros x Hx. by apply not_elem_of_nil in Hx. }
  cbn [retain_claimed] in Hrun. apply bind_eq in Hrun as (w1 & keep & Hk & Hrun).
  apply bind_eq in Hrun as (w2 & rest & Hr & Hrun). injection Hrun as <- <-.
  destruct (Hl x ltac:(left)) as [Hm Hp].
  apply keep_claimed_spec in Hk as (Ha & Hc & Hrm & Hh & Hx); [|done..].
  apply IH in Hr as (Ha2 & Hc2 & Hh2 & Hx2).
  2: { intros y Hy. destruct (Hl y ltac:(by right)). split; [by apply Hrm|done]. }
  rewrite group_picks_cons. split_and!; [congruence|lia|auto|].
  intros y Hy. destruct keep; [apply elem_of_cons in Hy as [->|Hy]|].
  - split; [left|]. intros Hg. by apply Hh2, Hx.
  - destruct (Hx2 y Hy). split; [by right|done].
  - destruct (Hx2 y Hy). split; [by right|done].
Qed.

(** The registry takes all the items or, when it no longer knows the runner,
    none. *)
Lemma register_claims_all rid l reg :
  let '(reg', taken, refused) := register_claims rid l reg in
  match runners reg !! rid with
  | Some _ => taken = l /\ refused = []
  | None => taken = [] /\ refused = l
  end.
Proof.
  revert reg. induction l as [|x l IH]; intros reg; cbn [register_claims].
  { by destruct (runners reg !! rid). }
  unfold claim. destruct (runners reg !! rid) as [r|] eqn:Er.
  - specialize (IH (set_runners (<[rid := set_inflight (inflight r ++ [execution_id x]) r]> (runners reg)) reg)).
    cbn [runners set_runners] in IH. rewrite lookup_insert_eq in IH.
    destruct (register_claims rid l _) as [[reg' taken] refused]. by destruct IH as [-> ->].
  - specialize (IH reg). rewrite Er in IH.
    destruct (register_claims rid l reg) as [[reg' taken] refused]. by destruct IH as [-> ->].
Qed.

(** Programs that never add a claim to the group. *)
Definition no_more_claims (w w' : World St) : Prop :=
  claimed_in g (tbl w') <= claimed_in g (tbl w).
#[local] Instance no_more_claims_preorder : PreOrder no_more_claims.
Proof. split; unfold no_more_claims; [intros w; lia|intros a b c; lia]. Qed.

Lemma requeue_call_claims id now' : keeps no_more_claims (call (RequeueIfClaimed id now')).
Proof.
  intros w w' r (Hrun & _)%call_eq. apply run_honours in Hrun. unfold no_more_claims, tbl.
  destruct r as [hit|[x|x|x]]; cbn in Hrun; try (destruct Hrun as [-> []]); [|by destruct Hrun as [->|[]]].
  destruct Hrun as (m & Hs & ->). unfold swapped in Hs.
  destruct (tb_execs (tables (w_store w)) !! id) as [e|] eqn:He; destruct Hs as [_ ->];
    [destruct (has_state EClaimed e)|]; [|by destruct (tables (w_store w))..].
  unfold claimed_in. rewrite (count_insert _ _ _ e) by done.
  assert (claimed_group g (requeued_row e) = false) as ->
    by (unfold claimed_group, has_state; cbn; by rewrite andb_false_r).
  unfold b2z. destruct (claimed_group g e); lia.
Qed.

Lemma hand_back_claims now' x : keeps no_more_claims (hand_back true now' x).
Proof.
  apply keeps_bind; [apply _| |].
  - cbn. destruct (parse_uuid _); [|apply keeps_ret; apply _].
    apply keeps_bind; [apply _|apply requeue_call_claims|]. intros r. apply keeps_ret. apply _.
  - intros []; [|apply keeps_ret; apply _]. apply keeps_bind; [apply _| |].
    + intros w w' a Hrun. unfold no_more_claims, tbl.
      pose proof (update_same_store _ _ _ _ Hrun) as Hs. by rewrite Hs.
    + intros ?. apply keeps_ret. apply _.
Qed.
End Group.

(** C4. A concurrency group's budget holds under dispatch, whatever the store
    calls return: a poll never takes the group's claimed executions past the
    limit its items carry, since a count or a claim that fails blocks the item
    instead of letting it through; and every grouped execution the poll hands
    out is claimed in the store by the runner it went to. Of the queue
    it is asked that an item and the row of its id name the same group and that
    grouped items have a row ([item_linked]). *)
Theorem group_budget_holds g limit rid caps cap (w w' : World St) work :
  (forall x, x ∈ items (queue (w_app w)) -> item_linked (tbl w) x) ->
  (forall x n, x ∈ items (queue (w_app w)) -> concurrency_group x = Some (g, n) -> n <= limit) ->
  claimed_in g (tbl w) + Z.of_nat cap <= U64_MAX ->
  try_dequeue_for true rid caps cap w = (w', work) ->
  claimed_in g (tbl w') <= Z.max (claimed_in g (tbl w)) limit
  /\ (forall a, a ∈ work -> exists x, x ∈ items (queue (w_app w)) /\ a = assignment_of x
        /\ (is_Some (concurrency_group x) -> held_by rid (tbl w') x)).
Proof.
  intros Hlink Hlim Hcap Hrun. unfold try_dequeue_for in Hrun.
  apply bind_eq in Hrun as (w0 & now0 & [= <- <-] & Hrun).
  apply bind_eq in Hrun as (w1 & picked & Hp & Hrun).
  apply (pick_items_spec g _ _ (claimed_in g (tbl w)) limit cap 0) in Hp
    as (Et & _ & Hperm & Hpicks); [|done|lia|lia|by constructor|done]. cbn [w_app] in Hperm.
  destruct picked as [|p0 ps] eqn:Epicked.
  { injection Hrun as <- <-. rewrite Et. cbn. split; [unfold tbl; cbn; lia|].
    intros a Ha. by apply not_elem_of_nil in Ha. }
  rewrite <- Epicked in *. clear Epicked.
  apply bind_eq in Hrun as (w2 & kept & Hk & Hrun).
  apply bind_eq in Hk as (w1' & now1 & [= <- <-] & Hk).
  apply (retain_spec g) in Hk as (Ha2 & Hc2 & _ & Hkept).
  2: { intros x Hx. change (item_linked (tbl w1) x). rewrite Et. apply Hlink. rewrite Hperm.
       apply elem_of_app. by left. }
  change (tbl (MkWorld _ _ _ _ _)) with (tbl w1) in Hc2. rewrite Et in Hc2.
  assert (claimed_in g (tbl w2) <= Z.max (claimed_in g (tbl w)) limit) as Hbound.
  { change (claimed_in g (tbl w)) with (claimed_in g (tbl w)) in *. unfold tbl in *. cbn in *. lia. }
  apply bind_eq in Hrun as (w3 & [taken refused] & Hreg & Hrun).
  unfold update_app in Hreg. pose proof (register_claims_all rid kept (registry (w_app w2))) as Hall.
  destruct (register_claims rid kept (registry (w_app w2))) as [[reg taken'] refused'].
  injection Hreg as <- <- <-.
  apply bind_eq in Hrun as (w4 & [] & Hb & Hrun).
  apply bind_eq in Hrun as (w5 & [] & [= <-] & Hrun).
  apply bind_eq in Hrun as (w6 & now2 & [= <- <-] & Hrun).
  apply bind_eq in Hrun as (w7 & [] & [= <-] & Hrun). injection Hrun as <- <-.
  change (tbl (set_app _ _)) with (tbl w4).
  assert (no_more_claims g w2 w4) as H24.
  { change (no_more_claims g (set_app (set_registry reg (w_app w2)) w2) w4).
    destruct (List.filter _ refused') as [|y ys]; [injection Hb as <-; unfold no_more_claims, tbl; cbn; lia|].
    apply bind_eq in Hb as (w4' & now3 & [= <- <-] & Hb).
    refine (keeps_each (no_more_claims g) (hand_back true _) (y :: ys) _ _ _ _ Hb);
      [apply no_more_claims_preorder|]. intros z. apply hand_back_claims. }
  split; [unfold no_more_claims in H24; lia|].
  intros a Ha. apply list_elem_of_fmap in Ha as (x & -> & Hx).
  destruct (runners (registry (w_app w2)) !! rid); destruct Hall as [-> ->];
    [|by apply not_elem_of_nil in Hx].
  injection Hb as <-. destruct (Hkept x Hx) as [Hin Hheld]. exists x.
  split_and!; [|done|exact Hheld]. rewrite Hperm. apply elem_of_app. by left.
Qed.
End Facts.

(** ** An example *)

(** Two queued executions of a group with one slot, none claimed: one poll for
    two takes one. *)
Definition demo_group_world : World SqliteStore :=
  demo_world [demo_queued "a" "etl:load" 0 demo_group; demo_queued "b" "etl:sync" 0 demo_group]
    [demo_grouped_item "a" "etl:load"; demo_grouped_item "b" "etl:sync"] [].

Lemma group_budget_holds_witness :
  let '(w', work) := try_dequeue_for true "r1" [] 2 demo_group_world in
  claimed_in "db" (tbl w') <= 1 /\ length work = 1%nat.
Proof.
  assert (items (queue (w_app demo_group_world))
          = [demo_grouped_item "a" "etl:load"; demo_grouped_item "b" "etl:sync"]) as Hitems by reflexivity.
  assert (length (try_dequeue_for true "r1" [] 2 demo_group_world).2 = 1%nat) as Hlen by reflexivity.
  destruct (try_dequeue_for true "r1" [] 2 demo_group_world) as [w' work] eqn:Hrun. split; [|exact Hlen].
  refine (proj1 (group_budget_holds "db" 1 "r1" [] 2 demo_group_world w' work _ _ _ Hrun)).
  - rewrite Hitems. intros x Hx. repeat (apply elem_of_cons in Hx as [->|Hx]); [..|by apply not_elem_of_nil in Hx];
      (split; [|by split]; intros id e _ [= <-] [= <-]; reflexivity).
  - rewrite Hitems. intros x n Hx. repeat (apply elem_of_cons in Hx as [->|Hx]); [..|by apply not_elem_of_nil in Hx];
      by intros [= <-].
  - vm_compute. congruence.
Defined.
