(* ===== verification/AlertFacts.v ===== *)
(** * What the alert rules guarantee

    The glob matcher against its declarative meaning, the spacing a throttle
    window enforces, and the silence an acknowledgement buys. *)

From S2P Require Import Prelude RustStr Chrono RunnerTypes Queue Registry RunnerApi.
From S2P Require Import Store StoreCalls Sqlite SqliteFacts Server DemoServer Alerts DispatchFacts.

Local Open Scope string_scope.
Local Open Scope Z_scope.

(** ** Calls of a store that refuses nothing *)

Section Faultless.
  Context `{J : Json}.
Definition ok_store (w : World SqliteStore) : Prop := faultless (w_store w).

Lemma call_ok_store {A} (c : Call A) (w w' : World SqliteStore) r : ok_store w -> call c w = (w', r) -> ok_store w'.
Proof.
  unfold call, ok_store. intros Hs Hc. pose proof (stays_call c (w_store w) Hs) as H. cbn [run sqlite_ops] in Hc.
  destruct (Db.sqlite_call c (w_store w)) as [s a]. by injection Hc as <- _.
Qed.

Lemma call_faultless {A} (c : Call A) (w w' : World SqliteStore) r :
  ok_store w -> accepts c (tbl w) = true -> call c w = (w', r) ->
  ok_store w' /\ w_app w' = w_app w /\ exists a, r = Ok a /\ post c (tbl w) (tbl w') a.
Proof.
  intros Hs Hacc Hc. split; [by eapply call_ok_store|]. apply call_eq in Hc as (Hrun & Ha & _).
  destruct (faultless_run c (w_store w) Hs Hacc) as (s' & a & Hr & _ & Hp).
  rewrite Hr in Hrun. injection Hrun as Est <-. split; [done|]. exists a. unfold tbl. by rewrite <- Est.
Qed.
End Faultless.

(** ** Globs *)

(** What a pattern means: [*] is any run of bytes, [?] any one byte, every
    other byte itself. *)
Inductive Glob : string -> string -> Prop :=
| glob_nil : Glob "" ""
| glob_star pat a b : Glob pat b -> Glob (String "*" pat) (a +:+ b)
| glob_any pat c s : Glob pat s -> Glob (String "?" pat) (String c s)
| glob_char pat c s : c <> "*"%char -> Glob pat s -> Glob (String c pat) (String c s).

Lemma glob_star_match pat s :
  glob_match (String "*" pat) s = true <-> exists a b, s = a +:+ b /\ glob_match pat b = true.
Proof.
  cbn [glob_match Ascii.eqb]. change (Ascii.eqb "*" "*") with true. cbn iota.
  induction s as [|c s IH]; cbn.
  - rewrite orb_false_r. split; [intros Hm; by exists "", ""|]. intros (a & b & Hab & Hb).
    destruct a; [|done]. cbn in Hab. by rewrite Hab.
  - rewrite orb_true_iff, IH. split.
    + intros [Hm|(a & b & -> & Hb)]; [by exists "", (String c s)|by exists (String c a), b].
    + intros ([|c' a] & b & Hab & Hb); cbn in Hab; [left; by rewrite Hab|]. injection Hab as <- ->.
      right. by exists a, b.
Qed.

(** The glob matcher accepts exactly the job keys its pattern stands for,
    and terminates on every pattern and key. *)
Theorem glob_match_exact pat s : glob_match pat s = true <-> Glob pat s.
Proof.
  revert s. induction pat as [|p pat IH]; intros s.
  { cbn. destruct s; split; try done; [constructor|by inversion 1]. }
  destruct (Ascii.eqb_spec p "*") as [->|Hne].
  - rewrite glob_star_match. split.
    + intros (a & b & -> & Hb%IH). by constructor.
    + intros H. inversion H as [|? a b Hb|? ? ? Hx|? ? ? Hc]; subst; [|done].
      exists a, b. split; [done|]. by apply IH.
  - cbn [glob_match]. destruct (Ascii.eqb_spec p "*") as [|_]; [done|].
    destruct s as [|c s]; [split; [done|by inversion 1]|].
    rewrite andb_true_iff, orb_true_iff, !Ascii.eqb_eq, IH. split.
    + intros [[->| ->] Hm]; by constructor.
    + intros H. inversion H as [|? ? ? Hb Ep|? ? ? Hx|? ? ? Hc Hx]; subst; [done|auto..].
Qed.

(** ** Throttling *)

Section Facts.
  Context `{J : Json} `{E : Env} {St : Type} `{SL : StoreLaws St}.
  Context (transport : string -> ChannelConfig -> string -> FailureContext -> instant -> Sent).
  Context (alerts : AlertsConfig).

Definition same_throttle (w w' : World St) : Prop := w_throttle w' = w_throttle w.
#[local] Instance same_throttle_preorder : PreOrder same_throttle.
Proof. split; [done|]. intros a b c. unfold same_throttle. congruence. Qed.
Lemma throttle_call {A} (c : Call A) : keeps same_throttle (call c).
Proof. by intros w w' a (_ & _ & Ht & _)%call_eq. Qed.
Lemma throttle_uuid : keeps same_throttle new_uuid.
Proof. by intros w w' a [= <- _]. Qed.
Lemma throttle_now : keeps same_throttle utc_now.
Proof. by intros w w' a [= <- _]. Qed.
#[local] Hint Resolve throttle_call throttle_uuid throttle_now : croniq.

Lemma throttle_channels rule ctx now : keeps same_throttle (deliver_to_channels transport rule alerts ctx now).
Proof. unfold deliver_to_channels, dispatch, record_delivery. keeps_all. Qed.
Lemma throttle_override rule : keeps same_throttle (get_override rule).
Proof. unfold get_override. keeps_all. Qed.
Lemma throttle_held rule ctx st now : keeps same_throttle (held_back rule ctx st now).
Proof. unfold held_back, record_delivery. keeps_all. Qed.

(** A channel got the alert, whether or not it could deliver it. *)
Definition was_sent (d : AlertDelivery) : bool :=
  match ad_state d with DDelivered | DFailed => true | DThrottled | DAcknowledged => false end.

(** What a program answers. *)
Definition answers {A} (P : A -> Prop) (m : M St A) : Prop := forall w w' a, m w = (w', a) -> P a.
Lemma answers_bind {A B} (P : B -> Prop) (m : M St A) (k : A -> M St B) :
  (forall a, answers P (k a)) -> answers P (m ≫= k).
Proof. intros Hk w w' b (w1 & a & _ & Hrun)%bind_eq. by eapply Hk. Qed.
Lemma answers_collect {A B} (P : B -> Prop) (f : A -> M St (list B)) l :
  (forall x, answers (Forall P) (f x)) -> answers (Forall P) (collect f l).
Proof.
  intros Hf. induction l as [|x l IH]; [by intros w w' a [= _ <-]|].
  intros w w' r (w1 & a & Ha & Hrun)%bind_eq. apply bind_eq in Hrun as (w2 & b & Hb & [= _ <-]).
  apply Forall_app. split; [by eapply Hf|by eapply IH].
Qed.

Lemma channels_fired rule ctx now :
  answers (Forall (fun d => ad_fired_at d = now)) (deliver_to_channels transport rule alerts ctx now).
Proof.
  assert (forall d, ad_fired_at d = now ->
            answers (Forall (fun d => ad_fired_at d = now)) (record_delivery d)) as Hrec.
  { intros d Hd. unfold record_delivery. apply answers_bind. intros _ w w' a [= _ <-]. by constructor. }
  apply answers_collect. intros name. destruct (al_channels alerts !! name) as [ch|].
  2: { apply answers_bind. intros id. by apply Hrec. }
  intros w w' ds (w1 & d & Hd & Hrun)%bind_eq. eapply Hrec; [|exact Hrun]. clear Hrun.
  unfold dispatch in Hd. apply bind_eq in Hd as (w2 & id & _ & Hd).
  repeat (case_match; try discriminate); try (apply bind_eq in Hd as (? & ? & _ & Hd));
    by injection Hd as _ <-.
Qed.

Lemma held_not_sent rule ctx st now :
  st = DAcknowledged \/ st = DThrottled ->
  answers (Forall (fun d => was_sent d = false)) (held_back rule ctx st now).
Proof.
  intros Hst. unfold held_back, record_delivery. apply answers_bind. intros id. apply answers_bind.
  intros _ w w' a [= _ <-]. constructor; [|done]. unfold was_sent. cbn. by destruct Hst as [->| ->].
Qed.

(** The override the rule saw: the stored one, or none when the read failed. *)
Lemma override_read rule w w' ov :
  get_override rule w = (w', ov) -> tbl w' = tbl w /\ (ov = None \/ ov = tb_overrides (tbl w) !! ru_name rule).
Proof.
  intros (w1 & r & (Hrun & _)%call_eq & [= <- <-])%bind_eq. apply run_honours in Hrun. unfold tbl.
  destruct r as [o|[x|x|x]]; cbn in Hrun; [by destruct Hrun as [-> ->]; auto|by destruct Hrun..|].
  destruct Hrun as [->|[]]. auto.
Qed.

(** An alert that reached a channel was past its window, and opened the next. *)
Lemma sent_spec rule ctx w w' ds d :
  dispatch_rule transport rule alerts ctx w = (w', ds) -> d ∈ ds -> was_sent d = true ->
  let now := clock (w_clock w) in let key := (ru_name rule, fc_job_key ctx) in
  ad_fired_at d = now /\ w_throttle w' !! key = Some now
  /\ exists ov, (ov = None \/ ov = tb_overrides (tbl w) !! ru_name rule)
       /\ check_throttle (w_throttle w) (ru_name rule) (fc_job_key ctx) (throttle_window rule ov ctx now) now
          = TdFire.
Proof.
  intros Hrun Hd Hsent. cbv zeta. unfold dispatch_rule in Hrun.
  apply bind_eq in Hrun as (w1 & now & [= <- <-] & Hrun).
  apply bind_eq in Hrun as (w2 & ov & Hov & Hrun). pose proof (throttle_override _ _ _ _ Hov) as Ht2.
  apply override_read in Hov as [Et2 Hov]. unfold same_throttle in Ht2. cbn [w_throttle] in Ht2.
  destruct (match ov with Some o => _ | None => _ end).
  { injection Hrun as _ <-. by apply not_elem_of_nil in Hd. }
  apply bind_eq in Hrun as (w3 & ack & Hack & Hrun).
  assert (same_throttle w2 w3) as Ht3.
  { destruct (str_is_empty _); [by injection Hack as <- _|].
    apply bind_eq in Hack as (w4 & r & Hc & [= <- _]). by apply throttle_call in Hc. }
  destruct ack as [a|].
  { exfalso. apply bind_eq in Hrun as (w4 & u & _ & Hrun).
    apply held_not_sent in Hrun; [|by left]. rewrite Forall_forall in Hrun. specialize (Hrun d Hd). congruence. }
  apply bind_eq in Hrun as (w4 & thr & [= <- <-] & Hrun). unfold same_throttle in Ht3. rewrite Ht3, Ht2 in Hrun.
  destruct (check_throttle _ _ _ _ _) eqn:Ec.
  2: { exfalso. apply held_not_sent in Hrun; [|by right]. rewrite Forall_forall in Hrun.
       specialize (Hrun d Hd). congruence. }
  apply bind_eq in Hrun as (w5 & u & [= <- _] & Hrun).
  pose proof (throttle_channels _ _ _ _ _ _ Hrun) as Ht5. unfold same_throttle in Ht5.
  apply channels_fired in Hrun. rewrite Forall_forall in Hrun. split_and!; [by apply Hrun| |by exists ov].
  rewrite Ht5. cbn [w_throttle set_throttle]. by rewrite lookup_insert_eq.
Qed.

Lemma window_passed m rule job window now last :
  check_throttle m rule job (Some window) now = TdFire -> m !! (rule, job) = Some last -> 0 < window ->
  seconds window <= now - last.
Proof.
  unfold check_throttle, num_seconds, seconds, NS_SEC. intros Hc Hm Hw. rewrite Hm in Hc.
  destruct (Z.ltb_spec (Z.max (Z.quot (now - last) 1000000000) 0) window); [done|].
  destruct (Z.le_gt_cases 0 (now - last)); [|Z.to_euclidean_division_equations; lia].
  Z.to_euclidean_division_equations; lia.
Qed.

(** A throttle window spaces a rule's alerts: two alerts the same rule sent
    for the same job, with nothing in between that ended the incident, are at
    least the window apart, whatever the channels and the store did. (The alert
    that an acknowledgement ran out is exempt, and an operator's override
    replaces the window.) *)
Theorem throttled_alerts_are_spaced rule ctx1 ctx2 (w1 w1' w2 w2' : World St) ds1 ds2 d1 d2 s window :
  dispatch_rule transport rule alerts ctx1 w1 = (w1', ds1) ->
  dispatch_rule transport rule alerts ctx2 w2 = (w2', ds2) ->
  fc_job_key ctx2 = fc_job_key ctx1 ->
  w_throttle w2 !! (ru_name rule, fc_job_key ctx1) = w_throttle w1' !! (ru_name rule, fc_job_key ctx1) ->
  d1 ∈ ds1 -> was_sent d1 = true -> d2 ∈ ds2 -> was_sent d2 = true ->
  tb_overrides (tbl w2) !! ru_name rule = None -> fc_reason ctx2 <> ACK_EXPIRED_REASON ->
  ru_throttle rule = Some s -> parse_throttle_secs s = Some window -> 0 < window ->
  seconds window <= ad_fired_at d2 - ad_fired_at d1.
Proof.
  intros H1 H2 Hjob Hthr Hd1 Hs1 Hd2 Hs2 Hov Hre Ht Hp Hw.
  apply (sent_spec _ _ _ _ _ d1) in H1 as (-> & Hopen & _); [|done..].
  apply (sent_spec _ _ _ _ _ d2) in H2 as (-> & _ & ov & Hov2 & Hc); [|done..].
  assert (ov = None) as -> by (destruct Hov2; congruence).
  unfold throttle_window in Hc. cbn in Hc. rewrite Ht in Hc. cbn in Hc. rewrite Hp in Hc.
  destruct (String.eqb_spec (fc_reason ctx2) ACK_EXPIRED_REASON); [done|]. rewrite Hjob in Hc.
  eapply window_passed; [exact Hc| |done]. congruence.
Qed.
End Facts.

(** While a job's failure is acknowledged, its alerts reach no channel and
    open no throttle window: each is recorded as held back. *)
Theorem acknowledged_job_is_quiet `{J : Json} `{E : Env} transport alerts rule ctx
    (w w' : World SqliteStore) ds ack :
  faultless (w_store w) -> tb_acks (tbl w) !! fc_job_key ctx = Some ack -> fc_job_key ctx <> "" ->
  ack_is_active ack (clock (w_clock w)) = true ->
  dispatch_rule transport rule alerts ctx w = (w', ds) ->
  Forall (fun d => was_sent d = false) ds /\ w_throttle w' = w_throttle w.
Proof.
  intros Hs Hack Hjob Hact Hrun. unfold dispatch_rule in Hrun.
  apply bind_eq in Hrun as (w1 & now & [= <- <-] & Hrun).
  apply bind_eq in Hrun as (w2 & ov & Hov & Hrun).
  pose proof (throttle_override _ _ _ _ Hov) as Ht2. pose proof (override_read _ _ _ _ Hov) as [Et2 _].
  unfold get_override in Hov. apply bind_eq in Hov as (w2' & r & Hc & Hret).
  apply call_ok_store in Hc as Hs2; [|exact Hs]. injection Hret as -> _.
  destruct (match ov with Some o => _ | None => _ end); [by injection Hrun as <- <-|].
  apply bind_eq in Hrun as (w3 & a & Ha & Hrun).
  destruct (str_is_empty (fc_job_key ctx)) eqn:Ee; [by destruct (fc_job_key ctx)|].
  apply bind_eq in Ha as (w4 & r4 & Hc4 & [= <- <-]).
  pose proof (throttle_call _ _ _ _ Hc4) as Ht4.
  apply call_faultless in Hc4 as (_ & _ & o & -> & _ & ->); [|done..].
  change (tbl (MkWorld _ _ _ _ _)) with (tbl w) in Et2. rewrite Et2, Hack, Hact in Hrun.
  apply bind_eq in Hrun as (w5 & u & Hsup & Hrun).
  assert (same_throttle w4 w5) as Ht5.
  { destruct (str_is_empty (fc_execution_id ctx)); [by injection Hsup as <- _|]. by apply throttle_call in Hsup. }
  pose proof (throttle_held _ _ _ _ _ _ _ Hrun) as Ht6. split; [by eapply held_not_sent; [left|exact Hrun]|].
  unfold same_throttle in *. cbn [w_throttle] in Ht2. congruence.
Qed.

(** ** Examples *)

(** A rule that pages once in half a minute, and a failure it matches. *)
Definition demo_rule : RuleConfig := {|
  ru_name := "page"; ru_trigger := JobFailed; ru_job_key_glob := "web:*"; ru_min_attempts := 0;
  ru_dead_letter_only := false; ru_min_consecutive := 1; ru_throttle := Some "30s";
  ru_expected_within := None; ru_channels := ["ops"] |}.
Definition demo_alerts : AlertsConfig := {|
  al_channels := {["ops" := {| cc_name := "ops"; cc_kind := ChShell "page-me" |}]};
  al_rules := [demo_rule] |}.
Definition demo_failure_ctx (exec : string) : FailureContext := {|
  fc_job_key := "web:hook"; fc_execution_id := exec; fc_error := "boom"; fc_attempt := 1;
  fc_reason := DEAD_LETTER_REASON; fc_consecutive := 1 |}.

(** The rule at the [n]th reading of the clock, with the windows [thr] open. *)
Definition demo_alert_world (n : nat) (thr : gmap (string * string) instant) (acks : list JobAlertAck)
    : World SqliteStore := {|
  w_store := MkSqlite (set_acks (list_to_map (map (fun a => (ak_job_key a, a)) acks)) (demo_tables [])) [];
  w_app := app_new 0; w_throttle := thr; w_clock := n; w_ids := n |}.
Abbreviation demo_alert w exec :=
  (dispatch_rule (fun _ _ _ _ _ => SDelivered) demo_rule demo_alerts (demo_failure_ctx exec) w).

(** The second alert comes after forty seconds. *)
Abbreviation demo_first := (demo_alert (demo_alert_world 0 ∅ []) "a").
Abbreviation demo_second := (demo_alert (demo_alert_world 40 (w_throttle demo_first.1) []) "b").

Lemma all_sent ds d : forallb was_sent ds = true -> d ∈ ds -> was_sent d = true.
Proof. rewrite forallb_forall. intros H Hd. by apply H, list_elem_of_In. Qed.

Lemma throttled_alerts_are_spaced_witness :
  length demo_first.2 = 1%nat /\ length demo_second.2 = 1%nat
  /\ forall d1 d2, d1 ∈ demo_first.2 -> d2 ∈ demo_second.2 -> seconds 30 <= ad_fired_at d2 - ad_fired_at d1.
Proof.
  split; [vm_compute; reflexivity|]. split; [vm_compute; reflexivity|]. intros d1 d2 Hd1 Hd2.
  apply (throttled_alerts_are_spaced (fun _ _ _ _ _ => SDelivered) demo_alerts demo_rule (demo_failure_ctx "a")
           (demo_failure_ctx "b") (demo_alert_world 0 ∅ []) demo_first.1
           (demo_alert_world 40 (w_throttle demo_first.1) []) demo_second.1
           demo_first.2 demo_second.2 d1 d2 "30s" 30).
  - apply surjective_pairing.
  - apply surjective_pairing.
  - reflexivity.
  - reflexivity.
  - exact Hd1.
  - apply (all_sent demo_first.2); [vm_compute; reflexivity|exact Hd1].
  - exact Hd2.
  - apply (all_sent demo_second.2); [vm_compute; reflexivity|exact Hd2].
  - reflexivity.
  - discriminate.
  - reflexivity.
  - vm_compute; reflexivity.
  - lia.
Defined.

Definition demo_ack : JobAlertAck := {|
  ak_job_key := "web:hook"; ak_note := ""; ak_acked_by := "u1"; ak_acked_by_name := "Ada";
  ak_acked_at := 0; ak_expires_at := seconds 3600; ak_suppressed_count := 0;
  ak_last_execution_id := None; ak_last_error := None; ak_last_suppressed_at := None |}.

Lemma acknowledged_job_is_quiet_witness :
  let '(w', ds) := demo_alert (demo_alert_world 0 ∅ [demo_ack]) "a" in
  Forall (fun d => was_sent d = false) ds /\ w_throttle w' = ∅.
Proof.
  destruct (demo_alert (demo_alert_world 0 ∅ [demo_ack]) "a") as [w' ds] eqn:H1.
  apply (acknowledged_job_is_quiet (fun _ _ _ _ _ => SDelivered) demo_alerts demo_rule (demo_failure_ctx "a")
           (demo_alert_world 0 ∅ [demo_ack]) w' ds demo_ack); [reflexivity|reflexivity|discriminate|reflexivity|exact H1].
Defined.
