(* ===== verification/Completion.v ===== *)
(** * Completion processing

    Models [croniq-server/src/completion.rs]: what the server decides from the
    result a runner reports. The jitter of a retry delay is an argument, one
    draw per completion. *)

From S2P Require Import Prelude RustStr Chrono RunnerTypes Queue Registry RunnerApi.
From S2P Require Import Durations Execution JobConfig Store StoreCalls Server Alerts Requeue Dispatch.

Local Open Scope string_scope.
Local Open Scope Z_scope.

Inductive ProcessedOutcome :=
| PCompleted
| PRetrying (attempt : Z)
| PDeadLettered (reason : string)
| PDropped (reason : string)
| PEphemeral
| PNotFound
| PUnrecorded
| PStale.

(** [Duration::from_millis], and [chrono::Duration::from_std]: [None] past
    the [i64] milliseconds chrono stores. *)
Definition from_millis (ms : Z) : Duration := ms * NS_MS.
Definition chrono_from_std (d : Duration) : option Z :=
  if d <=? I64_MAX * NS_MS then Some d else None.

(** What [Display] prints for a [StoreError]. *)
Definition show_store_error (e : StoreError) : string :=
  match e with
  | NotFound w => "not found: " ++ w
  | Conflict w => "conflict: " ++ w
  | Database w => "database error: " ++ w
  end.

Section Processor.
  Context `{J : Json} `{E : Env} {St : Type} `{SO : StoreOps St}.
  Context (transport : string -> ChannelConfig -> string -> FailureContext -> instant -> Sent).
  (** The Croniqfile's jobs as of this completion, and the alert rules. *)
  Context (jobs : list JobConfig) (alerts : AlertsConfig).

(** [CompletionProcessor::resolve_job_config] *)
Definition resolve_job_config (key : string) : M St (option JobConfig) :=
  match find (fun j => String.eqb (jc_key j) key) jobs with
  | Some job => mret (Some job)
  | None =>
      r ← call (GetJobDefinition key);
      mret match r with Ok (Some def) => Some (job_config_from_job_def def) | _ => None end
  end.

(** [fire_alerts] *)
Definition fire_alerts (job_key : string) (event : CompletionEvent) (reason : string) : M St unit :=
  let error := default "unknown" (ce_error event) in
  now ← utc_now;
  r ← call (RecordJobFailure job_key (ce_execution_id event) error now);
  let consecutive := match r with Ok streak => fs_consecutive streak | Err _ => 1 end in
  match al_rules alerts with
  | [] => mret tt
  | _ =>
      _ ← evaluate_failure transport alerts
            {| fc_job_key := job_key; fc_execution_id := ce_execution_id event; fc_error := error;
               fc_attempt := ce_attempt event; fc_reason := reason;
               fc_consecutive := consecutive |};
      mret tt
  end.

(** [end_incident] *)
Definition end_incident (job_key execution_id : string) : M St unit :=
  r ← call (TakeStreak job_key);
  let streak := match r with Ok s => s | Err _ => None end in
  r ← call (TakeAck job_key);
  let ack := match r with Ok a => a | Err _ => None end in
  match streak, ack with
  | None, None => mret tt
  | _, _ =>
      _ ← match ack with
          | Some _ => record_event "system" None "alerts.ack.recovered" "job" (Some job_key)
          | None => mret tt
          end;
      _ ← send_recovery transport alerts ack streak execution_id;
      mret tt
  end.

(** The row and the work item of a retry. *)
Definition retry_execution (id : string) (ex : Execution) (fire_at now : instant) (attempt : Z)
    : Execution := {|
  ex_id := id; ex_job_key := ex_job_key ex; ex_fire_at := fire_at;
  ex_scheduled_for := ex_scheduled_for ex; ex_attempt := attempt; ex_state := EQueued;
  ex_runner_id := None; ex_claimed_at := None; ex_started_at := None; ex_completed_at := None;
  ex_duration_ms := None; ex_error := None; ex_dead_reason := None;
  ex_idempotency_key := ex_idempotency_key ex; ex_metadata := ex_metadata ex;
  ex_created_at := now |}.
Definition retry_item (id : string) (ex : Execution) (job : JobConfig) (fire_at_ : instant)
    (attempt_ : Z) : WorkItem := {|
  execution_id := id; wi_job_key := ex_job_key ex; fire_at := fire_at_;
  scheduled_for := ex_scheduled_for ex; attempt := attempt_;
  require := rc_require (jc_runner job); prefer := rc_prefer (jc_runner job);
  metadata := of_map (ex_metadata ex);
  timeout := effective_timeout (ex_metadata ex) (jc_timeout job); is_ephemeral := false |}.

Definition dead_letter_of (id : string) (ex : Execution) (exec_uuid : string)
    (event : CompletionEvent) (dead_reason : string) (now : instant) (expires : option instant)
    : DeadLetter := {|
  dl_id := id; dl_execution_id := exec_uuid; dl_job_key := ex_job_key ex;
  dl_fire_at := ex_fire_at ex; dl_scheduled_for := ex_scheduled_for ex;
  dl_attempt := ex_attempt ex; dl_error := default "" (ce_error event);
  dl_dead_reason := dead_reason; dl_metadata := ex_metadata ex; dl_created_at := now;
  dl_expires_at := expires |}.

(** The arm [ExecutionOutcome::Retry], after the attempt is marked failed. *)
Definition spawn_retry (event : CompletionEvent) (exec_uuid : string) (ex : Execution)
    (job : JobConfig) (now : instant) (next_attempt : Z) (delay : Duration)
    : M St ProcessedOutcome :=
  let policy := job_to_execution_policy job in
  let retry_fire_at := now + default 0 (chrono_from_std delay) in
  retry_id ← new_uuid;
  r ← call (CreateExecution (retry_execution retry_id ex retry_fire_at now next_attempt));
  match r with
  | Ok _ =>
      _ ← enqueue_item (retry_item retry_id ex job retry_fire_at next_attempt);
      mret (PRetrying next_attempt)
  | Err e =>
      let reason := "retry attempt " ++ show_uint next_attempt ++ " could not be persisted: "
                    ++ show_store_error e in
      dead_lettered ←
        (if dl_enabled (ep_dead_letter policy) then
           dl_id ← new_uuid;
           r ← call (CompleteAsDead exec_uuid (Some (ce_runner_id event))
                       (Some (wrap_i64 (ce_duration_ms event))) (ce_error event)
                       (dead_letter_of dl_id ex exec_uuid event reason now
                          (expires_at (ep_dead_letter policy) now)) now);
           mret match r with Ok b => b | Err _ => false end
         else mret false);
      _ ← fire_alerts (ex_job_key ex) event
            (if (dead_lettered : bool) then DEAD_LETTER_REASON else DROPPED_REASON);
      mret (if (dead_lettered : bool) then PDeadLettered reason else PDropped reason)
  end.

(** [complete_execution] with the fence and the fields of this event. *)
Definition finish (event : CompletionEvent) (exec_uuid : string) (st : ExecutionState)
    (error dead_reason : option string) (now : instant) : M St (result bool StoreError) :=
  call (CompleteExecution exec_uuid (Some (ce_runner_id event)) st
          (Some (wrap_i64 (ce_duration_ms event))) error dead_reason now).

Definition dead_reason_of (reason : string) (hint : option string) : string :=
  let hint := default "" hint in
  if str_is_empty hint then reason else reason ++ " — " ++ hint.

(** What each outcome of the policy does. *)
Definition apply_outcome (event : CompletionEvent) (exec_uuid : string) (ex : Execution)
    (job : JobConfig) (now : instant) (outcome : ExecutionOutcome) : M St ProcessedOutcome :=
  match outcome with
  | OSuccess =>
      r ← finish event exec_uuid ECompleted None None now;
      match r with
      | Ok true => _ ← end_incident (ex_job_key ex) (ce_execution_id event); mret PCompleted
      | Ok false => mret PStale
      | Err _ => mret PUnrecorded
      end
  | ORetry next_attempt delay =>
      r ← finish event exec_uuid EFailed (ce_error event) None now;
      match r with
      | Ok true => spawn_retry event exec_uuid ex job now next_attempt delay
      | Ok false => mret PStale
      | Err _ => mret PUnrecorded
      end
  | ODeadLetter reason hint expires_after =>
      let expires := (fun d => now + default 0 (chrono_from_std d)) <$> expires_after in
      dl_id ← new_uuid;
      r ← call (CompleteAsDead exec_uuid (Some (ce_runner_id event))
                  (Some (wrap_i64 (ce_duration_ms event))) (ce_error event)
                  (dead_letter_of dl_id ex exec_uuid event (dead_reason_of reason hint) now expires)
                  now);
      match r with
      | Ok false => mret PStale
      | Ok true | Err _ =>
          _ ← fire_alerts (ex_job_key ex) event DEAD_LETTER_REASON;
          mret (PDeadLettered reason)
      end
  | ODropped reason =>
      r ← finish event exec_uuid EFailed (ce_error event) (Some reason) now;
      match r with
      | Ok false => mret PStale
      | Ok true | Err _ =>
          _ ← fire_alerts (ex_job_key ex) event DROPPED_REASON;
          mret (PDropped reason)
      end
  | OCancelled =>
      _ ← finish event exec_uuid ECancelled None None now;
      mret PCompleted
  end.

(** [CompletionProcessor::process]; [random] is the jitter draw. *)
Definition process (random : f64) (event : CompletionEvent) : M St ProcessedOutcome :=
  now ← utc_now;
  match parse_uuid (ce_execution_id event) with
  | None => mret PNotFound
  | Some exec_uuid =>
      r ← call (GetExecution exec_uuid);
      match r with
      | Err _ => mret PNotFound
      | Ok None =>
          eph ← update_app (fun a => take_ephemeral a (ce_execution_id event));
          mret (if eph : bool then PEphemeral else PNotFound)
      | Ok (Some ex) =>
          job ← resolve_job_config (ex_job_key ex);
          match job with
          | None => mret PNotFound
          | Some job =>
              if bool_decide (ce_status event = CCancelled) then
                _ ← finish event exec_uuid ECancelled None None now;
                mret PCompleted
              else
                let outcome := evaluate_outcome random (job_to_execution_policy job)
                  {| er_success := bool_decide (ce_status event = CSuccess);
                     er_error := ce_error event;
                     er_duration := from_millis (ce_duration_ms event);
                     er_attempt := ce_attempt event |} in
                apply_outcome event exec_uuid ex job now outcome
          end
      end
  end.
End Processor.
