(* ===== verification/Reload.v ===== *)
(** * Reloading the configuration

    Models [croniq-server/src/reload.rs] and the part of [main.rs] that puts the
    jobs together at boot: the plan built from the file and the store, its diff
    against the running state, the settings only a restart applies, and the plan
    applied to the scheduler. The loaded file is the answer of [load_file]; the
    hash of the alert rules is a parameter. *)

From S2P Require Import Prelude RustStr Chrono Ast Schedule Calendar Trigger TriggerSearch TriggerMachine Durations Execution RunnerTypes Queue Registry RunnerApi.
From S2P Require Import Store StoreCalls Alerts JobConfig Restore Quota RegisterFire Scheduler Compile BlockDirectives Validate ValidateFacts ScheduleInput Loader LoaderFacts Completion.

Local Open Scope string_scope.
Local Open Scope Z_scope.

Record ReloadDiff := MkDiff {
  rd_added : list string;
  rd_removed : list string;
  rd_changed : list string;
  rd_total : Z
}.

(** [ReloadDiff::is_noop] *)
Definition is_noop (d : ReloadDiff) : bool :=
  match rd_added d, rd_removed d, rd_changed d with [], [], [] => true | _, _, _ => false end.

(** [ReloadError], without the path and the position. *)
Inductive ReloadError :=
| ReadFile (source : string)
| Validation (message : string)
| StoreFailed (message : string).

(** [job_changed] *)
Definition job_changed (a b : JobConfig) : bool :=
  negb (bool_decide (jc_schedule_summary a = jc_schedule_summary b))
  || negb (bool_decide (jc_timezone a = jc_timezone b))
  || negb (bool_decide (jc_timeout a = jc_timeout b))
  || negb (bool_decide (jc_calendar a = jc_calendar b))
  || negb (bool_decide (jc_window a = jc_window b))
  || negb (bool_decide (jc_not_before a = jc_not_before b))
  || negb (bool_decide (jc_not_after a = jc_not_after b))
  || negb (rcf_max_attempts (jc_retry a) =? rcf_max_attempts (jc_retry b))
  || negb (bool_decide (jc_execution_mode a = jc_execution_mode b))
  || negb (bool_decide (jc_catch_up a = jc_catch_up b))
  || negb (Bool.eqb (dlc_enabled (jc_dead_letter a)) (dlc_enabled (jc_dead_letter b))).

(** ** Settings of the boot *)

Record PendingRestart := MkPendingRestart {
  pr_setting : string;
  pr_running : option string;
  pr_pending : option string
}.

(** [BootOnlySettings]: a [BTreeMap] from the path of a setting to its text. *)
Definition BootOnlySettings : Type := gmap string string.

Definition show_bool (b : bool) : string := if b then "true" else "false".

Definition put (k : string) (v : option string) (m : BootOnlySettings) : BootOnlySettings :=
  match v with Some v => <[k := v]> m | None => m end.
Definition put_all (l : list (string * option string)) (m : BootOnlySettings) : BootOnlySettings :=
  foldl (fun m kv => put kv.1 kv.2 m) m l.
(** A block that may be absent. *)
Definition settings_of {A} (o : option A) (f : A -> list (string * option string)) : list (string * option string) :=
  match o with Some x => f x | None => [] end.

Section BootOnly.
  (** [alerts_fingerprint]: the counts and a hash of the rules *)
  Context (alerts_fingerprint : AlertsConfig -> string).

(** [BootOnlySettings::from_runtime] *)
Definition from_runtime (rt : RuntimeConfig) : BootOnlySettings :=
  put_all
    ([("server.listen", Some (sc_listen (rt_server rt)));
      ("server.data_dir", Some (sc_data_dir (rt_server rt)));
      ("server.db", Some (sc_db (rt_server rt)));
      ("server.app_url", sc_app_url (rt_server rt));
      ("server.execution_retention", sc_execution_retention (rt_server rt))]
     ++ settings_of (rt_pull_api rt) (fun p =>
          [("pull_api.listen", Some (pa_listen p));
           ("pull_api.lease_ttl", Some (pa_lease_ttl p));
           ("pull_api.trigger_dedup_window", Some (pa_trigger_dedup_window p));
           ("pull_api.runner_identity_binding", Some (pa_runner_identity_binding p))])
     ++ settings_of (rt_observability rt) (fun o =>
          settings_of (ob_log o) (fun l =>
            [("observability.log.level", Some (lg_level l));
             ("observability.log.format", Some (lg_format l));
             ("observability.log.output", Some (lg_output l))])
          ++ settings_of (ob_metrics o) (fun me =>
            [("observability.metrics.listen", Some (me_listen me));
             ("observability.metrics.path", Some (me_path me))]))
     ++ settings_of (rt_mcp rt) (fun mc =>
          [("mcp.enabled", Some (show_bool (mc_enabled mc)));
           ("mcp.allowed_hosts", Some (str_join " " (mc_allowed_hosts mc)))])
     ++ settings_of (rt_oidc rt) (fun o =>
          [("oidc.issuer", od_issuer o); ("oidc.client_id", od_client_id o);
           ("oidc.redirect_url", od_redirect_url o); ("oidc.default_role", od_default_role o);
           ("oidc.provider_name", od_provider_name o); ("oidc.post_login_redirect", od_post_login_redirect o)])
     ++ settings_of (rt_smtp rt) (fun s =>
          [("smtp.host", sd_host s); ("smtp.port", show_uint <$> sd_port s);
           ("smtp.security", sd_security s); ("smtp.from", sd_from s)])
     ++ [("auth.password.enabled", show_bool <$> au_password_enabled (rt_auth rt));
         ("auth.totp.required", show_bool <$> au_totp_required (rt_auth rt));
         ("alerts", Some (alerts_fingerprint (rt_alerts rt)))])%list ∅.
End BootOnly.

(** [BootOnlySettings::changes_vs]: the union of the keys is [sort] and [dedup]. *)
Definition changes_vs (running pending : BootOnlySettings) : list PendingRestart :=
  map (fun setting => MkPendingRestart setting (running !! setting) (pending !! setting))
    (List.filter (fun k => negb (bool_decide (running !! k = pending !! k)))
       (sort_strings (elements (dom running ∪ dom pending)))).

(** ** The plan *)

(** [DslAdoption], by its key *)
Record DslAdoption := { da_resource_type : string; da_resource_key : string }.

(** What the store answers while a plan is built. *)
Record StoreView := {
  sv_adoptions : string -> result (list DslAdoption) StoreError;
  sv_calendars : result (list CalendarDefinition) StoreError;
  sv_triggers : result (list TriggerDefinition) StoreError;
  sv_job_definition : string -> result (option JobDefinition) StoreError
}.

Section Plan.
  Context `{C : Chrono}.
  Context (TZ_VARIANTS : list string) (visit : gset string -> list string).
  Context (env_var : string -> option string) (read_file : string -> result string string).
  Context (exec_json : RunnerExec -> option string) (to_rfc3339 : instant -> string).
  Context (alerts_fingerprint : AlertsConfig -> string).

Record ReloadPlan := MkPlan {
  pl_dsl_jobs : list JobConfig;
  pl_dsl_calendars : list CalendarConfig;
  pl_policy_dsl_adopt_on_mutate : bool;
  pl_policy_strict_calendars : bool;
  pl_merged_jobs : list JobConfig;
  pl_merged_triggers : gmap string Trigger;
  pl_calendar_faults : gmap string string;
  pl_diff : ReloadDiff;
  pl_boot_only : BootOnlySettings
}.

(** The [map_err] on [load_file]; the last case is the failed [expect] of the
    loader, a panic. *)
Definition load_failed (e : LoadError) : ReloadError :=
  match e with
  | LoadIo err => ReadFile err
  | LoadParse message => Validation message
  | LoadTimezone job reason => Validation ("invalid timezone in job '" ++ job ++ "': " ++ reason)
  | LoadValidate messages => Validation (str_join "; " messages)
  | LoadPanic message => Validation message
  end.
Definition store_failed (e : StoreError) : ReloadError := StoreFailed (show_store_error e).

Definition keys_of (l : list DslAdoption) : gset string := list_to_set (map da_resource_key l).

(** The DSL's share, without what the store has adopted. *)
Definition own_jobs (adopted : gset string) (l : list JobConfig) : list JobConfig :=
  List.filter (fun j => negb (bool_decide (jc_key j ∈ adopted))) l.
Definition own_triggers (adopted : gset string) (m : gmap string Trigger) : gmap string Trigger :=
  filter (fun kt => kt.1 ∉ adopted) m.
Definition own_calendars (adopted : gset string) (l : list CalendarConfig) : list CalendarConfig :=
  List.filter (fun c => negb (bool_decide (Calendar.cc_name c ∈ adopted))) l.

(** The locals of the loop over the stored triggers. *)
Record Merge := MkMerge {
  mg_jobs : list JobConfig;
  mg_triggers : gmap string Trigger;
  mg_faults : gmap string string
}.

Definition merge_row (dsl_keys : gset string) (get_job_definition : string -> result (option JobDefinition) StoreError)
    (resolved : ResolvedCalendars) (now : instant) (m : Merge) (def : TriggerDefinition) : result Merge ReloadError :=
  if String.eqb (td_managed_by def) "dsl" || negb (td_enabled def) then Ok m
  else if bool_decide (td_job_key def ∈ dsl_keys) then Ok m
  else res_bind (map_err store_failed (get_job_definition (td_job_key def))) (fun job_def =>
    if match job_def with Some j => negb (jd_is_active j) | None => false end then Ok m
    else Ok match trigger_from_definition TZ_VARIANTS def resolved now with
            | None => m
            | Some built =>
                MkMerge (mg_jobs m ++ [job_config_from_definition to_rfc3339 def job_def])%list
                  (<[td_job_key def := bt_trigger built]> (mg_triggers m))
                  (match bt_config_fault built with
                   | Some reason => <[td_job_key def := reason]> (mg_faults m)
                   | None => mg_faults m
                   end)
            end).
Fixpoint merge_rows (dsl_keys : gset string) (get_job_definition : string -> result (option JobDefinition) StoreError)
    (resolved : ResolvedCalendars) (now : instant) (m : Merge) (rows : list TriggerDefinition)
    : result Merge ReloadError :=
  match rows with
  | [] => Ok m
  | def :: rows =>
      res_bind (merge_row dsl_keys get_job_definition resolved now m def)
        (fun m => merge_rows dsl_keys get_job_definition resolved now m rows)
  end.

(** The block that computes the diff. *)
Definition plan_diff (merged_triggers current : gmap string Trigger) (merged_jobs current_dsl : list JobConfig)
    : ReloadDiff :=
  let by_key := jobs_by_key current_dsl in
  MkDiff (sort_strings (elements (dom merged_triggers ∖ dom current)))
    (sort_strings (elements (dom current ∖ dom merged_triggers)))
    (sort_strings (map jc_key (List.filter (fun j =>
       match by_key !! jc_key j with Some old => job_changed old j | None => false end) merged_jobs)))
    (Z.of_nat (size merged_triggers)).

(** [build_plan]; the running state is read after the store. *)
Definition build_plan (file : result LoadedConfig LoadError) (st : StoreView) (now : instant)
    (current_triggers : gmap string Trigger) (current_dsl_jobs : list JobConfig) : result ReloadPlan ReloadError :=
  res_bind (map_err load_failed file) (fun loaded =>
  let rt := lc_runtime loaded in
  res_bind (map_err store_failed (sv_adoptions st "job")) (fun adopted_jobs =>
  let dsl_jobs := own_jobs (keys_of adopted_jobs) (rt_jobs rt) in
  let dsl_keys := list_to_set (map jc_key dsl_jobs) : gset string in
  res_bind (map_err store_failed (sv_adoptions st "calendar")) (fun adopted_calendars =>
  let dsl_calendars := own_calendars (keys_of adopted_calendars) (rt_calendars rt) in
  res_bind (map_err store_failed (sv_calendars st)) (fun calendars =>
  let resolved := resolve_calendars TZ_VARIANTS visit env_var read_file exec_json dsl_calendars calendars
                    (po_strict_calendars (rt_policy rt)) in
  res_bind (map_err store_failed (sv_triggers st)) (fun api_triggers =>
  res_bind (merge_rows dsl_keys (sv_job_definition st) resolved now
              (MkMerge dsl_jobs (own_triggers (keys_of adopted_jobs) (lc_triggers loaded)) ∅) api_triggers) (fun m =>
  Ok (MkPlan dsl_jobs dsl_calendars (po_dsl_adopt_on_mutate (rt_policy rt)) (po_strict_calendars (rt_policy rt))
        (mg_jobs m) (mg_triggers m)
        (mg_faults m ∪ filter (fun kf => is_Some (mg_triggers m !! kf.1)) (lc_calendar_faults loaded))
        (plan_diff (mg_triggers m) current_triggers (mg_jobs m) current_dsl_jobs)
        (from_runtime alerts_fingerprint rt)))))))).

(** ** The boot ([main.rs])

    The same steps, but for the errors of the store: adoptions and calendars it
    cannot list are none, triggers it cannot list are left out. *)
Definition boot_jobs (loaded : LoadedConfig) (st : StoreView) (now : instant) : result BootJobs StoreError :=
  let rt := lc_runtime loaded in
  let adopted kind := keys_of (default [] (res_ok (sv_adoptions st kind))) in
  let b := {| bj_jobs := own_jobs (adopted "job") (rt_jobs rt);
              bj_triggers := own_triggers (adopted "job") (lc_triggers loaded);
              bj_faults := lc_calendar_faults loaded |} in
  match sv_triggers st with
  | Err _ => Ok b
  | Ok rows =>
      let resolved := resolve_calendars TZ_VARIANTS visit env_var read_file exec_json
                        (own_calendars (adopted "calendar") (rt_calendars rt))
                        (default [] (res_ok (sv_calendars st))) (po_strict_calendars (rt_policy rt)) in
      reconcile_rows TZ_VARIANTS to_rfc3339 (sv_job_definition st) resolved now b rows
  end.
End Plan.

(** ** Applying a plan *)

Section Apply.
  Context `{C : Chrono} `{J : Json} `{F : Fingerprint} {St : Type} `{JS : JobStore St}.

(** The shared handles a reload replaces. *)
Record Shared := MkShared {
  sh_dsl_jobs : list JobConfig;
  sh_dsl_calendars : list CalendarConfig;
  sh_policy_dsl_adopt : bool;
  sh_policy_strict_calendars : bool;
  sh_trigger_snapshot : gmap string Trigger;
  sh_config_faults : gmap string string
}.

Definition share (plan : ReloadPlan) (post_triggers : gmap string Trigger) : Shared :=
  MkShared (pl_dsl_jobs plan) (pl_dsl_calendars plan) (pl_policy_dsl_adopt_on_mutate plan)
    (pl_policy_strict_calendars plan) post_triggers (pl_calendar_faults plan).

(** [apply_plan_direct], inside the scheduler task *)
Definition apply_plan_direct (plan : ReloadPlan) (scheduler : SchedulerLoop) (now : instant) : SchedulerLoop * Shared :=
  let scheduler := reload scheduler (pl_merged_triggers plan) (pl_merged_jobs plan) now in
  (scheduler, share plan (triggers scheduler)).

Inductive ApplyError := SchedulerDown.

(** [apply_plan]: the command, the scheduler task's answer and the handles; a
    task that is gone leaves them as they are. *)
Definition apply_plan (plan : ReloadPlan) (running : bool) (scheduler : SchedulerLoop) (shared : Shared) (now : instant)
    : SchedulerLoop * Shared * result unit ApplyError :=
  if running then
    let scheduler := apply_command scheduler (Reload (pl_merged_triggers plan) (pl_merged_jobs plan)) now in
    (scheduler, share plan (triggers scheduler), Ok tt)
  else (scheduler, shared, Err SchedulerDown).
End Apply.

(** ** A reload against a restart

    the jobs a plan puts into the scheduler are those a boot
    from the same file and store would, the diff names exactly what applying it
    changes, a running job keeps its pending fire, and the settings reported as
    pending are exactly those that differ. *)

Local Open Scope list_scope.
Local Open Scope Z_scope.

(** ** Sorted keys *)

Lemma insert_sorted_elem x y l : y ∈ insert_sorted x l <-> y = x \/ y ∈ l.
Proof.
  induction l as [|z l IH]; cbn [insert_sorted]; [by rewrite list_elem_of_singleton, elem_of_nil; tauto|].
  case_if; rewrite !elem_of_cons; [done|]. rewrite IH. tauto.
Qed.

Lemma sort_strings_elem y l : y ∈ sort_strings l <-> y ∈ l.
Proof.
  unfold sort_strings. induction l as [|x l IH]; cbn [fold_right]; [done|].
  by rewrite insert_sorted_elem, IH, elem_of_cons.
Qed.

(** ** The plan and the boot *)

(** The rows a boot and a reload look at. *)
Definition eligible (def : TriggerDefinition) : Prop := td_managed_by def <> "dsl" /\ td_enabled def = true.
#[export] Instance eligible_dec def : Decision (eligible def).
Proof. unfold eligible. apply _. Defined.

Lemma not_eligible def : String.eqb (td_managed_by def) "dsl" || negb (td_enabled def) = true <-> ~ eligible def.
Proof.
  unfold eligible. rewrite orb_true_iff, String.eqb_eq, negb_true_iff. destruct (td_enabled def);
    destruct (decide (td_managed_by def = "dsl")); intuition congruence.
Qed.

Section PlanFacts.
  Context `{C : Chrono}.
  Context (TZ_VARIANTS : list string) (visit : gset string -> list string).
  Context (env_var : string -> option string) (read_file : string -> result string string).
  Context (exec_json : RunnerExec -> option string) (to_rfc3339 : instant -> string).
  Context (alerts_fingerprint : AlertsConfig -> string).
Let load := load_ast TZ_VARIANTS visit env_var read_file exec_json.
Let build := build_plan TZ_VARIANTS visit env_var read_file exec_json to_rfc3339 alerts_fingerprint.
Let boot := boot_jobs TZ_VARIANTS visit env_var read_file exec_json to_rfc3339.

(** The triggers of a loaded file are those of its jobs. *)
Lemma load_jobs_dom resolved now asts js trs fs trs' fs' :
  load_jobs TZ_VARIANTS resolved now asts js trs fs = Ok (trs', fs') ->
  dom trs' = dom trs ∪ list_to_set (map jc_key js).
Proof.
  revert trs fs. induction js as [|j js IH]; intros trs fs; cbn [load_jobs].
  { intros [= <- <-]. set_solver. }
  destruct (List.find _ asts) as [a|]; [|done].
  destruct (load_job TZ_VARIANTS resolved now a j) as [[t reasons]|]; [|done]. cbn [res_bind].
  intros H. apply IH in H. rewrite H, dom_insert_L. cbn [map list_to_set]. set_solver.
Qed.

Lemma loaded_keys ast now cfg :
  load ast now = Ok cfg -> dom (lc_triggers cfg) = list_to_set (map jc_key (rt_jobs (lc_runtime cfg))).
Proof.
  unfold load, load_ast, load_from_compiled.
  destruct (validate_ast TZ_VARIANTS visit ast); [|done]. cbn [map_err res_bind].
  destruct (load_jobs _ _ _ _ _ _ _) as [[trs fs]|] eqn:El; [|done]. intros [= <-]. cbn.
  apply load_jobs_dom in El. rewrite El, dom_empty_L. set_solver.
Qed.

Lemma own_keys adopted (js : list JobConfig) (m : gmap string Trigger) :
  dom m = list_to_set (map jc_key js) ->
  dom (own_triggers adopted m) = list_to_set (map jc_key (own_jobs adopted js)).
Proof.
  intros H. apply set_eq. intros k. unfold own_triggers. rewrite elem_of_dom, elem_of_list_to_set, list_elem_of_fmap.
  unfold own_jobs. setoid_rewrite list_elem_of_In. setoid_rewrite List.filter_In.
  setoid_rewrite negb_true_iff. setoid_rewrite bool_decide_eq_false. split.
  - intros [t Ht]. apply map_lookup_filter_Some in Ht as [Ht Hk]. cbn in Hk.
    assert (k ∈ dom m) as Hd by (by apply elem_of_dom_2 in Ht). rewrite H in Hd.
    apply elem_of_list_to_set, list_elem_of_fmap in Hd as (j & -> & Hj). exists j. rewrite <- list_elem_of_In. done.
  - intros (j & -> & Hj & Hk). assert (jc_key j ∈ dom m) as [t Ht]%elem_of_dom.
    { rewrite H. apply elem_of_list_to_set, list_elem_of_fmap. exists j. by rewrite list_elem_of_In. }
    exists t. apply map_lookup_filter_Some. done.
Qed.

(** The two loops in step: [seen] are the keys of the rows behind. *)
Record in_step (dsl_keys seen : gset string) (loaded_faults : gmap string string) (m : Merge) (b : BootJobs) : Prop := {
  is_jobs : bj_jobs b = mg_jobs m;
  is_triggers : bj_triggers b = mg_triggers m;
  is_faults : bj_faults b = mg_faults m ∪ loaded_faults;
  is_own : dsl_keys ⊆ dom (mg_triggers m);
  is_seen : dom (mg_triggers m) ⊆ dsl_keys ∪ seen
}.

Lemma merge_row_in_step dsl_keys seen lf get resolved now m b def m' :
  in_step dsl_keys seen lf m b -> (eligible def -> td_job_key def ∉ seen) ->
  merge_row TZ_VARIANTS to_rfc3339 dsl_keys get resolved now m def = Ok m' ->
  exists b', reconcile_row TZ_VARIANTS to_rfc3339 get resolved now b def = Ok b' /\
    in_step dsl_keys (if decide (eligible def) then {[td_job_key def]} ∪ seen else seen) lf m' b'.
Proof.
  intros [Hj Ht Hf Ho Hs] Hseen. unfold merge_row, reconcile_row.
  destruct (String.eqb _ _ || _) eqn:Ee.
  { intros [= <-]. exists b. split; [done|]. rewrite decide_False by (by apply not_eligible). by split. }
  assert (eligible def) as He by (destruct (decide (eligible def)) as [|H]; [done|]; apply not_eligible in H; congruence).
  rewrite decide_True by done. specialize (Hseen He).
  assert (is_Some (bj_triggers b !! td_job_key def) <-> td_job_key def ∈ dsl_keys) as Hk.
  { rewrite Ht, <- elem_of_dom. set_solver. }
  rewrite (bool_decide_ext _ _ Hk). case_bool_decide as Hin.
  { intros [= <-]. exists b. split; [done|]. split; [done..|set_solver]. }
  destruct (get (td_job_key def)) as [jd|e]; cbn [map_err res_bind]; [|done].
  destruct (match jd with Some j => negb (jd_is_active j) | None => false end).
  { intros [= <-]. exists b. split; [done|]. split; [done..|set_solver]. }
  intros [= <-]. eexists. split; [done|].
  destruct (trigger_from_definition TZ_VARIANTS def resolved now) as [bt|]; [|split; [done..|set_solver]].
  split; cbn; [by rewrite Hj|by rewrite Ht| |set_solver..].
  destruct (bt_config_fault bt); [by rewrite Hf, insert_union_l|done].
Qed.

Lemma merge_rows_in_step dsl_keys seen lf get resolved now rows m b m' :
  in_step dsl_keys seen lf m b -> NoDup (map td_job_key (filter eligible rows)) ->
  (forall def, def ∈ rows -> eligible def -> td_job_key def ∉ seen) ->
  merge_rows TZ_VARIANTS to_rfc3339 dsl_keys get resolved now m rows = Ok m' ->
  exists b' seen', reconcile_rows TZ_VARIANTS to_rfc3339 get resolved now b rows = Ok b' /\ in_step dsl_keys seen' lf m' b'.
Proof.
  revert seen m b. induction rows as [|def rows IH]; intros seen m b Hs Hnd Hseen; cbn [merge_rows reconcile_rows].
  { intros [= <-]. by exists b, seen. }
  destruct (merge_row _ _ _ _ _ _ _ def) as [m1|] eqn:E1; [|done]. cbn [res_bind]. intros H.
  destruct (merge_row_in_step _ _ _ _ _ _ _ _ _ _ Hs (Hseen def ltac:(left)) E1) as (b1 & -> & Hs1). cbn [res_bind].
  rewrite filter_cons in Hnd. eapply IH; [exact Hs1| | |done].
  - case_decide; [|done]. cbn [map] in Hnd. by apply NoDup_cons in Hnd as [_ Hnd].
  - intros d Hd He. case_decide as Hdef; [|by apply Hseen; [right|]]. cbn [map] in Hnd. apply NoDup_cons in Hnd as [Hn _].
    apply not_elem_of_union. split; [|by apply Hseen; [right|]]. intros E%elem_of_singleton. apply Hn. rewrite <- E.
    apply list_elem_of_fmap. exists d. split; [done|]. by apply list_elem_of_filter.
Qed.

(** C12. A reload brings up what a restart would. For a file that loads, and a
    store that answers and holds at most one enabled row per job, the jobs and
    triggers of the plan are those a boot from the same file and store puts
    together at that instant, and so is the fault reported for each job. *)
Theorem reload_matches_restart ast loaded cfg st now current dsl plan adopted_jobs adopted_calendars calendars rows :
  load ast loaded = Ok cfg ->
  sv_adoptions st "job" = Ok adopted_jobs -> sv_adoptions st "calendar" = Ok adopted_calendars ->
  sv_calendars st = Ok calendars -> sv_triggers st = Ok rows ->
  NoDup (map td_job_key (filter eligible rows)) ->
  build (Ok cfg) st now current dsl = Ok plan ->
  exists b, boot cfg st now = Ok b /\ bj_jobs b = pl_merged_jobs plan /\ bj_triggers b = pl_merged_triggers plan /\
    forall key, is_Some (bj_triggers b !! key) -> bj_faults b !! key = pl_calendar_faults plan !! key.
Proof.
  intros Hload Hj Hc Hcal Hrows Hnd. unfold build, build_plan, boot, boot_jobs.
  rewrite Hj, Hc, Hcal, Hrows. cbn [map_err res_bind res_ok default].
  destruct (merge_rows _ _ _ _ _ _ _ rows) as [m|] eqn:Em; [|done]. intros [= <-].
  eapply (merge_rows_in_step _ ∅ (lc_calendar_faults cfg)) in Em as (b & seen & Hb & Hs); [|split|done|set_solver].
  - exists b. rewrite Hb. cbn [pl_merged_jobs pl_merged_triggers pl_calendar_faults].
    split_and!; [done|apply (is_jobs _ _ _ _ _ Hs)|apply (is_triggers _ _ _ _ _ Hs)|].
    intros key. rewrite (is_triggers _ _ _ _ _ Hs), (is_faults _ _ _ _ _ Hs). intros Hk.
    rewrite !lookup_union. f_equal. symmetry. destruct (lc_calendar_faults cfg !! key) as [f|] eqn:Ef.
    + by apply map_lookup_filter_Some.
    + apply map_lookup_filter_None. by left.
  - done.
  - done.
  - cbn. by rewrite (left_id_L ∅ (∪)).
  - cbn. by rewrite (own_keys _ (rt_jobs (lc_runtime cfg))) by by eapply loaded_keys.
  - cbn. rewrite (own_keys _ (rt_jobs (lc_runtime cfg))) by by eapply loaded_keys. set_solver.
Qed.
End PlanFacts.

(** ** Applying a plan *)

Section ApplyFacts.
  Context `{CL : ChronoLaws} `{J : Json} `{F : Fingerprint} {St : Type} `{JS : JobStore St}.

Lemma reload_dom (l : SchedulerLoop) trs js now : dom (triggers (reload l trs js now)) = dom trs.
Proof.
  unfold reload, arm_register_fires. destruct (list_register_fires _) as [st r]. destruct r; cbn; unfold reload_triggers;
    apply set_eq; intros k; rewrite !elem_of_dom, map_lookup_imap; destruct (trs !! k); cbn; by split; intros [? ?].
Qed.

Lemma reload_lookup (l : SchedulerLoop) trs js now k new_trigger :
  trs !! k = Some new_trigger ->
  triggers (reload l trs js now) !! k
  = Some match triggers l !! k with Some old => carry_over_state old new_trigger now | None => new_trigger end.
Proof.
  intros H. unfold reload, arm_register_fires. destruct (list_register_fires _) as [st r]. destruct r; cbn;
    unfold reload_triggers; rewrite map_lookup_imap, H; done.
Qed.

(** The diff of a plan is what applying it does to the running jobs, the handles
    take the scheduler's triggers, and a job that runs on under the same
    schedule, zone, calendar and window keeps its pending fire and its count. *)
Theorem applied_plan_follows_diff (l : SchedulerLoop) plan dsl now :
  pl_diff plan = plan_diff (pl_merged_triggers plan) (triggers l) (pl_merged_jobs plan) dsl ->
  let '(l', shared) := apply_plan_direct plan l now in
  (forall k, k ∈ dom (triggers l') <->
     k ∈ rd_added (pl_diff plan) \/ k ∈ dom (triggers l) /\ k ∉ rd_removed (pl_diff plan)) /\
  rd_total (pl_diff plan) = Z.of_nat (size (triggers l')) /\ sh_trigger_snapshot shared = triggers l' /\
  forall k old new_trigger off earlier pending,
    triggers l !! k = Some old -> pl_merged_triggers plan !! k = Some new_trigger -> same_config new_trigger old ->
    trigger_ok old -> zones_fixed old off -> state old <> Exhausted -> next_fire_at old = Some pending ->
    earlier <= now -> compute_next_fire old earlier = Some pending ->
    exists t, triggers l' !! k = Some t /\ next_fire_at t = Some pending /\ fire_count t = fire_count old.
Proof.
  intros Hd. unfold apply_plan_direct. cbv zeta. rewrite reload_dom, Hd. cbn [plan_diff rd_added rd_removed rd_total share sh_trigger_snapshot].
  split_and!; [| |done|].
  - intros k. rewrite !sort_strings_elem, !elem_of_elements, !elem_of_difference. destruct (decide (k ∈ dom (triggers l))), (decide (k ∈ dom (pl_merged_triggers plan))); tauto.
  - f_equal. rewrite <- !size_dom. by rewrite reload_dom.
  - intros k old new_trigger off earlier pending Ho Hn Hc Hok Hz He Hp Hle Hcomp.
    rewrite (reload_lookup l _ _ _ _ _ Hn), Ho. eexists. split; [done|].
    destruct (rebuild_keeps_pending_fire old new_trigger off earlier now pending) as (H1 & H2 & _); done.
Qed.
End ApplyFacts.

(** ** Settings that need a restart *)

(** Exactly the settings whose text differs are reported, with both texts. *)
Theorem pending_settings_exact running pending p :
  p ∈ changes_vs running pending <->
  running !! pr_setting p <> pending !! pr_setting p /\
  p = MkPendingRestart (pr_setting p) (running !! pr_setting p) (pending !! pr_setting p).
Proof.
  unfold changes_vs, BootOnlySettings in *. rewrite list_elem_of_fmap. setoid_rewrite list_elem_of_In. setoid_rewrite List.filter_In.
  setoid_rewrite negb_true_iff. setoid_rewrite bool_decide_eq_false. setoid_rewrite <- list_elem_of_In.
  setoid_rewrite sort_strings_elem. setoid_rewrite elem_of_elements. split.
  - intros (k & -> & _ & Hne). done.
  - intros [Hne E]. exists (pr_setting p). split_and!; [done| |done].
    apply elem_of_union. rewrite !elem_of_dom. destruct (running !! pr_setting p); [by left; eexists|right].
    by destruct (pending !! pr_setting p); [eexists|].
Qed.

(** ** Examples *)

Definition demo_api_row (id key expr calendar : string) : TriggerDefinition := {|
  td_trigger_id := id; td_job_key := key; td_cron_expression := Some expr; td_timezone := None;
  td_calendar := Some calendar; td_window := None; td_not_before := None; td_not_after := None;
  td_enabled := true; td_managed_by := "api"; td_created_at := 0; td_updated_at := 0 |}.

Definition demo_view (adopted : list string) (rows : list TriggerDefinition) : StoreView := {|
  sv_adoptions := fun kind => Ok (if String.eqb kind "job"
                                  then map (fun k => {| da_resource_type := "job"; da_resource_key := k |}) adopted else []);
  sv_calendars := Ok []; sv_triggers := Ok rows; sv_job_definition := fun _ => Ok None |}.

Definition demo_rfc : instant -> string := fun _ => "".
Definition demo_alerts : AlertsConfig -> string := fun _ => "none".
Definition demo_plan (cfg : LoadedConfig (C := Demo.demo_chrono)) (st : StoreView) : result ReloadPlan ReloadError :=
  build_plan (C := Demo.demo_chrono) demo_zones elements no_env no_file no_json demo_rfc demo_alerts (Ok cfg) st 0 ∅ [].
Definition demo_boot (cfg : LoadedConfig (C := Demo.demo_chrono)) (st : StoreView) : result BootJobs StoreError :=
  boot_jobs (C := Demo.demo_chrono) demo_zones elements no_env no_file no_json demo_rfc cfg st 0.

(** One stored job beside the one of the file. *)
Definition one_row : StoreView := demo_view [] [demo_api_row "t1" "api:sync" "5m" "workdays"].

Definition with_gated {A} (f : LoadedConfig (C := Demo.demo_chrono) -> A) (otherwise : A) : A :=
  match gated_loaded with Ok cfg => f cfg | Err _ => otherwise end.

Lemma gated_plans : with_gated (fun cfg => is_ok (demo_plan cfg one_row)) false = true.
Proof. vm_compute. done. Qed.

Lemma reload_matches_restart_witness :
  with_gated (fun cfg =>
    match demo_plan cfg one_row with
    | Ok plan => exists b, demo_boot cfg one_row = Ok b /\ bj_jobs b = pl_merged_jobs plan /\
                   bj_triggers b = pl_merged_triggers plan /\
                   forall key, is_Some (bj_triggers b !! key) -> bj_faults b !! key = pl_calendar_faults plan !! key
    | Err _ => False
    end) False.
Proof.
  pose proof gated_plans as Hok. unfold with_gated in *. destruct gated_loaded as [cfg|e] eqn:E; [|discriminate Hok].
  destruct (demo_plan cfg one_row) as [plan|e'] eqn:Ep; [|discriminate Hok].
  refine (reload_matches_restart (C := Demo.demo_chrono) demo_zones elements no_env no_file no_json demo_rfc demo_alerts
              gated_file 0 cfg one_row 0 ∅ [] plan [] [] [] [demo_api_row "t1" "api:sync" "5m" "workdays"]
              E eq_refl eq_refl eq_refl eq_refl _ Ep).
  vm_compute. repeat constructor. intros H. inversion H.
Defined.

(** Two enabled rows for one job: the boot runs the first, a reload the last, and
    a fault of the first stays on the books. *)
Definition two_rows : StoreView :=
  demo_view [] [demo_api_row "t1" "api:sync" "5m" "gone"; demo_api_row "t2" "api:sync" "1h" "workdays"].

Definition booted (text : string) (st : StoreView) (key : string) : option (Trigger (C := Demo.demo_chrono) * option string) :=
  cfg ← res_ok (demo_load text 0); b ← res_ok (demo_boot cfg st);
  t ← bj_triggers b !! key; Some (t, bj_faults b !! key).
Definition reloaded (text : string) (st : StoreView) (key : string) : option (Trigger (C := Demo.demo_chrono) * option string) :=
  cfg ← res_ok (demo_load text 0); p ← res_ok (demo_plan cfg st);
  t ← pl_merged_triggers p !! key; Some (t, pl_calendar_faults p !! key).
Definition shown (r : option (Trigger (C := Demo.demo_chrono) * option string)) : option (Schedule * TriggerState * option string) :=
  '(t, f) ← r; Some (schedule t, state t, f).

Example two_rows_part :
  shown (booted gated_text two_rows "api:sync") = Some (Interval 300, Paused, Some "calendar 'gone' is not defined") /\
  shown (reloaded gated_text two_rows "api:sync") = Some (Interval 3600, Armed, Some "calendar 'gone' is not defined").
Proof. vm_compute. done. Qed.

(** An adopted job runs from its stored row, without a fault, and is still
    reported with the fault of the file's definition. *)
Definition faulted_text : string := "job ops:report {
  every 10 minutes {
    calendar gone
  }
}
".
Definition adopted_view : StoreView := demo_view ["ops:report"] [demo_api_row "t1" "ops:report" "5m" ""].

Example adopted_job_keeps_the_fault :
  shown (reloaded faulted_text adopted_view "ops:report")
  = Some (Interval 300, Armed, Some "calendar 'gone' is not defined").
Proof. vm_compute. done. Qed.
