(* ===== verification/CompletionFacts.v ===== *)
(** * What a completion does

    The effect of [process] for each outcome it reports, whatever the store
    calls return. *)

From S2P Require Import Prelude RustStr Chrono RunnerTypes Queue Registry RunnerApi.
From S2P Require Import Durations Execution JobConfig Store StoreCalls Sqlite SqliteFacts Server.
From S2P Require Import Alerts DemoServer Requeue Dispatch DispatchFacts Completion.

Local Open Scope string_scope.
Local Open Scope Z_scope.

Section Facts.
  Context `{J : Json} `{E : Env} {St : Type} `{SL : StoreLaws St}.
  Context (transport : string -> ChannelConfig -> string -> FailureContext -> instant -> Sent).

(** ** Alerts leave the work alone *)

Definition same_work (t t' : Tables) : Prop :=
  tb_execs t' = tb_execs t /\ tb_dead t' = tb_dead t /\ tb_logs t' = tb_logs t
  /\ tb_states t' = tb_states t /\ tb_fires t' = tb_fires t /\ tb_defs t' = tb_defs t.

(** The store [s'] is [s] after some calls. *)
Definition ran : St -> St -> Prop := rtc (fun s s' => exists A (c : Call A) r, run s c = (s', r)).

Lemma ran_call {A} (c : Call A) w w' r : call c w = (w', r) -> ran (w_store w) (w_store w').
Proof. intros (Hrun & _)%call_eq. apply rtc_once. eauto. Qed.

(** Between [w] and [w'] the store, with the rows of [w], reported an error for
    the call [c]. *)
Definition failed_call {A} (c : Call A) (w w' : World St) : Prop :=
  exists s1 s2 err, ran (w_store w) s1 /\ tables s1 = tbl w /\ run s1 c = (s2, Err err)
    /\ ran s2 (w_store w').

Lemma failed_call_here {A} (c : Call A) w w1 w' err :
  call c w = (w1, Err err) -> ran (w_store w1) (w_store w') -> failed_call c w w'.
Proof.
  intros (Hrun & _)%call_eq H. exists (w_store w), (w_store w1), err.
  split_and!; [apply rtc_refl|done..].
Qed.

Lemma failed_call_shift {A} (c : Call A) w0 w w' :
  ran (w_store w0) (w_store w) -> tbl w = tbl w0 -> failed_call c w w' -> failed_call c w0 w'.
Proof.
  intros Hr Et (s1 & s2 & err & H1 & H2 & H3 & H4). exists s1, s2, err.
  split_and!; [by etrans|congruence|done..].
Qed.

(** Only the alert tables, the audit trail and the throttle map may change. *)
Definition alerts_only (w w' : World St) : Prop :=
  same_work (tbl w) (tbl w') /\ w_app w' = w_app w /\ ran (w_store w) (w_store w').
#[local] Instance alerts_only_preorder : PreOrder alerts_only.
Proof.
  split; [intros w; split_and!; [by split_and!|done|apply rtc_refl]|].
  intros a b c (H1 & E1 & R1) (H2 & E2 & R2). split_and!; [|congruence|by etrans].
  destruct H1 as (? & ? & ? & ? & ? & ?), H2 as (? & ? & ? & ? & ? & ?). split_and!; congruence.
Qed.

Definition alert_call {A} (c : Call A) : bool :=
  match c with
  | AuditLog _ | RecordAlertDelivery _ | GetRuleOverride _ | GetAck _ | TakeAck _
  | RecordAckSuppression _ _ _ _ | RecordJobFailure _ _ _ _ | TakeStreak _ => true
  | _ => false
  end.

Lemma alert_call_keeps {A} (c : Call A) : alert_call c = true -> keeps alerts_only (call c).
Proof.
  intros Hc w w' r Hcall. pose proof (ran_call _ _ _ _ Hcall) as Hran.
  apply call_eq in Hcall as (Hrun & Ha & _). split; [|done]. unfold tbl.
  apply run_honours in Hrun. destruct r as [a|[x|x|x]]; cbn in Hrun.
  - destruct c; try done; cbn in Hrun;
      solve [by rewrite Hrun|by destruct Hrun as [-> _]|by destruct Hrun as [_ ->]].
  - by destruct Hrun as [-> _].
  - by destruct Hrun as [-> _].
  - destruct Hrun as [->|Hrun]; [done|]. destruct c; try done. by rewrite Hrun.
Qed.

Lemma store_kept w w' : w_store w' = w_store w -> w_app w' = w_app w -> alerts_only w w'.
Proof.
  intros Es Ea. unfold alerts_only, same_work, tbl. rewrite Es. by split_and!; [..|apply rtc_refl].
Qed.
Lemma new_uuid_keeps : keeps alerts_only new_uuid.
Proof. intros w w' a [= <- _]. by apply store_kept. Qed.
Lemma utc_now_keeps : keeps alerts_only utc_now.
Proof. intros w w' a [= <- _]. by apply store_kept. Qed.
Lemma throttle_keeps {A : Type} (f : World St -> gmap (string * string) instant) (g : World St -> A) :
  keeps alerts_only (fun w => (set_throttle (f w) w, g w)).
Proof. intros w w' a [= <- _]. by apply store_kept. Qed.
Lemma read_keeps {A : Type} (g : World St -> A) : keeps alerts_only (fun w => (w, g w)).
Proof. intros w w' a [= <- _]. by apply store_kept. Qed.

#[local] Hint Resolve new_uuid_keeps utc_now_keeps throttle_keeps read_keeps : croniq.
#[local] Hint Extern 2 (keeps alerts_only (call _)) => apply alert_call_keeps; reflexivity : croniq.

Lemma record_event_keeps aty aid act tty tid : keeps alerts_only (record_event aty aid act tty tid).
Proof. unfold record_event. keeps_all. Qed.
#[local] Hint Resolve record_event_keeps : croniq.

Lemma record_delivery_keeps d : keeps alerts_only (record_delivery d).
Proof. unfold record_delivery. keeps_all. Qed.
#[local] Hint Resolve record_delivery_keeps : croniq.

Lemma channels_keeps rule alerts ctx now :
  keeps alerts_only (deliver_to_channels transport rule alerts ctx now).
Proof. unfold deliver_to_channels, dispatch. keeps_all. Qed.
#[local] Hint Resolve channels_keeps : croniq.

Lemma dispatch_rule_keeps rule alerts ctx : keeps alerts_only (dispatch_rule transport rule alerts ctx).
Proof. unfold dispatch_rule, get_override, held_back. keeps_all. Qed.
#[local] Hint Resolve dispatch_rule_keeps : croniq.

Lemma fire_alerts_keeps alerts key event reason :
  keeps alerts_only (fire_alerts transport alerts key event reason).
Proof. unfold fire_alerts, evaluate_failure. keeps_all. Qed.

Lemma end_incident_keeps alerts key eid : keeps alerts_only (end_incident transport alerts key eid).
Proof. unfold end_incident, send_recovery, get_override, close_incident. keeps_all. Qed.

(** ** The two writes *)

(** The execution was held by the reporting runner, in one of the states
    [from], and now ends in [st]. *)
Definition settled (id rid : string) (from : list ExecutionState) (st : ExecutionState)
    (t t' : Tables) : Prop :=
  exists e now d err rs, tb_execs t !! id = Some e
    /\ in_states from e = true /\ ex_runner_id e = Some rid
    /\ tb_execs t' = <[id := set_outcome st now d err rs e]> (tb_execs t).

Lemma finish_spec event id st err rs now w w' r :
  finish event id st err rs now w = (w', r) ->
  w_app w' = w_app w /\ w_throttle w' = w_throttle w /\
  match r with
  | Ok true => exists e, tb_execs (tbl w) !! id = Some e /\ claimed_by (ce_runner_id event) e = true
      /\ tbl w' = set_execs (<[id := set_outcome st now (Some (wrap_i64 (ce_duration_ms event)))
                                       err rs e]> (tb_execs (tbl w))) (tbl w)
  | Ok false => tbl w' = tbl w /\ forall e, tb_execs (tbl w) !! id = Some e ->
      claimed_by (ce_runner_id event) e = false
  | Err _ => tbl w' = tbl w
  end.
Proof.
  intros (Hrun & Ha & Ht & _)%call_eq. split_and!; [done..|]. unfold tbl. apply run_honours in Hrun.
  destruct r as [hit|[x|x|x]]; cbn [honours post] in Hrun;
    [|by destruct Hrun..|by destruct Hrun as [?|[]]].
  destruct Hrun as (m & Hs & ->). unfold swapped in Hs.
  destruct (tb_execs (tables (w_store w)) !! id) as [e|]; destruct Hs as [-> ->];
    [|by destruct (tables (w_store w))].
  destruct (has_state EClaimed e && fence_ok (Some (ce_runner_id event)) e) eqn:Hok;
    [exists e; by split_and!|]. split; [by destruct (tables (w_store w))|]. by intros e' [= <-].
Qed.

Lemma bury_spec id rid d err dl now w w' r :
  call (CompleteAsDead id (Some rid) d err dl now) w = (w', r) ->
  w_app w' = w_app w /\ w_throttle w' = w_throttle w /\
  match r with
  | Ok true => exists e, tb_execs (tbl w) !! id = Some e
      /\ in_states [EClaimed; EFailed] e = true /\ ex_runner_id e = Some rid
      /\ tb_dead (tbl w) !! dl_id dl = None
      /\ tbl w' = set_dead (<[dl_id dl := dl]> (tb_dead (tbl w)))
                    (set_execs (<[id := set_outcome EDead now d err (Some (dl_dead_reason dl)) e]>
                                  (tb_execs (tbl w))) (tbl w))
  | Ok false => tbl w' = tbl w /\ forall e, tb_execs (tbl w) !! id = Some e -> claimed_by rid e = false
  | Err _ => tbl w' = tbl w
  end.
Proof.
  intros (Hrun & Ha & Ht & _)%call_eq. split_and!; [done..|]. unfold tbl. apply run_honours in Hrun.
  destruct r as [hit|[x|x|x]]; cbn [honours post] in Hrun;
    [|by destruct Hrun..|by destruct Hrun as [?|[]]].
  destruct Hrun as (m & Hs & Hr). unfold swapped in Hs. destruct hit.
  2: { split; [done|]. intros e He. rewrite He in Hs. destruct Hs as [Hok _]. symmetry in Hok.
       unfold claimed_by. cbn in Hok. destruct (has_state EClaimed e); [|done].
       by rewrite orb_true_l in Hok. }
  destruct Hr as (dd & [Hn ->] & ->). destruct (tb_execs (tables (w_store w)) !! id) as [e|]; [|by destruct Hs].
  destruct Hs as [Hok ->]. rewrite <- Hok. symmetry in Hok. apply andb_true_iff in Hok as [H1 H2].
  apply bool_decide_eq_true in H2. exists e. by split_and!.
Qed.

(** Reading the execution and the job changes nothing. *)
Lemma get_spec id w w' r :
  call (GetExecution id) w = (w', r) ->
  tbl w' = tbl w /\ w_app w' = w_app w /\ w_throttle w' = w_throttle w
  /\ (forall o, r = Ok o -> o = tb_execs (tbl w) !! id).
Proof.
  intros (Hrun & Ha & Ht & _)%call_eq. apply run_honours in Hrun. unfold tbl.
  destruct r as [o|[x|x|x]]; cbn in Hrun; [|by destruct Hrun..|by destruct Hrun as [?|[]]].
  destruct Hrun as [-> ->]. split_and!; [done..|]. by intros o [= <-].
Qed.

(** The job is in neither the configuration nor the definitions of the store, or
    the store could not say. *)
Definition unknown_job (jobs : list JobConfig) (key : string) (w w' : World St) : Prop :=
  find (fun j => String.eqb (jc_key j) key) jobs = None
  /\ (tb_defs (tbl w) !! key = None \/ failed_call (GetJobDefinition key) w w').

Lemma resolve_spec jobs key w w' o :
  resolve_job_config jobs key w = (w', o) ->
  tbl w' = tbl w /\ w_app w' = w_app w /\ w_throttle w' = w_throttle w
  /\ ran (w_store w) (w_store w') /\ (o = None -> unknown_job jobs key w w').
Proof.
  unfold resolve_job_config, unknown_job.
  destruct (find _ jobs); [intros [= <- <-]; split_and!; [done..|apply rtc_refl|done]|].
  intros (w1 & r & Hcall & [= <- <-])%bind_eq. pose proof (ran_call _ _ _ _ Hcall) as Hran.
  destruct r as [o'|err].
  - apply call_eq in Hcall as (Hrun & Ha & Ht & _). apply run_honours in Hrun. unfold tbl.
    destruct Hrun as [-> ->]. split_and!; [done..|]. destruct (tb_defs _ !! key); [done|]. by auto.
  - pose proof (failed_call_here _ _ _ _ _ Hcall (rtc_refl _ _)) as Hf.
    apply call_eq in Hcall as (Hrun & Ha & Ht & _). apply run_honours in Hrun. unfold tbl.
    split_and!; [|done..|by auto].
    destruct err as [x|x|x]; cbn in Hrun; [by destruct Hrun..|by destruct Hrun as [?|[]]].
Qed.

(** ** Outcomes *)

(** The new attempt of an execution: same job, logical fire time, metadata and
    idempotency key; next attempt number; fresh and queued. *)
Definition retry_of (e retry : Execution) (attempt : Z) : Prop :=
  ex_job_key retry = ex_job_key e /\ ex_scheduled_for retry = ex_scheduled_for e
  /\ ex_metadata retry = ex_metadata e /\ ex_idempotency_key retry = ex_idempotency_key e
  /\ ex_attempt retry = attempt /\ ex_state retry = EQueued /\ ex_runner_id retry = None.

(** The letter of an execution: its job, fire times, attempt and metadata. *)
Definition letter_records (e : Execution) (id : string) (dl : DeadLetter) : Prop :=
  dl_execution_id dl = id /\ dl_job_key dl = ex_job_key e /\ dl_fire_at dl = ex_fire_at e
  /\ dl_scheduled_for dl = ex_scheduled_for e /\ dl_attempt dl = ex_attempt e
  /\ dl_metadata dl = ex_metadata e.

Definition unchanged (w w' : World St) : Prop :=
  tbl w' = tbl w /\ w_app w' = w_app w /\ w_throttle w' = w_throttle w.

(** What each outcome says about the state before and after; [id] is the
    execution, [rid] the reporting runner. *)
Definition outcome_effect (jobs : list JobConfig) (id rid : string) (event : CompletionEvent)
    (w w' : World St) (o : ProcessedOutcome) : Prop :=
  let t := tbl w in let t' := tbl w' in
  match o with
  | PStale =>
      unchanged w w' /\ ce_status event <> CCancelled
      /\ exists e, tb_execs t !! id = Some e /\ claimed_by rid e = false
  | PUnrecorded =>
      unchanged w w' /\ ce_status event <> CCancelled
      /\ exists st d err rs now, failed_call (CompleteExecution id (Some rid) st d err rs now) w w'
  | PNotFound =>
      unchanged w w'
      /\ (failed_call (GetExecution id) w w'
          \/ tb_execs t !! id = None /\ ephemeral_inflight (w_app w) !! ce_execution_id event = None
          \/ exists e, tb_execs t !! id = Some e /\ unknown_job jobs (ex_job_key e) w w')
  | PEphemeral =>
      t' = t /\ tb_execs t !! id = None
      /\ is_Some (ephemeral_inflight (w_app w) !! ce_execution_id event)
      /\ w_app w' = (take_ephemeral (w_app w) (ce_execution_id event)).1
  | PCompleted =>
      w_app w' = w_app w /\ tb_dead t' = tb_dead t
      /\ (settled id rid [EClaimed] ECompleted t t' /\ ce_status event = CSuccess
          \/ settled id rid [EClaimed] ECancelled t t' /\ ce_status event = CCancelled
          \/ t' = t /\ ce_status event = CCancelled
              /\ ((exists e, tb_execs t !! id = Some e /\ claimed_by rid e = false)
                  \/ exists d now, failed_call
                       (CompleteExecution id (Some rid) ECancelled d None None now) w w'))
  | PRetrying n =>
      n = wrap_u32 (ce_attempt event + 1) /\ tb_dead t' = tb_dead t
      /\ exists e retry item, retry_of e retry n
          /\ tb_execs t !! id = Some e /\ claimed_by rid e = true
          /\ (exists now d err rs, tb_execs t' = <[ex_id retry := retry]>
                (<[id := set_outcome EFailed now d err rs e]> (tb_execs t)))
          /\ ex_id retry <> id /\ tb_execs t !! ex_id retry = None
          /\ execution_id item = ex_id retry /\ wi_job_key item = ex_job_key e
          /\ fire_at item = ex_fire_at retry /\ scheduled_for item = ex_scheduled_for e
          /\ attempt item = n /\ metadata item = of_map (ex_metadata e)
          /\ queue (w_app w') = (enqueue (queue (w_app w)) item).1
  | PDeadLettered _ =>
      w_app w' = w_app w
      /\ (settled id rid [EClaimed; EFailed] EDead t t'
            /\ (exists e dl, tb_execs t !! id = Some e /\ letter_records e id dl
                  /\ tb_dead t !! dl_id dl = None /\ tb_dead t' = <[dl_id dl := dl]> (tb_dead t))
          \/ same_work t t'
             /\ exists d err dl now, failed_call (CompleteAsDead id (Some rid) d err dl now) w w')
  | PDropped _ =>
      w_app w' = w_app w /\ tb_dead t' = tb_dead t
      /\ (settled id rid [EClaimed] EFailed t t'
          \/ same_work t t' /\ exists d err rs now,
               failed_call (CompleteExecution id (Some rid) EFailed d err rs now) w w')
  end.

Lemma unknown_job_shift jobs key w0 w w' :
  ran (w_store w0) (w_store w) -> tbl w = tbl w0 -> unknown_job jobs key w w' -> unknown_job jobs key w0 w'.
Proof.
  intros Hr Et [Hf [Hd|Hd]]; split; [done| |done|right; by eapply failed_call_shift].
  left. congruence.
Qed.

Lemma outcome_effect_shift jobs id rid event w0 w w' o :
  unchanged w0 w -> ran (w_store w0) (w_store w) ->
  outcome_effect jobs id rid event w w' o -> outcome_effect jobs id rid event w0 w' o.
Proof.
  intros (Et & Ha & Ht) Hr. unfold outcome_effect, unchanged. rewrite Et, Ha, Ht.
  assert (forall A (c : Call A), failed_call c w w' -> failed_call c w0 w') as Hs
    by (intros A c; by apply failed_call_shift).
  pose proof (fun key => unknown_job_shift jobs key w0 w w' Hr Et) as Hu.
  destruct o; naive_solver.
Qed.

Lemma create_spec ex w w' r :
  call (CreateExecution ex) w = (w', r) ->
  w_app w' = w_app w /\ w_throttle w' = w_throttle w /\
  match r with
  | Ok _ => tb_execs (tbl w) !! ex_id ex = None
            /\ tbl w' = set_execs (<[ex_id ex := ex]> (tb_execs (tbl w))) (tbl w)
  | Err _ => tbl w' = tbl w
  end.
Proof.
  intros (Hrun & Ha & Ht & _)%call_eq. split_and!; [done..|]. unfold tbl. apply run_honours in Hrun.
  destruct r as [hit|[x|x|x]]; cbn in Hrun; [|by destruct Hrun..|by destruct Hrun as [?|[]]].
  by destruct Hrun as (m & [Hn ->] & ->).
Qed.

Section Process.
  Context (jobs : list JobConfig) (alerts : AlertsConfig) (event : CompletionEvent) (id : string).
  Abbreviation rid := (ce_runner_id event).

Lemma claimed_by_runner r e : claimed_by r e = true -> ex_runner_id e = Some r.
Proof. by intros [_ ?%bool_decide_eq_true]%andb_true_iff. Qed.
Lemma claimed_by_state r e l : claimed_by r e = true -> in_states (EClaimed :: l) e = true.
Proof. intros [Hc _]%andb_true_iff. cbn. by rewrite Hc. Qed.

Lemma spawn_retry_effect e st job now n delay w0 w1 w' o :
  n = wrap_u32 (ce_attempt event + 1) ->
  tb_execs (tbl w0) !! id = Some e -> claimed_by rid e = true -> st = EFailed ->
  w_app w1 = w_app w0 ->
  (exists now d err rs, tbl w1 = set_execs (<[id := set_outcome st now d err rs e]> (tb_execs (tbl w0))) (tbl w0)) ->
  spawn_retry transport alerts event id e job now n delay w1 = (w', o) ->
  outcome_effect jobs id rid event w0 w' o.
Proof.
  intros Hn He Hcl -> Ha (fnow & fd & ferr & frs & Et) Hrun. unfold spawn_retry in Hrun.
  apply bind_eq in Hrun as (w2 & retry_id & [= <- <-] & Hrun).
  apply bind_eq in Hrun as (w3 & r & (Ha3 & _ & Hr)%create_spec & Hrun).
  change (tbl (MkWorld _ _ _ _ _)) with (tbl w1) in Hr. rewrite Et in Hr. cbn [w_app] in Ha3.
  destruct r as [[]|err].
  - cbn [ex_id retry_execution] in Hr. destruct Hr as [Hfree Et3].
    apply bind_eq in Hrun as (w4 & ok & Henq & Hrun). injection Hrun as <- <-.
    assert (uuid (w_ids w1) <> id) as Hne.
    { intros Eq. cbn in Hfree. by rewrite Eq, lookup_insert_eq in Hfree. }
    cbn in Hfree. rewrite lookup_insert_ne in Hfree by done.
    unfold enqueue_item, update_app in Henq.
    destruct (enqueue (queue (w_app w3)) _) as [q b] eqn:Eq. injection Henq as <- _.
    cbn [outcome_effect]. change (tbl (set_app _ _)) with (tbl w3).
    rewrite Et3. split_and!; [done|done|].
    set (at_ := now + default 0 (chrono_from_std delay)) in *.
    exists e, (retry_execution (uuid (w_ids w1)) e at_ now n), (retry_item (uuid (w_ids w1)) e job at_ n).
    split; [by unfold retry_of|]. split_and!; try done.
    + by exists fnow, fd, ferr, frs.
    + cbn [queue w_app set_app set_queue]. rewrite <- Ha, <- Ha3. by rewrite Eq.
  - apply bind_eq in Hrun as (w4 & dead & Hd & Hrun).
    apply bind_eq in Hrun as (w5 & [] & [[Hx [Hdd _]] [Ha5 _]]%fire_alerts_keeps & Hrun). injection Hrun as <- <-.
    assert (w_app w4 = w_app w0 /\ if dead
            then settled id rid [EClaimed; EFailed] EDead (tbl w0) (tbl w4)
                 /\ (exists dl, letter_records e id dl /\ tb_dead (tbl w0) !! dl_id dl = None
                       /\ tb_dead (tbl w4) = <[dl_id dl := dl]> (tb_dead (tbl w0)))
            else tb_execs (tbl w4) = tb_execs (tbl w3) /\ tb_dead (tbl w4) = tb_dead (tbl w3)) as [Ha4 Hd4].
    { destruct (dl_enabled _); [|injection Hd as <- <-; split; [congruence|done]].
      apply bind_eq in Hd as (w3' & dlid & [= <- <-] & Hd).
      apply bind_eq in Hd as (w4' & r & (Hb1 & _ & Hb)%bury_spec & Hd). injection Hd as <- <-.
      change (tbl (MkWorld _ _ _ _ _)) with (tbl w3) in Hb. rewrite Hr in Hb. cbn [w_app] in Hb1.
      split; [congruence|]. destruct r as [[]|]; [|by destruct Hb as [-> _]; rewrite Hr|by rewrite Hb, Hr].
      destruct Hb as (e' & He' & _ & _ & Hnone & Eb). cbn in He'. rewrite lookup_insert_eq in He'.
      injection He' as <-. rewrite Eb. split.
      - exists e. do 4 eexists. split_and!; [done|by eapply claimed_by_state|by apply claimed_by_runner|].
        cbn. rewrite insert_insert_eq. reflexivity.
      - eexists. split_and!; [|exact Hnone|cbn; reflexivity]. done. }
    destruct dead; cbn [outcome_effect].
    + split; [congruence|]. left. destruct Hd4 as [Hs (dl & H1 & H2 & H3)]. split.
      * destruct Hs as (e' & ? & ? & ? & ? & Hs1 & Hs2 & Hs3 & Hs4). exists e'. do 4 eexists.
        split_and!; [done..|]. rewrite Hx. exact Hs4.
      * exists e, dl. split_and!; [done..|]. by rewrite Hdd.
    + destruct Hd4 as [H1 H2]. split_and!; [congruence|rewrite Hdd, H2, Hr; done|]. left.
      exists e, fnow, fd, ferr, frs.
      split_and!; [done|by eapply claimed_by_state|by eapply claimed_by_runner|by rewrite Hx, H1, Hr].
Qed.

(** Alerts after the write do not change what it settled. *)
Lemma settled_alerts from st w0 w1 w2 :
  alerts_only w1 w2 -> settled id rid from st (tbl w0) (tbl w1) -> settled id rid from st (tbl w0) (tbl w2).
Proof.
  intros [[Hx _] [_ _]] (e & now & d & err & rs & H1 & H2 & H3 & H4). exists e, now, d, err, rs.
  split_and!; [done..|]. by rewrite Hx.
Qed.

Lemma finish_settles st err rs now w w' :
  finish event id st err rs now w = (w', Ok true) ->
  settled id rid [EClaimed] st (tbl w) (tbl w') /\ tb_dead (tbl w') = tb_dead (tbl w) /\ w_app w' = w_app w.
Proof.
  intros (Ha & _ & e & He & Hcl & Et)%finish_spec. split_and!; [|by rewrite Et|done].
  exists e. do 4 eexists.
  split_and!; [done|by eapply claimed_by_state|by eapply claimed_by_runner|by rewrite Et].
Qed.

Lemma finish_stale e st err rs now w w' :
  tb_execs (tbl w) !! id = Some e -> ce_status event <> CCancelled ->
  finish event id st err rs now w = (w', Ok false) -> outcome_effect jobs id rid event w w' PStale.
Proof. intros He Hst (Ha & Ht & Et & Hno)%finish_spec. split_and!; [done..|]. eauto. Qed.

Lemma finish_unrecorded st err rs now w w' x :
  ce_status event <> CCancelled ->
  finish event id st err rs now w = (w', Err x) -> outcome_effect jobs id rid event w w' PUnrecorded.
Proof.
  intros Hst Hf. pose proof Hf as (Ha & Ht & Et)%finish_spec. split_and!; [done..|].
  do 5 eexists. eapply failed_call_here; [exact Hf|apply rtc_refl].
Qed.

Lemma apply_outcome_effect e job now oc w w' o :
  tb_execs (tbl w) !! id = Some e -> ce_status event <> CCancelled ->
  (oc = OSuccess -> ce_status event = CSuccess) -> oc <> OCancelled ->
  (forall n d, oc = ORetry n d -> n = wrap_u32 (ce_attempt event + 1)) ->
  apply_outcome transport alerts event id e job now oc w = (w', o) ->
  outcome_effect jobs id rid event w w' o.
Proof.
  intros He Hst Hsucc Hnc Hn Hrun. destruct oc as [|n delay|reason hint expires|reason|]; [..|done];
    cbn [apply_outcome] in Hrun.
  - apply bind_eq in Hrun as (w1 & r & Hf & Hrun). destruct r as [[]|err].
    + apply bind_eq in Hrun as (w2 & [] & Hk%end_incident_keeps & Hrun). injection Hrun as <- <-.
      apply finish_settles in Hf as (Hs & Hd & Ha). pose proof Hk as [(_ & Hd2 & _) [Ha2 _]].
      cbn. split_and!; [congruence..|]. left. split; [by eapply settled_alerts|by apply Hsucc].
    + injection Hrun as <- <-. by eapply finish_stale.
    + injection Hrun as <- <-. by eapply finish_unrecorded.
  - apply bind_eq in Hrun as (w1 & r & Hf & Hrun). destruct r as [[]|err].
    + apply finish_spec in Hf as (Ha & _ & e' & He' & Hcl & Et).
      assert (e' = e) as -> by congruence.
      eapply spawn_retry_effect; [by eapply Hn|exact He|exact Hcl|reflexivity|exact Ha| |exact Hrun].
      by do 4 eexists.
    + injection Hrun as <- <-. by eapply finish_stale.
    + injection Hrun as <- <-. by eapply finish_unrecorded.
  - apply bind_eq in Hrun as (w1 & dlid & [= <- <-] & Hrun).
    apply bind_eq in Hrun as (w2 & r & Hc & Hrun).
    pose proof (bury_spec _ _ _ _ _ _ _ _ _ Hc) as (Ha & Ht & Hb).
    change (tbl (MkWorld _ _ _ _ _)) with (tbl w) in Hb. cbn [w_app w_throttle] in Ha, Ht.
    destruct r as [[]|err].
    2: { injection Hrun as <- <-. destruct Hb as [Hb Hno]. split_and!; [done..|]. eauto. }
    all: apply bind_eq in Hrun as (w3 & [] & Hk%fire_alerts_keeps & Hrun); injection Hrun as <- <-;
         pose proof Hk as [(Hx & Hd2 & Hrest) [Ha2 Hr]]; cbn [outcome_effect]; (split; [congruence|]).
    + left. destruct Hb as (e' & He' & Hin & Hrid & Hnone & Et).
      assert (e' = e) as -> by congruence. split.
      * exists e. do 4 eexists. split_and!; [done..|by rewrite Hx, Et].
      * exists e. eexists. split; [done|]. split; [|split; [exact Hnone|by rewrite Hd2, Et]]. by split_and!.
    + right. rewrite <- Hb at 1. split; [done|]. do 4 eexists.
      exact (failed_call_here _ _ _ _ _ Hc Hr).
  - apply bind_eq in Hrun as (w1 & r & Hf & Hrun). destruct r as [[]|err].
    2: { injection Hrun as <- <-. by eapply finish_stale. }
    all: apply bind_eq in Hrun as (w3 & [] & Hk%fire_alerts_keeps & Hrun); injection Hrun as <- <-;
         pose proof Hk as [(Hx & Hd2 & Hrest) [Ha2 Hr]]; cbn [outcome_effect].
    + apply finish_settles in Hf as (Hs & Hd & Ha). split_and!; [congruence..|]. left.
      by eapply settled_alerts.
    + pose proof Hf as (Ha & _ & Et)%finish_spec. split_and!; [congruence..|]. right.
      rewrite <- Et at 1. split; [done|]. do 4 eexists. by eapply failed_call_here.
Qed.

Lemma cancel_effect e now w w' r :
  tb_execs (tbl w) !! id = Some e -> ce_status event = CCancelled ->
  finish event id ECancelled None None now w = (w', r) ->
  outcome_effect jobs id rid event w w' PCompleted.
Proof.
  intros He Hc Hf. cbn [outcome_effect]. destruct r as [[]|err].
  - apply finish_settles in Hf as (Hs & Hd & Ha). split_and!; [done..|]. right; left. by split.
  - apply finish_spec in Hf as (Ha & _ & Et & Hno). rewrite Et. split_and!; [done..|].
    right; right. split_and!; [done..|]. left. eauto.
  - pose proof Hf as (Ha & _ & Et)%finish_spec. rewrite Et. split_and!; [done..|].
    right; right. split_and!; [done..|]. right. do 2 eexists.
    eapply failed_call_here; [exact Hf|apply rtc_refl].
Qed.
End Process.

Lemma evaluate_not_cancelled random p r : evaluate_outcome random p r <> OCancelled.
Proof. unfold evaluate_outcome. repeat case_match; done. Qed.
Lemma evaluate_success random p r : evaluate_outcome random p r = OSuccess -> er_success r = true.
Proof. unfold evaluate_outcome. by repeat case_match. Qed.
Lemma evaluate_retry random p r n d :
  evaluate_outcome random p r = ORetry n d -> n = wrap_u32 (er_attempt r + 1).
Proof. unfold evaluate_outcome. repeat case_match; congruence. Qed.

Lemma take_ephemeral_miss a eid : (take_ephemeral a eid).2 = false -> (take_ephemeral a eid).1 = a.
Proof.
  unfold take_ephemeral. cbn. intros Hn%bool_decide_eq_false. apply eq_None_not_Some in Hn.
  rewrite delete_id by done. by destruct a.
Qed.

(** C5. The outcome a completion reports is what happened, whatever the store
    calls returned.
    [Stale] changed nothing, alert tables and throttle included, and is answered
    only for an execution the reporting runner does not hold as claimed.
    [Unrecorded] changed nothing, and the store had reported an error for the
    write. [NotFound] changed nothing, and the row or its job was not found, or
    the store could not be read.
    [Completed] ended the execution the reporting runner held; for a cancel it is
    also answered when nothing was written, because the runner no longer held the
    row or because the store reported an error, the claim then staying as it was.
    [Retrying] failed the held execution and added exactly one new queued
    execution and its work item, with the next attempt number and the same
    logical fire time, metadata and idempotency key.
    [DeadLettered] ended an execution the reporting runner held, or one that had
    already failed in its hands, and stored a letter with its job, fire times,
    attempt and metadata; [Dropped] failed the held execution without one. Both
    are given without such a write only when the store reported an error for it,
    and then no row of an execution, letter, log, trigger or definition changed.
    [Ephemeral] is answered for an execution without a row that was in flight in
    memory, and takes it out. *)
Theorem completion_outcomes_exact jobs alerts random event w w' o :
  process transport jobs alerts random event w = (w', o) ->
  match parse_uuid (ce_execution_id event) with
  | None => o = PNotFound /\ unchanged w w'
  | Some id => outcome_effect jobs id (ce_runner_id event) event w w' o
  end.
Proof.
  intros Hrun. unfold process in Hrun. apply bind_eq in Hrun as (w1 & now & [= <- <-] & Hrun).
  destruct (parse_uuid (ce_execution_id event)) as [id|]; [|by injection Hrun as <- <-].
  apply bind_eq in Hrun as (w2 & r & Hcall & Hrun).
  pose proof (ran_call _ _ _ _ Hcall) as Hran2. pose proof Hcall as (Et2 & Ha2 & Ht2 & Hget)%get_spec.
  change (tbl (MkWorld _ _ _ _ _)) with (tbl w) in Et2, Hget. cbn [w_app w_throttle w_store] in Ha2, Ht2, Hran2.
  destruct r as [[e|]|err].
  3: { injection Hrun as <- <-. split_and!; [done..|]. left.
       exact (failed_call_here _ _ _ _ _ Hcall (rtc_refl _ _)). }
  all: specialize (Hget _ eq_refl); symmetry in Hget.
  2: { apply bind_eq in Hrun as (w3 & eph & Htk & Hrun). injection Hrun as <- <-.
       unfold update_app in Htk. pose proof (take_ephemeral_miss (w_app w2) (ce_execution_id event)) as Hm.
       destruct (take_ephemeral (w_app w2) (ce_execution_id event)) as [a b] eqn:Ek.
       injection Htk as <- <-.
       pose proof Ek as [= _ Hb]. rewrite Ha2 in Hb.
       destruct b; cbn [outcome_effect]; change (tbl (set_app _ _)) with (tbl w2).
       - split_and!; [done|done|by apply bool_decide_eq_true in Hb|by rewrite <- Ha2, Ek].
       - cbn in Hm. rewrite Hm by done. split_and!; [done..|]. right; left. split; [done|].
         apply bool_decide_eq_false in Hb. by apply eq_None_not_Some. }
  apply bind_eq in Hrun as (w3 & job & (Et3 & Ha3 & Ht3 & Hran3 & Hno)%resolve_spec & Hrun).
  assert (unchanged w w3) as Hun by (split_and!; congruence).
  assert (ran (w_store w) (w_store w3)) as Hran by (by etrans).
  rewrite <- Et2, <- Et3 in Hget.
  destruct job as [job|].
  2: { injection Hrun as <- <-. split; [done|]. right; right. exists e.
       split; [congruence|]. eapply unknown_job_shift; [exact Hran2|done|by apply Hno]. }
  eapply outcome_effect_shift; [exact Hun|exact Hran|]. case_bool_decide as Hcan.
  - apply bind_eq in Hrun as (w4 & r & Hf & Hrun). injection Hrun as <- <-.
    by eapply cancel_effect.
  - eapply apply_outcome_effect; [exact Hget|done|..|exact Hrun].
    + intros Hs%evaluate_success. by apply bool_decide_eq_true in Hs.
    + apply evaluate_not_cancelled.
    + intros n d Hn. by apply evaluate_retry in Hn.
Qed.
End Facts.

(** ** An example *)

(** The first attempt of an API-defined job (three attempts) fails: it is
    retried, as attempt 2 under the next id. *)
Definition demo_failed_world : World SqliteStore :=
  demo_world [demo_claimed "a" "web:hook" "r1" 0 ∅] [] [].
Definition demo_failure : CompletionEvent := {|
  ce_runner_id := "r1"; ce_execution_id := "a"; ce_status := CFailure; ce_error := Some "boom";
  ce_duration_ms := 5; ce_attempt := 1 |}.
Definition demo_retry_job : JobConfig := job_config_from_job_def {|
  jd_job_key := "web:hook"; jd_description := None; jd_assigned_runner_id := None;
  jd_is_active := true; jd_metadata := ∅; jd_created_at := 0; jd_updated_at := 0;
  jd_timeout := None; jd_max_retries := Some 3; jd_dead_letter_enabled := None;
  jd_dead_letter_retention := None; jd_dead_letter_operator_hint := None;
  jd_dead_letter_replay_max_age := None; jd_tags := [] |}.
Abbreviation demo_process :=
  (process (fun _ _ _ _ _ => SDelivered) [demo_retry_job] alerts_none f64_zero demo_failure
     demo_failed_world).

Lemma completion_outcomes_exact_witness :
  demo_process.2 = PRetrying 2
  /\ (exists e retry n, retry_of e retry n /\ tb_execs (tbl demo_process.1) !! ex_id retry = Some retry).
Proof.
  assert (demo_process.2 = PRetrying 2) as Ho by (vm_compute; reflexivity).
  split; [exact Ho|]. destruct demo_process as [w' o] eqn:Hrun. cbn in Ho. rewrite Ho in Hrun.
  destruct (completion_outcomes_exact _ _ _ _ _ _ _ _ Hrun)
    as (_ & _ & e & retry & item & Hr & _ & _ & (? & ? & ? & ? & Et) & _).
  exists e, retry, 2. split; [exact Hr|]. cbn [fst]. rewrite Et. apply lookup_insert_eq.
Defined.
