(* ===== verification/ExecutionApi.v ===== *)
(** * Requests about executions, leases and dead letters

    Models the handlers of [croniq-server/src/api/] that act on one execution
    or dead letter: [work.rs] (lease renewal, log events), [executions.rs]
    (cancel), [dead_letters.rs] (list, count, read, delete, replay), with the
    binding of a runner id to a credential ([runner_identity.rs]) and the audit
    record ([audit.rs]). Each takes the authenticated caller and makes the
    source's own scope and identity checks; the poll and completion handlers of
    [Dispatch.v] get theirs here too. *)

From S2P Require Import Prelude RustStr Chrono RunnerTypes Queue Registry RunnerApi.
From S2P Require Import Durations Execution JobConfig Store StoreCalls Server Caller.
From S2P Require Import Requeue Dispatch TriggerApi Alerts Completion.

Local Open Scope string_scope.
Local Open Scope Z_scope.

Definition HTTP_NOT_FOUND : Z := 404.
Definition HTTP_NO_CONTENT : Z := 204.
Definition REQUESTED_BY_REPLAY : string := "replay".

Section Requests.
  Context `{J : Json} `{E : Env} {St : Type} `{SO : StoreOps St}.
  Context (has_store : bool) (dsl_jobs : option (list JobConfig)).
  (** [runner_identity_binding && jwt_config.is_some()] *)
  Context (binding : bool).

(** ** The audit record *)

(** [actor_type_str] *)
Definition actor_type_str (ctx : CallerContext) : string :=
  match cc_auth_method ctx with
  | AmPassword => "user" | AmApiKey => "api_key" | AmPat => "pat" | AmOidc => "oidc"
  end.

(** [audit::record]; a failed write is only logged. *)
Definition record (ctx : CallerContext) (action target_type : string)
    (target_id diff_json : option string) : M St unit :=
  id ← new_uuid;
  now ← utc_now;
  _ ← call (AuditLog {| ae_event_id := id; ae_actor_type := actor_type_str ctx;
                        ae_actor_id := option_or (cc_user_id ctx) (Some (cc_caller_id ctx));
                        ae_action := action; ae_target_type := target_type;
                        ae_target_id := target_id; ae_diff_json := diff_json; ae_ip_address := None;
                        ae_user_agent := None; ae_created_at := now |});
  mret tt.

(** ** Runner identities *)

(** [enforced] *)
Definition enforced : bool := binding && has_store.

(** [authorize_runner] *)
Definition authorize_runner (ctx : CallerContext) (rid : string) : M St (result unit Z) :=
  if negb enforced then mret (Ok tt)
  else
    let caller := cc_client_id ctx in
    now ← utc_now;
    r ← call (BindRunner rid caller now);
    match r with
    | Err _ => mret (Err HTTP_UNAVAILABLE)
    | Ok owner =>
        if String.eqb owner caller then mret (Ok tt)
        else
          _ ← record_event "system" None "runner.identity_rejected" "runner" (Some rid);
          mret (Err HTTP_FORBIDDEN)
    end.

(** [authorize_execution] *)
Definition authorize_execution (ctx : CallerContext) (id : string) : M St (result unit Z) :=
  if negb enforced then mret (Ok tt)
  else
    r ← call (GetExecution id);
    match r with
    | Err _ => mret (Err HTTP_UNAVAILABLE)
    | Ok None => mret (Err HTTP_NOT_FOUND)
    | Ok (Some execution) =>
        match ex_runner_id execution with
        | None => mret (Err HTTP_FORBIDDEN)
        | Some rid => authorize_runner ctx rid
        end
    end.

(** The checks the work requests open with: the status they refuse with. *)
Definition work_guard (ctx : CallerContext) (scope rid : string) : M St (option Z) :=
  match require_scope ctx scope with
  | Err status => mret (Some status)
  | Ok _ =>
      r ← authorize_runner ctx rid;
      mret match r with Err status => Some status | Ok _ => None end
  end.

(** The whole of [handle_poll] and [handle_complete]. *)
Definition poll_request (ctx : CallerContext) (m : MaintenanceState) (order : list string)
    (wakes : list WakeUp) (req : PollRequest) : M St (Z * PollResponse * list string) :=
  refused ← work_guard ctx Scope.WORK_POLL (pr_runner_id req);
  handle_poll has_store dsl_jobs refused m order wakes req.
Definition complete_request (ctx : CallerContext) (channel_closed : bool) (req : CompletionEvent)
    : M St (Z * bool * option CompletionEvent) :=
  refused ← work_guard ctx Scope.WORK_ACK (ce_runner_id req);
  handle_complete refused channel_closed req.

(** ** Lease renewal *)

(** [handle_renew], from the lookup of the execution on: the status it refuses
    with. *)
Definition renew_refused (rid eid : string) : M St (option Z) :=
  if negb has_store then mret None
  else match parse_uuid eid with
  | None => mret (Some HTTP_NOT_FOUND)
  | Some id =>
      r ← call (GetExecution id);
      match r with
      | Err _ => mret (Some HTTP_UNAVAILABLE)
      | Ok (Some execution) =>
          mret (if negb (has_state EClaimed execution)
                   || negb (bool_decide (ex_runner_id execution = Some rid))
                then Some HTTP_CONFLICT else None)
      | Ok None =>
          ephemeral ← get_app (fun a => bool_decide (is_Some (ephemeral_inflight a !! eid)));
          mret (if ephemeral : bool then None else Some HTTP_NOT_FOUND)
      end
  end.

Definition set_last_poll (now : instant) (r : Runner) : Runner := {|
  runner_id := runner_id r; capabilities := capabilities r; max_inflight := max_inflight r;
  last_poll_at := now; inflight := inflight r; instance_id := instance_id r;
  deposed_instance_id := deposed_instance_id r; tags := tags r |}.
Definition bump_heartbeat (rid : string) (now : instant) (a : AppState) : AppState :=
  set_registry (set_runners (alter (set_last_poll now) rid (runners (registry a))) (registry a)) a.

(** [handle_renew] *)
Definition handle_renew (ctx : CallerContext) (rid eid : string) : M St (Z * bool) :=
  guard ← work_guard ctx Scope.WORK_RENEW rid;
  match guard with
  | Some status => mret (status, false)
  | None =>
      now ← utc_now;
      refused ← renew_refused rid eid;
      match refused with
      | Some status => mret (status, false)
      | None =>
          _ ← modify_app (fun a => touch_leases a rid [eid] now);
          _ ← modify_app (bump_heartbeat rid now);
          mret (HTTP_OK, true)
      end
  end.

(** ** Log events *)

Record WorkEvent := {
  we_level : option string;
  we_message : string;
  we_fields : gmap string string
}.

Fixpoint event_entries (eid : string) (now : instant) (events : list WorkEvent)
    : M St (list ExecutionLogEntry) :=
  match events with
  | [] => mret []
  | event :: events =>
      id ← new_uuid;
      rest ← event_entries eid now events;
      mret ({| le_id := id; le_execution_id := eid; le_timestamp := now;
               le_level := default "info" (we_level event); le_message := we_message event;
               le_fields := we_fields event; le_seq := 0 |} :: rest)
  end.

(** [handle_events] *)
Definition handle_events (ctx : CallerContext) (execution_id : string) (events : list WorkEvent)
    : M St (result nat Z) :=
  match require_scope ctx Scope.WORK_EVENTS with
  | Err status => mret (Err status)
  | Ok _ =>
      if negb has_store then mret (Err HTTP_UNAVAILABLE)
      else match parse_uuid execution_id with
      | None => mret (Err HTTP_BAD_REQUEST)
      | Some eid =>
          allowed ← authorize_execution ctx eid;
          match allowed with
          | Err status => mret (Err status)
          | Ok _ =>
              now ← utc_now;
              entries ← event_entries eid now events;
              r ← call (AppendLogs entries);
              mret match r with
                   | Ok _ => Ok (length entries)
                   | Err _ => Err HTTP_UNAVAILABLE
                   end
          end
      end
  end.

(** ** Cancel *)

Record CancelResponse := {
  cr_execution_id : string;
  cr_cancelled : bool;
  cr_delivered_via_runner : bool
}.

(** The [match] on the state: whether the cancel went to the runner. *)
Definition cancel_by_state (id : string) (execution : Execution) (now : instant)
    : M St (result bool Z) :=
  match ex_state execution with
  | ECancelled => mret (Ok false)
  | EQueued =>
      r ← call (CancelExecution id now);
      mret match r with Ok _ => Ok false | Err _ => Err HTTP_INTERNAL_SERVER_ERROR end
  | EClaimed =>
      match ex_runner_id execution with
      | None => mret (Err HTTP_INTERNAL_SERVER_ERROR)
      | Some rid =>
          _ ← modify_app (fun a => push_cancel a rid id);
          r ← call (CancelExecution id now);
          mret match r with Ok _ => Ok true | Err _ => Err HTTP_INTERNAL_SERVER_ERROR end
      end
  | ECompleted | EFailed | EDead => mret (Err HTTP_CONFLICT)
  end.

(** [handle_cancel] *)
Definition handle_cancel (ctx : CallerContext) (id : string) : M St (result CancelResponse Z) :=
  match require_scope ctx Scope.EXECUTIONS_CANCEL with
  | Err status => mret (Err status)
  | Ok _ =>
      if negb has_store then mret (Err HTTP_UNAVAILABLE)
      else match parse_uuid id with
      | None => mret (Err HTTP_BAD_REQUEST)
      | Some uuid =>
          found ← call (GetExecution uuid);
          match found with
          | Err _ => mret (Err HTTP_INTERNAL_SERVER_ERROR)
          | Ok None => mret (Err HTTP_NOT_FOUND)
          | Ok (Some execution) =>
              now ← utc_now;
              r ← cancel_by_state uuid execution now;
              match r with
              | Err status => mret (Err status)
              | Ok delivered =>
                  _ ← (if has_state ECancelled execution then mret tt
                       else record ctx "execution.cancelled" "execution" (Some uuid) None);
                  mret (Ok {| cr_execution_id := uuid; cr_cancelled := true;
                              cr_delivered_via_runner := delivered |})
              end
          end
      end
  end.

(** ** Dead letters *)

(** The opening of every dead-letter handler. *)
Definition letters_guard (ctx : CallerContext) (scope : string) : result unit Z :=
  match require_scope ctx scope with
  | Err status => Err status
  | Ok _ => if has_store then Ok tt else Err HTTP_UNAVAILABLE
  end.
Definition or_internal {A} (r : result A StoreError) : result A Z :=
  match r with Ok a => Ok a | Err _ => Err HTTP_INTERNAL_SERVER_ERROR end.

(** [handle_count] *)
Definition handle_count (ctx : CallerContext) (job_key : option string) : M St (result Z Z) :=
  match letters_guard ctx Scope.DEAD_LETTERS_READ with
  | Err status => mret (Err status)
  | Ok _ => r ← call (CountDeadLetters job_key); mret (or_internal r)
  end.

(** [handle_list] *)
Definition handle_list (ctx : CallerContext) (job_key : option string) (limit : option Z)
    : M St (result (list DeadLetter) Z) :=
  match letters_guard ctx Scope.DEAD_LETTERS_READ with
  | Err status => mret (Err status)
  | Ok _ =>
      r ← call (ListDeadLetters {| df_job_key := job_key; df_limit := Some (default 50 limit) |});
      mret (or_internal r)
  end.

(** [handle_get] *)
Definition handle_get (ctx : CallerContext) (id : string) : M St (result DeadLetter Z) :=
  match letters_guard ctx Scope.DEAD_LETTERS_READ with
  | Err status => mret (Err status)
  | Ok _ =>
      match parse_uuid id with
      | None => mret (Err HTTP_BAD_REQUEST)
      | Some uuid =>
          r ← call (GetDeadLetter uuid);
          mret match or_internal r with
               | Err status => Err status
               | Ok (Some dl) => Ok dl
               | Ok None => Err HTTP_NOT_FOUND
               end
      end
  end.

(** [handle_delete] *)
Definition handle_delete (ctx : CallerContext) (id : string) : M St Z :=
  match letters_guard ctx Scope.DEAD_LETTERS_WRITE with
  | Err status => mret status
  | Ok _ =>
      match parse_uuid id with
      | None => mret HTTP_BAD_REQUEST
      | Some uuid =>
          r ← call (RemoveDeadLetter uuid);
          mret match r with Ok _ => HTTP_NO_CONTENT | Err _ => HTTP_INTERNAL_SERVER_ERROR end
      end
  end.

Record BulkDeleteRequest := { bd_ids : list string; bd_all : bool; bd_job_key : option string }.

(** [.map(parse_str).collect::<Result<Vec<_>, _>>()] *)
Fixpoint parse_uuids (l : list string) : option (list string) :=
  match l with
  | [] => Some []
  | s :: l =>
      match parse_uuid s with
      | None => None
      | Some id => cons id <$> parse_uuids l
      end
  end.

(** [handle_bulk_delete] *)
Definition handle_bulk_delete (ctx : CallerContext) (req : BulkDeleteRequest) : M St (result Z Z) :=
  match letters_guard ctx Scope.DEAD_LETTERS_WRITE with
  | Err status => mret (Err status)
  | Ok _ =>
      match bd_ids req with
      | [] =>
          if bd_all req then r ← call (ClearDeadLetters (bd_job_key req)); mret (or_internal r)
          else mret (Err HTTP_BAD_REQUEST)
      | ids =>
          match parse_uuids ids with
          | None => mret (Err HTTP_BAD_REQUEST)
          | Some uuids => r ← call (RemoveDeadLetters uuids); mret (or_internal r)
          end
      end
  end.

(** ** Replay *)

Record ReplayResponse := {
  rr_execution_id : string;
  rr_attempt : Z;
  rr_scheduled_for : instant
}.
Record ReplayError := {
  re_error : string;
  re_message : string;
  re_scheduled_for : instant;
  re_age_seconds : Z;
  re_replay_max_age : string
}.
Inductive ReplayApiError := RStatus (status : Z) | RStale (body : ReplayError).

(** [humanize_age] *)
Definition humanize_age (secs : Z) : string :=
  let secs := Z.max secs 0 in
  if 86400 <=? secs then show_uint (secs / 86400) ++ "d"
  else if 3600 <=? secs then show_uint (secs / 3600) ++ "h"
  else if 60 <=? secs then show_uint (secs / 60) ++ "m"
  else show_uint secs ++ "s".

(** [chrono::Duration::from_std(max_age).unwrap_or(chrono::Duration::MAX)] *)
Definition replay_limit (max_age : Duration) : Z := default (I64_MAX * NS_MS) (chrono_from_std max_age).

(** [stale_replay_check] *)
Definition stale_replay_check (job : option JobConfig) (scheduled_for now : instant) (force : bool)
    : option ReplayError :=
  if force then None
  else
    job ← job;
    max_age_str ← dlc_replay_max_age (jc_dead_letter job);
    max_age ← parse_duration max_age_str;
    let age := now - scheduled_for in
    if age <=? replay_limit max_age then None
    else
      let age_seconds := num_seconds age in
      Some {| re_error := "stale_replay";
              re_message := "Originally scheduled " ++ humanize_age age_seconds
                ++ " ago; job declares replay_max_age " ++ max_age_str
                ++ ". Pass force:true to replay anyway.";
              re_scheduled_for := scheduled_for; re_age_seconds := age_seconds;
              re_replay_max_age := max_age_str |}.

(** The row of a replay. *)
Definition replay_execution (id : string) (dl : DeadLetter) (now : instant) : Execution := {|
  ex_id := id; ex_job_key := dl_job_key dl; ex_fire_at := now; ex_scheduled_for := dl_scheduled_for dl;
  ex_attempt := wrap_u32 (dl_attempt dl + 1); ex_state := EQueued; ex_runner_id := None;
  ex_claimed_at := None; ex_started_at := None; ex_completed_at := None; ex_duration_ms := None;
  ex_error := None; ex_dead_reason := None; ex_idempotency_key := None;
  ex_metadata := mark_requested (dl_metadata dl) REQUESTED_BY_REPLAY; ex_created_at := now |}.

(** [metadata.get(key).and_then(from_str).or_else(job's).unwrap_or_default()] *)
Definition captured (dl : DeadLetter) (key : string) (of_job : JobConfig -> list string)
    (job : option JobConfig) : list string :=
  default [] (option_or (dl_metadata dl !! key ≫= parse_json_strings) (of_job <$> job)).

Definition replay_item (id : string) (dl : DeadLetter) (job : option JobConfig) (now : instant)
    : WorkItem := {|
  execution_id := id; wi_job_key := dl_job_key dl; fire_at := now; scheduled_for := dl_scheduled_for dl;
  attempt := wrap_u32 (dl_attempt dl + 1);
  require := captured dl REQUIRE_METADATA_KEY (fun j => rc_require (jc_runner j)) job;
  prefer := captured dl PREFER_METADATA_KEY (fun j => rc_prefer (jc_runner j)) job;
  metadata := of_map (dl_metadata dl);
  timeout := effective_timeout (dl_metadata dl) (job ≫= jc_timeout);
  is_ephemeral := false |}.

Section Replay.
  (** [serde_json::json!({force, age_seconds, new_execution_id}).to_string()] *)
  Context (replay_diff : bool -> Z -> string -> string).

(** From the stale check on. *)
Definition replay_letter (ctx : CallerContext) (id dl_uuid : string) (dl : DeadLetter) (force : bool)
    (job : option JobConfig) (now : instant) : M St (result ReplayResponse ReplayApiError) :=
  match stale_replay_check job (dl_scheduled_for dl) now force with
  | Some err => mret (Err (RStale err))
  | None =>
      new_id ← new_uuid;
      r ← call (ReplayDeadLetter dl_uuid (replay_execution new_id dl now));
      match r with
      | Err (NotFound _) => mret (Err (RStatus HTTP_NOT_FOUND))
      | Err _ => mret (Err (RStatus HTTP_INTERNAL_SERVER_ERROR))
      | Ok _ =>
          _ ← enqueue_item (replay_item new_id dl job now);
          _ ← record ctx "dead_letter.replayed" "dead_letter" (Some id)
                (Some (replay_diff force (num_seconds (now - dl_scheduled_for dl)) new_id));
          mret (Ok {| rr_execution_id := new_id; rr_attempt := wrap_u32 (dl_attempt dl + 1);
                      rr_scheduled_for := dl_scheduled_for dl |})
      end
  end.

(** [handle_replay]; the job's definition is looked up as for a trigger
    ([resolve_job_config]). *)
Definition handle_replay (ctx : CallerContext) (id : string) (body : option bool)
    : M St (result ReplayResponse ReplayApiError) :=
  match require_scope ctx Scope.DEAD_LETTERS_WRITE with
  | Err status => mret (Err (RStatus status))
  | Ok _ =>
      let force := default false body in
      if negb has_store then mret (Err (RStatus HTTP_UNAVAILABLE))
      else match parse_uuid id with
      | None => mret (Err (RStatus HTTP_BAD_REQUEST))
      | Some dl_uuid =>
          found ← call (GetDeadLetter dl_uuid);
          match found with
          | Err _ => mret (Err (RStatus HTTP_INTERNAL_SERVER_ERROR))
          | Ok None => mret (Err (RStatus HTTP_NOT_FOUND))
          | Ok (Some dl) =>
              now ← utc_now;
              job ← trigger_job has_store dsl_jobs (dl_job_key dl);
              replay_letter ctx id dl_uuid dl force job now
          end
      end
  end.
End Replay.
End Requests.
