(* ===== verification/ScheduleApi.v ===== *)
(** * Schedules over HTTP

    Models [croniq-server/src/api/schedules.rs] with [job_sync.rs], the
    [resolved_calendars] and [set_config_fault] of [api/mod.rs] and the trigger
    table of [croniq-store/src/sqlite.rs]. A request runs against the table, the
    faults the server reports and the commands it has sent to the scheduler;
    which calls the store refuses during the request is part of its
    environment. *)

From S2P Require Import Prelude RustStr Chrono Schedule Calendar Trigger Store StoreCalls JobConfig Scheduler Caller Dispatch TriggerApi.
From S2P Require Import Compile Validate ScheduleInput Loader ExecutionApi.

Local Open Scope string_scope.
Local Open Scope Z_scope.

Definition HTTP_CREATED : Z := 201.

(** The calls on the trigger table *)
Inductive TriggerCall := GetTrigger | ListTriggers | CreateTrigger | UpdateTrigger | DeleteTrigger.

Section Api.
  Context `{C : Chrono}.
  Context (TZ_VARIANTS : list string) (visit : gset string -> list string).
  Context (env_var : string -> option string) (read_file : string -> result string string).
  Context (exec_json : RunnerExec -> option string) (to_rfc3339 : instant -> string).

(** What a request finds: the parts of [ServerState] it reads, the store's
    answers, the clock (the row, then the sync) and the id it draws. *)
Record ApiEnv := {
  ae_store : bool;
  ae_scheduler_tx : bool;
  ae_dsl_jobs : option (list JobConfig);
  ae_dsl_calendars : option (list CalendarConfig);
  ae_strict_calendars : bool;
  ae_list_calendars : result (list CalendarDefinition) StoreError;
  ae_get_job_definition : string -> result (option JobDefinition) StoreError;
  ae_refuses : TriggerCall -> bool;
  ae_now : instant;
  ae_sync_now : instant;
  ae_new_id : string
}.
(** What it changes *)
Record ApiState := {
  as_rows : gmap string TriggerDefinition;
  as_commands : list SchedulerCommand;
  as_config_faults : gmap string string
}.
Definition with_rows (rows : gmap string TriggerDefinition) (st : ApiState) : ApiState :=
  {| as_rows := rows; as_commands := as_commands st; as_config_faults := as_config_faults st |}.
Definition send (c : SchedulerCommand) (st : ApiState) : ApiState :=
  {| as_rows := as_rows st; as_commands := app (as_commands st) [c]; as_config_faults := as_config_faults st |}.

(** [ServerState::set_config_fault] *)
Definition set_config_fault (job_key : string) (fault : option string) (st : ApiState) : ApiState :=
  {| as_rows := as_rows st; as_commands := as_commands st;
     as_config_faults := match fault with
                         | Some reason => <[job_key := reason]> (as_config_faults st)
                         | None => delete job_key (as_config_faults st)
                         end |}.

(** ** The trigger table *)

Definition oldest_first (a b : TriggerDefinition) : Prop := td_created_at a <= td_created_at b.
#[local] Instance oldest_first_dec : RelDecision oldest_first.
Proof. intros a b. unfold oldest_first. apply _. Defined.

(** [list_triggers] *)
Definition list_triggers (env : ApiEnv) (st : ApiState) (job_key : option string)
    : result (list TriggerDefinition) StoreError :=
  if ae_refuses env ListTriggers then Err (Database "list_triggers")
  else Ok (merge_sort oldest_first
             (List.filter (fun t => match job_key with Some k => String.eqb (td_job_key t) k | None => true end)
                (map snd (map_to_list (as_rows st))))).
(** [get_trigger] *)
Definition get_trigger (env : ApiEnv) (st : ApiState) (id : string) : result (option TriggerDefinition) StoreError :=
  if ae_refuses env GetTrigger then Err (Database "get_trigger") else Ok (as_rows st !! id).
(** [create_trigger] (an id drawn again replaces all but [created_at]) *)
Definition set_created (at_ : instant) (t : TriggerDefinition) : TriggerDefinition := {|
  td_trigger_id := td_trigger_id t; td_job_key := td_job_key t; td_cron_expression := td_cron_expression t;
  td_timezone := td_timezone t; td_calendar := td_calendar t; td_window := td_window t;
  td_not_before := td_not_before t; td_not_after := td_not_after t; td_enabled := td_enabled t;
  td_managed_by := td_managed_by t; td_created_at := at_; td_updated_at := td_updated_at t |}.
Definition create_trigger (env : ApiEnv) (t : TriggerDefinition) (st : ApiState) : result ApiState StoreError :=
  if ae_refuses env CreateTrigger then Err (Database "create_trigger")
  else let row := match as_rows st !! td_trigger_id t with
                  | Some old => set_created (td_created_at old) t
                  | None => t
                  end in
       Ok (with_rows (<[td_trigger_id t := row]> (as_rows st)) st).
(** [update_trigger]: the editable columns, of a row the file does not own *)
Definition set_editable (old t : TriggerDefinition) : TriggerDefinition := {|
  td_trigger_id := td_trigger_id old; td_job_key := td_job_key old; td_cron_expression := td_cron_expression t;
  td_timezone := td_timezone t; td_calendar := td_calendar t; td_window := td_window t;
  td_not_before := td_not_before old; td_not_after := td_not_after old; td_enabled := td_enabled t;
  td_managed_by := td_managed_by old; td_created_at := td_created_at old; td_updated_at := td_updated_at t |}.
Definition update_trigger (env : ApiEnv) (t : TriggerDefinition) (st : ApiState) : result (ApiState * bool) StoreError :=
  if ae_refuses env UpdateTrigger then Err (Database "update_trigger")
  else match as_rows st !! td_trigger_id t with
       | Some old =>
           if String.eqb (td_managed_by old) "dsl" then Ok (st, false)
           else Ok (with_rows (<[td_trigger_id t := set_editable old t]> (as_rows st)) st, true)
       | None => Ok (st, false)
       end.
(** [delete_trigger] *)
Definition delete_trigger (env : ApiEnv) (id : string) (st : ApiState) : result ApiState StoreError :=
  if ae_refuses env DeleteTrigger then Err (Database "delete_trigger")
  else Ok (with_rows (delete id (as_rows st)) st).

(** ** Into the scheduler ([job_sync.rs]) *)

(** [is_dsl_managed] of [jobs.rs] *)
Definition is_dsl_managed (env : ApiEnv) (job_key : string) : bool :=
  match ae_dsl_jobs env with
  | Some jobs => existsb (fun j => String.eqb (jc_key j) job_key) jobs
  | None => false
  end.

(** [ServerState::resolved_calendars] *)
Definition resolved_calendars (env : ApiEnv) : ResolvedCalendars :=
  resolve_calendars TZ_VARIANTS visit env_var read_file exec_json
    (default [] (ae_dsl_calendars env))
    (if ae_store env then match ae_list_calendars env with Ok l => l | Err _ => [] end else [])
    (ae_strict_calendars env).

(** [remove_job] *)
Definition remove_job (env : ApiEnv) (job_key : string) (st : ApiState) : ApiState :=
  if ae_scheduler_tx env then send (RemoveJob job_key) st else st.

Definition usable (t : TriggerDefinition) : bool := negb (String.eqb (td_managed_by t) "dsl") && td_enabled t.

(** [sync_job_with], [sync_job] *)
Definition sync_job_with (env : ApiEnv) (job_key : string) (edited : option TriggerDefinition)
    (calendars : option ResolvedCalendars) (st : ApiState) : ApiState :=
  if negb (ae_scheduler_tx env) || negb (ae_store env) then st
  else if is_dsl_managed env job_key then st
  else
    let job_def := match ae_get_job_definition env job_key with Ok d => d | Err _ => None end in
    if match job_def with Some def => negb (jd_is_active def) | None => false end then remove_job env job_key st
    else
      let trigger_def := match edited with
                         | Some t => if usable t then Some t else None
                         | None => List.find usable (match list_triggers env st (Some job_key) with
                                                     | Ok l => l
                                                     | Err _ => []
                                                     end)
                         end in
      match trigger_def with
      | None => remove_job env job_key st
      | Some def =>
          let resolved := default (resolved_calendars env) calendars in
          match trigger_from_definition TZ_VARIANTS def resolved (ae_sync_now env) with
          | None => remove_job env job_key st
          | Some built =>
              set_config_fault (td_job_key def) (bt_config_fault built)
                (send (AddJob (job_config_from_definition to_rfc3339 def job_def) (bt_trigger built)) st)
          end
      end.
Definition sync_job (env : ApiEnv) (job_key : string) (st : ApiState) : ApiState :=
  sync_job_with env job_key None None st.

(** ** Requests ([schedules.rs]) *)

Definition verr {A} (status : Z) (error message : string) : result A (Z * InputError) :=
  Err (status, {| ie_code := error; ie_message := message |}).
Definition bad_input (r : result unit InputError) : result unit (Z * InputError) :=
  map_err (fun e => (HTTP_BAD_REQUEST, e)) r.

(** [check_calendar_known], [check_timezone_valid], [check_schedule_fields] *)
Definition check_calendar_known (calendar : option string) (resolved : ResolvedCalendars)
    : result unit (Z * InputError) :=
  match calendar with
  | None => Ok tt
  | Some name =>
      if str_is_empty name || bool_decide (is_Some (res_calendars resolved !! name))
         || bool_decide (is_Some (res_errors resolved !! name))
      then Ok tt
      else verr HTTP_BAD_REQUEST "unknown_calendar" ("calendar '" ++ name ++ "' is not defined")
  end.
Definition check_timezone_valid (timezone : option string) : result unit (Z * InputError) :=
  bad_input (check_timezone TZ_VARIANTS timezone).
Definition check_schedule_fields (cron_expression window : option string) : result unit (Z * InputError) :=
  res_bind (bad_input (check_schedule cron_expression)) (fun _ => bad_input (check_window window)).

Definition require_write (ctx : CallerContext) : result unit (Z * InputError) :=
  map_err (fun s => (s, {| ie_code := "forbidden"; ie_message := "missing scope: " ++ Scope.SCHEDULES_WRITE |}))
    (require_scope ctx Scope.SCHEDULES_WRITE).
Definition dsl_managed {A} (message : string) : result A (Z * InputError) :=
  verr HTTP_CONFLICT "dsl_managed" message.

Record CreateTriggerRequest := {
  cr_job_key : string;
  cr_cron_expression : option string;
  cr_timezone : option string;
  cr_calendar : option string;
  cr_window : option string;
  cr_enabled : bool
}.
Record UpdateTriggerRequest := {
  ur_cron_expression : option string;
  ur_timezone : option string;
  ur_enabled : option bool;
  ur_calendar : option string;
  ur_window : option string
}.

(** [handle_list], [handle_get] *)
Definition handle_list (env : ApiEnv) (ctx : CallerContext) (job_key : option string) (st : ApiState)
    : result (list TriggerDefinition) Z :=
  res_bind (require_scope ctx Scope.SCHEDULES_READ) (fun _ =>
    if negb (ae_store env) then Err HTTP_UNAVAILABLE
    else match list_triggers env st job_key with
         | Err _ => Err HTTP_INTERNAL_SERVER_ERROR
         | Ok rows =>
             Ok (fold_left (fun rows cfg =>
                   if match job_key with Some k => negb (String.eqb (jc_key cfg) k) | None => false end then rows
                   else app (List.filter (fun t => negb (String.eqb (td_job_key t) (jc_key cfg))) rows)
                          [synth_trigger_def_from_dsl cfg (ae_now env)])
                   (default [] (ae_dsl_jobs env)) rows)
         end).
Definition handle_get (env : ApiEnv) (ctx : CallerContext) (trigger_id : string) (st : ApiState)
    : result TriggerDefinition Z :=
  res_bind (require_scope ctx Scope.SCHEDULES_READ) (fun _ =>
    match strip_prefix "dsl:" trigger_id, ae_dsl_jobs env with
    | Some job_key, Some jobs =>
        match List.find (fun j => String.eqb (jc_key j) job_key) jobs with
        | Some cfg => Ok (synth_trigger_def_from_dsl cfg (ae_now env))
        | None => Err HTTP_NOT_FOUND
        end
    | _, _ =>
        if negb (ae_store env) then Err HTTP_UNAVAILABLE
        else match get_trigger env st trigger_id with
             | Err _ => Err HTTP_INTERNAL_SERVER_ERROR
             | Ok r => ok_or r HTTP_NOT_FOUND
             end
    end).

(** [handle_create] *)
Definition created_row (env : ApiEnv) (req : CreateTriggerRequest) : TriggerDefinition := {|
  td_trigger_id := ae_new_id env; td_job_key := cr_job_key req; td_cron_expression := cr_cron_expression req;
  td_timezone := cr_timezone req; td_calendar := cr_calendar req; td_window := cr_window req;
  td_not_before := None; td_not_after := None; td_enabled := cr_enabled req; td_managed_by := "api";
  td_created_at := ae_now env; td_updated_at := ae_now env |}.
Definition check_create (env : ApiEnv) (ctx : CallerContext) (req : CreateTriggerRequest)
    : result unit (Z * InputError) :=
  res_bind (require_write ctx) (fun _ =>
    if negb (ae_store env) then verr HTTP_UNAVAILABLE "no_store" "store unavailable"
    else if is_dsl_managed env (cr_job_key req)
    then dsl_managed ("job '" ++ cr_job_key req ++ "' is scheduled by the Croniqfile")
    else
      res_bind (check_schedule_fields (cr_cron_expression req) (cr_window req)) (fun _ =>
      res_bind (check_calendar_known (cr_calendar req) (resolved_calendars env)) (fun _ =>
      check_timezone_valid (cr_timezone req)))).
Definition handle_create (env : ApiEnv) (ctx : CallerContext) (req : CreateTriggerRequest) (st : ApiState)
    : result (Z * TriggerDefinition) (Z * InputError) * ApiState :=
  match check_create env ctx req with
  | Err e => (Err e, st)
  | Ok _ =>
      let trigger := created_row env req in
      match create_trigger env trigger st with
      | Err _ => (verr HTTP_INTERNAL_SERVER_ERROR "store_error" "failed to persist schedule", st)
      | Ok st => (Ok (HTTP_CREATED, trigger),
                  sync_job_with env (td_job_key trigger) (Some trigger) (Some (resolved_calendars env)) st)
      end
  end.

(** [handle_update] *)
Definition cleared (sent current : option string) : option string :=
  match sent with Some s => if str_is_empty s then None else Some s | None => current end.
Definition edited_row (env : ApiEnv) (req : UpdateTriggerRequest) (t : TriggerDefinition) : TriggerDefinition := {|
  td_trigger_id := td_trigger_id t; td_job_key := td_job_key t;
  td_cron_expression := match ur_cron_expression req with Some c => Some c | None => td_cron_expression t end;
  td_timezone := cleared (ur_timezone req) (td_timezone t);
  td_calendar := cleared (ur_calendar req) (td_calendar t);
  td_window := cleared (ur_window req) (td_window t);
  td_not_before := td_not_before t; td_not_after := td_not_after t;
  td_enabled := default (td_enabled t) (ur_enabled req); td_managed_by := td_managed_by t;
  td_created_at := td_created_at t; td_updated_at := ae_now env |}.
Definition not_found {A} (trigger_id : string) : result A (Z * InputError) :=
  verr HTTP_NOT_FOUND "not_found" ("no schedule with id '" ++ trigger_id ++ "'").
Definition check_update (env : ApiEnv) (ctx : CallerContext) (trigger_id : string) (req : UpdateTriggerRequest)
    (st : ApiState) : result TriggerDefinition (Z * InputError) :=
  res_bind (require_write ctx) (fun _ =>
    if starts_with "dsl:" trigger_id then dsl_managed "DSL-managed schedules are owned by the Croniqfile"
    else if negb (ae_store env) then verr HTTP_UNAVAILABLE "no_store" "store unavailable"
    else match get_trigger env st trigger_id with
         | Err _ => verr HTTP_INTERNAL_SERVER_ERROR "store_error" "failed to load schedule"
         | Ok None => not_found trigger_id
         | Ok (Some existing) =>
             if String.eqb (td_managed_by existing) "dsl" || is_dsl_managed env (td_job_key existing)
             then dsl_managed "DSL-managed schedules are owned by the Croniqfile"
             else
               res_bind (check_schedule_fields (ur_cron_expression req) (ur_window req)) (fun _ =>
               let row := edited_row env req existing in
               res_bind (check_calendar_known (td_calendar row) (resolved_calendars env)) (fun _ =>
               res_bind (check_timezone_valid (td_timezone row)) (fun _ => Ok row)))
         end).
Definition handle_update (env : ApiEnv) (ctx : CallerContext) (trigger_id : string) (req : UpdateTriggerRequest)
    (st : ApiState) : result TriggerDefinition (Z * InputError) * ApiState :=
  match check_update env ctx trigger_id req st with
  | Err e => (Err e, st)
  | Ok row =>
      match update_trigger env row st with
      | Err _ => (verr HTTP_INTERNAL_SERVER_ERROR "store_error" "failed to persist schedule", st)
      | Ok (st, false) => (not_found trigger_id, st)
      | Ok (st, true) =>
          let st := sync_job_with env (td_job_key row) (Some row) (Some (resolved_calendars env)) st in
          (Ok row, if td_enabled row then st else set_config_fault (td_job_key row) None st)
      end
  end.

(** [handle_delete] *)
Definition handle_delete (env : ApiEnv) (ctx : CallerContext) (trigger_id : string) (st : ApiState) : Z * ApiState :=
  match require_scope ctx Scope.SCHEDULES_WRITE with
  | Err s => (s, st)
  | Ok _ =>
      if starts_with "dsl:" trigger_id then (HTTP_CONFLICT, st)
      else if negb (ae_store env) then (HTTP_UNAVAILABLE, st)
      else
        let job_key := match get_trigger env st trigger_id with Ok r => td_job_key <$> r | Err _ => None end in
        if match job_key with Some k => is_dsl_managed env k | None => false end then (HTTP_CONFLICT, st)
        else match delete_trigger env trigger_id st with
             | Err _ => (HTTP_INTERNAL_SERVER_ERROR, st)
             | Ok st =>
                 (HTTP_NO_CONTENT,
                  match job_key with
                  | Some k => set_config_fault k None (remove_job env k st)
                  | None => st
                  end)
             end
  end.
End Api.
