(* ===== verification/ScheduleApiFacts.v ===== *)
(** * What the schedule requests promise

    Facts on [ScheduleApi.v]: rows written over HTTP stay rows the loader can
    schedule, an accepted request is what the scheduler runs, and where a
    request does less than it says. *)

From S2P Require Import Prelude RustStr Chrono Ast Lexer Parser CalendarArgs DaySets Schedule Calendar Trigger TriggerSearch TriggerMachine Store StoreCalls JobConfig Restore Scheduler Caller Dispatch TriggerApi.
From S2P Require Import Compile Validate ValidateFacts ScheduleInput Loader LoaderFacts ExecutionApi ScheduleApi.

Local Open Scope string_scope.
Local Open Scope Z_scope.

Section Facts.
  Context `{C : Chrono}.
  Context (TZ_VARIANTS : list string) (visit : gset string -> list string).
  Context (env_var : string -> option string) (read_file : string -> result string string).
  Context (exec_json : RunnerExec -> option string) (to_rfc3339 : instant -> string).
Let resolved := resolved_calendars TZ_VARIANTS visit env_var read_file exec_json.
Let create := handle_create TZ_VARIANTS visit env_var read_file exec_json to_rfc3339.
Let update := handle_update TZ_VARIANTS visit env_var read_file exec_json to_rfc3339.
Let build := trigger_from_definition TZ_VARIANTS.

(** ** Rows the loader can schedule *)

Record loadable (t : TriggerDefinition) : Prop := {
  lo_schedule : forall e, td_cron_expression t = Some e ->
                  exists s, schedule_from_expr e = Some s /\ s <> Interval 0;
  lo_timezone : (row_timezone TZ_VARIANTS t).2 = None;
  lo_window : (row_window t).2 = None
}.

Lemma check_schedule_ok e : check_schedule (Some e) = Ok tt -> exists s, schedule_from_expr e = Some s /\ s <> Interval 0.
Proof.
  unfold check_schedule. destruct (schedule_from_expr e) as [s|]; [|done]. intros H. exists s. split; [done|].
  intros ->. done.
Qed.

Lemma check_window_ok t :
  check_window (td_window t) = Ok tt -> td_window t <> Some "" -> (row_window t).2 = None.
Proof.
  unfold check_window, row_window. destruct (td_window t) as [s|]; [|done]. intros H Hs.
  unfold non_empty in H. destruct (str_is_empty s) eqn:Es; [by destruct s|].
  destruct (window_parse s) as [w|] eqn:Ew; [|done].
  destruct (proj2 (parse_job_window_some s)) as [p ->]; [by eexists|done].
Qed.

Lemma check_timezone_ok t :
  check_timezone TZ_VARIANTS (td_timezone t) = Ok tt -> td_timezone t <> Some "" ->
  (row_timezone TZ_VARIANTS t).2 = None.
Proof.
  unfold check_timezone, row_timezone. destruct (td_timezone t) as [s|]; [|done]. intros H Hs.
  unfold non_empty in H. destruct (str_is_empty s) eqn:Es; [by destruct s|].
  by destruct (timezone_parse TZ_VARIANTS s).
Qed.

Lemma bad_input_ok r : bad_input r = Ok tt -> r = Ok tt.
Proof. by destruct r as [[]|]. Qed.

Lemma check_fields_ok cron w :
  check_schedule_fields cron w = Ok tt -> check_schedule cron = Ok tt /\ check_window w = Ok tt.
Proof.
  unfold check_schedule_fields. destruct (check_schedule cron) as [[]|]; [|done]. intros H. split; [done|].
  by apply bad_input_ok.
Qed.

(** A request to create sends no empty zone and no empty window. *)
Definition no_blank (req : CreateTriggerRequest) : Prop :=
  cr_timezone req <> Some "" /\ cr_window req <> Some "".

Lemma created_loadable env ctx req :
  no_blank req -> check_create TZ_VARIANTS visit env_var read_file exec_json env ctx req = Ok tt ->
  loadable (created_row env req).
Proof.
  intros [Hz Hw]. unfold check_create. destruct (require_write ctx); [|done]. cbn [res_bind].
  destruct (negb _); [done|]. destruct (is_dsl_managed _ _); [done|].
  destruct (check_schedule_fields _ _) as [[]|] eqn:Ef; [|done]. cbn [res_bind].
  destruct (check_calendar_known _ _) as [[]|]; [|done]. cbn [res_bind]. intros Ht%bad_input_ok.
  apply check_fields_ok in Ef as [Hs Hwin]. split.
  - cbn. intros e He. rewrite He in Hs. by apply check_schedule_ok.
  - by apply check_timezone_ok.
  - by apply check_window_ok.
Qed.

(** [loadable] looks at three columns. *)
Lemma loadable_columns t t' :
  td_cron_expression t' = td_cron_expression t -> td_timezone t' = td_timezone t -> td_window t' = td_window t ->
  loadable t -> loadable t'.
Proof.
  intros Hc Hz Hw [H1 H2 H3]. split; [by rewrite Hc|..].
  - unfold row_timezone in *. by rewrite Hz.
  - unfold row_window in *. by rewrite Hw.
Qed.

Lemma check_update_spec env ctx id req st row :
  check_update TZ_VARIANTS visit env_var read_file exec_json env ctx id req st = Ok row ->
  exists existing, as_rows st !! id = Some existing /\ row = edited_row env req existing /\
    ae_store env = true /\ td_managed_by existing <> "dsl" /\ is_dsl_managed env (td_job_key existing) = false /\
    check_schedule_fields (ur_cron_expression req) (ur_window req) = Ok tt /\
    check_calendar_known (td_calendar row) (resolved env) = Ok tt /\
    check_timezone TZ_VARIANTS (td_timezone row) = Ok tt.
Proof.
  unfold check_update. destruct (require_write ctx); [|done]. cbn [res_bind]. destruct (starts_with _ _); [done|].
  destruct (ae_store env) eqn:Es; [|done]. cbn [negb]. unfold get_trigger. destruct (ae_refuses env GetTrigger); [done|].
  destruct (as_rows st !! id) as [existing|] eqn:Ee; [|done].
  destruct (String.eqb_spec (td_managed_by existing) "dsl") as [|Hm]; [done|]. cbn [orb].
  destruct (is_dsl_managed _ _) eqn:Ed; [done|].
  destruct (check_schedule_fields _ _) as [[]|] eqn:Ef; [|done]. cbn [res_bind].
  destruct (check_calendar_known _ _) as [[]|] eqn:Ec; [|done]. cbn [res_bind].
  destruct (check_timezone_valid _ _) as [[]|] eqn:Et; [|done]. intros [= <-].
  exists existing. split_and!; try done. by apply bad_input_ok.
Qed.

Lemma cleared_not_blank sent current : cleared sent current = Some "" -> sent = None /\ current = Some "".
Proof. destruct sent as [s|]; cbn; [|done]. by destruct s. Qed.

Lemma edited_loadable env ctx id req st row :
  check_update TZ_VARIANTS visit env_var read_file exec_json env ctx id req st = Ok row ->
  map_Forall (fun _ => loadable) (as_rows st) -> loadable row.
Proof.
  intros (existing & Hex & -> & _ & _ & _ & Hf & _ & Hz)%check_update_spec Hall.
  destruct (Hall _ _ Hex) as [L1 L2 L3]. apply check_fields_ok in Hf as [Hs Hw]. split.
  - cbn. destruct (ur_cron_expression req) as [e|]; [|done]. intros e' [= <-]. by apply check_schedule_ok.
  - destruct (ur_timezone req) as [z|] eqn:Ez; [|by unfold row_timezone in *; cbn; rewrite Ez].
    apply check_timezone_ok; [done|]. cbn. rewrite Ez. intros [? _]%cleared_not_blank. done.
  - destruct (ur_window req) as [w|] eqn:Ew; [|by unfold row_window in *; cbn; rewrite Ew].
    destruct (str_is_empty w) eqn:Eb; [unfold row_window; cbn; by rewrite Ew; cbn; rewrite Eb|].
    apply check_window_ok; cbn; rewrite Ew; cbn; rewrite Eb; [done|]. intros [= ->]. done.
Qed.

(** ** Sequences of requests *)

Inductive Request :=
| RCreate (req : CreateTriggerRequest)
| RUpdate (trigger_id : string) (req : UpdateTriggerRequest)
| RDelete (trigger_id : string).
Definition serve (st : ApiState) (x : ApiEnv * CallerContext * Request) : ApiState :=
  let '(env, ctx, r) := x in
  match r with
  | RCreate req => (create env ctx req st).2
  | RUpdate id req => (update env ctx id req st).2
  | RDelete id => (handle_delete env ctx id st).2
  end.
Definition request_ok (x : ApiEnv * CallerContext * Request) : Prop :=
  match x.2 with RCreate req => no_blank req | _ => True end.

(** The sync leaves the rows alone. *)
Lemma sync_rows env key edited cals st :
  as_rows (sync_job_with TZ_VARIANTS visit env_var read_file exec_json to_rfc3339 env key edited cals st) = as_rows st.
Proof.
  unfold sync_job_with, remove_job. destruct (negb _ || negb _); [done|]. destruct (is_dsl_managed _ _); [done|].
  destruct (match match ae_get_job_definition env key with Ok d => d | Err _ => None end with
            | Some def => negb (jd_is_active def) | None => false end); [by destruct (ae_scheduler_tx env)|].
  destruct (match edited with Some t => _ | None => _ end); [|by destruct (ae_scheduler_tx env)].
  destruct (trigger_from_definition _ _ _ _); [done|by destruct (ae_scheduler_tx env)].
Qed.

Lemma serve_loadable st x :
  request_ok x -> map_Forall (fun _ => loadable) (as_rows st) -> map_Forall (fun _ => loadable) (as_rows (serve st x)).
Proof.
  destruct x as [[env ctx] [req|id req|id]]; cbn [request_ok serve snd]; intros Hok Hall.
  - unfold create, handle_create. destruct (check_create _ _ _ _ _ env ctx req) as [[]|] eqn:E; [|done].
    apply created_loadable in E; [|done]. unfold create_trigger. destruct (ae_refuses _ _); [done|]. cbn [snd].
    rewrite sync_rows. cbn [with_rows as_rows]. apply map_Forall_insert_2; [|done].
    destruct (as_rows st !! _); [by apply (loadable_columns (created_row env req))|done].
  - unfold update, handle_update. destruct (check_update _ _ _ _ _ env ctx id req st) as [row|] eqn:E; [|done].
    apply edited_loadable in E; [|done]. unfold update_trigger. destruct (ae_refuses _ _); [done|].
    destruct (as_rows st !! _) as [old|]; [|done]. destruct (String.eqb _ _); [done|]. cbn [snd].
    assert (map_Forall (fun _ => loadable) (<[td_trigger_id row := set_editable old row]> (as_rows st))) as Hnew
      by (apply map_Forall_insert_2; [by apply (loadable_columns row)|done]).
    destruct (td_enabled row); cbn [set_config_fault as_rows]; by rewrite sync_rows.
  - unfold handle_delete. destruct (require_scope _ _); [|done]. destruct (starts_with _ _); [done|].
    destruct (negb _); [done|]. set (job_key := match get_trigger env st id with Ok r => td_job_key <$> r | Err _ => None end).
    destruct (match job_key with Some k => is_dsl_managed env k | None => false end); [done|].
    unfold delete_trigger. destruct (ae_refuses env DeleteTrigger); [done|]. cbn [snd].
    assert (map_Forall (fun _ => loadable) (delete id (as_rows st))) as Hnew by (by apply map_Forall_delete).
    destruct job_key as [k|]; [|done]. unfold remove_job. by destruct (ae_scheduler_tx env).
Qed.

(** C14. Rows written over HTTP stay rows the loader can schedule. From a table
    whose rows build a trigger with a schedule, a known zone and a readable
    window, every sequence of create, update and delete requests, by any callers
    and whatever the store refuses on the way, leads to such a table, as long as
    no create request carries an empty zone or window (an update may: there it
    clears the column). *)
Theorem requests_keep_rows_loadable st requests :
  map_Forall (fun _ => loadable) (as_rows st) -> Forall request_ok requests ->
  map_Forall (fun _ => loadable) (as_rows (fold_left serve requests st)).
Proof.
  intros Hst Hreq. revert st Hst. induction Hreq as [|x requests Hx Hreq IH]; intros st Hst; [done|].
  cbn [fold_left]. apply IH. by apply serve_loadable.
Qed.

(** ** What the scheduler is told *)

(** The gates a row declares. A calendar that compiled gates always; that the
    named one did is only asked for when [strict_calendars] is on. *)
Definition row_gates (r : ResolvedCalendars) (row : TriggerDefinition) (f : instant) : Prop :=
  (forall n, non_empty (td_calendar row) = Some n ->
     (res_strict r = true -> is_Some (res_calendars r !! n)) /\
     forall cal, res_calendars r !! n = Some cal -> is_allowed_at cal f = true) /\
  (forall s, td_window row = Some s ->
     exists w, window_parse s = Some w /\ contains w (time_of (local_of (row_timezone TZ_VARIANTS row).1 f)) = true).

Lemma with_bounds_trigger_inv key s tz c w nb na now : trigger_inv (with_bounds key s tz c w nb na now).
Proof.
  pose proof (with_bounds_inv key s tz c w nb na (missed_fires (with_bounds key s tz c w nb na now)) now) as H.
  by destruct (with_bounds key s tz c w nb na now).
Qed.

Lemma built_gates row r now b nows :
  build row r now = Some b -> Forall (row_gates r row) (run_ticks (bt_trigger b) nows).
Proof.
  unfold build, trigger_from_definition. destruct (td_cron_expression row) as [e|]; [|done]. cbn [mbind option_bind].
  destruct (schedule_from_expr e) as [s|]; [|done]. cbn [mbind option_bind].
  destruct (row_timezone TZ_VARIANTS row) as [tz zf] eqn:Ez. destruct (row_window row) as [w wf] eqn:Ew.
  destruct (resolve_calendar r (td_calendar row)) as [cal cf] eqn:Ec. intros Hb%(inj Some). subst b.
  destruct (omap id [cf; zf; wf]) as [|x l] eqn:Ef; cbn [bt_trigger].
  2:{ rewrite unarmed_never_fires by (cbn; discriminate). constructor. }
  destruct cf; [done|]. destruct zf; [done|]. destruct wf; [done|]. clear Ef.
  eapply Forall_impl; [apply run_ticks_gated, with_bounds_trigger_inv|]. intros f [Hg _].
  destruct (with_bounds_fields (td_job_key row) s tz cal w (td_not_before row) (td_not_after row) now)
    as (_ & Ftz & Fcal & Fw & _). unfold gate_allows in Hg. rewrite Ftz, Fcal, Fw in Hg.
  apply andb_true_iff in Hg as [Hgc Hgw]. split.
  - intros n Hn. unfold resolve_calendar in Ec. rewrite Hn in Ec.
    destruct (res_calendars r !! n) as [c|]; [|split; [|done]; intros Hs; by rewrite Hs in Ec].
    injection Ec as <-. split; [by eexists|]. by intros cal [= <-].
  - intros ws Hws. unfold row_window in Ew. rewrite Hws in Ew. rewrite Ez. cbn [fst].
    destruct (parse_job_window ws) as [p|] eqn:Ep; [|done].
    destruct (proj1 (parse_job_window_some ws)) as [tw Htw]; [by eexists|]. rewrite Htw in Ew. injection Ew as <-.
    by exists tw.
Qed.

(** A loadable row is faulted for its calendar only. *)
Lemma loadable_builds row e r now :
  loadable row -> td_cron_expression row = Some e ->
  exists b, build row r now = Some b /\ bt_config_fault b = (resolve_calendar r (td_calendar row)).2.
Proof.
  intros [Hs Hz Hw] He. destruct (Hs e He) as (s & Hs' & _). unfold build, trigger_from_definition.
  rewrite He. cbn [mbind option_bind]. rewrite Hs'. cbn [mbind option_bind].
  destruct (row_timezone TZ_VARIANTS row) as [tz zf]. destruct (row_window row) as [w wf]. cbn [snd] in *. subst zf wf.
  destruct (resolve_calendar r (td_calendar row)) as [cal [reason|]]; by eexists.
Qed.

(** An accepted request that writes a row, and the state after it. *)
Inductive accepts (env : ApiEnv) (ctx : CallerContext) (st : ApiState) : TriggerDefinition -> ApiState -> Prop :=
| accepts_create req row st' :
    no_blank req -> create env ctx req st = (Ok (HTTP_CREATED, row), st') -> accepts env ctx st row st'
| accepts_update id req row st' :
    update env ctx id req st = (Ok row, st') -> accepts env ctx st row st'.

Lemma accepts_row env ctx st row st' :
  accepts env ctx st row st' -> map_Forall (fun _ => loadable) (as_rows st) ->
  loadable row /\ ae_store env = true /\ is_dsl_managed env (td_job_key row) = false /\
  td_managed_by row <> "dsl" /\ check_calendar_known (td_calendar row) (resolved env) = Ok tt /\
  exists st1, as_commands st1 = as_commands st /\
    (td_enabled row = true ->
     st' = sync_job_with TZ_VARIANTS visit env_var read_file exec_json to_rfc3339 env (td_job_key row) (Some row)
             (Some (resolved env)) st1).
Proof.
  intros [req row' st2 Hb H|id req row' st2 H] Hall.
  - unfold create, handle_create in H. destruct (check_create _ _ _ _ _ env ctx req) as [[]|] eqn:E; [|done].
    pose proof (created_loadable _ _ _ Hb E) as Hl. unfold create_trigger in H. destruct (ae_refuses _ _); [done|].
    injection H as <- <-. unfold check_create in E. destruct (require_write ctx); [|done]. cbn [res_bind] in E.
    destruct (ae_store env) eqn:Es; [|done]. cbn [negb] in E. destruct (is_dsl_managed _ _) eqn:Ed; [done|].
    destruct (check_schedule_fields _ _) as [[]|]; [|done]. cbn [res_bind] in E.
    destruct (check_calendar_known _ _) as [[]|] eqn:Ec; [|done].
    split_and!; try done. eexists. split; [|intros _; reflexivity]. done.
  - unfold update, handle_update in H. destruct (check_update _ _ _ _ _ env ctx id req st) as [row0|] eqn:E; [|done].
    pose proof (edited_loadable _ _ _ _ _ _ E Hall) as Hl.
    apply check_update_spec in E as (existing & Hex & Hrow & Hs & Hm & Hd & _ & Hc & _).
    unfold update_trigger in H. destruct (ae_refuses _ _); [done|].
    destruct (as_rows st !! td_trigger_id row0) as [old|]; [|done]. destruct (String.eqb (td_managed_by old) "dsl"); [done|].
    injection H as <- <-. split_and!; [done..|by rewrite Hrow|by rewrite Hrow|done|].
    eexists. split; [|intros ->; reflexivity]. done.
Qed.

(** C13. An accepted schedule is the one that runs. Take a table of rows the
    loader can schedule (the invariant of [requests_keep_rows_loadable]) and a
    server with a scheduler attached. When an update request, or a create request
    that sends neither an empty zone nor an empty window, is accepted for an
    enabled row with an expression, of a job that is not deactivated, then the
    scheduler is told to add that job with the trigger of that very row; the fault
    the server then reports for the job is the trigger's, and there is none unless
    the calendar the row names is known but does not compile; and every instant
    the trigger fires at lies in the window of the row and, when the calendar the
    row names compiled, on a day and time that calendar allows. With
    [strict_calendars] on, a trigger whose calendar did not compile never fires;
    with it off nothing is claimed of the calendar gate of such a trigger. (A create with an empty zone is
    accepted and its job added paused: [blank_zone_is_accepted_and_paused].) *)
Theorem accepted_schedule_runs env ctx st row st' e :
  map_Forall (fun _ => loadable) (as_rows st) -> accepts env ctx st row st' ->
  ae_scheduler_tx env = true -> td_enabled row = true -> td_cron_expression row = Some e ->
  (forall def, ae_get_job_definition env (td_job_key row) = Ok (Some def) -> jd_is_active def = true) ->
  exists b j,
    build row (resolved env) (ae_sync_now env) = Some b /\ jc_key j = td_job_key row /\
    as_commands st' = app (as_commands st) [AddJob j (bt_trigger b)] /\
    as_config_faults st' !! td_job_key row = bt_config_fault b /\
    (is_Some (bt_config_fault b) ->
     exists n, td_calendar row = Some n /\ is_Some (res_errors (resolved env) !! n)) /\
    forall nows, Forall (row_gates (resolved env) row) (run_ticks (bt_trigger b) nows).
Proof.
  intros Hall Hacc Htx Hen He Hact.
  destruct (accepts_row _ _ _ _ _ Hacc Hall) as (Hl & Hs & Hd & Hm & Hc & st1 & Hst1 & Hst').
  destruct (loadable_builds row e (resolved env) (ae_sync_now env) Hl He) as (b & Hb & Hf).
  rewrite (Hst' Hen). unfold sync_job_with. rewrite Htx, Hs, Hd. cbn [negb orb].
  assert (match match ae_get_job_definition env (td_job_key row) with Ok d => d | Err _ => None end with
          | Some def => negb (jd_is_active def) | None => false end = false) as ->.
  { destruct (ae_get_job_definition env (td_job_key row)) as [[def|]|] eqn:Ed; try done. by rewrite (Hact def eq_refl). }
  unfold usable. rewrite Hen. destruct (String.eqb_spec (td_managed_by row) "dsl") as [|_]; [done|]. cbn [negb andb from_option id].
  fold build. rewrite Hb.
  exists b, (job_config_from_definition to_rfc3339 row
    match ae_get_job_definition env (td_job_key row) with Ok d => d | Err _ => None end). split; [done|]. split; [|split; [|split; [|split]]].
  - unfold job_config_from_definition. by destruct (split_once ":" (td_job_key row)) as [[]|].
  - cbn. by rewrite Hst1.
  - cbn [set_config_fault as_config_faults]. destruct (bt_config_fault b); [apply lookup_insert_eq|apply lookup_delete_eq].
  - rewrite Hf. unfold resolve_calendar, non_empty. unfold check_calendar_known in Hc.
    destruct (td_calendar row) as [n|]; [|by intros []]. destruct (str_is_empty n); [by intros []|]. cbn [orb] in Hc.
    destruct (res_calendars (resolved env) !! n); [by intros []|]. intros _. exists n. split; [done|].
    rewrite bool_decide_eq_false_2 in Hc by (by intros []). cbn [orb] in Hc. by case_bool_decide.
  - intros nows. by eapply built_gates.
Qed.
End Facts.

(** ** Requests against a small server *)

Definition writer : CallerContext :=
  MkCaller CallerUser "u1" "u1" (Some "u1") (Some RAdmin) AmPassword [Scope.ADMIN] None.
Definition demo_env (id : string) : ApiEnv := {|
  ae_store := true; ae_scheduler_tx := true; ae_dsl_jobs := Some []; ae_dsl_calendars := None;
  ae_strict_calendars := true; ae_list_calendars := Ok []; ae_get_job_definition := fun _ => Ok None;
  ae_refuses := fun _ => false; ae_now := 0; ae_sync_now := 0; ae_new_id := id |}.
Definition empty_state : ApiState (C := Demo.demo_chrono) :=
  {| as_rows := ∅; as_commands := []; as_config_faults := ∅ |}.
Definition request (cron zone window : option string) : CreateTriggerRequest := {|
  cr_job_key := "ops:report"; cr_cron_expression := cron; cr_timezone := zone; cr_calendar := None;
  cr_window := window; cr_enabled := true |}.
Definition edit (zone : option string) : UpdateTriggerRequest := {|
  ur_cron_expression := None; ur_timezone := zone; ur_enabled := None; ur_calendar := None; ur_window := None |}.
Definition demo_create (id : string) (req : CreateTriggerRequest) (st : ApiState (C := Demo.demo_chrono)) :=
  handle_create demo_zones elements no_env no_file no_json (fun _ => "") (demo_env id) writer req st.

Definition demo_requests : list (ApiEnv * CallerContext * Request) :=
  [(demo_env "t1", writer, RCreate (request (Some "every day at 02:00") (Some "UTC") (Some "01:00..06:00")));
   (demo_env "", writer, RUpdate "t1" (edit (Some "")));
   (demo_env "t2", writer, RCreate (request (Some "jeden Tag") None None));
   (demo_env "", writer, RDelete "t3")].

Lemma requests_keep_rows_loadable_witness :
  map_Forall (fun _ => loadable (C := Demo.demo_chrono) demo_zones)
    (as_rows (fold_left (serve demo_zones elements no_env no_file no_json (fun _ => "")) demo_requests empty_state)).
Proof.
  apply (requests_keep_rows_loadable (C := Demo.demo_chrono) demo_zones elements no_env no_file no_json (fun _ => "")
           empty_state demo_requests).
  - apply map_Forall_empty.
  - repeat constructor; discriminate.
Defined.

(** Only the first of the two creates is accepted, and the update clears its zone. *)
Example demo_requests_rows :
  map (fun '(k, t) => (k, td_cron_expression t, td_timezone t, td_window t))
    (map_to_list (as_rows (fold_left (serve demo_zones elements no_env no_file no_json (fun _ => "")) demo_requests empty_state)))
  = [("t1", Some "every day at 02:00", None, Some "01:00..06:00")].
Proof. vm_compute. done. Qed.

Lemma accepted_schedule_runs_witness :
  let req := request (Some "every day at 02:00") (Some "UTC") (Some "01:00..06:00") in
  let st' := (demo_create "t1" req empty_state).2 in
  exists b j, jc_key j = "ops:report" /\ as_commands st' = [AddJob j (bt_trigger b)] /\
    forall nows, Forall (row_gates (C := Demo.demo_chrono) demo_zones
                   (resolved_calendars demo_zones elements no_env no_file no_json (demo_env "t1"))
                   (created_row (demo_env "t1") req)) (run_ticks (bt_trigger b) nows).
Proof.
  intros req st'.
  destruct (accepted_schedule_runs (C := Demo.demo_chrono) demo_zones elements no_env no_file no_json (fun _ => "")
              (demo_env "t1") writer empty_state (created_row (demo_env "t1") req) st' "every day at 02:00")
    as (b & j & _ & Hj & Hc & _ & _ & Hg).
  - apply map_Forall_empty.
  - apply (accepts_create _ _ _ _ _ _ _ _ _ req); [split; discriminate|].
    apply injective_projections; [vm_compute; reflexivity|reflexivity].
  - reflexivity.
  - reflexivity.
  - reflexivity.
  - intros def [=].
  - exists b, j. split; [exact Hj|]. split; [exact Hc|exact Hg].
Defined.

(** ** What a request does not do *)

(** An empty zone means unset to the check and to an update; a create stores it,
    and the job of an accepted schedule is added paused. *)
Example blank_zone_is_accepted_and_paused :
  let '(r, st) := demo_create "t1" (request (Some "5m") (Some "") None) empty_state in
  is_ok r = true /\
  map (fun c => match c with AddJob _ t => Some (state t) | _ => None end) (as_commands st) = [Some Paused] /\
  is_Some (as_config_faults st !! "ops:report").
Proof. vm_compute. split; [done|]. split; [done|]. by eexists. Qed.

(** Deleting one of two schedules of a job takes the job out of the scheduler,
    although the other schedule is enabled. *)
Example delete_stops_the_other_schedule :
  let st := (demo_create "t2" (request (Some "1h") None None)
               (demo_create "t1" (request (Some "5m") None None) empty_state).2).2 in
  let '(status, st') := handle_delete (demo_env "") writer "t1" st in
  status = HTTP_NO_CONTENT /\ map td_enabled (map snd (map_to_list (as_rows st'))) = [true] /\
  match last (as_commands st') with Some (RemoveJob k) => k = "ops:report" | _ => False end.
Proof. vm_compute. done. Qed.

(** When the job's row cannot be read, the sync adds the job although it may be
    deactivated. *)
Example unreadable_job_is_added :
  let env := {| ae_store := true; ae_scheduler_tx := true; ae_dsl_jobs := Some []; ae_dsl_calendars := None;
                ae_strict_calendars := true; ae_list_calendars := Ok [];
                ae_get_job_definition := fun _ => Err (Database "locked"); ae_refuses := fun _ => false;
                ae_now := 0; ae_sync_now := 0; ae_new_id := "" |} in
  let st := (demo_create "t1" (request (Some "5m") None None) empty_state).2 in
  length (as_commands (sync_job (C := Demo.demo_chrono) demo_zones elements no_env no_file no_json (fun _ => "") env
            "ops:report" {| as_rows := as_rows st; as_commands := []; as_config_faults := ∅ |})) = 1%nat.
Proof. vm_compute. done. Qed.

(** The shorthand reads the minutes field and nothing else, and a number of
    minutes may wrap around to seconds. *)
Example shorthand_ignores_the_rest :
  parse_interval_seconds "*/5 9-17 * * 1-5" = Some 300 /\
  parse_interval_seconds "307445734561825861m" = Some 44 /\
  check_schedule (C := Demo.demo_chrono) (Some "307445734561825861m") = Ok tt.
Proof. vm_compute. done. Qed.
