(* ===== verification/TriggerApiFacts.v ===== *)
(** * What a manual trigger guarantees

    One execution or none; no way for a caller into the reserved metadata; at
    most one queued run for a burst of signals; idempotency keys. *)

From S2P Require Import Prelude RustStr Chrono RunnerTypes Queue Registry RunnerApi.
From S2P Require Import Durations Execution JobConfig Store StoreCalls Sqlite SqliteFacts Server.
From S2P Require Import Alerts DemoServer Requeue Dispatch TriggerApi DispatchFacts AlertFacts Completion.
From S2P Require Import CompletionFacts.

Local Open Scope string_scope.
Local Open Scope Z_scope.

(** ** The metadata of a triggered run *)

Section Metadata.
  Context `{J : Json} `{E : Env}.

Lemma overlay_reserved m payload k : is_reserved_metadata_key k = true -> overlay m payload !! k = m !! k.
Proof.
  intros Hk. destruct payload as [|l|]; [done| |done]. cbn. revert m.
  induction l as [|[k' v] l IH]; intros m; [done|]. cbn. rewrite IH. cbn.
  destruct (is_reserved_metadata_key k') eqn:Hk'; [done|]. rewrite lookup_insert_ne; [done|]. congruence.
Qed.

Lemma stamp_ne key l m k : k <> key -> stamp key l m !! k = m !! k.
Proof. intros Hne. destruct l; [done|]. cbn. by rewrite lookup_insert_ne. Qed.

(** The keys the handler stamps itself. *)
Definition stamped_keys : list string :=
  [REQUIRE_METADATA_KEY; PREFER_METADATA_KEY; TIMEOUT_METADATA_KEY; REQUESTED_METADATA_KEY;
   COALESCE_METADATA_KEY].

Lemma trigger_metadata_coalesce req requested job :
  trigger_metadata req requested job !! COALESCE_METADATA_KEY
  = if is_bare_signal req then default ∅ (jc_metadata <$> job) !! COALESCE_METADATA_KEY else None.
Proof.
  unfold trigger_metadata, mark_requested. rewrite !lookup_insert_ne, !stamp_ne by done.
  destruct (is_bare_signal req); [by apply overlay_reserved|by apply lookup_delete_eq].
Qed.
End Metadata.

(** C27. A caller cannot reach into the reserved namespace: whatever metadata a
    trigger carries, every key with the reserved prefix in the run it creates is
    the job's own (the command a runner will execute and the concurrency limits
    among them) or one of the handler's five stamps, which do not depend on the
    caller's metadata except that a payload takes the coalesce stamp away. *)
Theorem caller_cannot_forge_reserved_metadata `{J : Json} `{E : Env} req requested job k :
  is_reserved_metadata_key k = true ->
  let own := default ∅ (jc_metadata <$> job) in
  let m := trigger_metadata req requested job in
  (k ∉ stamped_keys -> m !! k = own !! k)
  /\ (forall payload, k <> COALESCE_METADATA_KEY ->
        m !! k = trigger_metadata (MkTriggerRequest (tr_job_key req) (tr_require req) (tr_prefer req) payload
                                     (tr_timeout req) (tr_idempotency_key req)) requested job !! k)
  /\ (m !! COALESCE_METADATA_KEY = own !! COALESCE_METADATA_KEY \/ m !! COALESCE_METADATA_KEY = None).
Proof.
  intros Hk. cbv zeta. split_and!.
  - intros Hnot. unfold stamped_keys in Hnot. rewrite !not_elem_of_cons in Hnot.
    destruct Hnot as (H1 & H2 & H3 & H4 & H5 & _). unfold trigger_metadata, mark_requested.
    rewrite !lookup_insert_ne, !stamp_ne by congruence.
    destruct (is_bare_signal req); [|rewrite lookup_delete_ne by congruence]; by apply overlay_reserved.
  - intros payload Hne. unfold trigger_metadata, mark_requested, trigger_require, trigger_prefer. cbn.
    rewrite !lookup_insert. repeat case_decide; try done. unfold stamp.
    destruct (inherit (tr_prefer req) _ job), (inherit (tr_require req) _ job);
      rewrite ?lookup_insert; repeat case_decide; try done;
      destruct (is_bare_signal req), (is_bare_signal _); rewrite ?lookup_delete_ne by done;
      by rewrite !overlay_reserved.
  - rewrite trigger_metadata_coalesce. destruct (is_bare_signal req); auto.
Qed.

(** ** One execution or none *)

Section Facts.
  Context `{J : Json} `{E : Env} {St : Type} `{SL : StoreLaws St}.
  Context (dsl_jobs : option (list JobConfig)) (window : Z).

Definition idempotency_of (req : TriggerRequest) : option string :=
  k ← tr_idempotency_key req; if str_is_empty k then None else Some k.

(** The row a trigger inserts and the work item that goes with it. *)
Definition triggered_row (req : TriggerRequest) (id : string) (row : Execution) (item : WorkItem) : Prop :=
  ex_id row = id /\ ex_job_key row = tr_job_key req /\ ex_state row = EQueued /\ ex_attempt row = 1
  /\ ex_runner_id row = None /\ ex_scheduled_for row = ex_fire_at row
  /\ ex_idempotency_key row = idempotency_of req
  /\ execution_id item = id /\ wi_job_key item = tr_job_key req /\ fire_at item = ex_fire_at row
  /\ scheduled_for item = ex_scheduled_for row /\ attempt item = 1
  /\ metadata item = of_map (ex_metadata row) /\ is_ephemeral item = false.

(** The definition in force between [w] and [w']: the configuration's, else the
    stored one; none when neither has the key or the store could not be read. *)
Definition known_job (key : string) (job : option JobConfig) (w w' : World St) : Prop :=
  match jobs ← dsl_jobs; find (fun j => String.eqb (jc_key j) key) jobs with
  | Some j => job = Some j
  | None => job = job_config_from_job_def <$> tb_defs (tbl w) !! key
            \/ job = None /\ failed_call (GetJobDefinition key) w w'
  end.
Lemma known_job_shift key job w0 w w1 w' :
  tbl w = tbl w0 -> ran (w_store w0) (w_store w) -> ran (w_store w1) (w_store w') ->
  known_job key job w w1 -> known_job key job w0 w'.
Proof.
  unfold known_job. intros Et Hr Hr'. case_match; [done|]. rewrite Et. intros [Hj|[Hj Hf]]; [by left|].
  right. split; [done|]. destruct Hf as (s1 & s2 & err & H1 & H2 & H3 & H4).
  exists s1, s2, err. split_and!; [by etrans|congruence|done|by etrans].
Qed.

(** The trigger created this execution: one row and its work item. *)
Definition creates (req : TriggerRequest) (job : option JobConfig) (id : string) (w w' : World St) : Prop :=
  exists requested now,
    let row := trigger_execution req requested (idempotency_of req) job id now in
    validate_optional_duration (tr_timeout req) = Ok requested
    /\ tb_execs (tbl w) !! id = None
    /\ tbl w' = set_execs (<[id := row]> (tb_execs (tbl w))) (tbl w)
    /\ w_app w' = set_queue (enqueue (queue (w_app w)) (trigger_item req requested job id now)).1 (w_app w)
    /\ triggered_row req id row (trigger_item req requested job id now)
    /\ Z.of_nat (count_for_job (queue (w_app w)) (tr_job_key req)) < default 10 (job ≫= jc_max_queue_depth)
    /\ (is_bare_signal req = true -> is_Some (default ∅ (jc_metadata <$> job) !! COALESCE_METADATA_KEY) ->
        find_for_job (queue (w_app w)) (tr_job_key req) item_is_foldable = None).

(** The answer names an execution that is already there. *)
Definition answers_existing (req : TriggerRequest) (resp : TriggerResponse) (w : World St) : Prop :=
  ts_deduplicated resp = true /\
    (exists id e, tb_execs (tbl w) !! id = Some e /\ ex_id e = ts_execution_id resp
       /\ ex_job_key e = tr_job_key req /\ is_Some (idempotency_of req)
       /\ ex_idempotency_key e = idempotency_of req)
  \/ ts_coalesced resp = true /\ is_bare_signal req = true /\
    (exists x, x ∈ items (queue (w_app w)) /\ execution_id x = ts_execution_id resp
       /\ wi_job_key x = tr_job_key req /\ item_is_foldable x = true).

(** The job in force has as many queued items as its cap allows. *)
Definition over_depth (req : TriggerRequest) (w w' : World St) : Prop :=
  exists job, known_job (tr_job_key req) job w w'
    /\ default 10 (job ≫= jc_max_queue_depth) <= Z.of_nat (count_for_job (queue (w_app w)) (tr_job_key req)).

Definition unchanged (w w' : World St) : Prop := tbl w' = tbl w /\ w_app w' = w_app w.

Lemma find_duplicate_spec req idem now w w' r :
  find_duplicate true window req idem now w = (w', r) ->
  unchanged w w' /\ ran (w_store w) (w_store w') /\ match r with
                    | Some e => exists id, tb_execs (tbl w) !! id = Some e /\ ex_job_key e = tr_job_key req
                                  /\ is_Some idem /\ ex_idempotency_key e = idem
                    | None => True
                    end.
Proof.
  unfold find_duplicate, unchanged. destruct idem as [key|];
    [|intros [= <- <-]; split_and!; [done..|apply rtc_refl|done]].
  intros (w1 & a & Hc & [= <- <-])%bind_eq. pose proof (ran_call _ _ _ _ Hc) as Hran.
  apply call_eq in Hc as (Hrun & Ha & _). unfold tbl.
  apply run_honours in Hrun. destruct a as [o|[x|x|x]]; cbn in Hrun.
  - destruct Hrun as [-> Hr]. split; [done|]. split; [done|]. destruct o as [e|]; [|done].
    destruct Hr as ((id & Hid) & (Hj & Hk & _) & _). exists id. split_and!; [done| |by eexists|done].
    by apply String.eqb_eq in Hj.
  - by destruct Hrun as [-> _].
  - by destruct Hrun as [-> _].
  - by destruct Hrun as [->|[]].
Qed.

Lemma reads_definition key : reads (GetJobDefinition key).
Proof. apply quiet_reads; [by intros ? ? ? [? _]|by intros ? ? [?|[]]]. Qed.

Lemma trigger_job_spec key w w' job :
  trigger_job true dsl_jobs key w = (w', job) ->
  unchanged w w' /\ ran (w_store w) (w_store w') /\ known_job key job w w'.
Proof.
  unfold trigger_job, unchanged, known_job. case_match;
    [intros [= <- <-]; split_and!; [done..|apply rtc_refl|done]|].
  intros (w1 & r & Hc & [= <- <-])%bind_eq. pose proof (ran_call _ _ _ _ Hc) as Hran.
  pose proof Hc as (Et & Ha & Hh)%reads_call; [|apply reads_definition]. split_and!; [done..|].
  destruct r as [o|err]; [left; by destruct Hh as [_ ->]|right]. split; [done|].
  exact (failed_call_here _ _ _ _ _ Hc (rtc_refl _ _)).
Qed.

Lemma create_triggered_spec req requested job now w w' status ra resp :
  create_triggered true req requested (idempotency_of req) job now w = (w', (status, ra, resp)) ->
  status <> HTTP_OK /\ status <> HTTP_TOO_MANY_REQUESTS /\ unchanged w w'
  \/ status = HTTP_OK /\ ran (w_store w) (w_store w') /\ ts_deduplicated resp = false /\ ts_coalesced resp = false
     /\ tb_execs (tbl w) !! ts_execution_id resp = None
     /\ tbl w' = set_execs (<[ts_execution_id resp :=
          trigger_execution req requested (idempotency_of req) job (ts_execution_id resp) now]> (tb_execs (tbl w)))
          (tbl w)
     /\ w_app w' = set_queue (enqueue (queue (w_app w))
          (trigger_item req requested job (ts_execution_id resp) now)).1 (w_app w).
Proof.
  intros Hrun. unfold create_triggered in Hrun. apply bind_eq in Hrun as (w1 & id & [= <- <-] & Hrun).
  apply bind_eq in Hrun as (w2 & r & Hcall & Hrun). pose proof (ran_call _ _ _ _ Hcall) as Hran.
  apply create_spec in Hcall as (Ha & _ & Hr). cbn [w_app] in Ha.
  change (tbl (MkWorld _ _ _ _ _)) with (tbl w) in Hr. destruct r as [u|err]; [right|left].
  - destruct Hr as [Hfree Et]. apply bind_eq in Hrun as (w3 & ok & Henq & Hrun).
    apply bind_eq in Hrun as (w4 & n & [= <- <-] & Hrun). injection Hrun as <- <- <- <-.
    unfold enqueue_item, update_app in Henq.
    destruct (enqueue (queue (w_app w2)) _) as [q b] eqn:Eq. injection Henq as <- _. cbn.
    split_and!; try done. rewrite <- Ha. by rewrite Eq.
  - injection Hrun as <- <- <- <-. by split.
Qed.

(** Every way a trigger can end. *)
Lemma trigger_cases refused req w w' status ra resp :
  handle_trigger true dsl_jobs window refused req w = (w', (status, ra, resp)) ->
  (forall s, refused = Some s -> s <> HTTP_OK) ->
  unchanged w w' /\ (status = HTTP_OK -> answers_existing req resp w)
    /\ (status = HTTP_TOO_MANY_REQUESTS -> refused = None -> over_depth req w w')
  \/ status = HTTP_OK /\ ts_deduplicated resp = false /\ ts_coalesced resp = false
     /\ exists job, known_job (tr_job_key req) job w w' /\ creates req job (ts_execution_id resp) w w'.
Proof.
  intros Hrun Href. unfold handle_trigger in Hrun. fold (idempotency_of req) in Hrun.
  destruct refused as [s|]; [injection Hrun as <- <- <- <-; left; split_and!; [done|intros ->; by destruct (Href _ eq_refl)|done]|].
  destruct (match idempotency_of req with Some k => _ | None => _ end);
    [injection Hrun as <- <- <- <-; by left|].
  destruct (validate_optional_duration (tr_timeout req)) as [requested|] eqn:Ev;
    [|injection Hrun as <- <- <- <-; by left].
  apply bind_eq in Hrun as (w1 & now & [= <- <-] & Hrun).
  apply bind_eq in Hrun as (w2 & dup & ([Et2 Ha2] & Hran2 & Hdup)%find_duplicate_spec & Hrun).
  change (tbl (MkWorld _ _ _ _ _)) with (tbl w) in Et2, Hdup. cbn [w_app w_store] in Ha2, Hran2.
  destruct dup as [e|].
  { apply bind_eq in Hrun as (w3 & n & [= <- <-] & Hrun). injection Hrun as <- <- <- <-.
    left. split; [done|]. split; [|done]. intros _. left. split; [done|]. destruct Hdup as (id & Hid & Hj & Hs & Hk). by exists id, e. }
  apply bind_eq in Hrun as (w3 & job & ([Et3 Ha3] & Hran3 & Hjob)%trigger_job_spec & Hrun).
  apply bind_eq in Hrun as (w4 & q & [= <- <-] & Hrun).
  assert (unchanged w w3) as Hun by (split; congruence).
  replace (queue (w_app w3)) with (queue (w_app w)) in Hrun by congruence.
  match type of Hrun with (match ?t with Some _ => _ | None => _ end) _ = _ => destruct t as [x|] eqn:Ef end.
  { injection Hrun as <- <- <- <-. left. split; [done|]. split; [|done]. intros _. right. split; [done|].
    destruct (_ && is_bare_signal req) eqn:Eb; [|done]. apply andb_true_iff in Eb as [_ Eb]. split; [done|].
    apply find_some in Ef as [Hin Hx]. apply andb_true_iff in Hx as [Hj Hx]. apply String.eqb_eq in Hj.
    exists x. by rewrite list_elem_of_In. }
  assert (forall w1, ran (w_store w3) (w_store w1) -> known_job (tr_job_key req) job w w1) as Hknown
    by (intros w1 Hr; by eapply known_job_shift).
  case_match eqn:Edepth.
  { injection Hrun as <- <- <- <-. left. split_and!; [done..|]. intros _ _. exists job.
    split; [apply Hknown, rtc_refl|by apply Z.leb_le]. }
  apply create_triggered_spec in Hrun as [(Hs & Hs2 & Hun')|(-> & Hran4 & Hd & Hc & Hfree & Et & Ha)].
  { left. split_and!; [|done..]. destruct Hun, Hun'. split; congruence. }
  right. split_and!; [done..|]. exists job. split; [by apply Hknown|]. exists requested, (clock (w_clock w)). cbn. destruct Hun as [Et' Ha'].
  rewrite <- Et', <- Ha'. split_and!; [done..| | |].
  - by split_and!.
  - rewrite Ha'. by apply Z.leb_gt in Edepth.
  - intros Hb Hco. rewrite Ha'. destruct job as [j|]; cbn in Hco, Ef; [|by destruct Hco].
    unfold job_declares_coalesce in Ef. by rewrite bool_decide_eq_true_2, Hb in Ef.
Qed.

(** C25. A trigger creates one execution or none. When it answers with a new
    execution, exactly that row was inserted and exactly its work item
    enqueued, and the job's queue was under its depth cap; the job is the one of
    that key in the configuration, else the stored definition, else (no such
    definition, or the store could not read it) none, with a cap of ten.
    Otherwise the rows and the queue are as they were: an answer of success names
    an execution that already covers the request (one with the same job and
    idempotency key, or a queued run of the job that bare signals fold into), and
    429 is answered, short of a refusal before the handler, only when that job's
    queue has reached its cap. *)
Theorem trigger_creates_one_or_none refused req w w' status ra resp :
  handle_trigger true dsl_jobs window refused req w = (w', (status, ra, resp)) ->
  (forall s, refused = Some s -> s <> HTTP_OK) ->
  unchanged w w' /\ (status = HTTP_OK -> answers_existing req resp w)
    /\ (status = HTTP_TOO_MANY_REQUESTS -> refused = None -> over_depth req w w')
  \/ status = HTTP_OK /\ ts_deduplicated resp = false /\ ts_coalesced resp = false
     /\ exists job, known_job (tr_job_key req) job w w' /\ creates req job (ts_execution_id resp) w w'.
Proof. apply trigger_cases. Qed.

(** ** Bursts of signals *)

Definition folds_for (k : string) (x : WorkItem) : bool := String.eqb (wi_job_key x) k && item_is_foldable x.
Definition foldable_for (k : string) (w : World St) : nat :=
  length (List.filter (folds_for k) (items (queue (w_app w)))).
Definition burst_bounded (w w' : World St) : Prop :=
  forall k, (foldable_for k w' <= Nat.max 1 (foldable_for k w))%nat.
#[local] Instance burst_bounded_preorder : PreOrder burst_bounded.
Proof.
  split; [intros w k; lia|]. intros a b c H1 H2 k. specialize (H1 k). specialize (H2 k). lia.
Qed.

Lemma find_none_foldable k w :
  find_for_job (queue (w_app w)) k item_is_foldable = None -> foldable_for k w = 0%nat.
Proof.
  unfold find_for_job, foldable_for. intros Hn.
  assert (List.filter (folds_for k) (items (queue (w_app w))) = []) as ->; [|done].
  induction (items _) as [|x l IH]; [done|]. cbn in *. fold (folds_for k x) in Hn.
  destruct (folds_for k x); [done|]. by apply IH.
Qed.

Lemma enqueue_foldable k q x :
  (length (List.filter (folds_for k) (items (enqueue q x).1))
   <= length (List.filter (folds_for k) (items q)) + (if folds_for k x then 1 else 0))%nat.
Proof.
  unfold enqueue. destruct (existsb _ _); cbn; [lia|]. rewrite List.filter_app, length_app. cbn.
  destruct (folds_for k x); cbn; lia.
Qed.

Context `{JL : !JsonLaws}.

Lemma trigger_item_foldable req requested job id now :
  item_is_foldable (trigger_item req requested job id now) = true ->
  is_bare_signal req = true /\ is_Some (default ∅ (jc_metadata <$> job) !! COALESCE_METADATA_KEY).
Proof.
  unfold item_is_foldable, metadata_is_foldable, trigger_item. cbn [metadata].
  rewrite has_key_of_map, bool_decide_eq_true, trigger_metadata_coalesce.
  destruct (is_bare_signal req); [done|]. by intros [? ?].
Qed.

Lemma trigger_bounded req : keeps burst_bounded (handle_trigger true dsl_jobs window None req).
Proof.
  intros w w' [[status ra] resp] Hrun k.
  apply trigger_cases in Hrun as [[[_ Ha] _]|(_ & _ & _ & job & _ & Hc)]; [unfold foldable_for; rewrite Ha; lia| |done].
  destruct Hc as (requested & now & _ & _ & _ & Ha & _ & _ & Hfold).
  pose proof (enqueue_foldable k (queue (w_app w)) (trigger_item req requested job (ts_execution_id resp) now)) as Hle.
  unfold foldable_for at 1. rewrite Ha. cbn [queue set_queue].
  destruct (folds_for k _) eqn:Ef in Hle; [|unfold foldable_for; lia].
  apply andb_true_iff in Ef as [Hk%String.eqb_eq Hf]. cbn in Hk.
  destruct (trigger_item_foldable _ _ _ _ _ Hf) as [Hb Hco]. specialize (Hfold Hb Hco).
  rewrite Hk in Hfold. pose proof (find_none_foldable _ _ Hfold) as Hz. unfold foldable_for in *. lia.
Qed.

(** A burst of triggers queues at most one run that signals fold into:
    however many triggers of whatever kind arrive between two polls, for any
    jobs, each job has at most one foldable work item in the queue afterwards,
    or no more than it had. *)
Theorem signal_burst_queues_one reqs (w : World St) k :
  (foldable_for k (each (fun req => _ ← handle_trigger true dsl_jobs window None req; mret tt) reqs w).1
   <= Nat.max 1 (foldable_for k w))%nat.
Proof.
  destruct (each _ reqs w) as [w' []] eqn:Hrun. refine (keeps_each burst_bounded _ reqs _ _ _ _ Hrun k).
  intros req. apply keeps_bind; [apply _|apply trigger_bounded|]. intros a. apply keeps_ret. apply _.
Qed.
End Facts.

(** ** Idempotency keys *)

(** An execution of the job with the request's key, still in flight or created
    within the window before [now]. *)
Definition covers (req : TriggerRequest) (window : Z) (now : instant) (e : Execution) : Prop :=
  ex_job_key e = tr_job_key req /\ is_Some (idempotency_of req) /\ ex_idempotency_key e = idempotency_of req
  /\ (in_flight e = true \/ now - seconds window <= ex_created_at e).

(** Against a store that refuses nothing, an idempotency key deduplicates
    exactly: a well-formed trigger is answered as a duplicate, and changes
    nothing, if and only if some execution of the job with that key is queued,
    claimed, or was created within the dedup window. *)
Theorem idempotency_key_deduplicates `{J : Json} `{E : Env} dsl_jobs window req
    (w w' : World SqliteStore) status ra resp key :
  faultless (w_store w) -> idempotency_of req = Some key -> (chars_count key <= MAX_IDEMPOTENCY_KEY_CHARS)%nat ->
  is_ok (validate_optional_duration (tr_timeout req)) = true ->
  handle_trigger true dsl_jobs window None req w = (w', (status, ra, resp)) ->
  (ts_deduplicated resp = true
   <-> exists id e, tb_execs (tbl w) !! id = Some e /\ covers req window (clock (w_clock w)) e)
  /\ (ts_deduplicated resp = true -> status = HTTP_OK /\ unchanged w w').
Proof.
  intros Hs Hk Hlen Hv Hrun.
  unfold handle_trigger in Hrun. fold (idempotency_of req) in Hrun. unfold covers. rewrite Hk in *.
  destruct (Nat.ltb_spec MAX_IDEMPOTENCY_KEY_CHARS (chars_count key)); [lia|].
  destruct (validate_optional_duration (tr_timeout req)) as [requested|]; [|done].
  apply bind_eq in Hrun as (w1 & now & [= <- <-] & Hrun).
  apply bind_eq in Hrun as (w2 & dup & Hdup & Hrun).
  apply bind_eq in Hdup as (w2' & r & Hc & Hret). injection Hret as <- <-.
  apply call_faultless in Hc as (Hs2 & Ha2 & found & -> & Et2 & Hfound); [|done..].
  change (tbl (MkWorld _ _ _ _ _)) with (tbl w) in Hfound, Et2.
  destruct found as [e|].
  - apply bind_eq in Hrun as (w3 & n & [= <- <-] & Hrun). injection Hrun as <- <- _ <-. cbn.
    split; [|done]. split; [intros _|done].
    destruct Hfound as ((id & Hid) & (Hj & Hi & Hfl) & _). apply String.eqb_eq in Hj.
    exists id, e. split_and!; [done..|by eexists|done|done].
  - assert (ts_deduplicated resp = false) as Hno.
    { apply bind_eq in Hrun as (w3 & job & _ & Hrun). apply bind_eq in Hrun as (w4 & q & _ & Hrun).
      case_match; [by injection Hrun as _ _ _ <-|]. case_match; [by injection Hrun as _ _ _ <-|].
      unfold create_triggered in Hrun. apply bind_eq in Hrun as (w5 & id & _ & Hrun).
      apply bind_eq in Hrun as (w6 & r & _ & Hrun). destruct r; [|by injection Hrun as _ _ _ <-].
      apply bind_eq in Hrun as (w7 & ok & _ & Hrun). apply bind_eq in Hrun as (w8 & n & _ & Hrun).
      by injection Hrun as _ _ _ <-. }
    rewrite Hno. split; [|done]. split; [done|].
    intros (id & e & He & Hj & _ & Hi & Hfl). exfalso. apply (Hfound id e He).
    split_and!; [by apply String.eqb_eq|done|done].
Qed.

(** ** Examples *)

(** A caller that tries to replace the command of the job. *)
Definition demo_trigger_request (payload : Payload) (idem : option string) : TriggerRequest := {|
  tr_job_key := "web:hook"; tr_require := []; tr_prefer := []; tr_metadata := payload;
  tr_timeout := Some "2h"; tr_idempotency_key := idem |}.

Lemma caller_cannot_forge_reserved_metadata_witness :
  trigger_metadata (demo_trigger_request (PlObject [("__runner_exec", "rm -rf /"); ("user", "7")]) None)
    (Some "2h") (Some (demo_job "web:hook" false)) !! "__runner_exec" = None.
Proof.
  apply (caller_cannot_forge_reserved_metadata
    (demo_trigger_request (PlObject [("__runner_exec", "rm -rf /"); ("user", "7")]) None)
    (Some "2h") (Some (demo_job "web:hook" false)) "__runner_exec"); [reflexivity|].
  by apply (bool_decide_unpack _).
Defined.

Abbreviation demo_triggered w req :=
  (handle_trigger true (Some [demo_job "web:hook" false]) 600 None req w).

Lemma trigger_creates_one_or_none_witness :
  let req := demo_trigger_request PlNull None in
  exists id job, creates req job id (demo_world [] [] []) (demo_triggered (demo_world [] [] []) req).1.
Proof.
  cbv zeta. set (req := demo_trigger_request PlNull None).
  assert (len (queue (w_app (demo_triggered (demo_world [] [] []) req).1)) = 1%nat) as Hq
    by (vm_compute; reflexivity).
  destruct (demo_triggered (demo_world [] [] []) req) as [w' [[status ra] resp]] eqn:Hrun.
  destruct (trigger_creates_one_or_none _ _ _ _ _ _ _ _ _ Hrun) as [[[_ Ha] _]|(_ & _ & _ & job & _ & Hc)];
    [discriminate| |by exists (ts_execution_id resp), job].
  exfalso. cbn [fst] in Hq. rewrite Ha in Hq. discriminate Hq.
Defined.

(** A job that folds signals: three of them, one queued run. *)
Definition demo_folding_job : JobConfig := job_config_from_job_def {|
  jd_job_key := "web:hook"; jd_description := None; jd_assigned_runner_id := None;
  jd_is_active := true; jd_metadata := {["__coalesce" := "1"]}; jd_created_at := 0; jd_updated_at := 0;
  jd_timeout := None; jd_max_retries := None; jd_dead_letter_enabled := None;
  jd_dead_letter_retention := None; jd_dead_letter_operator_hint := None;
  jd_dead_letter_replay_max_age := None; jd_tags := [] |}.
Definition demo_signal : TriggerRequest := {|
  tr_job_key := "web:hook"; tr_require := []; tr_prefer := []; tr_metadata := PlNull;
  tr_timeout := None; tr_idempotency_key := None |}.
Abbreviation demo_burst :=
  (each (fun req => _ ← handle_trigger true (Some [demo_folding_job]) 600 None req; mret tt)
     [demo_signal; demo_signal; demo_signal] (demo_world [] [] [])).1.

Lemma signal_burst_queues_one_witness :
  len (queue (w_app demo_burst)) = 1%nat /\ (foldable_for "web:hook" demo_burst <= 1)%nat.
Proof.
  split; [vm_compute; reflexivity|].
  exact (signal_burst_queues_one (Some [demo_folding_job]) 600 [demo_signal; demo_signal; demo_signal]
    (demo_world [] [] []) "web:hook").
Defined.

(** The second trigger with the key finds the run of the first. *)
Definition demo_keyed : TriggerRequest := demo_trigger_request PlNull (Some "order-7").
Abbreviation demo_repeat := (demo_triggered (demo_triggered (demo_world [] [] []) demo_keyed).1 demo_keyed).

Lemma idempotency_key_deduplicates_witness :
  ts_deduplicated demo_repeat.2.2 = true
  /\ unchanged (demo_triggered (demo_world [] [] []) demo_keyed).1 demo_repeat.1.
Proof.
  assert (ts_deduplicated demo_repeat.2.2 = true) as Hd by (vm_compute; reflexivity).
  split; [exact Hd|].
  assert (faultless (w_store (demo_triggered (demo_world [] [] []) demo_keyed).1)) as Hs by (vm_compute; reflexivity).
  destruct demo_repeat as [w' [[status ra] resp]] eqn:Hrun. cbn [fst snd] in *.
  refine (proj2 (proj2 (idempotency_key_deduplicates _ 600 demo_keyed _ w' status ra resp "order-7" Hs _ _ _ Hrun) Hd));
    [reflexivity|vm_compute; lia|reflexivity].
Defined.
