(* ===== verification/Watchdog.v ===== *)
(** * The watchdog

    Models the recovery sweeps of [croniq-server/src/watchdog.rs]: dead
    runners, queue deadlines, stale claims, stranded rows, expired overrides
    and acknowledgements, and execution retention. The alert sweeps are in
    [WatchdogAlerts]. *)

From S2P Require Import Prelude RustStr Chrono RunnerTypes Queue Registry RunnerApi.
From S2P Require Import Durations Execution JobConfig Store StoreCalls Server Alerts Requeue.
From S2P Require Import Dispatch Completion.

Local Open Scope string_scope.
Local Open Scope Z_scope.

Definition PRUNE_BATCH : Z := 5000.
Definition PRUNE_MAX_BATCHES : nat := 20.
Definition RECONCILE_BATCH : Z := 500.
Definition CLAIM_SWEEP_LIMIT : Z := 500.

Record PruneResult := { by_age : Z; by_cap : Z }.

Section Sweeps.
  Context `{J : Json} `{E : Env} {St : Type} `{SO : StoreOps St}.
  Context (transport : string -> ChannelConfig -> string -> FailureContext -> instant -> Sent).
  (** The Croniqfile's jobs as of this sweep, and the alert rules. *)
  Context (jobs : gmap string JobConfig) (alerts : AlertsConfig) (claim_sweep_limit : Z).

(** [dsl_job], [resolve_job_config] *)
Definition dsl_job (key : string) : option JobConfig := jobs !! key.
Definition watchdog_resolve (key : string) : M St (option JobConfig) :=
  match dsl_job key with
  | Some c => mret (Some c)
  | None =>
      r ← call (GetJobDefinition key);
      mret match r with Ok (Some def) => Some (job_config_from_job_def def) | _ => None end
  end.

(** ** Retention *)

(** [for _ in 0..PRUNE_MAX_BATCHES]: stop at a short batch or an error. *)
Fixpoint prune_batches (c : Call Z) (fuel : nat) : M St Z :=
  match fuel with
  | O => mret 0
  | S fuel =>
      r ← call c;
      match r with
      | Err _ => mret 0
      | Ok n => if n <? PRUNE_BATCH then mret n
                else m ← prune_batches c fuel; mret (wrap_u64 (n + m))
      end
  end.

(** [prune_executions]; [order] is the order in which the jobs are visited. *)
Fixpoint prune_jobs (order : list string) : M St Z :=
  match order with
  | [] => mret 0
  | key :: order =>
      n ← match jobs !! key with
          | Some job => match jc_keep_last job with
                        | Some keep => prune_batches (PruneKeepLast (jc_key job) keep PRUNE_BATCH)
                                         PRUNE_MAX_BATCHES
                        | None => mret 0
                        end
          | None => mret 0
          end;
      m ← prune_jobs order;
      mret (wrap_u64 (n + m))
  end.
Definition prune_executions (order : list string) (now : instant) (retention : option Z)
    : M St PruneResult :=
  age ← match retention with
        | Some dur => prune_batches (PruneOlderThan (now - dur) PRUNE_BATCH) PRUNE_MAX_BATCHES
        | None => mret 0
        end;
  cap ← prune_jobs order;
  mret {| by_age := age; by_cap := cap |}.

(** ** Dead runners *)

Definition sweep_dead_runner (now : instant) (rid : string) : M St (list string) :=
  ids ← requeue_abandoned_for_runner watchdog_resolve rid now;
  _ ← each (fun id => modify_app (fun a => clear_lease a rid id)) ids;
  mret ids.
Definition evict_runner (a : AppState) (rid : string) : AppState :=
  set_cancels (delete rid (cancel_queues a)) (set_registry (registry_remove (registry a) rid).1 a).

(** ** Queue deadlines: [expire_queued_by_ttl] *)

Definition job_ttl (job : JobConfig) : option Z :=
  s ← jc_queue_ttl job; d ← parse_duration s; chrono_from_std d.
Definition ttl_expired (now : instant) (item : WorkItem) : bool :=
  match jobs !! wi_job_key item ≫= job_ttl with
  | Some ttl => ttl <? now - fire_at item
  | None => false
  end.
Definition remove_item (id : string) : M St unit :=
  modify_app (fun a => set_queue (remove (queue a) id).1 a).
Definition expire_one (now : instant) (exec_id : string) : M St (list string) :=
  match parse_uuid exec_id with
  | None => _ ← remove_item exec_id; mret []
  | Some id =>
      r ← call (CancelExecution id now);
      match r with
      | Ok _ => _ ← remove_item exec_id; mret [id]
      | Err _ => mret []
      end
  end.
Definition expire_queued_by_ttl (now : instant) : M St (list string) :=
  expired ← get_app (fun a => map execution_id (List.filter (ttl_expired now) (peek_n (queue a) (Z.to_nat 10000))));
  collect (expire_one now) expired.

(** ** Stale claims: [sweep_stale_claims] *)

(** Whether the reaper requeues this claim, by the leases it read. *)
Definition lease_fresh (leases : gmap string LeaseRenewal) (grace now : Z) (ex : Execution) : bool :=
  match ex_runner_id ex with
  | None => false
  | Some rid =>
      match leases !! ex_id ex with
      | Some lease => String.eqb (lr_runner_id lease) rid
                      && (num_seconds (now - renewed_at lease) <? wrap_i64 grace)
      | None => false
      end
  end.
Definition claim_age (now : instant) (ex : Execution) : Z :=
  let basis := default (ex_created_at ex) (option_or (ex_claimed_at ex) (ex_started_at ex)) in
  num_seconds (now - basis).
Definition reapable (leases : gmap string LeaseRenewal) (grace : Z) (now : instant)
    (timeout_secs : Z) (ex : Execution) : bool :=
  let threshold := wrap_u64 (timeout_secs + grace) in
  let cap := saturating U64_MAX (threshold * 2) in
  negb (claim_age now ex <=? wrap_i64 threshold)
  && negb (lease_fresh leases grace now ex && (claim_age now ex <=? wrap_i64 cap)).

Definition stale_line (ex : Execution) (threshold : Z) : string :=
  "claim by runner " ++ default "<none>" (ex_runner_id ex) ++ " outlived the job timeout + grace ("
  ++ show_uint threshold ++ "s) without a completion — requeued".

(** The body of the loop: the claim it reaped, if any. *)
Definition reap_one (leases : gmap string LeaseRenewal) (grace : Z) (now : instant)
    (ex : Execution) : M St (list (option string * string)) :=
  job ← watchdog_resolve (ex_job_key ex);
  let timeout_secs := effective_timeout_secs (ex_metadata ex) (j ← job; jc_timeout j) in
  let threshold := wrap_u64 (timeout_secs + grace) in
  if negb (reapable leases grace now timeout_secs ex) then mret []
  else
    r ← call (RequeueIfClaimed (ex_id ex) now);
    match r with
    | Ok true =>
        _ ← record_requeue_in_log ex now (stale_line ex threshold);
        _ ← record_event "system" None "execution.stale_claim_requeued" "execution" (Some (ex_id ex));
        _ ← enqueue_requeued_execution watchdog_resolve (ex_id ex);
        mret [(ex_runner_id ex, ex_id ex)]
    | Ok false | Err _ => mret []
    end.

Definition drop_claim (a : AppState) (c : option string * string) : AppState :=
  match c.1 with
  | Some rid => set_registry (release (registry a) rid c.2).1 a
  | None => a
  end.
Definition drop_lease (a : AppState) (c : option string * string) : AppState :=
  match c.1 with Some rid => clear_lease a rid c.2 | None => a end.

Definition sweep_stale_claims (now : instant) : M St (list string) :=
  grace ← get_app lease_grace_secs;
  r ← call (ListClaimedOlderThan (now - seconds (wrap_i64 grace)) claim_sweep_limit);
  match r with
  | Err _ => mret []
  | Ok claimed =>
      leases ← get_app lease_renewals;
      reaped ← collect (reap_one leases grace now) claimed;
      _ ← modify_app (fun a => foldl drop_lease (foldl drop_claim a reaped) reaped);
      mret (map snd reaped)
  end.

(** ** Stranded rows: [reconcile_stranded_queued] *)

Inductive Reconciled := RReconciled (id : string) | RCancelled (id : string).

Definition reconcile_one (in_queue : list string) (now : instant) (ex : Execution)
    : M St (list Reconciled) :=
  if mentioned (ex_id ex) in_queue then mret []
  else
    known ← match dsl_job (ex_job_key ex) with
            | Some _ => mret (Some true)
            | None => r ← call (GetJobDefinition (ex_job_key ex));
                      mret match r with
                           | Ok def => Some (bool_decide (is_Some def))
                           | Err _ => None
                           end
            end;
    match known with
    | None => mret []
    | Some false =>
        r ← call (CancelExecution (ex_id ex) now);
        match r with
        | Err _ => mret []
        | Ok _ =>
            _ ← record_event "system" None "execution.stranded_queued_cancelled" "execution"
                  (Some (ex_id ex));
            mret [RCancelled (ex_id ex)]
        end
    | Some true =>
        ok ← enqueue_requeued_execution watchdog_resolve (ex_id ex);
        mret (if ok : bool then [RReconciled (ex_id ex)] else [])
    end.
Definition reconcile_stranded_queued (now : instant) : M St (list Reconciled) :=
  r ← call (FindQueued RECONCILE_BATCH);
  match r with
  | Err _ => mret []
  | Ok queued =>
      in_queue ← get_app (fun a => map execution_id (peek_n (queue a) (len (queue a))));
      collect (reconcile_one in_queue now) queued
  end.

(** ** Expired overrides and acknowledgements *)

Definition sweep_expired_overrides (now : instant) : M St (list string) :=
  r ← call (DeleteExpiredOverrides now);
  match r with
  | Err _ => mret []
  | Ok cleared =>
      _ ← each (fun rule => record_event "system" None "alerts.override.cleared" "alert_rule"
                              (Some rule)) cleared;
      mret cleared
  end.

Definition job_exists (key : string) : M St bool :=
  match dsl_job key with
  | Some _ => mret true
  | None => r ← call (GetJobDefinition key);
            mret match r with Ok (Some _) => true | _ => false end
  end.
Definition sweep_expired_acks (now : instant) : M St (list string) :=
  r ← call (TakeExpiredAcks now);
  match r with
  | Err _ => mret []
  | Ok expired =>
      collect (fun ack =>
        _ ← record_event "system" None "alerts.ack.expired" "job" (Some (ak_job_key ack));
        exists_ ← job_exists (ak_job_key ack);
        _ ← (if exists_ : bool then alert_ack_expired transport alerts ack else mret []);
        mret [ak_job_key ack]) expired
  end.
End Sweeps.
