(* ===== verification/WatchdogFacts.v ===== *)
(** * What the watchdog guarantees

    The reaper requeues a claim only past its timeout, grace and lease,
    whatever the store calls return. With a store that refuses nothing, one
    reconcile pass brings every queued row back into the in-memory queue. *)

From S2P Require Import Prelude RustStr Chrono RunnerTypes Queue Registry RunnerApi.
From S2P Require Import Durations Execution JobConfig Store StoreCalls Sqlite SqliteFacts Lifecycle.
From S2P Require Import Server Alerts DemoServer Requeue Dispatch DispatchFacts AlertFacts.
From S2P Require Import Completion CompletionFacts Watchdog.

Local Open Scope string_scope.
Local Open Scope Z_scope.

(** ** Reconciling *)

Section Reconcile.
  Context `{J : Json} `{E : Env}.
  Context (jobs : gmap string JobConfig) (now : instant).

Abbreviation W := (World SqliteStore).
Definition in_mem (w : W) (id : string) : Prop := id ∈ map execution_id (items (queue (w_app w))).
Lemma enqueue_item_mem item (w w' : W) ok :
  enqueue_item item w = (w', ok) ->
  w_store w' = w_store w /\ (forall id, in_mem w' id <-> in_mem w id \/ id = execution_id item).
Proof.
  unfold enqueue_item, update_app, in_mem. intros Hrun.
  destruct (enqueue (queue (w_app w)) item) as [q b] eqn:Eq. injection Hrun as <- _.
  cbn [w_store w_app set_app queue set_queue]. unfold enqueue in Eq. split; [done|]. intros id.
  destruct (existsb _ _) eqn:Ex; injection Eq as <- _.
  - split; [by left|]. intros [?| ->]; [done|]. apply existsb_exists in Ex as (x & Hx & Heq%String.eqb_eq).
    rewrite <- Heq. apply list_elem_of_fmap. exists x. split; [done|]. by apply list_elem_of_In.
  - cbn [items]. rewrite map_app, elem_of_app. cbn. by rewrite list_elem_of_singleton.
Qed.

(** The job is in the configuration or in the store's definitions. *)
Definition known_job (w : W) (key : string) : Prop :=
  dsl_job jobs key <> None \/ is_Some (tb_defs (tbl w) !! key).

(** What the pass owes a queued row: one already in the queue, or of a known job,
    keeps its row and is in the queue; any other is cancelled and is not. *)
Definition row_settled (ex : Execution) (w w' : W) : Prop :=
  (in_mem w (ex_id ex) \/ known_job w (ex_job_key ex) ->
     tb_execs (tbl w') !! ex_id ex = Some ex /\ in_mem w' (ex_id ex))
  /\ (~ in_mem w (ex_id ex) -> ~ known_job w (ex_job_key ex) ->
     tb_execs (tbl w') !! ex_id ex = Some (cancelled_row now ex) /\ ~ in_mem w' (ex_id ex)).

(** Everything about [id] is as it was. *)
Definition row_kept (w w' : W) (id : string) : Prop :=
  tb_execs (tbl w') !! id = tb_execs (tbl w) !! id /\ (in_mem w' id <-> in_mem w id).

(** One row's turn settles that row and leaves the others. *)
Definition turn_done (ex : Execution) (w w' : W) : Prop :=
  ok_store w' /\ tb_defs (tbl w') = tb_defs (tbl w)
  /\ (forall id, id <> ex_id ex -> row_kept w w' id) /\ row_settled ex w w'.

Lemma turn_shift ex (w w1 w' : W) :
  w_app w1 = w_app w -> tbl w1 = tbl w -> turn_done ex w1 w' -> turn_done ex w w'.
Proof. intros Ha Et. unfold turn_done, row_kept, row_settled, known_job, in_mem. by rewrite Ha, Et. Qed.

Lemma requeued_turn ex (w w' : W) ok :
  ok_store w -> tb_execs (tbl w) !! ex_id ex = Some ex -> ex_state ex = EQueued ->
  known_job w (ex_job_key ex) ->
  enqueue_requeued_execution (watchdog_resolve jobs) (ex_id ex) w = (w', ok) -> turn_done ex w w'.
Proof.
  intros Hs He Hq Hknown Hrun. apply bind_eq in Hrun as (w1 & r & Hc & Hrun).
  apply call_faultless in Hc as (Hs1 & Ha1 & o & -> & Et1 & ->); [|done..].
  rewrite He in Hrun. unfold has_state in Hrun. rewrite Hq in Hrun. cbn [bool_decide decide negb] in Hrun.
  rewrite bool_decide_true in Hrun by done. cbn [negb] in Hrun.
  apply bind_eq in Hrun as (w2 & job & Hres & Hrun).
  assert (ok_store w2 /\ w_app w2 = w_app w /\ tbl w2 = tbl w /\ is_Some job) as (Hs2 & Ha2 & Et2 & [j ->]).
  { unfold watchdog_resolve in Hres. destruct (dsl_job jobs (ex_job_key ex)) as [j|] eqn:Ed.
    - injection Hres as <- <-. split_and!; [done..|by eexists].
    - apply bind_eq in Hres as (w3 & r & Hc & Hres).
      apply call_faultless in Hc as (Hs3 & Ha3 & d & -> & Et3 & ->); [|done..]. rewrite Et1 in Hres.
      destruct Hknown as [?|[def Hdef]]; [done|]. rewrite Hdef in Hres. injection Hres as <- <-.
      split_and!; [done|congruence|congruence|by eexists]. }
  apply enqueue_item_mem in Hrun as (Hst & Hmem). apply (turn_shift _ _ w2); [done..|].
  rewrite <- Et2 in He. assert (known_job w2 (ex_job_key ex)) by (unfold known_job in *; by rewrite Et2).
  unfold turn_done, ok_store, row_kept, row_settled, tbl in *. rewrite Hst. split_and!; [done..| | |done].
  - intros id Hne. split; [done|]. rewrite Hmem. naive_solver.
  - intros _. split; [done|]. apply Hmem. by right.
Qed.

Lemma cancelled_turn ex (w w' : W) u :
  ok_store w -> tb_execs (tbl w) !! ex_id ex = Some ex -> ex_state ex = EQueued ->
  ~ in_mem w (ex_id ex) -> ~ known_job w (ex_job_key ex) ->
  call (CancelExecution (ex_id ex) now) w = (w', u) -> is_ok u = true /\ turn_done ex w w'.
Proof.
  intros Hs He Hq Hm Hk Hc. apply call_faultless in Hc as (Hs1 & Ha1 & [] & -> & m & hit & Hsw & Et); [|done..].
  assert (in_flight ex = true) as Hf by (apply in_states_In; rewrite Hq; by left).
  unfold swapped in Hsw. rewrite He, Hf in Hsw. destruct Hsw as [_ ->].
  unfold turn_done, row_kept, row_settled, in_mem in *. rewrite Ha1, Et.
  cbn [tb_execs tb_defs set_execs]. split_and!; [done..| | |].
  - intros id Hne. by rewrite lookup_insert_ne.
  - naive_solver.
  - intros _ _. by rewrite lookup_insert_eq.
Qed.

Lemma event_turn ex aty aid act tty tid (w w1 w' : W) u :
  turn_done ex w w1 -> record_event aty aid act tty tid w1 = (w', u) -> turn_done ex w w'.
Proof.
  intros (Hs & Hg & Hx & Hd) Hrun.
  pose proof (record_event_keeps _ _ _ _ _ _ _ _ Hrun) as [(Hex & _ & _ & _ & _ & Hdefs) [Ha _]].
  assert (ok_store w') as Hs'.
  { apply bind_eq in Hrun as (wa & id & [= <- <-] & Hrun). apply bind_eq in Hrun as (wb & t & [= <- <-] & Hrun).
    apply bind_eq in Hrun as (wc & r & Hc & [= <- _]). by eapply call_ok_store in Hc. }
  unfold turn_done, row_kept, row_settled, in_mem in *. rewrite Ha, Hex, Hdefs. exact (conj Hs' (conj Hg (conj Hx Hd))).
Qed.

Lemma mentioned_elem id l : mentioned id l = true <-> id ∈ l.
Proof.
  unfold mentioned. rewrite existsb_exists. setoid_rewrite String.eqb_eq.
  setoid_rewrite <- list_elem_of_In. naive_solver.
Qed.

Lemma reconcile_one_turn in_queue ex (w w' : W) out :
  ok_store w -> tb_execs (tbl w) !! ex_id ex = Some ex -> ex_state ex = EQueued ->
  (ex_id ex ∈ in_queue <-> in_mem w (ex_id ex)) ->
  reconcile_one jobs in_queue now ex w = (w', out) -> turn_done ex w w'.
Proof.
  intros Hs He Hq Hin Hrun. unfold reconcile_one in Hrun. rewrite <- mentioned_elem in Hin.
  destruct (mentioned (ex_id ex) in_queue) eqn:Em.
  { injection Hrun as <- <-. unfold turn_done, row_kept, row_settled. naive_solver. }
  assert (~ in_mem w (ex_id ex)) as Hm by naive_solver.
  apply bind_eq in Hrun as (w1 & known & Hk & Hrun).
  assert (ok_store w1 /\ w_app w1 = w_app w /\ tbl w1 = tbl w
    /\ known = Some (bool_decide (known_job w (ex_job_key ex)))) as (Hs1 & Ha1 & Et1 & ->).
  { unfold known_job. destruct (dsl_job jobs (ex_job_key ex)) as [j|].
    - injection Hk as <- <-. split_and!; [done..|]. rewrite bool_decide_true by by left. done.
    - apply bind_eq in Hk as (w2 & r & Hc & Hk).
      apply call_faultless in Hc as (Hs2 & Ha2 & d & -> & Et2 & ->); [|done..]. injection Hk as <- <-.
      split_and!; [done..|]. f_equal. apply bool_decide_ext. naive_solver. }
  rewrite <- Et1 in He. apply (turn_shift _ _ w1); [done..|].
  case_bool_decide as Hknown; unfold known_job in Hknown; rewrite <- Et1 in Hknown.
  - apply bind_eq in Hrun as (w2 & ok & Hr & [= <- _]). by eapply requeued_turn.
  - apply bind_eq in Hrun as (w2 & r & Hc & Hrun).
    apply cancelled_turn in Hc as [Hok Ht]; [|done..|unfold in_mem in *; by rewrite Ha1|done].
    destruct r as [[]|]; [|done].
    apply bind_eq in Hrun as (w3 & u & Hev & [= <- _]). by eapply event_turn.
Qed.

Lemma reconcile_all in_queue l : forall (w w' : W) out,
  ok_store w -> NoDup (map ex_id l) ->
  (forall ex, ex ∈ l -> tb_execs (tbl w) !! ex_id ex = Some ex /\ ex_state ex = EQueued
                        /\ (ex_id ex ∈ in_queue <-> in_mem w (ex_id ex))) ->
  collect (reconcile_one jobs in_queue now) l w = (w', out) ->
  (forall id, id ∉ map ex_id l -> row_kept w w' id) /\ (forall ex, ex ∈ l -> row_settled ex w w').
Proof.
  induction l as [|ex l IH]; intros w w' out Hs Hnd Hl Hrun.
  { injection Hrun as <- <-. split; [done|]. by intros ex ?%not_elem_of_nil. }
  cbn [map] in Hnd. apply NoDup_cons in Hnd as [Hni Hnd].
  apply bind_eq in Hrun as (w1 & a & H1 & Hrun). apply bind_eq in Hrun as (w2 & b & H2 & [= <- _]).
  destruct (Hl ex ltac:(left)) as (He & Hq & Hm).
  apply reconcile_one_turn in H1 as (Hs1 & Hdefs & Hx & Hd); [|done..].
  assert (forall y, y ∈ l -> ex_id y <> ex_id ex) as Hne.
  { intros y Hy Eq. apply Hni. rewrite <- Eq. by apply list_elem_of_fmap_2. }
  apply IH in H2 as [Hout Hin]; [|done..|].
  2: { intros y Hy. destruct (Hl y ltac:(by right)) as (Hy1 & Hy2 & Hy3).
       destruct (Hx (ex_id y) (Hne y Hy)) as [Hr Hi]. by rewrite Hr, Hi. }
  split.
  - intros id [Hid Hnot]%not_elem_of_cons. destruct (Hx id Hid), (Hout id Hnot). split; [congruence|tauto].
  - intros y [->|Hy]%elem_of_cons.
    + destruct (Hout (ex_id ex) Hni) as [Hr Hi]. unfold row_settled in *. by rewrite Hr, Hi.
    + destruct (Hx (ex_id y) (Hne y Hy)) as [Hr Hi]. specialize (Hin y Hy).
      unfold row_settled, known_job in *. rewrite Hdefs in Hin. by rewrite <- Hi.
Qed.
(** A listing long enough shows every queued row. *)
Lemma find_queued_all limit (w w1 : W) r :
  ok_store w -> rows_ok (tbl w) -> 0 <= limit -> count_where (has_state EQueued) (tbl w) <= limit ->
  call (FindQueued limit) w = (w1, r) ->
  ok_store w1 /\ w_app w1 = w_app w /\ tbl w1 = tbl w
  /\ exists queued, r = Ok queued /\ NoDup (map ex_id queued)
       /\ forall ex, ex ∈ queued <-> tb_execs (tbl w) !! ex_id ex = Some ex /\ ex_state ex = EQueued.
Proof.
  intros Hs Hok H0 Hcount Hc.
  apply call_faultless in Hc as (Hs1 & Ha1 & queued & -> & Et1 & sorted & Hperm & _ & Hq); [|done..].
  assert (queued ≡ₚ base.filter (fun e => has_state EQueued e = true) (rows (tb_execs (tbl w)))) as Hall.
  { rewrite Hq, <- Hperm. change (drop (Z.to_nat 0) sorted) with sorted. rewrite take_ge; [done|].
    rewrite Hperm. unfold count_where in *. lia. }
  split_and!; [done..|]. exists queued. split; [done|]. split; [rewrite Hall; by apply selected_ids_nodup|].
  intros ex. rewrite Hall, list_elem_of_filter. unfold has_state. rewrite bool_decide_eq_true.
  split; [|intros [? ?]; split; [done|]; apply list_elem_of_fmap; exists (ex_id ex, ex);
           split; [done|]; by apply elem_of_map_to_list].
  intros [? Hrow]. split; [|done]. apply list_elem_of_fmap in Hrow as ([id e] & -> & Hid%elem_of_map_to_list).
  cbn in *. by destruct (Hok id e Hid) as [-> _].
Qed.
End Reconcile.

(** C7. With a store that refuses no statement, one reconcile pass restores
    the invariant it exists for: every row that is queued in the store
    afterwards has its work item in the in-memory queue, from which alone
    runners are served. Row by row: a queued row whose item is in the queue, or
    whose job is known to the configuration or to the definitions of the store,
    keeps its row and is in the queue afterwards; a queued row without an item
    whose job exists in neither is cancelled and not queued; every other row, and
    what the queue holds of ids that are no queued row, is left as it was. (The
    pass looks at [RECONCILE_BATCH] rows.) *)
Theorem reconcile_restores_queue `{J : Json} `{E : Env} (jobs : gmap string JobConfig) (now : instant)
    (w w' : World SqliteStore) out :
  faultless (w_store w) -> rows_ok (tbl w) ->
  count_where (has_state EQueued) (tbl w) <= RECONCILE_BATCH ->
  reconcile_stranded_queued jobs now w = (w', out) ->
  (forall id e, tb_execs (tbl w') !! id = Some e -> ex_state e = EQueued -> in_mem w' id)
  /\ (forall id e, tb_execs (tbl w) !! id = Some e -> ex_state e = EQueued -> row_settled jobs now e w w')
  /\ (forall id, (forall e, tb_execs (tbl w) !! id = Some e -> ex_state e <> EQueued) -> row_kept w w' id).
Proof.
  intros Hs Hok Hcount Hrun. apply bind_eq in Hrun as (w1 & r & Hc & Hrun).
  apply find_queued_all in Hc as (Hs1 & Ha1 & Et1 & queued & -> & Hnd & Hin); [|done..].
  apply bind_eq in Hrun as (w2 & inq & [= <- <-] & Hrun).
  apply reconcile_all in Hrun as [H1 H2]; [|done..|].
  2: { intros ex [He Hq]%Hin. rewrite Et1. split_and!; [done..|]. unfold in_mem, peek_n, len.
       by rewrite take_ge. }
  assert (forall id e, tb_execs (tbl w) !! id = Some e -> ex_state e = EQueued ->
            row_settled jobs now e w w') as Hrow.
  { intros id e He Hq. destruct (Hok id e He) as [Hid _]. rewrite <- Hid in He.
    specialize (H2 e (proj2 (Hin e) (conj He Hq))). unfold row_settled, known_job, in_mem in *.
    by rewrite <- Et1, <- Ha1. }
  assert (forall id, (forall e, tb_execs (tbl w) !! id = Some e -> ex_state e <> EQueued) ->
            row_kept w w' id) as Hkept.
  { intros id Hnq. enough (id ∉ map ex_id queued) as Hnot%H1 by (unfold row_kept, in_mem in *; by rewrite <- Et1, <- Ha1).
    intros (e & -> & [He Hq]%Hin)%list_elem_of_fmap. by apply (Hnq e). }
  split_and!; [|done..]. intros id e He Hq.
  destruct (tb_execs (tbl w) !! id) as [e0|] eqn:E0.
  - destruct (decide (ex_state e0 = EQueued)) as [Hq0|Hq0].
    + destruct (Hok id e0 E0) as [Hid _]. destruct (Hrow id e0 E0 Hq0) as [Hyes Hno]. rewrite Hid in Hyes, Hno.
      destruct (decide (id ∈ map execution_id (items (queue (w_app w))))); [by apply Hyes; left|].
      assert (Decision (known_job jobs w (ex_job_key e0))) as Hdec by (unfold known_job; apply _).
      destruct (decide (known_job jobs w (ex_job_key e0))); [by apply Hyes; right|].
      destruct Hno as [Hr _]; [done..|]. rewrite He in Hr. injection Hr as ->. done.
    + destruct (Hkept id) as [Hr _]; [congruence|]. congruence.
  - destruct (Hkept id) as [Hr _]; congruence.
Qed.

(** ** The reaper *)

Section Reaper.
  Context `{J : Json} `{E : Env} {St : Type} `{SL : StoreLaws St}.
  Context (jobs : gmap string JobConfig).

Definition same_execs (w w' : World St) : Prop :=
  tb_execs (tbl w') = tb_execs (tbl w) /\ tb_defs (tbl w') = tb_defs (tbl w)
  /\ lease_renewals (w_app w') = lease_renewals (w_app w).
#[local] Instance same_execs_preorder : PreOrder same_execs.
Proof. split; [done|]. intros a b c (? & ? & ?) (? & ? & ?). split_and!; congruence. Qed.

Definition plain_call {A} (c : Call A) : bool :=
  match c with
  | GetExecution _ | GetJobDefinition _ | AppendLogs _ | AuditLog _ => true
  | _ => false
  end.
Lemma plain_call_keeps {A} (c : Call A) : plain_call c = true -> keeps same_execs (call c).
Proof.
  intros Hc w w' r (Hrun & Ha & _)%call_eq. unfold same_execs, tbl. rewrite Ha.
  apply run_honours in Hrun. destruct r as [a|[x|x|x]]; cbn in Hrun.
  - destruct c; try done; cbn in Hrun; solve [by rewrite Hrun|by destruct Hrun as [-> _]].
  - by destruct Hrun as [-> _].
  - by destruct Hrun as [-> _].
  - destruct Hrun as [->|Hrun]; [done|]. by destruct c.
Qed.
Lemma plain_uuid : keeps same_execs new_uuid.
Proof. by intros w w' a [= <- _]. Qed.
Lemma plain_now : keeps same_execs utc_now.
Proof. by intros w w' a [= <- _]. Qed.
Lemma plain_enqueue item : keeps same_execs (enqueue_item item).
Proof.
  intros w w' a Hrun. unfold enqueue_item, update_app in Hrun. destruct (enqueue _ _). by injection Hrun as <- _.
Qed.
#[local] Hint Resolve plain_uuid plain_now plain_enqueue : croniq.
#[local] Hint Extern 2 (keeps same_execs (call _)) => apply plain_call_keeps; reflexivity : croniq.

Lemma requeue_tail_keeps ex now msg ids :
  keeps same_execs (record_requeue_in_log ex now msg)
  /\ keeps same_execs (record_event "system" None "execution.stale_claim_requeued" "execution" (Some ids))
  /\ keeps same_execs (enqueue_requeued_execution (watchdog_resolve jobs) ids).
Proof.
  unfold record_requeue_in_log, record_event, enqueue_requeued_execution, watchdog_resolve.
  split_and!; keeps_all.
Qed.

(** The timeout in force: the Croniqfile's job, else a stored definition, else
    none could be read. *)
Definition timeout_source (t : Tables) (key : string) (jt : option string) : Prop :=
  match jobs !! key with
  | Some job => jt = jc_timeout job
  | None => jt = None \/ exists def, tb_defs t !! key = Some def
                         /\ jt = jc_timeout (job_config_from_job_def def)
  end.
(** The claim outlived its timeout and grace, and twice that when its runner
    still renews it. *)
Definition overstayed (a : AppState) (now : instant) (t : Tables) (e : Execution) : Prop :=
  exists jt, timeout_source t (ex_job_key e) jt /\
    let threshold := wrap_u64 (effective_timeout_secs (ex_metadata e) jt + lease_grace_secs a) in
    wrap_i64 threshold < claim_age now e
    /\ (lease_fresh (lease_renewals a) (lease_grace_secs a) now e = true ->
        wrap_i64 (saturating U64_MAX (threshold * 2)) < claim_age now e).

Lemma wd_resolve_spec key w w' job :
  watchdog_resolve jobs key w = (w', job) ->
  same_execs w w' /\ timeout_source (tbl w) key (j ← job; jc_timeout j).
Proof.
  unfold watchdog_resolve, timeout_source, dsl_job. destruct (jobs !! key) as [j|].
  { by intros [= <- <-]. }
  intros (w1 & r & Hc & [= <- <-])%bind_eq. pose proof Hc as Hc'.
  apply plain_call_keeps in Hc; [|done]. split; [done|].
  apply call_eq in Hc' as (Hrun & _). apply run_honours in Hrun.
  destruct r as [[def|]|]; [|by left..]. right. exists def. cbn in Hrun. by destruct Hrun as [_ Hd].
Qed.

Lemma requeue_if_claimed_spec id now w w' r :
  call (RequeueIfClaimed id now) w = (w', r) ->
  w_app w' = w_app w /\ tb_defs (tbl w') = tb_defs (tbl w) /\
  match r with
  | Ok true => exists e, tb_execs (tbl w) !! id = Some e /\ ex_state e = EClaimed
      /\ tb_execs (tbl w') = <[id := requeued_row e]> (tb_execs (tbl w))
  | _ => tb_execs (tbl w') = tb_execs (tbl w)
  end.
Proof.
  intros (Hrun & Ha & _)%call_eq. apply run_honours in Hrun. unfold tbl.
  destruct r as [hit|[x|x|x]]; cbn [honours post] in Hrun;
    [|by destruct Hrun as [-> _]..|by destruct Hrun as [->|[]]].
  destruct Hrun as (m & Hs & ->). unfold swapped in Hs. split_and!; [done..|].
  destruct (tb_execs (tables (w_store w)) !! id) as [e|] eqn:He; destruct Hs as [-> ->]; [|done].
  destruct (has_state EClaimed e) eqn:Hc; [|done]. apply bool_decide_eq_true in Hc. eauto.
Qed.

(** Where the rows stand while the reaper runs: as they were, or requeued for
    a reason. *)
Definition reaped_from (w0 w : World St) (now : instant) : Prop :=
  tb_defs (tbl w) = tb_defs (tbl w0) /\
  forall id e, tb_execs (tbl w0) !! id = Some e ->
    tb_execs (tbl w) !! id = Some e
    \/ (ex_state e = EClaimed /\ overstayed (w_app w0) now (tbl w0) e
        /\ tb_execs (tbl w) !! id = Some (requeued_row e)).

Lemma same_execs_reaped w0 w w' now : same_execs w w' -> reaped_from w0 w now -> reaped_from w0 w' now.
Proof. intros (Hx & Hd & _) [H1 H2]. split; [congruence|]. intros id e He. rewrite Hx. by apply H2. Qed.

Lemma reap_one_spec w0 now ex w w' out :
  rows_ok (tbl w0) -> tb_execs (tbl w0) !! ex_id ex = Some ex -> reaped_from w0 w now ->
  reap_one jobs (lease_renewals (w_app w0)) (lease_grace_secs (w_app w0)) now ex w = (w', out) ->
  reaped_from w0 w' now.
Proof.
  intros Hok Hex Hr Hrun. unfold reap_one in Hrun.
  apply bind_eq in Hrun as (w1 & job & [Hsame Hsrc]%wd_resolve_spec & Hrun). cbv zeta in Hrun.
  apply (same_execs_reaped _ _ _ _ Hsame) in Hr as Hr1.
  destruct (reapable _ _ _ _ ex) eqn:Hreap; cbn [negb] in Hrun; [|by injection Hrun as <- _].
  apply bind_eq in Hrun as (w2 & r & (Ha2 & Hd2 & Hc)%requeue_if_claimed_spec & Hrun).
  destruct r as [[]|].
  2,3: injection Hrun as <- _; destruct Hr1 as [H1 H2]; split; [congruence|];
       intros id e0 He; rewrite Hc; by apply H2.
  destruct (requeue_tail_keeps ex now (stale_line ex (wrap_u64 (effective_timeout_secs (ex_metadata ex)
    (j ← job; jc_timeout j) + lease_grace_secs (w_app w0)))) (ex_id ex)) as (K1 & K2 & K3).
  apply bind_eq in Hrun as (w3 & u3 & H3%K1 & Hrun). apply bind_eq in Hrun as (w4 & u4 & H4%K2 & Hrun).
  apply bind_eq in Hrun as (w5 & u5 & H5%K3 & [= <- _]).
  eapply same_execs_reaped; [transitivity w3; [exact H3|transitivity w4; [exact H4|exact H5]]|].
  destruct Hc as (e' & He' & Hcl & Ex2). destruct Hr1 as [Hdef Hrows]. split; [congruence|].
  intros id e He. rewrite Ex2, lookup_insert. case_decide as Eq; [|by apply Hrows].
  subst id. assert (e = ex) as -> by congruence. right.
  destruct (Hrows _ _ He) as [Hrow|(_ & _ & Hrow)]; rewrite Hrow in He'; injection He' as <-; [|done].
  split_and!; [done| |done]. exists (j ← job; jc_timeout j). destruct Hr as [Hdef0 _]. split.
  { unfold timeout_source in *. by rewrite <- Hdef0. }
  unfold reapable in Hreap. cbv zeta in Hreap |- *. apply andb_true_iff in Hreap as [Hage Hlease].
  split; [by b2p|]. intros Hl. rewrite Hl in Hlease. cbn [andb] in Hlease. by b2p.
Qed.

Lemma reap_all w0 now l : forall w w' out,
  rows_ok (tbl w0) -> Forall (fun ex => tb_execs (tbl w0) !! ex_id ex = Some ex) l ->
  reaped_from w0 w now ->
  collect (reap_one jobs (lease_renewals (w_app w0)) (lease_grace_secs (w_app w0)) now) l w = (w', out) ->
  reaped_from w0 w' now.
Proof.
  induction l as [|ex l IH]; intros w w' out Hok Hl Hr Hrun; [by injection Hrun as <- _|].
  apply Forall_cons in Hl as [Hex Hl].
  apply bind_eq in Hrun as (w1 & a & H1 & Hrun). apply bind_eq in Hrun as (w2 & b & H2 & [= <- _]).
  eapply IH; [done..| |exact H2]. by eapply reap_one_spec.
Qed.

End Reaper.

(** ** Examples *)

(** Two queued rows without a work item: the one whose job is known gets one,
    the other is cancelled. *)
Definition demo_stranded : World SqliteStore :=
  demo_world [demo_queued "a" "web:hook" 0 ∅; demo_queued "b" "gone:job" 0 ∅] [] [].
Abbreviation demo_reconcile :=
  (reconcile_stranded_queued {["web:hook" := demo_job "web:hook" false]} 0 demo_stranded).

Lemma demo_rows_ok rows work faults :
  Forall row_ok rows -> NoDup (map ex_id rows) -> rows_ok (tbl (demo_world rows work faults)).
Proof.
  intros Hrows Hnd id e He. cbn in He. apply elem_of_list_to_map_2, list_elem_of_fmap in He as (x & [= -> ->] & Hx).
  split; [done|]. by apply (proj1 (Forall_forall _ _) Hrows).
Qed.

Lemma reconcile_restores_queue_witness :
  let w' := demo_reconcile.1 in
  in_mem w' "a" /\ ex_state <$> tb_execs (tbl w') !! "b" = Some ECancelled.
Proof.
  destruct demo_reconcile as [w' out] eqn:Hrun.
  destruct (reconcile_restores_queue _ 0 demo_stranded w' out ltac:(reflexivity)
              ltac:(apply demo_rows_ok; [repeat constructor|by apply (bool_decide_unpack _)])
              ltac:(vm_compute; congruence) Hrun) as (_ & Hrow & _).
  split.
  - apply (Hrow "a" (demo_queued "a" "web:hook" 0 ∅)); [reflexivity..|]. right. left. vm_compute. congruence.
  - destruct (Hrow "b" (demo_queued "b" "gone:job" 0 ∅)) as [_ Hb]; [reflexivity..|].
    destruct Hb as [Hb _]; [by intros []%elem_of_nil| |]; [|cbn in *; by rewrite Hb].
    intros [Hd|[d Hd]]; vm_compute in Hd; congruence.
Defined.

(** A claim of a ten-minute job, forty minutes old, goes back to the queue. *)
Definition demo_stale : World SqliteStore :=
  demo_world [demo_claimed "a" "web:hook" "r1" 0 ∅] [] [].
Abbreviation demo_reap :=
  (sweep_stale_claims {["web:hook" := demo_job "web:hook" false]} 10 (seconds 2400) demo_stale).

