(* ===== verification/ExecutionApiFacts.v ===== *)
(** * What the requests about executions and dead letters guarantee

    A runner id answers to one credential; a cancel ends exactly one running or
    waiting execution; a replay turns a letter into one queued execution or
    changes nothing; a renewal extends one lease that is held; a batch of log
    events lands whole and in order. *)

From S2P Require Import Prelude RustStr Chrono RunnerTypes Queue Registry RunnerApi.
From S2P Require Import Durations Execution JobConfig Store StoreCalls Sqlite SqliteFacts Lifecycle Server.
From S2P Require Import Caller DemoServer Requeue Dispatch TriggerApi DispatchFacts Alerts Completion.
From S2P Require Import CompletionFacts TriggerApiFacts ExecutionApi.

Local Open Scope string_scope.
Local Open Scope Z_scope.

Section Facts.
  Context `{J : Json} `{E : Env} {St : Type} `{SL : StoreLaws St}.
  Implicit Types w : World St.

(** ** Nothing but the audit trail *)

Definition audit_only w w' : Prop :=
  (exists l, tbl w' = set_audit (tb_audit (tbl w) ++ l) (tbl w)) /\ w_app w' = w_app w.

Lemma audit_only_refl w : audit_only w w.
Proof. split; [|done]. exists []. rewrite app_nil_r. by destruct (tbl w). Qed.
#[local] Instance audit_only_preorder : PreOrder audit_only.
Proof.
  split; [exact audit_only_refl|]. intros a b c [[l1 H1] E1] [[l2 H2] E2].
  split; [|congruence]. exists (l1 ++ l2)%list. rewrite H2, H1. cbn. by rewrite app_assoc.
Qed.

Lemma same_tables_audit w w' : tbl w' = tbl w -> w_app w' = w_app w -> audit_only w w'.
Proof. intros Et Ea. split; [|done]. exists []. rewrite Et, app_nil_r. by destruct (tbl w). Qed.
Lemma audit_reads {A} (c : Call A) : reads c -> keeps audit_only (call c).
Proof. intros Hc w w' r Hrun. destruct (reads_call _ _ _ _ Hc Hrun) as (Et & Ea & _). by apply same_tables_audit. Qed.
Lemma audit_log_keeps ev : keeps audit_only (call (AuditLog ev)).
Proof.
  intros w w' r (Hrun & Ha & _)%call_eq. split; [|done]. unfold tbl.
  apply run_honours in Hrun. destruct r as [a|[x|x|x]]; cbn in Hrun.
  - by exists [ev].
  - exists []. destruct Hrun as [-> _]. rewrite app_nil_r. by destruct (tables (w_store w)).
  - exists []. destruct Hrun as [-> _]. rewrite app_nil_r. by destruct (tables (w_store w)).
  - exists []. destruct Hrun as [->|[]]. rewrite app_nil_r. by destruct (tables (w_store w)).
Qed.
Lemma audit_uuid : keeps audit_only new_uuid.
Proof. intros w w' a [= <- _]. by apply same_tables_audit. Qed.
Lemma audit_now : keeps audit_only utc_now.
Proof. intros w w' a [= <- _]. by apply same_tables_audit. Qed.
Lemma audit_get {A : Type} (g : AppState -> A) : keeps audit_only (get_app g).
Proof. intros w w' a [= <- _]. by apply same_tables_audit. Qed.
#[local] Hint Resolve audit_log_keeps audit_uuid audit_now audit_get : croniq.
Lemma record_event_audit aty aid act tty tid : keeps audit_only (record_event aty aid act tty tid).
Proof. unfold record_event. keeps_all. Qed.
Lemma record_audit ctx act tty tid diff : keeps audit_only (record ctx act tty tid diff).
Proof. unfold record. keeps_all. Qed.
#[local] Hint Resolve record_event_audit record_audit : croniq.
Lemma record_ran ctx act tty tid diff w w' u :
  record ctx act tty tid diff w = (w', u) -> ran (w_store w) (w_store w').
Proof.
  unfold record. intros (w1 & id & [= <- <-] & Hrun)%bind_eq.
  apply bind_eq in Hrun as (w2 & now & [= <- <-] & Hrun).
  apply bind_eq in Hrun as (w3 & r & Hc%ran_call & [= <- _]). exact Hc.
Qed.

Lemma reads_execution id : reads (GetExecution id).
Proof. apply quiet_reads; [by intros ? ? ? [? _]|by intros ? ? [?|[]]]. Qed.
Lemma reads_letter id : reads (GetDeadLetter id).
Proof. apply quiet_reads; [by intros ? ? ? [? _]|by intros ? ? [?|[]]]. Qed.

(** ** Runner identities *)

(** The credential a runner id is bound to. *)
Definition owner_of w (rid : string) : option string := ri_owner_id <$> tb_identities (tbl w) !! rid.

Lemma bound_same rid owner now t row : tb_identities t !! rid = Some row -> bound rid owner now t = t.
Proof. intros H. by rewrite bound_alt, H. Qed.

Lemma bind_foreign rid owner caller now w w' r :
  owner_of w rid = Some owner -> call (BindRunner rid caller now) w = (w', r) ->
  tbl w' = tbl w /\ w_app w' = w_app w /\ forall a, r = Ok a -> a = owner.
Proof.
  intros Ho (Hrun & Ha & _)%call_eq. unfold owner_of in Ho.
  destruct (tb_identities (tbl w) !! rid) as [row|] eqn:Er; [|done]. injection Ho as Ho.
  apply run_honours in Hrun. fold (tbl w) (tbl w') in Hrun. destruct r as [a|[x|x|x]]; cbn in Hrun.
  - destruct Hrun as [-> ->]. rewrite (bound_same _ _ _ _ _ Er), Er. cbn.
    split_and!; [done..|]. by intros a [= <-].
  - by destruct Hrun.
  - by destruct Hrun.
  - split_and!; [|done|done]. destruct Hrun as [->| ->]; [done|]. by eapply bound_same.
Qed.

Section Identity.
  Context (dsl_jobs : option (list JobConfig)).

(** A caller that does not own the runner id is refused. *)
Lemma foreign_refused ctx rid owner w w' r :
  owner_of w rid = Some owner -> owner <> cc_client_id ctx ->
  authorize_runner true true ctx rid w = (w', r) ->
  audit_only w w' /\ exists status, r = Err status /\ (status = HTTP_FORBIDDEN \/ status = HTTP_UNAVAILABLE).
Proof.
  intros Ho Hne. unfold authorize_runner. cbn [enforced andb negb].
  intros (w1 & now & [= <- <-] & (w2 & b & Hb & Hrun)%bind_eq)%bind_eq.
  apply (bind_foreign _ owner) in Hb as (Et & Ea & Hb); [|exact Ho].
  assert (audit_only w w2) as H2 by (by apply same_tables_audit).
  destruct b as [a|err]; [|injection Hrun as <- <-; split; [done|]; eexists; split; [done|by right]].
  rewrite (Hb a eq_refl) in Hrun. rewrite (proj2 (String.eqb_neq _ _) Hne) in Hrun.
  apply bind_eq in Hrun as (w3 & u & Hev%record_event_audit & [= <- <-]).
  split; [by transitivity w2|]. eexists. split; [done|by left].
Qed.

Lemma foreign_guard ctx scope rid owner w w' o :
  owner_of w rid = Some owner -> owner <> cc_client_id ctx ->
  work_guard true true ctx scope rid w = (w', o) ->
  audit_only w w' /\ exists status, o = Some status /\ (status = HTTP_FORBIDDEN \/ status = HTTP_UNAVAILABLE).
Proof.
  intros Ho Hne. unfold work_guard, require_scope. destruct (has_scope ctx scope).
  - intros (w1 & r & (H1 & status & -> & Hs)%(foreign_refused _ _ owner) & [= <- <-])%bind_eq; [|done..].
    split; [done|]. by exists status.
  - intros [= <- <-]. split; [apply audit_only_refl|]. eexists. split; [done|by left].
Qed.

(** C28. With identity binding on, a runner id answers to one credential. Once an
    id is bound, a poll,
    completion, renewal or log event another credential makes under it (the
    event through an execution that runner holds) is refused with 403, or 503
    when the binding cannot be read, whatever its scopes; it gets no work, no
    cancels, and changes nothing but the audit trail: no takeover, no
    completion, no lease, no log line. *)
Theorem foreign_credential_is_fenced ctx rid owner w :
  owner_of w rid = Some owner -> owner <> cc_client_id ctx ->
  let refused status := status = HTTP_FORBIDDEN \/ status = HTTP_UNAVAILABLE in
  (forall m order wakes req w' status resp spawned, pr_runner_id req = rid ->
     poll_request true dsl_jobs true ctx m order wakes req w = (w', (status, resp, spawned)) ->
     audit_only w w' /\ refused status /\ resp = empty_response /\ spawned = [])
  /\ (forall closed req w' status ok fwd, ce_runner_id req = rid ->
        complete_request true true ctx closed req w = (w', (status, ok, fwd)) ->
        audit_only w w' /\ refused status /\ ok = false /\ fwd = None)
  /\ (forall eid w' status ok, handle_renew true true ctx rid eid w = (w', (status, ok)) ->
        audit_only w w' /\ refused status /\ ok = false)
  /\ (forall id eid e events w' r, parse_uuid id = Some eid -> tb_execs (tbl w) !! eid = Some e ->
        ex_runner_id e = Some rid -> handle_events true true ctx id events w = (w', r) ->
        audit_only w w' /\ exists status, r = Err status /\ refused status).
Proof.
  intros Ho Hne refused. split_and!.
  - intros m order wakes req w' status resp spawned <- Hrun. unfold poll_request in Hrun.
    apply bind_eq in Hrun as (w1 & o & (H1 & st & -> & Hs)%(foreign_guard _ _ _ owner) & Hrun); [|done..].
    by injection Hrun as <- <- <- <-.
  - intros closed req w' status ok fwd <- Hrun. unfold complete_request in Hrun.
    apply bind_eq in Hrun as (w1 & o & (H1 & st & -> & Hs)%(foreign_guard _ _ _ owner) & Hrun); [|done..].
    by injection Hrun as <- <- <- <-.
  - intros eid w' status ok Hrun. unfold handle_renew in Hrun.
    apply bind_eq in Hrun as (w1 & o & (H1 & st & -> & Hs)%(foreign_guard _ _ _ owner) & Hrun); [|done..].
    by injection Hrun as <- <- <-.
  - intros id eid e events w' r Hid He Hr. unfold handle_events, require_scope.
    destruct (has_scope ctx _).
    2: { intros [= <- <-]. split; [apply audit_only_refl|]. eexists. split; [done|by left]. }
    cbn [negb]. rewrite Hid. intros (w1 & a & Hauth & Hrun)%bind_eq.
    unfold authorize_execution in Hauth. cbn [enforced andb negb] in Hauth.
    apply bind_eq in Hauth as (w2 & g & Hg & Hauth).
    apply reads_call in Hg as (Et & Ea & Hh); [|apply reads_execution].
    assert (audit_only w w2) as H2 by (by apply same_tables_audit).
    destruct g as [x|err].
    + destruct Hh as [_ Hx]. rewrite He in Hx. rewrite Hx, Hr in Hauth.
      apply (foreign_refused _ _ owner) in Hauth as (H1 & st & -> & Hs); [|by unfold owner_of in *; rewrite Et|done].
      injection Hrun as <- <-. split; [by transitivity w2|]. by exists st.
    + injection Hauth as <- <-. injection Hrun as <- <-. split; [done|]. eexists. split; [done|by right].
Qed.
End Identity.

(** ** Cancel *)

Lemma cancel_call id now e w w' r :
  tb_execs (tbl w) !! id = Some e -> in_flight e = true -> call (CancelExecution id now) w = (w', r) ->
  w_app w' = w_app w
  /\ match r with
     | Ok _ => tbl w' = set_execs (<[id := cancelled_row now e]> (tb_execs (tbl w))) (tbl w)
     | Err _ => tbl w' = tbl w
     end.
Proof.
  intros He Hf (Hrun & Ha & _)%call_eq. split; [done|]. unfold tbl in *.
  apply run_honours in Hrun. destruct r as [a|[x|x|x]]; cbn in Hrun.
  - destruct Hrun as (m & hit & Hs & ->). unfold swapped in Hs. rewrite He, Hf in Hs.
    by destruct Hs as [_ ->].
  - by destruct Hrun.
  - by destruct Hrun.
  - by destruct Hrun as [->|[]].
Qed.

(** The row a cancel leaves: a queued or claimed one cancelled, a cancelled one
    as it was. *)
Definition cancel_leaves (e : Execution) (now : instant) (e' : Execution) : Prop :=
  match ex_state e with
  | EQueued | EClaimed => e' = cancelled_row now e
  | _ => e' = e
  end.
(** The runner is told of a claimed execution, and of no other. *)
Definition cancel_tells (id : string) (e : Execution) (a : AppState) : AppState :=
  match ex_state e, ex_runner_id e with
  | EClaimed, Some rid => push_cancel a rid id
  | _, _ => a
  end.

Definition same_but_audit (t t' : Tables) : Prop := exists l, t' = set_audit (tb_audit t ++ l) t.
Lemma audit_only_alt w w' : audit_only w w' <-> same_but_audit (tbl w) (tbl w') /\ w_app w' = w_app w.
Proof. done. Qed.

Lemma cancel_by_state_spec id e now w w' r :
  tb_execs (tbl w) !! id = Some e -> cancel_by_state id e now w = (w', r) ->
  match r with
  | Ok delivered =>
      in_states [EQueued; EClaimed; ECancelled] e = true
      /\ delivered = has_state EClaimed e
      /\ (exists e', cancel_leaves e now e'
            /\ tbl w' = set_execs (<[id := e']> (tb_execs (tbl w))) (tbl w))
      /\ w_app w' = cancel_tells id e (w_app w)
  | Err status =>
      tbl w' = tbl w
      /\ (status = HTTP_CONFLICT /\ in_states [ECompleted; EFailed; EDead] e = true /\ w_app w' = w_app w
          \/ status = HTTP_INTERNAL_SERVER_ERROR /\ in_states [EQueued; EClaimed] e = true
             /\ w_app w' = cancel_tells id e (w_app w))
  end.
Proof.
  intros He. unfold cancel_by_state, cancel_leaves, cancel_tells, in_states, has_state.
  destruct (ex_state e) eqn:Es.
  - intros (w1 & a & Hc & Hr)%bind_eq.
    apply (cancel_call _ _ e) in Hc as [Ha Hc]; [|done|by unfold in_flight, in_states, has_state; cbn; rewrite Es].
    destruct a; injection Hr as <- <-; split_and!; try done; eauto.
  - destruct (ex_runner_id e) as [rid|] eqn:Er.
    + intros (w0 & u & [= <- <-] & (w1 & a & Hc & Hr)%bind_eq)%bind_eq.
      apply (cancel_call _ _ e) in Hc as [Ha Hc];
        [|done|unfold in_flight, in_states, has_state; cbn; by rewrite Es].
      cbn [w_app set_app] in Ha. destruct a; injection Hr as <- <-; split_and!; try done; eauto.
    + intros [= <- <-]. split; [done|]. right. done.
  - intros [= <- <-]. split; [done|]. by left.
  - intros [= <- <-]. split; [done|]. by left.
  - intros [= <- <-]. split; [done|]. by left.
  - intros [= <- <-]. split_and!; try done. exists e. split; [done|].
    rewrite insert_id by done. by destruct (tbl w).
Qed.

(** A cancel ends exactly one execution. When it answers, the row existed
    and had not ended otherwise: a queued or claimed row is now cancelled with
    the time of the request, one already cancelled is untouched, and no other
    row, letter, log or queue entry changed; a claimed execution's id is on its
    runner's cancel list, so the next poll delivers it, and the answer says so.
    An execution that ended keeps its outcome (409, nothing changed). A failed
    store write changes no row, although a claimed execution's runner has been
    told to stop by then. *)
Theorem cancel_is_exact ctx id w w' r :
  handle_cancel true ctx id w = (w', r) ->
  match r with
  | Ok resp =>
      exists e e' now, tb_execs (tbl w) !! cr_execution_id resp = Some e
        /\ parse_uuid id = Some (cr_execution_id resp)
        /\ has_scope ctx Scope.EXECUTIONS_CANCEL = true
        /\ in_states [EQueued; EClaimed; ECancelled] e = true
        /\ cancel_leaves e now e' /\ ex_state e' = ECancelled
        /\ same_but_audit (set_execs (<[cr_execution_id resp := e']> (tb_execs (tbl w))) (tbl w)) (tbl w')
        /\ w_app w' = cancel_tells (cr_execution_id resp) e (w_app w)
        /\ cr_delivered_via_runner resp = has_state EClaimed e
  | Err status =>
      tbl w' = tbl w
      /\ (w_app w' = w_app w
          \/ status = HTTP_INTERNAL_SERVER_ERROR
             /\ exists uid e, tb_execs (tbl w) !! uid = Some e /\ has_state EClaimed e = true
                  /\ w_app w' = cancel_tells uid e (w_app w))
  end.
Proof.
  unfold handle_cancel, require_scope. destruct (has_scope ctx _) eqn:Hscope; [|by intros [= <- <-]; auto].
  cbn [negb]. destruct (parse_uuid id) as [uid|]; [|by intros [= <- <-]; auto].
  intros (w1 & found & Hg & Hrun)%bind_eq.
  apply reads_call in Hg as (Et & Ea & Hh); [|apply reads_execution].
  destruct found as [[e|]|err]; [|by injection Hrun as <- <-; auto..].
  destruct Hh as [_ He]. symmetry in He. rewrite <- Et in He.
  apply bind_eq in Hrun as (w2 & now & [= <- <-] & Hrun).
  apply bind_eq in Hrun as (w3 & c & Hc & Hrun).
  apply cancel_by_state_spec in Hc; [|exact He].
  change (tbl (MkWorld _ _ _ _ _)) with (tbl w1) in Hc. cbn [w_app] in Hc. rewrite Et, Ea in Hc.
  destruct c as [delivered|status].
  - destruct Hc as (Hst & Hd & (e' & Hl & Et3) & Ha3).
    apply bind_eq in Hrun as (w4 & u & Hrec & [= <- <-]).
    assert (audit_only w3 w4) as [[l Haud] Ha4].
    { destruct (has_state ECancelled e); [injection Hrec as <- _; apply audit_only_refl|by eapply record_audit]. }
    exists e, e', (clock (w_clock w1)). rewrite Et in He. cbn [cr_execution_id cr_delivered_via_runner].
    split_and!; try done; [|exists l; by rewrite Haud, Et3|congruence].
    unfold cancel_leaves in Hl. unfold in_states, has_state in Hst. destruct (ex_state e) eqn:Es; try done; by rewrite Hl.
  - injection Hrun as <- <-. destruct Hc as [Et3 Hc]. split; [done|].
    destruct Hc as [(_ & _ & ->)|(-> & Hin & Ha3)]; [by left|].
    unfold in_states, has_state in Hin. destruct (ex_state e) eqn:Es; try done.
    + left. rewrite Ha3. unfold cancel_tells. by rewrite Es.
    + right. split; [done|]. exists uid, e. split_and!; [by rewrite <- Et|unfold has_state; by rewrite Es|done].
Qed.

(** ** Replay *)

(** The job declares a limit on a letter's age, and the letter is past it; a
    limit chrono cannot hold counts as the largest it can. *)
Definition too_old (job : option JobConfig) (scheduled now : instant) : Prop :=
  exists j text max_age, job = Some j /\ dlc_replay_max_age (jc_dead_letter j) = Some text
    /\ parse_duration text = Some max_age
    /\ Z.min max_age (I64_MAX * NS_MS) < now - scheduled.

Lemma replay_limit_min d : replay_limit d = Z.min d (I64_MAX * NS_MS).
Proof. unfold replay_limit, chrono_from_std. destruct (Z.leb_spec d (I64_MAX * NS_MS)); cbn; lia. Qed.

Lemma stale_replay_spec job scheduled now force :
  match stale_replay_check job scheduled now force with
  | None => force = true \/ ~ too_old job scheduled now
  | Some err => force = false /\ too_old job scheduled now /\ re_scheduled_for err = scheduled
                /\ re_age_seconds err = Z.quot (now - scheduled) NS_SEC
  end.
Proof.
  unfold stale_replay_check, too_old. destruct force; [by left|].
  destruct job as [j|]; cbn; [|right; by intros (? & ? & ? & ? & _)].
  destruct (dlc_replay_max_age (jc_dead_letter j)) as [text|] eqn:Et; cbn;
    [|right; intros (? & ? & ? & [= <-] & ? & _); congruence].
  destruct (parse_duration text) as [d|] eqn:Ed; cbn;
    [|right; intros (? & ? & ? & [= <-] & ? & ? & _); congruence].
  rewrite replay_limit_min. destruct (Z.leb_spec (now - scheduled) (Z.min d (I64_MAX * NS_MS))) as [Hle|Hlt].
  - right. intros (? & ? & ? & [= <-] & H1 & H2 & H3). rewrite Et in H1. injection H1 as <-.
    rewrite Ed in H2. injection H2 as <-. lia.
  - split_and!; [done| |done|done]. by exists j, text, d.
Qed.

Lemma replay_call id ex w w' r :
  call (ReplayDeadLetter id ex) w = (w', r) ->
  w_app w' = w_app w
  /\ match r with
     | Ok _ => is_Some (tb_dead (tbl w) !! id) /\ tb_execs (tbl w) !! ex_id ex = None
               /\ tbl w' = set_execs (<[ex_id ex := ex]> (tb_execs (tbl w)))
                             (set_dead (delete id (tb_dead (tbl w))) (tbl w))
     | Err _ => tbl w' = tbl w
     end.
Proof.
  intros (Hrun & Ha & _)%call_eq. split; [done|]. unfold tbl in *.
  apply run_honours in Hrun. destruct r as [a|[x|x|x]]; cbn in Hrun.
  - destruct Hrun as (Hd & m & [Hf ->] & ->). done.
  - by destruct Hrun.
  - by destruct Hrun.
  - by destruct Hrun as [->|[]].
Qed.

Lemma enqueue_item_spec item w w' ok :
  enqueue_item item w = (w', ok) ->
  w_store w' = w_store w /\ tbl w' = tbl w
  /\ w_app w' = set_queue (enqueue (queue (w_app w)) item).1 (w_app w).
Proof.
  unfold enqueue_item, update_app. destruct (enqueue (queue (w_app w)) item) as [q b]. by intros [= <- _].
Qed.

(** The row of a replay: the letter's job, logical fire time and metadata (marked
    as a replay), due now, as the next attempt. *)
Definition replay_row (dl : DeadLetter) (new : string) (now : instant) (row : Execution) : Prop :=
  ex_id row = new /\ ex_job_key row = dl_job_key dl /\ ex_scheduled_for row = dl_scheduled_for dl
  /\ ex_fire_at row = now /\ ex_created_at row = now /\ ex_attempt row = wrap_u32 (dl_attempt dl + 1)
  /\ ex_state row = EQueued /\ ex_runner_id row = None /\ ex_idempotency_key row = None
  /\ ex_metadata row !! REQUESTED_METADATA_KEY = Some REQUESTED_BY_REPLAY
  /\ (forall k, k <> REQUESTED_METADATA_KEY -> ex_metadata row !! k = dl_metadata dl !! k).

(** Its work item: the letter's metadata, the labels recorded there or else the
    job's. *)
Definition replay_work (dl : DeadLetter) (job : option JobConfig) (row : Execution) (item : WorkItem) : Prop :=
  execution_id item = ex_id row /\ wi_job_key item = ex_job_key row /\ fire_at item = ex_fire_at row
  /\ scheduled_for item = ex_scheduled_for row /\ attempt item = ex_attempt row
  /\ metadata item = of_map (dl_metadata dl) /\ is_ephemeral item = false
  /\ require item = default [] (option_or (dl_metadata dl !! REQUIRE_METADATA_KEY ≫= parse_json_strings)
                                  ((fun j => rc_require (jc_runner j)) <$> job))
  /\ prefer item = default [] (option_or (dl_metadata dl !! PREFER_METADATA_KEY ≫= parse_json_strings)
                                 ((fun j => rc_prefer (jc_runner j)) <$> job)).

Lemma replay_execution_row dl new now : replay_row dl new now (replay_execution new dl now).
Proof.
  split_and!; try done; cbn; unfold mark_requested; [apply lookup_insert_eq|].
  intros k Hk. by rewrite lookup_insert_ne.
Qed.
Lemma replay_item_work dl job new now :
  replay_work dl job (replay_execution new dl now) (replay_item new dl job now).
Proof. by split_and!. Qed.

(** What a replay makes of a letter. *)
Definition replayed (dsl_jobs : option (list JobConfig)) (force : bool) (uid : string)
    (resp : ReplayResponse) w w' : Prop :=
  exists dl job now row item,
    let new := rr_execution_id resp in
    tb_dead (tbl w) !! uid = Some dl
    /\ known_job dsl_jobs (dl_job_key dl) job w w'
    /\ (force = true \/ ~ too_old job (dl_scheduled_for dl) now)
    /\ tb_execs (tbl w) !! new = None
    /\ same_but_audit (set_execs (<[new := row]> (tb_execs (tbl w))) (set_dead (delete uid (tb_dead (tbl w))) (tbl w))) (tbl w')
    /\ w_app w' = set_queue (enqueue (queue (w_app w)) item).1 (w_app w)
    /\ replay_row dl new now row /\ replay_work dl job row item
    /\ rr_scheduled_for resp = dl_scheduled_for dl /\ rr_attempt resp = ex_attempt row.


(** ** Renewal *)

(** Requests that bind a runner id leave the work tables and the runner state. *)
Definition bookkeeping w w' : Prop :=
  tb_execs (tbl w') = tb_execs (tbl w) /\ tb_dead (tbl w') = tb_dead (tbl w)
  /\ tb_logs (tbl w') = tb_logs (tbl w) /\ w_app w' = w_app w.
#[local] Instance bookkeeping_preorder : PreOrder bookkeeping.
Proof.
  split; [done|]. intros a b c (? & ? & ? & ?) (? & ? & ? & ?). split_and!; congruence.
Qed.
Lemma audit_bookkeeping {A} (m : M St A) : keeps audit_only m -> keeps bookkeeping m.
Proof. intros Hm w w' a Hrun. destruct (Hm _ _ _ Hrun) as [[l Et] Ea]. unfold bookkeeping. by rewrite Et. Qed.
Lemma bind_bookkeeping rid caller now : keeps bookkeeping (call (BindRunner rid caller now)).
Proof.
  intros w w' r (Hrun & Ha & _)%call_eq. unfold bookkeeping, tbl.
  apply run_honours in Hrun. destruct r as [a|[x|x|x]]; cbn in Hrun.
  - by destruct Hrun as [_ ->].
  - by destruct Hrun as [-> _].
  - by destruct Hrun as [-> _].
  - by destruct Hrun as [->| ->].
Qed.
#[local] Hint Resolve bind_bookkeeping : croniq.
#[local] Hint Extern 3 (keeps bookkeeping _) => apply audit_bookkeeping; solve [auto with croniq] : croniq.
#[local] Hint Resolve audit_reads reads_execution : croniq.

Lemma authorize_bookkeeping has_store binding ctx rid :
  keeps bookkeeping (authorize_runner has_store binding ctx rid).
Proof. unfold authorize_runner. keeps_all. Qed.
#[local] Hint Resolve authorize_bookkeeping : croniq.
Lemma authorize_execution_bookkeeping has_store binding ctx id :
  keeps bookkeeping (authorize_execution has_store binding ctx id).
Proof. unfold authorize_execution. keeps_all. Qed.
Lemma guard_bookkeeping has_store binding ctx scope rid :
  keeps bookkeeping (work_guard has_store binding ctx scope rid).
Proof. unfold work_guard. keeps_all. Qed.

(** The runner holds the execution: a claimed row of its own, or one that runs
    without a row. *)
Definition holds_lease (rid eid : string) w : Prop :=
  exists uid, parse_uuid eid = Some uid /\
    match tb_execs (tbl w) !! uid with
    | Some e => has_state EClaimed e = true /\ ex_runner_id e = Some rid
    | None => is_Some (ephemeral_inflight (w_app w) !! eid)
    end.

Lemma renew_refused_spec rid eid w w' o :
  renew_refused true rid eid w = (w', o) ->
  tbl w' = tbl w /\ w_app w' = w_app w /\ (o = None -> holds_lease rid eid w)
  /\ (holds_lease rid eid w -> o = None \/ o = Some HTTP_UNAVAILABLE).
Proof.
  unfold renew_refused, holds_lease. cbn [negb]. destruct (parse_uuid eid) as [uid|].
  2: { intros [= <- <-]. split_and!; try done. by intros (? & ? & _). }
  intros (w1 & r & Hg & Hrun)%bind_eq.
  apply reads_call in Hg as (Et & Ea & Hh); [|apply reads_execution].
  destruct r as [[e|]|err].
  - destruct Hh as [_ He]. injection Hrun as <- <-. split_and!; [done..| |].
    + destruct (has_state EClaimed e) eqn:Hs; [|done]. case_bool_decide as Hr; [|done]. intros _.
      exists uid. split; [done|]. by rewrite <- He.
    + intros (u & [= <-] & Hl). rewrite <- He in Hl. destruct Hl as [-> Hr].
      rewrite bool_decide_true by done. by left.
  - destruct Hh as [_ He]. apply bind_eq in Hrun as (w2 & b & [= <- <-] & [= <- <-]).
    split_and!; [done..| |].
    + case_bool_decide as Hi; [|done]. intros _. exists uid. rewrite <- He. by rewrite <- Ea.
    + intros (u & [= <-] & Hl). rewrite <- He, <- Ea in Hl. rewrite bool_decide_true by done. by left.
  - injection Hrun as <- <-. split_and!; [done..|]. by right.
Qed.

(** A renewal extends one lease that is held. It succeeds only when the
    runner holds the named execution (a claimed row of its own, or one that runs
    without a row); then that execution's lease carries the time of the request,
    every other lease is as it was or, past its grace, dropped, and of the
    registry only the runner's own heartbeat moved. A refused renewal leaves the
    runner state as it was, and no renewal touches a row, a letter or a log. *)
Theorem renewal_extends_its_own_lease binding ctx rid eid w w' status ok :
  handle_renew true binding ctx rid eid w = (w', (status, ok)) ->
  tb_execs (tbl w') = tb_execs (tbl w) /\ tb_dead (tbl w') = tb_dead (tbl w)
  /\ tb_logs (tbl w') = tb_logs (tbl w)
  /\ if ok then
       status = HTTP_OK /\ holds_lease rid eid w
       /\ exists now,
         (forall id, lease_renewals (w_app w') !! id
            = if bool_decide (id = eid) then Some {| lr_runner_id := rid; renewed_at := now |}
              else match lease_renewals (w_app w) !! id with
                   | Some l => if now - renewed_at l <? seconds (wrap_i64 (lease_grace_secs (w_app w)))
                               then Some l else None
                   | None => None
                   end)
         /\ runners (registry (w_app w')) = alter (set_last_poll now) rid (runners (registry (w_app w)))
         /\ queue (w_app w') = queue (w_app w) /\ cancel_queues (w_app w') = cancel_queues (w_app w)
     else w_app w' = w_app w.
Proof.
  unfold handle_renew. intros (w1 & guard & (H1 & H2 & H3 & H4)%guard_bookkeeping & Hrun)%bind_eq.
  destruct guard as [st|]; [by injection Hrun as <- <- <-|].
  apply bind_eq in Hrun as (w2 & now & [= <- <-] & Hrun).
  apply bind_eq in Hrun as (w3 & o & (Et & Ea & Hno & _)%renew_refused_spec & Hrun).
  change (tbl (MkWorld _ _ _ _ _)) with (tbl w1) in Et. cbn [w_app] in Ea.
  destruct o as [st|].
  { injection Hrun as <- <- <-. rewrite Et. split_and!; congruence. }
  apply bind_eq in Hrun as (w4 & u & [= <- <-] & Hrun).
  apply bind_eq in Hrun as (w5 & v & [= <- <-] & [= <- <- <-]).
  change (tbl (set_app _ _)) with (tbl w3). rewrite Et. refine (conj H1 (conj H2 (conj H3 (conj eq_refl _)))).
  unfold holds_lease in *. specialize (Hno eq_refl).
  change (tbl (MkWorld _ _ _ _ _)) with (tbl w1) in Hno. cbn [w_app] in Hno. rewrite H1, H4 in Hno.
  split; [exact Hno|]. exists (clock (w_clock w1)). cbn [w_app set_app bump_heartbeat].
  rewrite Ea, H4. cbn [set_registry set_runners lease_renewals registry runners queue cancel_queues].
  split_and!; [|done..]. intros id.
  destruct (leases_are_per_execution (w_app w) rid [eid] (clock (w_clock w1)) id) as [Hl _]; [done|].
  rewrite (bool_decide_ext (id ∈ [eid]) (id = eid)) in Hl by set_solver. exact Hl.
Qed.

(** ** Log events *)

(** The entries of one request: a line per event, in order, under consecutive
    numbers. *)
Definition event_line (eid : string) (now : instant) (event : WorkEvent) (le : ExecutionLogEntry) : Prop :=
  le_execution_id le = eid /\ le_timestamp le = now /\ le_level le = default "info" (we_level event)
  /\ le_message le = we_message event /\ le_fields le = we_fields event.

Lemma event_entries_spec eid now events : forall w w' entries,
  event_entries eid now events w = (w', entries) ->
  tbl w' = tbl w /\ w_app w' = w_app w /\ Forall2 (event_line eid now) events entries.
Proof.
  induction events as [|ev events IH]; intros w w' entries; [by intros [= <- <-]|].
  cbn [event_entries]. intros (w1 & id & [= <- <-] & (w2 & rest & Hrest & [= <- <-])%bind_eq)%bind_eq.
  destruct (IH _ _ _ Hrest) as (Et & Ea & Hl). split_and!; [done..|]. by constructor.
Qed.

Lemma next_seq_app logs le :
  next_seq (logs ++ [le]) (le_execution_id le) = Z.max (next_seq logs (le_execution_id le)) (le_seq le + 1).
Proof. unfold next_seq. rewrite fold_left_app. cbn. by rewrite String.eqb_refl. Qed.

Lemma append_consecutive eid entries : forall logs,
  Forall (fun le => le_execution_id le = eid) entries ->
  fold_left append_entry entries logs
  = (logs ++ imap (fun i le => with_seq (next_seq logs eid + Z.of_nat i) le) entries)%list.
Proof.
  induction entries as [|le entries IH]; intros logs Hall; [by rewrite app_nil_r|].
  apply Forall_cons in Hall as [He Hall]. cbn [fold_left imap]. rewrite IH by done.
  unfold append_entry. rewrite He. set (le' := with_seq (next_seq logs eid) le).
  assert (next_seq (logs ++ [le']) eid = next_seq logs eid + 1) as Hn.
  { pose proof (next_seq_app logs le') as H. unfold le' in H at 2. cbn [le_execution_id with_seq le_seq] in H.
    change (le_execution_id le') with (le_execution_id le) in H. rewrite He in H. rewrite H.
    change (le_seq le') with (next_seq logs eid). lia. }
  rewrite Hn, <- app_assoc. cbn [app]. rewrite Z.add_0_r. f_equal. f_equal.
  apply imap_ext. intros i x _. unfold compose. f_equal. lia.
Qed.

(** A batch of events lands whole or not at all. *)
Lemma events_land_together binding ctx id events w w' r :
  handle_events true binding ctx id events w = (w', r) ->
  tb_execs (tbl w') = tb_execs (tbl w) /\ w_app w' = w_app w
  /\ match r with
     | Ok n => n = length events /\ exists eid now entries, parse_uuid id = Some eid
         /\ Forall2 (event_line eid now) events entries
         /\ tb_logs (tbl w') = (tb_logs (tbl w)
              ++ imap (fun i le => with_seq (next_seq (tb_logs (tbl w)) eid + Z.of_nat i) le) entries)%list
     | Err _ => tb_logs (tbl w') = tb_logs (tbl w)
     end.
Proof.
  unfold handle_events, require_scope. destruct (has_scope ctx _); [|by intros [= <- <-]].
  cbn [negb]. destruct (parse_uuid id) as [eid|]; [|by intros [= <- <-]].
  intros (w1 & a & (H1 & H2 & H3 & H4)%authorize_execution_bookkeeping & Hrun)%bind_eq.
  destruct a as [[]|st]; [|by injection Hrun as <- <-].
  apply bind_eq in Hrun as (w2 & now & [= <- <-] & Hrun).
  apply bind_eq in Hrun as (w3 & entries & (Et & Ea & Hl)%event_entries_spec & Hrun).
  change (tbl (MkWorld _ _ _ _ _)) with (tbl w1) in Et. cbn [w_app] in Ea.
  apply bind_eq in Hrun as (w4 & b & (Hrun' & Ha & _)%call_eq & [= <- <-]).
  apply run_honours in Hrun'. fold (tbl w3) (tbl w4) in Hrun'. rewrite Et in Hrun'.
  destruct b as [[]|[x|x|x]]; cbn in Hrun'.
  - rewrite Hrun'. cbn [tb_execs set_logs tb_logs]. split_and!; [done|congruence|symmetry; by eapply Forall2_length|].
    exists eid, (clock (w_clock w1)), entries. split_and!; [done..|]. rewrite H3. apply append_consecutive.
    eapply Forall2_Forall_r; [exact Hl|]. apply Forall_forall. intros ev _ le (He & _). done.
  - destruct Hrun' as [-> _]. split_and!; congruence.
  - destruct Hrun' as [-> _]. split_and!; congruence.
  - destruct Hrun' as [->|[]]. split_and!; congruence.
Qed.
End Facts.

(** ** Examples *)

(** One execution claimed by [r1], one queued, a dead letter of a job that is
    gone, and the runner id bound to the credential that polled first. *)
Definition demo_letter : DeadLetter := {|
  dl_id := "d"; dl_execution_id := "old"; dl_job_key := "etl:load"; dl_fire_at := 5; dl_scheduled_for := 4;
  dl_attempt := 3; dl_error := "boom"; dl_dead_reason := "retries exhausted";
  dl_metadata := {["team" := "data"]}; dl_created_at := 6; dl_expires_at := None |}.
Definition demo_api_world : World SqliteStore :=
  let w := demo_world [demo_claimed "a" "web:hook" "r1" 0 ∅; demo_queued "b" "web:hook" 0 ∅] [] [] in
  set_store (MkSqlite (set_identities {["r1" := {| ri_owner_id := "client-a"; ri_bound_at := 0 |}]}
                         (set_dead {["d" := demo_letter]} (tables (w_store w)))) []) w.
Definition demo_caller (client : string) (scopes : list string) : CallerContext :=
  MkCaller CallerApiKey ("key-" ++ client) client None None AmApiKey scopes None.

Lemma foreign_credential_is_fenced_witness :
  let w := demo_api_world in
  let w' := (handle_renew true true (demo_caller "client-b" ["admin"]) "r1" "a" w).1 in
  (handle_renew true true (demo_caller "client-b" ["admin"]) "r1" "a" w).2 = (HTTP_FORBIDDEN, false)
  /\ audit_only w w' /\ map ae_action (tb_audit (tbl w')) = ["runner.identity_rejected"].
Proof.
  cbv zeta. assert ((handle_renew true true (demo_caller "client-b" ["admin"]) "r1" "a" demo_api_world).2
    = (HTTP_FORBIDDEN, false)) as Hr by (vm_compute; reflexivity).
  split; [exact Hr|].
  destruct (foreign_credential_is_fenced None (demo_caller "client-b" ["admin"]) "r1" "client-a" demo_api_world)
    as (_ & _ & H & _); [vm_compute; reflexivity|discriminate|].
  destruct (handle_renew true true _ "r1" "a" demo_api_world) as [w' [status ok]] eqn:Hrun.
  split; [exact (proj1 (H _ _ _ _ Hrun))|]. change w' with ((w', (status, ok)).1). rewrite <- Hrun.
  vm_compute. reflexivity.
Defined.

Lemma cancel_is_exact_witness :
  exists resp e now,
    (handle_cancel true (demo_caller "ops" ["executions:cancel"]) "a" demo_api_world).2 = Ok resp
    /\ cr_delivered_via_runner resp = true
    /\ tb_execs (tbl demo_api_world) !! "a" = Some e
    /\ tb_execs (tbl (handle_cancel true (demo_caller "ops" ["executions:cancel"]) "a" demo_api_world).1) !! "a"
       = Some (cancelled_row now e).
Proof.
  destruct (handle_cancel true (demo_caller "ops" ["executions:cancel"]) "a" demo_api_world) as [w' r] eqn:Hrun.
  assert (r = Ok {| cr_execution_id := "a"; cr_cancelled := true; cr_delivered_via_runner := true |}) as ->
    by (change r with ((w', r).2); rewrite <- Hrun; vm_compute; reflexivity).
  destruct (cancel_is_exact _ _ _ _ _ Hrun) as (e & e' & now & He & _ & _ & _ & Hl & _ & [l Hsame] & _ & _).
  cbn [cr_execution_id] in *. exists {| cr_execution_id := "a"; cr_cancelled := true; cr_delivered_via_runner := true |}, e, now.
  split; [reflexivity|]. split; [reflexivity|]. split; [exact He|]. cbn [fst].
  assert (ex_state e = EClaimed) as Hs by (vm_compute in He; injection He as <-; reflexivity).
  unfold cancel_leaves in Hl. rewrite Hs in Hl. rewrite Hsame. cbn [tb_execs set_audit set_execs].
  rewrite Hl. apply lookup_insert_eq.
Defined.


Lemma renewal_extends_its_own_lease_witness :
  (handle_renew true true (demo_caller "client-a" ["work:renew"]) "r1" "a" demo_api_world).2 = (HTTP_OK, true)
  /\ holds_lease "r1" "a" demo_api_world
  /\ (handle_renew true true (demo_caller "client-a" ["work:renew"]) "r1" "b" demo_api_world).2
     = (HTTP_CONFLICT, false).
Proof.
  assert ((handle_renew true true (demo_caller "client-a" ["work:renew"]) "r1" "a" demo_api_world).2
    = (HTTP_OK, true)) as Hr by (vm_compute; reflexivity).
  split; [exact Hr|]. split; [|vm_compute; reflexivity].
  destruct (handle_renew true true _ "r1" "a" demo_api_world) as [w' [status ok]] eqn:Hrun.
  injection Hr as -> ->. destruct (renewal_extends_its_own_lease _ _ _ _ _ _ _ _ Hrun) as (_ & _ & _ & _ & H & _).
  exact H.
Defined.
