(* ===== verification/RequeueFacts.v ===== *)
(** * Rows and the work items they stand for

    An execution lives twice, as a row of the store and as a work item of the
    queue; after a restart, or when a runner is lost, the item is built again
    from the row. What is rebuilt is what was dispatched, and a restart applies
    each job's catch-up policy to the rows it finds. *)

From S2P Require Import Prelude RustStr Chrono RunnerTypes Queue Registry RunnerApi.
From S2P Require Import Durations Execution JobConfig Scheduler Store StoreCalls Sqlite SqliteFacts Lifecycle.
From S2P Require Import Server Alerts DemoServer Requeue Dispatch TriggerApi DispatchFacts AlertFacts.
From S2P Require Import Completion CompletionFacts TriggerApiFacts Watchdog WatchdogFacts.

Local Open Scope string_scope.
Local Open Scope Z_scope.

(** ** The item a row stands for *)

(** A job in normal form: its metadata leaves the capability and timeout stamps
    to the dispatcher (as that of a compiled job does), and its timeout is a
    duration without spaces around it (validation asks for less). *)
Record job_normal (job : JobConfig) : Prop := {
  jn_require : jc_metadata job !! REQUIRE_METADATA_KEY = None;
  jn_prefer : jc_metadata job !! PREFER_METADATA_KEY = None;
  jn_no_stamp : jc_metadata job !! TIMEOUT_METADATA_KEY = None;
  jn_timeout : forall t, jc_timeout job = Some t -> trim t = t /\ is_Some (parse_duration t)
}.

Definition set_item_metadata `{J : Json} (m : Value) (x : WorkItem) : WorkItem := {|
  execution_id := execution_id x; wi_job_key := wi_job_key x; fire_at := fire_at x;
  scheduled_for := scheduled_for x; attempt := attempt x; require := require x; prefer := prefer x;
  metadata := m; timeout := timeout x; is_ephemeral := is_ephemeral x |}.

Section Rebuild.
  Context `{J : Json} `{EL : EnvLaws}.

Lemma effective_timeout_stamped m t job_timeout :
  m !! TIMEOUT_METADATA_KEY = Some t -> trim t = t -> is_Some (parse_duration t) ->
  effective_timeout m job_timeout = t.
Proof.
  intros Hm Ht [d Hd]. unfold effective_timeout. rewrite Hm. cbn -[trim parse_duration]. by rewrite Ht, Hd.
Qed.

Lemma stamped_back m key l fallback :
  (l = [] -> fallback = []) -> m !! key = None ->
  default fallback (v ← stamp key l m !! key; parse_json_strings v) = l.
Proof.
  intros Hf Hm. destruct l as [|s l]; cbn [stamp]; [rewrite Hm; by apply Hf|].
  rewrite lookup_insert_eq. cbn. by rewrite parse_json_strings_json.
Qed.

Lemma validated_timeout v t : validate_optional_duration v = Ok (Some t) -> trim t = t /\ is_Some (parse_duration t).
Proof.
  unfold validate_optional_duration. destruct v as [s|]; [|done]. cbn zeta. destruct (str_is_empty _); [done|].
  destruct (parse_duration_checked (trim s)) as [d|] eqn:Ed; [|done]. intros [= <-].
  split; [apply trim_idempotent|]. unfold parse_duration. rewrite Ed. by eexists.
Qed.

Lemma job_metadata_stamps job :
  job_execution_metadata json_strings job
  = (let m := stamp PREFER_METADATA_KEY (rc_prefer (jc_runner job))
                (stamp REQUIRE_METADATA_KEY (rc_require (jc_runner job)) (jc_metadata job)) in
     match jc_timeout job with Some t => <[TIMEOUT_METADATA_KEY := t]> m | None => m end).
Proof. unfold job_execution_metadata. by destruct (rc_require _), (rc_prefer _). Qed.

(** The capabilities come back from under the later stamps. *)
Lemma capabilities_back m req pref freq fpref :
  (req = [] -> freq = []) -> (pref = [] -> fpref = []) -> m !! REQUIRE_METADATA_KEY = None -> m !! PREFER_METADATA_KEY = None ->
  let m' := stamp PREFER_METADATA_KEY pref (stamp REQUIRE_METADATA_KEY req m) in
  default freq (v ← m' !! REQUIRE_METADATA_KEY; parse_json_strings v) = req
  /\ default fpref (v ← m' !! PREFER_METADATA_KEY; parse_json_strings v) = pref.
Proof.
  intros Hfr Hfp Hr Hp. cbv zeta. split.
  - rewrite stamp_ne by done. by apply stamped_back.
  - apply stamped_back; [done|]. by rewrite stamp_ne.
Qed.

Lemma scheduled_rebuilds job eid fire now :
  job_normal job -> jc_execution_mode job <> ModeEphemeral ->
  work_item_from_execution (queued_execution json_strings job eid fire now) job
  = set_item_metadata (of_map (job_execution_metadata json_strings job)) (job_to_work_item job eid fire fire 1).
Proof.
  intros Hn Hmode. unfold work_item_from_execution, set_item_metadata, job_to_work_item, stamped_capabilities.
  cbn -[effective_timeout job_execution_metadata]. rewrite job_metadata_stamps. cbv zeta.
  destruct (capabilities_back (jc_metadata job) (rc_require (jc_runner job)) (rc_prefer (jc_runner job))
    (rc_require (jc_runner job)) (rc_prefer (jc_runner job)) id id (jn_require _ Hn) (jn_prefer _ Hn)) as [Hr Hp].
  assert (effective_timeout (job_execution_metadata json_strings job) (jc_timeout job)
          = default "5m" (jc_timeout job)) as Ht.
  { rewrite job_metadata_stamps. destruct (jc_timeout job) as [t|] eqn:Et.
    - destruct (jn_timeout _ Hn t Et). apply effective_timeout_stamped; [by rewrite lookup_insert_eq|done..].
    - cbv zeta. unfold effective_timeout. by rewrite !stamp_ne, (jn_no_stamp _ Hn) by done. }
  rewrite job_metadata_stamps in Ht. cbv zeta in Ht. rewrite Ht. rewrite (bool_decide_false _ Hmode).
  f_equal; destruct (jc_timeout job); rewrite ?lookup_insert_ne by done; done.
Qed.

Lemma triggered_rebuilds req requested idem job id now :
  job_normal job -> validate_optional_duration (tr_timeout req) = Ok requested ->
  work_item_from_execution (trigger_execution req requested idem (Some job) id now) job
  = trigger_item req requested (Some job) id now.
Proof.
  intros Hn Hv. unfold work_item_from_execution, trigger_item, stamped_capabilities.
  cbn -[effective_timeout trigger_metadata].
  assert (forall k, is_reserved_metadata_key k = true -> k <> COALESCE_METADATA_KEY ->
    (let m := overlay (jc_metadata job) (tr_metadata req) in
     if is_bare_signal req then m else delete COALESCE_METADATA_KEY m) !! k = jc_metadata job !! k) as Hbase.
  { intros k Hk Hne. cbv zeta. destruct (is_bare_signal req); [by apply overlay_reserved|].
    rewrite lookup_delete_ne by done. by apply overlay_reserved. }
  destruct (capabilities_back
    (let m := overlay (jc_metadata job) (tr_metadata req) in
     if is_bare_signal req then m else delete COALESCE_METADATA_KEY m)
    (trigger_require req (Some job)) (trigger_prefer req (Some job))
    (rc_require (jc_runner job)) (rc_prefer (jc_runner job))) as [Hr Hp].
  { unfold trigger_require, inherit. by destruct (tr_require req). }
  { unfold trigger_prefer, inherit. by destruct (tr_prefer req). }
  { rewrite Hbase by done. apply jn_require, Hn. }
  { rewrite Hbase by done. apply jn_prefer, Hn. }
  f_equal.
  - unfold trigger_metadata, mark_requested. rewrite !lookup_insert_ne by done. exact Hr.
  - unfold trigger_metadata, mark_requested. rewrite !lookup_insert_ne by done. exact Hp.
  - assert (trim (trigger_timeout requested (Some job)) = trigger_timeout requested (Some job)
            /\ is_Some (parse_duration (trigger_timeout requested (Some job)))) as [Ht Hd].
    { unfold trigger_timeout, option_or. destruct requested as [t|]; [by eapply validated_timeout|].
      cbn. destruct (jc_timeout job) as [t|] eqn:Et; [by apply (jn_timeout _ Hn)|]. split; [done|by eexists]. }
    apply effective_timeout_stamped; [|done..]. unfold trigger_metadata, mark_requested.
    rewrite lookup_insert_ne by done. apply lookup_insert_eq.
Qed.
End Rebuild.

(** C26. A work item survives its queue while its job does not change: the item
    rebuilt from the row of a scheduled fire or of a manual trigger, after a
    restart or a requeue, under the same definition of the job it was dispatched
    with, is the item that was dispatched, with the same capabilities (a
    trigger's own included), attempt, fire times and timeout; only a scheduled
    item's metadata gains the stamps its row carries. The job is one whose timeout,
    if it has one, reads as a duration and carries no spaces around it, and whose
    own metadata holds none of the capability and timeout stamps ([job_normal]):
    validation also lets through a timeout beyond 64 bits of milliseconds, which
    the rebuild replaces by the default, and a reload that changes the job's
    capabilities changes the items rebuilt for rows without a stamp. *)
Theorem requeue_rebuilds_the_dispatched_item `{J : Json} `{EL : EnvLaws} job :
  job_normal job ->
  (forall id fire now, jc_execution_mode job <> ModeEphemeral ->
     work_item_from_execution (queued_execution json_strings job id fire now) job
     = set_item_metadata (of_map (job_execution_metadata json_strings job)) (job_to_work_item job id fire fire 1))
  /\ (forall req requested idem id now, validate_optional_duration (tr_timeout req) = Ok requested ->
     work_item_from_execution (trigger_execution req requested idem (Some job) id now) job
     = trigger_item req requested (Some job) id now).
Proof. intros Hn. split; intros; [by apply scheduled_rebuilds|by apply triggered_rebuilds]. Qed.

Lemma demo_job_normal : job_normal (demo_job "web:hook" false).
Proof. split; [done..|]. intros t [= <-]. split; [done|by eexists]. Qed.

Lemma requeue_rebuilds_the_dispatched_item_witness :
  require (work_item_from_execution (queued_execution json_strings (demo_job "web:hook" false) "a" 0 0)
             (demo_job "web:hook" false)) = ["linux"]
  /\ require (work_item_from_execution
       (trigger_execution (MkTriggerRequest "web:hook" ["gpu"] [] PlNull None None) None None
          (Some (demo_job "web:hook" false)) "a" 0) (demo_job "web:hook" false)) = ["gpu"].
Proof.
  destruct (requeue_rebuilds_the_dispatched_item (demo_job "web:hook" false)) as [Hs Ht];
    [split; [reflexivity..|intros t [= <-]; split; [reflexivity|by eexists]]|].
  split; [rewrite Hs by discriminate|rewrite Ht by reflexivity]; reflexivity.
Defined.

(** A retry is the exception: its work item takes the capabilities of the job,
    while the row it was created with keeps those of the trigger, so the retry
    of a run pinned to a capability is offered to any runner of the job. *)
Lemma retry_drops_requested_capabilities :
  let job := demo_job "web:hook" false in
  let e := trigger_execution (MkTriggerRequest "web:hook" ["gpu"] [] PlNull None None) None None
             (Some job) "a" 0 in
  require (retry_item "b" e job 0 2) = ["linux"]
  /\ require (work_item_from_execution (retry_execution "b" e 0 0 2) job) = ["gpu"].
Proof. split; reflexivity. Qed.

(** ** Catch-up at a restart *)

Definition requested_row (e : Execution) : bool := execution_was_requested (ex_metadata e).

(** What a job's policy keeps of its queued rows: every run someone asked for;
    of the scheduled fires all, none, or a newest one. *)
Definition caught_up (job : JobConfig) (all kept : list Execution) : Prop :=
  (forall e, e ∈ kept -> e ∈ all) /\ (forall e, e ∈ all -> requested_row e = true -> e ∈ kept)
  /\ let fire e := e ∈ all /\ requested_row e = false in
     if decide (jc_execution_mode job = ModeEphemeral) then forall e, fire e -> e ∉ kept
     else match jc_catch_up job with
     | CatchUpNone => forall e, fire e -> e ∉ kept
     | CatchUpAll => forall e, fire e -> e ∈ kept
     | CatchUpLatest =>
         (forall e, ~ fire e) \/ exists newest, fire newest
           /\ (forall e, fire e -> ex_fire_at e <= ex_fire_at newest)
           /\ (forall e, fire e -> (e ∈ kept <-> e = newest))
     end.

Section Restore.
  Context `{J : Json} `{E : Env}.

Abbreviation W := (World SqliteStore).
Abbreviation row w id := (tb_execs (tbl w) !! id).
Definition stored (w : W) (l : list Execution) : Prop :=
  forall e, e ∈ l -> row w (ex_id e) = Some e /\ ex_state e = EQueued.

Lemma enqueue_rows_mem job l : forall (w w' : W),
  enqueue_rows job l w = (w', tt) ->
  w_store w' = w_store w /\ (forall e, e ∈ l -> in_mem w' (ex_id e)) /\ (forall id, in_mem w id -> in_mem w' id).
Proof.
  induction l as [|e l IH]; intros w w' Hrun; [injection Hrun as <-; split_and!; [done| |done]; by intros e ?%not_elem_of_nil|].
  apply bind_eq in Hrun as (w1 & u & H1 & Hrun). apply bind_eq in H1 as (w2 & ok & H2 & [= <- _]).
  apply enqueue_item_mem in H2 as (Hs & Hmem). apply IH in Hrun as (Hs' & Hall & Hg').
  split_and!; [congruence| |intros id Hid; apply Hg', Hmem; by left].
  intros x [->|Hx]%elem_of_cons; [apply Hg', Hmem; by right|by apply Hall].
Qed.

Lemma cancel_each_spec now l : forall (w w' : W) n,
  ok_store w -> NoDup (map ex_id l) -> stored w l -> cancel_each now l w = (w', n) ->
  ok_store w' /\ w_app w' = w_app w
  /\ (forall e, e ∈ l -> row w' (ex_id e) = Some (cancelled_row now e))
  /\ (forall id, id ∉ map ex_id l -> row w' id = row w id).
Proof.
  induction l as [|e l IH]; intros w w' n Hs Hnd Hl Hrun.
  { injection Hrun as <- _. split_and!; [done..| |done]. by intros e ?%not_elem_of_nil. }
  cbn [map] in Hnd. apply NoDup_cons in Hnd as [Hni Hnd].
  apply bind_eq in Hrun as (w1 & r & Hc & Hrun). apply bind_eq in Hrun as (w2 & k & H2 & [= <- _]).
  destruct (Hl e ltac:(left)) as [He Hq].
  apply call_faultless in Hc as (Hs1 & Ha1 & u & -> & m & hit & Hsw & Et); [|done..].
  assert (in_flight e = true) as Hf by (apply in_states_In; rewrite Hq; by left).
  unfold swapped in Hsw. rewrite He, Hf in Hsw. destruct Hsw as [_ ->].
  assert (forall id, id <> ex_id e -> row w1 id = row w id) as Hother.
  { intros id Hne. rewrite Et. cbn [tb_execs set_execs]. by rewrite lookup_insert_ne. }
  apply IH in H2 as (Hs2 & Ha2 & Hall & Hrest); [|done..|].
  2: { intros x Hx. destruct (Hl x ltac:(by right)) as [Hx1 Hx2]. split; [|done]. rewrite Hother; [done|].
       intros Eq. apply Hni. rewrite <- Eq. by apply list_elem_of_fmap_2. }
  split_and!; [done|congruence| |].
  - intros x [->|Hx]%elem_of_cons; [|by apply Hall]. rewrite Hrest by done. rewrite Et.
    cbn [tb_execs set_execs]. apply lookup_insert_eq.
  - intros id [Hne Hid]%not_elem_of_cons. rewrite Hrest by done. by apply Hother.
Qed.

(** What became of the rows of one job. *)
Definition settled_rows (all kept : list Execution) (w' : W) : Prop :=
  forall e, e ∈ all ->
    e ∈ kept /\ row w' (ex_id e) = Some e /\ in_mem w' (ex_id e)
    \/ (e ∉ kept) /\ (exists now, row w' (ex_id e) = Some (cancelled_row now e)).

(** A turn that puts [kept] in the queue and cancels [dropped]. *)
Definition turn (all kept : list Execution) (w w' : W) : Prop :=
  ok_store w' /\ settled_rows all kept w' /\ (forall id, in_mem w id -> in_mem w' id)
  /\ (forall id, id ∉ map ex_id all -> row w' id = row w id).

Lemma keep_and_cancel all kept dropped now (w w1 w' : W) n :
  ok_store w -> NoDup (map ex_id all) -> stored w all -> (kept ++ dropped)%list ≡ₚ all ->
  w_store w1 = w_store w -> (forall e, e ∈ kept -> in_mem w1 (ex_id e)) ->
  (forall id, in_mem w id -> in_mem w1 id) -> cancel_each now dropped w1 = (w', n) ->
  turn all kept w w'.
Proof.
  intros Hs Hnd Hall Hperm Est Hkept Hgrow Hrun. unfold tbl in *.
  assert (NoDup (map ex_id kept ++ map ex_id dropped)%list) as Hnd'.
  { rewrite <- map_app. by rewrite Hperm. }
  apply NoDup_app in Hnd' as (_ & Hdisj & Hndd).
  assert (forall e, e ∈ all <-> e ∈ kept \/ e ∈ dropped) as Hin by (intros e; rewrite <- Hperm; apply elem_of_app).
  assert (forall e, e ∈ kept -> ex_id e ∉ map ex_id dropped) as Hsep
    by (intros e He; apply Hdisj; by apply list_elem_of_fmap_2).
  apply cancel_each_spec in Hrun as (Hs' & Ha & Hc & Hrest); [|unfold ok_store; by rewrite Est|done|].
  2: { intros e He. unfold tbl. rewrite Est. apply Hall, Hin. by right. }
  unfold tbl in *. split_and!; [done| | |].
  - intros e He. destruct (proj1 (Hin e) He) as [Hk|Hd].
    + left. split_and!; [done| |unfold in_mem in *; rewrite Ha; by apply Hkept].
      unfold tbl. rewrite Hrest by by apply Hsep. rewrite Est. by apply Hall.
    + right. split; [|exists now; unfold tbl; by apply Hc]. intros Hk. apply (Hsep e Hk).
      by apply list_elem_of_fmap_2.
  - intros id Hid. unfold in_mem in *. rewrite Ha. by apply Hgrow.
  - intros id Hid. rewrite Hrest, Est; [done|]. intros Hd. apply Hid.
    rewrite <- Hperm, map_app. apply elem_of_app. by right.
Qed.

(** The runs someone asked for, and the scheduled fires. *)
Definition asked (l : list Execution) : list Execution := List.filter requested_row l.
Definition fires (l : list Execution) : list Execution := List.filter (fun e => negb (requested_row e)) l.

Lemma asked_fires l : (asked l ++ fires l)%list ≡ₚ l.
Proof.
  unfold asked, fires. induction l as [|e l IH]; [done|]. cbn. destruct (requested_row e); cbn; [by rewrite IH|].
  by rewrite <- Permutation_middle, IH.
Qed.
Lemma elem_of_asked l e : e ∈ asked l <-> e ∈ l /\ requested_row e = true.
Proof. unfold asked. rewrite !list_elem_of_In. apply filter_In. Qed.
Lemma elem_of_fires l e : e ∈ fires l <-> e ∈ l /\ requested_row e = false.
Proof. unfold fires. rewrite !list_elem_of_In, filter_In, negb_true_iff. done. Qed.
Lemma fire_not_asked l e : e ∈ l /\ requested_row e = false -> e ∉ asked l.
Proof. intros [_ He] [_ ?]%elem_of_asked. congruence. Qed.

Lemma caught_up_asked job all :
  fires all = [] \/ jc_execution_mode job = ModeEphemeral \/ jc_catch_up job = CatchUpNone ->
  caught_up job all (asked all).
Proof.
  intros Hwhy. split_and!; [by intros e [? _]%elem_of_asked|intros; by apply elem_of_asked|]. cbv zeta.
  case_decide as Hm; [intros e; apply fire_not_asked|].
  destruct Hwhy as [Hno|[?|Hc]]; [|done|rewrite Hc; intros e; apply fire_not_asked].
  assert (forall e, ~ (e ∈ all /\ requested_row e = false)) as Hnone.
  { intros e He%elem_of_fires. rewrite Hno in He. by apply not_elem_of_nil in He. }
  destruct (jc_catch_up job); [intros e He|by left|intros e He]; by destruct (Hnone e).
Qed.

Lemma caught_up_all job all :
  jc_execution_mode job <> ModeEphemeral -> jc_catch_up job = CatchUpAll ->
  caught_up job all (asked all ++ fires all)%list.
Proof.
  intros Hm Hc. split_and!.
  - intros e [[? _]%elem_of_asked|[? _]%elem_of_fires]%elem_of_app; done.
  - intros e He Hr. apply elem_of_app. left. by apply elem_of_asked.
  - cbv zeta. rewrite decide_False by done. rewrite Hc. intros e He. apply elem_of_app. right. by apply elem_of_fires.
Qed.

#[local] Existing Instance newest_fire_first_dec.
Lemma newest_first_sorted l latest rest :
  merge_sort newest_fire_first l = latest :: rest ->
  latest :: rest ≡ₚ l /\ forall e, e ∈ l -> ex_fire_at e <= ex_fire_at latest.
Proof.
  intros Hs. pose proof (merge_sort_Permutation newest_fire_first l) as Hp. rewrite Hs in Hp. split; [done|].
  assert (StronglySorted newest_fire_first (latest :: rest)) as Hss.
  { rewrite <- Hs. apply StronglySorted_merge_sort.
    - intros a b c. unfold newest_fire_first. lia.
    - intros a b. unfold newest_fire_first. lia. }
  apply StronglySorted_inv in Hss as [_ Hle]. rewrite Forall_forall in Hle.
  intros e He. rewrite <- Hp in He. apply elem_of_cons in He as [->|He]; [done|]. by apply (Hle e).
Qed.

Lemma caught_up_latest job all latest rest :
  jc_execution_mode job <> ModeEphemeral -> jc_catch_up job = CatchUpLatest ->
  merge_sort newest_fire_first (fires all) = latest :: rest ->
  caught_up job all (asked all ++ [latest])%list /\ (asked all ++ [latest] ++ rest)%list ≡ₚ all.
Proof.
  intros Hm Hc [Hp Hle]%newest_first_sorted.
  assert (latest ∈ all /\ requested_row latest = false) as Hl by (apply elem_of_fires; rewrite <- Hp; by left).
  split; [|cbn [app]; rewrite Hp; apply asked_fires]. split_and!.
  - intros e [[? _]%elem_of_asked|He%list_elem_of_singleton]%elem_of_app; [done|]. rewrite He. by destruct Hl.
  - intros e He Hr. apply elem_of_app. left. by apply elem_of_asked.
  - cbv zeta. rewrite decide_False by done. rewrite Hc. right. exists latest. split_and!; [by destruct Hl..| |].
    + intros e He. by apply Hle, elem_of_fires.
    + intros e He. rewrite elem_of_app, list_elem_of_singleton. split; [|auto].
      intros [Ha|?]; [|done]. by destruct (fire_not_asked _ _ He).
Qed.

Lemma restore_job_turn job all (w w' : W) n :
  ok_store w -> NoDup (map ex_id all) -> stored w all ->
  restore_job (Some job) all w = (w', n) -> exists kept, caught_up job all kept /\ turn all kept w w'.
Proof.
  intros Hs Hnd Hall Hrun. unfold restore_job in Hrun. fold requested_row in Hrun.
  change (List.filter (fun ex => execution_was_requested (ex_metadata ex)) all) with (asked all) in Hrun.
  change (List.filter (fun ex => negb (execution_was_requested (ex_metadata ex))) all) with (fires all) in Hrun.
  apply bind_eq in Hrun as (w1 & [] & (Est & Hin & Hg)%enqueue_rows_mem & Hrun).
  assert (forall kept dropped now w2 k, (kept ++ dropped)%list ≡ₚ all -> w_store w2 = w_store w ->
    (forall e, e ∈ kept -> in_mem w2 (ex_id e)) -> (forall id, in_mem w id -> in_mem w2 id) ->
    cancel_each now dropped w2 = (w', k) -> turn all kept w w') as Hturn
    by (intros; by eapply keep_and_cancel).
  assert (forall k, cancel_on_restore (fires all) w1 = (w', k) -> turn all (asked all) w w') as Hcancel.
  { intros k (w2 & now & [= <- <-] & Hrun')%bind_eq.
    by eapply (Hturn _ (fires all) _ (MkWorld _ _ _ _ _)); [apply asked_fires|..]. }
  destruct (fires all) as [|f fs] eqn:Ef.
  { injection Hrun as <- _. exists (asked all). split; [apply caught_up_asked; by left|].
    eapply (Hturn _ [] 0 w1); [|done..]. pose proof (asked_fires all) as Hp. by rewrite Ef in Hp. }
  rewrite <- Ef in *. clear Ef f fs. case_bool_decide as Hm.
  { apply bind_eq in Hrun as (w2 & k & H2 & [= <- _]). exists (asked all).
    split; [apply caught_up_asked; by auto|by eapply Hcancel]. }
  destruct (jc_catch_up job) eqn:Hc.
  - apply bind_eq in Hrun as (w2 & [] & (Est2 & Hin2 & Hg2)%enqueue_rows_mem & [= <- _]).
    exists (asked all ++ fires all)%list. split; [by apply caught_up_all|].
    eapply (Hturn _ [] 0 w2); [by rewrite app_nil_r, asked_fires|congruence| |auto|done].
    intros e [He|He]%elem_of_app; auto.
  - destruct (merge_sort newest_fire_first (fires all)) as [|latest rest] eqn:Esort.
    { injection Hrun as <- _. exists (asked all).
      pose proof (merge_sort_Permutation newest_fire_first (fires all)) as Hp. rewrite Esort in Hp.
      apply Permutation_nil_l in Hp. split; [apply caught_up_asked; by left|].
      eapply (Hturn _ [] 0 w1); [|done..]. pose proof (asked_fires all) as Hq. by rewrite <- Hp in Hq. }
    destruct (caught_up_latest job all latest rest Hm Hc Esort) as [Hcu Hp].
    apply bind_eq in Hrun as (w2 & [] & (Est2 & Hin2 & Hg2)%enqueue_rows_mem & Hrun).
    apply bind_eq in Hrun as (w3 & k & H3 & [= <- _]). exists (asked all ++ [latest])%list. split; [done|].
    assert (forall e, e ∈ (asked all ++ [latest])%list -> in_mem w2 (ex_id e)) as Hmem
      by (intros e [He|He]%elem_of_app; auto).
    rewrite (assoc_L app) in Hp. destruct rest as [|r rest].
    + injection H3 as <- _. eapply (Hturn _ [] 0 w2); [done|congruence|auto..|done].
    + apply bind_eq in H3 as (w4 & now & [= <- <-] & H3).
      eapply (Hturn _ (r :: rest)); [done| | | |exact H3]; [exact (eq_trans Est2 Est)|exact Hmem|].
      intros id Hid. exact (Hg2 id (Hg id Hid)).
  - apply bind_eq in Hrun as (w2 & k & H2 & [= <- _]). exists (asked all).
    split; [apply caught_up_asked; by auto|by eapply Hcancel].
Qed.

Lemma elem_of_job key l e : e ∈ of_job key l <-> e ∈ l /\ ex_job_key e = key.
Proof. unfold of_job. rewrite !list_elem_of_In, filter_In, String.eqb_eq. done. Qed.
Lemma of_job_nodup key l : NoDup (map ex_id l) -> NoDup (map ex_id (of_job key l)).
Proof.
  intros Hnd. unfold of_job. induction l as [|e l IH]; [constructor|]. cbn in *. apply NoDup_cons in Hnd as [Hni Hnd].
  destruct (String.eqb _ _); [|by apply IH]. cbn. apply NoDup_cons. split; [|by apply IH].
  intros Hin. apply Hni. apply list_elem_of_fmap in Hin as (x & -> & [Hx _]%elem_of_job). by apply list_elem_of_fmap_2.
Qed.

(** What the restore has done for the jobs of [order]. *)
Definition groups_done (jobs : gmap string JobConfig) (execs : list Execution) (order : list string) (w w' : W) : Prop :=
  ok_store w' /\ (forall id, in_mem w id -> in_mem w' id)
  /\ (forall id, (forall e, e ∈ execs -> ex_id e = id -> ex_job_key e ∉ order \/ jobs !! ex_job_key e = None) ->
        row w' id = row w id)
  /\ (forall key job, key ∈ order -> jobs !! key = Some job ->
        exists kept, caught_up job (of_job key execs) kept /\ settled_rows (of_job key execs) kept w').

Lemma restore_groups_done jobs execs order : forall (w w' : W) n,
  ok_store w -> NoDup order -> NoDup (map ex_id execs) ->
  (forall e, e ∈ execs -> ex_job_key e ∈ order -> row w (ex_id e) = Some e /\ ex_state e = EQueued) ->
  restore_groups jobs execs order w = (w', n) -> groups_done jobs execs order w w'.
Proof.
  induction order as [|key order IH]; intros w w' n Hs Hno Hnd Hex Hrun.
  { injection Hrun as <- _. split_and!; [done..|]. by intros key job ?%not_elem_of_nil. }
  apply NoDup_cons in Hno as [Hni Hno]. apply bind_eq in Hrun as (w1 & k1 & H1 & Hrun).
  apply bind_eq in Hrun as (w2 & k2 & H2 & [= <- _]).
  assert (ok_store w1 /\ (forall id, in_mem w id -> in_mem w1 id)
    /\ (forall id, id ∉ map ex_id (of_job key execs) \/ jobs !! key = None -> row w1 id = row w id)
    /\ (forall job, jobs !! key = Some job ->
          exists kept, caught_up job (of_job key execs) kept /\ settled_rows (of_job key execs) kept w1))
    as (Hs1 & Hg1 & Hrow1 & Hdone1).
  { destruct (jobs !! key) as [job|]; [|injection H1 as <- _; split_and!; done].
    apply restore_job_turn in H1 as (kept & Hc & Hs1 & Hst & Hg & Hr); [|done|by apply of_job_nodup|].
    - split_and!; [done..| |intros ? [= <-]; eauto]. intros id [Hid|]; [by apply Hr|done].
    - intros e [He <-]%elem_of_job. apply Hex; [done|left]. }
  assert (forall e x, e ∈ execs -> x ∈ execs -> ex_job_key e ∈ key :: order -> ex_job_key x ∈ key :: order ->
            ex_id e = ex_id x -> e = x) as Hsame.
  { intros e x He Hx Hke Hkx Eq. destruct (Hex e He Hke) as [H _], (Hex x Hx Hkx) as [H' _]. congruence. }
  apply IH in H2 as (Hs2 & Hg2 & Hrow2 & Hdone2); [|done..|].
  2: { intros e He Ho. rewrite Hrow1; [apply Hex; [done|by right]|]. left. intros Hin.
       apply list_elem_of_fmap in Hin as (x & Hxid & [Hx Hk]%elem_of_job). apply Hni. rewrite <- Hk.
       rewrite <- (Hsame e x); [done..|by right|rewrite Hk; left|done]. }
  split_and!; [done|auto| |].
  - intros id Hid. rewrite Hrow2, Hrow1; [done| |].
    + destruct (jobs !! key) as [job|] eqn:Ek; [left|by right]. intros Hin.
      apply list_elem_of_fmap in Hin as (x & -> & [Hx Hk]%elem_of_job).
      destruct (Hid x Hx eq_refl) as [Hn|Hn]; rewrite Hk in Hn; [|congruence]. apply Hn. left.
    + intros e He Heid. destruct (Hid e He Heid) as [Hn|Hn]; [left|by right]. intros Ho. apply Hn. by right.
  - intros k job [->|Hk]%elem_of_cons Hj; [|by apply Hdone2].
    destruct (Hdone1 job Hj) as (kept & Hc & Hst). exists kept. split; [done|]. intros e He.
    pose proof He as [Hee Hek]%elem_of_job.
    assert (row w2 (ex_id e) = row w1 (ex_id e)) as Hkeep.
    { apply Hrow2. intros x Hx Hxid. left. intros Ho. apply Hni. rewrite <- Hek.
      by rewrite (Hsame e x); [| |done|rewrite Hek; left|right|]. }
    rewrite Hkeep. destruct (Hst e He) as [(? & ? & ?)|?]; [left; auto|by right].
Qed.
End Restore.


(** An API-defined job folds nothing away: of its rows the first fire and the
    requested run both come back. *)
Definition demo_restart : World SqliteStore :=
  demo_world [demo_queued "a" "web:hook" 0 ∅; demo_queued "b" "web:hook" 60 {[REQUESTED_METADATA_KEY := "trigger"]}] [] [].
Abbreviation demo_restored := (restore_queued_executions [demo_job "web:hook" false] ["web:hook"] demo_restart).

