(* ===== verification/WatchdogAlerts.v ===== *)
(** * The watchdog's alert sweeps, and the whole sweep

    Models the alert sweeps of [croniq-server/src/watchdog.rs] (executions past
    their expected runtime, fires that never happened, fires stuck in the
    queue, maintenance left on), with the sets that keep one incident from
    alerting twice, and [sweep], the order in which everything runs. Which jobs
    are live comes from [croniq-scheduler/src/live_jobs.rs]. *)

From S2P Require Import Prelude RustStr Chrono Schedule Trigger RunnerTypes Queue Registry RunnerApi.
From S2P Require Import Durations Execution JobConfig Store StoreCalls Server Alerts Requeue.
From S2P Require Import Dispatch Completion Watchdog.

Local Open Scope string_scope.
Local Open Scope Z_scope.

(** [LiveJobs] *)
Inductive LiveJobs := LiveUnknown | LiveKnown (keys : gset string).
Definition live_from_snapshot {A} (triggers : option (gmap string A)) : LiveJobs :=
  match triggers with Some m => LiveKnown (dom m) | None => LiveUnknown end.
Definition live_includes (l : LiveJobs) (key : string) : bool :=
  match l with LiveUnknown => true | LiveKnown keys => bool_decide (key ∈ keys) end.

(** [MaintenanceState::active_since] *)
Definition active_since (m : MaintenanceState) (now : instant) : option instant :=
  if is_active m now
  then option_or (option_or (ms_active_since m) (window_start m)) (ms_updated_at m)
  else None.

(** What the sweeps remember: [sla_fired], [missed_fired], [blocked_fired] and
    [maintenance_fired]. *)
Record Fired := MkFired {
  sla_fired : gset (string * string);
  missed_fired : gset (string * string * Z);
  blocked_fired : gmap (string * string) instant;
  maintenance_fired : gmap (string * Z) instant
}.
Definition fired_new : Fired := MkFired ∅ ∅ ∅ ∅.

(** An incident fires the first time, and again when the rule repeats and its
    window has passed. *)
Definition fires_again (repeat_secs : option Z) (last : option instant) (now : instant) : bool :=
  match last with
  | None => true
  | Some last =>
      match repeat_secs with
      | Some repeat => repeat <=? Z.max (num_seconds (now - last)) 0
      | None => false
      end
  end.

(** The limit of a rule of the given trigger. *)
Definition rule_limit (trigger : RuleTrigger) (rule : RuleConfig) : option (string * Z) :=
  if bool_decide (ru_trigger rule = trigger)
  then s ← ru_expected_within rule; n ← parse_throttle_secs s; Some (s, n)
  else None.
Definition rule_repeat (rule : RuleConfig) : option Z := ru_throttle rule ≫= parse_throttle_secs.

Record WatchdogResult := {
  wr_dead_runners : list string;
  wr_requeued : list string;
  wr_stale_claims : list string;
  wr_expired : list string;
  wr_reconciled : list Reconciled;
  wr_sla_missed : list (string * string);
  wr_missed_fires : list (string * string);
  wr_maintenance_alerts : list string;
  wr_blocked_alerts : list (string * string);
  wr_cleared_overrides : list string;
  wr_expired_acks : list string
}.

Section AlertSweeps.
  Context `{C : Chrono} `{J : Json} `{E : Env} {St : Type} `{SO : StoreOps St}.
  Context (transport : string -> ChannelConfig -> string -> FailureContext -> instant -> Sent).
  Context (alerts : AlertsConfig) (claim_sweep_limit : Z).

(** [for rule in &self.alerts.rules], threading what has fired. *)
Fixpoint each_rule {F B} (body : F -> RuleConfig -> M St (F * list B)) (rules : list RuleConfig)
    (f : F) : M St (F * list B) :=
  match rules with
  | [] => mret (f, [])
  | rule :: rules =>
      '(f, a) ← body f rule;
      '(f, b) ← each_rule body rules f;
      mret (f, (a ++ b)%list)
  end.
Fixpoint each_with {X F B} (body : X -> F -> M St (F * list B)) (l : list X) (f : F)
    : M St (F * list B) :=
  match l with
  | [] => mret (f, [])
  | x :: l =>
      '(f, a) ← body x f;
      '(f, b) ← each_with body l f;
      mret (f, (a ++ b)%list)
  end.

(** ** [sweep_sla_missed] *)

Definition sla_context (ex : Execution) (started elapsed : Z) (window : string) : FailureContext := {|
  fc_job_key := ex_job_key ex; fc_execution_id := ex_id ex;
  fc_error := "SLA missed: started at " ++ show_utc started ++ ", in-flight for "
              ++ show_uint elapsed ++ "s (expected within " ++ window ++ ")";
  fc_attempt := ex_attempt ex; fc_reason := "sla_miss"; fc_consecutive := 1 |}.

Definition sla_rule (ex : Execution) (started elapsed : Z) (f : gset (string * string))
    (rule : RuleConfig) : M St (gset (string * string) * list (string * string)) :=
  match rule_limit JobSlaMissed rule with
  | None => mret (f, [])
  | Some (window, secs) =>
      if (elapsed <? secs) || negb (glob_match (ru_job_key_glob rule) (ex_job_key ex))
      then mret (f, [])
      else
        let key := (ru_name rule, ex_id ex) in
        if bool_decide (key ∈ f) then mret (f, [])
        else
          _ ← dispatch_rule transport rule alerts (sla_context ex started elapsed window);
          mret ({[key]} ∪ f, [key])
  end.

Definition sla_execution (now : instant) (ex : Execution) (f : gset (string * string))
    : M St (gset (string * string) * list (string * string)) :=
  match option_or (ex_started_at ex) (ex_claimed_at ex) with
  | None => mret (f, [])
  | Some started =>
      let elapsed := num_seconds (now - started) in
      if elapsed <=? 0 then mret (f, [])
      else each_rule (sla_rule ex started elapsed) (al_rules alerts) f
  end.

Definition sweep_sla_missed (now : instant) (f : gset (string * string))
    : M St (gset (string * string) * list (string * string)) :=
  r ← call (ListClaimedOlderThan now claim_sweep_limit);
  match r with
  | Err _ => mret (f, [])
  | Ok claimed =>
      let f := if Z.of_nat (length claimed) <? claim_sweep_limit
               then base.filter (fun k => k.2 ∈ map ex_id claimed) f else f in
      each_with (sla_execution now) claimed f
  end.

(** ** [sweep_missed_fires] *)

Definition missed_context (st : JobState) (next_fire overdue : Z) (grace : string)
    : FailureContext := {|
  fc_job_key := js_job_key st; fc_execution_id := "";
  fc_error := "missed scheduled fire: expected at " ++ show_utc next_fire ++ ", overdue "
              ++ show_uint overdue ++ "s (grace " ++ grace
              ++ ") — scheduler never enqueued the execution";
  fc_attempt := 0; fc_reason := "missed_fire"; fc_consecutive := 1 |}.

Definition missed_rule (st : JobState) (next_fire overdue : Z) (f : gset (string * string * Z))
    (rule : RuleConfig) : M St (gset (string * string * Z) * list (string * string)) :=
  match rule_limit JobMissedFire rule with
  | None => mret (f, [])
  | Some (grace, secs) =>
      if (overdue <? secs) || negb (glob_match (ru_job_key_glob rule) (js_job_key st))
      then mret (f, [])
      else
        let key := (ru_name rule, js_job_key st, next_fire) in
        if bool_decide (key ∈ f) then mret (f, [])
        else
          _ ← dispatch_rule transport rule alerts (missed_context st next_fire overdue grace);
          mret ({[key]} ∪ f, [(ru_name rule, js_job_key st)])
  end.

(** A job the running configuration has switched off. *)
Definition switched_off (triggers : option (gmap string Trigger)) (key : string) : bool :=
  match t ← triggers; t !! key with
  | Some t => match schedule t with Disabled => true | _ => false end
  | None => false
  end.

Definition missed_job (triggers : option (gmap string Trigger)) (now : instant) (st : JobState)
    (f : gset (string * string * Z)) : M St (gset (string * string * Z) * list (string * string)) :=
  if negb (live_includes (live_from_snapshot triggers) (js_job_key st)) then mret (f, [])
  else if negb (bool_decide (js_status st = JActive)) || switched_off triggers (js_job_key st)
  then mret (f, [])
  else match js_next_fire_at st with
  | None => mret (f, [])
  | Some next_fire =>
      let overdue := num_seconds (now - next_fire) in
      if overdue <=? 0 then mret (f, [])
      else each_rule (missed_rule st next_fire overdue) (al_rules alerts) f
  end.

Definition overdue_pairs (states : list JobState) : list (string * Z) :=
  omap (fun s => (fun at_ => (js_job_key s, at_)) <$> js_next_fire_at s) states.
Definition sweep_missed_fires (triggers : option (gmap string Trigger)) (now : instant)
    (f : gset (string * string * Z)) : M St (gset (string * string * Z) * list (string * string)) :=
  r ← call ListJobStates;
  match r with
  | Err _ => mret (f, [])
  | Ok states =>
      let f := base.filter (fun k => (k.1.2, k.2) ∈ overdue_pairs states) f in
      each_with (missed_job triggers now) states f
  end.

(** ** [sweep_blocked] *)

(** [blocked_cause] *)
Definition blocked_cause (holder : option Execution) : string :=
  match holder with
  | Some h => "slot held by execution " ++ ex_id h ++ " on runner "
              ++ default "<none>" (ex_runner_id h) ++ " (claimed "
              ++ default "at an unknown time" (to_rfc3339 <$> ex_claimed_at h) ++ ")"
  | None => "no execution of this job is running: no eligible runner took it, "
            ++ "or a concurrency_group slot is held by another job"
  end.

(** Per job: its longest-waiting queued execution, since when, and how many. *)
Definition waiting_since (ex : Execution) : instant := Z.max (ex_created_at ex) (ex_fire_at ex).
Definition add_waiting (m : gmap string (Execution * instant * nat)) (ex : Execution)
    : gmap string (Execution * instant * nat) :=
  let since := waiting_since ex in
  match m !! ex_job_key ex with
  | None => <[ex_job_key ex := (ex, since, 1%nat)]> m
  | Some (oldest, s, count) =>
      <[ex_job_key ex := if since <? s then (ex, since, S count) else (oldest, s, S count)]> m
  end.
Definition add_holder (m : gmap string Execution) (ex : Execution) : gmap string Execution :=
  match m !! ex_job_key ex with Some _ => m | None => <[ex_job_key ex := ex]> m end.

Definition blocked_context (key : string) (oldest : Execution) (since waited : Z) (limit : string)
    (count : nat) (cause : string) : FailureContext := {|
  fc_job_key := key; fc_execution_id := ex_id oldest;
  fc_error := "fire queued since " ++ show_utc since ++ ", undispatched for " ++ show_uint waited
              ++ "s (expected within " ++ limit ++ "); " ++ show_uint (Z.of_nat count)
              ++ " queued — " ++ cause;
  fc_attempt := ex_attempt oldest; fc_reason := "job_blocked"; fc_consecutive := 1 |}.

Definition blocked_rule (key : string) (oldest : Execution) (since waited : Z) (count : nat)
    (holders : gmap string Execution) (now : instant) (f : gmap (string * string) instant)
    (rule : RuleConfig) : M St (gmap (string * string) instant * list (string * string)) :=
  match rule_limit JobBlocked rule with
  | None => mret (f, [])
  | Some (limit, secs) =>
      if (waited <? secs) || negb (glob_match (ru_job_key_glob rule) key) then mret (f, [])
      else
        let k := (ru_name rule, ex_id oldest) in
        if negb (fires_again (rule_repeat rule) (f !! k) now) then mret (f, [])
        else
          _ ← dispatch_rule transport rule alerts
                (blocked_context key oldest since waited limit count (blocked_cause (holders !! key)));
          mret (<[k := now]> f, [(ru_name rule, key)])
  end.

Definition blocked_job (by_job : gmap string (Execution * instant * nat))
    (holders : gmap string Execution) (now : instant) (key : string)
    (f : gmap (string * string) instant)
    : M St (gmap (string * string) instant * list (string * string)) :=
  match by_job !! key with
  | None => mret (f, [])
  | Some (oldest, since, count) =>
      let waited := num_seconds (now - since) in
      if waited <=? 0 then mret (f, [])
      else each_rule (blocked_rule key oldest since waited count holders now) (al_rules alerts) f
  end.

(** [order] is the order in which the jobs are visited. *)
Definition sweep_blocked (order : list string) (now : instant) (f : gmap (string * string) instant)
    : M St (gmap (string * string) instant * list (string * string)) :=
  r ← call (FindQueued claim_sweep_limit);
  match r with
  | Err _ => mret (f, [])
  | Ok queued =>
      let by_job := foldl add_waiting ∅ queued in
      let f := base.filter (fun kv => kv.1.2 ∈ map ex_id queued) f in
      match queued with
      | [] => mret (f, [])
      | _ =>
          r ← call (ListClaimedOlderThan now claim_sweep_limit);
          let holders := match r with Ok claimed => foldl add_holder ∅ claimed | Err _ => ∅ end in
          each_with (blocked_job by_job holders now) order f
      end
  end.

(** ** [sweep_maintenance] *)

Definition maintenance_context (since active : Z) (limit : string) : FailureContext := {|
  fc_job_key := ""; fc_execution_id := "";
  fc_error := "maintenance active since " ++ show_utc since ++ ", for " ++ show_uint active
              ++ "s (expected within " ++ limit ++ ") — dispatch is still frozen";
  fc_attempt := 0; fc_reason := MAINTENANCE_ACTIVE_REASON; fc_consecutive := 1 |}.
Definition maintenance_rule (since now : instant) (f : gmap (string * Z) instant)
    (rule : RuleConfig) : M St (gmap (string * Z) instant * list string) :=
  let active := Z.max (num_seconds (now - since)) 0 in
  match rule_limit MaintenanceActive rule with
  | None => mret (f, [])
  | Some (limit, secs) =>
      if active <? secs then mret (f, [])
      else
        let k := (ru_name rule, since) in
        if negb (fires_again (rule_repeat rule) (f !! k) now) then mret (f, [])
        else
          _ ← dispatch_rule transport rule alerts (maintenance_context since active limit);
          mret (<[k := now]> f, [ru_name rule])
  end.
Definition sweep_maintenance (since now : instant) (f : gmap (string * Z) instant)
    : M St (gmap (string * Z) instant * list string) :=
  each_rule (maintenance_rule since now) (al_rules alerts) f.

(** ** [sweep] *)

Definition has_rule (trigger : RuleTrigger) : bool :=
  existsb (fun r => bool_decide (ru_trigger r = trigger)) (al_rules alerts).

Definition sweep (jobs : gmap string JobConfig) (triggers : option (gmap string Trigger))
    (m : option MaintenanceState) (order : list string) (now : instant) (f : Fired)
    : M St (Fired * WatchdogResult) :=
  dead ← get_app (fun a => map runner_id (by_status_with_ttl (registry a) Dead now (lease_ttl_secs a)));
  requeued ← collect (sweep_dead_runner jobs now) dead;
  _ ← modify_app (fun a => foldl evict_runner a dead);
  expired ← expire_queued_by_ttl jobs now;
  let since := m ≫= fun m => active_since m now in
  let live := bool_decide (since = None) in
  '(sla, sla_missed) ← (if live && has_rule JobSlaMissed then sweep_sla_missed now (sla_fired f)
                        else mret (sla_fired f, []));
  '(missed, missed_fires) ←
    (if live && has_rule JobMissedFire then sweep_missed_fires triggers now (missed_fired f)
     else mret (missed_fired f, []));
  '(blocked, blocked_alerts) ←
    (if live && has_rule JobBlocked then sweep_blocked order now (blocked_fired f)
     else mret (blocked_fired f, []));
  '(maint, maintenance_alerts) ←
    match since with
    | Some since => sweep_maintenance since now (maintenance_fired f)
    | None => mret (maintenance_fired f, [])
    end;
  stale ← sweep_stale_claims jobs claim_sweep_limit now;
  reconciled ← reconcile_stranded_queued jobs now;
  cleared ← sweep_expired_overrides now;
  acks ← sweep_expired_acks transport jobs alerts now;
  mret (MkFired sla missed blocked maint,
        {| wr_dead_runners := dead; wr_requeued := requeued; wr_stale_claims := stale;
           wr_expired := expired; wr_reconciled := reconciled; wr_sla_missed := sla_missed;
           wr_missed_fires := missed_fires; wr_maintenance_alerts := maintenance_alerts;
           wr_blocked_alerts := blocked_alerts; wr_cleared_overrides := cleared;
           wr_expired_acks := acks |}).
End AlertSweeps.
