(* ===== verification/ServerFacts.v ===== *)
(** * The server keeps its execution rows well-formed

    Every operation of the server that runs on its own (a poll, a completion,
    a watchdog sweep, the retention pass, the restore at boot, a
    deregistration) as one step of the whole server, and the invariant all of
    them keep together, whatever the store calls return and however the
    operations follow each other. *)

From S2P Require Import Prelude RustStr Chrono Schedule Trigger RunnerTypes Queue Registry RunnerApi.
From S2P Require Import Durations Execution JobConfig Quota RegisterFire Restore Scheduler.
From S2P Require Import Store StoreCalls Sqlite SqliteFacts Lifecycle Server.
From S2P Require Import Alerts DemoServer Requeue Dispatch TriggerApi DispatchFacts Completion CompletionFacts.
From S2P Require Import Caller ExecutionApi Watchdog WatchdogFacts WatchdogAlerts.
From stdpp Require Import relations.

Local Open Scope string_scope.
Local Open Scope Z_scope.

(** ** Operations *)

Inductive ServerOp `{J : Json} `{C : Chrono} :=
| OpTick (triggers : gmap string Trigger) (jobs : gmap string JobConfig) (quota : QuotaGuard)
    (pending : list PendingRegisterFire) (m : MaintenanceState) (order : list string)
    (mono : string -> Z) (now : instant)
| OpRestore (jobs : list JobConfig) (order : list string)
| OpPoll (binding : bool) (ctx : CallerContext) (jobs : option (list JobConfig)) (m : MaintenanceState)
    (order : list string) (req : PollRequest)
| OpTakeover (jobs : option (list JobConfig)) (rid : string)
| OpComplete (binding : bool) (ctx : CallerContext) (closed : bool) (event : CompletionEvent)
| OpProcess (jobs : list JobConfig) (random : f64) (event : CompletionEvent)
| OpSweep (jobs : gmap string JobConfig) (triggers : option (gmap string Trigger))
    (m : option MaintenanceState) (order : list string) (now : instant) (f : Fired)
| OpPrune (jobs : gmap string JobConfig) (order : list string) (now : instant) (retention : option Z)
| OpDeregister (jobs : option (list JobConfig)) (rid : string)
| OpTrigger (jobs : option (list JobConfig)) (window : Z) (refused : option Z) (req : TriggerRequest)
| OpRenew (binding : bool) (ctx : CallerContext) (rid eid : string)
| OpEvents (binding : bool) (ctx : CallerContext) (id : string) (events : list WorkEvent)
| OpCancel (ctx : CallerContext) (id : string)
| OpReplay (jobs : option (list JobConfig)) (diff : bool -> Z -> string -> string) (ctx : CallerContext)
    (id : string) (body : option bool)
| OpDeleteLetter (ctx : CallerContext) (id : string)
| OpBulkDelete (ctx : CallerContext) (req : BulkDeleteRequest).

Section Ops.
  Context `{C : Chrono} `{J : Json} `{E : Env} {St : Type} `{SO : StoreOps St}.
  Context (transport : string -> ChannelConfig -> string -> FailureContext -> instant -> Sent).
  Context (alerts : AlertsConfig).

(** A tick of the scheduler loop, which keeps its triggers, rate limit and
    pending adoptions to itself and shares the store, the runner state and the
    ids. *)
Definition run_tick (trs : gmap string Trigger) (jobs : gmap string JobConfig) (g : QuotaGuard)
    (pending : list PendingRegisterFire) (m : MaintenanceState) (order : list string)
    (mono : string -> Z) (now : instant) : M St TickResult := fun w =>
  let '(l, r) := tick json_strings uuid
                   (MkLoop trs jobs (w_store w) (w_app w) g pending m (w_ids w)) order mono now in
  (MkWorld (store l) (runner l) (w_throttle w) (w_clock w) (uuids_drawn l), r).

(** One round of a long poll: what other tasks do between two rounds is
    operations of its own. *)
Definition run_op (op : ServerOp) : M St unit :=
  match op with
  | OpTick trs jobs g pending m order mono now =>
      _ ← run_tick trs jobs g pending m order mono now; mret tt
  | OpRestore jobs order => _ ← restore_queued_executions jobs order; mret tt
  | OpPoll binding ctx jobs m order req => _ ← poll_request true jobs binding ctx m order [] req; mret tt
  | OpTakeover jobs rid => takeover_requeue jobs rid
  | OpComplete binding ctx closed event => _ ← complete_request true binding ctx closed event; mret tt
  | OpProcess jobs random event => _ ← process transport jobs alerts random event; mret tt
  | OpSweep jobs triggers m order now f =>
      _ ← sweep transport alerts CLAIM_SWEEP_LIMIT jobs triggers m order now f; mret tt
  | OpPrune jobs order now retention => _ ← prune_executions jobs order now retention; mret tt
  | OpDeregister jobs rid => deregister_runner true jobs rid
  | OpTrigger jobs window refused req => _ ← handle_trigger true jobs window refused req; mret tt
  | OpRenew binding ctx rid eid => _ ← handle_renew true binding ctx rid eid; mret tt
  | OpEvents binding ctx id events => _ ← handle_events true binding ctx id events; mret tt
  | OpCancel ctx id => _ ← handle_cancel true ctx id; mret tt
  | OpReplay jobs diff ctx id body => _ ← handle_replay true jobs diff ctx id body; mret tt
  | OpDeleteLetter ctx id => _ ← handle_delete true ctx id; mret tt
  | OpBulkDelete ctx req => _ ← handle_bulk_delete true ctx req; mret tt
  end.
End Ops.

Section Facts.
  Context `{C : Chrono} `{J : Json} `{E : Env} {St : Type} `{SL : StoreLaws St}.
  Context (transport : string -> ChannelConfig -> string -> FailureContext -> instant -> Sent).

(** ** The store through a tick *)

Section TickStore.
  Context (R : St -> St -> Prop) `{!PreOrder R}.
  Context (R_state : forall s row, R s (upsert_job_state s row).1)
          (R_fire : forall s row, R s (upsert_register_fire s row).1)
          (R_create : forall s ex, fresh_row ex -> R s (create_execution s ex).1)
          (R_advance : forall s ex row, fresh_row ex -> R s (create_execution_and_advance_job_state s ex row).1).

Lemma queued_row_ok job id fire now : fresh_row (queued_execution json_strings job id fire now).
Proof. by unfold fresh_row, row_ok. Qed.
#[local] Hint Resolve queued_row_ok : croniq.

Lemma foldl_rel {A X} (f : A -> X -> A) (proj : A -> St) l a :
  (forall a x, R (proj a) (proj (f a x))) -> R (proj a) (proj (foldl f a l)).
Proof.
  intros Hf. revert a. induction l as [|x l IH]; intros a; [reflexivity|]. cbn.
  transitivity (proj (f a x)); [apply Hf|apply IH].
Qed.

Lemma dispatch_due_rel l now : R (store l) (store (dispatch_due_register_fires json_strings uuid l now).1).
Proof.
  unfold dispatch_due_register_fires. cbv zeta. cbn [fst store].
  set (a0 := MkDispatch _ _ _ _ _). transitivity (d_store (foldl (dispatch_one json_strings uuid (jobs l)
      (queue (runner l)) now) a0 (List.filter (fun p => prf_due_at p <=? now) (pending_register_fires l)))).
  - change (store l) with (d_store a0). apply (foldl_rel _ d_store). intros a p. unfold dispatch_one.
    destruct (jobs l !! _) as [job|]; [|reflexivity]. destruct (_ && _); [reflexivity|]. cbv zeta.
    destruct (is_ephemeral_job job); [reflexivity|].
    pose proof (R_create (d_store a) (queued_execution json_strings job (uuid (d_uuids a)) now now)) as Hc.
    destruct (create_execution _ _) as [st [x|e]]; cbn in *; auto with croniq.
  - apply (foldl_rel _ (fun st => st)). intros st d. apply R_fire.
Qed.

Lemma skip_rel t fire_at now a : R (t_store a) (t_store (skip_to_store t fire_at now a).2).
Proof. unfold skip_to_store. destruct (skip_fire _ _ _) as [t' row]. apply R_state. Qed.
Lemma persist_rel job t fire now a :
  R (t_store a) (t_store (persist_and_publish json_strings uuid job t fire now a).2).
Proof.
  unfold persist_and_publish. cbv zeta. destruct (is_ephemeral_job job).
  - pose proof (R_state (t_store a) (fired_row (jc_key job) (mark_fired t fire now) fire now)) as Hs.
    destruct (upsert_job_state _ _) as [st [x|e]]; exact Hs.
  - pose proof (R_advance (t_store a) (queued_execution json_strings job (uuid (t_uuids a)) fire now)
      (fired_row (jc_key job) (mark_fired t fire now) fire now)) as Hs.
    destruct (create_execution_and_advance_job_state _ _ _) as [st [x|e]]; cbn in *; auto with croniq.
Qed.
#[local] Hint Resolve skip_rel persist_rel R_state : croniq.

Lemma tick_one_rel js q mono active now t a :
  R (t_store a) (t_store (tick_one json_strings uuid js q mono active now t a).2).
Proof.
  unfold tick_one. destruct (evaluate t now) as [fire|]; [|reflexivity]. destruct active.
  - destruct (bool_decide _); [|reflexivity].
    pose proof (skip_rel t fire now a) as Hs. destruct (skip_to_store t fire now a) as [t' a']. exact Hs.
  - unfold fire_due. destruct (js !! job_key t) as [job|]; [|reflexivity]. cbv zeta.
    destruct (_ && _); [apply R_state|]. destruct (is_ephemeral_job job); [auto with croniq|].
    destruct (at_depth_cap _ _ _); [auto with croniq|].
    destruct (allow _ _ _) as [g []].
    + exact (persist_rel job t fire now (set_t_quota g a)).
    + exact (skip_rel t fire now (set_t_quota g a)).
Qed.

Lemma tick_rel l order mono now : R (store l) (store (tick json_strings uuid l order mono now).1).
Proof.
  unfold tick. cbv zeta.
  set (start := if negb _ && _ then _ else _). assert (R (store l) (store start.1)) as Hd.
  { unfold start. destruct (negb _ && _); [apply dispatch_due_rel|reflexivity]. }
  destruct start as [l1 adopted]. cbn [fst] in Hd.
  assert (forall trs a, R (t_store a) (t_store (tick_loop json_strings uuid (jobs l1) (queue (runner l1)) mono
            (is_active (maintenance l) now) now order trs a).2)) as Hloop.
  { induction order as [|key order IH]; intros trs a; cbn [tick_loop]; [reflexivity|].
    destruct (trs !! key) as [t|]; [|apply IH].
    pose proof (tick_one_rel (jobs l1) (queue (runner l1)) mono (is_active (maintenance l) now) now t a) as H1.
    destruct (tick_one _ _ _ _ _ _ _ _ _) as [t' a']. cbn in H1. by transitivity (t_store a'). }
  specialize (Hloop (triggers l1) (MkAcc (store l1) (quota l1) (uuids_drawn l1) [] adopted [])).
  destruct (tick_loop _ _ _ _ _ _ _ _ _ _) as [trs a]. cbn in *. by transitivity (store l1).
Qed.
End TickStore.

(** ** The queue through a tick *)

Lemma queue_foldl {A} (f : AppState -> A -> AppState) l a :
  (forall a x, queue (f a x) = queue a) -> queue (foldl f a l) = queue a.
Proof. intros Hf. revert a. induction l as [|x l IH]; intros a; [done|]. cbn. by rewrite IH. Qed.

Lemma enqueue_wave_queue q wave : queue_inv q -> queue_inv (enqueue_wave q wave).1.
Proof.
  revert q. induction wave as [|x wave IH]; intros q Hq; cbn [enqueue_wave]; [done|].
  destruct (is_ephemeral x); [|apply IH; exact (queue_step_inv _ _ Hq (qstep_enqueue q x))].
  pose proof (queue_step_inv _ _ Hq (qstep_remove_job q (wi_job_key x))) as H1.
  destruct (remove_job q (wi_job_key x)) as [q' replaced].
  specialize (IH _ (queue_step_inv _ _ H1 (qstep_enqueue q' x))). by destruct (enqueue_wave _ wave).
Qed.

Lemma publish_queue r wave now : queue_inv (queue r) -> queue_inv (queue (publish_wave r wave now)).
Proof.
  intros Hq. unfold publish_wave. destruct wave as [|x wave]; [done|].
  pose proof (enqueue_wave_queue (queue r) (x :: wave) Hq) as H1.
  destruct (enqueue_wave (queue r) (x :: wave)) as [q eph]. rewrite queue_foldl; [done|].
  intros a [[id key] [|r0 replaced]]; done.
Qed.

Lemma tick_queue (l : SchedulerLoop (St := St)) order mono now :
  queue_inv (queue (runner l)) -> queue_inv (queue (runner (tick json_strings uuid l order mono now).1)).
Proof.
  intros Hq. unfold tick. cbv zeta. set (start := if negb _ && _ then _ else _).
  assert (queue_inv (queue (runner start.1))) as Hs.
  { unfold start. destruct (negb _ && _); [|done]. by apply publish_queue. }
  destruct start as [l1 adopted]. destruct (tick_loop _ _ _ _ _ _ _ _ _ _). by apply publish_queue.
Qed.

(** ** What every operation keeps of the store and the queue *)

(** A change of the runner state that keeps the queue exact. *)
Definition queue_kept (f : AppState -> AppState) : Prop :=
  forall a, queue_inv (queue a) -> queue_inv (queue (f a)).
Lemma queue_same_kept f : (forall a, queue (f a) = queue a) -> queue_kept f.
Proof. intros Hf a Hq. by rewrite Hf. Qed.
Lemma clear_lease_queue a rid id : queue (clear_lease a rid id) = queue a.
Proof. unfold clear_lease. by repeat case_match. Qed.
Lemma touch_leases_queue a rid ids now : queue (touch_leases a rid ids now) = queue a.
Proof. unfold touch_leases. by destruct ids. Qed.
Lemma tally_items_queue f l a : queue (tally_items f l a) = queue a.
Proof. apply queue_foldl. intros b x. by destruct (is_ephemeral x). Qed.
Lemma drop_reaped_queue l a : queue (foldl drop_lease (foldl drop_claim a l) l) = queue a.
Proof.
  rewrite !queue_foldl; [done|..]; intros b [[rid|] id]; try done. apply clear_lease_queue.
Qed.
Lemma evict_queue l a : queue (foldl evict_runner a l) = queue a.
Proof. by apply queue_foldl. Qed.
Lemma remove_kept id : queue_kept (fun a => set_queue (Queue.remove (queue a) id).1 a).
Proof. intros a Hq. exact (queue_step_inv _ _ Hq (qstep_remove (queue a) id)). Qed.
Lemma enqueue_kept item : queue_kept (fun a => (let '(q, ok) := enqueue (queue a) item in (set_queue q a, ok)).1).
Proof.
  intros a Hq. pose proof (queue_step_inv _ _ Hq (qstep_enqueue (queue a) item)) as H.
  by destruct (enqueue (queue a) item).
Qed.
#[local] Hint Resolve remove_kept enqueue_kept : croniq.
#[local] Hint Extern 5 (queue_kept _) =>
  apply queue_same_kept; intros ?; rewrite ?tally_items_queue, ?touch_leases_queue, ?clear_lease_queue,
    ?drop_reaped_queue, ?evict_queue; repeat case_match; reflexivity : croniq.

(** A call an operation may make: the rows it creates are fresh, a completion
    ends the execution, and only the ids in [freed] are released. *)
Definition call_fine (freed : string -> Prop) {A} (c : Call A) : Prop :=
  match c with
  | ReleaseRunner rid => freed rid
  | CreateExecution ex | CreateAndAdvance ex _ | ReplayDeadLetter _ ex => fresh_row ex
  | CompleteExecution _ _ st _ _ _ _ => ended st = true
  | _ => True
  end.
Lemma call_fine_ok freed {A} (c : Call A) : call_fine freed c -> call_ok c.
Proof. by destruct c. Qed.

(** A relation on stores that every such call keeps, every operation keeps. *)
Section Stores.
  Context (Rs : St -> St -> Prop) `{!PreOrder Rs} (freed : string -> Prop).
  Context (Rs_run : forall A (c : Call A) s, call_fine freed c -> Rs s (run s c).1).

Definition moves (w w' : World St) : Prop :=
  Rs (w_store w) (w_store w') /\ (queue_inv (queue (w_app w)) -> queue_inv (queue (w_app w'))).
#[local] Instance moves_preorder : PreOrder moves.
Proof.
  unfold moves. split; [by intros w|]. intros a b c [H1 Q1] [H2 Q2].
  split; [by transitivity (w_store b)|auto].
Qed.

Lemma life_call {A} (c : Call A) : call_fine freed c -> keeps moves (call c).
Proof.
  intros Hc w w' r (Hrun & Ha & _)%call_eq. unfold moves. pose proof (Rs_run A c (w_store w) Hc) as H.
  rewrite Hrun in H. by rewrite Ha.
Qed.
Lemma life_uuid : keeps moves new_uuid.
Proof. by intros w w' a [= <- _]. Qed.
Lemma life_now : keeps moves utc_now.
Proof. by intros w w' a [= <- _]. Qed.
Lemma life_throttle {A : Type} (f : World St -> gmap (string * string) instant) (g : World St -> A) :
  keeps moves (fun w => (set_throttle (f w) w, g w)).
Proof. by intros w w' a [= <- _]. Qed.
Lemma life_read {A : Type} (g : World St -> A) : keeps moves (fun w => (w, g w)).
Proof. by intros w w' a [= <- _]. Qed.
Lemma life_get {A : Type} (g : AppState -> A) : keeps moves (get_app g).
Proof. by intros w w' a [= <- _]. Qed.
Lemma life_modify f : queue_kept f -> keeps moves (modify_app f).
Proof. intros Hf w w' a [= <- _]. split; [reflexivity|]. apply Hf. Qed.
Lemma life_update {A} (f : AppState -> AppState * A) :
  queue_kept (fun a => (f a).1) -> keeps moves (update_app f).
Proof.
  intros Hf w w' a. unfold update_app. specialize (Hf (w_app w)). cbn beta in Hf. destruct (f (w_app w)) as [b r].
  intros [= <- _]. split; [reflexivity|exact Hf].
Qed.
#[local] Hint Resolve life_uuid life_now life_throttle life_read life_get life_modify life_update : croniq.
#[local] Hint Extern 2 (keeps moves (call _)) => apply life_call; exact I : croniq.

Lemma life_event aty aid act tty tid : keeps moves (record_event aty aid act tty tid).
Proof. unfold record_event. keeps_all. Qed.
Lemma life_enqueue item : keeps moves (enqueue_item item).
Proof. unfold enqueue_item. keeps_all. Qed.
#[local] Hint Resolve life_event life_enqueue : croniq.

Lemma life_dispatch_rule alerts rule ctx : keeps moves (dispatch_rule transport rule alerts ctx).
Proof.
  unfold dispatch_rule, get_override, held_back, deliver_to_channels, dispatch, record_delivery. keeps_all.
Qed.
#[local] Hint Resolve life_dispatch_rule : croniq.

(** ** Requeues *)

Lemma life_cancel_each now l : keeps moves (cancel_each now l).
Proof. induction l; cbn [cancel_each]; keeps_all. Qed.
#[local] Hint Resolve life_cancel_each : croniq.
Lemma life_restore_job job l : keeps moves (restore_job job l).
Proof. unfold restore_job, enqueue_rows, cancel_on_restore. keeps_all. Qed.
#[local] Hint Resolve life_restore_job : croniq.
Lemma life_restore jobs order : keeps moves (restore_queued_executions jobs order).
Proof.
  unfold restore_queued_executions. keeps_all. induction order; cbn [restore_groups]; keeps_all.
Qed.

Section Resolve.
  Context (resolve : string -> M St (option JobConfig)) (Hresolve : forall k, keeps moves (resolve k)).
  #[local] Hint Resolve Hresolve : croniq.
Lemma life_requeued id : keeps moves (enqueue_requeued_execution resolve id).
Proof. unfold enqueue_requeued_execution. keeps_all. Qed.
#[local] Hint Resolve life_requeued : croniq.
Lemma life_abandoned rid now : keeps moves (requeue_abandoned_for_runner resolve rid now).
Proof. unfold requeue_abandoned_for_runner. keeps_all. Qed.
Lemma life_requeue_log ex now msg : keeps moves (record_requeue_in_log ex now msg).
Proof. unfold record_requeue_in_log. keeps_all. Qed.
#[local] Hint Resolve life_requeue_log : croniq.
Lemma life_release order rid reported now :
  keeps moves (release_unreported_claims resolve order rid reported now).
Proof. unfold release_unreported_claims, release_one. keeps_all. Qed.
End Resolve.
#[local] Hint Resolve life_requeued life_abandoned life_requeue_log life_release : croniq.

(** ** Dispatch *)

Lemma life_lookup jobs k : keeps moves (lookup_job jobs k).
Proof. unfold lookup_job. keeps_all. Qed.
#[local] Hint Resolve life_lookup : croniq.

Lemma life_slot x b : keeps moves (slot_free true x b).
Proof. unfold slot_free, has_free_concurrency_slot, has_free_group_slot. keeps_all. Qed.
#[local] Hint Resolve life_slot : croniq.
Lemma life_scan now caps l : forall i best b, keeps moves (scan_best_st now caps (slot_free true) l i best b).
Proof. induction l; intros i best b; cbn [scan_best_st]; keeps_all. Qed.
#[local] Hint Resolve life_scan : croniq.
Lemma life_dequeue now caps b : keeps moves (dequeue_where_st true now caps b).
Proof.
  intros w w' r (w1 & q & [= <- <-] & Hrun)%bind_eq.
  apply bind_eq in Hrun as (w2 & [b' best] & Hscan & Hrun).
  pose proof (life_scan _ _ _ _ _ _ _ _ _ Hscan) as Hm.
  destruct best as [[rank i]|]; [|by injection Hrun as <- _].
  destruct (items (queue (w_app w)) !! i) as [item|] eqn:Ei; [|by injection Hrun as <- _].
  apply bind_eq in Hrun as (w3 & u & [= <- <-] & [= <- _]). destruct Hm as [Hs _].
  split; [exact Hs|]. intros Hq. by apply delete_inv.
Qed.
#[local] Hint Resolve life_dequeue : croniq.
Lemma life_pick now caps cap : forall b, keeps moves (pick_items true now caps cap b).
Proof. induction cap; intros b; cbn [pick_items]; keeps_all. Qed.
#[local] Hint Resolve life_pick : croniq.
Lemma life_retain rid now l : keeps moves (retain_claimed rid now l).
Proof. induction l; cbn [retain_claimed]; unfold keep_claimed; keeps_all. Qed.
#[local] Hint Resolve life_retain : croniq.
Lemma life_try_dequeue rid caps cap : keeps moves (try_dequeue_for true rid caps cap).
Proof. unfold try_dequeue_for, hand_back. keeps_all. Qed.
#[local] Hint Resolve life_try_dequeue : croniq.
Lemma life_takeover jobs rid : keeps moves (takeover_requeue jobs rid).
Proof. unfold takeover_requeue. keeps_all. Qed.
#[local] Hint Resolve life_takeover : croniq.
Lemma life_poll refused jobs m order req : keeps moves (handle_poll true jobs refused m order [] req).
Proof.
  unfold handle_poll, leases_held_by, held_in_store. cbn [long_poll]. unfold poll_round. keeps_all.
Qed.

(** ** Completions *)

Lemma life_finish event id st err rs now :
  ended st = true -> keeps moves (finish event id st err rs now).
Proof. intros Hst. unfold finish. by apply life_call. Qed.
Lemma life_fire_alerts alerts key event reason : keeps moves (fire_alerts transport alerts key event reason).
Proof. unfold fire_alerts, evaluate_failure. keeps_all. Qed.
#[local] Hint Resolve life_finish life_fire_alerts : croniq.
Lemma life_end_incident alerts key eid : keeps moves (end_incident transport alerts key eid).
Proof.
  unfold end_incident, send_recovery, deliver_to_channels, dispatch, record_delivery, get_override,
    close_incident. keeps_all.
Qed.
#[local] Hint Resolve life_end_incident : croniq.
Lemma life_spawn_retry alerts event id ex job now n delay :
  keeps moves (spawn_retry transport alerts event id ex job now n delay).
Proof.
  unfold spawn_retry. apply keeps_bind; [apply _|auto with croniq|intros rid].
  apply keeps_bind; [apply _|by apply life_call|intros r]. keeps_all.
Qed.
#[local] Hint Resolve life_spawn_retry : croniq.
Lemma life_process jobs alerts random event : keeps moves (process transport jobs alerts random event).
Proof. unfold process, resolve_job_config, apply_outcome. keeps_all. Qed.

(** ** The watchdog *)

Lemma life_wd_resolve jobs k : keeps moves (watchdog_resolve jobs k).
Proof. unfold watchdog_resolve. keeps_all. Qed.
#[local] Hint Resolve life_wd_resolve : croniq.
Lemma life_prune_batches c fuel : call_fine freed c -> keeps moves (prune_batches c fuel).
Proof.
  intros Hc. induction fuel as [|fuel IH]; cbn [prune_batches]; [keeps_all|].
  apply keeps_bind; [apply _|by apply life_call|intros [n|]]; keeps_all.
Qed.
Lemma life_prune jobs order now retention : keeps moves (prune_executions jobs order now retention).
Proof.
  assert (keeps moves (prune_jobs jobs order)) as Hj.
  { induction order as [|k order IH]; cbn [prune_jobs]; [keeps_all|].
    apply keeps_bind; [apply _| |intros n; keeps_all].
    destruct (jobs !! k) as [job|]; [destruct (jc_keep_last job)|]; [|keeps_all..].
    by apply life_prune_batches. }
  unfold prune_executions. apply keeps_bind; [apply _| |intros ?; keeps_all].
  destruct retention; [by apply life_prune_batches|keeps_all].
Qed.

Lemma life_each_rule {F B} (body : F -> RuleConfig -> M St (F * list B)) rules f :
  (forall f r, keeps moves (body f r)) -> keeps moves (each_rule body rules f).
Proof. intros Hb. revert f. induction rules; intros f; cbn [each_rule]; keeps_all. Qed.
Lemma life_each_with {X F B} (body : X -> F -> M St (F * list B)) l f :
  (forall x f, keeps moves (body x f)) -> keeps moves (each_with body l f).
Proof. intros Hb. revert f. induction l; intros f; cbn [each_with]; keeps_all. Qed.

Lemma life_sla alerts limit now f : keeps moves (sweep_sla_missed transport alerts limit now f).
Proof.
  unfold sweep_sla_missed. keeps_all. apply life_each_with. intros x g. unfold sla_execution. keeps_all.
  apply life_each_rule. intros h r. unfold sla_rule. keeps_all.
Qed.
Lemma life_missed alerts triggers now f : keeps moves (sweep_missed_fires transport alerts triggers now f).
Proof.
  unfold sweep_missed_fires. keeps_all. apply life_each_with. intros x g. unfold missed_job. keeps_all.
  apply life_each_rule. intros h r. unfold missed_rule. keeps_all.
Qed.
Lemma life_blocked alerts limit order now f : keeps moves (sweep_blocked transport alerts limit order now f).
Proof.
  unfold sweep_blocked. keeps_all. apply life_each_with. intros x g. unfold blocked_job. keeps_all.
  apply life_each_rule. intros h r. unfold blocked_rule. keeps_all.
Qed.
Lemma life_maintenance alerts since now f : keeps moves (sweep_maintenance transport alerts since now f).
Proof.
  unfold sweep_maintenance. apply life_each_rule. intros h r. unfold maintenance_rule. keeps_all.
Qed.
#[local] Hint Resolve life_sla life_missed life_blocked life_maintenance : croniq.

Lemma life_recovery jobs alerts limit now :
  keeps moves (expire_queued_by_ttl jobs now) /\ keeps moves (sweep_stale_claims jobs limit now)
  /\ keeps moves (reconcile_stranded_queued jobs now) /\ keeps moves (sweep_expired_overrides now)
  /\ keeps moves (sweep_expired_acks transport jobs alerts now)
  /\ forall rid, keeps moves (sweep_dead_runner jobs now rid).
Proof.
  unfold expire_queued_by_ttl, expire_one, remove_item, sweep_stale_claims, reap_one,
    reconcile_stranded_queued, reconcile_one, sweep_expired_overrides, sweep_expired_acks, job_exists,
    alert_ack_expired, sweep_dead_runner.
  split_and!; [..|intros rid]; keeps_all.
Qed.

Lemma life_sweep alerts limit jobs triggers m order now f :
  keeps moves (sweep transport alerts limit jobs triggers m order now f).
Proof.
  destruct (life_recovery jobs alerts limit now) as (H1 & H2 & H3 & H4 & H5 & H6).
  unfold sweep. keeps_all.
Qed.

(** ** Ticks and triggers *)

Lemma life_tick trs jobs g pending m order mono now :
  keeps moves (run_tick trs jobs g pending m order mono now).
Proof.
  intros w w' r Hrun. unfold run_tick in Hrun.
  pose proof (tick_rel Rs (fun s row => Rs_run _ (UpsertJobState row) s I)
    (fun s row => Rs_run _ (UpsertRegisterFire row) s I)
    (fun s ex => Rs_run _ (CreateExecution ex) s)
    (fun s ex row => Rs_run _ (CreateAndAdvance ex row) s)
    (MkLoop trs jobs (w_store w) (w_app w) g pending m (w_ids w)) order mono now) as Ht.
  pose proof (tick_queue (MkLoop trs jobs (w_store w) (w_app w) g pending m (w_ids w)) order mono now) as Hq.
  destruct (tick _ _ _ _ _ _) as [l tr]. injection Hrun as <- <-. by split.
Qed.

Lemma life_trigger jobs window refused req : keeps moves (handle_trigger true jobs window refused req).
Proof.
  unfold handle_trigger, find_duplicate, trigger_job, create_triggered. keeps_all.
  apply life_call. by split_and!.
Qed.

(** ** Requests about executions and letters *)

Lemma life_authorize binding ctx rid : keeps moves (authorize_runner true binding ctx rid).
Proof. unfold authorize_runner. keeps_all. Qed.
#[local] Hint Resolve life_authorize : croniq.
Lemma life_guard binding ctx scope rid : keeps moves (work_guard true binding ctx scope rid).
Proof. unfold work_guard. keeps_all. Qed.
Lemma life_record ctx act tty tid diff : keeps moves (record ctx act tty tid diff).
Proof. unfold record. keeps_all. Qed.
#[local] Hint Resolve life_guard life_record : croniq.
Lemma life_renew binding ctx rid eid : keeps moves (handle_renew true binding ctx rid eid).
Proof. unfold handle_renew, renew_refused. keeps_all. Qed.
Lemma life_events binding ctx id events : keeps moves (handle_events true binding ctx id events).
Proof.
  unfold handle_events, authorize_execution. keeps_all.
  induction events; cbn [event_entries]; keeps_all.
Qed.
Lemma life_cancel ctx id : keeps moves (handle_cancel true ctx id).
Proof. unfold handle_cancel, cancel_by_state. keeps_all. Qed.
Lemma life_replay jobs diff ctx id body : keeps moves (handle_replay true jobs diff ctx id body).
Proof.
  unfold handle_replay, trigger_job, replay_letter. keeps_all; apply life_call; by split_and!.
Qed.
Lemma life_delete ctx id : keeps moves (handle_delete true ctx id).
Proof. unfold handle_delete. keeps_all. Qed.
Lemma life_bulk ctx req : keeps moves (handle_bulk_delete true ctx req).
Proof. unfold handle_bulk_delete. keeps_all. Qed.

Lemma life_op alerts op :
  match op with OpDeregister _ rid => freed rid | _ => True end -> keeps moves (run_op transport alerts op).
Proof.
  intros Hfreed. destruct op; cbn [run_op];
    unfold poll_request, complete_request, handle_complete, deregister_runner, release_runner;
    keeps_all; auto using life_renew, life_events, life_cancel, life_replay, life_delete, life_bulk,
      life_tick, life_restore, life_poll, life_process, life_sweep, life_prune, life_trigger.
  by apply life_call.
Qed.

Lemma life_ops alerts ops :
  (forall jobs rid, OpDeregister jobs rid ∈ ops -> freed rid) ->
  keeps moves (each (run_op transport alerts) ops).
Proof.
  induction ops as [|op ops IH]; intros Hf; cbn [each]; [keeps_all|].
  apply keeps_bind; [apply _| |intros _].
  - apply life_op. destruct op; try done. apply (Hf jobs rid). left.
  - apply IH. intros jobs rid Hin. apply (Hf jobs rid). by right.
Qed.
End Stores.

(** ** The whole server *)

(** Rows stay well-formed and move along the life cycle. *)
Definition store_life (s s' : St) : Prop :=
  rows_ok (tables s) -> rows_ok (tables s')
  /\ forall id, rtc (step_row id) (tb_execs (tables s) !! id) (tb_execs (tables s') !! id).
#[local] Instance store_moves_preorder : PreOrder store_life.
Proof.
  split.
  - intros w Hok. split; [done|]. intros id. apply rtc_refl.
  - intros a b c H1 H2 Hok. destruct (H1 Hok) as [Hb S1]. destruct (H2 Hb) as [Hc S2].
    split; [done|]. intros id. by transitivity (tb_execs (tables b) !! id).
Qed.
Lemma store_life_run freed A (c : Call A) s : call_fine freed c -> store_life s (run s c).1.
Proof.
  intros Hc%call_fine_ok Hok. destruct (run s c) as [s' r] eqn:Er.
  destruct (store_calls_life c _ _ _ Hc Hok Er) as [Hok' Hst]. split; [done|].
  intros id. by apply rtc_once.
Qed.

(** A runner id that is not released stays with its credential. *)
Definition keeps_owners (freed : string -> Prop) (s s' : St) : Prop :=
  forall rid row, ~ freed rid -> tb_identities (tables s) !! rid = Some row ->
    tb_identities (tables s') !! rid = Some row.
#[local] Instance keeps_owners_preorder freed : PreOrder (keeps_owners freed).
Proof. split; [by intros s rid row|]. intros a b c H1 H2 rid row Hf Hr. by apply H2, H1. Qed.

Lemma bound_keeps rid owner now t k row :
  tb_identities t !! k = Some row -> tb_identities (bound rid owner now t) !! k = Some row.
Proof.
  intros Hk. rewrite bound_alt. destruct (tb_identities t !! rid) eqn:Er; [done|]. cbn.
  rewrite lookup_insert_ne; [done|]. congruence.
Qed.
Lemma post_identities {A} (c : Call A) t t' r freed k row :
  call_fine freed c -> ~ freed k -> post c t t' r ->
  tb_identities t !! k = Some row -> tb_identities t' !! k = Some row.
Proof.
  intros Hc Hf Hp Hk. destruct c; cbn [post call_fine] in Hp, Hc;
    try solve [by rewrite Hp|by destruct Hp as [-> _]|by destruct Hp as [_ ->]
              |by destruct Hp as (? & _ & ->)|by destruct Hp as (? & _ & -> & _)
              |by destruct Hp as (? & ? & _ & ->)|by destruct Hp as (_ & ? & _ & ->)].
  - destruct Hp as [_ ->]. by apply bound_keeps.
  - rewrite Hp. cbn. rewrite lookup_delete_ne; [done|]. by intros ->.
  - destruct Hp as (m & _ & Hr). destruct r; [by destruct Hr as (d & _ & ->)|by rewrite Hr].
Qed.
Lemma keeps_owners_run freed A (c : Call A) s : call_fine freed c -> keeps_owners freed s (run s c).1.
Proof.
  intros Hc k row Hf Hk. destruct (run s c) as [s' r] eqn:Er. apply run_honours in Er. cbn.
  destruct r as [a|[x|x|x]]; cbn in Er.
  - by eapply post_identities.
  - by destruct Er as [-> _].
  - by destruct Er as [-> _].
  - destruct Er as [->|Er]; [done|]. destruct c; try done.
    + by destruct Er as (m & _ & ->).
    + rewrite Er. by apply bound_keeps.
    + by destruct Er as (l & -> & _).
    + by rewrite Er.
Qed.

(** C29. A runner id stays with the credential that first used it: whatever the
    server does, and whatever the store answers, the binding of an id is neither
    changed nor dropped until that id is deregistered. *)
Theorem runner_id_keeps_its_credential alerts ops (w w' : World St) rid row :
  (forall jobs, OpDeregister jobs rid ∉ ops) -> tb_identities (tbl w) !! rid = Some row ->
  each (run_op transport alerts) ops w = (w', tt) ->
  tb_identities (tbl w') !! rid = Some row.
Proof.
  intros Hops Hrow Hrun. set (freed k := exists jobs, OpDeregister jobs k ∈ ops).
  eapply (life_ops (keeps_owners freed) freed (keeps_owners_run freed) alerts ops); [|exact Hrun| |exact Hrow].
  - intros jobs k Hin. by exists jobs.
  - intros [jobs Hin]. by apply (Hops jobs).
Qed.

(** C2. However ticks, polls, triggers, completions, sweeps, retention passes,
    restores, deregistrations, renewals, log events, cancels, replays and
    deletions of letters follow each other, and whatever the store answers, every execution row stays well-formed (a queued row has no runner, a
    claimed row has one and a claim time, an ended row has an end time, every
    row sits under its own id), and each row has moved only along the edges of
    the life cycle: created queued, claimed while queued, finished or requeued
    while claimed, cancelled before it ended, buried after it failed, deleted
    after it ended. *)
Theorem server_keeps_execution_rows alerts ops (w w' : World St) :
  rows_ok (tbl w) -> each (run_op transport alerts) ops w = (w', tt) ->
  rows_ok (tbl w')
  /\ forall id, rtc (step_row id) (tb_execs (tbl w) !! id) (tb_execs (tbl w') !! id).
Proof.
  intros Hok Hrun.
  exact (proj1 (life_ops store_life (fun _ => True) (store_life_run _) alerts ops (fun _ _ _ => I) _ _ _ Hrun) Hok).
Qed.

(** C23. The in-memory queue stays exact. However ticks (adoption fires included),
    polls with their hand-backs, takeovers, completions with their retries,
    manual triggers, replays, watchdog sweeps with their requeues, expiries and
    reconciliations, restores, cancels and deregistrations follow each other, and
    whatever the store answers: no execution is in the queue twice, so no item
    can be handed to two runners from it, and the counter the depth cap is
    checked against is, for every job, the number of its items in the queue. *)
Theorem server_keeps_queue_exact alerts ops (w w' : World St) :
  queue_inv (queue (w_app w)) -> each (run_op transport alerts) ops w = (w', tt) ->
  NoDup (map execution_id (items (queue (w_app w'))))
  /\ forall k, count_for_job (queue (w_app w')) k
               = length (base.filter (fun i => wi_job_key i = k) (items (queue (w_app w')))).
Proof.
  intros Hq Hrun.
  assert (queue_inv (queue (w_app w'))) as Hq'.
  { assert (PreOrder (fun _ _ : St => True)) as Hpre by done.
    exact (proj2 (life_ops (fun _ _ => True) (fun _ => True) (fun _ _ _ _ => I) alerts ops
             (fun _ _ _ => I) _ _ _ Hrun) Hq). }
  split; [apply Hq'|]. intros k. by apply count_for_job_exact.
Qed.
End Facts.

(** ** An example *)

(** A failed completion retried, a sweep of a stale claim and a restore. *)
Definition demo_ops : list (ServerOp (C := Demo.demo_chrono)) :=
  [OpProcess [demo_retry_job] f64_zero demo_failure;
   OpRestore [demo_job "web:hook" false] ["web:hook"];
   OpCancel (MkCaller CallerUser "u" "u" (Some "u") (Some RAdmin) AmPassword ["admin"] None) "b";
   OpDeregister (Some [demo_job "web:hook" false]) "r1"].
Abbreviation demo_run :=
  (each (run_op (C := Demo.demo_chrono) (fun _ _ _ _ _ => SDelivered) alerts_none) demo_ops demo_failed_world).

Lemma server_keeps_execution_rows_witness :
  rows_ok (tbl demo_run.1) /\ size (tb_execs (tbl demo_run.1)) = 2%nat
  /\ rtc (step_row "a") (tb_execs (tbl demo_failed_world) !! "a") (tb_execs (tbl demo_run.1) !! "a").
Proof.
  assert (size (tb_execs (tbl demo_run.1)) = 2%nat) as Hsize by (vm_compute; reflexivity).
  destruct demo_run as [w' []] eqn:Hrun.
  destruct (server_keeps_execution_rows (C := Demo.demo_chrono) (fun _ _ _ _ _ => SDelivered) alerts_none
    demo_ops demo_failed_world w') as [H1 H2]; [|exact Hrun|].
  - apply demo_rows_ok; [repeat constructor; eexists; reflexivity|]. by apply (bool_decide_unpack _).
  - split; [exact H1|]. split; [exact Hsize|]. apply H2.
Defined.

(** A retry puts one item into the queue; restoring the rows adds no second. *)
Lemma server_keeps_queue_exact_witness :
  len (queue (w_app demo_run.1)) = 1%nat
  /\ NoDup (map execution_id (items (queue (w_app demo_run.1))))
  /\ count_for_job (queue (w_app demo_run.1)) "web:hook" = 1%nat.
Proof.
  assert (len (queue (w_app demo_run.1)) = 1%nat
          /\ base.filter (fun i => wi_job_key i = "web:hook") (items (queue (w_app demo_run.1)))
             = items (queue (w_app demo_run.1))) as [Hlen Hall] by (vm_compute; split; reflexivity).
  destruct demo_run as [w' []] eqn:Hrun. cbn [fst] in *.
  destruct (server_keeps_queue_exact (C := Demo.demo_chrono) (fun _ _ _ _ _ => SDelivered) alerts_none
    demo_ops demo_failed_world w') as [H1 H2];
    [split; [constructor|intros k; exact (lookup_empty k)]|exact Hrun|].
  split; [exact Hlen|]. split; [exact H1|]. rewrite H2, Hall. exact Hlen.
Defined.

Definition demo_bound_world : World SqliteStore :=
  set_store (MkSqlite (set_identities {["r1" := {| ri_owner_id := "client-a"; ri_bound_at := 0 |}]}
                         (tables (w_store demo_failed_world))) []) demo_failed_world.
Definition demo_foreign_ops : list (ServerOp (C := Demo.demo_chrono)) :=
  [OpRenew true (MkCaller CallerApiKey "k" "client-b" None None AmApiKey ["admin"] None) "r1" "a";
   OpDeregister None "r2"].

Lemma runner_id_keeps_its_credential_witness :
  tb_identities (tbl (each (run_op (C := Demo.demo_chrono) (fun _ _ _ _ _ => SDelivered) alerts_none)
                        demo_foreign_ops demo_bound_world).1) !! "r1"
  = Some {| ri_owner_id := "client-a"; ri_bound_at := 0 |}.
Proof.
  destruct (each _ demo_foreign_ops demo_bound_world) as [w' []] eqn:Hrun.
  apply (runner_id_keeps_its_credential (C := Demo.demo_chrono) (fun _ _ _ _ _ => SDelivered) alerts_none
    demo_foreign_ops demo_bound_world w' "r1"); [|vm_compute; reflexivity|exact Hrun].
  intros jobs Hin. unfold demo_foreign_ops in Hin. rewrite !list_elem_of_In in Hin. cbn in Hin.
  destruct Hin as [Hin|[Hin|[]]]; discriminate.
Defined.
