(* ===== verification/SchedulerFacts.v ===== *)
(** * Properties of the scheduler loop

    What one tick does to the queue, the store and the triggers, the
    maintenance switch, the queue depth cap, and adoption fires. *)

From S2P Require Import Prelude RustStr Chrono Ast CalendarArgs DaySets Schedule Calendar.
From S2P Require Import Trigger TriggerSearch TriggerMachine Durations Execution RunnerTypes.
From S2P Require Import Queue Registry RunnerApi Store JobConfig Restore Quota RegisterFire.
From S2P Require Import Scheduler.

Local Open Scope Z_scope.

(** ** Publishing a wave *)

Section Waves.
  Context `{J : Json}.

(** What a wave does to the queued items. *)
Definition wave_step (l : list WorkItem) (item : WorkItem) : list WorkItem :=
  (if is_ephemeral item then filter (fun i => wi_job_key i <> wi_job_key item) l else l) ++ [item].
Definition wave_items (l wave : list WorkItem) : list WorkItem := foldl wave_step l wave.

Lemma wave_step_ids l item id :
  id ∈ map execution_id (wave_step l item) -> id ∈ map execution_id l \/ id = execution_id item.
Proof.
  unfold wave_step. rewrite map_app, elem_of_app. cbn [map]. rewrite list_elem_of_singleton. intros [H|H]; [|by right].
  left. case_if_in H; [|done]. apply list_elem_of_fmap in H as (x & -> & Hx).
  apply list_elem_of_filter in Hx as [_ Hx]. by apply list_elem_of_fmap_2.
Qed.

Lemma enqueue_wave_items q wave :
  queue_inv q -> NoDup (map execution_id wave) ->
  (forall id, id ∈ map execution_id wave -> id ∉ map execution_id (items q)) ->
  queue_inv (enqueue_wave q wave).1 /\ items (enqueue_wave q wave).1 = wave_items (items q) wave.
Proof.
  revert q. induction wave as [|item wave IH]; intros q Hq Hnd Hf; [done|].
  cbn [map] in Hnd. apply NoDup_cons in Hnd as [Hni Hnd].
  assert (execution_id item ∉ map execution_id (items q)) as Hfi by (apply Hf; by left).
  cbn [enqueue_wave]. unfold wave_items. cbn [foldl].
  set (q0 := if is_ephemeral item then (remove_job q (wi_job_key item)).1 else q).
  assert (queue_inv q0) as Hq0 by (unfold q0; case_if; [by apply remove_job_inv|done]).
  assert (items (enqueue q0 item).1 = wave_step (items q) item) as Eq.
  { unfold wave_step, q0. case_if; [|by apply enqueue_fresh].
    rewrite enqueue_fresh; rewrite remove_job_items; [done|].
    intros (x & Hx & Hin)%list_elem_of_fmap. apply list_elem_of_filter in Hin as [_ Hin].
    apply Hfi. rewrite Hx. by apply list_elem_of_fmap_2. }
  destruct (IH (enqueue q0 item).1) as [Hi Hit]; [by apply enqueue_inv|done|..].
  { rewrite Eq. intros id Hid [H| ->]%wave_step_ids; [|done]. by apply (Hf id); [right|]. }
  rewrite Eq in Hit. unfold q0 in Hi, Hit.
  destruct (is_ephemeral item); [|done].
  destruct (remove_job q (wi_job_key item)) as [q1 rep]. cbn [fst] in Hi, Hit.
  by destruct (enqueue_wave (enqueue q1 item).1 wave).
Qed.
Lemma wave_items_source l wave x : x ∈ wave_items l wave -> x ∈ l \/ x ∈ wave.
Proof.
  revert l. induction wave as [|item wave IH]; intros l; cbn; [by left|].
  intros [H|H]%IH; [|right; by right]. unfold wave_step in H.
  apply elem_of_app in H as [H| ->%list_elem_of_singleton]; [|right; by left].
  left. case_if_in H; [|done]. by apply list_elem_of_filter in H as [_ H].
Qed.

(** Items of other jobs stay, and so do those of a job whose wave item is not
    ephemeral. *)
Lemma wave_items_keep l wave x :
  x ∈ l -> (forall i, i ∈ wave -> wi_job_key i = wi_job_key x -> is_ephemeral i = false) ->
  x ∈ wave_items l wave.
Proof.
  revert l. induction wave as [|item wave IH]; intros l Hx Hw; cbn; [done|].
  apply IH; [|intros i Hi; apply Hw; by right].
  unfold wave_step. apply elem_of_app. left. case_if; [|done].
  apply list_elem_of_filter. split; [|done]. intros Hk.
  assert (is_ephemeral item = false) by (apply Hw; [by left|done]). congruence.
Qed.

Lemma wave_items_new l wave x :
  NoDup (map wi_job_key wave) -> x ∈ wave -> x ∈ wave_items l wave.
Proof.
  revert l. induction wave as [|item wave IH]; intros l Hnd Hx; [by apply not_elem_of_nil in Hx|].
  cbn [map] in Hnd. apply NoDup_cons in Hnd as [Hni Hnd]. cbn.
  apply elem_of_cons in Hx as [->|Hx]; [|by apply IH].
  apply wave_items_keep; [apply elem_of_app; right; by left|].
  intros i Hi Hk. destruct Hni. rewrite <- Hk. by apply list_elem_of_fmap_2.
Qed.

Lemma wave_step_count k l item :
  job_count k (wave_step l item)
  = if decide (wi_job_key item = k) then if is_ephemeral item then 1%nat else S (job_count k l)
    else job_count k l.
Proof.
  unfold wave_step. rewrite job_count_app, job_count_cons. change (job_count k []) with 0%nat.
  destruct (is_ephemeral item); rewrite ?job_count_filter; repeat case_decide; subst; try done; lia.
Qed.

Lemma wave_items_count_other k l wave :
  k ∉ map wi_job_key wave -> job_count k (wave_items l wave) = job_count k l.
Proof.
  revert l. induction wave as [|item wave IH]; intros l Hk; [done|]. cbn [map] in Hk.
  apply not_elem_of_cons in Hk as [Hne Hk]. unfold wave_items. cbn [foldl].
  etransitivity; [by apply IH|]. rewrite wave_step_count. by case_decide.
Qed.

Lemma wave_items_count l wave item :
  NoDup (map wi_job_key wave) -> item ∈ wave ->
  job_count (wi_job_key item) (wave_items l wave)
  = if is_ephemeral item then 1%nat else S (job_count (wi_job_key item) l).
Proof.
  revert l. induction wave as [|i wave IH]; intros l Hnd Hi; [by apply not_elem_of_nil in Hi|].
  cbn [map] in Hnd. apply NoDup_cons in Hnd as [Hni Hnd]. unfold wave_items. cbn [foldl].
  apply elem_of_cons in Hi as [->|Hi].
  - etransitivity; [by apply wave_items_count_other|]. rewrite wave_step_count.
    by rewrite decide_True.
  - etransitivity; [by apply IH|]. rewrite wave_step_count, decide_False; [done|].
    intros Hk. apply Hni. rewrite Hk. by apply list_elem_of_fmap_2.
Qed.

(** [publish_wave] changes the queue by the wave and nothing else of the
    queue. *)
Lemma track_queue now r e : queue (track_ephemeral now r e) = queue r.
Proof.
  destruct e as [[id key] rep]. unfold track_ephemeral, bump_ephemeral, record_ephemeral, forget_ephemeral.
  destruct rep; repeat case_if; reflexivity.
Qed.

Lemma publish_wave_queue r wave now : queue (publish_wave r wave now) = (enqueue_wave (queue r) wave).1.
Proof.
  unfold publish_wave. destruct wave as [|item wave]; [done|].
  destruct (enqueue_wave (queue r) (item :: wave)) as [q eph]. cbn [fst].
  change q with (queue (set_queue q r)) at 2. generalize (set_queue q r). clear.
  induction eph as [|e eph IH]; intros r; [done|]. cbn [foldl]. by rewrite IH, track_queue.
Qed.
End Waves.

(** ** Waves a tick builds *)

Section Ticks.
  Context `{C : Chrono} `{J : Json} `{F : Fingerprint} {St : Type} `{JSL : JobStoreLaws St}.
  Context (json_strings : list string -> string) (uuid : nat -> string).
  Context {uuid_inj : Inj (=) (=) uuid}.

Abbreviation tick_one := (tick_one json_strings uuid).
Abbreviation tick_loop := (tick_loop json_strings uuid).
Abbreviation queued_execution := (queued_execution json_strings).

(** A wave built from the ids [n0 .. n-1]: one item per job, the item's mode is
    the job's, and a queued item was below its job's depth cap. *)
Definition wave_ok (js : gmap string JobConfig) (q : WorkQueue) (n0 n : nat)
    (wave : list WorkItem) : Prop :=
  NoDup (map wi_job_key wave) /\ NoDup (map execution_id wave) /\
  Forall (fun item =>
    (exists i, (n0 <= i < n)%nat /\ execution_id item = uuid i) /\
    exists job, js !! wi_job_key item = Some job /\ is_ephemeral item = is_ephemeral_job job
      /\ (is_ephemeral_job job = false -> at_depth_cap q job (wi_job_key item) = false)) wave.

Lemma wave_ok_nil js q n0 n : wave_ok js q n0 n [].
Proof. split_and!; constructor. Qed.

Lemma wave_ok_weaken js q n0 n n' wave :
  wave_ok js q n0 n wave -> (n <= n')%nat -> wave_ok js q n0 n' wave.
Proof.
  intros (H1 & H2 & H3) Hle. split_and!; [done..|]. eapply Forall_impl; [done|].
  intros item [(i & Hi & E) Hj]. split; [|done]. exists i. split; [lia|done].
Qed.

Lemma wave_ok_snoc js q n0 n wave job fa fa' :
  wave_ok js q n0 n wave -> (n0 <= n)%nat -> js !! jc_key job = Some job ->
  jc_key job ∉ map wi_job_key wave ->
  (is_ephemeral_job job = false -> at_depth_cap q job (jc_key job) = false) ->
  wave_ok js q n0 (S n) (wave ++ [job_to_work_item job (uuid n) fa fa' 1]).
Proof.
  intros (H1 & H2 & H3) Hn Hj Hk Hc. split_and!.
  - rewrite map_app. apply NoDup_app. split_and!; [done| |apply NoDup_singleton].
    by intros x Hx ->%list_elem_of_singleton.
  - rewrite map_app. apply NoDup_app. split_and!; [done| |apply NoDup_singleton].
    intros x (item & -> & Hi)%list_elem_of_fmap Hx%list_elem_of_singleton.
    rewrite Forall_forall in H3. destruct (H3 _ Hi) as [(i & Hlt & E) _].
    cbn in Hx. rewrite E in Hx. apply uuid_inj in Hx. lia.
  - apply Forall_app. split.
    + eapply Forall_impl; [done|]. intros item [(i & Hi & E) Hjob]. split; [|done].
      exists i. split; [lia|done].
    + apply Forall_singleton. split; [exists n; split; [lia|done]|]. by exists job.
Qed.

(** The ids the loop will draw are not queued. *)
Definition fresh_from (n : nat) (q : WorkQueue) : Prop :=
  forall i, (n <= i)%nat -> uuid i ∉ map execution_id (items q).

Lemma publish_ok js r wave now n0 n :
  queue_inv (queue r) -> fresh_from n0 (queue r) -> wave_ok js (queue r) n0 n wave ->
  queue_inv (queue (publish_wave r wave now))
  /\ items (queue (publish_wave r wave now)) = wave_items (items (queue r)) wave
  /\ ((n0 <= n)%nat -> fresh_from n (queue (publish_wave r wave now))).
Proof.
  intros Hq Hf (H1 & H2 & H3). rewrite Forall_forall in H3.
  rewrite publish_wave_queue. destruct (enqueue_wave_items (queue r) wave Hq H2) as [Hi Hit].
  { intros id (item & -> & Hitem)%list_elem_of_fmap. destruct (H3 _ Hitem) as [(i & Hlt & ->) _].
    apply Hf. lia. }
  split_and!; [done..|]. intros Hle i Hge. rewrite Hit.
  intros (x & Ex & Hx)%list_elem_of_fmap. apply wave_items_source in Hx as [Hx|Hx].
  - apply (Hf i); [lia|]. rewrite Ex. by apply list_elem_of_fmap_2.
  - destruct (H3 _ Hx) as [(k & Hk & E) _]. rewrite E in Ex. apply uuid_inj in Ex. lia.
Qed.

(** A wave never takes a queued job past its cap. *)
Lemma publish_depth js r wave now n0 n key job :
  queue_inv (queue r) -> fresh_from n0 (queue r) -> wave_ok js (queue r) n0 n wave ->
  js !! key = Some job -> is_ephemeral_job job = false ->
  Z.of_nat (count_for_job (queue r) key) <= default 10 (jc_max_queue_depth job) ->
  Z.of_nat (count_for_job (queue (publish_wave r wave now)) key)
  <= default 10 (jc_max_queue_depth job).
Proof.
  intros Hq Hf Hw Hj He Hc. destruct (publish_ok js r wave now n0 n Hq Hf Hw) as (Hq' & Hit & _).
  destruct Hw as (H1 & _ & H3). rewrite Forall_forall in H3.
  rewrite !count_for_job_exact, Hit in * by done.
  destruct (decide (key ∈ map wi_job_key wave)) as [(item & -> & Hi)%list_elem_of_fmap|Hni];
    [|by rewrite wave_items_count_other].
  rewrite wave_items_count by done. destruct (H3 _ Hi) as [_ (job' & Hj' & -> & Hcap)].
  simplify_eq. rewrite He. specialize (Hcap He). unfold at_depth_cap in Hcap.
  rewrite count_for_job_exact in Hcap by done. b2p. lia.
Qed.
(** ** One trigger of a tick *)

Definition fired_execution (job : JobConfig) (id : string) (fa : instant) : FiredExecution :=
  {| fe_execution_id := id; fe_job_key := jc_key job; fe_fire_at := fa; fe_attempt := 1;
     fe_is_ephemeral := is_ephemeral_job job |}.

(** The trigger fired: its item joins the wave, and the store holds the
    advanced row and, for a queued job, the execution. *)
Definition fired_one (js : gmap string JobConfig) (q : WorkQueue) (now : instant) (t t' : Trigger)
    (a a' : TickAcc) : Prop :=
  exists job fa, let id := uuid (t_uuids a) in
    evaluate t now = Some fa /\ js !! job_key t = Some job
    /\ (is_ephemeral_job job = false -> at_depth_cap q job (job_key t) = false)
    /\ t' = mark_fired t fa now /\ t_uuids a' = S (t_uuids a)
    /\ t_wave a' = t_wave a ++ [job_to_work_item job id fa fa 1]
    /\ t_fired a' = t_fired a ++ [fired_execution job id fa]
    /\ job_states (t_store a')
       = <[jc_key job := fired_row (jc_key job) t' fa now]> (job_states (t_store a))
    /\ executions (t_store a')
       = if is_ephemeral_job job then executions (t_store a)
         else <[id := queued_execution job id fa now]> (executions (t_store a)).

(** The trigger produced no work: nothing joins the wave, no execution is
    written, and at most its own job's row changes. *)
Definition quiet_one (t : Trigger) (a a' : TickAcc) : Prop :=
  t_wave a' = t_wave a /\ t_fired a' = t_fired a
  /\ executions (t_store a') = executions (t_store a)
  /\ (forall k, k <> job_key t -> job_states (t_store a') !! k = job_states (t_store a) !! k).

Lemma same_tables_quiet t a st g n sk :
  same_tables (t_store a) st -> quiet_one t a (MkAcc st g n (t_wave a) (t_fired a) sk).
Proof. intros (E1 & E2 & _). split_and!; cbn; try done. intros k _. by rewrite E1. Qed.

Lemma upsert_quiet t a row st r g n sk :
  js_job_key row = job_key t -> upsert_job_state (t_store a) row = (st, r) ->
  quiet_one t a (MkAcc st g n (t_wave a) (t_fired a) sk)
  /\ register_fires st = register_fires (t_store a).
Proof.
  intros Hk Hu. apply upsert_job_state_spec in Hu. destruct r.
  - destruct Hu as (E1 & E2 & E3). split; [|done]. split_and!; cbn; try done.
    intros k Hne. rewrite E1, lookup_insert_ne; [done|]. congruence.
  - split; [by apply same_tables_quiet|]. by destruct Hu as (_ & _ & ?).
Qed.

Lemma mark_fired_job_key t fa now : job_key (mark_fired t fa now) = job_key t.
Proof. unfold mark_fired. cbv zeta. repeat (case_match; try done). Qed.

Lemma skip_job_key t fa now : job_key (skip_fire_in_memory t fa now) = job_key t.
Proof. exact (mark_fired_job_key t fa now). Qed.

(** What the rollback after a failed write restores: everything but the end of
    a replay, which [mark_fired] may have cleared. *)
Lemma roll_back_spec t fa now :
  roll_back t (mark_fired t fa now) = set_replay_until (replay_until (mark_fired t fa now)) t.
Proof.
  unfold roll_back, mark_fired. cbv zeta. repeat (case_match; try reflexivity).
Qed.

(** What every branch shares. *)
Definition step_frame (t t' : Trigger) (a a' : TickAcc) : Prop :=
  job_key t' = job_key t /\ (t_uuids a <= t_uuids a')%nat
  /\ register_fires (t_store a') = register_fires (t_store a).

Lemma skip_to_store_spec t fa now a :
  let '(t', a') := skip_to_store t fa now a in
  step_frame t t' a a' /\ t_skipped a' = t_skipped a /\ quiet_one t a a'.
Proof.
  unfold skip_to_store. cbn [skip_fire]. set (row := {| js_job_key := _ |}).
  destruct (upsert_job_state (t_store a) row) as [st r] eqn:E. cbn [fst].
  apply (upsert_quiet t a row st r (t_quota a) (t_uuids a) (t_skipped a)) in E;
    [|exact (skip_job_key t fa now)].
  destruct E as [Hq Hr]. split_and!; [|done|exact Hq].
  split_and!; [exact (skip_job_key t fa now)|done|done].
Qed.

Lemma persist_spec js q t fa now a job :
  js !! job_key t = Some job -> jc_key job = job_key t ->
  evaluate t now = Some fa -> (is_ephemeral_job job = false -> at_depth_cap q job (job_key t) = false) ->
  let '(t', a') := persist_and_publish json_strings uuid job t fa now a in
  step_frame t t' a a' /\ t_skipped a' = t_skipped a
  /\ (quiet_one t a a' \/ fired_one js q now t t' a a').
Proof.
  intros Hj Hk He Hc. unfold persist_and_publish. cbv zeta.
  set (row := fired_row _ _ _ _). set (id := uuid (t_uuids a)).
  set (call := if is_ephemeral_job job then _ else _).
  assert (match call with
          | (st, Ok _) => job_states st = <[jc_key job := row]> (job_states (t_store a))
              /\ executions st = (if is_ephemeral_job job then executions (t_store a)
                                  else <[id := queued_execution job id fa now]> (executions (t_store a)))
              /\ register_fires st = register_fires (t_store a)
          | (st, Err _) => same_tables (t_store a) st
          end) as Hcall.
  { unfold call. destruct (is_ephemeral_job job).
    - destruct (upsert_job_state _ row) as [st r] eqn:E. apply upsert_job_state_spec in E. by destruct r.
    - destruct (create_execution_and_advance_job_state _ _ row) as [st r] eqn:E.
      apply create_and_advance_spec in E. by destruct r. }
  destruct call as [st [u|e]].
  - destruct Hcall as (E1 & E2 & E3). split_and!; [|done|].
    + split_and!; [exact (mark_fired_job_key t fa now)|cbn; lia|exact E3].
    + right. exists job, fa. cbv zeta. by split_and!.
  - split_and!; [|done|left; by apply same_tables_quiet].
    split_and!; [exact (mark_fired_job_key t fa now)|cbn; lia|]. by destruct Hcall as (_ & _ & ?).
Qed.

Lemma tick_one_spec js q mono now t a :
  (forall job, js !! job_key t = Some job -> jc_key job = job_key t) ->
  let '(t', a') := tick_one js q mono false now t a in
  step_frame t t' a a' /\ t_skipped a' = t_skipped a
  /\ (quiet_one t a a' \/ fired_one js q now t t' a a').
Proof.
  intros Hkey. unfold Scheduler.tick_one. destruct (evaluate t now) as [fa|] eqn:He.
  2: { split_and!; [done..|left; by split_and!]. }
  unfold fire_due. destruct (js !! job_key t) as [job|] eqn:Hj.
  2: { split_and!; [|done|left; by split_and!]. split_and!; [apply skip_job_key|done|done]. }
  specialize (Hkey job eq_refl). cbv zeta. case_if.
  { destruct (upsert_job_state _ _) as [st r] eqn:E. cbn [fst].
    apply (upsert_quiet t a _ st r (t_quota a) (t_uuids a) (t_skipped a)) in E as [Hq Hr]; [|done].
    split_and!; [|done|by left]. split_and!; [apply mark_fired_job_key|done|done]. }
  case_if; [apply persist_spec; [done..|]; congruence|].
  case_if.
  { pose proof (skip_to_store_spec t fa now a) as H. destruct (skip_to_store t fa now a) as [t' a'].
    destruct H as (? & ? & ?). by split_and!; [| |left]. }
  destruct (allow _ _ _) as [g ok]. destruct ok.
  - pose proof (persist_spec js q t fa now (set_t_quota g a) job Hj Hkey He) as H.
    destruct (persist_and_publish _ _ _ _ _ _) as [t' a']. by apply H.
  - pose proof (skip_to_store_spec t fa now (set_t_quota g a)) as H.
    destruct (skip_to_store _ _ _ _) as [t' a']. destruct H as (? & ? & ?).
    by split_and!; [| |left].
Qed.
(** ** A whole tick *)

Definition trigs_keyed (trs : gmap string Trigger) : Prop := forall k t, trs !! k = Some t -> job_key t = k.
Definition jobs_keyed (js : gmap string JobConfig) : Prop := forall k j, js !! k = Some j -> jc_key j = k.

(** A fire the loop reports, started from the triggers [trs0]: the trigger was
    due at that instant and has advanced, the store holds the advanced row and
    the queued execution, and the item is in the wave. *)
Definition durable_fire (js : gmap string JobConfig) (now : instant) (trs0 trs : gmap string Trigger)
    (st : St) (wave : list WorkItem) (f : FiredExecution) : Prop :=
  exists t job,
    let key := fe_job_key f in let fa := fe_fire_at f in let t' := mark_fired t fa now in
    trs0 !! key = Some t /\ js !! key = Some job /\ evaluate t now = Some fa
    /\ trs !! key = Some t' /\ job_states st !! key = Some (fired_row key t' fa now)
    /\ fe_is_ephemeral f = is_ephemeral_job job
    /\ (is_ephemeral_job job = false ->
        executions st !! fe_execution_id f = Some (queued_execution job (fe_execution_id f) fa now))
    /\ job_to_work_item job (fe_execution_id f) fa fa 1 ∈ wave.

(** The invariant of the loop, with [order] left to visit. *)
Definition loop_inv (js : gmap string JobConfig) (q : WorkQueue) (now : instant)
    (trs0 trs : gmap string Trigger) (st0 : St) (n0 : nat) (order : list string)
    (pre : list FiredExecution) (a : TickAcc) : Prop :=
  trigs_keyed trs /\ (n0 <= t_uuids a)%nat
  /\ register_fires (t_store a) = register_fires st0
  /\ wave_ok js q n0 (t_uuids a) (t_wave a)
  /\ (forall k, k ∈ order -> (k ∉ map wi_job_key (t_wave a)) /\ trs !! k = trs0 !! k)
  /\ (forall id, (forall i, (n0 <= i)%nat -> id <> uuid i) ->
        executions (t_store a) !! id = executions st0 !! id)
  /\ exists new, t_fired a = pre ++ new
     /\ map fe_execution_id new = map execution_id (t_wave a)
     /\ map fe_job_key new = map wi_job_key (t_wave a)
     /\ Forall (durable_fire js now trs0 trs (t_store a) (t_wave a)) new.

Lemma wave_id_old js q n0 n wave id :
  wave_ok js q n0 n wave -> id ∈ map execution_id wave -> id <> uuid n.
Proof.
  intros (_ & _ & H3) (item & -> & Hi)%list_elem_of_fmap. rewrite Forall_forall in H3.
  destruct (H3 _ Hi) as [(i & Hlt & ->) _]. intros He%uuid_inj. lia.
Qed.

(** Fires recorded before stay durable across a step of another trigger. *)
Lemma durable_step js q now trs0 trs n0 key t t' a a' new :
  trs !! key = Some t -> job_key t = key ->
  wave_ok js q n0 (t_uuids a) (t_wave a) -> key ∉ map wi_job_key (t_wave a) ->
  map fe_execution_id new = map execution_id (t_wave a) ->
  map fe_job_key new = map wi_job_key (t_wave a) ->
  jobs_keyed js ->
  quiet_one t a a' \/ fired_one js q now t t' a a' ->
  Forall (durable_fire js now trs0 trs (t_store a) (t_wave a)) new ->
  Forall (durable_fire js now trs0 (<[key := t']> trs) (t_store a') (t_wave a')) new.
Proof.
  intros Hk Hjk Hw Hni Hids Hkeys Hjs Hstep Hd. rewrite Forall_forall in Hd |- *. intros f Hf.
  assert (fe_job_key f <> key) as Hne.
  { intros <-. apply Hni. rewrite <- Hkeys. by apply list_elem_of_fmap_2. }
  assert (fe_execution_id f <> uuid (t_uuids a)) as Hid.
  { eapply wave_id_old; [done|]. rewrite <- Hids. by apply list_elem_of_fmap_2. }
  destruct (Hd f Hf) as (tf & jf & H1 & H2 & H3 & H4 & H5 & H6 & H7 & H8).
  exists tf, jf. cbv zeta. rewrite lookup_insert_ne by done.
  destruct Hstep as [(Ew & _ & Ee & Es)|(job & fa & _ & Hj & _ & _ & _ & Ew & _ & Es & Ee)].
  - rewrite Ew, Ee, Es by congruence. by split_and!.
  - rewrite Ew, Es, Ee. rewrite lookup_insert_ne by (rewrite (Hjs _ _ Hj); congruence).
    split_and!; try done.
    + intros He. case_match; [by apply H7|]. rewrite lookup_insert_ne by done. by apply H7.
    + apply elem_of_app. by left.
Qed.

Lemma trigs_keyed_insert trs key t : trigs_keyed trs -> job_key t = key -> trigs_keyed (<[key := t]> trs).
Proof. intros Htk Ht k t1 [[<- <-]|[_ H]]%lookup_insert_Some; [done|by apply Htk]. Qed.

(** The fires of the wave after one more trigger was visited. *)
Lemma loop_inv_fires js q now trs0 trs n0 key t t' a a' pre new :
  trs !! key = Some t -> trs0 !! key = Some t -> job_key t = key ->
  wave_ok js q n0 (t_uuids a) (t_wave a) -> key ∉ map wi_job_key (t_wave a) -> jobs_keyed js ->
  quiet_one t a a' \/ fired_one js q now t t' a a' ->
  t_fired a = pre ++ new ->
  map fe_execution_id new = map execution_id (t_wave a) ->
  map fe_job_key new = map wi_job_key (t_wave a) ->
  Forall (durable_fire js now trs0 trs (t_store a) (t_wave a)) new ->
  exists new', t_fired a' = pre ++ new'
    /\ map fe_execution_id new' = map execution_id (t_wave a')
    /\ map fe_job_key new' = map wi_job_key (t_wave a')
    /\ Forall (durable_fire js now trs0 (<[key := t']> trs) (t_store a') (t_wave a')) new'.
Proof.
  intros Ht Ht0 Hjkt Hw Hkw Hjs Hstep Hfd Hids Hkeys Hdur.
  pose proof (durable_step js q now trs0 trs n0 key t t' a a' new Ht Hjkt Hw Hkw Hids Hkeys Hjs
                Hstep Hdur) as Hold.
  destruct Hstep as [(Ew & Ef & _)|(job & fa & He & Hj & _ & Et & _ & Ew & Ef & Es & Ee)].
  { exists new. rewrite Ef, Ew, Hfd in *. by split_and!. }
  set (f := fired_execution job (uuid (t_uuids a)) fa) in *.
  exists (new ++ [f]). rewrite Ef, Hfd, app_assoc, Ew, !map_app, Hids, Hkeys in *.
  split_and!; [done..|]. apply Forall_app. split; [done|]. apply Forall_singleton.
  pose proof (Hjs _ _ Hj) as Hjc. exists t, job. cbn. rewrite Hjc, Hjkt in *.
  rewrite lookup_insert_eq, Es, Ee, lookup_insert_eq, Et. split_and!; try done.
  - intros ->. apply lookup_insert_eq.
  - apply elem_of_app. right. by left.
Qed.

Lemma tick_loop_inv js q mono now order trs0 trs st0 n0 pre a :
  jobs_keyed js -> NoDup order -> loop_inv js q now trs0 trs st0 n0 order pre a ->
  let '(trs', a') := tick_loop js q mono false now order trs a in
  loop_inv js q now trs0 trs' st0 n0 [] pre a' /\ t_skipped a' = t_skipped a.
Proof.
  intros Hjs Hnd. revert trs a. induction Hnd as [|key order Hni Hnd IH]; intros trs a Hinv.
  { done. }
  destruct Hinv as (Htk & Hle & Hrf & Hw & Hord & Hex & new & Hfd & Hids & Hkeys & Hdur).
  cbn [Scheduler.tick_loop]. destruct (Hord key) as [Hkw Ht0]; [by left|].
  destruct (trs !! key) as [t|] eqn:Ht.
  2: { apply IH. split_and!; try done; [|by exists new]. intros k Hk. apply Hord. by right. }
  pose proof (tick_one_spec js q mono now t a) as Hs.
  destruct (tick_one js q mono false now t a) as [t' a'].
  destruct Hs as ((Hjk & Hu & Hr) & Hsk & Hstep).
  { intros job Hj. by apply Hjs in Hj. }
  pose proof (Htk _ _ Ht) as Hjkt. rewrite <- Hsk.
  apply IH. split_and!; [apply trigs_keyed_insert; [done|congruence]|lia|congruence|..].
  - destruct Hstep as [(Ew & _)|(job & fa & _ & Hj & Hcap & _ & Eu & Ew & _)].
    + rewrite Ew. by eapply wave_ok_weaken.
    + rewrite Ew, Eu. pose proof (Hjs _ _ Hj) as Hjc.
      apply wave_ok_snoc; rewrite ?Hjc; try done. by rewrite Hjkt.
  - intros k Hk. destruct (Hord k) as [Hk1 Hk2]; [by right|].
    assert (k <> key) as Hne by (intros ->; done). rewrite lookup_insert_ne by done.
    split; [|done]. destruct Hstep as [(Ew & _)|(job & fa & _ & Hj & _ & _ & _ & Ew & _)].
    + by rewrite Ew.
    + rewrite Ew, map_app, not_elem_of_app. split; [done|]. cbn.
      rewrite (Hjs _ _ Hj), Hjkt, list_elem_of_singleton. done.
  - intros id Hid. rewrite <- (Hex id Hid).
    destruct Hstep as [(_ & _ & Ee & _)|(job & fa & _ & _ & _ & _ & _ & _ & _ & _ & Ee)]; rewrite Ee;
      [done|]. case_match; [done|]. apply lookup_insert_ne. intros <-. by apply (Hid (t_uuids a)).
  - by eapply loop_inv_fires.
Qed.

(** ** Adoption fires *)

(** A dispatched adoption fire: the job's execution row and its item. *)
Definition durable_adoption (js : gmap string JobConfig) (now : instant) (st : St)
    (wave : list WorkItem) (d : PendingRegisterFire * string * bool) : Prop :=
  let '(p, id, eph) := d in
  exists job, js !! prf_job_key p = Some job /\ eph = is_ephemeral_job job
    /\ (eph = false -> executions st !! id = Some (queued_execution job id now now))
    /\ job_to_work_item job id now now 1 ∈ wave.

Definition adopt_inv (js : gmap string JobConfig) (q : WorkQueue) (now : instant) (st0 : St)
    (n0 : nat) (due rest : list PendingRegisterFire) (a : DispatchAcc) : Prop :=
  (n0 <= d_uuids a)%nat
  /\ job_states (d_store a) = job_states st0 /\ register_fires (d_store a) = register_fires st0
  /\ wave_ok js q n0 (d_uuids a) (d_wave a)
  /\ (forall p, p ∈ rest -> prf_job_key p ∉ map wi_job_key (d_wave a))
  /\ map execution_id (d_wave a) = map (fun d => d.1.2) (d_dispatched a)
  /\ map wi_job_key (d_wave a) = map (fun d => prf_job_key d.1.1) (d_dispatched a)
  /\ Forall (durable_adoption js now (d_store a) (d_wave a)) (d_dispatched a)
  /\ NoDup (map prf_job_key (d_pending a ++ rest))
  /\ (forall p, p ∈ due -> p ∈ rest \/ p ∈ d_pending a \/ js !! prf_job_key p = None
        \/ exists id eph, (p, id, eph) ∈ d_dispatched a)
  /\ (forall d, d ∈ d_dispatched a -> d.1.1 ∈ due /\ prf_job_key d.1.1 ∉ map prf_job_key (d_pending a)).

(** An entry that stays pending. *)
Lemma adopt_keep js q now st0 n0 due p rest a st n' :
  adopt_inv js q now st0 n0 due (p :: rest) a ->
  same_tables (d_store a) st -> (d_uuids a <= n')%nat ->
  adopt_inv js q now st0 n0 due rest
    (MkDispatch st (d_pending a ++ [p]) (d_wave a) (d_dispatched a) n').
Proof.
  intros (Hle & Hs & Hr & Hw & Hrest & Hids & Hkeys & Hdur & Hnd & Hall & Hdisp) (E1 & E2 & E3) Hn.
  split_and!; cbn; try (done || lia || congruence).
  - by eapply wave_ok_weaken.
  - intros p' Hp'. apply Hrest. by right.
  - eapply Forall_impl; [done|]. intros [[p' id] eph]. cbn. by rewrite E2.
  - by rewrite <- app_assoc.
  - intros p' Hp'. rewrite elem_of_app, list_elem_of_singleton.
    destruct (Hall p' Hp') as [[->|?]%elem_of_cons|[?|?]]; auto.
  - intros d Hd. destruct (Hdisp d Hd) as [Hdue Hni]. split; [done|].
    rewrite map_app, not_elem_of_app. split; [done|]. cbn. rewrite list_elem_of_singleton.
    intros Heq. apply (Hrest p); [by left|]. rewrite Hkeys, <- Heq.
    by apply (list_elem_of_fmap_2 (fun d => prf_job_key d.1.1)).
Qed.

(** An entry that is dispatched. *)
Lemma adopt_dispatch js q now st0 n0 due p rest a st job :
  let id := uuid (d_uuids a) in
  jobs_keyed js -> p ∈ due -> js !! prf_job_key p = Some job ->
  (is_ephemeral_job job = false -> at_depth_cap q job (prf_job_key p) = false) ->
  adopt_inv js q now st0 n0 due (p :: rest) a ->
  job_states st = job_states (d_store a) -> register_fires st = register_fires (d_store a) ->
  executions st = (if is_ephemeral_job job then executions (d_store a)
                   else <[id := queued_execution job id now now]> (executions (d_store a))) ->
  adopt_inv js q now st0 n0 due rest
    (MkDispatch st (d_pending a) (d_wave a ++ [job_to_work_item job id now now 1])
       (d_dispatched a ++ [(p, id, is_ephemeral_job job)]) (S (d_uuids a))).
Proof.
  intros id Hjs Hpd Hj Hcap (Hle & Hs & Hr & Hw & Hrest & Hids & Hkeys & Hdur & Hnd & Hall & Hdisp)
    E1 E3 E2.
  pose proof (Hjs _ _ Hj) as Hjc.
  rewrite <- Permutation_middle in Hnd. cbn [map] in Hnd. apply NoDup_cons in Hnd as [Hp Hnd].
  rewrite map_app, not_elem_of_app in Hp. destruct Hp as [Hp1 Hp2].
  split_and!; cbn; try (done || lia || congruence).
  - apply wave_ok_snoc; rewrite ?Hjc; try done. apply Hrest. by left.
  - intros p' Hp'. rewrite map_app, not_elem_of_app. split; [apply Hrest; by right|]. cbn.
    rewrite Hjc, list_elem_of_singleton. intros Heq. apply Hp2. rewrite <- Heq.
    by apply list_elem_of_fmap_2.
  - by rewrite !map_app, Hids.
  - rewrite !map_app, Hkeys. cbn. by rewrite Hjc.
  - apply Forall_app. split.
    + rewrite Forall_forall in Hdur |- *. intros [[p' id'] eph'] Hd.
      destruct (Hdur _ Hd) as (job' & H1 & H2 & H3 & H4). exists job'.
      split_and!; [done..| |apply elem_of_app; by left].
      intros He. rewrite E2. case_match; [by apply H3|]. rewrite lookup_insert_ne; [by apply H3|].
      apply not_eq_sym. eapply wave_id_old; [done|]. rewrite Hids.
      by apply (list_elem_of_fmap_2 (fun d => d.1.2) _ (p', id', eph')).
    + apply Forall_singleton. exists job. split_and!; [done..| |apply elem_of_app; right; by left].
      intros He. rewrite E2, He. apply lookup_insert_eq.
  - intros p' Hp'. destruct (Hall p' Hp') as [[->|?]%elem_of_cons|[?|[?|(id' & eph' & Hin)]]]; auto.
    + right; right; right. eexists _, _. apply elem_of_app. right. by left.
    + right; right; right. exists id', eph'. apply elem_of_app. by left.
  - intros d [Hd| ->%list_elem_of_singleton]%elem_of_app; [by apply Hdisp|done].
Qed.

Lemma dispatch_one_inv js q now st0 n0 due p rest a :
  jobs_keyed js -> p ∈ due ->
  adopt_inv js q now st0 n0 due (p :: rest) a ->
  adopt_inv js q now st0 n0 due rest (dispatch_one json_strings uuid js q now a p).
Proof.
  intros Hjs Hpd Ha. unfold dispatch_one.
  destruct (js !! prf_job_key p) as [job|] eqn:Hj.
  2: { destruct Ha as (Hle & Hs & Hr & Hw & Hrest & Hids & Hkeys & Hdur & Hnd & Hall & Hdisp).
       split_and!; try done.
       - intros p' Hp'. apply Hrest. by right.
       - rewrite <- Permutation_middle in Hnd. cbn [map] in Hnd. by apply NoDup_cons in Hnd as [_ ?].
       - intros p' Hp'. destruct (Hall p' Hp') as [[->|?]%elem_of_cons|?]; auto. }
  cbv zeta. destruct (negb (is_ephemeral_job job) && at_depth_cap q job (prf_job_key p)) eqn:Hcap.
  { apply adopt_keep; [done|by split_and!|lia]. }
  assert (is_ephemeral_job job = false -> at_depth_cap q job (prf_job_key p) = false) as Hcap'.
  { intros He. by rewrite He in Hcap. }
  destruct (is_ephemeral_job job) eqn:He.
  - rewrite <- He. eapply adopt_dispatch; try done; by rewrite He.
  - destruct (create_execution _ _) as [st r] eqn:E. apply create_execution_spec in E.
    destruct r as [u|e]; [|apply adopt_keep; [done..|lia]].
    destruct E as (E1 & E2 & E3). rewrite <- He. eapply adopt_dispatch; try done; by rewrite He.
Qed.

Lemma dispatch_all_inv js q now st0 n0 due rest a :
  jobs_keyed js -> (forall p, p ∈ rest -> p ∈ due) ->
  adopt_inv js q now st0 n0 due rest a ->
  adopt_inv js q now st0 n0 due [] (foldl (dispatch_one json_strings uuid js q now) a rest).
Proof.
  intros Hjs. revert a. induction rest as [|p rest IH]; intros a Hsub Ha; [done|]. cbn [foldl].
  apply IH; [intros p' Hp'; apply Hsub; by right|]. apply dispatch_one_inv; [done| |done].
  apply Hsub. by left.
Qed.
End Ticks.
