(* ===== verification/SchedulerTick.v ===== *)
(** * Ticks

    The theorems about [tick], [arm_register_fires] and the commands, from the
    facts about single triggers and single adoption fires. *)

From S2P Require Import Prelude RustStr Chrono Ast CalendarArgs DaySets Schedule Calendar.
From S2P Require Import Trigger TriggerSearch TriggerMachine Durations Execution RunnerTypes.
From S2P Require Import Queue Registry RunnerApi Store JobConfig Restore Quota RegisterFire.
From S2P Require Import Scheduler SchedulerFacts DemoServer.

Local Open Scope Z_scope.

Section TickTheorems.
  Context `{C : Chrono} `{J : Json} `{F : Fingerprint} {St : Type} `{JSL : JobStoreLaws St}.
  Context (json_strings : list string -> string) (uuid : nat -> string).
  Context {uuid_inj : Inj (=) (=) uuid}.

Abbreviation Loop := (SchedulerLoop (St := St)).
Abbreviation tick := (tick json_strings uuid).
Abbreviation dispatch_due := (dispatch_due_register_fires json_strings uuid).
Abbreviation queued_execution := (queued_execution json_strings).

(** What the loop maintains: the maps are keyed by the job key, the queue's
    counters are exact, no id still to be drawn is queued, and a job owes at
    most one adoption fire. *)
Definition loop_wf (l : Loop) : Prop :=
  trigs_keyed (triggers l) /\ jobs_keyed (jobs l) /\ queue_inv (queue (runner l))
  /\ fresh_from uuid (uuids_drawn l) (queue (runner l))
  /\ NoDup (map prf_job_key (pending_register_fires l)).

Lemma record_fires_frame {A} (f : A -> JobRegisterFire) (l : list A) (st : St) :
  job_states (foldl (fun st d => (upsert_register_fire st (f d)).1) st l) = job_states st
  /\ executions (foldl (fun st d => (upsert_register_fire st (f d)).1) st l) = executions st.
Proof.
  revert st. induction l as [|d l IH]; intros st; [done|]. cbn [foldl].
  destruct (IH (upsert_register_fire st (f d)).1) as [-> ->].
  destruct (upsert_register_fire st (f d)) as [st' r] eqn:E. apply upsert_register_fire_spec in E.
  destruct r; [by destruct E as (? & ? & _)|by destruct E as (? & ? & _)].
Qed.

(** An adoption fire that went out: its execution is stored and its item was
    queued. *)
Definition adoption_out (l l1 : Loop) (now : instant) (f : FiredExecution) : Prop :=
  exists p job i, p ∈ pending_register_fires l /\ prf_due_at p <= now
    /\ fe_job_key f = prf_job_key p /\ fe_fire_at f = now /\ fe_attempt f = 1
    /\ jobs l !! prf_job_key p = Some job /\ fe_is_ephemeral f = is_ephemeral_job job
    /\ (uuids_drawn l <= i < uuids_drawn l1)%nat /\ fe_execution_id f = uuid i
    /\ (is_ephemeral_job job = false ->
        executions (store l1) !! fe_execution_id f
        = Some (queued_execution job (fe_execution_id f) now now))
    /\ job_to_work_item job (fe_execution_id f) now now 1 ∈ items (queue (runner l1)).

Lemma partition_NoDup (b : PendingRegisterFire -> bool) l :
  NoDup (map prf_job_key l) ->
  NoDup (map prf_job_key (List.filter (fun p => negb (b p)) l ++ List.filter b l)).
Proof.
  intros Hnd. eapply NoDup_Permutation_proper; [|exact Hnd]. symmetry. apply Permutation_map. clear Hnd.
  induction l as [|p l IH]; [done|]. cbn. destruct (b p); cbn; [|by constructor].
  rewrite <- Permutation_middle. by constructor.
Qed.
(** The accumulator of [dispatch_due_register_fires], and what is done with it. *)
Definition due_fires (l : Loop) (now : instant) : list PendingRegisterFire :=
  List.filter (fun p => prf_due_at p <=? now) (pending_register_fires l).
Definition dispatch_acc (l : Loop) (now : instant) : DispatchAcc :=
  foldl (dispatch_one json_strings uuid (jobs l) (queue (runner l)) now)
    (MkDispatch (store l) (List.filter (fun p => negb (prf_due_at p <=? now)) (pending_register_fires l))
       [] [] (uuids_drawn l)) (due_fires l now).
Definition dispatch_finish (l : Loop) (a : DispatchAcc) (now : instant) : Loop * list FiredExecution :=
  (MkLoop (triggers l) (jobs l)
     (foldl (fun st d => (upsert_register_fire st (register_row d.1.1 now)).1)
        (d_store a) (d_dispatched a))
     (publish_wave (runner l) (d_wave a) now) (quota l) (d_pending a) (maintenance l) (d_uuids a),
   map (adoption_fired now) (d_dispatched a)).

Lemma dispatch_acc_inv l now :
  loop_wf l ->
  adopt_inv json_strings uuid (jobs l) (queue (runner l)) now (store l) (uuids_drawn l)
    (due_fires l now) [] (dispatch_acc l now).
Proof.
  intros (Htk & Hjk & Hq & Hf & Hnd). apply dispatch_all_inv; [done..|].
  split_and!; cbn; try done; try (intros; by apply not_elem_of_nil).
  - apply wave_ok_nil.
  - by apply partition_NoDup.
  - intros p Hp. by left.
  - intros d Hd. by apply not_elem_of_nil in Hd.
Qed.

Lemma dispatch_due_spec l now :
  loop_wf l ->
  let '(l1, adopted) := dispatch_due l now in
  loop_wf l1 /\ triggers l1 = triggers l /\ jobs l1 = jobs l /\ maintenance l1 = maintenance l
  /\ (uuids_drawn l <= uuids_drawn l1)%nat /\ job_states (store l1) = job_states (store l)
  /\ Forall (adoption_out l l1 now) adopted /\ NoDup (map fe_execution_id adopted)
  /\ (forall x, x ∈ items (queue (runner l1)) ->
        x ∈ items (queue (runner l)) \/ execution_id x ∈ map fe_execution_id adopted)
  /\ (forall key job, jobs l !! key = Some job -> is_ephemeral_job job = false ->
        Z.of_nat (count_for_job (queue (runner l)) key) <= default 10 (jc_max_queue_depth job) ->
        Z.of_nat (count_for_job (queue (runner l1)) key) <= default 10 (jc_max_queue_depth job)).
Proof.
  intros Hwf. pose proof (dispatch_acc_inv l now Hwf) as Ha.
  destruct Hwf as (Htk & Hjk & Hq & Hf & Hnd).
  change (dispatch_due l now) with (dispatch_finish l (dispatch_acc l now) now).
  set (a := dispatch_acc l now) in *. unfold dispatch_finish.
  destruct Ha as (Hle & Hs & _ & Hw & _ & Hids & Hkeys & Hdur & Hpn & _ & Hdisp).
  rewrite app_nil_r in Hpn.
  destruct (publish_ok uuid (jobs l) (runner l) (d_wave a) now (uuids_drawn l) (d_uuids a) Hq Hf Hw)
    as (Hq1 & Hit & Hf1).
  destruct (record_fires_frame (fun d : PendingRegisterFire * string * bool => register_row d.1.1 now)
    (d_dispatched a) (d_store a)) as [Ej Ee].
  split_and!; cbn; try done.
  - split_and!; cbn; try done. by apply Hf1.
  - congruence.
  - apply Forall_forall. intros f (d & -> & Hd)%list_elem_of_fmap.
    rewrite Forall_forall in Hdur. pose proof (Hdur d Hd) as Hdd. pose proof (Hdisp d Hd) as [Hdue _].
    destruct d as [[p id] eph]. cbn in Hdue. destruct Hdd as (job & Hj & -> & Hex & Hin).
    apply list_elem_of_In, filter_In in Hdue as [Hp Hdt%Z.leb_le].
    destruct Hw as (Hnk & _ & Hall). rewrite Forall_forall in Hall.
    destruct (Hall _ Hin) as [(i & Hi & Eid) _].
    exists p, job, i. cbn. rewrite Ee, Hit. split_and!; try done.
    + by apply list_elem_of_In.
    + lia.
    + lia.
    + by apply wave_items_new.
  - rewrite map_map. erewrite map_ext; [rewrite <- Hids; apply Hw|]. by intros [[? ?] ?].
  - rewrite Hit. intros x [Hx|Hx]%wave_items_source; [by left|]. right.
    assert (execution_id x ∈ map execution_id (d_wave a)) as Hid by by apply list_elem_of_fmap_2.
    rewrite Hids in Hid. rewrite map_map. by erewrite map_ext; [exact Hid|]; intros [[? ?] ?].
  - intros key job Hj He Hc. by eapply publish_depth.
Qed.
(** The adoption phase of a tick outside maintenance. *)
Definition adopt_phase (l : Loop) (now : instant) : Loop * list FiredExecution :=
  match pending_register_fires l with [] => (l, []) | _ => dispatch_due l now end.

Lemma adopt_phase_spec l now :
  loop_wf l ->
  let '(l1, adopted) := adopt_phase l now in
  loop_wf l1 /\ triggers l1 = triggers l /\ jobs l1 = jobs l /\ maintenance l1 = maintenance l
  /\ (uuids_drawn l <= uuids_drawn l1)%nat /\ job_states (store l1) = job_states (store l)
  /\ Forall (adoption_out l l1 now) adopted /\ NoDup (map fe_execution_id adopted)
  /\ (forall x, x ∈ items (queue (runner l1)) ->
        x ∈ items (queue (runner l)) \/ execution_id x ∈ map fe_execution_id adopted)
  /\ (forall key job, jobs l !! key = Some job -> is_ephemeral_job job = false ->
        Z.of_nat (count_for_job (queue (runner l)) key) <= default 10 (jc_max_queue_depth job) ->
        Z.of_nat (count_for_job (queue (runner l1)) key) <= default 10 (jc_max_queue_depth job)).
Proof.
  intros Hwf. unfold adopt_phase. destruct (pending_register_fires l) eqn:E.
  - split_and!; try done; [constructor..|]. intros x Hx. by left.
  - by apply dispatch_due_spec.
Qed.

Lemma tick_active l order mono now :
  is_active (maintenance l) now = false ->
  tick l order mono now =
  let '(l, adopted) := adopt_phase l now in
  let '(trs, a) := tick_loop json_strings uuid (jobs l) (queue (runner l)) mono false now order
                     (triggers l) (MkAcc (store l) (quota l) (uuids_drawn l) [] adopted []) in
  (MkLoop trs (jobs l) (t_store a) (publish_wave (runner l) (t_wave a) now) (t_quota a)
     (pending_register_fires l) (maintenance l) (t_uuids a),
   {| fired := t_fired a; maintenance_skipped := t_skipped a |}).
Proof.
  intros Hm. unfold Scheduler.tick, adopt_phase. rewrite Hm. cbv zeta. cbn [negb andb].
  by destruct (pending_register_fires l).
Qed.

(** The job and the rows of a fire a tick reports. *)
Definition fire_on_record (l l' : Loop) (now : instant) (f : FiredExecution) : Prop :=
  exists job, jobs l !! fe_job_key f = Some job /\ fe_is_ephemeral f = is_ephemeral_job job
  /\ (is_ephemeral_job job = false ->
      executions (store l') !! fe_execution_id f
      = Some (queued_execution job (fe_execution_id f) (fe_fire_at f) now)
      /\ job_to_work_item job (fe_execution_id f) (fe_fire_at f) (fe_fire_at f) 1
         ∈ items (queue (runner l'))).

(** Where a fire came from: an adoption fire that was due, or a trigger that
    was due, has advanced, and whose advance is stored. *)
Definition fire_origin (l l' : Loop) (now : instant) (f : FiredExecution) : Prop :=
  (exists p, p ∈ pending_register_fires l /\ prf_due_at p <= now
     /\ fe_job_key f = prf_job_key p /\ fe_fire_at f = now)
  \/ exists t, triggers l !! fe_job_key f = Some t /\ evaluate t now = Some (fe_fire_at f)
     /\ triggers l' !! fe_job_key f = Some (mark_fired t (fe_fire_at f) now)
     /\ job_states (store l') !! fe_job_key f
        = Some (fired_row (fe_job_key f) (mark_fired t (fe_fire_at f) now) (fe_fire_at f) now).

Lemma tick_spec l order mono now :
  loop_wf l -> NoDup order -> is_active (maintenance l) now = false ->
  let '(l', res) := tick l order mono now in
  loop_wf l' /\ jobs l' = jobs l /\ maintenance_skipped res = []
  /\ Forall (fun f => fire_on_record l l' now f /\ fire_origin l l' now f) (fired res)
  /\ NoDup (map fe_execution_id (fired res))
  /\ (forall x, x ∈ items (queue (runner l')) ->
        x ∈ items (queue (runner l)) \/ execution_id x ∈ map fe_execution_id (fired res))
  /\ (forall key job, jobs l !! key = Some job -> is_ephemeral_job job = false ->
        Z.of_nat (count_for_job (queue (runner l)) key) <= default 10 (jc_max_queue_depth job) ->
        Z.of_nat (count_for_job (queue (runner l')) key) <= default 10 (jc_max_queue_depth job)).
Proof.
  intros Hwf Hnd Hm. rewrite tick_active by done.
  pose proof (adopt_phase_spec l now Hwf) as Ha.
  destruct (adopt_phase l now) as [l1 adopted].
  destruct Ha as ((Htk & Hjk & Hq & Hf & Hpn) & Et & Ej & _ & Hle & Es & Had & Hadn & Hadq & Hadc).
  pose proof (tick_loop_inv json_strings uuid (jobs l1) (queue (runner l1)) mono now order
    (triggers l1) (triggers l1) (store l1) (uuids_drawn l1) adopted
    (MkAcc (store l1) (quota l1) (uuids_drawn l1) [] adopted []) Hjk Hnd) as Hl.
  destruct (tick_loop _ _ _ _ _ _ _ _ _ _) as [trs a].
  destruct Hl as ((Htk' & Hle' & _ & Hw & _ & Hex & new & Efd & Hids & Hkeys & Hdur) & Esk).
  { split_and!; cbn; try done; [apply wave_ok_nil| |]; [|exists []; rewrite app_nil_r; by split_and!].
    intros k _. split; [by apply not_elem_of_nil|done]. }
  destruct (publish_ok uuid (jobs l1) (runner l1) (t_wave a) now (uuids_drawn l1) (t_uuids a) Hq Hf Hw)
    as (Hq1 & Hit & Hf1).
  pose proof Hw as (Hnk & Hni & Hall). rewrite Forall_forall in Hall. rewrite Forall_forall in Had.
  rewrite Forall_forall in Hdur.
  split_and!; cbn; try done.
  - split_and!; cbn; try done. by apply Hf1.
  - rewrite Efd. apply Forall_app. split; apply Forall_forall; intros f Hfin.
    + destruct (Had f Hfin) as (p & job & i & Hp & Hdue & Ek & Efa & _ & Hj & Eeph & Hi & Eid & Hexe & Hin).
      split; [|left; by exists p]. exists job. rewrite Ek, Efa in *. split_and!; [done..|].
      intros He. cbn. rewrite Hex by (intros k Hk; rewrite Eid; intros ->%uuid_inj; lia).
      split; [by apply Hexe|]. rewrite Hit. apply wave_items_keep; [done|].
      intros x Hx Ekx. destruct (Hall x Hx) as [_ (job' & Hj' & -> & _)].
      cbn in Ekx. rewrite Ekx, Ej in Hj'. assert (jc_key job = prf_job_key p) as Hjc.
      { rewrite Ej in Hjk. by apply Hjk. }
      rewrite Hjc in Hj'. by simplify_eq.
    + destruct (Hdur f Hfin) as (t & job & H1 & H2 & H3 & H4 & H5 & H6 & H7 & H8).
      rewrite Et in H1. rewrite Ej in H2. split; [|right; exists t; by split_and!].
      exists job. split_and!; [done..|]. intros He. cbn. split; [by apply H7|].
      rewrite Hit. by apply wave_items_new.
  - rewrite Efd, map_app, Hids. apply NoDup_app. split_and!; [done| |done].
    intros id (f & -> & Hfin)%list_elem_of_fmap Hid.
    destruct (Had f Hfin) as (p & job & i & _ & _ & _ & _ & _ & _ & _ & Hi & Eid & _).
    apply list_elem_of_fmap in Hid as (x & Ex & Hx). destruct (Hall x Hx) as [(k & Hk & Ek) _].
    rewrite Eid, Ek in Ex. apply uuid_inj in Ex. lia.
  - rewrite Hit, Efd. intros x [Hx|Hx]%wave_items_source.
    + destruct (Hadq x Hx) as [?|?]; [by left|right]. rewrite map_app. apply elem_of_app. by left.
    + right. rewrite map_app, Hids. apply elem_of_app. right. by apply list_elem_of_fmap_2.
  - intros key job Hj He Hc. eapply publish_depth; try done; [by rewrite Ej|]. by apply Hadc.
Qed.
(** ** Maintenance *)

(** What the frozen loop does to one trigger. *)
Definition frozen (now : instant) (t : Trigger) : Trigger :=
  match evaluate t now with Some fa => skip_fire_in_memory t fa now | None => t end.

(** The fires the frozen loop reports as skipped. *)
Definition frozen_skips (l : Loop) (now : instant) (order : list string) : list SkippedFire :=
  omap (fun k => t ← triggers l !! k; fa ← evaluate t now; _ ← jobs l !! k;
                 Some {| sf_job_key := k; sf_fire_at := fa |}) order.

Lemma tick_one_frozen js q mono now t a :
  let '(t', a') := tick_one json_strings uuid js q mono true now t a in
  t' = frozen now t /\ t_wave a' = t_wave a /\ t_fired a' = t_fired a /\ t_quota a' = t_quota a
  /\ t_uuids a' = t_uuids a /\ executions (t_store a') = executions (t_store a)
  /\ register_fires (t_store a') = register_fires (t_store a)
  /\ t_skipped a' = t_skipped a ++
       option_list (fa ← evaluate t now; _ ← js !! job_key t;
                    Some {| sf_job_key := job_key t; sf_fire_at := fa |}).
Proof.
  unfold Scheduler.tick_one, frozen. destruct (evaluate t now) as [fa|] eqn:He; cbn.
  2: { by rewrite app_nil_r. }
  destruct (js !! job_key t) as [job|] eqn:Hj; cbn.
  2: { by rewrite app_nil_r. }
  unfold skip_to_store. cbn [skip_fire]. set (row := {| js_job_key := _ |}).
  destruct (upsert_job_state (t_store a) row) as [st r] eqn:E. apply upsert_job_state_spec in E.
  cbn. destruct r; unfold same_tables in E; naive_solver.
Qed.

Lemma tick_loop_frozen js q mono now order trs a :
  trigs_keyed trs -> NoDup order ->
  let '(trs', a') := tick_loop json_strings uuid js q mono true now order trs a in
  (forall k, trs' !! k = if decide (k ∈ order) then frozen now <$> trs !! k else trs !! k)
  /\ t_wave a' = t_wave a /\ t_fired a' = t_fired a /\ t_quota a' = t_quota a
  /\ t_uuids a' = t_uuids a /\ executions (t_store a') = executions (t_store a)
  /\ register_fires (t_store a') = register_fires (t_store a)
  /\ t_skipped a' = t_skipped a ++
       omap (fun k => t ← trs !! k; fa ← evaluate t now; _ ← js !! k;
                      Some {| sf_job_key := k; sf_fire_at := fa |}) order.
Proof.
  intros Htk Hnd. revert trs a Htk. induction Hnd as [|key order Hni Hnd IH]; intros trs a Htk.
  { cbn. rewrite app_nil_r. by split_and!. }
  cbn [tick_loop]. destruct (trs !! key) as [t|] eqn:Ht.
  2: { specialize (IH trs a Htk). destruct (tick_loop _ _ _ _ _ _ _ _ _ _) as [trs' a'].
       destruct IH as (H1 & H2 & H3 & H4 & H5 & H6 & H7 & H8). split_and!; [|done..|].
       - intros k. rewrite H1. destruct (decide (k = key)) as [->|Hk].
         + rewrite decide_False, decide_True, Ht by (done || by left). done.
         + apply decide_ext. rewrite elem_of_cons. naive_solver.
       - cbn [omap list_omap]. by rewrite Ht. }
  pose proof (tick_one_frozen js q mono now t a) as Ho.
  destruct (tick_one _ _ _ _ _ _ _ _ _) as [t' a1].
  destruct Ho as (-> & E1 & E2 & E3 & E4 & E5 & E6 & E7).
  pose proof (Htk _ _ Ht) as Hjk.
  assert (trigs_keyed (<[key := frozen now t]> trs)) as Htk'.
  { apply trigs_keyed_insert; [done|]. unfold frozen. case_match; [|done]. by rewrite skip_job_key. }
  specialize (IH _ a1 Htk'). destruct (tick_loop _ _ _ _ _ _ _ _ _ _) as [trs' a'].
  destruct IH as (H1 & H2 & H3 & H4 & H5 & H6 & H7 & H8). split_and!; try congruence.
  - intros k. rewrite H1. destruct (decide (k = key)) as [->|Hk].
    + rewrite decide_False, decide_True, Ht by (done || by left). by rewrite lookup_insert_eq.
    + rewrite lookup_insert_ne by done. apply decide_ext. rewrite elem_of_cons. naive_solver.
  - rewrite H8, E7, <- app_assoc. f_equal. rewrite Hjk. cbn [omap list_omap]. rewrite Ht.
    cbn [mbind option_bind]. 
    assert (omap (fun k => t0 ← <[key := frozen now t]> trs !! k; fa ← evaluate t0 now; _ ← js !! k;
                   Some {| sf_job_key := k; sf_fire_at := fa |}) order
            = omap (fun k => t0 ← trs !! k; fa ← evaluate t0 now; _ ← js !! k;
                   Some {| sf_job_key := k; sf_fire_at := fa |}) order) as ->.
    { apply list_omap_ext. apply Forall_Forall2_diag, Forall_forall. intros k Hk.
      by rewrite lookup_insert_ne by (intros ->; done). }
    destruct (evaluate t now) as [fa|]; cbn; [|done]. by destruct (js !! key).
Qed.
(** A whole tick under maintenance. *)
Lemma tick_frozen l order mono now :
  trigs_keyed (triggers l) -> NoDup order -> is_active (maintenance l) now = true ->
  let '(l', res) := tick l order mono now in
  fired res = [] /\ maintenance_skipped res = frozen_skips l now order
  /\ jobs l' = jobs l /\ runner l' = runner l /\ quota l' = quota l /\ uuids_drawn l' = uuids_drawn l
  /\ pending_register_fires l' = pending_register_fires l
  /\ executions (store l') = executions (store l)
  /\ register_fires (store l') = register_fires (store l)
  /\ (forall k, triggers l' !! k
        = if decide (k ∈ order) then frozen now <$> triggers l !! k else triggers l !! k).
Proof.
  intros Htk Hnd Hm. unfold Scheduler.tick. rewrite Hm. cbv zeta. cbn [negb andb].
  pose proof (tick_loop_frozen (jobs l) (queue (runner l)) mono now order (triggers l)
    (MkAcc (store l) (quota l) (uuids_drawn l) [] [] []) Htk Hnd) as H.
  destruct (tick_loop _ _ _ _ _ _ _ _ _ _) as [trs a]. cbn in H.
  destruct H as (H1 & H2 & H3 & H4 & H5 & H6 & H7 & H8). cbn. rewrite H2. by split_and!.
Qed.

(** Maintenance freezes dispatch without building a backlog: while it is
    active, a tick fires nothing, leaves the queue, the executions, the rate
    limit and the pending adoption fires exactly as they were, advances every
    due trigger it visits past its fire without counting it, leaves the others
    alone, and reports each skipped fire of a known job once. *)
Theorem maintenance_freezes_dispatch l order mono now :
  trigs_keyed (triggers l) -> NoDup order -> is_active (maintenance l) now = true ->
  let '(l', res) := tick l order mono now in
  fired res = [] /\ runner l' = runner l /\ quota l' = quota l
  /\ pending_register_fires l' = pending_register_fires l
  /\ executions (store l') = executions (store l)
  /\ register_fires (store l') = register_fires (store l)
  /\ maintenance_skipped res = frozen_skips l now order
  /\ (forall k t, triggers l !! k = Some t -> k ∈ order ->
        exists t', triggers l' !! k = Some t' /\ fire_count t' = fire_count t
          /\ last_fired_at t' = last_fired_at t
          /\ match evaluate t now with
             | Some fa => next_fire_at t' = next_fire_at (mark_fired t fa now)
             | None => t' = t
             end)
  /\ (forall k, k ∉ order -> triggers l' !! k = triggers l !! k).
Proof.
  intros Htk Hnd Hm. pose proof (tick_frozen l order mono now Htk Hnd Hm) as H.
  destruct (tick l order mono now) as [l' res].
  destruct H as (H1 & H2 & H3 & H4 & H5 & H6 & H7 & H8 & H9 & H10). split_and!; try done.
  - intros k t Ht Hk. rewrite H10, decide_True, Ht by done. cbn. eexists. split; [done|].
    unfold frozen. by destruct (evaluate t now).
  - intros k Hk. by rewrite H10, decide_False.
Qed.

(** C33. A tick never takes a queued job past its depth cap: whatever fires in
    it, scheduled or by adoption, a persisted job whose queue was within
    [max_queue_depth] (10 by default) still is afterwards. *)
Theorem tick_respects_depth_cap l order mono now key job :
  loop_wf l -> NoDup order -> jobs l !! key = Some job -> is_ephemeral_job job = false ->
  Z.of_nat (count_for_job (queue (runner l)) key) <= default 10 (jc_max_queue_depth job) ->
  Z.of_nat (count_for_job (queue (runner (tick l order mono now).1)) key)
  <= default 10 (jc_max_queue_depth job).
Proof.
  intros Hwf Hnd Hj He Hc. destruct (is_active (maintenance l) now) eqn:Hm.
  - destruct Hwf as [Htk _]. pose proof (tick_frozen l order mono now Htk Hnd Hm) as H.
    destruct (tick l order mono now) as [l' res]. destruct H as (_ & _ & _ & H & _). cbn. by rewrite H.
  - pose proof (tick_spec l order mono now Hwf Hnd Hm) as H.
    destruct (tick l order mono now) as [l' res]. destruct H as (_ & _ & _ & _ & _ & _ & H). by eapply H.
Qed.
(** ** Adoption fires go out once per definition *)

Definition fires_keyed (m : gmap string JobRegisterFire) : Prop :=
  forall k r, m !! k = Some r -> rf_job_key r = k.

Lemma recorded_hashes_lookup rows (m : gmap string JobRegisterFire) key :
  rows ≡ₚ (map_to_list m).*2 -> fires_keyed m ->
  recorded_hashes rows !! key = rf_config_hash <$> m !! key.
Proof.
  intros Hp Hk. unfold recorded_hashes.
  assert (NoDup (map rf_job_key rows)) as Hnd.
  { rewrite Hp. assert (map rf_job_key (map_to_list m).*2 = (map_to_list m).*1) as ->;
      [|apply NoDup_fst_map_to_list].
    rewrite <- list_fmap_compose. apply list_fmap_ext. intros i [k r] Hi. cbn.
    apply Hk. apply elem_of_map_to_list. by eapply list_elem_of_lookup_2. }
  assert (forall r, r ∈ rows <-> m !! rf_job_key r = Some r) as Hr.
  { intros r. rewrite Hp. rewrite list_elem_of_fmap. split.
    - intros ([k r'] & -> & Hin%elem_of_map_to_list). cbn. by rewrite (Hk _ _ Hin).
    - intros Hm. exists (rf_job_key r, r). split; [done|]. by apply elem_of_map_to_list. }
  assert (forall (acc : gmap string string) rows, NoDup (map rf_job_key rows) ->
    foldl (fun m row => <[rf_job_key row := rf_config_hash row]> m) acc rows !! key
    = match list_find (fun r => rf_job_key r = key) rows with
      | Some (_, r) => Some (rf_config_hash r) | None => acc !! key end) as Hfold.
  { clear. intros acc rows. revert acc. induction rows as [|r rows IH]; intros acc Hnd; [done|].
    cbn [map] in Hnd. apply NoDup_cons in Hnd as [Hni Hnd]. cbn [foldl list_find]. rewrite IH by done.
    destruct (decide (rf_job_key r = key)) as [<-|Hne].
    - destruct (list_find _ rows) as [[i r']|] eqn:E; cbn; [|by rewrite lookup_insert_eq].
      apply list_find_Some in E as (Hi & Heq & _). destruct Hni. rewrite <- Heq.
      apply list_elem_of_fmap_2. by eapply list_elem_of_lookup_2.
    - destruct (list_find _ rows) as [[i r']|]; cbn; [done|]. by rewrite lookup_insert_ne. }
  rewrite Hfold by done. destruct (list_find _ rows) as [[i r]|] eqn:E.
  - apply list_find_Some in E as (Hi & <- & _). apply list_elem_of_lookup_2 in Hi.
    apply Hr in Hi. by rewrite Hi.
  - apply list_find_None in E. destruct (m !! key) as [r|] eqn:Em; [|done].
    exfalso. pose proof (Hk _ _ Em) as Hkey. rewrite Forall_forall in E. apply (E r); [|done].
    apply Hr. by rewrite Hkey.
Qed.

(** A job whose current definition is on record is never armed again. *)
Lemma recorded_not_armed l now key job row :
  jobs_keyed (jobs l) -> fires_keyed (register_fires (store l)) ->
  jobs l !! key = Some job -> register_fires (store l) !! key = Some row ->
  rf_config_hash row = config_hash job ->
  key ∉ map prf_job_key (pending_register_fires (arm_register_fires l now)).
Proof.
  intros Hjk Hfk Hj Hrow Hh. unfold arm_register_fires.
  destruct (list_register_fires (store l)) as [st r] eqn:E.
  apply list_register_fires_spec in E as [_ Hr]. destruct r as [rows|e]; cbn; [|by apply not_elem_of_nil].
  intros (p & -> & Hp)%list_elem_of_fmap.
  apply plan_elem in Hp as (job' & Hin & _ & (t & Hne & _ & _ & _ & Hk & _)%plan_job_Some).
  rewrite Hk in *. apply list_elem_of_fmap in Hin as ([k j] & -> & Hin%elem_of_map_to_list). cbn in *.
  pose proof (Hjk _ _ Hin) as Ejk. rewrite Ejk in Hj. simplify_eq.
  apply Hne. rewrite (recorded_hashes_lookup rows _ _ Hr Hfk), Hrow. cbn. by rewrite Hh.
Qed.
Definition record_all (now : instant) (st : St) (l : list (PendingRegisterFire * string * bool)) : St :=
  foldl (fun st d => (upsert_register_fire st (register_row d.1.1 now)).1) st l.

Lemma record_all_cons now st d l :
  record_all now st (d :: l)
  = record_all now (upsert_register_fire st (register_row d.1.1 now)).1 l.
Proof. done. Qed.

Lemma record_one_cases st p now :
  let st' := (upsert_register_fire st (register_row p now)).1 in
  register_fires st' = <[prf_job_key p := register_row p now]> (register_fires st)
  \/ register_fires st' = register_fires st.
Proof.
  destruct (upsert_register_fire st (register_row p now)) as [st' r] eqn:E.
  apply upsert_register_fire_spec in E. cbn. destruct r; [left|right]; by destruct E as (_ & _ & ?).
Qed.

Lemma record_all_keyed now l st :
  fires_keyed (register_fires st) -> fires_keyed (register_fires (record_all now st l)).
Proof.
  revert st. induction l as [|d l IH]; intros st Hk; [done|].
  rewrite record_all_cons. apply IH. destruct (record_one_cases st d.1.1 now) as [->| ->]; [|done].
  intros k r. rewrite lookup_insert_Some. intros [[<- <-]|[_ Hr]]; [done|by apply Hk].
Qed.

Lemma record_all_other now l st key :
  key ∉ map (fun d => prf_job_key d.1.1) l ->
  register_fires (record_all now st l) !! key = register_fires st !! key.
Proof.
  revert st. induction l as [|d l IH]; intros st Hk; [done|]. cbn [map] in Hk.
  apply not_elem_of_cons in Hk as [Hne Hk].
  rewrite record_all_cons, IH by done. destruct (record_one_cases st d.1.1 now) as [->| ->]; [|done]. by rewrite lookup_insert_ne.
Qed.

Lemma record_all_lookup now l st d :
  NoDup (map (fun d => prf_job_key d.1.1) l) -> d ∈ l ->
  register_fires (record_all now st l) !! prf_job_key d.1.1 = Some (register_row d.1.1 now)
  \/ register_fires (record_all now st l) !! prf_job_key d.1.1 = register_fires st !! prf_job_key d.1.1.
Proof.
  revert st. induction l as [|d' l IH]; intros st Hnd Hd; [by apply not_elem_of_nil in Hd|].
  cbn [map] in Hnd. apply NoDup_cons in Hnd as [Hni Hnd].
  rewrite record_all_cons. apply elem_of_cons in Hd as [->|Hd].
  - rewrite record_all_other by done.
    destruct (record_one_cases st d'.1.1 now) as [->| ->]; [left; by rewrite lookup_insert_eq|by right].
  - destruct (IH (upsert_register_fire st (register_row d'.1.1 now)).1 Hnd Hd) as [?|E]; [by left|right].
    rewrite E.
    destruct (record_one_cases st d'.1.1 now) as [->| ->]; [|done]. rewrite lookup_insert_ne; [done|].
    intros Heq. apply Hni. rewrite Heq. by apply (list_elem_of_fmap_2 (fun d => prf_job_key d.1.1)).
Qed.

Lemma filter_key_unique {A} (k : A -> string) l x :
  NoDup (map k l) -> x ∈ l -> length (filter (fun y => k y = k x) l) = 1%nat.
Proof.
  induction l as [|y l IH]; intros Hnd Hx; [by apply not_elem_of_nil in Hx|].
  cbn [map] in Hnd. apply NoDup_cons in Hnd as [Hni Hnd].
  apply elem_of_cons in Hx as [->|Hx].
  - rewrite filter_cons_True by done. cbn. f_equal.
    assert (forall z, z ∈ l -> k z <> k y) as Hz.
    { intros z Hz He. apply Hni. rewrite <- He. by apply list_elem_of_fmap_2. }
    clear - Hz. induction l as [|z l IH]; [done|]. rewrite filter_cons_False.
    + apply IH. intros z' Hz'. apply Hz. by right.
    + apply Hz. by left.
  - rewrite filter_cons_False; [by apply IH|]. intros He. apply Hni. rewrite He.
    by apply list_elem_of_fmap_2.
Qed.

(** ** The invariant across ticks, commands and the other tasks *)

Definition set_shared (st : St) (r : AppState) (drawn : nat) (l : Loop) : Loop :=
  MkLoop (triggers l) (jobs l) st r (quota l) (pending_register_fires l) (maintenance l) drawn.

(** What happens to the loop's state in a running server: ticks, commands with
    triggers built for their job, the maintenance switch, and what the other tasks
    of the process (polls, completions, manual triggers, retries, requeues) do to
    the store, the runner state and the source of ids they share with the loop.
    Of those it is only asked that they keep the queue exact, as the operations of
    the server do ([ServerFacts.server_keeps_queue_exact]), and that no id that is
    still to be drawn is in the queue. *)
Inductive loop_step : Loop -> Loop -> Prop :=
| ls_tick l order mono now : NoDup order -> loop_step l (tick l order mono now).1
| ls_add l job t now : job_key t = jc_key job -> loop_step l (apply_command l (AddJob job t) now)
| ls_remove l key now : loop_step l (apply_command l (RemoveJob key) now)
| ls_reload l trs js now : trigs_keyed trs -> loop_step l (apply_command l (Reload trs js) now)
| ls_shared l st r drawn :
    (uuids_drawn l <= drawn)%nat -> queue_inv (queue r) -> fresh_from uuid drawn (queue r) ->
    loop_step l (set_shared st r drawn l)
| ls_maintenance l m : loop_step l (set_maintenance_handle l m).

Lemma carry_over_job_key old t now : job_key (carry_over_state old t now) = job_key t.
Proof.
  unfold carry_over_state. cbv zeta. case_bool_decide; [by case_if|].
  destruct (next_fire_at old) as [pending|]; [|done].
  destruct (carry_over_pending_fire _ _ _) as [t' o] eqn:E.
  assert (job_key t' = job_key t) by
    (unfold carry_over_pending_fire, resume, rearm in E; repeat case_match; by simplify_eq).
  by destruct o.
Qed.

Lemma jobs_by_key_keyed js : jobs_keyed (jobs_by_key js).
Proof.
  unfold jobs_by_key. assert (jobs_keyed (∅ : gmap string JobConfig)) as H0.
  { intros k j. by rewrite lookup_empty. }
  revert H0. generalize (∅ : gmap string JobConfig). induction js as [|j js IH]; intros m Hm; [done|].
  cbn [foldl]. apply IH. intros k j'. rewrite lookup_insert_Some.
  intros [[<- <-]|[_ H]]; [done|by apply Hm].
Qed.

Lemma arm_wf l now :
  trigs_keyed (triggers l) -> jobs_keyed (jobs l) -> queue_inv (queue (runner l)) ->
  fresh_from uuid (uuids_drawn l) (queue (runner l)) -> loop_wf (arm_register_fires l now).
Proof.
  intros H1 H2 H3 H4. unfold arm_register_fires. destruct (list_register_fires (store l)) as [st r].
  destruct r as [rows|e]; split_and!; cbn; try done; [|constructor].
  apply plan_keys_NoDup. assert (map jc_key (map_to_list (jobs l)).*2 = (map_to_list (jobs l)).*1) as ->;
    [|apply NoDup_fst_map_to_list].
  rewrite <- list_fmap_compose. apply list_fmap_ext. intros i [k j] Hi. cbn.
  apply H2. apply elem_of_map_to_list. by eapply list_elem_of_lookup_2.
Qed.

Lemma loop_step_wf l l' : loop_wf l -> loop_step l l' -> loop_wf l'.
Proof.
  intros Hwf Hs. destruct Hs as [l order mono now Hnd|l job t now Hk|l key now|l trs js now Htrs
    |l st r drawn _ Hq' Hf'|l m].
  - destruct (is_active (maintenance l) now) eqn:Hm.
    + pose proof Hwf as (Htk & Hjk & Hq & Hf & Hn). pose proof (tick_frozen l order mono now Htk Hnd Hm) as H.
      destruct (tick l order mono now) as [l' res].
      destruct H as (_ & _ & E1 & E2 & _ & E3 & E4 & _ & _ & E5). cbn.
      split_and!; rewrite ?E1, ?E2, ?E3, ?E4; try done.
      intros k t Hk. rewrite E5 in Hk. revert Hk. case_decide; [|by apply Htk].
      intros (t0 & Ht0 & ->)%fmap_Some. unfold frozen. case_match; rewrite ?skip_job_key; by apply Htk.
    + pose proof (tick_spec l order mono now Hwf Hnd Hm) as H.
      destruct (tick l order mono now). by destruct H.
  - destruct Hwf as (Htk & Hjk & Hq & Hf & Hn). split_and!; cbn; try done.
    + intros k t'. rewrite lookup_insert_Some. intros [[<- <-]|[_ H]]; [|by apply Htk].
      case_match; rewrite ?carry_over_job_key; done.
    + intros k j. rewrite lookup_insert_Some. intros [[<- <-]|[_ H]]; [done|by apply Hjk].
  - destruct Hwf as (Htk & Hjk & Hq & Hf & Hn). split_and!; cbn; try done.
    + intros k t. rewrite lookup_delete_Some. intros [_ H]. by apply Htk.
    + intros k j. rewrite lookup_delete_Some. intros [_ H]. by apply Hjk.
  - destruct Hwf as (Htk & Hjk & Hq & Hf & Hn). apply arm_wf; cbn; try done.
    + intros k t. unfold reload_triggers. rewrite map_lookup_imap.
      intros (t0 & Ht0 & [= <-])%bind_Some. case_match; rewrite ?carry_over_job_key; by apply Htrs.
    + apply jobs_by_key_keyed.
  - by destruct Hwf as (Htk & Hjk & Hq & Hf & Hn).
  - by destruct Hwf as (Htk & Hjk & Hq & Hf & Hn).
Qed.
(** In every state the loop reaches from boot by ticks, job commands, reloads,
    maintenance changes and the steps of the tasks it shares its state with,
    whatever the store calls return: triggers and jobs sit under their own key, no execution is
    queued twice, the counter behind the depth cap is exact, no fresh execution
    id is already queued, and a job owes at most one adoption fire. *)
Theorem scheduler_loop_invariant trs js st r boot l :
  trigs_keyed trs -> queue_inv (queue r) -> fresh_from uuid 0 (queue r) ->
  rtc loop_step (loop_new trs js st r boot) l ->
  (forall k t, triggers l !! k = Some t -> job_key t = k)
  /\ (forall k j, jobs l !! k = Some j -> jc_key j = k)
  /\ NoDup (map execution_id (items (queue (runner l))))
  /\ (forall k, count_for_job (queue (runner l)) k
              = length (filter (fun i => wi_job_key i = k) (items (queue (runner l)))))
  /\ (forall i, (uuids_drawn l <= i)%nat -> uuid i ∉ map execution_id (items (queue (runner l))))
  /\ NoDup (map prf_job_key (pending_register_fires l)).
Proof.
  intros Ht Hq Hf Hr. assert (loop_wf l) as (H1 & H2 & H3 & H4 & H5).
  { assert (loop_wf (loop_new trs js st r boot)) as H0.
    { apply arm_wf; cbn; try done. apply jobs_by_key_keyed. }
    revert H0. induction Hr as [|? ? ? Hs _ IH]; [done|]. intros H0. apply IH. by eapply loop_step_wf. }
  split_and!; try done; [apply H3|]. intros k. by apply count_for_job_exact.
Qed.

(** Adding, replacing or removing a job through a command keeps the snapshot
    the HTTP side reads equal to the loop's own trigger map. *)
Lemma snapshot_stays_in_sync (l : Loop) cmd now :
  (forall trs js, cmd <> Reload trs js) ->
  let '(l', snapshot') := apply_command_synced l (triggers l) cmd now in
  snapshot' = triggers l'.
Proof.
  intros Hc. unfold apply_command_synced. destruct cmd as [job t|key|trs js]; cbn.
  - by rewrite lookup_insert_eq.
  - by rewrite lookup_delete_eq.
  - by destruct (Hc trs js).
Qed.
End TickTheorems.

Section TickLaws.
  Context `{CL : ChronoLaws} `{J : Json} `{F : Fingerprint} {St : Type} `{JSL : JobStoreLaws St}.
  Context (json_strings : list string -> string) (uuid : nat -> string).
  Context {uuid_inj : Inj (=) (=) uuid}.

(** C1. What a tick reports is what it did. Every fire has an id of its own; a
    fire of a persisted job has its queued execution row in the store and its
    item in the queue; the queue gains nothing else; and a fire is either a due
    adoption fire, or the fire of a trigger that was due at that instant, has
    advanced, and whose stored row holds the advance - a row that is strictly
    past the fire, so a crash and restart after the tick never fires that
    instant again. *)
Theorem tick_fires_are_durable (l : SchedulerLoop (St := St)) order mono now :
  loop_wf uuid l -> NoDup order -> is_active (maintenance l) now = false ->
  (forall k t, triggers l !! k = Some t -> trigger_ok t /\ date_monotone (timezone t)) ->
  let '(l', res) := tick json_strings uuid l order mono now in
  NoDup (map fe_execution_id (fired res))
  /\ (forall x, x ∈ items (queue (runner l')) ->
        x ∈ items (queue (runner l)) \/ execution_id x ∈ map fe_execution_id (fired res))
  /\ Forall (fun f =>
       (fe_is_ephemeral f = false -> exists ex item,
          executions (store l') !! fe_execution_id f = Some ex /\ ex_state ex = EQueued
          /\ ex_job_key ex = fe_job_key f /\ ex_fire_at ex = fe_fire_at f /\ ex_attempt ex = 1
          /\ item ∈ items (queue (runner l')) /\ execution_id item = fe_execution_id f
          /\ wi_job_key item = fe_job_key f)
       /\ ((exists p, p ∈ pending_register_fires l /\ prf_due_at p <= now
              /\ fe_job_key f = prf_job_key p /\ fe_fire_at f = now)
           \/ exists t row, triggers l !! fe_job_key f = Some t /\ evaluate t now = Some (fe_fire_at f)
              /\ triggers l' !! fe_job_key f = Some (mark_fired t (fe_fire_at f) now)
              /\ job_states (store l') !! fe_job_key f = Some row
              /\ js_next_fire_at row = next_fire_at (mark_fired t (fe_fire_at f) now)
              /\ js_fire_count row = fire_count (mark_fired t (fe_fire_at f) now)
              /\ (forall n, js_next_fire_at row = Some n -> fe_fire_at f < n))) (fired res).
Proof.
  intros Hwf Hnd Hm Hok. pose proof (tick_spec json_strings uuid l order mono now Hwf Hnd Hm) as H.
  destruct (tick json_strings uuid l order mono now) as [l' res].
  destruct H as (_ & _ & _ & Hf & Hids & Hq & _). split_and!; [done..|].
  eapply Forall_impl; [exact Hf|]. intros f [(job & Hj & He & Hrec) Horig].
  destruct Hwf as (_ & Hjk & _). pose proof (Hjk _ _ Hj) as Hjc. split.
  - intros Hne. rewrite He in Hne. destruct (Hrec Hne) as [Hex Hin].
    eexists _, _. split_and!; [exact Hex|try done..|exact Hin| |]; done.
  - destruct Horig as [?|(t & Ht & Hev & Ht' & Hrow)]; [by left|right].
    exists t. eexists. split_and!; [done..| |]; [done|]. cbn. intros n Hn.
    destruct (Hok _ _ Ht). eapply mark_fired_later; [done..| |exact Hn].
    by apply evaluate_Some in Hev as (_ & _ & ? & _).
Qed.
End TickLaws.

(** ** An example *)

#[global] Instance demo_fingerprint : Fingerprint | 100 := {| config_hash := demo_hash |}.

Definition demo_adoption : PendingRegisterFire := {|
  prf_job_key := "billing:sync"; prf_config_hash := "10mbilling:sync";
  prf_due_at := seconds 108000; prf_reason := FirstRegistration |}.

(** One gated job, due, owing an adoption fire as well. *)
Definition demo_loop : SchedulerLoop (C := Demo.demo_chrono) (St := MemStore) := MkLoop
  {["billing:sync"%string := demo_trigger]} {["billing:sync"%string := demo_job "billing:sync" true]}
  (MkMem ∅ ∅ ∅ []) (app_new 0) guard_new [demo_adoption] maintenance_off 0.

Lemma empty_queue_inv : queue_inv queue_new.
Proof. split; [constructor|]. intros k. exact (lookup_empty k). Qed.

Lemma demo_loop_wf : loop_wf demo_uuid demo_loop.
Proof.
  split_and!.
  - intros k t Ht. cbn [triggers demo_loop] in Ht. by apply lookup_singleton_Some in Ht as [<- <-].
  - intros k j Hj. cbn [jobs demo_loop] in Hj. by apply lookup_singleton_Some in Hj as [<- <-].
  - exact empty_queue_inv.
  - intros i _. by apply not_elem_of_nil.
  - apply NoDup_singleton.
Qed.

Abbreviation demo_tick l := (tick (C := Demo.demo_chrono) (String.concat ",") demo_uuid l
  ["billing:sync"%string] (fun _ => 0) (seconds 108001)).

Lemma tick_fires_are_durable_witness :
  let '(l', res) := demo_tick demo_loop in
  NoDup (map fe_execution_id (fired res))
  /\ (forall x, x ∈ items (queue (runner l')) ->
        x ∈ items (queue (runner demo_loop)) \/ execution_id x ∈ map fe_execution_id (fired res)).
Proof.
  pose proof (tick_fires_are_durable (CL := Demo.demo_laws) (String.concat ",") demo_uuid demo_loop
    ["billing:sync"%string] (fun _ => 0) (seconds 108001) demo_loop_wf) as H.
  destruct (demo_tick demo_loop) as [l' res].
  destruct H as (H1 & H2 & _); [apply NoDup_singleton|reflexivity| |done].
  intros k t Ht. cbn [triggers demo_loop] in Ht. apply lookup_singleton_Some in Ht as [<- <-].
  split; [exact demo_trigger_ok|]. exact (fixed_offset_date_monotone _ _ utc_fixed).
Defined.

(** The tick of the example makes both fires. *)
Lemma demo_tick_fires : map fe_execution_id (fired (demo_tick demo_loop).2) = ["e"; "0e"]%string.
Proof. vm_compute. reflexivity. Qed.

Lemma tick_respects_depth_cap_witness :
  Z.of_nat (count_for_job (queue (runner (demo_tick demo_loop).1)) "billing:sync") <= 2.
Proof.
  apply (tick_respects_depth_cap (C := Demo.demo_chrono) (String.concat ",") demo_uuid demo_loop
    ["billing:sync"%string] (fun _ => 0) (seconds 108001) "billing:sync"
    (demo_job "billing:sync" true) demo_loop_wf).
  - apply NoDup_singleton.
  - apply lookup_singleton_eq.
  - reflexivity.
  - vm_compute. discriminate.
Defined.

Lemma maintenance_freezes_dispatch_witness :
  let l := set_maintenance_handle demo_loop
             {| manual_active := true; window_start := None; window_end := None; ms_note := None;
                ms_updated_by := None; ms_updated_at := None; ms_active_since := None |} in
  let '(l', res) := demo_tick l in
  fired res = [] /\ runner l' = runner demo_loop
  /\ pending_register_fires l' = [demo_adoption]
  /\ maintenance_skipped res = [{| sf_job_key := "billing:sync"; sf_fire_at := seconds 108000 |}].
Proof.
  cbv zeta. set (l := set_maintenance_handle _ _).
  pose proof (maintenance_freezes_dispatch (C := Demo.demo_chrono) (String.concat ",") demo_uuid l
    ["billing:sync"%string] (fun _ => 0) (seconds 108001)) as H.
  destruct (demo_tick l) as [l' res].
  destruct H as (H1 & H2 & _ & H3 & _ & _ & H4 & _); [exact (proj1 demo_loop_wf)|apply NoDup_singleton|reflexivity|].
  split_and!; [done|done|done|]. rewrite H4. vm_compute. reflexivity.
Defined.


Lemma scheduler_loop_invariant_witness :
  let l := (demo_tick (loop_new (C := Demo.demo_chrono) {["billing:sync"%string := demo_trigger]}
              [demo_job "billing:sync" true] (MkMem ∅ ∅ ∅ [true; false; true]) (app_new 0) 0)).1 in
  NoDup (map execution_id (items (queue (runner l))))
  /\ NoDup (map prf_job_key (pending_register_fires l)).
Proof.
  cbv zeta. set (l0 := loop_new _ _ _ _ _).
  destruct (scheduler_loop_invariant (C := Demo.demo_chrono) (String.concat ",") demo_uuid
    {["billing:sync"%string := demo_trigger]} [demo_job "billing:sync" true]
    (MkMem ∅ ∅ ∅ [true; false; true]) (app_new 0) 0 (demo_tick l0).1) as (_ & _ & H1 & _ & _ & H2).
  - exact (proj1 demo_loop_wf).
  - exact empty_queue_inv.
  - intros i _. by apply not_elem_of_nil.
  - apply rtc_once. constructor. apply NoDup_singleton.
  - by split.
Defined.
